(* ===== verification/_CoqProject ===== *)
-Q . S2P
Prelude.v
Statistics.v
ShadowStack.v
BuffersQueue.v
CallsCollector.v
Analyzer.v
XXHash.v
Threads.v
ModuleTracker.v
Events.v
Scheduler.v
Sessions.v
Conversation.v
Marshalled.v
Sdb.v
Reqm.v
Intel.v
Translation.v
Jumper.v
PatchManager.v
PodVector.v
FrontendPatcher.v
Strings.v
Logger.v
Hierarchy.v
Views.v
Histogram.v
Models.v
Channels.v
Join.v
Derived.v
Symbols.v
Elf.v
Frontend.v
ModuleMetadata.v
Columns.v
Cumulative.v
Headers.v
ImagePatch.v
Manager.v
Allocators.v
CallsTable.v
CollectorApp.v
Archive.v
Messages.v
EndToEnd.v
Merged.v
Persistence.v
AsyncFiles.v
Wire.v
Exchange.v
Scales.v
Rulers.v
Intervals.v
LogWriter.v
