(* ===== verification/Prelude.v ===== *)
(** * micro-profiler: a verified model

    micro-profiler measures the calls of a running process.  A _collector_ lives in the process: its
    hooks record every call, threads hand over their records in buffers, an analyzer turns them into
    call graphs.  A _front-end_ in another process asks for what was collected, resolves addresses to
    symbols, keeps everything in tables, and shows the tables.  Between the two are sessions over
    byte streams.  A _patcher_ puts the hooks in, by rewriting the machine code of functions.

    This library translates these parts from the sources (C++, the paths are relative to src/) and
    proves what makes them correct.  Each definition that translates code carries a comment with the
    file, the lines and the symbol it translates.

    ** The parts, and how they fit together

    The way of a call through the collector:
    - [CallsCollector] (collector/calls_collector_thread.h, src/calls_collector_thread.cpp): what the
      hooks do on entry and on exit, with the stack of return addresses, tail calls and unwinding.
      It writes to a trace, an interface ([trace_sink]).
    - [BuffersQueue] (collector/buffers_queue.h): the trace of one thread, in buffers that circulate
      between it and the reader.  Producer and reader are interleaved in atomic steps.
    - [Threads] (collector/thread_monitor.h, thread_queue_manager.h): the numbers and the life of
      threads, and the queue of each.
    - [Statistics], [ShadowStack], [Analyzer] (common/primitives.h, collector/primitives.h,
      shadow_stack.h, analyzer.h): records become times of nodes of a call graph, per thread.
    - [ModuleTracker], [XXHash] (collector/module_tracker.h, src/module_tracker.cpp,
      src/xxhash32.h): what is mapped into the process, and the hashes of its files.
    - [CollectorApp] (collector/src/collector_app.cpp, active_server_app.cpp): the thread that serves
      the front-end puts [Analyzer], [ModuleTracker], [Threads] and [PatchManager] together and runs
      until the process ends and the front-end has gone.

    The patcher:
    - [Intel] (patcher/src/intel, common/range.h, common/src/memory.cpp): memory, the lengths of
      instructions, jumps, placeholders.
    - [Translation] (patcher/src/intel/binary_translation_x86.cpp): code is moved, and references into
      a displaced range are redirected, with a way back.
    - [Jumper] (patcher/src/jumper.cpp, dynamic_hooking.cpp): one function is diverted to the hooks.
    - [PatchManager] (patcher/src/image_patch_manager.cpp): all the functions of all the images, over
      an interface of patches ([patch_ops]) that the jumpers implement.
    - [Allocators] (common/allocator.h, pool_allocator.h, memory.h): the allocators, each against the
      same contract ([allocator_laws]); trampolines come from the executable one.

    Between the processes:
    - [Events] (mt/src): the events that queues and schedulers wait on, made of a mutex and a condition
      variable; what is called at the end of a thread.
    - [Scheduler] (scheduler/task_queue.h, private_queue.h): deferred tasks.
    - [Channels] (ipc/src: pipes and sockets): messages over byte streams, the socket server.
    - [Sessions], [Marshalled] (ipc/client_session.h, server_session.h, src/marshalled_session.cpp):
      requests and responses, and sessions that live in the thread of somebody else; [Conversation] is the two ends
      of a session together.
    - [Reqm] (reqm/multiplexing_request.h): many who ask for one thing.
    - [PodVector] (common/pod_vector.h, stream.h) and [Strings] (common/formatting.h, string.cpp):
      what messages are made in and of.  [Intervals] has times and threads as text.
    - [Archive], [Messages] (collector, common and frontend/serialization.h): an interface of archives
      ([strmd]) and what the program writes and reads through it: the call graphs as a message.

    The front-end:
    - [Sdb], [Join] (sdb): tables, indices, groups and joins that follow the tables by signals.
    - [Frontend], [Symbols], [FrontendPatcher] (frontend/src): updates, threads, the end of a
      session; addresses to symbols; requests to patch.
    - [ModuleMetadata] (frontend/src/frontend_metadata.cpp): the metadata of modules, fetched by requests
      of [Reqm], with the callbacks of those who wait called one by one.
    - [CallsTable] (frontend/serialization.h, keyer.h, constructors.h): call graphs are read into one
      table of calls; [EndToEnd] puts it behind [CollectorApp].
    - [Wire] (common/serialization.h, the callbacks of frontend/src/frontend.cpp): requests and responses as
      bytes, and the tables of the front-end that the responses are read into.  [Exchange] puts both
      processes together: their sessions, their requests and callbacks, what is under way between them.
    - [Manager] (frontend/src/frontend_manager.cpp): the sessions with their windows.
    - [Persistence] (frontend/persistence.h, sdb/serialization.h): sessions in files, of all versions.
    - [AsyncFiles] (frontend/async_file.h, scheduler/src/private_queue.cpp, common/src/file_stream.cpp):
      files that workers read and write for the front-end, its cache of metadata among them.
    - [Hierarchy], [Views], [Models] (frontend/hierarchy.h, views, frontend/table_model_impl.h,
      selection_model.h): the order of call trees, sorted, filtered and nested views, the tables and
      the selections that windows show.
    - [Derived] (frontend/src/derived_statistics.cpp, representation.cpp): the callers and the callees of
      the selected functions, made of groups over joins.  [Cumulative] (frontend/keyer.h): the calls of all
      threads in one tree; [Merged] puts it behind [EndToEnd].
    - [Columns], [Headers], [ImagePatch] (frontend/src/columns_layout.cpp, headers_model.cpp,
      image_patch_model.cpp): what the tables are sorted by and what they print; the order and the widths
      that are kept between the runs; the list of the functions that can be patched.

    Apart from these:
    - [Histogram], [Scales] (math): counts in the bins of a scale, and the values that share them out; both in
      archives.  [Rulers] (math/scale_ruler.h, display_scale.h): the ticks and the bars of a picture of them.
    - [Elf] (common/src/elf): the functions that are found in the bytes of an image.
    - [Logger] (logger): the messages of many threads, each made in the buffer of its thread.  [LogWriter]
      (logger/src/writer.cpp): the file that each process that logs to a path gets.

    ** How the code is modelled

    Everything is executable.  An operation that can fail returns a [result] of this file: a value, an
    exception, or [UB] where the code has no defined behaviour (the end of a container or a null
    pointer dereferenced, an empty stack popped); many theorems say that [UB] is not reached.
    Integers are [Z]; where the code computes at a width, [uw] and [sw] of this file wrap them.
    Shared objects are states that are passed on; records of tables and nodes of graphs that the code
    points to are named by handles and by paths.  Concurrency is a sequence of atomic steps, over which
    the theorems quantify.  Callbacks that change the caller's state under its feet (an executor of
    [Reqm], a handler of the socket server) are steps between the iterations of the loop.

    What is not in the repository is a parameter with the promises the code relies on: archives
    ([archive] of the sessions, [strmd] of messages and files: what is put is read back, [strmd_streams]: from the
    beginning of the stream on), the order of unordered containers ([equal_order], [file_order]: some permutation), the ready queue ([ready_queue]), [std::sort] ([std_sort]: for
    a strict weak order it permutes and sorts), malloc and mmap ([system_laws]), the growth of a
    vector, the clock, the system's view of modules, threads and page protections.  Every theorem
    with such a hypothesis is applied to a concrete instance at the end of its file.

    ** What is shown

    Of the collector: the trace a thread writes is well bracketed whatever the hooks see, and is that
    of the calls ([collected_trace_valid], [profile_body], [on_exit_unwinds]); the queue delivers what
    was put, in order and within its bounds, and neither side waits for ever ([queue_order],
    [queue_bounds], [no_lost_wakeup], [reader_unblocks]); times are conserved and are those of the
    calls less the overhead ([balanced_conservation], [update_balanced], [update_returns_iff]).
    Nothing is lost between the collector and the front-end, however updates, exit and disconnection
    interleave ([updates_lossless]), and the table of the front-end, read from what was sent, shows
    along every path what the analysis of all the calls gives ([table_of_calls]); read from the bytes
    that were sent ([message_roundtrip]) and merged over the threads it shows along every path the sums
    over them ([cumulative_view]), and the merged tree follows the table ([cumulative_follows]).  Both
    processes together, whatever each of them does, in whatever order the messages between them are
    taken and whenever the connection is lost: the front-end never fails on what it is told, the process is given
    the requests that were made, and when it was told all it has every module, every
    thread and the calls of every thread ([exchange_mirrors], by way of [tables_mirror],
    [request_roundtrip] and [payload_roundtrip]); a
    front-end that follows the updates knows what is mapped ([modules_followed]) and is answered when
    it asks for it ([followed_answered]), and the worker ends exactly when it should ([worker_exits]).

    Of the patcher: every length of an instruction is found, a moved function is a copy with its targets as long as they
    are within reach, redirection is exact and can be taken back ([ldisasm_total], [move_function_targets], [references_redirected],
    [offset_rolls_back], [translation_terminates]); a diverted function calls the hooks and
    one that is restored, unless its jumper was detached, is what it was ([jumper_diverts], [jumper_restores]); the counts and results of the
    manager are true ([apply_patches], [revert_patches_done]); the allocators keep their blocks apart
    ([pool_allocator_laws], [executable_allocator_laws]).

    Between the processes: messages arrive whole and in order ([socket_roundtrip], [pipe_roundtrip],
    [socket_round_safe]), a response reaches the request it belongs to, a session is told what was
    asked in its order, a callback that was let go is not called ([response_reaches_request],
    [marshalled_session_order], [multiplexing_safe], [released_never_called]).  An event is a boolean
    that is set, reset and waited for at once, and nobody waits for one that is set ([event_atomic],
    [event_settles]): the other files take it so.

    Of the front-end: groups and joins are what they would be if computed anew, as long as changes keep the keys ([group_by_recomputes],
    [join_exact]); symbols are those that cover the address, metadata are fetched once and reach all
    who wait, whatever is asked and released meanwhile ([resolver_exact], [metadata_served]); the session ends once, when nothing is missing
    ([finalize_disconnects_once]); marks of patches are those of requests under way
    ([frontend_marks_pending]); a table shows its tree in the order of each of its columns and a selection is a set
    ([columns_show_tree], [selection_is_set]); the callers and callees account for all the calls of the selected functions, and
    activating one goes to its calls ([representation_accounts], [filtered_shows], [activate_selects]); the headers survive
    their configuration ([headers_kept]); a session survives being saved, whatever the order in which unordered maps
    are written, and older files are read for what they have ([session_roundtrip], [older_sessions], [legacy_sessions]); files are read and
    written aside without a request being used after it was let go, every request that is not is
    answered, and what is found in the cache is the whole of what was stored ([async_files_safe],
    [async_files_answer], [cache_whole], [cache_paths_apart]); the list of patches is complete and in order ([patches_listed]); the instances of the manager live exactly as long as they are needed ([manager_safe],
    [close_all_ends]).

    Of the histograms: adding them is counting together, and every partition is found without a division
    by zero ([merge_counts_together], [partitions_located]); read from an archive they are added or moved towards
    what is read ([additive_counts], [interpolating_between]); rulers show all of their ticks, in order, with
    numbers that lose nothing, and bins are in the middle of their bars ([linear_ruler_ticks], [log_ruler_ticks],
    [centers_displayed]).  Of the log: threads do not mix their
    messages, and every message arrives whole ([logger_threads_apart], [messages_whole]); processes that log to one
    path write to different files ([writers_apart]).  Of the images: the
    functions of the code are found, with their names ([functions_enumerated]).

    Of the texts: an interval is printed in the unit in which it has three digits, and threads can be told
    apart ([itoa_prints], [interval_scaled], [thread_texts_apart]).

    Some lemmas show that the code does not do what it means to, on concrete inputs or in general:
    [policy_change_deadlock], [policy_growth_overruns], [lock_mapping_unloaded], [double_subscription],
    [single_nop_corrupts], [ldisasm_rex_immediate], [unicode_truncates], [tiny_vector_overruns],
    [stale_disconnect_stops], [cut_message_delivered], [partial_length_undefined],
    [lost_thread_becomes_cumulative], [far_address_aliases], [map_failure_unseen],
    [unknown_module_terminates], [crossing_request_undefined], [late_initialization_undefined],
    [short_write_silent], [far_value_undefined], [average_wraps], [negative_average_last], [short_file_undefined],
    [short_counts_undefined], [ruler_stalls], [empty_ruler_undefined], [root_directory_lost],
    [far_copy_misleads], [rekeyed_group_stale], [nested_symbol_hides], [nested_request_called_twice].  Theorems about the same code exclude these cases in their
    hypotheses.

    ** Bounds and fuel

    Loops that do not follow the structure of a list take fuel, and a theorem or lemma of the file
    shows that the fuel they are given is enough: one more than the bytes of a body in [Translation]
    ([translation_terminates]); 15 for the prefixes of an instruction, of which the code looks at 14
    ([ldisasm_total]); the length of the data in [XXHash] and [Strings]; the number of messages plus
    one in [Channels], the number of handlers plus one for a round ([socket_round_safe]); the size of
    the table for the ancestors of a node in [Hierarchy] ([path_loop_path]); the readings of the clock
    until the time is over in [Scheduler] ([execute_ready_returns]); the largest number of buffers in
    [BuffersQueue] ([refill_spec]); the size of the range in [Views] ([filter_iterates],
    [flatten_iterates]); one more than the files that are locked in [LogWriter] ([open_writers_names]); the depth of the graphs for what reads them in [Messages], where the fuel is the
    depth of the recursion of the code ([message_fits] says that it is enough).  Identifiers and counters wrap at their widths in the definitions; theorems
    that need them not to have wrapped say so (fewer than 2^32 modules, requests or handlers).

    ** Not modelled

    - The system: the enumeration of modules and threads, debug libraries, files and the registry, page protection, thread-local storage, mutexes and condition
      variables (whose promises the atomic steps of [Events] and of the queues state).
    - Assembly: the hooks and the code of the trampolines; the events of [CallsCollector] are what they
      pass on.
    - How values are bytes: the packing is a library that is not in the tree.  What is written and read
      through it is modelled for all the messages, the sessions in files and histograms.
    - Floating point: what scales compute with it is a parameter of [Histogram]; [Rulers] shows with the floating
      point numbers of 32 bits where its ticks go wrong, and is right with integers, [Intervals] is with rational numbers.  Calibration measures.
    - COM endpoints, the injector, the explorer, the extension of the IDE, the standalone application
      and the windows: glue and libraries.
    - Vendored headers (macos-compat, android-compat) and the hash map that is compiled out.
    - The catching of exceptions by the language: a handler that throws ends the thread it is on.

    [Exchange] takes a connection for what hands whole messages over in their order, as [Channels] shows of
    pipes and sockets; what the front-end asks for is an event, and [Frontend] says when it asks. *)

From stdpp Require Export base option list gmap numbers strings sorting.
From Stdlib Require Export ZArith Lia.
#[export] Set Default Proof Using "Type".

(** * Outcomes of an operation

    An operation of the source either returns, throws one of the exceptions it names, or runs
    into undefined behaviour (a read past the end of a container, the back of an empty stack, a
    null dereference).  The last case is kept apart from the exceptions, so that a theorem can say
    that it is never reached. *)

Inductive exn : Type :=
  | invalid_argument | runtime_error | logic_error | bad_alloc | out_of_range
  | insufficient_buffer_error (requested available : Z)
  | inconsistent_function_range_exception | offset_prohibited
  | padding_insufficient | leading_too_short | currently_prohibited.

Inductive result (A : Type) : Type :=
  | Ret (a : A)
  | Throw (e : exn)
  | UB.
Arguments Ret {A} a.
Arguments Throw {A} e.
Arguments UB {A}.

#[export] Instance exn_eq_dec : EqDecision exn.
Proof. solve_decision. Defined.
#[export] Instance result_eq_dec {A} `{EqDecision A} : EqDecision (result A).
Proof. solve_decision. Defined.

#[export] Instance result_ret : MRet result := λ A a, Ret a.
#[export] Instance result_bind : MBind result := λ A B f r,
  match r with Ret a => f a | Throw e => Throw e | UB => UB end.

Definition returns {A} (r : result A) : Prop := match r with Ret _ => True | _ => False end.

Lemma Ret_inj {A} (a b : A) : Ret a = Ret b → a = b.
Proof. by intros [= ->]. Qed.

Lemma bind_Ret {A B} (f : A → result B) (a : A) : (Ret a ≫= f) = f a.
Proof. done. Qed.

Lemma bind_assoc_result {A B C} (r : result A) (f : A → result B) (g : B → result C) :
  ((r ≫= f) ≫= g) = (r ≫= λ a, f a ≫= g).
Proof. by destruct r. Qed.

(** A left fold in the monad: the shape of the loops [for (; i != end; ++i) step(state, *i)]. *)
Section foldr_m.
Context {S A : Type} (step : S → A → result S).

Fixpoint fold_m (s : S) (l : list A) : result S :=
  match l with
  | [] => Ret s
  | a :: l => s' ← step s a; fold_m s' l
  end.

Lemma fold_m_app s l1 l2 : fold_m s (l1 ++ l2) = (s' ← fold_m s l1; fold_m s' l2).
Proof.
  revert s; induction l1 as [|a l1 IH]; intros s; simpl; [done|].
  destruct (step s a); simpl; auto.
Qed.

Lemma fold_m_invariant (P : S → Prop) :
  (∀ s a s', P s → step s a = Ret s' → P s') →
  ∀ l s s', P s → fold_m s l = Ret s' → P s'.
Proof.
  intros Hstep l; induction l as [|a l IH]; intros s s' HP; simpl.
  - by intros [= <-].
  - destruct (step s a) as [s1| |] eqn:E; simpl; [|done..]. eauto.
Qed.
End foldr_m.

(** Loops over the parts of the elements are one loop over all the parts. *)
Lemma fold_m_nested {S A B} (f : S → B → result S) (g : A → list B) (l : list A) s :
  fold_m (λ s a, fold_m f s (g a)) s l = fold_m f s (l ≫= g).
Proof.
  revert s. induction l as [|a l IH]; intros s; [done|]. rewrite bind_cons, fold_m_app. simpl.
  destruct (fold_m f s (g a)); simpl; auto.
Qed.

(** The size of a container, as the integer the source computes with. *)
Abbreviation len l := (Z.of_nat (length l)).

(** Elements of a list are told apart by a function whose values are all different. *)
Lemma NoDup_map_elem {A B} (f : A → B) (l : list A) x y :
  NoDup (map f l) → x ∈ l → y ∈ l → f x = f y → x = y.
Proof.
  induction l as [|a l IH]; simpl; [by intros _ ?%elem_of_nil|].
  intros [Hn Hnd]%NoDup_cons Hx Hy Heq.
  apply elem_of_cons in Hx as [->|Hx], Hy as [->|Hy]; [done|..|by apply IH].
  - destruct Hn. rewrite Heq. by apply list_elem_of_fmap_2.
  - destruct Hn. rewrite <- Heq. by apply list_elem_of_fmap_2.
Qed.

Lemma filter_all_elem {A} (P : A → Prop) `{∀ x, Decision (P x)} (l : list A) :
  (∀ x, x ∈ l → P x) → filter P l = l.
Proof.
  induction l as [|a l IH]; intros HP; [done|].
  rewrite filter_cons_True by (apply HP; by left). f_equal. apply IH. intros x Hx. apply HP. by right.
Qed.

Lemma Forall_filter_2 {A} (Q P : A → Prop) `{∀ x, Decision (P x)} (l : list A) :
  Forall Q l → Forall Q (filter P l).
Proof. rewrite !Forall_forall. intros HQ x [_ Hx]%list_elem_of_filter. auto. Qed.

Lemma NoDup_map_filter {A B} (f : A → B) (P : A → Prop) `{∀ x, Decision (P x)} (l : list A) :
  NoDup (map f l) → NoDup (map f (filter P l)).
Proof.
  induction l as [|a l IH]; [done|]. simpl. intros [Hn Hnd]%NoDup_cons.
  destruct (decide (P a)); [rewrite filter_cons_True by done|rewrite filter_cons_False by done; auto].
  simpl. apply NoDup_cons. split; [|auto]. intros (b & Hab & Hb)%list_elem_of_fmap.
  apply list_elem_of_filter in Hb as [_ Hb]. destruct Hn. rewrite Hab. by apply list_elem_of_fmap_2.
Qed.

(** * Machine integers *)

(** [uw w x] is the value of [x] converted to an unsigned type of [w] bits, [sw w x] to a signed
    one (two's complement). *)
Definition uw (w x : Z) : Z := x mod 2 ^ w.
Definition sw (w x : Z) : Z := (x + 2 ^ (w - 1)) mod 2 ^ w - 2 ^ (w - 1).

Abbreviation u8 := (uw 8).
Abbreviation u16 := (uw 16).
Abbreviation u32 := (uw 32).
Abbreviation u64 := (uw 64).
Abbreviation s8 := (sw 8).
Abbreviation s32 := (sw 32).
Abbreviation s64 := (sw 64).

Definition in_u (w x : Z) : Prop := (0 ≤ x < 2 ^ w)%Z.
Definition in_s (w x : Z) : Prop := (- 2 ^ (w - 1) ≤ x < 2 ^ (w - 1))%Z.

Section words.
Local Open Scope Z_scope.
Context (w : Z) (Hw : 0 < w).

Lemma pow_w_pos : 0 < 2 ^ w.
Proof using Hw. lia. Qed.

Lemma pow_w_half : 2 ^ w = 2 * 2 ^ (w - 1).
Proof using Hw. rewrite <- Z.pow_succ_r by lia. f_equal. lia. Qed.

Lemma uw_range x : in_u w (uw w x).
Proof using Hw. apply Z.mod_pos_bound, pow_w_pos. Qed.

Lemma sw_range x : in_s w (sw w x).
Proof using Hw.
  unfold in_s, sw. pose proof pow_w_half.
  pose proof (Z.mod_pos_bound (x + 2 ^ (w - 1)) (2 ^ w) pow_w_pos). lia.
Qed.

Lemma uw_small x : in_u w x → uw w x = x.
Proof using Hw. apply Z.mod_small. Qed.

Lemma uw_small_eq x y : x = y → in_u w y → uw w x = y.
Proof using Hw. intros ->. apply uw_small. Qed.

Lemma sw_small x : in_s w x → sw w x = x.
Proof using Hw.
  unfold in_s, sw. pose proof pow_w_half. intros ?. rewrite Z.mod_small; lia.
Qed.

Lemma sw_mod x y : x mod 2 ^ w = y mod 2 ^ w → sw w x = sw w y.
Proof using Hw.
  intros H. unfold sw.
  by rewrite (Zplus_mod x), H, <- Zplus_mod.
Qed.

Lemma sw_congr x : sw w x mod 2 ^ w = x mod 2 ^ w.
Proof using Hw.
  unfold sw. rewrite Zminus_mod, Zmod_mod, <- Zminus_mod. f_equal. lia.
Qed.

Lemma uw_congr x : uw w x mod 2 ^ w = x mod 2 ^ w.
Proof using Hw. apply Zmod_mod. Qed.

Lemma sw_add_l x y : sw w (sw w x + y) = sw w (x + y).
Proof using Hw. apply sw_mod. by rewrite Zplus_mod, sw_congr, <- Zplus_mod. Qed.
Lemma sw_add_r x y : sw w (x + sw w y) = sw w (x + y).
Proof using Hw. rewrite Z.add_comm, sw_add_l. f_equal. lia. Qed.
Lemma sw_sub_l x y : sw w (sw w x - y) = sw w (x - y).
Proof using Hw. apply sw_mod. by rewrite Zminus_mod, sw_congr, <- Zminus_mod. Qed.
Lemma sw_sub_r x y : sw w (x - sw w y) = sw w (x - y).
Proof using Hw. apply sw_mod. by rewrite Zminus_mod, sw_congr, <- Zminus_mod. Qed.
Lemma sw_opp x : sw w (- sw w x) = sw w (- x).
Proof using Hw.
  replace (- sw w x) with (0 - sw w x) by lia. rewrite sw_sub_r. f_equal.
Qed.
Lemma sw_sw x : sw w (sw w x) = sw w x.
Proof using Hw. apply sw_mod, sw_congr. Qed.

Lemma uw_add_l x y : uw w (uw w x + y) = uw w (x + y).
Proof using Hw. unfold uw. by rewrite Zplus_mod_idemp_l. Qed.
Lemma uw_add_r x y : uw w (x + uw w y) = uw w (x + y).
Proof using Hw. unfold uw. by rewrite Zplus_mod_idemp_r. Qed.
Lemma uw_sub_l x y : uw w (uw w x - y) = uw w (x - y).
Proof using Hw. unfold uw. by rewrite Zminus_mod_idemp_l. Qed.
Lemma uw_sub_r x y : uw w (x - uw w y) = uw w (x - y).
Proof using Hw. unfold uw. by rewrite Zminus_mod_idemp_r. Qed.
Lemma uw_mul_l x y : uw w (uw w x * y) = uw w (x * y).
Proof using Hw. unfold uw. by rewrite Zmult_mod_idemp_l. Qed.
Lemma uw_mul_r x y : uw w (x * uw w y) = uw w (x * y).
Proof using Hw. unfold uw. by rewrite Zmult_mod_idemp_r. Qed.
Lemma uw_uw x : uw w (uw w x) = uw w x.
Proof using Hw. apply Zmod_mod. Qed.
End words.

(** The rewriting base that erases the inner conversions of a wrapped sum. *)
Create Rewrite HintDb words.
#[export] Hint Rewrite sw_add_l sw_add_r sw_sub_l sw_sub_r sw_opp sw_sw
  uw_add_l uw_add_r uw_sub_l uw_sub_r uw_mul_l uw_mul_r uw_uw using lia : words.

(** Equality modulo [2 ^ w], a congruence for the ring operations: conversions can be erased at any
    depth of a term by setoid rewriting. *)
Definition eqm (w x y : Z) : Prop := (x mod 2 ^ w = y mod 2 ^ w)%Z.

#[export] Instance eqm_equiv w : Equivalence (eqm w).
Proof. split; unfold eqm; congruence. Qed.
#[export] Instance eqm_add w : Proper (eqm w ==> eqm w ==> eqm w) Z.add.
Proof. unfold eqm. intros a b H c d H'. by rewrite Zplus_mod, H, H', <- Zplus_mod. Qed.
#[export] Instance eqm_sub w : Proper (eqm w ==> eqm w ==> eqm w) Z.sub.
Proof. unfold eqm. intros a b H c d H'. by rewrite Zminus_mod, H, H', <- Zminus_mod. Qed.
#[export] Instance eqm_mul w : Proper (eqm w ==> eqm w ==> eqm w) Z.mul.
Proof. unfold eqm. intros a b H c d H'. by rewrite Zmult_mod, H, H', <- Zmult_mod. Qed.
#[export] Instance eqm_opp w : Proper (eqm w ==> eqm w) Z.opp.
Proof. intros a b H. rewrite <- !Z.sub_0_l. by rewrite H. Qed.

Lemma sw_eqm w x : (0 < w)%Z → eqm w (sw w x) x.
Proof. intros. by apply sw_congr. Qed.
Lemma uw_eqm w x : eqm w (uw w x) x.
Proof. apply Zmod_mod. Qed.
Lemma sw_eqm_eq w x y : (0 < w)%Z → eqm w x y → sw w x = sw w y.
Proof. intros. by apply sw_mod. Qed.
Lemma uw_eqm_eq w x y : eqm w x y → uw w x = uw w y.
Proof. done. Qed.

(** * Little endian values *)

Section little_endian.
Local Open Scope Z_scope.

Fixpoint le_bytes (v : Z) (n : nat) : list Z :=
  match n with O => [] | S n => v mod 256 :: le_bytes (v / 256) n end.

Fixpoint le_value (l : list Z) : Z :=
  match l with [] => 0 | b :: l => b + 256 * le_value l end.

Lemma le_bytes_length v n : length (le_bytes v n) = n.
Proof. revert v; induction n as [|n IH]; intros v; simpl; [done|by rewrite IH]. Qed.

Lemma le_value_bytes v n : 0 ≤ v < 256 ^ Z.of_nat n → le_value (le_bytes v n) = v.
Proof.
  revert v. induction n as [|n IH]; intros v Hv; [simpl in *; lia|].
  rewrite Nat2Z.inj_succ, Z.pow_succ_r in Hv by lia. cbn [le_bytes le_value].
  rewrite IH by (split; [apply Z.div_pos; lia|apply Z.div_lt_upper_bound; lia]).
  pose proof (Z.div_mod v 256). lia.
Qed.
End little_endian.

(** [wsolve] proves an equation between wrapped sums: go to equality modulo the width, erase the
    inner conversions, compare what is left as integers. *)
Ltac wsolve :=
  first
    [ lia
    | first [apply sw_eqm_eq; [lia|] | apply uw_eqm_eq];
      repeat first [rewrite sw_eqm by lia | rewrite uw_eqm];
      unfold eqm; f_equal; lia ].

#[global] Arguments uw : simpl never.
#[global] Arguments sw : simpl never.
