(* ===== verification/Statistics.v ===== *)
(** Function statistics and the call graph nodes they are kept in (src/common/primitives.h,
    src/collector/primitives.h, src/collector/types.h).

    A [call_graph_node] owns a map of its callees; node addresses are stable, and the shadow stack
    keeps pointers into the graph between two calls.  A node is therefore identified here by the
    list of callees that leads to it from the root map, and the heap of nodes is one finite map
    from these paths: [*previous->callees][k] is the entry at [path ++ [k]]. *)

From S2P Require Import Prelude.
Local Open Scope Z_scope.

(** [common/primitives.h:27-36] function_statistics *)
Record function_statistics := mk_stats {
  times_called : Z;      (* count_t, unsigned 64 bit *)
  inclusive_time : Z;    (* timestamp_t, signed 64 bit *)
  exclusive_time : Z;
  max_call_time : Z
}.

(** [common/primitives.h:42-46] function_statistics::function_statistics *)
Definition function_statistics_default : function_statistics := mk_stats 0 0 0 0.

#[export] Instance function_statistics_eq_dec : EqDecision function_statistics.
Proof. solve_decision. Defined.

(** [common/primitives.h:50-57] add(function_statistics &, timestamp_t, timestamp_t) *)
Definition add_times (lhs : function_statistics) (rhs_inclusive rhs_exclusive : Z)
    : function_statistics :=
  mk_stats (u64 (times_called lhs + 1))
           (s64 (inclusive_time lhs + rhs_inclusive))
           (s64 (exclusive_time lhs + rhs_exclusive))
           (if max_call_time lhs <? rhs_inclusive then rhs_inclusive else max_call_time lhs).

(** [common/primitives.h:59-66] add(function_statistics &, const function_statistics &) *)
Definition add_stats (lhs rhs : function_statistics) : function_statistics :=
  mk_stats (u64 (times_called lhs + times_called rhs))
           (s64 (inclusive_time lhs + inclusive_time rhs))
           (s64 (exclusive_time lhs + exclusive_time rhs))
           (if max_call_time lhs <? max_call_time rhs then max_call_time rhs
            else max_call_time lhs).

(** [collector/types.h:28-32] call_record *)
Record call_record := mk_record { timestamp : Z; callee : Z (* 0 marks a return *) }.

(** [collector/types.h:34-38] return_entry *)
Record return_entry := mk_return { stack_ptr : Z; return_address : Z }.

(** A node of the call graph, named by the callees from the root to it. *)
Abbreviation path := (list Z).

(** All nodes of a call graph ([call_graph_types::nodes_map] with everything reachable from it). *)
Abbreviation nodes_map := (gmap (list Z) function_statistics).

(** The callees of a node: [call_graph_node::callees], or the root map for the empty path. *)
(** [collector/primitives.h:30-42] call_graph_node *)
Definition callees_of (m : nodes_map) (p : path) (k : Z) : option function_statistics :=
  m !! (p ++ [k]).

(** The path of the node that holds this one in its [callees]. *)
Definition parent_path (p : path) : path := take (length p - 1) p.

(** ** Laws of [add] *)

(** The values a node can hold: a counter and sums in range, and a maximum that started at 0. *)
Definition wf_stats (s : function_statistics) : Prop :=
  in_u 64 (times_called s) ∧ in_s 64 (inclusive_time s) ∧ in_s 64 (exclusive_time s)
  ∧ 0 ≤ max_call_time s.

Definition wf_nodes (m : nodes_map) : Prop := map_Forall (λ _, wf_stats) m.

Lemma stats_eq a b :
  times_called a = times_called b → inclusive_time a = inclusive_time b →
  exclusive_time a = exclusive_time b → max_call_time a = max_call_time b → a = b.
Proof. destruct a, b; simpl; congruence. Qed.

Lemma if_ltb_max a b : (if a <? b then b else a) = Z.max a b.
Proof. destruct (Z.ltb_spec a b); lia. Qed.

(** Equality of two statistics, field by field: the sums by [wsolve], the maxima by [lia]. *)
Ltac stats_crush :=
  apply stats_eq; simpl; rewrite ?if_ltb_max, ?Z.add_0_r;
  first [lia | solve [wsolve] | idtac].

Lemma add_times_wf s i e : wf_stats s → wf_stats (add_times s i e).
Proof.
  intros (?&?&?&?). split_and!; simpl.
  - by apply uw_range.
  - by apply sw_range.
  - by apply sw_range.
  - rewrite if_ltb_max; lia.
Qed.

Lemma default_wf : wf_stats function_statistics_default.
Proof. done. Qed.

Lemma add_stats_wf a b : wf_stats a → wf_stats b → wf_stats (add_stats a b).
Proof.
  intros (?&?&?&?) (?&?&?&?). split_and!; simpl.
  - by apply uw_range.
  - by apply sw_range.
  - by apply sw_range.
  - rewrite if_ltb_max; lia.
Qed.

#[export] Hint Resolve add_times_wf default_wf add_stats_wf : stats.

Lemma add_stats_assoc a b c : add_stats a (add_stats b c) = add_stats (add_stats a b) c.
Proof. stats_crush. Qed.

Lemma add_stats_comm a b : add_stats a b = add_stats b a.
Proof. stats_crush. Qed.

Lemma add_stats_default_r a : wf_stats a → add_stats a function_statistics_default = a.
Proof.
  intros (?&?&?&?). stats_crush; [by apply uw_small|by apply sw_small..].
Qed.

(** Adding a call to the right operand adds it to the sum: what lets a client that merges batches
    see the same totals as one that received a single batch. *)
Lemma add_stats_add_times a b i e :
  add_stats a (add_times b i e) = add_times (add_stats a b) i e.
Proof. stats_crush. Qed.
