(* ===== verification/ShadowStack.v ===== *)
(** The shadow stack (src/collector/shadow_stack.h): a trace of enter/return records of one thread
    is turned into inclusive and exclusive times of call graph nodes.

    The stack is a list with its top first ([back()] is the head), the graph is the [nodes_map] of
    Statistics.v and a [function_statistics *] into it is a path.  A trace that returns more often
    than it enters makes the code read [back()] of an empty stack: that is [UB] here. *)

From S2P Require Import Prelude Statistics.
Local Open Scope Z_scope.

(** [common/types.h:48-54] overhead *)
Record overhead := mk_overhead { inner : Z; outer : Z }.

(** [collector/shadow_stack.h:55-69] shadow_stack::stack_record *)
Record stack_record := mk_frame {
  frame_callee : Z;
  enter_at : Z;
  children_time_observed : Z;
  children_overhead : Z;
  function : path;       (* the node this frame accounts to *)
  callees : path         (* the node whose callees it opens; the root map for the first frame *)
}.

(** [collector/shadow_stack.h:30-53] shadow_stack *)
Record shadow_stack := mk_shadow {
  inner_overhead : Z;
  total_overhead : Z;
  stack : list stack_record
}.

(** [collector/shadow_stack.h:73-76] shadow_stack::shadow_stack: the first frame is pushed with no
    initialisation, so its content is arbitrary ([junk]). *)
Definition shadow_stack_new (o : overhead) (junk : stack_record) : shadow_stack :=
  mk_shadow (inner o) (s64 (inner o + outer o)) [junk].

(** [collector/shadow_stack.h:156-160] stack_record::get_slow *)
Definition get_slow (m : nodes_map) (p : path) (k : Z) : path * nodes_map :=
  (p ++ [k], <[p ++ [k] := function_statistics_default]> m).

(** [collector/shadow_stack.h:149-154] stack_record::get *)
Definition get (m : nodes_map) (p : path) (k : Z) : path * nodes_map :=
  match callees_of m p k with
  | Some _ => (p ++ [k], m)
  | None => get_slow m p k
  end.

Definition set_target (r : stack_record) (p : path) : stack_record :=
  mk_frame (frame_callee r) (enter_at r) (children_time_observed r) (children_overhead r) p p.

(** [collector/shadow_stack.h:115-130] stack_record::reset_stack: from the bottom of the stack up,
    every frame is re-bound to the node reached from the one below it. *)
Fixpoint reset_stack (st : list stack_record) (m : nodes_map)
    : result (list stack_record * nodes_map) :=
  match st with
  | [] => UB
  | r :: below =>
      match below with
      | [] => Ret ([set_target r []], m)
      | _ :: _ =>
          '(below', m') ← reset_stack below m;
          match below' with
          | [] => UB
          | previous :: _ =>
              let '(p, m'') := get m' (callees previous) (frame_callee r) in
              Ret (set_target r p :: below', m'')
          end
      end
  end.

(** [collector/shadow_stack.h:132-147] stack_record::enter *)
Definition enter (st : list stack_record) (entry : call_record) (m : nodes_map)
    : result (list stack_record * nodes_map) :=
  match st with
  | [] => UB
  | previous :: _ =>
      let '(p, m') := get m (callees previous) (callee entry) in
      Ret (mk_frame (callee entry) (timestamp entry) 0 0 p p :: st, m')
  end.

(** [collector/shadow_stack.h:95-112] stack_record::exit *)
Definition exit (inner total : Z) (st : list stack_record) (entry : call_record) (m : nodes_map)
    : result (list stack_record * nodes_map) :=
  match st with
  | current :: parent :: below =>
      let inclusive_time_observed := s64 (s64 (timestamp entry - enter_at current) - inner) in
      let children := children_overhead current in
      let inclusive_time := s64 (inclusive_time_observed - children) in
      let exclusive_time := s64 (inclusive_time_observed - children_time_observed current) in
      match m !! function current with
      | None => UB
      | Some s =>
          Ret (mk_frame (frame_callee parent) (enter_at parent)
                 (s64 (children_time_observed parent + s64 (inclusive_time_observed + total)))
                 (s64 (children_overhead parent + s64 (total + children)))
                 (function parent) (callees parent) :: below,
               <[function current := add_times s inclusive_time exclusive_time]> m)
      end
  | _ => UB
  end.

(** The body of the loop of [update]. *)
Definition update_step (inner total : Z) (sm : list stack_record * nodes_map) (i : call_record)
    : result (list stack_record * nodes_map) :=
  if callee i =? 0 then exit inner total sm.1 i sm.2 else enter sm.1 i sm.2.

(** [collector/shadow_stack.h:78-92] shadow_stack::update *)
Definition update (ss : shadow_stack) (trace : list call_record) (statistics : nodes_map)
    : result (shadow_stack * nodes_map) :=
  sm ← reset_stack (stack ss) statistics;
  '(st, m) ← fold_m (update_step (inner_overhead ss) (total_overhead ss)) sm trace;
  Ret (mk_shadow (inner_overhead ss) (total_overhead ss) st, m).

(** ** The pointers of the frames *)

(** The node the top frame stands for: the callees of the frames above the root, bottom first. *)
Fixpoint frame_path (st : list stack_record) : path :=
  match st with
  | r :: (_ :: _) as below => frame_path below ++ [frame_callee r]
  | _ => []
  end.

(** Every frame points to its node and the node exists: no pointer dangles. *)
Fixpoint frames_ok (m : nodes_map) (st : list stack_record) : Prop :=
  match st with
  | [] => False
  | r :: below =>
      function r = frame_path st ∧ callees r = frame_path st ∧
      match below with
      | [] => True
      | _ :: _ => is_Some (m !! frame_path st) ∧ frames_ok m below
      end
  end.

Lemma frame_path_cons r below :
  below ≠ [] → frame_path (r :: below) = frame_path below ++ [frame_callee r].
Proof. by destruct below. Qed.

Lemma get_path m p k : (get m p k).1 = p ++ [k].
Proof. unfold get, callees_of. by destruct (m !! _). Qed.

Lemma get_lookup m p k q :
  (get m p k).2 !! q =
    if decide (q = p ++ [k]) then Some (default function_statistics_default (m !! q)) else m !! q.
Proof.
  unfold get, get_slow, callees_of.
  destruct (m !! (p ++ [k])) eqn:E; simpl; case_decide; subst; rewrite ?E; by simplify_map_eq.
Qed.

Lemma get_eq m p k : get m p k = (p ++ [k], (get m p k).2).
Proof. rewrite <- (get_path m p k). by destruct (get m p k). Qed.

Lemma get_id m p k : is_Some (m !! (p ++ [k])) → (get m p k).2 = m.
Proof. unfold get, callees_of. by intros [s ->]. Qed.

Lemma get_mono m p k q : is_Some (m !! q) → is_Some ((get m p k).2 !! q).
Proof. rewrite get_lookup. case_decide; eauto. Qed.

Lemma get_present m p k : is_Some ((get m p k).2 !! (p ++ [k])).
Proof. rewrite get_lookup, decide_True by done. eauto. Qed.

Lemma frames_ok_mono m m' st :
  (∀ q, is_Some (m !! q) → is_Some (m' !! q)) → frames_ok m st → frames_ok m' st.
Proof.
  intros Hm. induction st as [|r [|r' below] IH]; simpl; [done|done|]. naive_solver.
Qed.

Lemma frames_ok_get m p k st : frames_ok m st → frames_ok (get m p k).2 st.
Proof. apply frames_ok_mono. intros q. apply get_mono. Qed.

Lemma frames_ok_nonempty m st : frames_ok m st → st ≠ [].
Proof. by destruct st. Qed.

Lemma frames_ok_top m r below :
  frames_ok m (r :: below) → callees r = frame_path (r :: below).
Proof. by intros (_ & ? & _). Qed.

Lemma frames_ok_function m r below : frames_ok m (r :: below) → function r = frame_path (r :: below).
Proof. by intros (? & _ & _). Qed.

Lemma frames_ok_push m r below :
  below ≠ [] →
  function r = frame_path (r :: below) → callees r = frame_path (r :: below) →
  is_Some (m !! frame_path (r :: below)) → frames_ok m below → frames_ok m (r :: below).
Proof. destruct below; simpl; naive_solver. Qed.

Lemma frames_ok_pop m r below : below ≠ [] → frames_ok m (r :: below) → frames_ok m below.
Proof. destruct below; simpl; naive_solver. Qed.

Lemma frames_ok_present m r below :
  below ≠ [] → frames_ok m (r :: below) → is_Some (m !! frame_path (r :: below)).
Proof. destruct below; simpl; naive_solver. Qed.

#[local] Arguments frame_path : simpl never.
#[local] Arguments frames_ok : simpl never.
#[local] Hint Resolve frames_ok_nonempty frames_ok_get get_mono get_present : core.

(** ** [reset_stack] *)

(** The parts of a frame that [reset_stack] keeps. *)
Definition frame_data (r : stack_record) : Z * Z * Z * Z :=
  (frame_callee r, enter_at r, children_time_observed r, children_overhead r).

Lemma frame_path_data st st' : map frame_data st = map frame_data st' → frame_path st = frame_path st'.
Proof.
  revert st'; induction st as [|r st IH]; intros [|r' st'] [=]; [done|].
  destruct st, st'; simplify_eq/=; [done|].
  rewrite (frame_path_cons r), (frame_path_cons r') by done.
  f_equal; [apply IH; unfold frame_data in *; simpl; congruence|congruence..].
Qed.

(** Re-binding always succeeds on a non-empty stack, keeps the data of the frames, only adds
    fresh nodes, and leaves no dangling pointer. *)
Lemma reset_stack_spec st m : st ≠ [] →
  ∃ st' m', reset_stack st m = Ret (st', m') ∧ map frame_data st' = map frame_data st
    ∧ frames_ok m' st' ∧ (∀ q, is_Some (m !! q) → is_Some (m' !! q)).
Proof.
  induction st as [|r below IH]; intros Hne; [done|].
  destruct below as [|r' below]; [by eexists _, _; split_and!|].
  destruct (IH ltac:(done)) as (st' & m' & E & Hdata & Hok & Hm).
  destruct st' as [|previous st']; [done|].
  cbn [reset_stack] in *. rewrite E; simpl. rewrite get_eq; simpl.
  do 2 eexists; split; [done|split; [simpl; by f_equal|split; [|by auto]]].
  rewrite (frames_ok_top _ _ _ Hok).
  assert (frame_path (set_target r (frame_path (previous :: st') ++ [frame_callee r])
    :: previous :: st') = frame_path (previous :: st') ++ [frame_callee r])
    by by rewrite frame_path_cons.
  by apply frames_ok_push; rewrite ?H; auto.
Qed.

Lemma frame_data_target r p : frame_data (set_target r p) = frame_data r.
Proof. done. Qed.

Lemma set_target_id r p : function r = p → callees r = p → set_target r p = r.
Proof. destruct r; unfold set_target; simpl; congruence. Qed.

(** A stack whose pointers are right is not changed by [reset_stack]. *)
Lemma reset_stack_id st m : frames_ok m st → reset_stack st m = Ret (st, m).
Proof.
  induction st as [|r below IH]; intros Hok; [done|].
  destruct below as [|r' below].
  - destruct Hok as (?&?&_). simpl. by rewrite set_target_id.
  - pose proof (frames_ok_pop m r (r' :: below) ltac:(done) Hok) as Hok'.
    cbn [reset_stack] in *. rewrite IH by done; simpl.
    pose proof (frames_ok_present m r (r' :: below) ltac:(done) Hok) as Hp.
    rewrite (frames_ok_top _ _ _ Hok'), get_eq.
    rewrite frame_path_cons in Hp by done. rewrite get_id by done. simpl.
    rewrite set_target_id; [done|..].
    + by rewrite (frames_ok_function _ _ _ Hok), frame_path_cons.
    + by rewrite (frames_ok_top _ _ _ Hok), frame_path_cons.
Qed.

(** ** Steps keep the pointers right *)

Lemma enter_spec st e m : frames_ok m st →
  enter st e m = Ret (mk_frame (callee e) (timestamp e) 0 0
      (frame_path st ++ [callee e]) (frame_path st ++ [callee e]) :: st,
    (get m (frame_path st) (callee e)).2).
Proof.
  intros Hok. destruct st as [|previous below]; [done|].
  simpl. by rewrite (frames_ok_top _ _ _ Hok), get_eq.
Qed.

Lemma enter_ok st e m st' m' :
  frames_ok m st → enter st e m = Ret (st', m') → frames_ok m' st'.
Proof.
  intros Hok. rewrite enter_spec by done. intros [= <- <-].
  apply frames_ok_push; simpl; rewrite ?frame_path_cons by eauto; eauto.
Qed.

Lemma frames_ok_data m r r' below :
  frame_callee r = frame_callee r' → function r = function r' → callees r = callees r' →
  frames_ok m (r :: below) → frames_ok m (r' :: below).
Proof.
  intros H1 H2 H3 Hok.
  assert (Hp : frame_path (r' :: below) = frame_path (r :: below)).
  { destruct below; [done|]. rewrite !(frame_path_cons _ (_ :: _)) by done. congruence. }
  destruct below as [|r'' below].
  - destruct Hok as (?&?&_). split; [congruence|]. split; [congruence|done].
  - apply frames_ok_push; rewrite ?Hp, <- ?H2, <- ?H3;
      eauto using frames_ok_function, frames_ok_top, frames_ok_present.
    by apply (frames_ok_pop _ r).
Qed.

Lemma exit_ok a b st e m st' m' :
  frames_ok m st → exit a b st e m = Ret (st', m') → frames_ok m' st'.
Proof.
  intros Hok. destruct st as [|current [|parent below]]; [done..|].
  simpl. destruct (m !! function current) eqn:E; [|done]. intros [= <- <-].
  apply frames_ok_pop in Hok; [|done].
  eapply frames_ok_data; [..|eapply frames_ok_mono, Hok]; simpl; try done.
  intros q ?. destruct (decide (function current = q)) as [->|];
    [rewrite lookup_insert_eq|rewrite lookup_insert_ne by done]; eauto.
Qed.

Lemma update_step_ok a b st m e st' m' :
  frames_ok m st → update_step a b (st, m) e = Ret (st', m') → frames_ok m' st'.
Proof.
  unfold update_step; simpl. destruct (callee e =? 0); eauto using enter_ok, exit_ok.
Qed.

Lemma fold_ok a b t st m st' m' :
  frames_ok m st → fold_m (update_step a b) (st, m) t = Ret (st', m') → frames_ok m' st'.
Proof.
  intros Hok H.
  apply (fold_m_invariant (update_step a b) (λ sm, frames_ok sm.2 sm.1)) in H; [done| |done].
  intros [??] ? [??]; simpl. apply update_step_ok.
Qed.

Lemma update_ok ss t m ss' m' :
  stack ss ≠ [] → update ss t m = Ret (ss', m') →
  frames_ok m' (stack ss') ∧ inner_overhead ss' = inner_overhead ss
  ∧ total_overhead ss' = total_overhead ss.
Proof.
  intros Hne. unfold update.
  destruct (reset_stack_spec (stack ss) m Hne) as (st & m1 & -> & _ & Hok & _); simpl.
  destruct (fold_m _ _ _) as [[st2 m2]| |] eqn:E; simpl; [|done..].
  intros [= <- <-]; simpl. eauto using fold_ok.
Qed.

(** The loop over a batch followed by another batch, as two calls of [update]. *)
Lemma update_split ss t1 t2 m :
  stack ss ≠ [] →
  update ss (t1 ++ t2) m =
    ('(ss', m') ← update ss t1 m;
     '(st, m'') ← fold_m (update_step (inner_overhead ss') (total_overhead ss')) (stack ss', m') t2;
     Ret (mk_shadow (inner_overhead ss') (total_overhead ss') st, m'')).
Proof.
  intros Hne. unfold update.
  destruct (reset_stack_spec (stack ss) m Hne) as (st & m1 & -> & _ & Hok & _); simpl.
  rewrite fold_m_app, !bind_assoc_result.
  by destruct (fold_m _ (st, m1) t1) as [[st2 m2]| |].
Qed.

(** A trace may be handed to the shadow stack in any number of batches: updating with the
    concatenation of two batches is updating with the first and then, with the pointers re-bound
    to the same statistics, with the second. *)
Theorem update_app ss t1 t2 m :
  stack ss ≠ [] →
  update ss (t1 ++ t2) m = ('(ss', m') ← update ss t1 m; update ss' t2 m').
Proof.
  intros Hne. rewrite update_split by done.
  destruct (update ss t1 m) as [[ss' m']| |] eqn:E; simpl; [|done..].
  destruct (update_ok _ _ _ _ _ Hne E) as (Hok & _).
  unfold update. by rewrite reset_stack_id.
Qed.

Definition demo_shadow : shadow_stack :=
  shadow_stack_new (mk_overhead 1 2) (mk_frame 0 0 0 0 [] []).

Lemma update_app_witness :
  update demo_shadow ([mk_record 10 7] ++ [mk_record 25 0]) ∅
  = ('(ss', m') ← update demo_shadow [mk_record 10 7] ∅; update ss' [mk_record 25 0] m').
Proof. by apply (update_app demo_shadow). Defined.

(** ** When [update] returns *)

(** The trace never returns from more calls than were entered; [depth] calls are open before it. *)
Fixpoint valid_trace (depth : nat) (t : list call_record) : bool :=
  match t with
  | [] => true
  | e :: t =>
      if callee e =? 0 then match depth with O => false | S d => valid_trace d t end
      else valid_trace (S depth) t
  end.

Lemma frames_ok_function_present m r r' below :
  frames_ok m (r :: r' :: below) → ∃ s, m !! function r = Some s.
Proof.
  intros Hok. rewrite (frames_ok_function _ _ _ Hok).
  by apply (frames_ok_present m r (r' :: below)).
Qed.

Lemma fold_returns a b t : ∀ st m, frames_ok m st →
  returns (fold_m (update_step a b) (st, m) t) ↔ valid_trace (length st - 1) t.
Proof.
  induction t as [|e t IH]; intros st m Hok; [done|].
  cbn [fold_m valid_trace]. destruct (update_step a b (st, m) e) as [[st' m']| |] eqn:E.
  - pose proof (update_step_ok _ _ _ _ _ _ _ Hok E) as Hok'. simpl.
    rewrite IH by done. unfold update_step in E; simpl in E. destruct (callee e =? 0).
    + destruct st as [|r [|r' below]]; [done..|]. simpl in E |- *.
      destruct (m !! function r); [|done]. injection E as <- <-. simpl.
      by rewrite Nat.sub_0_r.
    + rewrite enter_spec in E by done. injection E as <- <-. simpl.
      destruct st; [done|]. simpl. by rewrite Nat.sub_0_r.
  - unfold update_step in E; simpl in E. destruct (callee e =? 0);
      [|by rewrite enter_spec in E by done].
    destruct st as [|r [|r' below]]; simpl in E; [done..|]. by destruct (m !! _).
  - unfold update_step in E; simpl in E. destruct (callee e =? 0);
      [|by rewrite enter_spec in E by done].
    destruct st as [|r [|r' below]]; [done..|].
    destruct (frames_ok_function_present _ _ _ _ Hok) as [s Hs]. simpl in E. by rewrite Hs in E.
Qed.

(** [update] returns exactly on the traces that never return from more calls than are open:
    the guard the code leaves to its caller is the only one it needs. *)
Theorem update_returns_iff ss t m :
  stack ss ≠ [] → returns (update ss t m) ↔ valid_trace (length (stack ss) - 1) t.
Proof.
  intros Hne. unfold update.
  destruct (reset_stack_spec (stack ss) m Hne) as (st & m1 & -> & Hd & Hok & _); simpl.
  apply (f_equal length) in Hd. rewrite !length_map in Hd.
  rewrite <- Hd, <- (fold_returns (inner_overhead ss) (total_overhead ss) t st m1 Hok).
  by destruct (fold_m _ _ _) as [[??]| |].
Qed.

Lemma update_returns_iff_witness :
  returns (update demo_shadow [mk_record 10 7; mk_record 20 0; mk_record 30 0] ∅)
  ↔ valid_trace 0 [mk_record 10 7; mk_record 20 0; mk_record 30 0].
Proof. by apply (update_returns_iff demo_shadow). Defined.

(** ** Batches that are cleared after they were read

    The analyzer clears its statistics when the front-end has read them and the front-end adds up
    what it receives ([merge_nodes]); the shadow stack only survives. *)

Definition merge_nodes (old new : nodes_map) : nodes_map :=
  union_with (λ a b, Some (add_stats a b)) old new.

Lemma lookup_merge old new q :
  merge_nodes old new !! q =
    match old !! q, new !! q with
    | Some a, Some b => Some (add_stats a b)
    | Some a, None => Some a
    | None, b => b
    end.
Proof.
  unfold merge_nodes. rewrite lookup_union_with.
  by destruct (old !! q), (new !! q).
Qed.

Lemma merge_get old m p k : wf_nodes old →
  (get (merge_nodes old m) p k).2 = merge_nodes old (get m p k).2.
Proof.
  intros Hwf. apply map_eq; intros q. rewrite get_lookup, !lookup_merge, get_lookup.
  case_decide as Hq; [|done].
  destruct (old !! q) eqn:E, (m !! q); simpl; f_equal.
  symmetry. apply add_stats_default_r. by apply (Hwf q).
Qed.

Definition map_snd {A B C} (f : B → C) (r : result (A * B)) : result (A * C) :=
  '(a, b) ← r; Ret (a, f b).

Lemma merge_step a b old st m e : wf_nodes old → frames_ok m st →
  update_step a b (st, merge_nodes old m) e = map_snd (merge_nodes old) (update_step a b (st, m) e).
Proof.
  intros Hwf Hok. unfold update_step; simpl. destruct (callee e =? 0).
  - destruct st as [|r [|r' below]]; [done..|].
    destruct (frames_ok_function_present _ _ _ _ Hok) as [s Hs].
    simpl. rewrite lookup_merge, Hs. unfold map_snd.
    destruct (old !! function r) as [o|] eqn:Eo; simpl; do 2 f_equal; apply map_eq; intros q;
      rewrite lookup_merge; destruct (decide (q = function r)) as [->|];
      rewrite ?lookup_insert_eq, ?lookup_insert_ne, ?lookup_merge, ?Eo by done;
      rewrite ?add_stats_add_times; done.
  - rewrite (enter_spec _ _ m) by done.
    rewrite (enter_spec _ _ (merge_nodes old m)).
    + by rewrite merge_get.
    + eapply frames_ok_mono, Hok. intros q [? Hq]. rewrite lookup_merge, Hq.
      destruct (old !! q); eauto.
Qed.

Lemma merge_fold a b old t : ∀ st m, wf_nodes old → frames_ok m st →
  fold_m (update_step a b) (st, merge_nodes old m) t
  = map_snd (merge_nodes old) (fold_m (update_step a b) (st, m) t).
Proof.
  induction t as [|e t IH]; intros st m Hwf Hok; [done|]. cbn [fold_m].
  rewrite merge_step by done.
  destruct (update_step a b (st, m) e) as [[st' m']| |] eqn:E; simpl; [|done..].
  eauto using update_step_ok.
Qed.

Lemma get_wf m p k : wf_nodes m → wf_nodes (get m p k).2.
Proof.
  intros Hwf q s. rewrite get_lookup. case_decide; [|apply Hwf].
  destruct (m !! q) eqn:E; intros [= <-]; [by apply (Hwf q)|done].
Qed.

Lemma reset_stack_wf st : ∀ m st' m',
  wf_nodes m → reset_stack st m = Ret (st', m') → wf_nodes m'.
Proof.
  induction st as [|r [|r' below] IH]; intros m st' m' Hwf; [done|by intros [= _ <-]|].
  cbn [reset_stack] in *. intros H.
  destruct (match below with [] => _ | _ => _ end) as [[st1 m1]| |] eqn:E; [|done..].
  simpl in H. destruct st1; [done|]. rewrite get_eq in H. injection H as _ <-.
  apply get_wf. eapply IH; eauto.
Qed.

Lemma update_step_wf a b st m e st' m' :
  frames_ok m st → wf_nodes m → update_step a b (st, m) e = Ret (st', m') → wf_nodes m'.
Proof.
  intros Hok Hwf. unfold update_step; simpl. destruct (callee e =? 0).
  - destruct st as [|r [|r' below]]; [done..|]. simpl.
    destruct (m !! function r) as [s|] eqn:E; [|done]. intros [= _ <-].
    apply map_Forall_insert_2; [|done]. eapply add_times_wf, Hwf, E.
  - rewrite enter_spec by done. intros [= _ <-]. by apply get_wf.
Qed.

Lemma update_wf ss t m ss' m' :
  stack ss ≠ [] → wf_nodes m → update ss t m = Ret (ss', m') → wf_nodes m'.
Proof.
  intros Hne Hwf. unfold update.
  destruct (reset_stack_spec (stack ss) m Hne) as (st & m1 & E & _ & Hok & _).
  apply reset_stack_wf in E as Hwf1; [|done]. rewrite E; simpl.
  destruct (fold_m _ _ _) as [[st2 m2]| |] eqn:Ef; simpl; [|done..]. intros [= _ <-].
  apply (fold_m_invariant _ (λ sm, frames_ok sm.2 sm.1 ∧ wf_nodes sm.2)) in Ef; [by destruct Ef| |done].
  intros [??] ? [??] [??] ?; simpl in *. eauto using update_step_wf, update_step_ok.
Qed.

(** Every node has its caller: a graph is a forest, and nothing of it is out of reach. *)
Definition callable (m : nodes_map) (p : path) : Prop := p = [] ∨ is_Some (m !! p).
Definition rooted (m : nodes_map) : Prop :=
  m !! [] = None ∧ ∀ q a, is_Some (m !! (q ++ [a])) → callable m q.

Lemma rooted_empty : rooted ∅.
Proof. split; [done|]. intros q a [? ?]. done. Qed.

Lemma get_callable m p k q : callable m q → callable (get m p k).2 q.
Proof. intros [->|?]; [by left|right]. by apply get_mono. Qed.

Lemma get_rooted m p k : rooted m → callable m p → rooted (get m p k).2.
Proof.
  intros [Hn Hr] Hp. split.
  - rewrite get_lookup, decide_False; [done|]. intros H. by destruct p.
  - intros q a Hq. rewrite get_lookup in Hq. apply get_callable. case_decide as Hd; [|by eapply Hr].
    by apply app_inj_tail in Hd as [-> _].
Qed.

Lemma frame_path_callable m st : frames_ok m st → callable m (frame_path st).
Proof.
  destruct st as [|r [|r' below]]; [by left|by left|right]. by apply (frames_ok_present m r (r' :: below)).
Qed.

Lemma reset_stack_rooted st : ∀ m st' m', rooted m → reset_stack st m = Ret (st', m') →
  rooted m' ∧ frames_ok m' st'.
Proof.
  induction st as [|r below IH]; intros m st' m' Hr E; [done|].
  destruct (reset_stack_spec (r :: below) m ltac:(done)) as (st1 & m1 & E1 & _ & Hok & _).
  rewrite E in E1. injection E1 as <- <-. split; [|done]. clear Hok.
  destruct below as [|r' below]; [by injection E as _ <-|]. cbn [reset_stack] in *.
  destruct (match below with [] => _ | _ => _ end) as [[st2 m2]| |] eqn:E2; [|done..].
  simpl in E. destruct st2 as [|top st2]; [done|]. rewrite get_eq in E. injection E as _ <-.
  destruct (IH _ _ _ Hr E2) as [Hr2 Hok2]. apply get_rooted; [done|].
  rewrite (frames_ok_top _ _ _ Hok2). by apply frame_path_callable.
Qed.

Lemma insert_rooted m q x : is_Some (m !! q) → rooted m → rooted (<[q := x]> m).
Proof.
  intros Hq [Hn Hr]. assert (∀ p, is_Some (<[q := x]> m !! p) ↔ is_Some (m !! p)) as Hp.
  { intros p. destruct (decide (p = q)) as [->|]; [by rewrite lookup_insert_eq|by rewrite lookup_insert_ne]. }
  split.
  - apply eq_None_not_Some. rewrite Hp. by apply eq_None_not_Some.
  - intros p a Ha. unfold callable. rewrite Hp in *. by eapply Hr.
Qed.

Lemma update_step_rooted a b st m e st' m' :
  frames_ok m st → rooted m → update_step a b (st, m) e = Ret (st', m') → rooted m'.
Proof.
  intros Hok Hr. unfold update_step; simpl. destruct (callee e =? 0).
  - destruct st as [|r [|r' below]]; [done..|]. simpl.
    destruct (m !! function r) as [s|] eqn:E; [|done]. intros [= _ <-]. apply insert_rooted; eauto.
  - rewrite enter_spec by done. intros [= _ <-]. apply get_rooted; [done|by apply frame_path_callable].
Qed.

(** What the statistics are between two batches, whether they were cleared or not. *)
Lemma update_rooted ss t m ss' m' : rooted m → update ss t m = Ret (ss', m') → rooted m'.
Proof.
  intros Hr. unfold update. destruct (reset_stack (stack ss) m) as [[st1 m1]| |] eqn:E; simpl; [|done..].
  apply reset_stack_rooted in E as [Hr1 Hok]; [|done].
  destruct (fold_m _ _ _) as [[st2 m2]| |] eqn:Ef; simpl; [|done..]. intros [= _ <-].
  apply (fold_m_invariant _ (λ sm, frames_ok sm.2 sm.1 ∧ rooted sm.2)) in Ef; [by destruct Ef| |done].
  intros [??] ? [??] [??] ?; simpl in *. eauto using update_step_rooted, update_step_ok.
Qed.

(** On empty statistics the live stack creates its own nodes again, and points to them. *)
Lemma frame_ext r r' : frame_data r = frame_data r' → function r = function r' →
  callees r = callees r' → r = r'.
Proof. destruct r, r'; unfold frame_data; simpl; congruence. Qed.

Lemma frames_ok_data_eq m m' st : ∀ st', frames_ok m st → frames_ok m' st' →
  map frame_data st' = map frame_data st → st' = st.
Proof.
  induction st as [|r st IH]; intros [|r' st'] Hok Hok' Hd; [done..|].
  pose proof (frame_path_data _ _ Hd) as Hp. simpl in Hd.
  f_equal.
  - apply frame_ext; [congruence|..].
    + rewrite (frames_ok_function _ _ _ Hok'), (frames_ok_function _ _ _ Hok). done.
    + rewrite (frames_ok_top _ _ _ Hok'), (frames_ok_top _ _ _ Hok). done.
  - destruct st as [|s st], st' as [|s' st']; [done..|].
    eapply IH; [by eapply frames_ok_pop, Hok|by eapply frames_ok_pop, Hok'|]. simpl in *. congruence.
Qed.

(** What [reset_stack] adds are default nodes of the stack itself. *)
Lemma reset_stack_fresh st : ∀ m0 m st' m',
  frames_ok m0 st → reset_stack st m = Ret (st', m') →
  ∀ q, m' !! q = m !! q
    ∨ (m !! q = None ∧ m' !! q = Some function_statistics_default ∧ is_Some (m0 !! q)).
Proof.
  induction st as [|r [|r' below] IH]; intros m0 m st' m' Hok; [done|by intros [= _ <-]; left|].
  pose proof (frames_ok_pop m0 r (r' :: below) ltac:(done) Hok) as Hok'.
  pose proof (frames_ok_present m0 r (r' :: below) ltac:(done) Hok) as Hp.
  destruct (reset_stack_spec (r' :: below) m) as (st1 & m1 & E & Hd & Hok1 & _); [done|].
  pose proof (IH _ _ _ _ Hok' E) as Hm1.
  cbn [reset_stack] in *. rewrite E. simpl. destruct st1 as [|p1 st1]; [done|].
  rewrite get_eq. intros [= _ <-] q. rewrite get_lookup. case_decide as Hq; [|apply Hm1].
  rewrite (frames_ok_top _ _ _ Hok1), (frame_path_data _ _ Hd) in Hq. subst q.
  rewrite frame_path_cons in Hp by done.
  destruct (Hm1 (frame_path (r' :: below) ++ [frame_callee r])) as [->|(?&->&?)]; [|by right].
  destruct (m !! _); [by left|by right].
Qed.

(** Running a batch on what is left after clearing, and merging, is running it on everything:
    [c] is what was read before, [m] what the thread holds now. *)
Lemma update_cleared c ss t m :
  stack ss ≠ [] → wf_nodes c → frames_ok (merge_nodes c m) (stack ss) →
  fold_m (update_step (inner_overhead ss) (total_overhead ss)) (stack ss, merge_nodes c m) t
  = ('(ss', m') ← update ss t m; Ret (stack ss', merge_nodes c m')).
Proof.
  intros Hne Hwf Hok.
  destruct (reset_stack_spec (stack ss) m Hne) as (st & m' & E & Hd & Hok' & _).
  assert (st = stack ss) as -> by (eapply frames_ok_data_eq; eauto).
  assert (merge_nodes c m = merge_nodes c m') as ->.
  { apply map_eq; intros q. rewrite !lookup_merge.
    destruct (reset_stack_fresh _ _ _ _ _ Hok E q) as [->|(Em & -> & [s Hs])]; [done|].
    rewrite lookup_merge, Em in Hs. rewrite Em. destruct (c !! q) eqn:Ec; [|done].
    f_equal. symmetry. eapply add_stats_default_r, Hwf, Ec. }
  unfold update. rewrite E; simpl. rewrite merge_fold by done.
  by destruct (fold_m _ _ _) as [[??]| |].
Qed.

Lemma merge_empty_r m : merge_nodes m ∅ = m.
Proof. apply map_eq; intros q. rewrite lookup_merge, lookup_empty. by destruct (m !! q). Qed.

(** No call is lost when the statistics are cleared between two batches: merging what the
    second batch leaves in the cleared map into what the first one left gives the statistics (and
    the stack) of the single batch, also for the calls that were entered in one batch and returned
    from in the other. *)
Theorem cleared_batches_merge ss t1 t2 m :
  stack ss ≠ [] → wf_nodes m →
  update ss (t1 ++ t2) m =
    ('(ss1, m1) ← update ss t1 m;
     '(ss2, m2) ← update ss1 t2 ∅;
     Ret (ss2, merge_nodes m1 m2)).
Proof.
  intros Hne Hwf. rewrite update_split by done.
  destruct (update ss t1 m) as [[ss1 m1]| |] eqn:E; simpl; [|done..].
  destruct (update_ok _ _ _ _ _ Hne E) as (Hok & _).
  pose proof (update_wf _ _ _ _ _ Hne Hwf E) as Hwf1.
  rewrite <- (merge_empty_r m1) in Hok |- * at 1.
  rewrite (update_cleared m1 ss1 t2 ∅) by eauto.
  destruct (update ss1 t2 ∅) as [[ss2 m2]| |] eqn:E2; simpl; [|done..].
  destruct (update_ok ss1 t2 ∅ ss2 m2) as (_ & <- & <-); [eauto|done|]. by destruct ss2.
Qed.

Lemma cleared_batches_merge_witness :
  update demo_shadow ([mk_record 10 7; mk_record 11 8] ++ [mk_record 25 0; mk_record 29 0]) ∅
  = ('(ss1, m1) ← update demo_shadow [mk_record 10 7; mk_record 11 8] ∅;
     '(ss2, m2) ← update ss1 [mk_record 25 0; mk_record 29 0] ∅;
     Ret (ss2, merge_nodes m1 m2)).
Proof. apply (cleared_batches_merge demo_shadow); [done|]. apply map_Forall_empty. Defined.

(** ** What a balanced trace is worth

    The reference: a forest of calls, each with the ticks of its entry and its return, and the
    times the profiler attributes to every call, in closed form. *)

#[warnings="-register-all"]
Inductive call : Type := mk_call (id t_in t_out : Z) (nested : list call).

Fixpoint call_trace (c : call) : list call_record :=
  let 'mk_call id t_in t_out nested := c in
  mk_record t_in id :: concat (map call_trace nested) ++ [mk_record t_out 0].
Definition forest_trace (cs : list call) : list call_record := concat (map call_trace cs).

Fixpoint calls_ok (c : call) : bool :=
  let 'mk_call id _ _ nested := c in negb (id =? 0) && forallb calls_ok nested.

Definition zsum (l : list Z) : Z := foldr Z.add 0 l.

Section attribution.
Context (inner total : Z).

(** The ticks between entry and return less the profiler's own inner part. *)
Definition observed (c : call) : Z := let 'mk_call _ t_in t_out _ := c in t_out - t_in - inner.

(** The profiler's time that was spent in the calls below [c]: [total] for each of them. *)
Fixpoint overheads (c : call) : Z :=
  let 'mk_call _ _ _ nested := c in zsum (map (λ d, total + overheads d) nested).

Definition inclusive (c : call) : Z := observed c - overheads c.
Definition exclusive (c : call) : Z :=
  let 'mk_call _ _ _ nested := c in observed c - zsum (map (λ d, observed d + total) nested).

(** The calls in the order they return, each with its node. *)
Fixpoint completed (p : path) (c : call) : list (path * Z * Z) :=
  let 'mk_call id _ _ nested := c in
  concat (map (completed (p ++ [id])) nested) ++ [(p ++ [id], s64 (inclusive c), s64 (exclusive c))].
End attribution.

(** One more completed call of a node. *)
Definition record_call (m : nodes_map) (r : path * Z * Z) : nodes_map :=
  let '(p, i, e) := r in
  <[p := add_times (default function_statistics_default (m !! p)) i e]> m.
Definition record_calls : nodes_map → list (path * Z * Z) → nodes_map := foldl record_call.

Section call_induction.
Context (P : call → Prop) (H : ∀ id a b nested, Forall P nested → P (mk_call id a b nested)).
Fixpoint call_ind' (c : call) : P c :=
  match c with
  | mk_call id a b nested =>
      H id a b nested
        ((fix go (l : list call) : Forall P l :=
            match l with [] => Forall_nil_2 _ | c :: l => Forall_cons_2 _ _ _ (call_ind' c) (go l) end)
           nested)
  end.
End call_induction.

Lemma record_calls_app m l1 l2 : record_calls m (l1 ++ l2) = record_calls (record_calls m l1) l2.
Proof. apply foldl_app. Qed.

Lemma record_calls_snoc m l r : record_calls m (l ++ [r]) = record_call (record_calls m l) r.
Proof. by rewrite record_calls_app. Qed.

Lemma record_call_lookup m p i e q :
  record_call m (p, i, e) !! q =
    if decide (q = p) then Some (add_times (default function_statistics_default (m !! p)) i e)
    else m !! q.
Proof. simpl. case_decide; simplify_map_eq; done. Qed.

(** A node that was created before its call completed makes no difference afterwards. *)
Lemma record_calls_get m p k l i e :
  record_call (record_calls (get m p k).2 l) (p ++ [k], i, e)
  = record_call (record_calls m l) (p ++ [k], i, e).
Proof.
  set (Q := λ m1 m2 : nodes_map, (∀ q, q ≠ p ++ [k] → m1 !! q = m2 !! q) ∧
    default function_statistics_default (m1 !! (p ++ [k]))
    = default function_statistics_default (m2 !! (p ++ [k]))).
  assert (H : ∀ l m1 m2, Q m1 m2 → Q (record_calls m1 l) (record_calls m2 l)).
  { clear. induction l as [|[[q i] e] l IH]; intros m1 m2 HQ; [done|].
    apply IH. destruct HQ as [H1 H2].
    assert (Hd : default function_statistics_default (m1 !! q)
      = default function_statistics_default (m2 !! q)).
    { destruct (decide (q = p ++ [k])) as [->|]; [done|]. by rewrite H1. }
    split; [intros q' Hq|]; rewrite !record_call_lookup, Hd; case_decide; auto. }
  destruct (H l (get m p k).2 m) as [H1 H2].
  - split; [intros q ?|]; rewrite get_lookup; by case_decide.
  - apply map_eq; intros q. rewrite !record_call_lookup, H2. case_decide; auto.
Qed.

Section forest.
Context (inner total : Z).

(** What a completed call leaves in the frame of its caller. *)
Definition add_call (r : stack_record) (c : call) : stack_record :=
  mk_frame (frame_callee r) (enter_at r)
    (s64 (children_time_observed r + (observed inner c + total)))
    (s64 (children_overhead r + (total + overheads total c))) (function r) (callees r).

Lemma add_call_kept r cs : callees (foldl add_call r cs) = callees r
  ∧ function (foldl add_call r cs) = function r ∧ enter_at (foldl add_call r cs) = enter_at r.
Proof. revert r; induction cs as [|c cs IH]; intros r; [done|]. simpl. by destruct (IH (add_call r c)) as (-> & -> & ->). Qed.

Lemma add_calls_sums r cs :
  sw 64 (children_time_observed r) = children_time_observed r →
  sw 64 (children_overhead r) = children_overhead r →
  children_time_observed (foldl add_call r cs)
    = s64 (children_time_observed r + zsum (map (λ d, observed inner d + total) cs))
  ∧ children_overhead (foldl add_call r cs)
    = s64 (children_overhead r + zsum (map (λ d, total + overheads total d) cs)).
Proof.
  revert r; induction cs as [|c cs IH]; intros r H1 H2; simpl.
  - by rewrite !Z.add_0_r.
  - destruct (IH (add_call r c)) as [-> ->]; simpl; [by autorewrite with words..|].
    split; wsolve.
Qed.
End forest.

Lemma update_step_enter a b st m e :
  (callee e =? 0) = false → update_step a b (st, m) e = enter st e m.
Proof. unfold update_step. by intros ->. Qed.

Lemma call_fold a b c : ∀ r below m, calls_ok c → frames_ok m (r :: below) →
  fold_m (update_step a b) (r :: below, m) (call_trace c)
  = Ret (add_call a b r c :: below, record_calls m (completed a b (callees r) c)).
Proof.
  induction c as [id t_in t_out nested IH] using call_ind'; intros r below m Hc Hok.
  cbn [calls_ok] in Hc. apply andb_prop_elim in Hc as [Hid Hn].
  apply Is_true_true, negb_true_iff in Hid.
  cbn [call_trace fold_m]. rewrite update_step_enter by done.
  pose proof (enter_ok (r :: below) (mk_record t_in id) m _ _ Hok (enter_spec _ _ _ Hok)) as Hok1.
  rewrite enter_spec by done. rewrite <- (frames_ok_top _ _ _ Hok) in *. simpl in *.
  set (r1 := mk_frame id t_in 0 0 (callees r ++ [id]) (callees r ++ [id])) in *.
  set (m1 := (get m (callees r) id).2) in *.
  assert (Hf : ∀ r1 m1, callees r1 = callees r ++ [id] → frames_ok m1 (r1 :: r :: below) →
    fold_m (update_step a b) (r1 :: r :: below, m1) (concat (map call_trace nested))
    = Ret (foldl (add_call a b) r1 nested :: r :: below,
        record_calls m1 (concat (map (completed a b (callees r ++ [id])) nested)))).
  { clear -IH Hn. induction IH as [|c cs HP _ IH]; intros r1 m1 Hr1 Hok; [done|].
    cbn [forallb] in Hn. apply andb_prop_elim in Hn as [Hc Hn].
    cbn [map concat foldl]. rewrite fold_m_app, (HP r1) by done. simpl.
    rewrite IH, Hr1, record_calls_app; [done..|].
    eapply fold_ok; [exact Hok|]. by apply (HP r1). }
  pose proof (fold_ok _ _ _ _ _ _ _ Hok1 (Hf r1 m1 eq_refl Hok1)) as Hok2.
  destruct (frames_ok_function_present _ _ _ _ Hok2) as [s Hs].
  rewrite fold_m_app, Hf by done. cbn [mbind result_bind fold_m]. unfold update_step; simpl.
  destruct (add_call_kept a b r1 nested) as (Hk1 & Hk2 & Hk3).
  destruct (add_calls_sums a b r1 nested) as [Hs1 Hs2]; [done..|].
  rewrite Hk2 in Hs. simpl in Hs. rewrite Hk2, Hk3, Hs1, Hs2. simpl. rewrite Hs. simpl.
  rewrite record_calls_snoc, <- record_calls_get. unfold record_call; fold m1. rewrite Hs. simpl.
  unfold add_call, inclusive, observed. simpl.
  f_equal; f_equal; [f_equal; f_equal; wsolve|].
  f_equal; f_equal; wsolve.
Qed.

Lemma forest_fold a b cs : ∀ r below m, forallb calls_ok cs → frames_ok m (r :: below) →
  fold_m (update_step a b) (r :: below, m) (forest_trace cs)
  = Ret (foldl (add_call a b) r cs :: below,
         record_calls m (concat (map (completed a b (callees r)) cs))).
Proof.
  unfold forest_trace. induction cs as [|c cs IH]; intros r below m Hc Hok; [done|].
  cbn [forallb] in Hc. apply andb_prop_elim in Hc as [Hc Hcs].
  cbn [map concat foldl]. rewrite fold_m_app, call_fold by done. simpl.
  rewrite IH, record_calls_app; [done..|].
  eapply fold_ok; [exact Hok|]. by apply call_fold.
Qed.

(** C7: A balanced trace gives every call its closed-form times: after [update], the statistics are
    those of the completed calls, each added to its node in the order of the returns, whatever the
    graph held before.  The inclusive time is the observed time less the overhead of all nested
    calls, the exclusive time the observed time less what the direct callees were observed to take
    with the overhead around them. *)
Theorem update_balanced o junk cs m :
  forallb calls_ok cs →
  ∃ ss', update (shadow_stack_new o junk) (forest_trace cs) m
    = Ret (ss', record_calls m (concat (map (completed (inner o) (s64 (inner o + outer o)) []) cs))).
Proof.
  intros Hc. unfold update. cbn [stack shadow_stack_new reset_stack mbind result_bind].
  rewrite forest_fold by done. simpl. by eexists.
Qed.

Definition demo_calls : list call :=
  [mk_call 7 100 190 [mk_call 8 110 150 [mk_call 7 120 130 []]; mk_call 8 160 170 []]].

Lemma update_balanced_witness :
  ∃ ss', update (shadow_stack_new (mk_overhead 1 2) (mk_frame 0 0 0 0 [] []))
      (forest_trace demo_calls) ∅
    = Ret (ss', record_calls ∅ (concat (map (completed 1 (s64 (1 + 2)) []) demo_calls))).
Proof. by apply (update_balanced (mk_overhead 1 2)). Defined.

Example demo_calls_times :
  record_calls ∅ (concat (map (completed 1 3 []) demo_calls)) !! [7] = Some (mk_stats 1 80 35 80)
  ∧ record_calls ∅ (concat (map (completed 1 3 []) demo_calls)) !! [7; 8]
    = Some (mk_stats 2 45 36 36).
Proof. split; vm_compute; done. Qed.

(** ** Conservation of time *)

(** The inclusive times of the direct callees of a node. *)
Definition callees_inclusive (m : nodes_map) (p : path) : Z :=
  map_fold (λ q s acc, (if decide (parent_path q = p ∧ q ≠ []) then inclusive_time s else 0) + acc)
    0 m.

Definition child_of (p q : path) : bool := bool_decide (parent_path q = p ∧ q ≠ []).

(** The sum of [f] over the completed calls. *)
Definition calls_sum (f : path → Z → Z → Z) (l : list (path * Z * Z)) : Z :=
  zsum (map (λ '(q, i, e), f q i e) l).

Lemma zsum_app l1 l2 : zsum (l1 ++ l2) = zsum l1 + zsum l2.
Proof. induction l1; simpl; lia. Qed.

Lemma calls_sum_app f l1 l2 : calls_sum f (l1 ++ l2) = calls_sum f l1 + calls_sum f l2.
Proof. unfold calls_sum. by rewrite map_app, zsum_app. Qed.

Lemma calls_sum_concat f ls : calls_sum f (concat ls) = zsum (map (calls_sum f) ls).
Proof. induction ls; simpl; [done|]. rewrite calls_sum_app. lia. Qed.

Lemma callees_inclusive_insert m p q s s0 :
  default function_statistics_default (m !! q) = s0 →
  callees_inclusive (<[q := s]> m) p
  = callees_inclusive m p + (if child_of p q then inclusive_time s - inclusive_time s0 else 0).
Proof.
  intros Hs0. unfold callees_inclusive, child_of.
  assert (Hc : ∀ (j1 j2 : path) (z1 z2 : function_statistics) (y : Z),
    (if decide (parent_path j1 = p ∧ j1 ≠ []) then inclusive_time z1 else 0)
      + ((if decide (parent_path j2 = p ∧ j2 ≠ []) then inclusive_time z2 else 0) + y)
    = (if decide (parent_path j2 = p ∧ j2 ≠ []) then inclusive_time z2 else 0)
      + ((if decide (parent_path j1 = p ∧ j1 ≠ []) then inclusive_time z1 else 0) + y)) by lia.
  rewrite <- insert_delete_eq, map_fold_insert_L; [|by auto|by rewrite lookup_delete_eq].
  rewrite bool_decide_decide.
  destruct (m !! q) as [s1|] eqn:E; simpl in Hs0; subst s0.
  - rewrite (map_fold_delete_L _ _ q s1 m) by auto. case_decide; lia.
  - rewrite delete_id by done. case_decide; simpl; lia.
Qed.

Lemma callees_inclusive_records l : ∀ m p,
  eqm 64 (callees_inclusive (record_calls m l) p)
    (callees_inclusive m p + calls_sum (λ q i _, if child_of p q then i else 0) l).
Proof.
  induction l as [|[[q i] e] l IH]; intros m p; simpl.
  - unfold calls_sum; simpl. by rewrite Z.add_0_r.
  - rewrite IH. unfold calls_sum at 2; cbn [map zsum foldr]. fold (zsum (map (λ '(q, i, _), if child_of p q then i else 0) l)).
    rewrite (callees_inclusive_insert _ _ _ _ _ eq_refl). unfold calls_sum.
    destruct (child_of p q); [|unfold eqm; f_equal; lia]. simpl.
    rewrite sw_eqm by lia. unfold eqm; f_equal; lia.
Qed.

Lemma records_lookup l : ∀ m p s, record_calls m l !! p = Some s →
  let s0 := default function_statistics_default (m !! p) in
  eqm 64 (inclusive_time s) (inclusive_time s0 + calls_sum (λ q i _, if decide (q = p) then i else 0) l)
  ∧ eqm 64 (exclusive_time s) (exclusive_time s0 + calls_sum (λ q _ e, if decide (q = p) then e else 0) l).
Proof.
  induction l as [|[[q i] e] l IH]; intros m p s; simpl.
  - intros ->. unfold calls_sum; simpl. by rewrite !Z.add_0_r.
  - intros H. destruct (IH _ _ _ H) as [-> ->]. unfold calls_sum. cbn [map zsum foldr].
    destruct (decide (q = p)) as [->|Hp];
      rewrite ?lookup_insert_eq, ?lookup_insert_ne by done; simpl;
      (split; repeat rewrite sw_eqm by lia; unfold eqm; f_equal; unfold zsum; lia).
Qed.

(** What a node's callees took that the node itself does not account for. *)
Definition imbalance (p : path) : list (path * Z * Z) → Z :=
  calls_sum (λ q i e, (if child_of p q then i else 0) - (if decide (q = p) then i - e else 0)).

Lemma imbalance_split p l :
  imbalance p l = calls_sum (λ q i _, if child_of p q then i else 0) l
    - calls_sum (λ q i _, if decide (q = p) then i else 0) l
    + calls_sum (λ q _ e, if decide (q = p) then e else 0) l.
Proof.
  unfold imbalance, calls_sum.
  induction l as [|[[q i] e] l IH]; simpl; [done|].
  rewrite IH. case_decide; lia.
Qed.

Lemma child_of_snoc p q k : child_of q (p ++ [k]) = bool_decide (p = q).
Proof.
  unfold child_of, parent_path. rewrite length_app, Nat.add_sub, take_app_length.
  apply bool_decide_ext. split; [by intros [? _]|]. intros ->. split; [done|]. by destruct q.
Qed.

Lemma zsum_inclusive_overheads a b nested :
  zsum (map (λ d, observed a d + b) nested) - zsum (map (λ d, b + overheads b d) nested)
  = zsum (map (inclusive a b) nested).
Proof. induction nested; simpl; [done|]. unfold inclusive in *. lia. Qed.

Lemma zsum_if {A} (b : bool) (f : A → Z) l :
  zsum (map (λ d, if b then f d else 0) l) = if b then zsum (map f l) else 0.
Proof. induction l; destruct b; simpl in *; lia. Qed.

Lemma zsum_zero {A} (l : list A) : zsum (map (λ _, 0) l) = 0.
Proof. by induction l. Qed.

Lemma zsum_eqm {A} w (f g : A → Z) l :
  Forall (λ d, eqm w (f d) (g d)) l → eqm w (zsum (map f l)) (zsum (map g l)).
Proof. induction 1 as [|d l Hd _ IH]; simpl; [done|]. fold zsum. by rewrite Hd, IH. Qed.

Lemma completed_imbalance a b q c : ∀ p,
  eqm 64 (imbalance q (completed a b p c)) (if bool_decide (p = q) then inclusive a b c else 0).
Proof.
  induction c as [id t_in t_out nested IH] using call_ind'; intros p.
  cbn [completed]. unfold imbalance in *. rewrite calls_sum_app, calls_sum_concat.
  rewrite map_map, (zsum_eqm 64 _ (λ d, if bool_decide (p ++ [id] = q) then inclusive a b d else 0)).
  2: { eapply Forall_impl; [exact IH|]. intros d Hd. apply Hd. }
  rewrite zsum_if, <- zsum_inclusive_overheads. unfold calls_sum; cbn [map zsum foldr].
  rewrite child_of_snoc. cbn [exclusive]. rewrite bool_decide_decide.
  unfold inclusive; cbn [overheads].
  destruct (bool_decide (p = q)), (decide (p ++ [id] = q));
    repeat rewrite sw_eqm by lia; unfold eqm; f_equal; lia.
Qed.

(** C6: Time is conserved: after a balanced trace, the inclusive time of every node is its exclusive
    time plus the inclusive times of its direct callees (in 64-bit arithmetic), so that no tick is
    counted twice or lost between a function and what it calls. *)
Theorem balanced_conservation o junk cs ss' m p s :
  forallb calls_ok cs →
  update (shadow_stack_new o junk) (forest_trace cs) ∅ = Ret (ss', m) →
  m !! p = Some s → p ≠ [] →
  eqm 64 (inclusive_time s) (exclusive_time s + callees_inclusive m p).
Proof.
  intros Hc. unfold update. cbn [stack shadow_stack_new reset_stack mbind result_bind].
  rewrite forest_fold by done. simpl. intros [= _ <-] Hp Hne.
  set (l := concat _) in *. destruct (records_lookup _ _ _ _ Hp) as [-> ->].
  rewrite callees_inclusive_records, lookup_empty. simpl.
  assert (Hi : eqm 64 (imbalance p l) 0).
  { unfold l, imbalance. rewrite calls_sum_concat, map_map.
    rewrite (zsum_eqm 64 _ (λ _, 0)); [by rewrite zsum_zero|].
    apply Forall_true. intros c. etrans; [apply completed_imbalance|].
    by rewrite bool_decide_false by congruence. }
  rewrite imbalance_split in Hi.
  set (A := calls_sum (λ q i _, if decide (q = p) then i else 0) l) in *.
  set (B := calls_sum (λ q _ e, if decide (q = p) then e else 0) l) in *.
  change (callees_inclusive ∅ p) with 0.
  set (C := calls_sum (λ (q : path) (i _ : Z), if child_of p q then i else 0) l) in *. clearbody A B C. symmetry.
  replace (0 + B + (0 + C)) with (A + (C - A + B)) by lia.
  rewrite Hi. unfold eqm; f_equal; lia.
Qed.

Definition demo_update : result (shadow_stack * nodes_map) :=
  update demo_shadow (forest_trace demo_calls) ∅.
Definition demo_graph : nodes_map := match demo_update with Ret (_, m) => m | _ => ∅ end.

Lemma balanced_conservation_witness :
  eqm 64 45 (36 + callees_inclusive demo_graph [7; 8]).
Proof.
  apply (balanced_conservation (mk_overhead 1 2) (mk_frame 0 0 0 0 [] []) demo_calls
    (match demo_update with Ret (s, _) => s | _ => demo_shadow end) _
    [7; 8] (mk_stats 2 45 36 36)); [done|vm_compute; done|vm_compute; done|done].
Defined.
