(* ===== verification/BuffersQueue.v ===== *)
(** The single-producer queue of trace buffers (src/collector/buffers_queue.h) and its policy
    (src/common/types.h).

    The profiled thread writes entries into its active buffer and hands full buffers over through
    a ready queue; the analyzer's thread reads them and puts the empty buffers back on a stack the
    producer takes its next buffer from.  The two run concurrently: a state holds the program
    counters of both, and a step is one atomic section (a critical section of [_mtx], one operation
    of the ready queue, one of the event).  The ready queue itself (polyq, not in the repository) is
    an interface with the laws of a FIFO.  Allocation always succeeds. *)

From Stdlib Require Import Floats.SpecFloat.
From S2P Require Import Prelude.
Local Open Scope Z_scope.

(** ** The buffering policy *)

(** [common/types.h:76-76] buffering_policy::buffer_size *)
Definition buffer_size : nat := 384.

(** [common/types.h:73-87] buffering_policy *)
Record buffering_policy := mk_policy { max_buffers : Z; max_empty : Z; min_empty : Z }.

(** The IEEE doubles of the factors; a [size_t] is rounded to the nearest double, a non-negative
    double is truncated by the conversion back. *)
Abbreviation double := spec_float.
Definition double_of (n : Z) : double := binary_normalize 53 1024 n 0 false.
Definition double_trunc (d : double) : Z :=
  match d with
  | S754_finite false m e => Z.shiftl (Zpos m) e
  | _ => 0
  end.
Definition double_mul : double → double → double := SFmul 53 1024.

(** [common/types.h:100-108] buffering_policy::buffering_policy *)
Definition make_policy (max_allocation : Z) (max_empty_factor min_empty_factor : double)
    : result buffering_policy :=
  let max_buffers := Z.max (max_allocation / Z.of_nat buffer_size
    + (if negb (max_allocation mod Z.of_nat buffer_size =? 0) then 1 else 0)) 1 in
  if SFltb max_empty_factor (double_of 0) || SFltb (double_of 1) max_empty_factor
     || SFltb min_empty_factor (double_of 0) || SFltb (double_of 1) min_empty_factor
     || SFltb max_empty_factor min_empty_factor
  then Throw invalid_argument
  else Ret (mk_policy max_buffers
              (Z.max (double_trunc (double_mul max_empty_factor (double_of max_buffers))) 1)
              (Z.min (double_trunc (double_mul min_empty_factor (double_of max_buffers)))
                     (max_buffers - 1))).

(** What the queue needs of a policy. *)
Definition policy_ok (p : buffering_policy) : Prop :=
  1 ≤ max_buffers p < 2 ^ 63 ∧ 1 ≤ max_empty p < 2 ^ 63 ∧ 0 ≤ min_empty p < max_buffers p.

(** ** The ready queue *)

(** What the code relies on of [polyq::circular_buffer]: a FIFO.  [consume] hands the number of
    ready elements to its second callback and gives up when it is told there are none. *)
Class ready_queue (Q B : Type) := {
  rq_empty : Q;
  produce : B → Q → Q;
  consume : Q → option (B * Q);
  contents : Q → list B;
  contents_empty : contents rq_empty = [];
  contents_produce b q : contents (produce b q) = contents q ++ [b];
  consume_contents q : match consume q with
    | Some (b, q') => contents q = b :: contents q'
    | None => contents q = []
    end
}.

Section queue.
Context {E Q : Type}.

(** [collector/buffers_queue.h:83-87] buffers_queue::buffer *)
Record buffer := mk_buffer { data : list E; size : Z }.

Context `{RQ : ready_queue Q buffer}.
(** A buffer as the allocator returns it: its entries and size are whatever the memory held. *)
Context (raw : buffer).

(** Where the producer is: writing entries; between [produce] and the critical section in the loop
    of [flush]; in [_continue.wait()]. *)
Inductive producer_pc := p_running | p_checking | p_waiting.

(** Where the consumer is: outside the queue; at the head of the loop of [read_collected] with the
    counter [n] and [ready_n]; with a buffer it has read and not yet put back; after the critical
    section with [notify_continue] set; past the loop. *)
Inductive consumer_pc :=
  | c_idle
  | c_reading (n : nat) (ready_n : Z)
  | c_holding (n : nat) (ready_n : Z) (b : buffer)
  | c_notifying (n : nat) (ready_n : Z)
  | c_ending (ready_n : Z).

(** [collector/buffers_queue.h:66-81] buffers_queue *)
Record queue := mk_queue {
  active : buffer;            (* [_active_buffer]; meaningless while the producer has none *)
  ptr : nat;                  (* [_ptr - _active_buffer->data] *)
  n_left : Z;
  ready : Q;
  empties : list buffer;      (* [_empty_buffers .. _empty_buffers_top), top first *)
  allocated : Z;
  policy : buffering_policy;
  continue_ : bool;           (* the auto-reset event *)
  producer : producer_pc;
  consumer : consumer_pc
}.

(** The policy-driven part of the state: the stack and the number of allocated buffers. *)
(** [collector/buffers_queue.h:214-215] adjust_empty_buffers: the first loop *)
Fixpoint trim (high_water : Z) (es : list buffer) (n : Z) : list buffer * Z :=
  match es with
  | [] => ([], n)
  | _ :: es' => if high_water <? Z.of_nat (length es) then trim high_water es' (u64 (n - 1)) else (es, n)
  end.

(** [collector/buffers_queue.h:190-197] buffers_queue::create_buffer *)
Definition create_buffer (n : Z) : buffer * Z := (raw, u64 (n + 1)).

(** [collector/buffers_queue.h:216-217] adjust_empty_buffers: the second loop; [fuel] bounds the
    buffers it can create before it meets [max_buffers] *)
Fixpoint refill (fuel : nat) (max low_water : Z) (es : list buffer) (n : Z) : list buffer * Z :=
  match fuel with
  | O => (es, n)
  | S fuel =>
      if (n <? max) && (Z.of_nat (length es) <? low_water)
      then let '(b, n') := create_buffer n in refill fuel max low_water (b :: es) n'
      else (es, n)
  end.

(** [collector/buffers_queue.h:207-218] buffers_queue::adjust_empty_buffers *)
Definition adjust_empty_buffers (p : buffering_policy) (base_n : Z) (es : list buffer) (n : Z)
    : list buffer * Z :=
  let high_water := u64 (max_empty p + base_n) in
  let low_water := u64 (min_empty p + base_n) in
  let '(es', n') := trim high_water es n in
  refill (Z.to_nat (max_buffers p)) (max_buffers p) low_water es' n'.

(** [collector/buffers_queue.h:199-205] buffers_queue::start_buffer *)
Definition start_buffer (b : buffer) (s : queue) : queue :=
  mk_queue b 0 (Z.of_nat buffer_size) (ready s) (empties s) (allocated s) (policy s) (continue_ s)
    p_running (consumer s).

(** [collector/buffers_queue.h:105-116] buffers_queue::buffers_queue *)
Definition new_queue (p : buffering_policy) : queue :=
  let '(b, n) := create_buffer 0 in
  let '(es, n') := adjust_empty_buffers p 0 [] n in
  start_buffer b (mk_queue b 0 0 rq_empty es n' p false p_running c_idle).

(** The part of [flush] before its loop: the active buffer becomes ready. *)
(** [collector/buffers_queue.h:133-137] buffers_queue::flush *)
Definition flush_produce (s : queue) : queue :=
  mk_queue (active s) (ptr s) (n_left s)
    (produce (mk_buffer (data (active s)) (uw 32 (Z.of_nat buffer_size - n_left s))) (ready s))
    (empties s) (allocated s) (policy s) (continue_ s) p_checking (consumer s).

(** One round of the loop of [flush], in the critical section. *)
(** [collector/buffers_queue.h:138-147] buffers_queue::flush *)
Definition flush_take (s : queue) : queue :=
  match empties s with
  | [] => mk_queue (active s) (ptr s) (n_left s) (ready s) [] (allocated s) (policy s)
            (continue_ s) p_waiting (consumer s)
  | b :: es =>
      start_buffer b (mk_queue (active s) (ptr s) (n_left s) (ready s) es (allocated s) (policy s)
        (continue_ s) (producer s) (consumer s))
  end.

(** [collector/buffers_queue.h:126-131] buffers_queue::push *)
Definition push (s : queue) : queue :=
  let left_ := uw 32 (n_left s - 1) in
  let s' := mk_queue (active s) (S (ptr s)) left_ (ready s) (empties s) (allocated s) (policy s)
              (continue_ s) (producer s) (consumer s) in
  if left_ =? 0 then flush_produce s' else s'.

(** Writing through [current()] and [push]; a pointer past the buffer is undefined behaviour. *)
(** [collector/buffers_queue.h:122-124] buffers_queue::current *)
Definition put (e : E) (s : queue) : result queue :=
  if decide (ptr s < length (data (active s)))%nat
  then Ret (push (mk_queue (mk_buffer (<[ptr s := e]> (data (active s))) (size (active s)))
              (ptr s) (n_left s) (ready s) (empties s) (allocated s) (policy s) (continue_ s)
              (producer s) (consumer s)))
  else UB.

Definition set_consumer (s : queue) (c : consumer_pc) : queue :=
  mk_queue (active s) (ptr s) (n_left s) (ready s) (empties s) (allocated s) (policy s)
    (continue_ s) (producer s) c.

(** The condition of the loop of [read_collected]: [n--], then [consume] with its two callbacks. *)
(** [collector/buffers_queue.h:149-162] buffers_queue::read_collected *)
Definition read_consume (n : nat) (ready_n : Z) (s : queue) : queue :=
  match n with
  | O => set_consumer s (c_ending ready_n)
  | S n =>
      let count := Z.of_nat (length (contents (ready s))) in
      let ready_n' := if ready_n <? count then count else ready_n in
      match consume (ready s) with
      | None => set_consumer s (c_ending ready_n')
      | Some (b, q) =>
          mk_queue (active s) (ptr s) (n_left s) q (empties s) (allocated s) (policy s)
            (continue_ s) (producer s) (c_holding n ready_n' b)
      end
  end.

(** What the reader is called with. *)
(** [collector/buffers_queue.h:164-164] buffers_queue::read_collected *)
Definition delivered (b : buffer) : list E := take (Z.to_nat (size b)) (data b).

(** [collector/buffers_queue.h:165-171] buffers_queue::read_collected *)
Definition read_return (n : nat) (ready_n : Z) (b : buffer) (s : queue) : queue :=
  mk_queue (active s) (ptr s) (n_left s) (ready s) (b :: empties s) (allocated s) (policy s)
    (continue_ s) (producer s)
    (match empties s with [] => c_notifying n ready_n | _ => c_reading n ready_n end).

(** The event is set: [_continue.set()]. *)
Definition notify (s : queue) : queue :=
  mk_queue (active s) (ptr s) (n_left s) (ready s) (empties s) (allocated s) (policy s) true
    (producer s) (consumer s).

(** [collector/buffers_queue.h:173-179] buffers_queue::read_collected *)
Definition read_end (ready_n : Z) (s : queue) : queue :=
  let '(es, n) := adjust_empty_buffers (policy s) (u64 ready_n) (empties s) (allocated s) in
  let s' := mk_queue (active s) (ptr s) (n_left s) (ready s) es n (policy s) (continue_ s)
              (producer s) c_idle in
  match empties s with [] => notify s' | _ => s' end.

(** [collector/buffers_queue.h:181-188] buffers_queue::set_buffering_policy *)
Definition set_buffering_policy (p : buffering_policy) (s : queue) : queue :=
  let '(es, n) := adjust_empty_buffers p (u64 (allocated s - Z.of_nat (length (empties s)) - 1))
                    (empties s) (allocated s) in
  mk_queue (active s) (ptr s) (n_left s) (ready s) es n p (continue_ s) (producer s) (consumer s).

(** ** The interleavings *)

Inductive label :=
  | l_put (e : E)              (* the producer writes an entry *)
  | l_flush                    (* the producer hands over a partial buffer *)
  | l_take | l_wake            (* the two halves of a round of the loop of [flush] *)
  | l_begin | l_consume (es : list E) | l_return | l_notify | l_end   (* [read_collected] *)
  | l_policy (p : buffering_policy).

Inductive q_step : queue → label → queue → Prop :=
  | step_put e s s' : producer s = p_running → put e s = Ret s' → q_step s (l_put e) s'
  | step_flush s : producer s = p_running → q_step s l_flush (flush_produce s)
  | step_take s : producer s = p_checking → q_step s l_take (flush_take s)
  | step_wake s :
      producer s = p_waiting → continue_ s = true →
      q_step s l_wake (mk_queue (active s) (ptr s) (n_left s) (ready s) (empties s) (allocated s)
        (policy s) false p_checking (consumer s))
  | step_begin s :
      consumer s = c_idle →
      q_step s l_begin (set_consumer s (c_reading (Z.to_nat (max_buffers (policy s))) 0))
  | step_consume s n ready_n s' :
      consumer s = c_reading n ready_n → read_consume n ready_n s = s' →
      q_step s (l_consume (match consumer s' with c_holding _ _ b => delivered b | _ => [] end)) s'
  | step_return s n ready_n b :
      consumer s = c_holding n ready_n b → q_step s l_return (read_return n ready_n b s)
  | step_notify s n ready_n :
      consumer s = c_notifying n ready_n →
      q_step s l_notify (set_consumer (notify s) (c_reading n ready_n))
  | step_end s ready_n :
      consumer s = c_ending ready_n → q_step s l_end (read_end ready_n s)
  | step_policy s p : policy_ok p → q_step s (l_policy p) (set_buffering_policy p s).

Inductive q_run : queue → list label → queue → Prop :=
  | run_nil s : q_run s [] s
  | run_snoc s ls s' l s'' : q_run s ls s' → q_step s' l s'' → q_run s (ls ++ [l]) s''.

(** What the producer put in and what the reader was given, along a run. *)
Definition put_of (l : label) : list E := match l with l_put e => [e] | _ => [] end.
Definition read_of (l : label) : list E := match l with l_consume es => es | _ => [] end.

(** What is in the queue and not read yet: the ready buffers, then what the active one holds. *)
Definition pending (s : queue) : list E :=
  concat (map delivered (contents (ready s))) ++
  match producer s with p_running => take (ptr s) (data (active s)) | _ => [] end.

(** ** The bookkeeping invariant *)

Definition in_hand (s : queue) : Z := match consumer s with c_holding _ _ _ => 1 | _ => 0 end.
Definition has_active (s : queue) : Z := match producer s with p_running => 1 | _ => 0 end.

Definition buffer_ok (b : buffer) : Prop := length (data b) = buffer_size.

Definition consumer_ready_n (c : consumer_pc) : option Z :=
  match c with
  | c_idle => None
  | c_reading _ r | c_holding _ r _ | c_notifying _ r | c_ending r => Some r
  end.

Record queue_ok (cap : Z) (s : queue) : Prop := {
  ok_policy : policy_ok (policy s);
  ok_cap : max_buffers (policy s) ≤ cap;
  ok_count : allocated s = has_active s + Z.of_nat (length (contents (ready s)))
                           + Z.of_nat (length (empties s)) + in_hand s;
  ok_max : 0 ≤ allocated s ≤ cap;
  ok_running : producer s = p_running →
    buffer_ok (active s) ∧ Z.of_nat (ptr s) + n_left s = 384 ∧ 0 < n_left s;
  ok_ready : Forall buffer_ok (contents (ready s));
  ok_empties : Forall buffer_ok (empties s);
  ok_holding : ∀ n r b, consumer s = c_holding n r b → buffer_ok b;
  ok_ready_n : ∀ r, consumer_ready_n (consumer s) = Some r → 0 ≤ r ≤ cap
}.

(** *** The watermarks *)

Lemma trim_spec h es : ∀ n, 0 ≤ h → len es ≤ n < 2 ^ 64 →
  let '(es', n') := trim h es n in
  n' - len es' = n - len es ∧ len es' = Z.min (len es) h ∧ es' `suffix_of` es.
Proof.
  induction es as [|b es IH]; intros n Hh Hn; cbn [trim].
  - split_and!; [done|simpl; lia|done].
  - destruct (Z.ltb_spec h (len (b :: es))) as [Hlt|Hge]; cbn [length] in *.
    + rewrite uw_small by (unfold in_u; lia). specialize (IH (n - 1) Hh ltac:(lia)).
      destruct (trim h es (n - 1)) as [es' n']. destruct IH as (?&?&?).
      split_and!; [lia|lia|by apply suffix_cons_r].
    + split_and!; [lia|lia|done].
Qed.

Lemma refill_spec fuel mx low : ∀ es n, 0 ≤ n < 2 ^ 63 → mx < 2 ^ 63 → (mx - n ≤ Z.of_nat fuel) →
  let '(es', n') := refill fuel mx low es n in
  n' - len es' = n - len es ∧ n ≤ n' ≤ Z.max n mx
  ∧ (n' < mx → low ≤ len es') ∧ (∃ k, es' = replicate k raw ++ es)
  ∧ (len es' ≤ Z.max (len es) low).
Proof.
  induction fuel as [|fuel IH]; intros es n Hn Hmx Hf; cbn [refill].
  - split_and!; try lia. by exists 0%nat.
  - destruct (Z.ltb_spec n mx), (Z.ltb_spec (len es) low); cbn [andb create_buffer];
      try (split_and!; [lia..|by exists 0%nat|lia]).
    rewrite uw_small by (unfold in_u; lia).
    specialize (IH (raw :: es) (n + 1)). cbn [length] in IH.
    destruct (refill fuel mx low (raw :: es) (n + 1)) as [es' n'].
    destruct IH as (?&?&?&[k Hk]&?); [lia..|]. split_and!; [lia..|exists (S k)|lia].
    rewrite Hk, replicate_S_end, <- app_assoc. done.
Qed.

(** [adjust_empty_buffers] keeps the number of buffers outside the stack, leaves at most the high
    water on it, and as many as the low water asks for unless [max_buffers] are allocated. *)
Lemma adjust_spec p base es n :
  policy_ok p → len es ≤ n < 2 ^ 63 →
  let high := u64 (max_empty p + base) in
  let low := u64 (min_empty p + base) in
  let '(es', n') := adjust_empty_buffers p base es n in
  n' - len es' = n - len es ∧ n' ≤ Z.max n (max_buffers p)
  ∧ (n' < max_buffers p → low ≤ len es')
  ∧ Z.min (len es) high ≤ len es' ≤ Z.max (Z.min (len es) high) low
  ∧ (Forall buffer_ok es → buffer_ok raw → Forall buffer_ok es').
Proof.
  intros Hp Hn high low. unfold adjust_empty_buffers. fold high low.
  pose proof (uw_range 64 ltac:(lia) (max_empty p + base)) as Hh. fold high in Hh.
  pose proof (trim_spec high es n ltac:(unfold in_u in Hh; lia) ltac:(lia)) as Ht.
  destruct (trim high es n) as [es1 n1]. destruct Ht as (H1 & H2 & [es0 ->]).
  destruct Hp as (?&?&?).
  pose proof (refill_spec (Z.to_nat (max_buffers p)) (max_buffers p) low es1 n1) as Hr.
  destruct (refill _ _ _ _ _) as [es2 n2]. unfold in_u in Hh.
  destruct Hr as (?&?&?&[k ->]&?); [lia..|].
  rewrite !length_app, length_replicate in *. split_and!; try lia.
  rewrite !Forall_app. intros [_ ?] ?. split; [by apply Forall_replicate|done].
Qed.

(** *** Steps keep the books *)

Definition within (cap : Z) (l : label) : Prop :=
  match l with l_policy p => max_buffers p ≤ cap | _ => True end.

(** An entry is written in place; the write that fills the buffer hands it over. *)
Lemma put_running cap s e : queue_ok cap s → producer s = p_running →
  let b := mk_buffer (<[ptr s := e]> (data (active s))) (size (active s)) in
  let s1 := mk_queue b (S (ptr s)) (n_left s - 1) (ready s) (empties s) (allocated s) (policy s)
              (continue_ s) p_running (consumer s) in
  put e s = Ret (if n_left s =? 1 then flush_produce s1 else s1)
  ∧ buffer_ok b ∧ (ptr s < length (data (active s)))%nat.
Proof.
  intros Hok Hp b s1. destruct (ok_running _ _ Hok Hp) as (Hb & Hn & Hl).
  unfold buffer_ok, buffer_size in *. unfold put. rewrite decide_True by lia.
  unfold push; cbn [n_left ready empties allocated policy continue_ producer consumer active ptr].
  rewrite uw_small by (unfold in_u; lia).
  split; [|split; [unfold b; simpl; by rewrite length_insert|lia]].
  rewrite Hp. replace (n_left s - 1 =? 0) with (n_left s =? 1) by
    (apply eq_true_iff_eq; rewrite !Z.eqb_eq; lia).
  done.
Qed.

Lemma empties_allocated cap s : queue_ok cap s → len (empties s) ≤ allocated s.
Proof. intros []. unfold has_active, in_hand in *. destruct (producer s), (consumer s); lia. Qed.

Lemma flush_produce_ok cap s : queue_ok cap s → producer s = p_running →
  queue_ok cap (flush_produce s).
Proof.
  intros Hok Hp. destruct (ok_running _ _ Hok Hp) as (Hb & _). destruct Hok.
  split; simpl; try done.
  - unfold has_active, in_hand in *. simpl. rewrite Hp in *.
    rewrite contents_produce, length_app. simpl. lia.
  - rewrite contents_produce. apply Forall_app. split; [done|]. by repeat constructor.
Qed.

(** A queue that differs in the contents of its active buffer only, before it is full. *)
Lemma put_ok cap s e s' : queue_ok cap s → producer s = p_running → put e s = Ret s' →
  queue_ok cap s'.
Proof.
  intros Hok Hp. destruct (put_running cap s e Hok Hp) as (-> & Hb & Hlt). intros [= <-].
  destruct (ok_running _ _ Hok Hp) as (Hb' & Hn & Hl). destruct Hok.
  destruct (Z.eqb_spec (n_left s) 1).
  - unfold flush_produce. split; simpl; try done.
    + unfold has_active, in_hand in *. simpl. rewrite Hp in *.
      rewrite contents_produce, length_app. simpl. lia.
    + rewrite contents_produce. apply Forall_app. split; [done|]. by repeat constructor.
  - split; simpl; try done.
    + unfold has_active, in_hand in *. simpl. rewrite Hp in *. lia.
    + intros _. split_and!; [done|lia..].
Qed.

Lemma adjusted_ok cap s p base c k :
  buffer_ok raw → queue_ok cap s → cap < 2 ^ 62 → policy_ok p → max_buffers p ≤ cap →
  consumer s = c ∨ (in_hand s = 0 ∧ c = c_idle) →
  let '(es, n) := adjust_empty_buffers p base (empties s) (allocated s) in
  queue_ok cap (mk_queue (active s) (ptr s) (n_left s) (ready s) es n p k (producer s) c).
Proof.
  intros Hraw Hok Hcap Hp Hmax Hc. pose proof (empties_allocated cap s Hok) as Hle. destruct Hok.
  pose proof (adjust_spec p base (empties s) (allocated s) Hp ltac:(lia)) as Ha.
  destruct (adjust_empty_buffers _ _ _ _) as [es n]. destruct Ha as (?&?&_&?&?).
  split; simpl; try done; auto.
  - destruct Hc as [<-|[? ->]]; unfold has_active, in_hand in *; simpl in *; lia.
  - lia.
  - destruct Hc as [<-|[? ->]]; [done|]. by intros.
  - destruct Hc as [<-|[? ->]]; [done|]. by intros.
Qed.

(** The fields of [queue_ok] that a step leaves alone or that follow from the program counters. *)
Ltac queue_fields :=
  split; unfold has_active, in_hand in *; simpl in *; try done;
  try (by intros ? [= <-]); try (by intros ??? [= <- <- <-]); try lia.

Lemma read_consume_ok cap s n r : queue_ok cap s → consumer s = c_reading n r →
  queue_ok cap (read_consume n r s).
Proof.
  intros Hok Hc. destruct Hok.
  assert (Hr : 0 ≤ r ≤ cap) by (apply ok_ready_n0; by rewrite Hc).
  unfold has_active, in_hand in *. rewrite Hc in *.
  unfold read_consume. destruct n as [|n]; [by queue_fields|].
  pose proof (consume_contents (ready s)) as Hq.
  assert (Hr' : 0 ≤ (if r <? len (contents (ready s)) then len (contents (ready s)) else r) ≤ cap).
  { destruct (Z.ltb_spec r (len (contents (ready s)))); [|done]. destruct (producer s); lia. }
  destruct (consume (ready s)) as [[b q]|]; [|by queue_fields].
  rewrite Hq in *. apply Forall_cons in ok_ready0 as [??]. by queue_fields.
Qed.

Lemma read_end_ok cap s r :
  buffer_ok raw → cap < 2 ^ 62 → queue_ok cap s → consumer s = c_ending r →
  queue_ok cap (read_end r s).
Proof.
  intros Hraw Hcap Hok Hc.
  pose proof (adjusted_ok cap s (policy s) (u64 r) c_idle (continue_ s)
    Hraw Hok Hcap (ok_policy _ _ Hok) (ok_cap _ _ Hok)) as Ha.
  unfold read_end. destruct (adjust_empty_buffers _ _ _ _) as [es n].
  assert (Hok' := Ha ltac:(right; unfold in_hand; by rewrite Hc)).
  destruct (empties s); [|done]. by destruct Hok'.
Qed.

Lemma set_policy_ok cap s p :
  buffer_ok raw → cap < 2 ^ 62 → queue_ok cap s → policy_ok p → max_buffers p ≤ cap →
  queue_ok cap (set_buffering_policy p s).
Proof.
  intros Hraw Hcap Hok Hp Hl.
  pose proof (adjusted_ok cap s p (u64 (allocated s - len (empties s) - 1)) (consumer s)
    (continue_ s) Hraw Hok Hcap Hp Hl) as Ha.
  unfold set_buffering_policy. destruct (adjust_empty_buffers _ _ _ _) as [es n]. auto.
Qed.

Lemma flush_take_ok cap s : queue_ok cap s → producer s = p_checking → queue_ok cap (flush_take s).
Proof.
  intros Hok Hp. destruct Hok. unfold flush_take, has_active in *. rewrite Hp in *.
  destruct (empties s) as [|b es] eqn:Ee; [by queue_fields|].
  apply Forall_cons in ok_empties0 as [??]. by queue_fields.
Qed.

Lemma read_return_ok cap s n r b : queue_ok cap s → consumer s = c_holding n r b →
  queue_ok cap (read_return n r b s).
Proof.
  intros Hok Hc. destruct Hok.
  assert (Hr : 0 ≤ r ≤ cap) by (apply ok_ready_n0; by rewrite Hc).
  assert (buffer_ok b) by by eapply ok_holding0.
  unfold has_active, in_hand, read_return in *. rewrite Hc in *.
  destruct (empties s) eqn:Ee; queue_fields; by constructor.
Qed.

(** Every step keeps the books, as long as no policy asks for more buffers than the first. *)
Lemma step_ok cap s l s' :
  buffer_ok raw → cap < 2 ^ 62 → queue_ok cap s → q_step s l s' → within cap l → queue_ok cap s'.
Proof.
  intros Hraw Hcap Hok Hs Hl. destruct Hs as [e s s' Hp Hput|s Hp|s Hp|s Hp Hc|s Hc|s n r s' Hc <-
    |s n r b Hc|s n r Hc|s r Hc|s p Hp];
    eauto using put_ok, flush_produce_ok, flush_take_ok, read_consume_ok, read_return_ok,
      read_end_ok, set_policy_ok.
  - destruct Hok. unfold has_active in *. rewrite Hp in *. by queue_fields.
  - destruct Hok. unfold in_hand in *. rewrite Hc in *. queue_fields.
    intros ? [= <-]. unfold policy_ok in *. lia.
  - destruct Hok. assert (Hr : 0 ≤ r ≤ cap) by (apply ok_ready_n0; by rewrite Hc).
    unfold in_hand in *. rewrite Hc in *. by queue_fields.
Qed.

Lemma new_queue_ok p : buffer_ok raw → policy_ok p → max_buffers p < 2 ^ 62 →
  queue_ok (max_buffers p) (new_queue p).
Proof.
  intros Hraw Hp Hm. unfold new_queue, create_buffer. rewrite uw_small by (unfold in_u; lia).
  pose proof (adjust_spec p 0 [] (0 + 1) Hp ltac:(simpl; lia)) as Ha.
  destruct (adjust_empty_buffers p 0 [] (0 + 1)) as [es n].
  destruct Ha as (H1 & H2 & _ & _ & H5). destruct Hp as (?&?&?).
  split; unfold has_active, in_hand; simpl in *; rewrite ?contents_empty; simpl; try done; auto; lia.
Qed.

(** An invariant of the steps holds along every run. *)
Lemma run_invariant (P : queue → Prop) (A : label → Prop) s ls s' :
  (∀ s l s', P s → A l → q_step s l s' → P s') →
  P s → Forall A ls → q_run s ls s' → P s'.
Proof.
  intros HP H0 HA Hr. induction Hr as [|s ls s1 l s2 Hr IH Hs]; [done|].
  apply Forall_app in HA as [HA [Hl _]%Forall_cons]. eauto.
Qed.

Lemma run_ok p ls s : buffer_ok raw → policy_ok p → max_buffers p < 2 ^ 62 →
  q_run (new_queue p) ls s → Forall (within (max_buffers p)) ls → queue_ok (max_buffers p) s.
Proof.
  intros. eapply (run_invariant (queue_ok (max_buffers p)) (within (max_buffers p)));
    eauto using step_ok, new_queue_ok.
Qed.

(** C10: The queue never overruns its memory: along every interleaving of the producer, the reader
    and policy changes that ask for no more buffers than the constructor's policy, a write through
    [current()] stays inside the active buffer, and the stack of empty buffers (the one in the
    reader's hands included) and the ready queue fit the arrays the constructor sized. *)
Theorem queue_bounds p ls s :
  buffer_ok raw → policy_ok p → max_buffers p < 2 ^ 62 →
  q_run (new_queue p) ls s → Forall (within (max_buffers p)) ls →
  len (empties s) + in_hand s ≤ max_buffers p ∧ len (contents (ready s)) ≤ max_buffers p
  ∧ allocated s ≤ max_buffers p
  ∧ (producer s = p_running → ∀ e, returns (put e s)).
Proof.
  intros Hraw Hp Hm Hr Hl. pose proof (run_ok _ _ _ Hraw Hp Hm Hr Hl) as Hok.
  split_and!; [destruct Hok; unfold has_active, in_hand in *; destruct (producer s), (consumer s); lia..|].
  intros Hrun e. by destruct (put_running _ _ e Hok Hrun) as (-> & _).
Qed.

(** ** Nothing is lost or reordered *)

Lemma take_insert_snoc (l : list E) i e :
  (i < length l)%nat → take (S i) (<[i := e]> l) = take i l ++ [e].
Proof.
  intros Hi. rewrite (take_S_r _ _ e) by by apply list_lookup_insert_eq.
  by rewrite take_insert_ge by lia.
Qed.

Lemma pending_flush cap s : queue_ok cap s → producer s = p_running →
  pending (flush_produce s) = pending s.
Proof.
  intros Hok Hp. unfold pending, flush_produce; simpl. rewrite Hp, contents_produce.
  destruct (ok_running _ _ Hok Hp) as (Hb & Hn & Hl).
  rewrite map_app, concat_app, app_nil_r. simpl. rewrite app_nil_r. do 2 f_equal.
  unfold delivered; simpl. f_equal. unfold buffer_size.
  rewrite uw_small by (unfold in_u; lia). lia.
Qed.

Lemma pending_put cap s e s' : queue_ok cap s → producer s = p_running → put e s = Ret s' →
  pending s' = pending s ++ [e].
Proof.
  intros Hok Hp. destruct (put_running cap s e Hok Hp) as (-> & Hb & Hlt). intros [= <-].
  destruct (ok_running _ _ Hok Hp) as (Hb' & Hn & Hl).
  destruct (Z.eqb_spec (n_left s) 1) as [E1|E1].
  - unfold pending, flush_produce; simpl. rewrite Hp, contents_produce.
    rewrite map_app, concat_app, app_nil_r, <- app_assoc. simpl. rewrite app_nil_r. f_equal.
    unfold delivered; simpl. rewrite E1. simpl (1 - 1).
    rewrite uw_small by (unfold in_u, buffer_size; lia).
    rewrite <- (take_insert_snoc (data (active s)) (ptr s) e) by done. f_equal.
    unfold buffer_size; lia.
  - unfold pending; simpl. by rewrite Hp, take_insert_snoc, app_assoc.
Qed.

Lemma pending_take s : producer s = p_checking → pending (flush_take s) = pending s.
Proof.
  intros Hp. unfold pending, flush_take. rewrite Hp. destruct (empties s); done.
Qed.

Lemma pending_step cap s l s' : queue_ok cap s → q_step s l s' →
  pending s ++ put_of l = read_of l ++ pending s'.
Proof.
  intros Hok Hs. destruct Hs as [e s s' Hp Hput|s Hp|s Hp|s Hp Hc|s Hc|s n r s' Hc <-
    |s n r b Hc|s n r Hc|s r Hc|s p Hp]; cbn [put_of read_of app]; rewrite ?app_nil_r.
  - by erewrite (pending_put cap s e s').
  - by erewrite pending_flush.
  - by rewrite pending_take.
  - unfold pending; simpl. by rewrite Hp.
  - done.
  - unfold read_consume. destruct n as [|n]; [done|].
    pose proof (consume_contents (ready s)) as Hq.
    destruct (consume (ready s)) as [[b q]|]; [|done].
    unfold pending; simpl. rewrite Hq. simpl. by rewrite app_assoc.
  - done.
  - done.
  - unfold read_end. destruct (adjust_empty_buffers _ _ _ _). by destruct (empties s).
  - unfold set_buffering_policy. by destruct (adjust_empty_buffers _ _ _ _).
Qed.

(** C5: Every entry reaches the reader once, in order: along every interleaving the entries put so
    far are the entries read so far followed by those still in the queue. *)
Theorem queue_order p ls s :
  buffer_ok raw → policy_ok p → max_buffers p < 2 ^ 62 →
  q_run (new_queue p) ls s → Forall (within (max_buffers p)) ls →
  concat (map put_of ls) = concat (map read_of ls) ++ pending s.
Proof.
  intros Hraw Hp Hm Hr. remember (new_queue p) as s0 eqn:E0.
  induction Hr as [s|s ls s1 l s2 Hr IH Hs]; intros Hl.
  - subst s. unfold new_queue, create_buffer. destruct (adjust_empty_buffers _ _ _ _).
    unfold pending; simpl. by rewrite contents_empty.
  - apply Forall_app in Hl as [Hl _]. specialize (IH E0 Hl).
    assert (Hok : queue_ok (max_buffers p) s1) by (subst s; by eapply run_ok).
    rewrite !map_app, !concat_app, IH. simpl. rewrite !app_nil_r, <- !app_assoc.
    f_equal. by eapply pending_step.
Qed.

(** ** Wake-ups *)

(** No wake-up is outstanding for nothing: a producer that waits while there is a buffer for it has
    the event set, or the reader is about to set it. *)
Definition wake_ok (s : queue) : Prop :=
  producer s = p_waiting → empties s ≠ [] →
  continue_ s = true ∨ ∃ n r, consumer s = c_notifying n r.

Definition no_policy (l : label) : Prop := match l with l_policy _ => False | _ => True end.

Lemma wake_step s l s' : wake_ok s → no_policy l → q_step s l s' → wake_ok s'.
Proof.
  intros Hw Hl Hs. destruct Hs as [e s s' Hp Hput|s Hp|s Hp|s Hp Hc|s Hc|s n r s' Hc <-
    |s n r b Hc|s n r Hc|s r Hc|s p Hp]; unfold wake_ok in *.
  - unfold put in Hput. destruct (decide _); [|done]. injection Hput as <-.
    unfold push; cbn [n_left]. destruct (_ =? 0); simpl; congruence.
  - done.
  - unfold flush_take. by destruct (empties s).
  - done.
  - simpl. intros Hp He. destruct (Hw Hp He) as [?|(?&?&?)]; [by left|congruence].
  - unfold read_consume. destruct n as [|n]; [|destruct (consume (ready s)) as [[b q]|]]; simpl;
      intros Hp He; (destruct (Hw Hp He) as [?|(?&?&?)]; [by left|congruence]).
  - unfold read_return; simpl. intros Hp _. destruct (empties s) eqn:Ee; [right; eauto|].
    destruct (Hw Hp) as [?|(?&?&?)]; [congruence|by left|congruence].
  - simpl. by left.
  - unfold read_end. destruct (adjust_empty_buffers _ _ _ _) as [es k].
    destruct (empties s) eqn:Ee; simpl; [by left|]. intros Hp _.
    destruct (Hw Hp) as [?|(?&?&?)]; [congruence|by left|congruence].
  - done.
Qed.

Lemma new_queue_running p : producer (new_queue p) = p_running.
Proof. unfold new_queue, create_buffer. by destruct (adjust_empty_buffers _ _ _ _). Qed.

(** C9: No wake-up is lost while the policy stands: whenever the producer waits and the stack holds
    a buffer for it, the event it waits on is set or the reader is just about to set it. *)
Theorem no_lost_wakeup p ls s :
  q_run (new_queue p) ls s → Forall no_policy ls →
  producer s = p_waiting → empties s ≠ [] →
  continue_ s = true ∨ ∃ n r, consumer s = c_notifying n r.
Proof.
  intros Hr Hl. apply (run_invariant wake_ok no_policy (new_queue p) ls s); [|..|done|done].
  - eauto using wake_step.
  - intros Hp. by rewrite new_queue_running in Hp.
Qed.

(** ** A call of [read_collected] *)

Definition notify_if (s : queue) : queue :=
  match consumer s with
  | c_notifying n r => set_consumer (notify s) (c_reading n r)
  | _ => s
  end.

(** The loop, with nothing interleaved: the entries the reader is given, and the queue after it. *)
(** [collector/buffers_queue.h:153-171] buffers_queue::read_collected *)
Fixpoint read_loop (n : nat) (r : Z) (s : queue) : list E * queue :=
  match n with
  | O => ([], read_consume O r s)
  | S n' =>
      let s1 := read_consume n r s in
      match consumer s1 with
      | c_holding _ r' b =>
          let '(es, s2) := read_loop n' r' (notify_if (read_return n' r' b s1)) in
          (delivered b ++ es, s2)
      | _ => ([], s1)
      end
  end.

(** [collector/buffers_queue.h:149-179] buffers_queue::read_collected *)
Definition read_collected (s : queue) : list E * queue :=
  let n := Z.to_nat (max_buffers (policy s)) in
  let '(es, s1) := read_loop n 0 (set_consumer s (c_reading n 0)) in
  match consumer s1 with
  | c_ending r => (es, read_end r s1)
  | _ => (es, s1)
  end.

(** The label of a step of the reader. *)
Definition reader_label (l : label) : Prop :=
  match l with l_begin | l_consume _ | l_return | l_notify | l_end => True | _ => False end.

Lemma run_cons s l s1 ls s2 : q_step s l s1 → q_run s1 ls s2 → q_run s (l :: ls) s2.
Proof.
  intros Hs Hr. induction Hr as [s1|s1 ls s2 l' s3 Hr IH Hs'].
  - apply (run_snoc _ [] s); [constructor|done].
  - change (l :: ls ++ [l']) with ((l :: ls) ++ [l']). econstructor; eauto.
Qed.

Lemma run_app s ls s1 ls' s2 : q_run s ls s1 → q_run s1 ls' s2 → q_run s (ls ++ ls') s2.
Proof.
  intros Hr. induction 1; [by rewrite app_nil_r|]. rewrite app_assoc. econstructor; eauto.
Qed.

Lemma notify_if_run s n r b : consumer s = c_holding n r b →
  ∃ ls, q_run (read_return n r b s) ls (notify_if (read_return n r b s))
    ∧ Forall reader_label ls ∧ concat (map read_of ls) = []
    ∧ consumer (notify_if (read_return n r b s)) = c_reading n r.
Proof.
  intros Hc. unfold notify_if, read_return; simpl. destruct (empties s); simpl.
  - exists [l_notify]. split_and!; [|by repeat constructor|done|done].
    eapply run_cons; [by eapply step_notify|constructor].
  - exists []. split_and!; [constructor..|done|done].
Qed.

Lemma read_loop_run n : ∀ r s, consumer s = c_reading n r →
  ∃ ls r', q_run s ls (read_loop n r s).2 ∧ Forall reader_label ls
    ∧ concat (map read_of ls) = (read_loop n r s).1
    ∧ consumer (read_loop n r s).2 = c_ending r'.
Proof.
  induction n as [|n IH]; intros r s Hc.
  - exists [l_consume []], r. cbn [read_loop]. split_and!; [|by repeat constructor|done|done].
    eapply run_cons; [exact (step_consume s 0 r _ Hc eq_refl)|constructor].
  - cbn [read_loop]. pose proof (step_consume s (S n) r _ Hc eq_refl) as Hs.
    remember (read_consume (S n) r s) as s1 eqn:E1. unfold read_consume in E1.
    destruct (consume (ready s)) as [[b q]|]; subst s1; cbn [consumer] in Hs |- *.
    + set (s1 := mk_queue _ _ _ _ _ _ _ _ _ _) in *. set (r1 := if _ <? _ then _ else _) in *.
      destruct (notify_if_run s1 n r1 b eq_refl) as (ls1 & Hr1 & Hl1 & He1 & Hc1).
      destruct (IH r1 _ Hc1) as (ls2 & r' & Hr2 & Hl2 & He2 & Hc2).
      destruct (read_loop n r1 _) as [es s2]. simpl in *.
      exists (l_consume (delivered b) :: l_return :: ls1 ++ ls2), r'. split_and!; [|..|done].
      * eapply run_cons; [exact Hs|]. eapply run_cons; [by apply (step_return s1 n r1 b)|].
        by eapply run_app.
      * by repeat (constructor; [done|]); apply Forall_app.
      * simpl. by rewrite map_app, concat_app, He1, He2.
    + eexists [l_consume []], _. split_and!; [|by repeat constructor|done|done].
      eapply run_cons; [exact Hs|constructor].
Qed.

(** A call of [read_collected] is one of the interleavings: it is a run of reader steps from an
    idle reader to an idle reader, and hands out what those steps read. *)
Theorem read_collected_run s : consumer s = c_idle →
  ∃ ls, q_run s ls (read_collected s).2 ∧ Forall reader_label ls
    ∧ concat (map read_of ls) = (read_collected s).1 ∧ consumer (read_collected s).2 = c_idle.
Proof.
  intros Hc. unfold read_collected. set (n := Z.to_nat _).
  destruct (read_loop_run n 0 (set_consumer s (c_reading n 0)) eq_refl)
    as (ls & r' & Hr & Hl & He & Hc').
  destruct (read_loop n 0 _) as [es s1]; simpl in *. rewrite Hc'. simpl.
  exists (l_begin :: ls ++ [l_end]). split_and!.
  - eapply run_cons; [by apply step_begin|]. econstructor; [exact Hr|by apply step_end].
  - constructor; [done|]. apply Forall_app; by repeat constructor.
  - simpl. by rewrite map_app, concat_app, He, app_nil_r.
  - unfold read_end. destruct (adjust_empty_buffers _ _ _ _). by destruct (empties s1).
Qed.

(** *** The reader unblocks the producer *)

Lemma notify_if_facts s n r b :
  let s' := notify_if (read_return n r b s) in
  producer s' = producer s ∧ policy s' = policy s ∧ empties s' = b :: empties s
  ∧ consumer s' = c_reading n r.
Proof. unfold notify_if, read_return; simpl. by destruct (empties s). Qed.

Lemma read_loop_facts n : ∀ r s, consumer s = c_reading n r →
  let s' := (read_loop n r s).2 in
  producer s' = producer s ∧ policy s' = policy s
  ∧ (∃ es, empties s' = es ++ empties s) ∧ (n ≠ 0%nat → contents (ready s) ≠ [] → empties s' ≠ []).
Proof.
  induction n as [|n IH]; intros r s Hc; cbn [read_loop].
  - simpl. split_and!; [done..|by exists []|done].
  - unfold read_consume. pose proof (consume_contents (ready s)) as Hq.
    destruct (consume (ready s)) as [[b q]|]; cbn [consumer].
    + set (s1 := mk_queue _ _ _ _ _ _ _ _ _ _). set (r1 := if _ <? _ then _ else _).
      destruct (notify_if_facts s1 n r1 b) as (E1 & E2 & E3 & Hc1).
      specialize (IH r1 _ Hc1). destruct (read_loop n r1 _) as [es s2]; simpl in *.
      destruct IH as (H1 & H2 & [es' H3] & _). rewrite H1, H2, H3, E1, E2, E3.
      split_and!; [done..| |by destruct es'].
      exists (es' ++ [b]). by rewrite <- app_assoc.
    + simpl. split_and!; [done..|by exists []|done].
Qed.

Lemma read_end_idle r s : consumer (read_end r s) = c_idle.
Proof. unfold read_end. destruct (adjust_empty_buffers _ _ _ _). by destruct (empties s). Qed.

(** A producer that has a buffer and, if it waits, the event goes on to write. *)
Lemma producer_takes s :
  producer s ≠ p_running → empties s ≠ [] → (producer s = p_waiting → continue_ s = true) →
  ∃ ls' s', q_run s ls' s' ∧ producer s' = p_running ∧ (ls' = [l_take] ∨ ls' = [l_wake; l_take]).
Proof.
  intros Hrun He Hw. destruct (empties s) as [|b es] eqn:Ee; [done|].
  destruct (producer s) eqn:Ep; [done|..].
  - exists [l_take]. eexists. split_and!; [|..|by left].
    + eapply run_cons; [by apply step_take|constructor].
    + unfold flush_take. by rewrite Ee.
  - exists [l_wake; l_take]. eexists. split_and!; [|..|by right].
    + eapply run_cons; [apply step_wake; auto|]. eapply run_cons; [by apply step_take|constructor].
    + unfold flush_take. simpl. by rewrite Ee.
Qed.

Definition allocated_ok (cap : Z) (s : queue) : Prop := queue_ok cap s ∧ 1 ≤ allocated s.

Lemma read_end_empties cap s r : queue_ok cap s → cap < 2 ^ 62 → consumer s = c_ending r →
  let s' := read_end r s in
  Z.min (len (empties s)) 1 ≤ len (empties s')
  ∧ allocated s' - len (empties s') = allocated s - len (empties s) ∧ producer s' = producer s.
Proof.
  intros Hok Hcap Hc. unfold read_end. pose proof (empties_allocated cap s Hok) as Hle. destruct Hok.
  assert (Hr : 0 ≤ r ≤ cap) by (apply ok_ready_n0; by rewrite Hc).
  pose proof (adjust_spec (policy s) (u64 r) (empties s) (allocated s) ok_policy0 ltac:(lia)) as Ha.
  destruct (adjust_empty_buffers _ _ _ _) as [es n]. destruct Ha as (H1 & _ & _ & H2 & _).
  destruct ok_policy0 as (?&?&?).
  rewrite (uw_small 64 ltac:(lia) r), (uw_small 64 ltac:(lia) (max_empty _ + r)) in H2
    by (unfold in_u; lia).
  revert H1 H2. destruct (empties s); simpl; intros; split_and!; try done; lia.
Qed.

Lemma allocated_step cap s l s' : buffer_ok raw → cap < 2 ^ 62 →
  allocated_ok cap s → no_policy l → q_step s l s' → allocated_ok cap s'.
Proof.
  intros Hraw Hcap [Hok Ha] Hl Hs. split; [eapply step_ok; eauto; by destruct l|].
  destruct Hs as [e s s' Hp Hput|s Hp|s Hp|s Hp Hc|s Hc|s n r s' Hc <-
    |s n r b Hc|s n r Hc|s r Hc|s p Hp]; simpl; try done.
  - destruct (put_running cap s e Hok Hp) as (Hput' & _). rewrite Hput' in Hput.
    injection Hput as <-. by destruct (n_left s =? 1).
  - unfold flush_take. by destruct (empties s).
  - unfold read_consume. destruct n; [done|]. by destruct (consume (ready s)) as [[b q]|].
  - destruct (read_end_empties cap s r Hok Hcap Hc) as (?&?&?).
    pose proof (empties_allocated cap s Hok). lia.
Qed.

Lemma new_queue_allocated p : buffer_ok raw → policy_ok p → max_buffers p < 2 ^ 62 →
  allocated_ok (max_buffers p) (new_queue p).
Proof.
  intros Hraw Hp Hm. pose proof (new_queue_ok p Hraw Hp Hm) as Hok. split; [done|].
  destruct Hok. rewrite ok_count0. unfold has_active, in_hand. rewrite new_queue_running.
  destruct (consumer _); lia.
Qed.

Lemma no_policy_within cap ls : Forall no_policy ls → Forall (within cap) ls.
Proof. intros H. eapply Forall_impl; [exact H|]. by intros []. Qed.

Lemma reader_no_policy ls : Forall reader_label ls → Forall no_policy ls.
Proof. intros H. eapply Forall_impl; [exact H|]. by intros []. Qed.

(** C8: A blocked producer is unblocked by the next call of [read_collected]: whatever happened before
    under one policy, after that call there is a buffer for it and, if it waits, the event is set,
    so that it goes on to write by its own next steps. *)
Theorem reader_unblocks p ls s :
  buffer_ok raw → policy_ok p → max_buffers p < 2 ^ 62 →
  q_run (new_queue p) ls s → Forall no_policy ls →
  consumer s = c_idle → producer s ≠ p_running →
  ∃ ls' s', q_run (read_collected s).2 ls' s' ∧ producer s' = p_running
    ∧ (ls' = [l_take] ∨ ls' = [l_wake; l_take]).
Proof.
  intros Hraw Hp Hm Hr Hl Hc Hrun.
  assert (Ha : allocated_ok (max_buffers p) s).
  { eapply (run_invariant _ no_policy); eauto using allocated_step, new_queue_allocated. }
  unfold read_collected. set (n := Z.to_nat (max_buffers (policy s))).
  pose proof (read_loop_run n 0 (set_consumer s (c_reading n 0)) eq_refl)
    as (ls1 & r' & Hr1 & Hl1 & _ & Hc1).
  pose proof (read_loop_facts n 0 (set_consumer s (c_reading n 0)) eq_refl)
    as (Hp1 & _ & [es0 He1] & Hne1).
  destruct (read_loop n 0 _) as [es s1]; simpl in *. rewrite Hc1; simpl.
  assert (Hb : q_step s l_begin (set_consumer s (c_reading n 0))) by by apply step_begin.
  assert (Ha1 : allocated_ok (max_buffers p) s1).
  { apply (run_invariant (allocated_ok (max_buffers p)) no_policy s (l_begin :: ls1) s1);
      eauto using allocated_step, run_cons. constructor; [done|]. by apply reader_no_policy. }
  destruct Ha1 as [Hok1 Hal1].
  destruct (read_end_empties _ _ _ Hok1 Hm Hc1) as (He & _ & Hp2).
  assert (Hes1 : empties s1 ≠ []).
  { destruct (contents (ready s)) eqn:Er.
    - rewrite He1. destruct Ha as [Hok Hal]. destruct Hok. unfold has_active, in_hand in *.
      rewrite Hc, Er in *. intros [-> Hnil]%app_nil. rewrite Hnil in *.
      destruct (producer s); simpl in *; lia || done.
    - apply Hne1; [|done]. destruct Ha as [Hok _]. destruct (ok_policy _ _ Hok). lia. }
  assert (Hw : wake_ok (read_end r' s1)).
  { apply (run_invariant wake_ok no_policy (new_queue p) ((ls ++ l_begin :: ls1) ++ [l_end])).
    - eauto using wake_step.
    - intros Hx. by rewrite new_queue_running in Hx.
    - rewrite !Forall_app. split_and!; [done| |by constructor].
      constructor; [done|by apply reader_no_policy].
    - econstructor; [|by apply step_end]. eapply run_app; [exact Hr|]. by eapply run_cons. }
  assert (He2 : empties (read_end r' s1) ≠ []).
  { destruct (empties s1); [done|]. destruct (empties (read_end r' s1)); simpl in *; [lia|done]. }
  apply producer_takes; [congruence|done|]. intros Hwait.
  destruct (Hw Hwait He2) as [?|(k & r & Hn)]; [done|]. by rewrite read_end_idle in Hn.
Qed.

(** ** Policy changes at run time *)

(** The producer waits for an event nobody is going to set: there are buffers on the stack, and the
    reader only sets the event when it finds the stack empty. *)
Definition stuck (cap : Z) (s : queue) : Prop :=
  queue_ok cap s ∧ producer s = p_waiting ∧ continue_ s = false ∧ empties s ≠ []
  ∧ ∀ n r, consumer s ≠ c_notifying n r.

Lemma stuck_step cap s l s' : buffer_ok raw → cap < 2 ^ 62 →
  stuck cap s → no_policy l → q_step s l s' → stuck cap s'.
Proof.
  intros Hraw Hcap (Hok & Hw & Hf & He & Hn) Hl Hs.
  assert (Hok' : queue_ok cap s') by (eapply step_ok; eauto; by destruct l).
  split; [done|]. clear Hok'. destruct Hs as [e s s' Hp Hput|s Hp|s Hp|s Hp Hc|s Hc|s n r s' Hc <-
    |s n r b Hc|s n r Hc|s r Hc|s p Hp]; try congruence; simpl.
  - by split_and!.
  - unfold read_consume. destruct n; [by split_and!|].
    by destruct (consume (ready s)) as [[b q]|]; split_and!.
  - unfold read_return. destruct (empties s); by split_and!.
  - destruct (read_end_empties cap s r Hok Hcap Hc) as (Hlen & _ & Hp).
    rewrite Hp, read_end_idle.
    assert (continue_ (read_end r s) = continue_ s) as ->.
    { unfold read_end. destruct (adjust_empty_buffers _ _ _ _). by destruct (empties s). }
    split_and!; [done..| |done].
    destruct (empties s); [done|]. destruct (empties (read_end r s)); simpl in *; [lia|done].
  - done.
Qed.

End queue.

#[global] Arguments buffer E : clear implicits.
#[global] Arguments queue E Q : clear implicits.
#[global] Arguments label E : clear implicits.

(** The list as a ready queue, for concrete runs. *)
#[export, refine] Instance list_queue (B : Type) : ready_queue (list B) B := {
  rq_empty := [];
  produce b q := q ++ [b];
  consume q := match q with [] => None | b :: q => Some (b, q) end;
  contents q := q
}.
Proof. all: done || by intros []. Defined.

Definition raw_buffer : buffer Z := mk_buffer (replicate buffer_size 0) 0.

(** Runs a queue along the steps of the producer and of policy changes. *)
Definition producer_step (s : queue Z (list (buffer Z))) (l : label Z)
    : option (queue Z (list (buffer Z))) :=
  match l, producer s with
  | l_put e, p_running => match put e s with Ret s' => Some s' | _ => None end
  | l_flush, p_running => Some (flush_produce s)
  | l_take, p_checking => Some (flush_take s)
  | l_policy p, _ => Some (set_buffering_policy raw_buffer p s)
  | _, _ => None
  end.

Fixpoint producer_run (s : queue Z (list (buffer Z))) (ls : list (label Z))
    : option (queue Z (list (buffer Z))) :=
  match ls with
  | [] => Some s
  | l :: ls => s' ← producer_step s l; producer_run s' ls
  end.

Definition policies_ok (ls : list (label Z)) : Prop :=
  Forall (λ l, match l with l_policy p => policy_ok p | _ => True end) ls.

Lemma producer_run_sound ls : ∀ s s',
  policies_ok ls → producer_run s ls = Some s' → q_run raw_buffer s ls s'.
Proof.
  induction ls as [|l ls IH]; intros s s' Hp; simpl; [intros [= <-]; constructor|].
  apply Forall_cons in Hp as [Hl Hp].
  destruct (producer_step s l) as [s1|] eqn:E; simpl; [|done].
  intros Hr. eapply run_cons; [|by apply IH].
  unfold producer_step in E. destruct l, (producer s) eqn:Ep; simplify_eq/=;
    try (by constructor).
  destruct (put e s) as [s2| |] eqn:Eput; [|done..]. injection E as <-. by constructor.
Qed.

Definition small_policy : buffering_policy := mk_policy 3 1 0.
Definition eager_policy : buffering_policy := mk_policy 3 3 2.

(** The producer hands over its only buffer and waits; then the policy is raised. *)
Definition deadlock_labels : list (label Z) := [l_flush; l_take; l_policy eager_policy].
Definition deadlock_state : queue Z (list (buffer Z)) :=
  default (new_queue raw_buffer small_policy)
    (producer_run (new_queue raw_buffer small_policy) deadlock_labels).

(** A policy change can put the producer to sleep for good: [set_buffering_policy] adds buffers to
    the stack without setting the event, and the reader sets it only when it finds the stack empty,
    so a producer that was waiting at the time is never woken, whatever the reader does
    afterwards. *)
Theorem policy_change_deadlock :
  q_run raw_buffer (new_queue raw_buffer small_policy) deadlock_labels deadlock_state
  ∧ Forall (within (max_buffers small_policy)) deadlock_labels
  ∧ empties deadlock_state ≠ []
  ∧ ∀ ls s, Forall no_policy ls → q_run raw_buffer deadlock_state ls s → producer s = p_waiting.
Proof.
  assert (Hok : ∀ p, p = small_policy ∨ p = eager_policy → policy_ok p)
    by (intros p [-> | ->]; split_and!; simpl; lia).
  assert (Hw : Forall (within (max_buffers small_policy)) deadlock_labels)
    by (repeat constructor; simpl; lia).
  assert (Hr : q_run raw_buffer (new_queue raw_buffer small_policy) deadlock_labels deadlock_state).
  { apply producer_run_sound; [|vm_compute; reflexivity]. repeat constructor; simpl; lia. }
  split_and!; [done|done|by vm_compute|]. intros ls s Hl Hs.
  enough (stuck 3 s) by (by destruct H as (_ & ? & _)).
  eapply (run_invariant raw_buffer (stuck 3) no_policy); [|..|exact Hl|exact Hs].
  - intros ???. apply stuck_step; [done|lia].
  - split_and!; [|by vm_compute..|by vm_compute].
    apply (run_ok raw_buffer small_policy deadlock_labels); auto; done.
Qed.

(** Raising [max_buffers] above the constructor's policy overruns the array of empty buffers: it is
    sized once, and the stack grows past its end. *)
Theorem policy_growth_overruns :
  ∃ s, q_run raw_buffer (new_queue raw_buffer (mk_policy 2 1 1)) [l_policy (mk_policy 9 9 8)] s
    ∧ max_buffers (mk_policy 2 1 1) < len (empties s).
Proof.
  eexists. split.
  - apply producer_run_sound; [|vm_compute; reflexivity].
    constructor; [split_and!; simpl; lia|constructor].
  - by vm_compute.
Qed.

(** ** Witnesses: the producer writes two entries and hands them over *)

Definition demo_labels : list (label Z) := [l_put 5; l_put 6; l_flush; l_take].
Definition demo_queue : queue Z (list (buffer Z)) :=
  default (new_queue raw_buffer small_policy)
    (producer_run (new_queue raw_buffer small_policy) demo_labels).

Lemma demo_policy_ok : policy_ok small_policy.
Proof. split_and!; simpl; lia. Qed.

Lemma demo_run :
  q_run raw_buffer (new_queue raw_buffer small_policy) demo_labels demo_queue.
Proof. apply producer_run_sound; [repeat constructor|vm_compute; reflexivity]. Qed.

Lemma queue_bounds_witness :
  len (empties demo_queue) + in_hand demo_queue ≤ 3 ∧ len (contents (ready demo_queue)) ≤ 3
  ∧ allocated demo_queue ≤ 3
  ∧ (producer demo_queue = p_running → ∀ e, returns (put e demo_queue)).
Proof.
  apply (queue_bounds raw_buffer small_policy demo_labels);
    [done|exact demo_policy_ok|done|exact demo_run|by repeat constructor].
Defined.

Lemma queue_order_witness :
  concat (map put_of demo_labels) = concat (map read_of demo_labels) ++ pending demo_queue.
Proof.
  apply (queue_order raw_buffer small_policy);
    [done|exact demo_policy_ok|done|exact demo_run|by repeat constructor].
Defined.

Lemma read_collected_run_witness :
  ∃ ls, q_run raw_buffer demo_queue ls (read_collected raw_buffer demo_queue).2
    ∧ Forall reader_label ls
    ∧ concat (map read_of ls) = (read_collected raw_buffer demo_queue).1
    ∧ consumer (read_collected raw_buffer demo_queue).2 = c_idle.
Proof. apply (read_collected_run raw_buffer demo_queue). by vm_compute. Defined.

Lemma reader_unblocks_witness :
  ∃ ls' s', q_run raw_buffer (read_collected raw_buffer demo_queue).2 ls' s'
    ∧ producer s' = p_running ∧ (ls' = [l_take] ∨ ls' = [l_wake; l_take]).
Proof.
  apply (reader_unblocks raw_buffer small_policy demo_labels);
    [done|exact demo_policy_ok|done|exact demo_run|by repeat constructor|by vm_compute|by vm_compute].
Defined.

(** The reader holds the buffer it has read; the producer waits. *)
Definition demo_labels' : list (label Z) :=
  demo_labels ++ [l_begin; l_consume [5; 6]; l_return].

Definition demo_reading : queue Z (list (buffer Z)) := set_consumer demo_queue (c_reading 3 0).
Definition demo_holding : queue Z (list (buffer Z)) := read_consume 3 0 demo_reading.
Definition demo_returned : queue Z (list (buffer Z)) :=
  match consumer demo_holding with
  | c_holding n r b => read_return n r b demo_holding
  | _ => demo_holding
  end.

Lemma demo_returned_run :
  q_run raw_buffer (new_queue raw_buffer small_policy) demo_labels' demo_returned.
Proof.
  apply (run_app _ _ _ demo_queue); [exact demo_run|].
  apply (run_cons _ _ _ demo_reading); [by apply (step_begin raw_buffer demo_queue)|].
  apply (run_cons _ _ _ demo_holding).
  { exact (step_consume raw_buffer demo_reading 3 0 _ eq_refl eq_refl). }
  apply (run_cons _ _ _ demo_returned); [|constructor].
  by apply (step_return raw_buffer demo_holding 2 1).
Qed.

Lemma no_lost_wakeup_witness :
  continue_ demo_returned = true ∨ ∃ n r, consumer demo_returned = c_notifying n r.
Proof.
  apply (no_lost_wakeup raw_buffer small_policy demo_labels' demo_returned demo_returned_run);
    [by repeat constructor|by vm_compute|by vm_compute].
Defined.

(** ** The policy's numbers *)

Lemma double_trunc_nonneg d : 0 ≤ double_trunc d.
Proof. destruct d as [| | |[] m e]; simpl; try done. apply Z.shiftl_nonneg. lia. Qed.

(** What a policy that was not refused guarantees. *)
Lemma make_policy_bounds n f1 f2 p : 0 ≤ n → make_policy n f1 f2 = Ret p →
  n ≤ max_buffers p * Z.of_nat buffer_size ∧ 1 ≤ max_empty p
  ∧ 0 ≤ min_empty p ≤ max_buffers p - 1.
Proof.
  intros Hn. unfold make_policy. change (Z.of_nat buffer_size) with 384.
  destruct (_ || _); [done|]. intros [= <-]. cbn [max_buffers max_empty min_empty].
  pose proof (Z.div_mod n 384 ltac:(lia)). pose proof (Z.mod_pos_bound n 384 ltac:(lia)).
  set (k := n / 384 + _). assert (n ≤ k * 384).
  { unfold k. destruct (Z.eqb_spec (n mod 384) 0); cbn [negb]; nia. }
  pose proof (double_trunc_nonneg (double_mul f2 (double_of (k `max` 1)))). lia.
Qed.

Definition half : double := S754_finite false (2 ^ 52) (- 53).

Example policy_half : make_policy 38400 (double_of 1) half = Ret (mk_policy 100 100 50).
Proof. vm_compute. reflexivity. Qed.
Example policy_refused : make_policy 38400 half (double_of 1) = Throw invalid_argument.
Proof. vm_compute. reflexivity. Qed.
