(* ===== verification/CallsCollector.v ===== *)
(** The instrumentation hooks of one thread (src/collector/calls_collector_thread.h and .cpp): calls
    are entered and left by stack pointer, tail calls and skipped frames are detected on a return
    stack of their own, and a trace of call records comes out.

    The trace goes to a [trace_sink]; the buffers queue of BuffersQueue.v delivers it in the order it
    was put (its [queue_order]), the list instance keeps it for the proofs.  [mem] is the thread's
    stack memory: [*stack_ptr] is the address the called function returns to. *)

From S2P Require Import Prelude Statistics ShadowStack.
Local Open Scope Z_scope.

(** Where the records go: they are kept in order. *)
Class trace_sink (T : Type) := {
  put_record : call_record → T → T;
  records : T → list call_record;
  records_put r t : records (put_record r t) = records t ++ [r]
}.

#[export, refine] Instance list_sink : trace_sink (list call_record) :=
  {| put_record r t := t ++ [r]; records t := t |}.
Proof. done. Defined.

Section collector.
Context `{TS : trace_sink T}.

(** [collector/calls_collector_thread.h:32-49] calls_collector_thread *)
Record collector_thread := mk_thread { return_stack : list return_entry; sink : T }.

(** A pointer is a [size_t]; the sentinel at the bottom of the return stack is [(size_t)-1]. *)
Definition sentinel : return_entry := mk_return (u64 (-1)) 0.

(** [collector/src/calls_collector_thread.cpp:27-33] calls_collector_thread::calls_collector_thread *)
Definition new_thread (t : T) : collector_thread := mk_thread [sentinel] t.

(** [collector/calls_collector_thread.h:53-59] calls_collector_thread::track *)
Definition track (callee timestamp : Z) (t : T) : T := put_record (mk_record timestamp callee) t.

(** [collector/src/calls_collector_thread.cpp:35-53] calls_collector_thread::on_enter *)
Definition on_enter (mem : Z → Z) (sp timestamp callee : Z) (s : collector_thread)
    : result collector_thread :=
  match return_stack s with
  | [] => UB
  | back :: _ =>
      let '(rs, t) :=
        if negb (stack_ptr back =? sp)
        then (mk_return sp (mem sp) :: return_stack s, sink s)
        else (return_stack s, track 0 timestamp (sink s)) in
      Ret (mk_thread rs (track callee timestamp t))
  end.

(** The [do ... while] of [on_exit]: every round pops a frame and leaves one record. *)
(** [collector/src/calls_collector_thread.cpp:59-65] calls_collector_thread::on_exit *)
Fixpoint exit_loop (sp timestamp : Z) (rs : list return_entry) (t : T)
    : result (Z * list return_entry * T) :=
  match rs with
  | [] => UB
  | back :: rs =>
      let t := track 0 timestamp t in
      match rs with
      | [] => UB
      | back' :: _ =>
          if stack_ptr back' <=? sp then exit_loop sp timestamp rs t
          else Ret (return_address back, rs, t)
      end
  end.

(** [collector/src/calls_collector_thread.cpp:55-67] calls_collector_thread::on_exit *)
Definition on_exit (sp timestamp : Z) (s : collector_thread) : result (Z * collector_thread) :=
  '(address, rs, t) ← exit_loop sp timestamp (return_stack s) (sink s);
  Ret (address, mk_thread rs t).

(** ** What a thread does *)

(** A call of a hook; [ret] is what [*stack_ptr] holds at an entry. *)
Inductive event :=
  | Enter (sp timestamp callee ret : Z)
  | Exit (sp timestamp : Z).

(** The hooks one after another, with the addresses the exits return to. *)
Definition hook (s : collector_thread * list Z) (e : event) : result (collector_thread * list Z) :=
  match e with
  | Enter sp ts callee ret => t ← on_enter (λ _, ret) sp ts callee s.1; Ret (t, s.2)
  | Exit sp ts => '(a, t) ← on_exit sp ts s.1; Ret (t, s.2 ++ [a])
  end.

(** Events of a program: real stack pointers, and functions with an address. *)
Definition event_ok (e : event) : bool :=
  match e with
  | Enter sp _ callee _ => (0 <=? sp) && (sp <? 2 ^ 64 - 1) && negb (callee =? 0)
  | Exit sp _ => (0 <=? sp) && (sp <? 2 ^ 64 - 1)
  end.

(** ** The trace is always one the shadow stack accepts *)

(** The frames of the open calls above the sentinel. *)
Definition thread_ok (rs : list return_entry) (fs : list return_entry) : Prop :=
  rs = fs ++ [sentinel] ∧ Forall (λ f, stack_ptr f < 2 ^ 64 - 1) fs.

(** Records are balanced up to [d] open calls. *)
Fixpoint depth_after (d : nat) (t : list call_record) : option nat :=
  match t with
  | [] => Some d
  | r :: t =>
      if callee r =? 0 then match d with O => None | S d => depth_after d t end
      else depth_after (S d) t
  end.

Lemma depth_after_app t1 t2 : ∀ d,
  depth_after d (t1 ++ t2) = (d' ← depth_after d t1; depth_after d' t2).
Proof.
  induction t1 as [|r t1 IH]; intros d; simpl; [done|].
  destruct (callee r =? 0), d; auto.
Qed.

Lemma depth_after_valid t : ∀ d, valid_trace d t ↔ is_Some (depth_after d t).
Proof.
  induction t as [|r t IH]; intros d; simpl; [by split; eauto|].
  destruct (callee r =? 0); [|done]. destruct d; [|done]. split; [done|by intros [??]].
Qed.

(** What a hook leaves: the frames [fs] on the return stack, and as many calls open in the trace. *)
Definition hooked (s : collector_thread * list Z) : Prop :=
  ∃ fs, thread_ok (return_stack s.1) fs ∧ depth_after 0 (records (sink s.1)) = Some (length fs).

Lemma track_depth t d c ts : depth_after 0 (records t) = Some d →
  depth_after 0 (records (track c ts t)) =
    if c =? 0 then match d with O => None | S d => Some d end else Some (S d).
Proof.
  intros H. unfold track. rewrite records_put, depth_after_app, H. simpl.
  destruct (c =? 0), d; done.
Qed.

Lemma sentinel_ptr : stack_ptr sentinel = 2 ^ 64 - 1.
Proof. done. Qed.

Lemma exit_loop_cons sp ts b b' rs t : exit_loop sp ts (b :: b' :: rs) t =
  if stack_ptr b' <=? sp then exit_loop sp ts (b' :: rs) (track 0 ts t)
  else Ret (return_address b, b' :: rs, track 0 ts t).
Proof. done. Qed.

Lemma exit_loop_spec sp ts : 0 ≤ sp < 2 ^ 64 - 1 → ∀ fs t,
  Forall (λ f, stack_ptr f < 2 ^ 64 - 1) fs → depth_after 0 (records t) = Some (length fs) →
  match exit_loop sp ts (fs ++ [sentinel]) t with
  | Ret (a, rs, t') => ∃ fs', thread_ok rs fs' ∧ fs ≠ []
      ∧ depth_after 0 (records t') = Some (length fs')
  | Throw _ => False
  | UB => fs = []
  end.
Proof.
  intros Hsp fs. induction fs as [|f fs IH]; intros t Hfs Hd; [done|].
  apply Forall_cons in Hfs as [Hf Hfs].
  assert (Hd' : depth_after 0 (records (track 0 ts t)) = Some (length fs))
    by by rewrite (track_depth _ _ _ _ Hd).
  destruct fs as [|g fs].
  - simpl. destruct (Z.leb_spec (u64 (-1)) sp) as [H|H]; [change (u64 (-1)) with (2 ^ 64 - 1) in H; lia|].
    exists []. by repeat split.
  - change ((f :: g :: fs) ++ [sentinel]) with (f :: g :: fs ++ [sentinel]).
    rewrite exit_loop_cons. destruct (stack_ptr g <=? sp).
    + change (g :: fs ++ [sentinel]) with ((g :: fs) ++ [sentinel]). specialize (IH _ Hfs Hd'). destruct (exit_loop _ _ _ _) as [[[a rs] t']| |]; [|done..].
      destruct IH as (fs' & ? & _ & ?). by exists fs'.
    + exists (g :: fs). by repeat split.
Qed.

Lemma on_enter_spec mem sp ts c s fs : 0 ≤ sp < 2 ^ 64 - 1 → thread_ok (return_stack s) fs →
  on_enter mem sp ts c s = Ret
    match fs with
    | f :: _ => if stack_ptr f =? sp
        then mk_thread (return_stack s) (track c ts (track 0 ts (sink s)))
        else mk_thread (mk_return sp (mem sp) :: return_stack s) (track c ts (sink s))
    | [] => mk_thread (mk_return sp (mem sp) :: return_stack s) (track c ts (sink s))
    end.
Proof.
  intros Hsp [Hrs Hfs]. unfold on_enter. rewrite Hrs. destruct fs as [|f fs]; cbn [app].
  - rewrite sentinel_ptr. destruct (Z.eqb_spec (2 ^ 64 - 1) sp); [lia|done].
  - by destruct (stack_ptr f =? sp).
Qed.

Lemma hook_hooked s e s' : hooked s → event_ok e → hook s e = Ret s' → hooked s'.
Proof.
  intros (fs & Hok & Hd) He. destruct e as [sp ts c ret|sp ts]; simpl in He |- *.
  - apply andb_prop_elim in He as [[H1 H2]%andb_prop_elim Hc].
    apply Is_true_true, Z.leb_le in H1. apply Is_true_true, Z.ltb_lt in H2.
    apply Is_true_true, negb_true_iff in Hc.
    rewrite (on_enter_spec _ _ _ _ _ fs) by done. simpl. intros [= <-].
    assert (Hpush : hooked (mk_thread (mk_return sp ret :: return_stack s.1)
      (track c ts (sink s.1)), s.2)).
    { destruct Hok as [Hrs Hfs]. exists (mk_return sp ret :: fs). simpl. split.
      - split; [by rewrite Hrs|]. by constructor.
      - by rewrite (track_depth _ _ _ _ Hd), Hc. }
    destruct fs as [|f fs]; [done|]. destruct (stack_ptr f =? sp); [|done].
    exists (f :: fs). split; [done|]. simpl.
    assert (Hd' := track_depth _ _ 0 ts Hd). simpl in Hd'.
    by rewrite (track_depth _ _ _ _ Hd'), Hc.
  - apply andb_prop_elim in He as [H1 H2].
    apply Is_true_true, Z.leb_le in H1. apply Is_true_true, Z.ltb_lt in H2.
    destruct Hok as [Hrs Hfs]. unfold on_exit. rewrite Hrs.
    pose proof (exit_loop_spec sp ts ltac:(lia) fs (sink s.1) Hfs Hd) as Hs.
    destruct (exit_loop _ _ _ _) as [[[a rs] t]| |]; simpl; [|done..]. intros [= <-].
    destruct Hs as (fs' & ? & _ & ?). by exists fs'.
Qed.

Lemma new_thread_hooked t : records t = [] → hooked (new_thread t, []).
Proof. intros Ht. exists []. split; [by repeat split|]. simpl. by rewrite Ht. Qed.

(** C11: Whatever a thread does, its trace is one the shadow stack accepts: tail calls and frames that
    were left without their own exit are balanced by the records the hooks add, so that the trace
    never returns from more calls than it entered. *)
Theorem collected_trace_valid t es s :
  records t = [] → Forall event_ok es → fold_m hook (new_thread t, []) es = Ret s →
  valid_trace 0 (records (sink s.1)).
Proof.
  intros Ht Hes Hr. apply depth_after_valid.
  assert (hooked s) as (fs & _ & ->); [|done].
  revert Hes Hr. generalize (new_thread_hooked t Ht). generalize (new_thread t, @nil Z).
  induction es as [|e es IH]; intros s0 Hs0 Hes; simpl; [by intros [= <-]|].
  apply Forall_cons in Hes as [He Hes].
  destruct (hook s0 e) as [s1| |] eqn:E; simpl; [|done..]. eauto using hook_hooked.
Qed.

(** The only way a hook can fail is to leave a call when none is open. *)
Lemma hook_returns s e fs : thread_ok (return_stack s.1) fs →
  depth_after 0 (records (sink s.1)) = Some (length fs) → event_ok e →
  (∀ sp ts, e = Exit sp ts → fs ≠ []) → returns (hook s e).
Proof.
  intros Hok Hd He Hne. destruct e as [sp ts c ret|sp ts]; simpl in He |- *.
  - apply andb_prop_elim in He as [[H1 H2]%andb_prop_elim Hc].
    apply Is_true_true, Z.leb_le in H1. apply Is_true_true, Z.ltb_lt in H2.
    by rewrite (on_enter_spec _ _ _ _ _ fs).
  - apply andb_prop_elim in He as [H1 H2].
    apply Is_true_true, Z.leb_le in H1. apply Is_true_true, Z.ltb_lt in H2.
    destruct Hok as [Hrs Hfs]. unfold on_exit. rewrite Hrs.
    pose proof (exit_loop_spec sp ts ltac:(lia) fs (sink s.1) Hfs Hd) as Hs.
    destruct (exit_loop _ _ _ _) as [[[a rs] t]| |]; simpl; [done..|].
    by destruct (Hne sp ts eq_refl).
Qed.

(** ** Programs that call and return

    What a function does after it was entered, in continuation form: it returns, it calls another
    function to completion and goes on, or it jumps to another function in its own frame. *)

Inductive body :=
  | b_return (t : Z)
  | b_call (sp t callee ret : Z) (called next : body)
  | b_tail (t callee : Z) (next : body).

(** The hooks such a body runs in its frame at [sp]. *)
Fixpoint body_events (sp : Z) (b : body) : list event :=
  match b with
  | b_return t => [Exit sp t]
  | b_call sp' t c ret b k => Enter sp' t c ret :: body_events sp' b ++ body_events sp k
  | b_tail t c k => Enter sp t c 0 :: body_events sp k
  end.

(** Its calls: those of the functions that ran in its frame one after another. *)
Fixpoint body_calls (callee t_in : Z) (nested : list call) (b : body) : list call :=
  match b with
  | b_return t => [mk_call callee t_in t nested]
  | b_call _ t c _ b k => body_calls callee t_in (nested ++ body_calls c t [] b) k
  | b_tail t c k => mk_call callee t_in t nested :: body_calls c t [] k
  end.

(** The addresses it and its callees return to. *)
Fixpoint body_returns (ret : Z) (b : body) : list Z :=
  match b with
  | b_return _ => [ret]
  | b_call _ _ _ ret' b k => body_returns ret' b ++ body_returns ret k
  | b_tail _ _ k => body_returns ret k
  end.

(** The stack grows down, and functions have an address. *)
Fixpoint body_ok (sp : Z) (b : body) : bool :=
  match b with
  | b_return _ => true
  | b_call sp' _ c _ b k =>
      (0 <=? sp') && (sp' <? sp) && negb (c =? 0) && body_ok sp' b && body_ok sp k
  | b_tail _ c k => negb (c =? 0) && body_ok sp k
  end.

Definition top_above (sp : Z) (rs : list return_entry) : Prop :=
  match rs with r :: _ => sp < stack_ptr r | [] => False end.

Lemma forest_trace_app cs1 cs2 : forest_trace (cs1 ++ cs2) = forest_trace cs1 ++ forest_trace cs2.
Proof. unfold forest_trace. by rewrite map_app, concat_app. Qed.

Lemma forest_trace_one c t_in t_out nested :
  forest_trace [mk_call c t_in t_out nested] = mk_record t_in c :: forest_trace nested ++ [mk_record t_out 0].
Proof. unfold forest_trace. simpl. by rewrite app_nil_r. Qed.

(** The hooks of a body, when its frame is on the return stack and its entry is in the trace. *)
Lemma body_run b : ∀ sp ret rs t out pre callee t_in nested,
  body_ok sp b → top_above sp rs →
  records t = pre ++ mk_record t_in callee :: forest_trace nested →
  ∃ t', fold_m hook (mk_thread (mk_return sp ret :: rs) t, out) (body_events sp b)
      = Ret (mk_thread rs t', out ++ body_returns ret b)
    ∧ records t' = pre ++ forest_trace (body_calls callee t_in nested b).
Proof.
  induction b as [ts|sp' ts c ret' b IHb k IHk|ts c k IHk];
    intros sp ret rs t out pre callee t_in nested Hb Hrs Ht; cbn [body_ok] in Hb.
  - destruct rs as [|r rs]; [done|]. exists (track 0 ts t). split.
    + cbn [body_events fold_m hook fst snd]. unfold on_exit. cbn [return_stack sink].
      rewrite exit_loop_cons. simpl in Hrs. by rewrite (proj2 (Z.leb_gt _ _)) by done.
    + unfold track. rewrite records_put, Ht. cbn [body_calls].
      by rewrite forest_trace_one, <- app_assoc.
  - repeat (apply andb_prop_elim in Hb as [Hb ?]).
    cbn [body_events fold_m hook fst snd]. unfold on_enter at 1; cbn [return_stack].
    cbn [stack_ptr]. assert (sp' < sp) as Hlt by by apply Z.ltb_lt, Is_true_true.
    rewrite (proj2 (Z.eqb_neq sp sp')) by lia. cbn [negb mbind result_bind sink].
    rewrite fold_m_app.
    destruct (IHb sp' ret' (mk_return sp ret :: rs) (track c ts t) out (records t) c ts [])
      as (t1 & -> & Ht1); [done|done|by unfold track; rewrite records_put|].
    cbn [mbind result_bind].
    destruct (IHk sp ret rs t1 (out ++ body_returns ret' b) pre callee t_in
      (nested ++ body_calls c ts [] b)) as (t2 & -> & Ht2); [done|done| |].
    { by rewrite Ht1, Ht, forest_trace_app, <- app_assoc. }
    exists t2. split; [|done]. cbn [body_returns]. by rewrite app_assoc.
  - apply andb_prop_elim in Hb as [_ Hk].
    cbn [body_events fold_m hook fst snd]. unfold on_enter at 1; cbn [return_stack].
    cbn [stack_ptr]. rewrite Z.eqb_refl. cbn [negb mbind result_bind sink].
    destruct (IHk sp ret rs (track c ts (track 0 ts t)) out
      (pre ++ forest_trace [mk_call callee t_in ts nested]) c ts []) as (t1 & -> & Ht1);
      [done|done| |].
    { unfold track. rewrite !records_put, Ht, forest_trace_one.
      change (forest_trace []) with (@nil call_record). by simplify_list_eq. }
    exists t1. split; [done|]. rewrite Ht1, <- app_assoc. f_equal.
    by rewrite <- forest_trace_app.
Qed.

Lemma body_calls_ok b : ∀ sp c t_in nested, body_ok sp b → (c =? 0) = false →
  forallb calls_ok nested → forallb calls_ok (body_calls c t_in nested b).
Proof.
  induction b as [ts|sp' ts c' ret' b IHb k IHk|ts c' k IHk];
    intros sp c t_in nested Hb Hc Hn; cbn [body_ok] in Hb; simpl.
  - rewrite Hc. cbn [negb andb]. by rewrite andb_true_r.
  - repeat (apply andb_prop_elim in Hb as [Hb ?]). eapply IHk; [done..|].
    apply Is_true_true. rewrite forallb_app. apply andb_true_iff; split; apply Is_true_true; [done|].
    eapply IHb; [done| |done]. by apply negb_true_iff, Is_true_true.
  - apply andb_prop_elim in Hb as [Hc' Hk]. rewrite Hc. cbn [negb andb].
    apply andb_prop_intro; split; [done|]. eapply IHk; [done| |done].
    by apply negb_true_iff, Is_true_true.
Qed.

(** C1: From hooks to statistics: when a function is entered on a fresh thread and runs to its return,
    with nested calls and tail calls at any depth, every exit returns to the address its caller
    left, the return stack is empty again, and the shadow stack turns the collected trace into the
    closed-form times of exactly the calls that were made (a function that jumped to another one
    being left at the jump). *)
Theorem profile_body t o junk m sp ret c t_in b :
  records t = [] → 0 ≤ sp < 2 ^ 64 - 1 → (c =? 0) = false → body_ok sp b →
  ∃ t' ss',
    fold_m hook (new_thread t, []) (Enter sp t_in c ret :: body_events sp b)
      = Ret (mk_thread [sentinel] t', body_returns ret b)
    ∧ update (shadow_stack_new o junk) (records t') m
      = Ret (ss', record_calls m (concat (map (completed (inner o) (s64 (inner o + outer o)) [])
          (body_calls c t_in [] b)))).
Proof.
  intros Ht Hsp Hc Hb.
  destruct (body_run b sp ret [sentinel] (track c t_in t) [] [] c t_in [])
    as (t' & Hr & Ht'); [done|change (sp < 2 ^ 64 - 1); lia|by unfold track; rewrite records_put, Ht|].
  exists t'. eexists. split.
  - cbn [fold_m hook fst snd].
    rewrite (on_enter_spec _ _ _ _ _ []); [|done|by repeat split]. exact Hr.
  - rewrite Ht'. cbn [app]. unfold update. cbn [stack shadow_stack_new reset_stack mbind result_bind].
    rewrite forest_fold; [done| |done]. by eapply body_calls_ok.
Qed.

(** ** Frames that were left without an exit *)

(** A stack that grew down: the sentinel, then ever smaller pointers. *)
Fixpoint descending (rs : list return_entry) : Prop :=
  match rs with
  | [] => True
  | r :: rs => match rs with r' :: _ => stack_ptr r < stack_ptr r' | [] => True end ∧ descending rs
  end.

Lemma descending_above sp r rs : descending (r :: rs) → sp < stack_ptr r →
  Forall (λ f, sp < stack_ptr f) (r :: rs).
Proof.
  revert r; induction rs as [|r' rs IH]; intros r [H1 H2] Hsp; [by repeat constructor|].
  constructor; [done|]. apply IH; [done|]. lia.
Qed.

Lemma filter_all {A} (P : A → Prop) `{∀ x, Decision (P x)} (l : list A) :
  Forall P l → filter P l = l.
Proof. induction 1; [done|]. by rewrite filter_cons_True, IHForall. Qed.

Lemma exit_loop_unwinds sp ts : 0 ≤ sp < 2 ^ 64 - 1 → ∀ fs f t,
  descending (f :: fs ++ [sentinel]) → stack_ptr f ≤ sp →
  ∃ p t', exit_loop sp ts (f :: fs ++ [sentinel]) t
      = Ret (return_address p, filter (λ g, sp < stack_ptr g) (fs ++ [sentinel]), t')
    ∧ last (filter (λ g, stack_ptr g ≤ sp) (f :: fs)) = Some p
    ∧ records t' = records t
        ++ replicate (length (filter (λ g, stack_ptr g ≤ sp) (f :: fs))) (mk_record ts 0).
Proof.
  intros Hsp fs. induction fs as [|g fs IH]; intros f t Hd Hf; cbn [app] in *.
  - rewrite exit_loop_cons, (proj2 (Z.leb_gt _ _)) by (rewrite sentinel_ptr; lia).
    exists f, (track 0 ts t). rewrite (filter_cons_True _ f) by done.
    split_and!; [|done|by unfold track; rewrite records_put].
    rewrite filter_all; [done|]. constructor; [change (sp < 2 ^ 64 - 1); lia|constructor].
  - rewrite exit_loop_cons. rewrite (filter_cons_True _ f) by done.
    destruct (Z.leb_spec (stack_ptr g) sp) as [Hg|Hg].
    + destruct (IH g (track 0 ts t) (proj2 Hd) Hg) as (p & t' & -> & Hl & Hr).
      exists p, t'. rewrite (filter_cons_False _ g) by lia. split_and!; [done| |].
      * rewrite filter_cons_True in * by done. by rewrite last_cons, Hl.
      * rewrite Hr. unfold track. rewrite records_put, <- app_assoc. done.
    + exists f, (track 0 ts t).
      assert (Ha : Forall (λ h, sp < stack_ptr h) (g :: fs ++ [sentinel]))
        by (apply descending_above; [apply Hd|done]).
      rewrite (filter_all _ _ Ha). apply Forall_cons in Ha as [_ Ha].
      apply Forall_app in Ha as [Ha _].
      assert (filter (λ h, stack_ptr h ≤ sp) (g :: fs) = []) as ->.
      { rewrite filter_cons_False by lia. clear -Ha. induction Ha; [done|].
        by rewrite filter_cons_False by lia. }
      split_and!; [done..|]. by unfold track; rewrite records_put.
Qed.

(** Frames that were left without their own exit (an exception, a [longjmp]) are closed by the exit
    that follows: it pops exactly the frames at or below its stack pointer, leaves one return record
    for each, and returns to the address the outermost of them was called from. *)
Theorem on_exit_unwinds sp ts f fs t :
  0 ≤ sp < 2 ^ 64 - 1 → descending (f :: fs ++ [sentinel]) → stack_ptr f ≤ sp →
  ∃ p t', on_exit sp ts (mk_thread (f :: fs ++ [sentinel]) t)
      = Ret (return_address p,
             mk_thread (filter (λ g, sp < stack_ptr g) (f :: fs ++ [sentinel])) t')
    ∧ last (filter (λ g, stack_ptr g ≤ sp) (f :: fs)) = Some p
    ∧ records t' = records t
        ++ replicate (length (filter (λ g, stack_ptr g ≤ sp) (f :: fs))) (mk_record ts 0).
Proof.
  intros Hsp Hd Hf. destruct (exit_loop_unwinds sp ts Hsp fs f t Hd Hf) as (p & t' & Hr & Hl & Ht).
  exists p, t'. unfold on_exit; cbn [return_stack sink]. rewrite Hr. cbn [mbind result_bind].
  rewrite (filter_cons_False _ f) by lia. done.
Qed.
End collector.

(** ** Witnesses *)

Definition demo_thread : collector_thread := new_thread (T := list call_record) [].

(** A function that calls another one, which jumps to a third. *)
Definition demo_body : body := b_call 900 20 8 77 (b_tail 25 9 (b_return 40)) (b_return 60).

Definition demo_collected : collector_thread * list Z :=
  (mk_thread (T := list call_record) [sentinel]
     [mk_record 10 7; mk_record 20 8; mk_record 30 0; mk_record 30 0], [50]).

Lemma collected_trace_valid_witness :
  valid_trace 0 (records (T := list call_record) (sink demo_collected.1)).
Proof.
  apply (collected_trace_valid (T := list call_record) []
    [Enter 1000 10 7 50; Enter 900 20 8 60; Exit 1000 30] demo_collected);
    [done|by repeat constructor|by vm_compute].
Defined.

Lemma profile_body_witness :
  ∃ (t' : list call_record) ss',
    fold_m hook (demo_thread, []) (Enter 1000 10 7 50 :: body_events 1000 demo_body)
      = Ret (mk_thread [sentinel] t', body_returns 50 demo_body)
    ∧ update demo_shadow (records t') ∅
      = Ret (ss', record_calls ∅ (concat (map (completed 1 (s64 (1 + 2)) [])
          (body_calls 7 10 [] demo_body)))).
Proof.
  apply (profile_body (T := list call_record) [] (mk_overhead 1 2) (mk_frame 0 0 0 0 [] []) ∅
    1000 50 7 10 demo_body); [done|lia|done|done].
Defined.

Definition demo_frames : list return_entry := [mk_return 900 2; mk_return 1000 3].

Lemma on_exit_unwinds_witness :
  ∃ p (t' : list call_record),
    on_exit 950 40 (mk_thread (mk_return 800 1 :: demo_frames ++ [sentinel]) [])
      = Ret (return_address p, mk_thread (filter (λ g, 950 < stack_ptr g)
          (mk_return 800 1 :: demo_frames ++ [sentinel])) t')
    ∧ last (filter (λ g, stack_ptr g ≤ 950) (mk_return 800 1 :: demo_frames)) = Some p
    ∧ records t' = records (T := list call_record) [] ++ replicate
        (length (filter (λ g, stack_ptr g ≤ 950) (mk_return 800 1 :: demo_frames))) (mk_record 40 0).
Proof.
  apply (on_exit_unwinds (T := list call_record) 950 40 (mk_return 800 1) demo_frames []);
    [lia|by repeat split|simpl; lia].
Defined.
