(* ===== verification/Analyzer.v ===== *)
(** The analyzer (src/collector/analyzer.h and src/analyzer.cpp): one shadow stack and one graph per
    thread, fed with batches of trace records and cleared when the front-end has read it. *)

From S2P Require Import Prelude Statistics ShadowStack.
Local Open Scope Z_scope.

(** [collector/analyzer.h:30-50] thread_analyzer *)
Record thread_analyzer := mk_thread_analyzer { statistics : nodes_map; shadow : shadow_stack }.

Section analyzer.
(** What the uninitialised first frame of a new shadow stack holds. *)
Context (junk : stack_record).

(** [collector/src/analyzer.cpp:25-27] thread_analyzer::thread_analyzer *)
Definition new_thread_analyzer (o : overhead) : thread_analyzer :=
  mk_thread_analyzer ∅ (shadow_stack_new o junk).

(** [collector/src/analyzer.cpp:29-30] thread_analyzer::clear *)
Definition thread_clear (a : thread_analyzer) : thread_analyzer :=
  mk_thread_analyzer ∅ (shadow a).

(** The number of entries of the root map (not of all nodes). *)
(** [collector/src/analyzer.cpp:32-33] thread_analyzer::size *)
Definition thread_size (a : thread_analyzer) : nat :=
  size (filter (λ '(p, _), length p = 1%nat) (statistics a)).

(** [collector/src/analyzer.cpp:41-42] thread_analyzer::accept_calls *)
Definition thread_accept_calls (calls : list call_record) (a : thread_analyzer)
    : result thread_analyzer :=
  '(ss, m) ← update (shadow a) calls (statistics a);
  Ret (mk_thread_analyzer m ss).

(** [collector/analyzer.h:52-73] analyzer *)
Record analyzer := mk_analyzer { overhead_ : overhead; threads : gmap Z thread_analyzer }.

(** [collector/src/analyzer.cpp:45-47] analyzer::analyzer *)
Definition new_analyzer (o : overhead) : analyzer := mk_analyzer o ∅.

(** [collector/src/analyzer.cpp:49-53] analyzer::clear *)
Definition clear (a : analyzer) : analyzer :=
  mk_analyzer (overhead_ a) (thread_clear <$> threads a).

(** [collector/src/analyzer.cpp:55-56] analyzer::size *)
Definition analyzer_size (a : analyzer) : nat := size (threads a).

(** [collector/src/analyzer.cpp:64-72] analyzer::has_data *)
Definition has_data (a : analyzer) : bool :=
  existsb (λ '(_, t), negb (thread_size t =? 0)%nat) (map_to_list (threads a)).

(** [collector/src/analyzer.cpp:74-81] analyzer::accept_calls *)
Definition accept_calls (tid : Z) (calls : list call_record) (a : analyzer) : result analyzer :=
  let t := default (new_thread_analyzer (overhead_ a)) (threads a !! tid) in
  t' ← thread_accept_calls calls t;
  Ret (mk_analyzer (overhead_ a) (<[tid := t']> (threads a))).

(** ** Threads are analyzed on their own *)

Lemma accept_calls_other a tid calls a' u : accept_calls tid calls a = Ret a' → u ≠ tid →
  threads a' !! u = threads a !! u.
Proof.
  unfold accept_calls. destruct (thread_accept_calls _ _); simpl; [|done..].
  intros [= <-] ?. simpl. by rewrite lookup_insert_ne.
Qed.

(** Batches of different threads may be analyzed in any order: whatever interleaving the reader
    of the queues chooses, the outcome, with the graph of every thread, is the same. *)
Theorem accept_calls_commute a t u b c r :
  t ≠ u →
  (a' ← accept_calls t b a; accept_calls u c a') = Ret r ↔
  (a' ← accept_calls u c a; accept_calls t b a') = Ret r.
Proof.
  intros Hne. unfold accept_calls.
  destruct (thread_accept_calls b (default _ (threads a !! t))) as [x| |] eqn:Et; simpl;
    destruct (thread_accept_calls c (default _ (threads a !! u))) as [y| |] eqn:Eu; simpl;
    rewrite ?lookup_insert_ne, ?Et, ?Eu by congruence; simpl; try done.
  by rewrite insert_insert_ne by congruence.
Qed.

(** ** Reading and clearing *)

(** A batch of one thread arrives, or the front-end reads (and adds up) the graph and clears it. *)
Inductive thread_op := Batch (calls : list call_record) | Read.

Definition run_op (s : thread_analyzer * nodes_map) (op : thread_op)
    : result (thread_analyzer * nodes_map) :=
  let '(a, c) := s in
  match op with
  | Batch calls => a' ← thread_accept_calls calls a; Ret (a', c)
  | Read => Ret (thread_clear a, merge_nodes c (statistics a))
  end.

Definition batches (ops : list thread_op) : list call_record :=
  concat (map (λ op, match op with Batch b => b | Read => [] end) ops).

Definition reads_ok (s : thread_analyzer * nodes_map) : Prop :=
  wf_nodes (statistics s.1) ∧ wf_nodes s.2 ∧ stack (shadow s.1) ≠ []
  ∧ frames_ok (merge_nodes s.2 (statistics s.1)) (stack (shadow s.1)).

Lemma merge_wf a b : wf_nodes a → wf_nodes b → wf_nodes (merge_nodes a b).
Proof.
  intros Ha Hb q s. rewrite lookup_merge.
  destruct (a !! q) eqn:Ea, (b !! q) eqn:Eb; intros [= <-];
    [apply add_stats_wf; [by apply (Ha q)|by apply (Hb q)]|by apply (Ha q)|by apply (Hb q)].
Qed.

Lemma run_ops_merge ops : ∀ a c, reads_ok (a, c) →
  fold_m (update_step (inner_overhead (shadow a)) (total_overhead (shadow a)))
    (stack (shadow a), merge_nodes c (statistics a)) (batches ops)
  = ('(a', c') ← fold_m run_op (a, c) ops;
     Ret (stack (shadow a'), merge_nodes c' (statistics a'))).
Proof.
  induction ops as [|[b|] ops IH]; intros a c (Hm & Hc & Hne & Hok);
    cbn [fst snd] in *; [done|..].
  - cbn [batches map concat fold_m run_op]. fold (batches ops). rewrite fold_m_app.
    rewrite update_cleared by done. unfold thread_accept_calls.
    destruct (update (shadow a) b (statistics a)) as [[ss m]| |] eqn:E; simpl; [|done..].
    destruct (update_ok _ _ _ _ _ Hne E) as (Hok' & <- & <-).
    specialize (IH (mk_thread_analyzer m ss) c). simpl in IH. apply IH.
    split; [exact (update_wf _ _ _ _ _ Hne Hm E)|].
    split; [done|]. split; [by eapply frames_ok_nonempty|]. simpl.
    eapply frames_ok_mono, Hok'. intros q [? Hq]. rewrite lookup_merge, Hq.
    destruct (c !! q); eauto.
  - cbn [batches map concat fold_m run_op]. fold (batches ops).
    specialize (IH (thread_clear a) (merge_nodes c (statistics a))). simpl in *.
    rewrite merge_empty_r in IH. apply IH.
    split; [apply map_Forall_empty|]. split; [by apply merge_wf|]. split; [done|].
    simpl. by rewrite merge_empty_r.
Qed.

(** Reading is lossless: however the batches of a thread and the reads that clear its graph are
    interleaved, what was read and added up, with what is still in the graph, are the statistics of
    analyzing the whole trace at once. *)
Theorem reads_merge o ops a c :
  fold_m run_op (new_thread_analyzer o, ∅) ops = Ret (a, c) →
  ∃ ss, update (shadow_stack_new o junk) (batches ops) ∅
    = Ret (ss, merge_nodes c (statistics a)).
Proof.
  induction ops as [|[b|] ops IH]; simpl.
  - intros [= <- <-]. by eexists.
  - cbn [batches map concat]. fold (batches ops). unfold thread_accept_calls at 1. simpl.
    rewrite update_split by done.
    destruct (update (shadow_stack_new o junk) b ∅) as [[ss m]| |] eqn:E; simpl; [|done..].
    destruct (update_ok (shadow_stack_new o junk) b ∅ ss m ltac:(done) E) as (Hok & _).
    intros Hr.
    pose proof (run_ops_merge ops (mk_thread_analyzer m ss) ∅) as Hs. rewrite Hr in Hs. simpl in Hs.
    assert (merge_nodes ∅ m = m) as Hm
      by (apply map_eq; intros q; by rewrite lookup_merge, lookup_empty).
    rewrite Hm in Hs. rewrite Hs; [by eexists|].
    split; [|split; [apply map_Forall_empty|split; [by eapply frames_ok_nonempty|cbn [fst snd statistics shadow]; by rewrite Hm]]].
    exact (update_wf (shadow_stack_new o junk) b ∅ ss m ltac:(done) (map_Forall_empty _) E).
  - done.
Qed.

Lemma has_data_iff a :
  has_data a ↔ ∃ t x, threads a !! t = Some x ∧ thread_size x ≠ 0%nat.
Proof.
  unfold has_data. rewrite Is_true_true, existsb_exists. split.
  - intros ([t x] & Hin & Hx). exists t, x. split; [by apply elem_of_map_to_list, list_elem_of_In|].
    by apply negb_true_iff, Nat.eqb_neq in Hx.
  - intros (t & x & Hl & Hx). exists (t, x).
    split; [by apply list_elem_of_In, elem_of_map_to_list|]. by apply negb_true_iff, Nat.eqb_neq.
Qed.

(** Nothing is left to send after [clear]. *)
Lemma clear_has_no_data a : ¬ has_data (clear a).
Proof.
  rewrite has_data_iff. intros (t & x & Hl & Hx). unfold clear in Hl; simpl in Hl.
  rewrite lookup_fmap in Hl. destruct (threads a !! t); [|done]. injection Hl as <-.
  apply Hx. unfold thread_size; simpl. by rewrite map_filter_empty, map_size_empty.
Qed.
End analyzer.

(** ** Witnesses *)

Definition demo_junk : stack_record := mk_frame 0 0 0 0 [] [].

(** A call whose entry and return come in different batches, with reads in between. *)
Definition demo_ops : list thread_op :=
  [Batch [mk_record 10 7; mk_record 20 8]; Read; Batch [mk_record 30 0]; Read; Batch [mk_record 50 0]].
Definition demo_reads : thread_analyzer * nodes_map :=
  match fold_m run_op (new_thread_analyzer demo_junk (mk_overhead 1 2), ∅) demo_ops with
  | Ret s => s
  | _ => (new_thread_analyzer demo_junk (mk_overhead 1 2), ∅)
  end.

Lemma reads_merge_witness :
  ∃ ss, update (shadow_stack_new (mk_overhead 1 2) demo_junk) (batches demo_ops) ∅
    = Ret (ss, merge_nodes demo_reads.2 (statistics demo_reads.1)).
Proof. apply (reads_merge demo_junk (mk_overhead 1 2) demo_ops). by vm_compute. Defined.

Definition demo_analyzer : analyzer := new_analyzer (mk_overhead 1 2).

Definition demo_both : analyzer :=
  match
    (a' ← accept_calls demo_junk 1 [mk_record 10 7] demo_analyzer;
     accept_calls demo_junk 2 [mk_record 11 8] a')
  with Ret r => r | _ => demo_analyzer end.

Lemma accept_calls_commute_witness :
  (a' ← accept_calls demo_junk 1 [mk_record 10 7] demo_analyzer;
   accept_calls demo_junk 2 [mk_record 11 8] a') = Ret demo_both ↔
  (a' ← accept_calls demo_junk 2 [mk_record 11 8] demo_analyzer;
   accept_calls demo_junk 1 [mk_record 10 7] a') = Ret demo_both.
Proof. by apply (accept_calls_commute demo_junk). Defined.
