(* ===== verification/XXHash.v ===== *)
(** The 32-bit XXHash of module files (src/collector/src/xxhash32.h) and the loop of the module
    tracker that feeds a file to it (src/collector/src/module_tracker.cpp).

    A byte is an integer below 256; words are read in little endian order, as the code does on the
    machines it runs on. *)

From S2P Require Import Prelude.
Local Open Scope Z_scope.

Definition Prime1 : Z := 2654435761.
Definition Prime2 : Z := 2246822519.
Definition Prime3 : Z := 3266489917.
Definition Prime4 : Z := 668265263.
(** [collector/src/xxhash32.h:149-154] XXHash32::Prime5 *)
Definition Prime5 : Z := 374761393.

(** [collector/src/xxhash32.h:157-157] XXHash32::MaxBufferSize *)
Definition MaxBufferSize : nat := 16.

(** [collector/src/xxhash32.h:160-163] XXHash32::state *)
Record XXHash32 := mk_hash {
  hash_state : Z * Z * Z * Z;
  hash_buffer : list Z;        (* the first [bufferSize] bytes of [buffer] *)
  totalLength : Z
}.

(** [collector/src/xxhash32.h:29-37] XXHash32::XXHash32 *)
Definition new_hash (seed : Z) : XXHash32 :=
  mk_hash (u32 (seed + Prime1 + Prime2), u32 (seed + Prime2), u32 seed, u32 (seed - Prime1)) [] 0.

(** [collector/src/xxhash32.h:166-169] XXHash32::rotateLeft *)
Definition rotateLeft (x bits : Z) : Z :=
  Z.lor (u32 (Z.shiftl x bits)) (Z.shiftr x (32 - bits)).

(** A [uint32_t] read from memory. *)
Definition word_at (l : list Z) : Z :=
  match l with
  | b0 :: b1 :: b2 :: b3 :: _ =>
      b0 + Z.shiftl b1 8 + Z.shiftl b2 16 + Z.shiftl b3 24
  | _ => 0
  end.

(** [collector/src/xxhash32.h:172-179] XXHash32::process *)
Definition process (st : Z * Z * Z * Z) (block : list Z) : Z * Z * Z * Z :=
  let '(s0, s1, s2, s3) := st in
  let round s w := u32 (rotateLeft (u32 (s + w * Prime2)) 13 * Prime1) in
  (round s0 (word_at block), round s1 (word_at (drop 4 block)),
   round s2 (word_at (drop 8 block)), round s3 (word_at (drop 12 block))).

(** The loop over whole blocks: what is processed, and the bytes left. *)
(** [collector/src/xxhash32.h:80-85] XXHash32::add *)
Fixpoint process_blocks (fuel : nat) (st : Z * Z * Z * Z) (data : list Z)
    : (Z * Z * Z * Z) * list Z :=
  match fuel with
  | O => (st, data)
  | S fuel =>
      if (length data <? MaxBufferSize)%nat then (st, data)
      else process_blocks fuel (process st (take 16 data)) (drop 16 data)
  end.

(** [collector/src/xxhash32.h:43-96] XXHash32::add *)
Definition add (input : list Z) (h : XXHash32) : XXHash32 * bool :=
  match input with
  | [] => (h, false)
  | _ =>
      let total := u64 (totalLength h + len input) in
      let n := length (hash_buffer h) in
      if (n + length input <? MaxBufferSize)%nat
      then (mk_hash (hash_state h) (hash_buffer h ++ input) total, true)
      else
        let '(st, data) :=
          if (0 <? n)%nat
          then (process (hash_state h) (hash_buffer h ++ take (MaxBufferSize - n) input),
                drop (MaxBufferSize - n) input)
          else (hash_state h, input) in
        let '(st', rest) := process_blocks (length data) st data in
        (mk_hash st' rest total, true)
  end.

(** The two tail loops of [hash]: words, then bytes. *)
(** [collector/src/xxhash32.h:114-125] XXHash32::hash *)
Fixpoint mix_tail (fuel : nat) (result : Z) (data : list Z) : Z :=
  match fuel with
  | O => result
  | S fuel =>
      if (4 <=? length data)%nat
      then mix_tail fuel (u32 (rotateLeft (u32 (result + word_at data * Prime3)) 17 * Prime4))
             (drop 4 data)
      else match data with
        | [] => result
        | b :: data => mix_tail fuel (u32 (rotateLeft (u32 (result + b * Prime5)) 11 * Prime1)) data
        end
  end.

(** [collector/src/xxhash32.h:100-134] XXHash32::hash *)
Definition hash (h : XXHash32) : Z :=
  let '(s0, s1, s2, s3) := hash_state h in
  let result := u32 (totalLength h) in
  let result :=
    if Z.of_nat MaxBufferSize <=? totalLength h
    then u32 (result + u32 (rotateLeft s0 1 + rotateLeft s1 7 + rotateLeft s2 12 + rotateLeft s3 18))
    else u32 (result + u32 (s2 + Prime5)) in
  let result := mix_tail (length (hash_buffer h)) result (hash_buffer h) in
  let result := u32 (Z.lxor result (Z.shiftr result 15) * Prime2) in
  let result := u32 (Z.lxor result (Z.shiftr result 13) * Prime3) in
  Z.lxor result (Z.shiftr result 16).

(** [collector/src/xxhash32.h:141-146] XXHash32::hash *)
Definition hash_of (input : list Z) (seed : Z) : Z := hash (add input (new_hash seed)).1.

Example hash_empty : hash_of [] 0 = 0x02CC5D05. Proof. reflexivity. Qed.
Example hash_a : hash_of [97] 0 = 0x550D7456. Proof. reflexivity. Qed.

(** [collector/src/module_tracker.cpp:47-61] module_tracker::module_info::calculate_hash: the file is
    read in pieces of [n] bytes, until one comes short *)
Fixpoint hash_file_loop (fuel n : nat) (file : list Z) (h : XXHash32) : XXHash32 :=
  match fuel with
  | O => h
  | S fuel =>
      let piece := take n file in
      let h' := (add piece h).1 in
      if (length piece =? n)%nat then hash_file_loop fuel n (drop n file) h' else h'
  end.

(** [collector/src/module_tracker.cpp:47-61] module_tracker::module_info::calculate_hash *)
Definition calculate_hash (file : list Z) : Z :=
  hash (hash_file_loop (S (length file)) 1024 file (new_hash 0)).

(** ** Streaming *)

Definition digest (st : Z * Z * Z * Z) (l : list Z) : (Z * Z * Z * Z) * list Z :=
  process_blocks (length l) st l.

Lemma process_blocks_fuel fuel : ∀ st l, (length l ≤ fuel)%nat → process_blocks fuel st l = digest st l.
Proof.
  unfold digest. induction fuel as [fuel IH] using lt_wf_ind. intros st l Hl.
  destruct fuel as [|fuel]; [by destruct l; [|simpl in Hl; lia]|].
  destruct l as [|b l]; [done|]. cbn [process_blocks length].
  destruct (Nat.ltb_spec (S (length l)) MaxBufferSize) as [|Hge]; [done|].
  unfold MaxBufferSize in *. cbn [length] in Hl.
  rewrite (IH fuel) by (rewrite ?length_drop; cbn [length]; lia).
  rewrite (IH (length l)) by (rewrite ?length_drop; cbn [length]; lia). done.
Qed.

Lemma digest_short st l : (length l < 16)%nat → digest st l = (st, l).
Proof.
  unfold digest. destruct l as [|b l]; [done|]. intros Hl. cbn [process_blocks length].
  unfold MaxBufferSize. by rewrite (proj2 (Nat.ltb_lt _ _)).
Qed.

Lemma digest_block st l : (16 ≤ length l)%nat →
  digest st l = digest (process st (take 16 l)) (drop 16 l).
Proof.
  intros Hl. unfold digest at 1. destruct l as [|b l]; [simpl in Hl; lia|]. cbn [process_blocks length].
  unfold MaxBufferSize. rewrite (proj2 (Nat.ltb_ge _ _)) by done.
  apply process_blocks_fuel. rewrite length_drop. cbn [length]. lia.
Qed.

Lemma digest_app a : ∀ st b,
  digest st (a ++ b) = let '(st', r) := digest st a in digest st' (r ++ b).
Proof.
  induction a as [a IH] using (induction_ltof1 _ length). intros st b.
  destruct (decide (length a < 16)%nat) as [Hlt|Hge].
  - by rewrite (digest_short st a).
  - rewrite (digest_block st (a ++ b)), (digest_block st a) by (rewrite ?length_app; lia).
    rewrite take_app_le, drop_app_le by lia. apply IH. unfold ltof. rewrite length_drop. lia.
Qed.

Lemma digest_rest st l : (length (digest st l).2 < 16)%nat.
Proof.
  revert st. induction l as [l IH] using (induction_ltof1 _ length). intros st.
  destruct (decide (length l < 16)%nat) as [Hlt|Hge]; [by rewrite digest_short|].
  rewrite digest_block by lia. apply IH. unfold ltof. rewrite length_drop. lia.
Qed.

(** [add] is one step of the digest of all bytes seen. *)
Lemma add_digest h l : (length (hash_buffer h) < 16)%nat →
  (add l h).1 = let '(st, r) := digest (hash_state h) (hash_buffer h ++ l) in
                mk_hash st r (match l with [] => totalLength h | _ => u64 (totalLength h + len l) end).
Proof.
  intros Hb. unfold add. destruct l as [|b l].
  { rewrite app_nil_r, digest_short by done. by destruct h. }
  set (input := b :: l). unfold MaxBufferSize.
  destruct (Nat.ltb_spec (length (hash_buffer h) + length input) 16) as [Hlt|Hge].
  { by rewrite digest_short by (rewrite length_app; lia). }
  destruct (Nat.ltb_spec 0 (length (hash_buffer h))) as [Hpos|Hz].
  - rewrite digest_block by (rewrite length_app; lia).
    rewrite take_app_ge, drop_app_ge by lia.
    rewrite (process_blocks_fuel _ _ (drop _ input)) by done.
    by destruct (digest _ _).
  - assert (hash_buffer h = []) as -> by (destruct (hash_buffer h); [done|simpl in Hz; lia]).
    cbn [app]. unfold digest. by destruct (process_blocks _ _ _).
Qed.

Lemma add_buffer h l : (length (hash_buffer h) < 16)%nat → (length (hash_buffer (add l h).1) < 16)%nat.
Proof.
  intros Hb. rewrite add_digest by done. pose proof (digest_rest (hash_state h) (hash_buffer h ++ l)).
  by destruct (digest _ _).
Qed.

Lemma add_app a b h : (length (hash_buffer h) < 16)%nat →
  (add b (add a h).1).1 = (add (a ++ b) h).1.
Proof.
  intros Hb. rewrite (add_digest h (a ++ b)) by done.
  rewrite add_digest by by apply add_buffer. rewrite (add_digest h a) by done.
  rewrite app_assoc, (digest_app (_ ++ a)).
  destruct (digest (hash_state h) (hash_buffer h ++ a)) as [st r]. cbn [hash_state hash_buffer totalLength].
  destruct (digest st (r ++ b)) as [st' r']. f_equal.
  destruct a as [|x a], b as [|y b]; cbn [app]; rewrite ?app_nil_r; [done..|].
  rewrite uw_add_l by lia. f_equal. cbn [length]. rewrite length_app. cbn [length]. lia.
Qed.

Lemma add_chunks chunks seed :
  hash (foldl (λ h c, (add c h).1) (new_hash seed) chunks) = hash_of (concat chunks) seed.
Proof.
  unfold hash_of. f_equal.
  assert (H : ∀ h pre, (length (hash_buffer h) < 16)%nat →
    foldl (λ h c, (add c h).1) (add pre h).1 chunks = (add (pre ++ concat chunks) h).1).
  { induction chunks as [|c chunks IH]; intros h pre Hb; simpl; [by rewrite app_nil_r|].
    rewrite add_app by done. rewrite IH by done. by rewrite <- app_assoc. }
  exact (H (new_hash seed) [] ltac:(simpl; lia)).
Qed.

Lemma hash_file_spec fuel n file : ∀ h pre, (0 < n)%nat → (length file < fuel)%nat →
  (length (hash_buffer h) < 16)%nat →
  hash_file_loop fuel n file (add pre h).1 = (add (pre ++ file) h).1.
Proof.
  revert file. induction fuel as [|fuel IH]; intros file h pre Hn Hf Hb; [lia|]. cbn [hash_file_loop].
  rewrite add_app by done. rewrite length_take.
  destruct (Nat.eqb_spec (n `min` length file) n) as [E|E].
  - rewrite IH by (rewrite ?length_drop; lia). by rewrite <- app_assoc, take_drop.
  - by rewrite take_ge by lia.
Qed.

Lemma calculate_hash_eq file : calculate_hash file = hash_of file 0.
Proof.
  unfold calculate_hash, hash_of. f_equal.
  exact (hash_file_spec (S (length file)) 1024 file (new_hash 0) [] ltac:(lia) ltac:(lia) ltac:(simpl; lia)).
Qed.

(** C15: A module's hash is the XXHash of the whole file, whatever its length: the loop that reads it in
    blocks neither skips nor repeats a byte and stops at the first short read (also when the length
    is a multiple of the block), so that any other way of cutting the file gives the same hash. *)
Theorem calculate_hash_whole chunks :
  calculate_hash (concat chunks) = hash (foldl (λ h c, (add c h).1) (new_hash 0) chunks).
Proof. rewrite calculate_hash_eq. symmetry. apply add_chunks. Qed.
