(* ===== verification/Threads.v ===== *)
(** Threads of the profiled process: the monitor that numbers them and keeps their information
    (src/collector/thread_monitor.h and .cpp), and the manager that gives each of them a trace queue
    of its own (src/collector/thread_queue_manager.h).

    What the operating system says about a thread ([open_info] of the process explorer) is a
    parameter; thread exit callbacks are events that the environment delivers. *)

From S2P Require Import Prelude.
Local Open Scope Z_scope.

(** [common/types.h:63-71] thread_info *)
Record thread_info := mk_info {
  native_id : Z;
  description : string;
  start_time : Z;
  end_time : Z;
  cpu_time : Z;
  complete : bool
}.

Section monitor.
(** What [live_thread_info::accessor] reads from the system for a native thread. *)
Context (accessor : Z → thread_info → thread_info).
Hypothesis accessor_keeps : ∀ n ti,
  native_id (accessor n ti) = native_id ti ∧ complete (accessor n ti) = complete ti.

(** [collector/thread_monitor.h:36-73] thread_monitor *)
Record thread_monitor := mk_monitor {
  infos : gmap Z thread_info;     (* [_threads] *)
  alive : gmap Z Z;               (* [_alive_threads], the id of the entry it points to *)
  next_id : Z                     (* unsigned int *)
}.

(** [collector/src/thread_monitor.cpp:31-33] thread_monitor::thread_monitor *)
Definition new_monitor : thread_monitor := mk_monitor ∅ ∅ 0.

(** [collector/src/thread_monitor.cpp:35-55] thread_monitor::register_self *)
Definition register_self (native : Z) (m : thread_monitor) : Z * thread_monitor :=
  match alive m !! native with
  | Some id => (id, m)
  | None =>
      let ti := accessor native (mk_info native "" 0 0 0 false) in
      let id := next_id m in
      (id, mk_monitor (match infos m !! id with Some _ => infos m | None => <[id := ti]> (infos m) end)
             (<[native := id]> (alive m)) (u32 (id + 1)))
  end.

(** [collector/src/thread_monitor.cpp:57-63] thread_monitor::update_live_info *)
Definition update_live_info (ti : thread_info) (native : Z) (m : thread_monitor) : thread_info :=
  match alive m !! native with Some _ => accessor native ti | None => ti end.

(** [collector/src/thread_monitor.cpp:65-75] thread_monitor::thread_exited: a thread that is not known
    dereferences [end()] *)
Definition thread_exited (native uptime : Z) (m : thread_monitor) : result thread_monitor :=
  match alive m !! native with
  | None => UB
  | Some id =>
      match infos m !! id with
      | None => UB
      | Some ti =>
          let ti := update_live_info ti native m in
          let ti := mk_info (native_id ti) (description ti) (start_time ti) uptime (cpu_time ti) true in
          Ret (mk_monitor (<[id := ti]> (infos m)) (delete native (alive m)) (next_id m))
      end
  end.

(** [collector/thread_monitor.h:78-95] thread_monitor::get_info *)
Fixpoint get_info (ids : list Z) (m : thread_monitor) : result (list (Z * thread_info)) :=
  match ids with
  | [] => Ret []
  | id :: ids =>
      match infos m !! id with
      | None => Throw invalid_argument
      | Some ti =>
          let v := if complete ti then ti else update_live_info ti (native_id ti) m in
          rest ← get_info ids m; Ret ((id, v) :: rest)
      end
  end.

(** The live threads are exactly the incomplete entries, one id each; ids are handed out upwards. *)
Record monitor_ok (m : thread_monitor) : Prop := {
  alive_info : ∀ n id, alive m !! n = Some id →
    ∃ ti, infos m !! id = Some ti ∧ native_id ti = n ∧ complete ti = false;
  info_alive : ∀ id ti, infos m !! id = Some ti → complete ti = false →
    alive m !! native_id ti = Some id;
  ids_below : ∀ id ti, infos m !! id = Some ti → 0 ≤ id < next_id m;
  next_range : 0 ≤ next_id m < 2 ^ 32
}.

Lemma new_monitor_ok : monitor_ok new_monitor.
Proof. by split; simpl. Qed.

Lemma next_id_fresh m : monitor_ok m → infos m !! next_id m = None.
Proof.
  intros []. destruct (infos m !! next_id m) as [ti|] eqn:E; [|done].
  destruct (ids_below0 _ _ E). lia.
Qed.

Lemma register_self_ok n m : monitor_ok m → next_id m < 2 ^ 32 - 1 → monitor_ok (register_self n m).2.
Proof using accessor_keeps.
  intros Hok Hn. pose proof (next_id_fresh m Hok) as Hf. unfold register_self.
  destruct (alive m !! n) as [id|] eqn:En; simpl; [done|]. rewrite Hf.
  destruct (accessor_keeps n (mk_info n "" 0 0 0 false)) as [Ha1 Ha2]. destruct Hok. split; simpl.
  - intros n' id'. destruct (decide (n' = n)) as [->|].
    + rewrite lookup_insert_eq. intros [= <-]. rewrite lookup_insert_eq. eauto.
    + rewrite lookup_insert_ne by done. intros H. destruct (alive_info0 _ _ H) as (ti & H1 & ? & ?).
      exists ti. rewrite lookup_insert_ne; [done|]. intros <-. congruence.
  - intros id ti. destruct (decide (id = next_id m)) as [->|].
    + rewrite lookup_insert_eq. intros [= Hti] _. rewrite <- Hti, Ha1. apply lookup_insert_eq.
    + rewrite lookup_insert_ne by done. intros H Hc. rewrite lookup_insert_ne; [eauto|].
      intros Hn'. pose proof (info_alive0 _ _ H Hc). congruence.
  - intros id ti. rewrite uw_small by (unfold in_u; lia).
    destruct (decide (id = next_id m)) as [->|]; [lia|].
    rewrite lookup_insert_ne by done. intros H. specialize (ids_below0 _ _ H). lia.
  - rewrite uw_small by (unfold in_u; lia). lia.
Qed.

Lemma update_live_keeps ti n m :
  native_id (update_live_info ti n m) = native_id ti ∧ complete (update_live_info ti n m) = complete ti.
Proof using accessor_keeps. unfold update_live_info. by destruct (alive m !! n). Qed.

Lemma thread_exited_ok n t m m' : monitor_ok m → thread_exited n t m = Ret m' → monitor_ok m'.
Proof using accessor_keeps.
  intros Hok. unfold thread_exited. destruct (alive m !! n) as [id|] eqn:En; [|done].
  destruct (infos m !! id) as [ti|] eqn:Ei; [|done]. intros [= <-].
  destruct (update_live_keeps ti n m) as [Hk1 Hk2].
  destruct Hok. split; simpl; [|..|done].
  - intros n' id'. destruct (decide (n' = n)) as [->|]; [by rewrite lookup_delete_eq|].
    rewrite lookup_delete_ne by done. intros H. destruct (alive_info0 _ _ H) as (ti' & H1 & H2 & H3).
    exists ti'. rewrite lookup_insert_ne; [done|]. intros <-.
    destruct (alive_info0 _ _ En) as (? & ? & ? & ?). congruence.
  - intros id' ti'. destruct (decide (id' = id)) as [->|].
    + rewrite lookup_insert_eq. by intros [= <-].
    + rewrite lookup_insert_ne by done. intros H Hc. rewrite lookup_delete_ne; [eauto|].
      intros Hn. pose proof (info_alive0 _ _ H Hc). congruence.
  - intros id' ti'. destruct (decide (id' = id)) as [->|]; [eauto|].
    rewrite lookup_insert_ne by done. eauto.
Qed.

(** Threads of the process register themselves and exit. *)
Inductive monitor_event := Registered (native : Z) | Exited (native uptime : Z).

Definition monitor_step (m : thread_monitor) (e : monitor_event) : result thread_monitor :=
  match e with
  | Registered n => Ret (register_self n m).2
  | Exited n t => thread_exited n t m
  end.

(** An id is bound to a thread: it is never handed to another one, during its life or after. *)
Definition owner (m : thread_monitor) (id : Z) : option Z := native_id <$> infos m !! id.

Lemma monitor_step_owner m e m' id n :
  monitor_ok m → next_id m < 2 ^ 32 - 1 → monitor_step m e = Ret m' →
  owner m id = Some n → owner m' id = Some n.
Proof using accessor_keeps.
  intros Hok Hn Hs. unfold owner. destruct e as [n'|n' t]; simpl in Hs.
  - injection Hs as <-. unfold register_self. destruct (alive m !! n'); simpl; [done|].
    pose proof (next_id_fresh m Hok) as Hf. rewrite Hf. intros H.
    rewrite lookup_insert_ne; [done|]. intros <-. by rewrite Hf in H.
  - unfold thread_exited in Hs. destruct (alive m !! n') as [id'|]; [|done].
    destruct (infos m !! id') as [ti|] eqn:Ei; [|done]. injection Hs as <-. simpl.
    destruct (decide (id = id')) as [->|]; [|by rewrite lookup_insert_ne].
    rewrite lookup_insert_eq, Ei. simpl. by destruct (update_live_keeps ti n' m) as [-> _].
Qed.

Lemma step_next m e m' : monitor_ok m → next_id m < 2 ^ 32 - 1 → monitor_step m e = Ret m' →
  next_id m ≤ next_id m' ≤ next_id m + 1.
Proof.
  intros [] Hn. destruct e as [n|n t]; simpl.
  - intros [= <-]. unfold register_self. destruct (alive m !! n); simpl; [lia|].
    rewrite uw_small by (unfold in_u; lia). lia.
  - unfold thread_exited. destruct (alive m !! n); [|done]. destruct (infos m !! z); [|done].
    intros [= <-]. simpl. lia.
Qed.

Lemma monitor_run_ok es : ∀ m m', monitor_ok m → next_id m + len es < 2 ^ 32 →
  fold_m monitor_step m es = Ret m' →
  monitor_ok m' ∧ ∀ id n, owner m id = Some n → owner m' id = Some n.
Proof using accessor_keeps.
  induction es as [|e es IH]; intros m m' Hok Hn; cbn [fold_m length] in *; [by intros [= <-]|].
  destruct (monitor_step m e) as [m1| |] eqn:E; simpl; [|done..]. intros Hr.
  pose proof (step_next _ _ _ Hok ltac:(lia) E).
  assert (Hok1 : monitor_ok m1).
  { destruct e; simpl in E; [injection E as <-; apply register_self_ok; [done|lia]|].
    by eapply thread_exited_ok. }
  destruct (IH m1 m' Hok1 ltac:(lia) Hr) as [? Ho]. split; [done|].
  intros id n Hid. apply Ho. apply (monitor_step_owner m e m1); [done|lia|done|done].
Qed.

Lemma monitor_next_bound es : ∀ m m', monitor_ok m → next_id m + len es < 2 ^ 32 →
  fold_m monitor_step m es = Ret m' → next_id m' ≤ next_id m + len es.
Proof using accessor_keeps.
  induction es as [|e es IH]; intros m0 m Hok Hl; cbn [fold_m length] in *; [intros [= <-]; lia|].
  destruct (monitor_step m0 e) as [m1| |] eqn:E; simpl; [|done..]. intros Hr.
  pose proof (step_next _ _ _ Hok ltac:(lia) E).
  assert (Hok1 : monitor_ok m1) by
    (apply (monitor_run_ok [e] m0 m1 Hok); [simpl; lia|simpl; by rewrite E]).
  specialize (IH m1 m Hok1 ltac:(lia) Hr). lia.
Qed.

(** Thread ids are permanent: however threads come and go, a thread that registers gets the id it
    already has while it lives and otherwise one that no entry has ever had, and the id keeps
    naming that thread through everything that follows. *)
Theorem thread_ids_permanent es es' m m' n :
  len es + len es' + 1 < 2 ^ 32 →
  fold_m monitor_step new_monitor es = Ret m →
  fold_m monitor_step (register_self n m).2 es' = Ret m' →
  let id := (register_self n m).1 in
  (alive m !! n = Some id ∨ (alive m !! n = None ∧ owner m id = None)) ∧ owner m' id = Some n.
Proof using accessor_keeps.
  intros Hlen Hr Hr' id.
  assert (Hn0 : next_id new_monitor = 0) by done.
  destruct (monitor_run_ok es new_monitor m new_monitor_ok ltac:(lia) Hr) as [Hok _].
  pose proof (monitor_next_bound es _ m new_monitor_ok ltac:(lia) Hr) as Hnext.
  rewrite Hn0 in Hnext.
  assert (Hok1 : monitor_ok (register_self n m).2) by (apply register_self_ok; [done|lia]).
  pose proof (step_next m (Registered n) _ Hok ltac:(lia) eq_refl) as Hn1.
  destruct (monitor_run_ok es' _ m' Hok1 ltac:(lia) Hr') as [_ Ho].
  split; [|apply Ho]; unfold id, register_self, owner.
  - destruct (alive m !! n) as [i|]; [by left|right]. simpl. by rewrite (next_id_fresh m Hok).
  - destruct (alive m !! n) as [i|] eqn:Ea; simpl.
    + destruct (alive_info m Hok _ _ Ea) as (ti & -> & <- & _). done.
    + rewrite (next_id_fresh m Hok), lookup_insert_eq. simpl. f_equal.
      apply (accessor_keeps n).
Qed.
End monitor.

(** ** Queues of threads *)

(** What the manager needs of a queue: it is made for a policy and an id, its owner flushes it, and a
    reader takes what is ready. *)
Class thread_queue (P B Q : Type) := {
  make_queue : P → Z → Q;
  queue_id : Q → Z;
  flush_queue : Q → Q;
  adjust_queue : P → Q → Q;
  read_queue : Q → list (Z * list B) * Q;
  make_queue_id p id : queue_id (make_queue p id) = id;
  flush_queue_id q : queue_id (flush_queue q) = queue_id q;
  adjust_queue_id p q : queue_id (adjust_queue p q) = queue_id q;
  read_queue_id q : queue_id (read_queue q).2 = queue_id q;
  read_queue_tagged q : Forall (λ d, d.1 = queue_id q) (read_queue q).1
}.

Section manager.
Context `{TQ : thread_queue P B Q} {G : Type}.
(** The id generator and its state. *)
Context (id_gen : G → Z * G).

(** [collector/thread_queue_manager.h:36-67] thread_queue_manager *)
Record queue_manager := mk_manager {
  tls : gmap nat nat;           (* of each OS thread, the queue it writes to *)
  queues : list Q;
  exits : gmap nat nat;         (* the queue the exit callback of a thread flushes *)
  manager_policy : P;
  generator : G
}.

(** [collector/thread_queue_manager.h:71-75] thread_queue_manager::thread_queue_manager *)
Definition new_manager (p : P) (g : G) : queue_manager := mk_manager ∅ [] ∅ p g.

(** [collector/thread_queue_manager.h:77-85] thread_queue_manager::set_buffering_policy *)
Definition set_policy (p : P) (m : queue_manager) : queue_manager :=
  mk_manager (tls m) (map (adjust_queue p) (queues m)) (exits m) p (generator m).

(** [collector/thread_queue_manager.h:87-95] thread_queue_manager::read_collected *)
Fixpoint read_queues (qs : list Q) : list (Z * list B) * list Q :=
  match qs with
  | [] => ([], [])
  | q :: qs =>
      let '(d, q') := read_queue q in
      let '(ds, qs') := read_queues qs in
      (d ++ ds, q' :: qs')
  end.

(** [collector/src/calls_collector.cpp:37-42] calls_collector::read_collected *)
Definition manager_read (m : queue_manager) : list (Z * list B) * queue_manager :=
  let '(ds, qs) := read_queues (queues m) in
  (ds, mk_manager (tls m) qs (exits m) (manager_policy m) (generator m)).

(** [collector/thread_queue_manager.h:97-102] thread_queue_manager::flush *)
Definition manager_flush (t : nat) (m : queue_manager) : queue_manager :=
  match tls m !! t with
  | Some i => mk_manager (tls m) (alter flush_queue i (queues m)) (exits m) (manager_policy m) (generator m)
  | None => m
  end.

(** [collector/thread_queue_manager.h:112-136] thread_queue_manager::construct_queue *)
Definition construct_queue (t : nat) (m : queue_manager) : nat * queue_manager :=
  let '(id, g) := id_gen (generator m) in
  let i := length (queues m) in
  (i, mk_manager (<[t := i]> (tls m)) (queues m ++ [make_queue (manager_policy m) id])
        (<[t := i]> (exits m)) (manager_policy m) g).

(** [collector/thread_queue_manager.h:104-110] thread_queue_manager::get_queue *)
Definition get_queue (t : nat) (m : queue_manager) : nat * queue_manager :=
  match tls m !! t with
  | Some i => (i, m)
  | None => construct_queue t m
  end.

(** The thread ends: its callback runs, its thread-local storage is gone. *)
(** [collector/thread_queue_manager.h:127-127] thread_queue_manager::construct_queue *)
Definition thread_exit (t : nat) (m : queue_manager) : queue_manager :=
  mk_manager (delete t (tls m))
    (match exits m !! t with Some i => alter flush_queue i (queues m) | None => queues m end)
    (delete t (exits m)) (manager_policy m) (generator m).

Inductive manager_event :=
  | e_get (t : nat) | e_flush (t : nat) | e_exit (t : nat) | e_policy (p : P) | e_read.

Definition manager_step (m : queue_manager) (e : manager_event) : queue_manager :=
  match e with
  | e_get t => (get_queue t m).2
  | e_flush t => manager_flush t m
  | e_exit t => thread_exit t m
  | e_policy p => set_policy p m
  | e_read => (manager_read m).2
  end.

(** Every live queue exists and has one writer. *)
Definition manager_ok (m : queue_manager) : Prop :=
  exits m = tls m ∧ (∀ t i, tls m !! t = Some i → (i < length (queues m))%nat) ∧
  (∀ t u i, tls m !! t = Some i → tls m !! u = Some i → t = u).

Lemma read_queues_ids qs : map queue_id (read_queues qs).2 = map queue_id qs.
Proof.
  induction qs as [|q qs IH]; simpl; [done|].
  pose proof (read_queue_id q). destruct (read_queue q), (read_queues qs). simpl in *. congruence.
Qed.

Lemma alter_ids i qs : map queue_id (alter flush_queue i qs) = map queue_id qs.
Proof.
  revert i; induction qs as [|q qs IH]; intros [|i]; simpl; [done..| |].
  - by rewrite flush_queue_id.
  - f_equal. apply IH.
Qed.

Lemma step_ids m e : ∃ new, map queue_id (queues (manager_step m e)) = map queue_id (queues m) ++ new.
Proof.
  destruct e as [t|t|t|p|]; simpl.
  - unfold get_queue, construct_queue. destruct (tls m !! t); [by exists []; rewrite app_nil_r|].
    destruct (id_gen _). simpl. rewrite map_app. by eexists.
  - exists []. rewrite app_nil_r. unfold manager_flush. destruct (tls m !! t); [|done]. apply alter_ids.
  - exists []. rewrite app_nil_r. destruct (exits m !! t); [|done]. apply alter_ids.
  - exists []. rewrite app_nil_r, map_map. apply map_ext. intros. apply adjust_queue_id.
  - exists []. rewrite app_nil_r. unfold manager_read.
    pose proof (read_queues_ids (queues m)). by destruct (read_queues _).
Qed.

Lemma step_length m e : (length (queues m) ≤ length (queues (manager_step m e)))%nat.
Proof.
  destruct (step_ids m e) as [new H]. apply (f_equal length) in H.
  rewrite length_app, !length_map in H. lia.
Qed.

Lemma manager_step_ok m e : manager_ok m → manager_ok (manager_step m e).
Proof.
  intros (He & Hi & Hu). pose proof (step_length m e) as Hl.
  destruct e as [t|t|t|p|]; simpl in *.
  - unfold get_queue, construct_queue in *. destruct (tls m !! t) as [i|] eqn:Et; [done|].
    destruct (id_gen _) as [id g]. simpl in *. rewrite length_app in Hl. simpl in *.
    split; [by rewrite He|]. split.
    + intros u i. simpl. rewrite length_app. simpl. destruct (decide (u = t)) as [->|].
      * rewrite lookup_insert_eq. intros [= <-]. lia.
      * rewrite lookup_insert_ne by done. intros H. specialize (Hi _ _ H). lia.
    + intros u v i. simpl. destruct (decide (u = t)) as [->|], (decide (v = t)) as [->|];
        rewrite ?lookup_insert_eq, ?lookup_insert_ne by done; intros H1 H2; simplify_eq; auto;
        [specialize (Hi _ _ H2)|specialize (Hi _ _ H1)|]; try lia. by eapply Hu.
  - unfold manager_flush in *. destruct (tls m !! t); [|done]. split_and!; simpl; [done| |done].
    intros u i H. specialize (Hi _ _ H). simpl in Hl. lia.
  - split_and!; simpl; [by rewrite He| |].
    + intros u i [_ H]%lookup_delete_Some. specialize (Hi _ _ H). lia.
    + intros u v i [_ H1]%lookup_delete_Some [_ H2]%lookup_delete_Some. by eapply Hu.
  - split_and!; simpl; [done| |done]. intros u i H. specialize (Hi _ _ H). lia.
  - unfold manager_read in *. destruct (read_queues _). split_and!; simpl in *; [done| |done].
    intros u i H. specialize (Hi _ _ H). lia.
Qed.

(** Every queue has one writer: whatever threads start, flush, exit and read, two threads never
    get the same queue, the queue a thread is given exists, and a thread that asks again gets the
    same one - what the queue itself relies on. *)
Theorem queue_single_writer p g es t u :
  let m := foldl manager_step (new_manager p g) es in
  t ≠ u →
  (get_queue t m).1 ≠ (get_queue u (get_queue t m).2).1
  ∧ ((get_queue t m).1 < length (queues (get_queue t m).2))%nat
  ∧ get_queue t (get_queue t m).2 = get_queue t m.
Proof.
  intros m Hne.
  assert (Hok : manager_ok m).
  { unfold m. clear m. assert (H : manager_ok (new_manager p g)) by done.
    revert H. generalize (new_manager p g). induction es; simpl; auto using manager_step_ok. }
  pose proof (manager_step_ok m (e_get t) Hok) as Hok1. simpl in Hok1.
  pose proof (manager_step_ok _ (e_get u) Hok1) as Hok2. simpl in Hok2.
  assert (Hget : ∀ v n, tls (get_queue v n).2 !! v = Some (get_queue v n).1).
  { intros v n. unfold get_queue. destruct (tls n !! v) eqn:E; [done|].
    unfold construct_queue. destruct (id_gen _). simpl. by rewrite lookup_insert_eq. }
  split_and!.
  - intros Heq. apply Hne. destruct Hok2 as (_ & _ & Hu2).
    apply (Hu2 t u (get_queue t m).1); [|by rewrite Hget, Heq].
    rewrite <- (Hget t m). unfold get_queue at 1. destruct (tls _ !! u); [done|].
    unfold construct_queue at 1. destruct (id_gen _). simpl. by rewrite lookup_insert_ne.
  - destruct Hok1 as (_ & Hi & _). eapply Hi, Hget.
  - unfold get_queue at 1. rewrite Hget. by destruct (get_queue t m).
Qed.

(** What is read is tagged with the thread it came from: [read_collected] goes through all queues
    ever made, also those of threads that have exited, and every batch carries the id its queue was
    made with. *)
Theorem manager_read_tagged m d :
  d ∈ (manager_read m).1 → ∃ q, q ∈ queues m ∧ d.1 = queue_id q ∧ d ∈ (read_queue q).1.
Proof.
  unfold manager_read. generalize (queues m). intros qs.
  assert (H : d ∈ (read_queues qs).1 → ∃ q, q ∈ qs ∧ d.1 = queue_id q ∧ d ∈ (read_queue q).1).
  { induction qs as [|q qs IH]; simpl; [by intros ?%elem_of_nil|].
    pose proof (read_queue_tagged q) as Ht.
    destruct (read_queue q) as [ds q'] eqn:Eq, (read_queues qs) as [ds' qs']. simpl in *.
    intros [Hin|Hin]%elem_of_app.
    - exists q. rewrite Eq. split; [by left|]. split; [|done].
      rewrite Forall_forall in Ht. by apply Ht.
    - destruct (IH Hin) as (q0 & ? & ? & ?). exists q0. split; [by right|done]. }
  by destruct (read_queues qs).
Qed.
End manager.

(** ** Witnesses *)

Definition demo_accessor (n : Z) (ti : thread_info) : thread_info :=
  mk_info (native_id ti) "worker" n (end_time ti) (cpu_time ti + 1) (complete ti).

Definition demo_monitor : thread_monitor :=
  match fold_m (monitor_step demo_accessor) new_monitor [Registered 100; Registered 200; Exited 100 5]
  with Ret m => m | _ => new_monitor end.

Definition demo_monitor' : thread_monitor :=
  match fold_m (monitor_step demo_accessor) (register_self demo_accessor 100 demo_monitor).2
    [Exited 100 9; Registered 300]
  with Ret m => m | _ => new_monitor end.

Lemma thread_ids_permanent_witness :
  (alive demo_monitor !! 100 = Some 2 ∨ (alive demo_monitor !! 100 = None ∧ owner demo_monitor 2 = None))
  ∧ owner demo_monitor' 2 = Some 100.
Proof.
  exact (thread_ids_permanent demo_accessor ltac:(done) [Registered 100; Registered 200; Exited 100 5]
    [Exited 100 9; Registered 300] demo_monitor demo_monitor' 100 ltac:(simpl; lia)
    ltac:(vm_compute; reflexivity) ltac:(vm_compute; reflexivity)).
Defined.

(** A queue that hands out everything it was given, for concrete managers. *)
#[export, refine] Instance plain_queue : thread_queue Z Z (Z * list Z) :=
  {| make_queue p id := (id, [p]); queue_id q := q.1; flush_queue q := q; adjust_queue p q := q;
     read_queue q := ([(q.1, q.2)], (q.1, [])) |}.
Proof. all: try done. by repeat constructor. Defined.

Definition count_ids (g : Z) : Z * Z := (g, g + 1).

Definition demo_manager : queue_manager :=
  foldl (manager_step count_ids) (new_manager 7 0) [e_get 1%nat; e_get 2%nat; e_exit 1%nat].

Lemma queue_single_writer_witness :
  (get_queue count_ids 1 demo_manager).1
    ≠ (get_queue count_ids 3 (get_queue count_ids 1 demo_manager).2).1
  ∧ ((get_queue count_ids 1 demo_manager).1
      < length (queues (get_queue count_ids 1 demo_manager).2))%nat
  ∧ get_queue count_ids 1 (get_queue count_ids 1 demo_manager).2 = get_queue count_ids 1 demo_manager.
Proof.
  exact (queue_single_writer count_ids 7 0 [e_get 1%nat; e_get 2%nat; e_exit 1%nat] 1 3
    ltac:(done)).
Defined.

Lemma manager_read_tagged_witness :
  ∃ q, q ∈ queues demo_manager ∧ 1 = queue_id q ∧ (1, [7]) ∈ (read_queue q).1.
Proof.
  apply (manager_read_tagged demo_manager (1, [7])). vm_compute. right. left.
Defined.
