(* ===== verification/ModuleTracker.v ===== *)
(** The registry of loaded modules (src/collector/module_tracker.h and .cpp, src/common/module.h):
    files get persistent ids, every mapping of a file an instance id, and the front-end is sent what
    appeared and what went away since it last asked.

    The system is a parameter: the identity of a file ([file_id], device and inode), its content, and
    the snapshots [enumerate_process_modules] goes through. *)

From S2P Require Import Prelude XXHash.
Local Open Scope Z_scope.

(** [common/module.h:43-48] mapped_module *)
Record mapped_module := mk_mapped { mm_path : string; mm_base : Z }.

(** [common/module.h:50-59] mapped_module_ex *)
Record mapped_module_ex := mk_mapped_ex {
  persistent_id : Z; path_ : string; base_ : Z; hash_ : Z
}.

(** [common/module.h:79-89] mapped_module_ex::from: the hash is left zero *)
Definition from (instance_id persistent : Z) (mm : mapped_module) : Z * mapped_module_ex :=
  (instance_id, mk_mapped_ex persistent (mm_path mm) (mm_base mm) 0).

(** [collector/module_tracker.h:49-58] module_tracker::module_info *)
Record module_info := mk_module_info {
  info_path : string; info_hash : Z; mapping : option (Z * mapped_module_ex)
}.

Section tracker.
Context {F : Type} `{HCF : Countable F}.
Context (file_id : string → F) (file : string → list Z).

(** [collector/module_tracker.h:35-71] module_tracker; the queues of changes are empty between calls *)
Record module_tracker := mk_tracker {
  files_registry : gmap F Z;
  modules_registry : gmap Z module_info;
  next_instance_id : Z;
  next_persistent_id : Z
}.

(** [collector/src/module_tracker.cpp:64-66] module_tracker::module_tracker *)
Definition new_tracker : module_tracker := mk_tracker ∅ ∅ 0 1.

(** [collector/src/module_tracker.cpp:43-45] module_tracker::module_info::module_info *)
Definition new_module_info (path : string) : module_info :=
  mk_module_info path (calculate_hash (file path)) None.

(** [collector/src/module_tracker.cpp:122-135] module_tracker::register_path *)
Definition register_path (path : string) (t : module_tracker) : Z * module_tracker :=
  match files_registry t !! file_id path with
  | Some id => (id, t)
  | None =>
      let id := next_persistent_id t in
      (id, mk_tracker (<[file_id path := id]> (files_registry t))
             (match modules_registry t !! id with
              | Some _ => modules_registry t
              | None => <[id := new_module_info path]> (modules_registry t)
              end)
             (next_instance_id t) (u32 (id + 1)))
  end.

(** What the enumeration has built so far: the loaded queue, the ids seen, the registries. *)
Record scan := mk_scan {
  lqueue : list (Z * mapped_module_ex); in_snapshot : gset Z; scanned : module_tracker
}.

(** [collector/src/module_tracker.cpp:72-85] module_tracker::get_changes: the callback of the
    enumeration *)
Definition visit (s : scan) (mm : mapped_module) : result scan :=
  let '(id, t) := register_path (mm_path mm) (scanned s) in
  match modules_registry t !! id with
  | None => UB
  | Some mi =>
      match mapping mi with
      | Some _ => Ret (mk_scan (lqueue s) ({[id]} ∪ in_snapshot s) t)
      | None =>
          let '(i, mmi) := from (next_instance_id t) id mm in
          let mmi := mk_mapped_ex (persistent_id mmi) (path_ mmi) (base_ mmi) (info_hash mi) in
          Ret (mk_scan (lqueue s ++ [(i, mmi)]) ({[id]} ∪ in_snapshot s)
                 (mk_tracker (files_registry t)
                    (<[id := mk_module_info (info_path mi) (info_hash mi) (Some (i, mmi))]>
                       (modules_registry t))
                    (u32 (next_instance_id t + 1)) (next_persistent_id t)))
      end
  end.

(** The second loop: a module that is mapped and was not seen is dropped. *)
Definition gone (seen : gset Z) (p : Z * module_info) : option Z :=
  let '(id, mi) := p in
  match mapping mi with
  | Some (i, _) => if decide (id ∈ seen) then None else Some i
  | None => None
  end.

(** [collector/src/module_tracker.cpp:87-94] module_tracker::get_changes: the mapping of a module that
    went away is reset *)
Definition drop_gone (seen : gset Z) (id : Z) (mi : module_info) : module_info :=
  if decide (id ∈ seen) then mi else mk_module_info (info_path mi) (info_hash mi) None.

(** [collector/src/module_tracker.cpp:68-100] module_tracker::get_changes *)
Definition get_changes (snapshot : list mapped_module) (t : module_tracker)
    : result (list (Z * mapped_module_ex) * list Z * module_tracker) :=
  s ← fold_m visit (mk_scan [] ∅ t) snapshot;
  let t := scanned s in
  Ret (lqueue s, omap (gone (in_snapshot s)) (map_to_list (modules_registry t)),
       mk_tracker (files_registry t) (map_imap (λ id mi, Some (drop_gone (in_snapshot s) id mi))
         (modules_registry t)) (next_instance_id t) (next_persistent_id t)).

(** [collector/src/module_tracker.cpp:102-113] module_tracker::lock_mapping; the mapping of a module
    that is not loaded is a null pointer *)
Definition lock_mapping (id : Z) (t : module_tracker) : result (Z * mapped_module_ex) :=
  match modules_registry t !! id with
  | None => Throw invalid_argument
  | Some mi => match mapping mi with Some m => Ret m | None => UB end
  end.

(** [collector/src/module_tracker.cpp:115-120] module_tracker::get_metadata: the path that is loaded *)
Definition get_metadata (id : Z) (t : module_tracker) : option string :=
  info_path <$> modules_registry t !! id.

(** ** The invariant *)

Definition mapped (t : module_tracker) (id : Z) (m : Z * mapped_module_ex) : Prop :=
  ∃ mi, modules_registry t !! id = Some mi ∧ mapping mi = Some m.

Record tracker_ok (t : module_tracker) : Prop := {
  file_module : ∀ f id, files_registry t !! f = Some id →
    ∃ mi, modules_registry t !! id = Some mi ∧ file_id (info_path mi) = f
          ∧ info_hash mi = hash_of (file (info_path mi)) 0;
  module_file : ∀ id mi, modules_registry t !! id = Some mi →
    files_registry t !! file_id (info_path mi) = Some id ∧ id < next_persistent_id t;
  mapping_instance : ∀ id i m, mapped t id (i, m) →
    i < next_instance_id t ∧ persistent_id m = id ∧ files_registry t !! file_id (path_ m) = Some id;
  mapping_unique : ∀ id id' i m m', mapped t id (i, m) → mapped t id' (i, m') → id = id'
}.

Lemma new_tracker_ok : tracker_ok new_tracker.
Proof. split; unfold mapped; simpl; intros *; try (by rewrite lookup_empty); naive_solver. Qed.

(** Registering a path: an id whose entry exists, all mappings as they were. *)
Lemma register_path_ok path t : tracker_ok t → next_persistent_id t < 2 ^ 32 - 1 → 0 ≤ next_persistent_id t →
  let '(id, t') := register_path path t in
  tracker_ok t' ∧ files_registry t' !! file_id path = Some id
  ∧ next_instance_id t' = next_instance_id t
  ∧ next_persistent_id t ≤ next_persistent_id t' ≤ next_persistent_id t + 1
  ∧ (∀ id m, mapped t' id m ↔ mapped t id m)
  ∧ (∀ f id, files_registry t !! f = Some id → files_registry t' !! f = Some id).
Proof.
  intros Hok Hn Hn0. unfold register_path.
  destruct (files_registry t !! file_id path) as [id|] eqn:Ef; [by split_and!; try lia|].
  set (id := next_persistent_id t).
  destruct (modules_registry t !! id) as [mi|] eqn:Em.
  { destruct (module_file t Hok _ _ Em). unfold id in *. lia. }
  assert (Hmap : ∀ id' m, mapped (mk_tracker (<[file_id path := id]> (files_registry t))
      (<[id := new_module_info path]> (modules_registry t)) (next_instance_id t) (u32 (id + 1))) id' m
    ↔ mapped t id' m).
  { intros id' m. unfold mapped; simpl. destruct (decide (id' = id)) as [->|].
    - rewrite lookup_insert_eq, Em. split; [intros (mi & [= <-] & ?); done|naive_solver].
    - by rewrite lookup_insert_ne. }
  rewrite (uw_small 32) in * by (unfold in_u, id in *; lia).
  split_and!; try (simpl; unfold id; lia).
  - destruct Hok. split; simpl.
    + intros f id'. destruct (decide (f = file_id path)) as [->|].
      * rewrite lookup_insert_eq. intros [= <-]. exists (new_module_info path).
        rewrite lookup_insert_eq. split_and!; [done..|]. simpl. apply calculate_hash_eq.
      * rewrite lookup_insert_ne by done. intros Hf.
        destruct (file_module0 _ _ Hf) as (mi & ? & ?). exists mi.
        rewrite lookup_insert_ne; [done|]. intros <-. congruence.
    + intros id' mi. destruct (decide (id' = id)) as [->|].
      * rewrite lookup_insert_eq. intros [= <-]. simpl. rewrite lookup_insert_eq. by split; [|lia].
      * rewrite lookup_insert_ne by done. intros Hm. destruct (module_file0 _ _ Hm) as [Hf ?].
        rewrite lookup_insert_ne by congruence. split; [done|]. unfold id. lia.
    + intros id' i m. rewrite Hmap. intros (? & ? & Hf')%mapping_instance0. split_and!; [done..|].
      rewrite lookup_insert_ne; [done|]. congruence.
    + intros ? ? i m m'. rewrite !Hmap. eauto.
  - simpl. by rewrite lookup_insert_eq.
  - done.
  - simpl. intros f id' Hf. rewrite lookup_insert_ne; [done|]. intros <-. congruence.
Qed.

(** ** The enumeration *)

Record scan_ok (t0 : module_tracker) (seen : list mapped_module) (s : scan) : Prop := {
  scan_tracker : tracker_ok (scanned s);
  scan_mapped : ∀ id i m, mapped (scanned s) id (i, m) ↔
    mapped t0 id (i, m) ∨ ((i, m) ∈ lqueue s ∧ persistent_id m = id);
  scan_seen : ∀ id, id ∈ in_snapshot s ↔
    ∃ mm, mm ∈ seen ∧ files_registry (scanned s) !! file_id (mm_path mm) = Some id;
  scan_files : ∀ mm, mm ∈ seen → is_Some (files_registry (scanned s) !! file_id (mm_path mm));
  scan_in_mapped : ∀ id, id ∈ in_snapshot s → ∃ m, mapped (scanned s) id m;
  scan_instance : next_instance_id t0 ≤ next_instance_id (scanned s) ≤ next_instance_id t0 + len seen;
  scan_persistent : next_persistent_id t0 ≤ next_persistent_id (scanned s)
                    ≤ next_persistent_id t0 + len seen
}.

Lemma mapped_insert t id mi i m :
  modules_registry t !! id = Some mi → mapping mi = None → ∀ files n k id' x,
  mapped (mk_tracker files (<[id := mk_module_info (info_path mi) (info_hash mi) (Some (i, m))]>
      (modules_registry t)) n k) id' x
  ↔ mapped t id' x ∨ (id' = id ∧ x = (i, m)).
Proof.
  intros Hm Hn files n k id' x. unfold mapped; simpl. destruct (decide (id' = id)) as [->|].
  - rewrite lookup_insert_eq, Hm. split.
    + intros (mi' & [= <-] & [= <-]). by right.
    + intros [(mi' & [= <-] & ?)|[_ ->]]; [congruence|]. eauto.
  - rewrite lookup_insert_ne by done. naive_solver.
Qed.

(** A module that is mapped for the first time: its tracker. *)
Lemma insert_mapping_ok t id mi b :
  tracker_ok t → modules_registry t !! id = Some mi → mapping mi = None →
  next_instance_id t < 2 ^ 32 - 1 → 0 ≤ next_instance_id t → files_registry t !! file_id b.1 = Some id →
  let m := mk_mapped_ex id b.1 b.2 (info_hash mi) in
  tracker_ok (mk_tracker (files_registry t)
    (<[id := mk_module_info (info_path mi) (info_hash mi) (Some (next_instance_id t, m))]>
      (modules_registry t)) (u32 (next_instance_id t + 1)) (next_persistent_id t)).
Proof.
  intros Hok Hm Hn Hi Hi0 Hb m. rewrite uw_small by (unfold in_u; lia).
  pose proof (mapped_insert t id mi (next_instance_id t) m Hm Hn) as Hins. destruct Hok. split.
  - simpl. intros f id' Hf. destruct (file_module0 _ _ Hf) as (mi' & Hm' & ?).
    destruct (decide (id' = id)) as [->|].
    + rewrite lookup_insert_eq. eexists. split; [done|]. simpl. congruence.
    + rewrite lookup_insert_ne by done. eauto.
  - simpl. intros id' mi'. destruct (decide (id' = id)) as [->|].
    + rewrite lookup_insert_eq. intros [= <-]. apply (module_file0 _ _ Hm).
    + rewrite lookup_insert_ne by done. eauto.
  - intros id' i' m'. rewrite Hins. simpl. intros [H|[-> [= -> ->]]].
    + destruct (mapping_instance0 _ _ _ H) as [? ?]. split; [lia|done].
    + split; [lia|done].
  - intros id1 id2 i' m1 m2. rewrite !Hins. intros [H1|[-> [= -> ->]]] [H2|[-> [= E]]]; eauto.
    + subst. destruct (mapping_instance0 _ _ _ H1). lia.
    + destruct (mapping_instance0 _ _ _ H2). lia.
Qed.

Lemma visit_ok t0 seen s mm :
  scan_ok t0 seen s → 0 ≤ next_instance_id t0 → 0 ≤ next_persistent_id t0 →
  next_instance_id t0 + len seen < 2 ^ 32 - 1 → next_persistent_id t0 + len seen < 2 ^ 32 - 1 →
  ∃ s', visit s mm = Ret s' ∧ scan_ok t0 (seen ++ [mm]) s'.
Proof.
  intros [] Hi0 Hp0 Hi Hp. unfold visit.
  pose proof (register_path_ok (mm_path mm) (scanned s) scan_tracker0 ltac:(lia) ltac:(lia)) as Hr.
  destruct (register_path (mm_path mm) (scanned s)) as [id t].
  destruct Hr as (Hok & Hf & Hni & Hnp & Hmap & Hfiles).
  destruct (file_module t Hok _ _ Hf) as (mi & Hm & _). rewrite Hm.
  assert (Hseen : ∀ id', id' ∈ ({[id]} ∪ in_snapshot s : gset Z) ↔
    ∃ mm', mm' ∈ seen ++ [mm] ∧ files_registry t !! file_id (mm_path mm') = Some id').
  { intros id'. rewrite elem_of_union, elem_of_singleton, scan_seen0. split.
    - intros [->|(mm' & ? & ?)]; [exists mm|exists mm']; rewrite elem_of_app; [|by eauto].
      split; [right; by left|done].
    - intros (mm' & [Hin|Hin%list_elem_of_singleton]%elem_of_app & Hf').
      + right. exists mm'. split; [done|]. destruct (scan_files0 mm' Hin) as [id1 Hid1].
        rewrite (Hfiles _ _ Hid1) in Hf'. congruence.
      + subst. left. congruence. }
  assert (Hfs : ∀ mm', mm' ∈ seen ++ [mm] → is_Some (files_registry t !! file_id (mm_path mm'))).
  { intros mm' [Hin|Hin%list_elem_of_singleton]%elem_of_app; [|subst; eauto].
    destruct (scan_files0 mm' Hin). eauto. }
  destruct (mapping mi) as [x|] eqn:Ex; (eexists; split; [done|]).
  - split; simpl; try done; rewrite ?length_app; simpl; try lia.
    + intros id' i m. by rewrite Hmap, scan_mapped0.
    + intros id' [->%elem_of_singleton|Hin]%elem_of_union; [by exists x, mi|].
      destruct (scan_in_mapped0 _ Hin) as [y Hy]. exists y. by apply Hmap.
  - pose proof (mapped_insert t id mi (next_instance_id t)
      (mk_mapped_ex id (mm_path mm) (mm_base mm) (info_hash mi)) Hm Ex) as Hins.
    assert (Hu : u32 (next_instance_id t + 1) = next_instance_id t + 1)
      by (apply uw_small; unfold in_u; lia).
    split; simpl; try done; rewrite ?length_app, ?Hu; simpl; try lia.
    + rewrite <- Hu. apply (insert_mapping_ok t id mi (mm_path mm, mm_base mm)); [done..|lia|lia|done].
    + intros id' i m. rewrite Hins, Hmap, scan_mapped0, elem_of_app, list_elem_of_singleton.
      split.
      * intros [[?|[? ?]]|[-> [= -> ->]]]; [by left|by right; split; [left|]|right; by split; [right|]].
      * intros [?|[[?|[= -> ->]] <-]]; [by left; left|by left; right|by right].
    + intros id' Hin. destruct (decide (id' = id)) as [->|Hne].
      * eexists. apply Hins. right. done.
      * apply elem_of_union in Hin as [->%elem_of_singleton|Hin]; [done|].
        destruct (scan_in_mapped0 _ Hin) as [y Hy]. exists y. apply Hins. left. by apply Hmap.
Qed.

Lemma scan_all t0 snapshot : ∀ seen s,
  scan_ok t0 seen s → 0 ≤ next_instance_id t0 → 0 ≤ next_persistent_id t0 →
  next_instance_id t0 + len seen + len snapshot < 2 ^ 32 - 1 →
  next_persistent_id t0 + len seen + len snapshot < 2 ^ 32 - 1 →
  ∃ s', fold_m visit s snapshot = Ret s' ∧ scan_ok t0 (seen ++ snapshot) s'.
Proof.
  induction snapshot as [|mm snapshot IH]; intros seen s Hs Hi0 Hp0 Hi Hp; simpl in *.
  - exists s. by rewrite app_nil_r.
  - destruct (visit_ok t0 seen s mm Hs) as (s1 & -> & Hs1); [lia..|]. simpl.
    destruct (IH (seen ++ [mm]) s1 Hs1) as (s' & -> & Hs'); rewrite ?length_app; simpl; [lia..|].
    exists s'. by rewrite <- app_assoc in Hs'.
Qed.

Lemma drop_gone_mapped seen t id m :
  mapped (mk_tracker (files_registry t) (map_imap (λ id mi, Some (drop_gone seen id mi))
      (modules_registry t)) (next_instance_id t) (next_persistent_id t)) id m
  ↔ mapped t id m ∧ id ∈ seen.
Proof.
  unfold mapped; simpl. setoid_rewrite map_lookup_imap. unfold drop_gone.
  destruct (modules_registry t !! id) as [mi|]; simpl; [|naive_solver].
  destruct (decide (id ∈ seen)); naive_solver.
Qed.

Lemma drop_gone_ok seen t : tracker_ok t →
  tracker_ok (mk_tracker (files_registry t) (map_imap (λ id mi, Some (drop_gone seen id mi))
      (modules_registry t)) (next_instance_id t) (next_persistent_id t)).
Proof.
  intros []. split.
  - simpl. intros f id Hf. destruct (file_module0 _ _ Hf) as (mi & Hm & ? & ?).
    exists (drop_gone seen id mi). rewrite map_lookup_imap, Hm. simpl. unfold drop_gone.
    by destruct (decide (id ∈ seen)).
  - simpl. intros id mi. rewrite map_lookup_imap.
    destruct (modules_registry t !! id) as [mi'|] eqn:E; simpl; [|done]. intros [= <-].
    unfold drop_gone. destruct (decide (id ∈ seen)); simpl; eauto.
  - intros id i m. rewrite drop_gone_mapped. intros [? _]. eauto.
  - intros id id' i m m'. rewrite !drop_gone_mapped. intros [? _] [? _]. eauto.
Qed.

Lemma elem_of_gone seen t i :
  i ∈ omap (gone seen) (map_to_list (modules_registry t))
  ↔ ∃ id m, mapped t id (i, m) ∧ id ∉ seen.
Proof.
  rewrite list_elem_of_omap. unfold mapped, gone. split.
  - intros ([id mi] & Hin%elem_of_map_to_list & Hg).
    destruct (mapping mi) as [[j m]|] eqn:Em; [|done].
    destruct (decide (id ∈ seen)); [done|]. injection Hg as ->. eauto 10.
  - intros (id & m & (mi & Hl & Hm) & Hn). exists (id, mi).
    split; [by apply elem_of_map_to_list|]. rewrite Hm. by rewrite decide_False.
Qed.

(** An enumeration is exact, and takes at most one new id of each kind for every module it sees. *)
Lemma get_changes_ok snapshot t :
  tracker_ok t → 0 ≤ next_instance_id t → 0 ≤ next_persistent_id t →
  next_instance_id t + len snapshot < 2 ^ 32 - 1 →
  next_persistent_id t + len snapshot < 2 ^ 32 - 1 →
  ∃ loaded unloaded t', get_changes snapshot t = Ret (loaded, unloaded, t') ∧ tracker_ok t'
    ∧ (∀ i m, (∃ id, mapped t' id (i, m)) ↔
         ((∃ id, mapped t id (i, m)) ∨ (i, m) ∈ loaded) ∧ i ∉ unloaded)
    ∧ (∀ id, (∃ m, mapped t' id m) ↔
         ∃ mm, mm ∈ snapshot ∧ files_registry t' !! file_id (mm_path mm) = Some id)
    ∧ next_instance_id t ≤ next_instance_id t' ≤ next_instance_id t + len snapshot
    ∧ next_persistent_id t ≤ next_persistent_id t' ≤ next_persistent_id t + len snapshot.
Proof.
  intros Hok Hi0 Hp0 Hi Hp.
  destruct (scan_all t snapshot [] (mk_scan [] ∅ t)) as (s & Hr & []); simpl; try lia.
  { split; simpl; [done| | | | |lia|lia].
    - intros id i m. split; [by left|by intros [?|[?%elem_of_nil ?]]].
    - intros id. split; [by intros ?%elem_of_empty|by intros (? & ?%elem_of_nil & _)].
    - by intros mm ?%elem_of_nil.
    - by intros id ?%elem_of_empty. }
  unfold get_changes. rewrite Hr. simpl.
  eexists _, _, _. split; [done|]. split; [by apply drop_gone_ok|]. split.
  - intros i m. setoid_rewrite drop_gone_mapped. rewrite elem_of_gone. split.
    + intros (id & Hm & Hin). split.
      * apply scan_mapped0 in Hm as [?|[? _]]; [left; eauto|by right].
      * intros (id' & m' & Hm' & Hn).
        by rewrite (mapping_unique _ scan_tracker0 _ _ _ _ _ Hm Hm') in Hin.
    + intros [Hor Hn].
      assert (∃ id, mapped (scanned s) id (i, m)) as [id Hm].
      { destruct Hor as [[id ?]|?]; [exists id|exists (persistent_id m)]; apply scan_mapped0; auto. }
      exists id. split; [done|]. destruct (decide (id ∈ in_snapshot s)); [done|].
      destruct Hn. eauto.
  - simpl in *. split; [|lia].
    intros id. setoid_rewrite drop_gone_mapped. simpl. rewrite <- scan_seen0. split.
    + by intros (m & _ & ?).
    + intros Hin. destruct (scan_in_mapped0 _ Hin) as [m ?]. eauto.
Qed.

(** What the front-end is told keeps its picture of the process exact: after [get_changes], the
    instances that are mapped are those it had, plus the loaded ones, minus the unloaded ones (so no
    instance is reported twice or forgotten), and they are precisely mappings of the files of the
    snapshot, each registered under one persistent id with the hash of its content. *)
Theorem get_changes_exact snapshot t :
  tracker_ok t → 0 ≤ next_instance_id t → 0 ≤ next_persistent_id t →
  next_instance_id t + len snapshot < 2 ^ 32 - 1 →
  next_persistent_id t + len snapshot < 2 ^ 32 - 1 →
  ∃ loaded unloaded t', get_changes snapshot t = Ret (loaded, unloaded, t') ∧ tracker_ok t'
    ∧ (∀ i m, (∃ id, mapped t' id (i, m)) ↔
         ((∃ id, mapped t id (i, m)) ∨ (i, m) ∈ loaded) ∧ i ∉ unloaded)
    ∧ (∀ id, (∃ m, mapped t' id m) ↔
         ∃ mm, mm ∈ snapshot ∧ files_registry t' !! file_id (mm_path mm) = Some id).
Proof.
  intros Hok Hi0 Hp0 Hi Hp.
  destruct (get_changes_ok snapshot t) as (l & u & t' & ? & ? & ? & ? & _); [done..|]. eauto 10.
Qed.

(** [lock_mapping] is not safe for a module that has been unloaded: its persistent id is still
    registered, so the check for unknown ids passes, and the reset mapping is dereferenced. *)
Theorem lock_mapping_unloaded id mi t :
  modules_registry t !! id = Some mi → mapping mi = None → lock_mapping id t = UB.
Proof. unfold lock_mapping. by intros -> ->. Qed.
End tracker.

(** ** Witnesses: two modules, one of which is unloaded *)

Definition demo_snapshot : list mapped_module :=
  [mk_mapped "a.so" 4096; mk_mapped "b.so" 8192; mk_mapped "a.so" 65536].

Definition demo_file (path : string) : list Z := [Z.of_nat (String.length path)].

Definition demo_tracker : module_tracker (F := string) :=
  match get_changes (λ p : string, p) demo_file demo_snapshot new_tracker with
  | Ret (_, _, t) => t
  | _ => new_tracker
  end.

Definition demo_unloaded : module_tracker (F := string) :=
  match get_changes (λ p : string, p) demo_file [mk_mapped "b.so" 8192] demo_tracker with
  | Ret (_, _, t) => t
  | _ => new_tracker
  end.

Lemma get_changes_exact_witness :
  ∃ loaded unloaded t',
    get_changes (λ p : string, p) demo_file demo_snapshot new_tracker = Ret (loaded, unloaded, t')
    ∧ tracker_ok (λ p : string, p) demo_file t'
    ∧ (∀ i m, (∃ id, mapped t' id (i, m)) ↔
         ((∃ id, mapped (F := string) new_tracker id (i, m)) ∨ (i, m) ∈ loaded) ∧ i ∉ unloaded)
    ∧ (∀ id, (∃ m, mapped t' id m) ↔
         ∃ mm, mm ∈ demo_snapshot ∧ files_registry t' !! mm_path mm = Some id).
Proof.
  apply (get_changes_exact (λ p : string, p) demo_file demo_snapshot new_tracker);
    [apply new_tracker_ok|simpl; lia..].
Defined.

Lemma lock_mapping_unloaded_witness : lock_mapping 1 demo_unloaded = UB.
Proof.
  destruct (modules_registry demo_unloaded !! 1) as [mi|] eqn:E; [|by vm_compute in E].
  apply (lock_mapping_unloaded 1 mi demo_unloaded E).
  vm_compute in E. by injection E as <-.
Defined.
