(* ===== verification/Events.v ===== *)
(** Events and the end of threads (mt/src/event_generic.cpp, mt/src/thread_callbacks_unix.cpp,
    mt/src/thread_callbacks_win32.cpp).

    Queues and schedulers take an event for a boolean that is set, reset and waited for in one step.
    [mt::event] makes it of a mutex and a condition variable.  Here its threads are interleaved between
    all of their locks, tests and notifications, and shown to be operations of such a boolean.  What is
    registered for the end of a thread is in the second part. *)

From S2P Require Import Prelude.

(** * Events *)

Inductive operation := op_set | op_reset | op_wait (timed : bool).

#[export] Instance operation_eq_dec : EqDecision operation.
Proof. solve_decision. Defined.

(** Where a thread is in an operation. [wait_blocked] is inside of the condition variable, with the
    mutex released; [wait_relock] was woken, [late_relock] has waited for too long, and both want the
    mutex again.  A wait that is not timed tests and resets in its predicate ([wait_pred]); a timed one
    resets after [wait_for] ([timed_take]). *)
Inductive event_pc :=
  | idle
  | locking (op : operation)
  | setting | notifying | resetting
  | wait_pred (timed : bool) | wait_blocked (timed : bool) | wait_relock (timed : bool)
  | late_relock | late_pred | timed_take
  | unlocking (r : bool)
  | returning (r : bool).

(** The mutex with its owner, and the threads of the process. *)
(** [mt/src/event_generic.cpp:74-78] event::impl. *)
Record impl := mk_impl {
  state_ : bool;
  auto_ : bool;
  owner : option nat;
  threads : list event_pc;
}.

(** [mt/src/event_generic.cpp:32-34] event::impl::impl. *)
Definition new_event (initial auto_reset : bool) (n : nat) : impl :=
  mk_impl initial auto_reset None (replicate n idle).

(** What a step shows: the call and the return of an operation, and in between the step that counts. *)
Inductive label :=
  | l_call (t : nat) (op : operation)
  | l_act (t : nat) (op : operation) (r : bool)
  | l_ret (t : nat) (r : bool)
  | l_tau.

#[export] Instance label_eq_dec : EqDecision label.
Proof. solve_decision. Defined.

(** A thread calls an operation, goes on, or is let go by the condition variable with no notification:
    without a reason, or since the time is over. *)
Inductive move := m_call (op : operation) | m_go | m_spurious | m_timeout.

Definition put (t : nat) (pc : event_pc) (s : impl) : impl :=
  mk_impl (state_ s) (auto_ s) (owner s) (<[t := pc]> (threads s)).
Definition with_state (b : bool) (s : impl) : impl := mk_impl b (auto_ s) (owner s) (threads s).
Definition with_owner (o : option nat) (s : impl) : impl := mk_impl (state_ s) (auto_ s) o (threads s).

(** Taking the mutex waits for it to be free. *)
Definition lock (t : nat) (pc : event_pc) (s : impl) : option (label * impl) :=
  match owner s with
  | None => Some (l_tau, with_owner (Some t) (put t pc s))
  | Some _ => None
  end.

Definition entry (op : operation) : event_pc :=
  match op with op_set => setting | op_reset => resetting | op_wait timed => wait_pred timed end.

(** A condition variable lets go of the mutex and blocks in one step. *)
Definition block (t : nat) (timed : bool) (s : impl) : impl := with_owner None (put t (wait_blocked timed) s).

(** [notify_all]. *)
Definition wake (pc : event_pc) : event_pc :=
  match pc with wait_blocked timed => wait_relock timed | _ => pc end.
Definition notify_all (s : impl) : impl := mk_impl (state_ s) (auto_ s) (owner s) (wake <$> threads s).

(** [mt/src/event_generic.cpp:40-46] event::impl::wait. The predicate. *)
Definition wait_test (t : nat) (s : impl) : label * impl :=
  let state := state_ s in
  let s := if auto_ s then with_state false s else s in
  if state then (l_act t (op_wait false) true, put t (unlocking true) s) else (l_tau, block t false s).

(** [mt/src/event_generic.cpp:51-52] event::impl::wait. With a timeout: the predicate of [wait_for]. *)
Definition timed_test (t : nat) (s : impl) : label * impl :=
  if state_ s then (l_tau, put t timed_take s) else (l_tau, block t true s).

(** The time is over: [wait_for] evaluates the predicate for the last time. *)
(** [mt/src/event_generic.cpp:52-54] event::impl::wait. *)
Definition late_test (t : nat) (s : impl) : label * impl :=
  if state_ s then (l_tau, put t timed_take s)
  else (l_act t (op_wait true) false, put t (unlocking false) s).

(** [mt/src/event_generic.cpp:54-56] event::impl::wait. *)
Definition take (t : nat) (s : impl) : label * impl :=
  (l_act t (op_wait true) true, put t (unlocking true) (if auto_ s then with_state false s else s)).

(** One step of the thread [t]. *)
(** [mt/src/event_generic.cpp:36-72] event::impl. *)
Definition fire (s : impl) (t : nat) (m : move) : option (label * impl) :=
  pc ← threads s !! t;
  match m, pc with
  | m_call op, idle => Some (l_call t op, put t (locking op) s)
  | m_go, locking op => lock t (entry op) s
  | m_go, wait_pred false => Some (wait_test t s)
  | m_go, wait_pred true => Some (timed_test t s)
  | m_spurious, wait_blocked timed => Some (l_tau, put t (wait_relock timed) s)
  | m_timeout, wait_blocked true => Some (l_tau, put t late_relock s)
  | m_go, wait_relock timed => lock t (wait_pred timed) s
  | m_go, late_relock => lock t late_pred s
  | m_go, late_pred => Some (late_test t s)
  | m_go, timed_take => Some (take t s)
  | m_go, setting => Some (l_act t op_set true, put t notifying (with_state true s))
  | m_go, notifying => Some (l_tau, put t (unlocking true) (notify_all s))
  | m_go, resetting => Some (l_act t op_reset true, put t (unlocking true) (with_state false s))
  | m_go, unlocking r => Some (l_tau, with_owner None (put t (returning r) s))
  | m_go, returning r => Some (l_ret t r, put t idle s)
  | _, _ => None
  end.

(** A sequence of steps, with what it shows. *)
Fixpoint play (ms : list (nat * move)) (s : impl) : option (list label * impl) :=
  match ms with
  | [] => Some ([], s)
  | (t, m) :: ms =>
    '(l, s) ← fire s t m;
    '(ls, s) ← play ms s;
    Some (l :: ls, s)
  end.

(** ** The event that is meant *)

(** An operation on a boolean at once: a wait goes through if it is set, which an event that resets by
    itself takes back; a timed one may give up when it is not set. *)
Definition act (auto : bool) (b : bool) (op : operation) (r : bool) : option bool :=
  match op, r with
  | op_set, true => Some true
  | op_reset, true => Some false
  | op_wait _, true => if b then Some (negb auto) else None
  | op_wait true, false => if b then None else Some b
  | _, false => None
  end.

Inductive status := st_idle | st_called (op : operation) | st_acted (r : bool).

#[export] Instance status_eq_dec : EqDecision status.
Proof. solve_decision. Defined.

(** Every operation takes place once between its call and its return, which tells its result. *)
Definition spec_step (auto : bool) (x : bool * list status) (l : label) : option (bool * list status) :=
  let '(b, sts) := x in
  match l with
  | l_tau => Some x
  | l_call t op => if decide (sts !! t = Some st_idle) then Some (b, <[t := st_called op]> sts) else None
  | l_act t op r =>
    if decide (sts !! t = Some (st_called op)) then
      b' ← act auto b op r; Some (b', <[t := st_acted r]> sts)
    else None
  | l_ret t r => if decide (sts !! t = Some (st_acted r)) then Some (b, <[t := st_idle]> sts) else None
  end.

Fixpoint spec_run (auto : bool) (ls : list label) (x : bool * list status) : option (bool * list status) :=
  match ls with
  | [] => Some x
  | l :: ls => x ← spec_step auto x l; spec_run auto ls x
  end.

Definition status_of (pc : event_pc) : status :=
  match pc with
  | idle => st_idle
  | locking op => st_called op
  | setting => st_called op_set
  | resetting => st_called op_reset
  | wait_pred timed | wait_blocked timed | wait_relock timed => st_called (op_wait timed)
  | late_relock | late_pred | timed_take => st_called (op_wait true)
  | notifying => st_acted true
  | unlocking r | returning r => st_acted r
  end.

(** ** The invariant *)

(** The threads that are between taking the mutex and letting it go. *)
Definition holds_lock (pc : event_pc) : bool :=
  match pc with
  | setting | notifying | resetting | wait_pred _ | late_pred | timed_take | unlocking _ => true
  | _ => false
  end.

Definition is_blocked (pc : event_pc) : bool := if pc is wait_blocked _ then true else false.

Record event_ok (s : impl) : Prop := {
  eo_owner t pc : threads s !! t = Some pc → holds_lock pc = true ↔ owner s = Some t;
  eo_exists t : owner s = Some t → is_Some (threads s !! t);
  eo_take t : threads s !! t = Some timed_take → state_ s = true;
  eo_woken t timed : state_ s = true → threads s !! t = Some (wait_blocked timed) →
    ∃ u, threads s !! u = Some notifying;
}.

Lemma new_event_ok initial auto_reset n : event_ok (new_event initial auto_reset n).
Proof.
  split; simpl; intros t.
  - intros pc [-> _]%lookup_replicate. done.
  - done.
  - by intros [? _]%lookup_replicate.
  - by intros timed _ [? _]%lookup_replicate.
Qed.

(** While a thread has the mutex no other thread is past a test. *)
Lemma exclusive s t u pc pc' : event_ok s → threads s !! t = Some pc → threads s !! u = Some pc' →
  holds_lock pc = true → holds_lock pc' = true → t = u.
Proof.
  intros Hs Ht Hu H H'. apply (eo_owner _ Hs _ _ Ht) in H. apply (eo_owner _ Hs _ _ Hu) in H'. congruence.
Qed.

(** One thread goes from [pc] to [pc'], and the event and the mutex with it. *)
Lemma goes_ok s t pc pc' b o : event_ok s → threads s !! t = Some pc →
  (holds_lock pc' = true ↔ o = Some t) →
  (∀ u, u ≠ t → owner s = Some u ↔ o = Some u) →
  (pc' = timed_take → b = true) →
  (b = state_ s ∨ holds_lock pc = true) →
  (b = true → pc' = notifying ∨ state_ s = true ∧ pc ≠ notifying ∧ is_blocked pc' = false) →
  event_ok (mk_impl b (auto_ s) o (<[t := pc']> (threads s))).
Proof.
  intros Hs Ht Hown Hother Htake Hb Hwoken. pose proof (lookup_lt_Some _ _ _ Ht) as Hlt.
  split; simpl; intros u.
  - intros p Hp. destruct (decide (u = t)) as [->|Hne].
    + rewrite list_lookup_insert_eq in Hp by done. by injection Hp as <-.
    + rewrite list_lookup_insert_ne in Hp by done. rewrite <- (Hother u Hne). by apply (eo_owner _ Hs).
  - intros Ho. destruct (decide (u = t)) as [->|Hne]; [rewrite list_lookup_insert_eq by done; by eexists|].
    rewrite list_lookup_insert_ne by done. apply (eo_exists _ Hs). by apply Hother.
  - destruct (decide (u = t)) as [->|Hne].
    + rewrite list_lookup_insert_eq by done. intros [= ?]. auto.
    + rewrite list_lookup_insert_ne by done. intros Hu. destruct Hb as [->|Hl]; [by apply (eo_take _ Hs u)|].
      destruct Hne. symmetry. by apply (exclusive s t u pc timed_take Hs Ht Hu).
  - intros timed Hbt Hu. destruct (Hwoken Hbt) as [->|(Hst & Hpc & Hpc')].
    + exists t. by rewrite list_lookup_insert_eq.
    + destruct (decide (u = t)) as [->|Hne].
      * rewrite list_lookup_insert_eq in Hu by done. injection Hu as ->. done.
      * rewrite list_lookup_insert_ne in Hu by done. destruct (eo_woken _ Hs _ _ Hst Hu) as [v Hv].
        exists v. rewrite list_lookup_insert_ne; [done|]. intros <-. congruence.
Qed.

Lemma wake_holds pc : holds_lock (wake pc) = holds_lock pc.
Proof. by destruct pc. Qed.

Lemma wake_take pc : wake pc = timed_take ↔ pc = timed_take.
Proof. by destruct pc. Qed.

Lemma notify_all_ok s t : event_ok s → threads s !! t = Some notifying →
  event_ok (put t (unlocking true) (notify_all s)).
Proof.
  intros Hs Ht. pose proof (lookup_lt_Some _ _ _ Ht) as Hlt.
  pose proof (proj1 (eo_owner _ Hs _ _ Ht) eq_refl) as Ho.
  assert (∀ u pc, u ≠ t → <[t := unlocking true]> (wake <$> threads s) !! u = Some pc ↔
    ∃ p, threads s !! u = Some p ∧ wake p = pc) as Hother.
  { intros u pc Hne. rewrite list_lookup_insert_ne, list_lookup_fmap_Some by done. naive_solver. }
  assert (<[t := unlocking true]> (wake <$> threads s) !! t = Some (unlocking true)) as Heq
    by (apply list_lookup_insert_eq; by rewrite length_fmap).
  split; simpl; intros u; (destruct (decide (u = t)) as [->|Hne]; [rewrite ?Heq|]).
  - by intros pc [= <-].
  - intros pc (p & Hp & <-)%Hother; [|done]. rewrite wake_holds. by apply (eo_owner _ Hs).
  - by eexists.
  - intros Hu. congruence.
  - done.
  - intros (p & Hp & Hw)%Hother; [|done]. apply wake_take in Hw as ->. by apply (eo_take _ Hs u).
  - done.
  - intros timed _ (p & Hp & Hw)%Hother; [|done]. by destruct p.
Qed.

Lemma owner_none s t pc : event_ok s → owner s = None → threads s !! t = Some pc → holds_lock pc = false.
Proof.
  intros Hs Ho Ht. apply not_true_is_false. intros H. apply (eo_owner _ Hs _ _ Ht) in H. congruence.
Qed.

Lemma lock_ok s t pc pc' l s' : event_ok s → threads s !! t = Some pc → is_blocked pc = false →
  lock t pc' s = Some (l, s') → holds_lock pc' = true → pc' ≠ timed_take → event_ok s'.
Proof.
  intros Hs Ht Hpc. unfold lock. destruct (owner s) eqn:Ho; [done|]. intros [= <- <-] Hl Htake.
  pose proof (owner_none _ _ _ Hs Ho Ht). apply (goes_ok s t pc); try done.
  - rewrite Ho. intros u Hne. split; [done|]. congruence.
  - by left.
  - intros H'. right. split_and!; [done|by intros ->|by destruct pc'].
Qed.

(** The side conditions of [goes_ok]. *)
Ltac put_crush := repeat split; intros; simpl in *; try done; try congruence; try naive_solver.

Lemma test_ok s t l s' : event_ok s →
  (threads s !! t = Some (wait_pred false) ∧ wait_test t s = (l, s') ∨
   threads s !! t = Some (wait_pred true) ∧ timed_test t s = (l, s') ∨
   threads s !! t = Some late_pred ∧ late_test t s = (l, s') ∨
   threads s !! t = Some timed_take ∧ take t s = (l, s')) → event_ok s'.
Proof.
  intros Hs [[Ht H]|[[Ht H]|[[Ht H]|[Ht H]]]]; pose proof (proj1 (eo_owner _ Hs _ _ Ht) eq_refl) as Ho.
  - unfold wait_test in H. destruct (state_ s) eqn:Es; injection H as <- <-.
    + destruct (auto_ s); apply (goes_ok s t (wait_pred false) _ _ _ Hs Ht); put_crush.
    + destruct (auto_ s); apply (goes_ok s t (wait_pred false) _ _ _ Hs Ht); put_crush.
  - unfold timed_test in H. destruct (state_ s) eqn:Es; injection H as <- <-;
      apply (goes_ok s t (wait_pred true) _ _ _ Hs Ht); put_crush.
  - unfold late_test in H. destruct (state_ s) eqn:Es; injection H as <- <-;
      apply (goes_ok s t late_pred _ _ _ Hs Ht); put_crush.
  - unfold take in H. injection H as <- <-. pose proof (eo_take _ Hs _ Ht).
    destruct (auto_ s); apply (goes_ok s t timed_take _ _ _ Hs Ht); put_crush.
Qed.

Lemma fire_ok s t m l s' : event_ok s → fire s t m = Some (l, s') → event_ok s'.
Proof.
  intros Hs. unfold fire. destruct (threads s !! t) as [pc|] eqn:Ht; simpl; [|done].
  pose proof (eo_owner _ Hs _ _ Ht) as Ho.
  destruct m as [op| | |], pc as [|op'| | | |timed|timed|timed| | | |r|r]; try done; simpl in Ho.
  - intros [= <- <-]. apply (goes_ok s t idle _ _ _ Hs Ht); put_crush.
  - intros Hl. apply (lock_ok s t (locking op') (entry op') l s' Hs Ht); try done; by destruct op'.
  - intros [= <- <-]. pose proof (proj1 Ho eq_refl). apply (goes_ok s t setting _ _ _ Hs Ht); put_crush.
  - intros [= <- <-]. by apply notify_all_ok.
  - intros [= <- <-]. pose proof (proj1 Ho eq_refl). apply (goes_ok s t resetting _ _ _ Hs Ht); put_crush.
  - intros H. apply (test_ok s t l s' Hs). destruct timed; injection H as H; auto.
  - intros Hl. by apply (lock_ok s t (wait_relock timed) (wait_pred timed) l s' Hs Ht).
  - intros Hl. by apply (lock_ok s t late_relock late_pred l s' Hs Ht).
  - intros H%(inj Some). apply (test_ok s t l s' Hs). auto.
  - intros H%(inj Some). apply (test_ok s t l s' Hs). auto.
  - intros [= <- <-]. pose proof (proj1 Ho eq_refl). apply (goes_ok s t (unlocking r) _ _ _ Hs Ht); put_crush.
  - intros [= <- <-]. apply (goes_ok s t (returning r) _ _ _ Hs Ht); put_crush.
  - intros [= <- <-]. apply (goes_ok s t (wait_blocked timed) _ _ _ Hs Ht); put_crush.
  - destruct timed; [|done]. intros [= <- <-]. apply (goes_ok s t (wait_blocked true) _ _ _ Hs Ht); put_crush.
Qed.

(** ** Each operation takes place at once *)

Definition abstract (s : impl) : bool * list status := (state_ s, status_of <$> threads s).

Lemma abstract_put s t pc : abstract (put t pc s) = (state_ s, <[t := status_of pc]> (status_of <$> threads s)).
Proof. unfold abstract. simpl. by rewrite list_fmap_insert. Qed.

Lemma abstract_same s t pc pc' : threads s !! t = Some pc → status_of pc' = status_of pc →
  <[t := status_of pc']> (status_of <$> threads s) = status_of <$> threads s.
Proof. intros Ht ->. apply list_insert_id. by rewrite list_lookup_fmap, Ht. Qed.

Lemma status_wake (l : list event_pc) : status_of <$> (wake <$> l) = status_of <$> l.
Proof. induction l as [|[] l IH]; simpl; by f_equal. Qed.

Lemma fire_refines s t m l s' : event_ok s → fire s t m = Some (l, s') →
  spec_step (auto_ s) (abstract s) l = Some (abstract s') ∧ auto_ s' = auto_ s.
Proof.
  intros Hs. unfold fire. destruct (threads s !! t) as [pc|] eqn:Ht; simpl; [|done].
  assert (∀ pc', status_of pc' = status_of pc →
    <[t := status_of pc']> (status_of <$> threads s) = status_of <$> threads s) as Hsame
    by (intros pc'; by apply abstract_same).
  assert ((status_of <$> threads s) !! t = Some (status_of pc)) as Hst by (by rewrite list_lookup_fmap, Ht).
  assert (∀ pc' l s', lock t pc' s = Some (l, s') → status_of pc' = status_of pc →
    l = l_tau ∧ abstract s' = abstract s ∧ auto_ s' = auto_ s) as Hlock.
  { intros pc' l0 s0. unfold lock. destruct (owner s); [done|]. intros [= <- <-] Hpc. unfold abstract. simpl.
    by rewrite list_fmap_insert, Hsame. }
  pose proof (eo_take _ Hs t) as Htake.
  destruct m as [op| | |], pc as [|op'| | | |timed|timed|timed| | | |r|r]; try done; simpl in Hst.
  - intros [= <- <-]. simpl. by rewrite decide_True, abstract_put.
  - intros Hl. destruct (Hlock _ _ _ Hl) as (-> & <- & ?); [by destruct op'|done].
  - intros [= <- <-]. simpl. by rewrite decide_True, abstract_put.
  - intros [= <- <-]. simpl. unfold abstract. simpl. by rewrite list_fmap_insert, status_wake, Hsame.
  - intros [= <- <-]. simpl. by rewrite decide_True, abstract_put.
  - destruct timed; intros [= H].
    + unfold timed_test in H. destruct (state_ s) eqn:E; injection H as <- <-; unfold abstract; simpl;
        by rewrite list_fmap_insert, Hsame.
    + unfold wait_test in H. destruct (state_ s) eqn:E, (auto_ s) eqn:Ea; injection H as <- <-; unfold abstract; simpl;
        rewrite ?decide_True, ?list_fmap_insert, ?E, ?Ea, ?Hsame by done; done.
  - intros Hl. by destruct (Hlock _ _ _ Hl) as (-> & <- & ?).
  - intros Hl. by destruct (Hlock _ _ _ Hl) as (-> & <- & ?).
  - intros H%(inj Some). unfold late_test in H. destruct (state_ s) eqn:E; injection H as <- <-; unfold abstract; simpl;
      rewrite ?decide_True, ?list_fmap_insert, ?E, ?Hsame by done; done.
  - intros H%(inj Some). unfold take in H. injection H as <- <-. specialize (Htake Ht). unfold abstract. simpl.
    rewrite decide_True, Htake by done. simpl.
    destruct (auto_ s) eqn:Ea; simpl; rewrite list_fmap_insert, ?Htake, ?Ea; done.
  - intros [= <- <-]. unfold abstract. simpl. by rewrite list_fmap_insert, Hsame.
  - intros [= <- <-]. unfold abstract. simpl. by rewrite decide_True, list_fmap_insert.
  - intros [= <- <-]. unfold abstract. simpl. by rewrite list_fmap_insert, Hsame.
  - destruct timed; [|done]. intros [= <- <-]. unfold abstract. simpl. by rewrite list_fmap_insert, Hsame.
Qed.

Lemma play_ok ms : ∀ s ls s', event_ok s → play ms s = Some (ls, s') →
  event_ok s' ∧ spec_run (auto_ s) ls (abstract s) = Some (abstract s').
Proof.
  induction ms as [|[t m] ms IH]; intros s ls s' Hs; cbn [play]; [by intros [= <- <-]|].
  destruct (fire s t m) as [[l s1]|] eqn:E; simpl; [|done].
  destruct (play ms s1) as [[ls1 s2]|] eqn:E1; simpl; [|done]. intros [= <- <-].
  destruct (fire_refines _ _ _ _ _ Hs E) as [Hl Ha].
  destruct (IH _ _ _ (fire_ok _ _ _ _ _ Hs E) E1) as [Hs2 Hr]. split; [done|]. cbn [spec_run]. rewrite Hl. cbn. by rewrite <- Ha.
Qed.

(** C12: However the threads of a process are interleaved between the locks, the tests, the notifications
    and the wake-ups that come for no reason: every operation of an event takes place at once, at one
    step between its call and its return, which tells its result — a boolean is set, reset, or waited
    for until it is set and, if the event resets itself, taken back for the others. *)
Theorem event_atomic initial auto_reset n ms ls s :
  play ms (new_event initial auto_reset n) = Some (ls, s) →
  spec_run auto_reset ls (initial, replicate n st_idle) = Some (state_ s, status_of <$> threads s).
Proof.
  intros Hp. destruct (play_ok _ _ _ _ (new_event_ok initial auto_reset n) Hp) as [_ Hr].
  unfold abstract in Hr. simpl in Hr. by rewrite fmap_replicate in Hr.
Qed.

(** ** Nobody is left behind *)

Fixpoint total (f : event_pc → nat) (l : list event_pc) : nat :=
  match l with [] => 0%nat | pc :: l => (f pc + total f l)%nat end.

Lemma total_insert f l t pc pc' : l !! t = Some pc → (total f (<[t := pc']> l) + f pc = total f l + f pc')%nat.
Proof.
  revert t. induction l as [|x l IH]; intros [|t]; simpl; [done|done| |].
  - intros [= ->]. lia.
  - intros H%IH. lia.
Qed.

Lemma total_le f g (c : nat) l : (∀ pc, (f pc ≤ g pc + c)%nat) → (total f l ≤ total g l + c * length l)%nat.
Proof. intros H. induction l as [|x l IH]; simpl; [lia|]. specialize (H x). lia. Qed.

Lemma total_wake f l : total f (wake <$> l) = total (f ∘ wake) l.
Proof. induction l as [|x l IH]; simpl; [done|]. by rewrite <- IH. Qed.

(** The notifications that are to come, and the steps a thread has to go without them. *)
Definition notices (pc : event_pc) : nat :=
  match pc with locking op_set | setting | notifying => 1 | _ => 0 end.
Definition way (pc : event_pc) : nat :=
  match pc with
  | idle | wait_blocked _ => 0
  | returning _ => 1
  | unlocking _ => 2
  | notifying | resetting | timed_take => 3
  | setting | wait_pred _ | late_pred => 4
  | locking _ | wait_relock _ | late_relock => 5
  end.
Definition remaining (s : impl) : nat :=
  (6 * length (threads s) * total notices (threads s) + total way (threads s))%nat.

Lemma remaining_put s s' t pc pc' : threads s !! t = Some pc → threads s' = <[t := pc']> (threads s) →
  (notices pc' ≤ notices pc)%nat → (way pc' < way pc)%nat → (remaining s' < remaining s)%nat.
Proof.
  intros Ht Hs Hn Hw. unfold remaining. rewrite Hs, length_insert.
  pose proof (total_insert notices _ _ _ pc' Ht). pose proof (total_insert way _ _ _ pc' Ht). nia.
Qed.

Lemma notify_remaining s t : threads s !! t = Some notifying →
  (remaining (put t (unlocking true) (notify_all s)) < remaining s)%nat.
Proof.
  intros Ht. unfold remaining. simpl. rewrite length_insert, length_fmap.
  assert ((wake <$> threads s) !! t = Some notifying) as Hw by (by rewrite list_lookup_fmap, Ht).
  pose proof (total_insert notices _ _ _ (unlocking true) Hw) as Hn.
  pose proof (total_insert way _ _ _ (unlocking true) Hw) as Hy. rewrite total_wake in Hn, Hy. simpl in Hn, Hy.
  pose proof (total_le (notices ∘ wake) notices 0 (threads s) ltac:(intros []; simpl; lia)) as Hn'.
  pose proof (total_le (way ∘ wake) way 5 (threads s) ltac:(intros []; simpl; lia)) as Hy'.
  pose proof (lookup_lt_Some _ _ _ Ht). unfold compose in *. nia.
Qed.

Lemma fire_remaining s t l s' : fire s t m_go = Some (l, s') → (remaining s' < remaining s)%nat.
Proof.
  unfold fire. destruct (threads s !! t) as [pc|] eqn:Ht; simpl; [|done].
  assert (∀ pc' s', threads s' = <[t := pc']> (threads s) → (notices pc' ≤ notices pc)%nat →
    (way pc' < way pc)%nat → (remaining s' < remaining s)%nat) as Hput
    by (intros pc' s0; by apply remaining_put).
  assert (∀ pc' l s', lock t pc' s = Some (l, s') → threads s' = <[t := pc']> (threads s)) as Hlock.
  { intros pc' l0 s0. unfold lock. destruct (owner s); [done|]. by intros [= _ <-]. }
  destruct pc as [|op'| | | |timed|timed|timed| | | |r|r]; try done; simpl in Hput.
  - intros Hl%Hlock. apply (Hput _ _ Hl); destruct op'; simpl; lia.
  - intros [= _ <-]. apply (Hput notifying); simpl; [done|lia..].
  - intros [= _ <-]. by apply notify_remaining.
  - intros [= _ <-]. apply (Hput (unlocking true)); simpl; [done|lia..].
  - destruct timed; intros H%(inj Some).
    + unfold timed_test in H. destruct (state_ s); injection H as _ <-;
        [apply (Hput timed_take); simpl; [done|lia..]|apply (Hput (wait_blocked true)); simpl; [done|lia..]].
    + unfold wait_test in H. destruct (state_ s), (auto_ s); injection H as _ <-;
        first [apply (Hput (unlocking true)); [done|simpl; lia..]|apply (Hput (wait_blocked false)); [done|simpl; lia..]].
  - intros Hl%Hlock. apply (Hput _ _ Hl); simpl; lia.
  - intros Hl%Hlock. apply (Hput _ _ Hl); simpl; lia.
  - intros H%(inj Some). unfold late_test in H. destruct (state_ s); injection H as _ <-;
      [apply (Hput timed_take); simpl; [done|lia..]|apply (Hput (unlocking false)); simpl; [done|lia..]].
  - intros [= _ <-]. apply (Hput (unlocking true)); simpl; [by destruct (auto_ s)|lia..].
  - intros [= _ <-]. apply (Hput (returning r)); simpl; [done|lia..].
  - intros [= _ <-]. apply (Hput idle); simpl; [done|lia..].
Qed.

(** Threads that go on, one after another. *)
Definition go_on (ts : list nat) : list (nat * move) := map (λ t, (t, m_go)) ts.

Lemma go_on_ends ts : ∀ s ls s', play (go_on ts) s = Some (ls, s') → (length ts ≤ remaining s)%nat.
Proof.
  induction ts as [|t ts IH]; intros s ls s'; simpl; [lia|].
  destruct (fire s t m_go) as [[l s1]|] eqn:E; simpl; [|done].
  destruct (play (go_on ts) s1) as [[ls1 s2]|] eqn:E1; simpl; [|done]. intros _.
  apply fire_remaining in E. apply IH in E1. lia.
Qed.

(** The thread that has the mutex can go on, and without one every thread that wants it. *)
Lemma stuck_idle s : event_ok s → (∀ t, fire s t m_go = None) → ∀ t pc, threads s !! t = Some pc →
  pc = idle ∨ is_blocked pc = true ∧ state_ s = false.
Proof.
  intros Hs Hstuck.
  assert (∀ u pc, threads s !! u = Some pc → holds_lock pc = true → False) as Hheld.
  { intros u pc Hu Hl. specialize (Hstuck u). unfold fire in Hstuck. rewrite Hu in Hstuck. simpl in Hstuck.
    by destruct pc as [| | | | |[]| | | | | | |]. }
  assert (owner s = None) as Ho.
  { destruct (owner s) as [u|] eqn:Ho; [|done]. destruct (eo_exists _ Hs _ Ho) as [pc Hu].
    destruct (Hheld u pc Hu). by apply (eo_owner _ Hs _ _ Hu). }
  intros t pc Ht. pose proof (Hstuck t) as H. unfold fire, lock in H. rewrite Ht, Ho in H. simpl in H.
  destruct pc as [|op| | | |timed|timed|timed| | | |r|r]; try done; [by left|by destruct timed|]. right. split; [done|].
  apply not_true_is_false. intros Hst. destruct (eo_woken _ Hs _ _ Hst Ht) as [u Hu]. by apply (Hheld u notifying).
Qed.

(** No wake-up is lost: whatever the threads have done, if they go on they come to rest after a
    bounded number of steps, in whatever order they are scheduled, and when none of them can go on then
    each of them has returned from its operation or waits for an event that is not set. *)
Theorem event_settles initial auto_reset n ms ls s :
  play ms (new_event initial auto_reset n) = Some (ls, s) →
  (∀ ts ls' s', play (go_on ts) s = Some (ls', s') → (length ts ≤ remaining s)%nat) ∧
  (∀ ts ls' s', play (go_on ts) s = Some (ls', s') → (∀ t, fire s' t m_go = None) →
    ∀ t pc, threads s' !! t = Some pc → pc = idle ∨ is_blocked pc = true ∧ state_ s' = false).
Proof.
  intros Hp. destruct (play_ok _ _ _ _ (new_event_ok initial auto_reset n) Hp) as [Hs _].
  split; [intros ts ls' s'; apply go_on_ends|]. intros ts ls' s' Hp'. destruct (play_ok _ _ _ _ Hs Hp') as [Hs' _].
  by apply stuck_idle.
Qed.

(** ** Two waiters and one set *)

(** Two threads wait, a third sets an event that resets itself: both are woken, one of them gets it. *)
Definition demo_waits : list (nat * move) :=
  [(0, m_call (op_wait false)); (1, m_call (op_wait true)); (0, m_go); (0, m_go); (2, m_call op_set);
   (1, m_go); (1, m_go); (2, m_go); (2, m_go); (2, m_go); (2, m_go); (1, m_go); (1, m_go); (1, m_go);
   (1, m_go); (0, m_go); (0, m_go); (1, m_go); (2, m_go)]%nat.

Definition demo_settled : list label * impl :=
  match play demo_waits (new_event false true 3) with Some x => x | None => ([], new_event false true 3) end.

Lemma demo_settled_eq :
  filter (λ l, l ≠ l_tau) demo_settled.1 =
    [l_call 0 (op_wait false); l_call 1 (op_wait true); l_call 2 op_set; l_act 2 op_set true;
     l_act 1 (op_wait true) true; l_ret 1 true; l_ret 2 true] ∧
  threads demo_settled.2 = [wait_blocked false; idle; idle] ∧ state_ demo_settled.2 = false.
Proof. vm_compute. done. Qed.

Lemma event_atomic_witness :
  spec_run true demo_settled.1 (false, replicate 3 st_idle) =
    Some (state_ demo_settled.2, status_of <$> threads demo_settled.2).
Proof. apply (event_atomic false true 3 demo_waits). vm_compute. reflexivity. Defined.

Lemma event_settles_witness :
  (∀ ts ls' s', play (go_on ts) demo_settled.2 = Some (ls', s') → (length ts ≤ remaining demo_settled.2)%nat) ∧
  (∀ ts ls' s', play (go_on ts) demo_settled.2 = Some (ls', s') → (∀ t, fire s' t m_go = None) →
    ∀ t pc, threads s' !! t = Some pc → pc = idle ∨ is_blocked pc = true ∧ state_ s' = false).
Proof. apply (event_settles false true 3 demo_waits demo_settled.1). vm_compute. reflexivity. Defined.

(** * The end of a thread *)

#[local] Unset Elimination Schemes.
(** What is to be called at the end of a thread, and what it registers when it is called. *)
Inductive handler := mk_handler (id_ : nat) (registers : list handler).
#[local] Set Elimination Schemes.

Definition id_ (h : handler) : nat := let '(mk_handler i _) := h in i.
Definition registers (h : handler) : list handler := let '(mk_handler _ hs) := h in hs.

(** The vectors are in a list; the local value of a thread points to one of them. *)
(** [mt/src/thread_callbacks_unix.cpp:47-51] thread_callbacks_impl. *)
Record callbacks := mk_callbacks {
  all_destructors : list (list handler);
  thread_destructors : gmap nat nat;
}.

(** [mt/src/thread_callbacks_unix.cpp:64-76] thread_callbacks_impl::at_thread_exit. *)
Definition at_thread_exit (t : nat) (h : handler) (c : callbacks) : callbacks :=
  let '(d, c) := match thread_destructors c !! t with
    | Some d => (d, c)
    | None =>
      let d := length (all_destructors c) in
      (d, mk_callbacks (all_destructors c ++ [[]]) (<[t := d]> (thread_destructors c)))
    end in
  mk_callbacks (alter (λ l, l ++ [h]) d (all_destructors c)) (thread_destructors c).

(** The handlers that are called, in their order; [n] bounds their number. *)
(** [mt/src/thread_callbacks_unix.cpp:78-89] thread_callbacks_impl::invoke_destructors. *)
Fixpoint invoke_destructors (n : nat) (t d : nat) (c : callbacks) : result (list nat * callbacks) :=
  match n with
  | O => UB
  | S n =>
    match all_destructors c !! d with
    | None => UB
    | Some l =>
      match last l with
      | None => Ret ([], c)
      | Some h =>
        let c := mk_callbacks (<[d := removelast l]> (all_destructors c)) (thread_destructors c) in
        let c := foldl (λ c h, at_thread_exit t h c) c (registers h) in
        '(called, c) ← invoke_destructors n t d c;
        Ret (id_ h :: called, c)
      end
    end
  end.

(** [mt/src/thread_callbacks_win32.cpp:52-64] thread_callbacks_impl::notify_thread_exit. *)
Definition notify_thread_exit (n t : nat) (c : callbacks) : result (list nat * callbacks) :=
  match thread_destructors c !! t with
  | Some d => invoke_destructors n t d c
  | None => Ret ([], c)
  end.

(** The system sets the local value to null before it calls the destructor of the key, and does it again
    while there is a value, for a limited number of times. *)
Fixpoint pthread_exit (iterations n t : nat) (c : callbacks) : result (list nat * callbacks) :=
  match iterations, thread_destructors c !! t with
  | S iterations, Some d =>
    '(called, c) ← invoke_destructors n t d (mk_callbacks (all_destructors c) (delete t (thread_destructors c)));
    '(more, c) ← pthread_exit iterations n t c;
    Ret (called ++ more, c)
  | _, _ => Ret ([], c)
  end.

Section handler_ind.
Context (P : handler → Prop) (P_handler : ∀ i hs, Forall P hs → P (mk_handler i hs)).

Fixpoint handler_ind (h : handler) : P h :=
  match h with
  | mk_handler i hs => P_handler i hs
      ((fix go (l : list handler) : Forall P l :=
        match l with
        | [] => Forall_nil_2 P
        | h :: l => Forall_cons_2 P h l (handler_ind h) (go l)
        end) hs)
  end.
End handler_ind.

(** The last that was registered is called first, and what it registers before the others. *)
Fixpoint order (h : handler) : list nat :=
  match h with mk_handler i hs => i :: concat (rev (map order hs)) end.
Definition orders (l : list handler) : list nat := concat (rev (map order l)).

(** In rounds: what the handlers of a round register is called in the next. *)
Definition next_round (l : list handler) : list handler := concat (map registers (rev l)).
Fixpoint rounds (k : nat) (l : list handler) : list nat :=
  match k with O => [] | S k => map id_ (rev l) ++ rounds k (next_round l) end.

Lemma order_cons h : order h = id_ h :: orders (registers h).
Proof. by destruct h. Qed.

Lemma orders_app l l' : orders (l ++ l') = orders l' ++ orders l.
Proof. unfold orders. by rewrite map_app, rev_app_distr, concat_app. Qed.

Lemma orders_single h : orders [h] = order h.
Proof. unfold orders. simpl. by rewrite app_nil_r. Qed.

Lemma orders_perm l l' : l ≡ₚ l' → orders l ≡ₚ orders l'.
Proof.
  induction 1 as [|h l l' _ IH|h h' l|]; [done| | |by etrans].
  - change (orders ([h] ++ l) ≡ₚ orders ([h] ++ l')). by rewrite !orders_app, IH.
  - change (orders ([h'] ++ [h] ++ l) ≡ₚ orders ([h] ++ [h'] ++ l)). rewrite !orders_app, <- !app_assoc.
    f_equiv. apply Permutation_app_comm.
Qed.

Lemma orders_round l : orders l ≡ₚ map id_ (rev l) ++ orders (next_round l).
Proof.
  unfold next_round. induction l as [|h l IH] using rev_ind; [done|].
  rewrite orders_app, orders_single, order_cons, rev_unit. simpl. f_equiv.
  rewrite orders_app, IH, (app_assoc (map id_ (rev l))). apply Permutation_app_comm.
Qed.

(** What is left after some rounds. *)
Fixpoint left_after (k : nat) (l : list handler) : list handler :=
  match k with O => l | S k => left_after k (next_round l) end.

Lemma rounds_all k : ∀ l, left_after k l = [] → rounds k l ≡ₚ orders l.
Proof.
  induction k as [|k IH]; intros l; simpl; [by intros ->|]. intros Hl. by rewrite orders_round, IH.
Qed.

Lemma last_split {A} (l : list A) x : last l = Some x → l = removelast l ++ [x].
Proof.
  destruct l as [|y l _] using rev_ind; [done|]. rewrite last_snoc. intros [= ->]. by rewrite removelast_last.
Qed.

Lemma alter_known {A} (f : A → A) (l : list A) d x : l !! d = Some x → alter f d l = <[d := f x]> l.
Proof. intros Hl. rewrite list_insert_alter. apply list_alter_ext; [|done]. intros y Hy. congruence. Qed.

(** ** In the same vector *)

Lemma register_same t d hs : ∀ c l, thread_destructors c !! t = Some d → all_destructors c !! d = Some l →
  foldl (λ c h, at_thread_exit t h c) c hs = mk_callbacks (<[d := l ++ hs]> (all_destructors c)) (thread_destructors c).
Proof.
  induction hs as [|h hs IH]; intros [all td] l; simpl; intros Ht Hl.
  - rewrite app_nil_r, list_insert_id by done. done.
  - unfold at_thread_exit at 2. simpl. rewrite Ht. pose proof (lookup_lt_Some _ _ _ Hl).
    rewrite (IH _ (l ++ [h])); simpl; [|done|by rewrite list_lookup_alter_eq, Hl].
    rewrite <- app_assoc. f_equal. rewrite (alter_known _ _ _ _ Hl). apply list_insert_insert_eq.
Qed.

Lemma invoke_same n : ∀ t d c l, thread_destructors c !! t = Some d → all_destructors c !! d = Some l →
  (length (orders l) < n)%nat →
  invoke_destructors n t d c = Ret (orders l, mk_callbacks (<[d := []]> (all_destructors c)) (thread_destructors c)).
Proof.
  induction n as [|n IH]; intros t d [all td] l Ht Hl Hn; [lia|]. cbn [invoke_destructors]. simpl in Ht, Hl |- *.
  rewrite Hl. pose proof (lookup_lt_Some _ _ _ Hl). destruct (last l) as [h|] eqn:Hlast.
  2:{ apply last_None in Hlast as ->. by rewrite list_insert_id. }
  apply last_split in Hlast. set (l0 := removelast l) in *.
  rewrite (register_same t d (registers h) _ l0); simpl; [|done|by rewrite list_lookup_insert_eq].
  assert (orders l = id_ h :: orders (l0 ++ registers h)) as Ho
    by (by rewrite Hlast, !orders_app, orders_single, order_cons).
  rewrite Ho in Hn |- *. simpl in Hn.
  rewrite (IH t d _ (l0 ++ registers h)); simpl; [|done|apply list_lookup_insert_eq; by rewrite length_insert|lia].
  by rewrite !list_insert_insert_eq.
Qed.

(** On Windows the handlers of a thread are all called, the last first. *)
Lemma notify_thread_exit_calls n t d c l : thread_destructors c !! t = Some d → all_destructors c !! d = Some l →
  (length (orders l) < n)%nat →
  ∃ c', notify_thread_exit n t c = Ret (orders l, c') ∧ all_destructors c' !! d = Some [] ∧
    (∀ e, e ≠ d → all_destructors c' !! e = all_destructors c !! e).
Proof.
  intros Ht Hl Hn. unfold notify_thread_exit. rewrite Ht. rewrite (invoke_same n t d c l) by done.
  eexists. split; [done|]. simpl. pose proof (lookup_lt_Some _ _ _ Hl). split; [by apply list_lookup_insert_eq|].
  intros e Hne. by rewrite list_lookup_insert_ne.
Qed.

(** ** In vectors of their own *)

Definition register_all (t : nat) (hs : list handler) (c : callbacks) : callbacks :=
  foldl (λ c h, at_thread_exit t h c) c hs.
Definition set_vector (d : nat) (l : list handler) (c : callbacks) : callbacks :=
  mk_callbacks (<[d := l]> (all_destructors c)) (thread_destructors c).
Definition elsewhere (t d : nat) (c : callbacks) : Prop :=
  (d < length (all_destructors c))%nat ∧ thread_destructors c !! t ≠ Some d.

Lemma register_elsewhere t d h c : elsewhere t d c → elsewhere t d (at_thread_exit t h c) ∧
  all_destructors (at_thread_exit t h c) !! d = all_destructors c !! d.
Proof.
  intros [Hd Ht]. unfold elsewhere, at_thread_exit. destruct (thread_destructors c !! t) as [e|] eqn:E; simpl.
  - assert (e ≠ d) by congruence. rewrite length_alter, E. split; [done|]. by apply list_lookup_alter_ne.
  - rewrite length_alter, length_app, lookup_insert_eq. split; [split; [simpl; lia|intros [= <-]; lia]|].
    rewrite list_lookup_alter_ne by lia. by rewrite lookup_app_l.
Qed.

Lemma register_set t d l h c : elsewhere t d c →
  at_thread_exit t h (set_vector d l c) = set_vector d l (at_thread_exit t h c).
Proof.
  intros [Hd Ht]. unfold at_thread_exit, set_vector. simpl.
  destruct (thread_destructors c !! t) as [e|] eqn:E; simpl; f_equal.
  - rewrite !list_insert_alter. apply list_alter_alter_ne. congruence.
  - rewrite length_insert. rewrite <- insert_app_l by done. rewrite !list_insert_alter. apply list_alter_alter_ne. lia.
  - by rewrite length_insert.
Qed.

Lemma register_all_set t d l hs : ∀ c, elsewhere t d c →
  elsewhere t d (register_all t hs c) ∧ all_destructors (register_all t hs c) !! d = all_destructors c !! d ∧
  register_all t hs (set_vector d l c) = set_vector d l (register_all t hs c).
Proof.
  unfold register_all. induction hs as [|h hs IH]; intros c Hc; [done|]. simpl.
  destruct (register_elsewhere t d h c Hc) as [Hc' Hd]. rewrite register_set by done.
  destruct (IH _ Hc') as (? & ? & ?). rewrite <- Hd. done.
Qed.

Lemma set_set d l l' c : set_vector d l (set_vector d l' c) = set_vector d l c.
Proof. unfold set_vector. simpl. by rewrite list_insert_insert_eq. Qed.

Lemma invoke_elsewhere n : ∀ t d c l, elsewhere t d c → all_destructors c !! d = Some l → (length l < n)%nat →
  invoke_destructors n t d c = Ret (map id_ (rev l), register_all t (next_round l) (set_vector d [] c)).
Proof.
  induction n as [|n IH]; intros t d c l Hc Hl Hn; [lia|]. cbn [invoke_destructors]. rewrite Hl.
  destruct (last l) as [h|] eqn:Hlast.
  2:{ apply last_None in Hlast as ->. simpl. unfold set_vector. rewrite list_insert_id by done. by destruct c. }
  apply last_split in Hlast. set (l0 := removelast l) in *. clearbody l0. subst l.
  rewrite length_app in Hn. simpl in Hn. fold (set_vector d l0 c). fold (register_all t (registers h) (set_vector d l0 c)).
  destruct (register_all_set t d l0 (registers h) c Hc) as (Hc1 & _ & Hr). rewrite Hr.
  destruct Hc1 as [Hd1 Ht1].
  rewrite (IH t d _ l0); [|split; simpl; [by rewrite length_insert|done]|by apply list_lookup_insert_eq|lia].
  rewrite set_set. destruct (register_all_set t d [] (registers h) c Hc) as (_ & _ & <-).
  unfold next_round. rewrite rev_unit. simpl. unfold register_all. by rewrite foldl_app.
Qed.

Lemma register_new t hs c : thread_destructors c !! t = None → hs ≠ [] →
  register_all t hs c = mk_callbacks (all_destructors c ++ [hs]) (<[t := length (all_destructors c)]> (thread_destructors c)).
Proof.
  intros Ht. destruct hs as [|h hs]; [done|]. intros _. unfold register_all. simpl. unfold at_thread_exit at 2.
  rewrite Ht. pose proof (list_lookup_middle (all_destructors c) [] [] (length (all_destructors c)) eq_refl) as Hm.
  rewrite (alter_known _ _ _ _ Hm), insert_app_r_alt, Nat.sub_diag by done. simpl.
  rewrite (register_same t (length (all_destructors c)) hs _ [h]); simpl;
    [|by rewrite lookup_insert_eq|by apply list_lookup_middle].
  by rewrite insert_app_r_alt, Nat.sub_diag.
Qed.

(** On other systems they are called in rounds, as many as the system makes. *)
Lemma pthread_exit_rounds k : ∀ n t d c l, thread_destructors c !! t = Some d → all_destructors c !! d = Some l →
  (length (orders l) < n)%nat → ∃ c', pthread_exit k n t c = Ret (rounds k l, c').
Proof.
  induction k as [|k IH]; intros n t d c l Ht Hl Hn; [by eexists|]. cbn [pthread_exit]. rewrite Ht.
  set (c0 := mk_callbacks (all_destructors c) (delete t (thread_destructors c))).
  pose proof (orders_round l) as Hp. apply Permutation_length in Hp.
  rewrite length_app, length_map, length_rev in Hp.
  assert (elsewhere t d c0) as Hc0.
  { split; simpl; [by apply lookup_lt_Some in Hl|]. by rewrite lookup_delete_eq. }
  rewrite (invoke_elsewhere n t d c0 l) by (done || lia). simpl.
  destruct (decide (next_round l = [])) as [Hnil|Hnil].
  - rewrite Hnil. simpl. exists (set_vector d [] c0).
    assert (pthread_exit k n t (set_vector d [] c0) = Ret ([], set_vector d [] c0)) as ->
      by (destruct k; simpl; by rewrite ?lookup_delete_eq).
    simpl. do 3 f_equal. clear. by induction k.
  - rewrite (register_new t _ (set_vector d [] c0)); [|simpl; by rewrite lookup_delete_eq|done].
    destruct (IH n t (length (all_destructors (set_vector d [] c0)))
      (mk_callbacks (all_destructors (set_vector d [] c0) ++ [next_round l])
        (<[t := length (all_destructors (set_vector d [] c0))]> (thread_destructors (set_vector d [] c0))))
      (next_round l)) as [c' Hc']; simpl.
    + by rewrite lookup_insert_eq.
    + by apply list_lookup_middle.
    + lia.
    + simpl in Hc'. rewrite Hc'. simpl. by eexists.
Qed.

(** What a handler registers is called too, everything once and in the end the same on all systems — if
    there are rounds enough for it. *)
Lemma thread_exit_calls_all k n t d c l : thread_destructors c !! t = Some d → all_destructors c !! d = Some l →
  (length (orders l) < n)%nat → left_after k l = [] →
  ∃ called c1 c2, pthread_exit k n t c = Ret (called, c1) ∧ notify_thread_exit n t c = Ret (orders l, c2) ∧
    called ≡ₚ orders l.
Proof.
  intros Ht Hl Hn Hk. destruct (pthread_exit_rounds k n t d c l Ht Hl Hn) as [c1 H1].
  destruct (notify_thread_exit_calls n t d c l Ht Hl Hn) as (c2 & H2 & _).
  exists (rounds k l), c1, c2. split_and!; [done..|]. by apply rounds_all.
Qed.

(** Two threads: the handlers of the first, the second of which registers another. *)
Definition demo_callbacks : callbacks :=
  foldl (λ c x, at_thread_exit x.1 x.2 c) (mk_callbacks [] ∅)
    [(0, mk_handler 1 []); (1, mk_handler 2 []); (0, mk_handler 3 [mk_handler 4 []]); (0, mk_handler 5 [])]%nat.

Lemma demo_callbacks_eq :
  (fst <$> match pthread_exit 4 9 0 demo_callbacks with Ret x => Some x | _ => None end) = Some [5; 3; 1; 4]%nat ∧
  (fst <$> match notify_thread_exit 9 0 demo_callbacks with Ret x => Some x | _ => None end) = Some [5; 3; 4; 1]%nat.
Proof. vm_compute. done. Qed.
