(* ===== verification/Scheduler.v ===== *)
(** Deferred tasks (src/scheduler/task_queue.h and .cpp, private_queue.h and .cpp).

    A task is run for its effect on the queue: the tasks it schedules ([spawn]).  The clock is the
    sequence of its readings, one per call; the priority queue is the list of pending tasks, its top
    the one [deadlined_task::operator <] makes greatest. *)

From S2P Require Import Prelude.
Local Open Scope Z_scope.

Section scheduler.
Context {T : Type}.

(** [scheduler/task_queue.h:46-53] task_queue::deadlined_task *)
Record deadlined_task := mk_task { task : T; deadline : Z; order : Z }.

(** [scheduler/src/task_queue.cpp:47-48] task_queue::deadlined_task::operator < *)
Definition task_less (lhs rhs : deadlined_task) : bool :=
  if deadline rhs <? deadline lhs then true
  else if deadline lhs <? deadline rhs then false
  else order rhs <? order lhs.

(** [scheduler/task_queue.h:31-62] task_queue *)
Record task_queue := mk_tasks {
  tasks : list deadlined_task;
  reads : nat;              (* how often the clock was read *)
  ready_event : bool;       (* the event [wait] sleeps on *)
  next_order : Z;           (* unsigned long long *)
  omit_notify : bool;
  stopped : bool
}.

Context (clock : nat → Z) (spawn : T → list (T * Z)).

(** [scheduler/src/task_queue.cpp:50-52] task_queue::task_queue *)
Definition new_tasks : task_queue := mk_tasks [] 0 false 0 false false.

(** The top of the priority queue and the rest. *)
Fixpoint pop (ts : list deadlined_task) : option (deadlined_task * list deadlined_task) :=
  match ts with
  | [] => None
  | t :: ts =>
      match pop ts with
      | None => Some (t, [])
      | Some (u, rest) => if task_less t u then Some (u, t :: rest) else Some (t, ts)
      end
  end.

Definition top (ts : list deadlined_task) : option deadlined_task := fst <$> pop ts.

(** [scheduler/src/task_queue.cpp:54-69] task_queue::schedule: the hint to the caller, and the queue *)
Definition schedule (x : T) (defer_by : Z) (q : task_queue) : (Z * bool) * task_queue :=
  if stopped q then ((0, false), q)
  else
    let t := mk_task x (clock (reads q) + defer_by) (next_order q) in
    let notify := negb (omit_notify q) &&
      match top (tasks q) with None => true | Some u => deadline t <? deadline u end in
    ((if notify then defer_by else 0, notify),
     mk_tasks (t :: tasks q) (S (reads q)) (if notify then true else ready_event q)
       (u64 (next_order q + 1)) (omit_notify q) (stopped q)).

Definition schedule_all (xs : list (T * Z)) (q : task_queue) : task_queue :=
  foldl (λ q '(x, d), (schedule x d q).2) q xs.

Definition set_omit (b : bool) (q : task_queue) : task_queue :=
  mk_tasks (tasks q) (reads q) (ready_event q) (next_order q) b (stopped q).

Definition read_clock (q : task_queue) : Z * task_queue :=
  (clock (reads q),
   mk_tasks (tasks q) (S (reads q)) (ready_event q) (next_order q) (omit_notify q) (stopped q)).

(** The loop of [execute_ready]: the tasks run, the last reading of the clock, the queue; [None]
    when [fuel] does not cover it. *)
(** [scheduler/src/task_queue.cpp:77-85] task_queue::execute_ready *)
Fixpoint execute_loop (fuel : nat) (until now : Z) (q : task_queue)
    : option (list deadlined_task * Z * task_queue) :=
  match fuel with
  | O => None
  | S fuel =>
      match pop (tasks q) with
      | Some (t, rest) =>
          if (now <? until) && (deadline t <=? now) then
            let q1 := mk_tasks rest (reads q) (ready_event q) (next_order q) (omit_notify q) (stopped q) in
            let '(now', q2) := read_clock (schedule_all (spawn (task t)) q1) in
            '(done, n, q') ← execute_loop fuel until now' q2; Some (t :: done, n, q')
          else Some ([], now, q)
      | None => Some ([], now, q)
      end
  end.

(** [scheduler/src/task_queue.cpp:71-91] task_queue::execute_ready *)
Definition execute_ready (fuel : nat) (max_duration : Z) (q : task_queue)
    : option (list deadlined_task * (Z * bool) * task_queue) :=
  let '(now, q0) := read_clock q in
  '(done, now', q1) ← execute_loop fuel (now + max_duration) now (set_omit true q0);
  Some (done,
        match top (tasks q1) with
        | None => (0, false)
        | Some t => (if now' <? deadline t then deadline t - now' else 0, true)
        end,
        set_omit false q1).

(** [scheduler/src/task_queue.cpp:116-123] task_queue::stop *)
Definition stop (q : task_queue) : task_queue :=
  mk_tasks [] (reads q) (ready_event q) (next_order q) (omit_notify q) true.

(** ** The order of tasks *)

Lemma task_less_spec a b :
  task_less a b ↔ deadline b < deadline a ∨ (deadline a = deadline b ∧ order b < order a).
Proof.
  unfold task_less. rewrite Is_true_true.
  destruct (Z.ltb_spec (deadline b) (deadline a)); [split; [lia|done]|].
  destruct (Z.ltb_spec (deadline a) (deadline b)); [split; [done|intros; exfalso; lia]|].
  rewrite Z.ltb_lt. lia.
Qed.

Lemma pop_spec ts : match pop ts with
  | None => ts = []
  | Some (t, rest) => ts ≡ₚ t :: rest ∧ Forall (λ u, ¬ task_less t u) rest
  end.
Proof.
  induction ts as [|t ts IH]; [done|]. simpl.
  destruct (pop ts) as [[u rest]|]; [|by subst].
  destruct IH as [Hp Hu]. destruct (task_less t u) eqn:E.
  - split; [by rewrite Hp; constructor|]. constructor; [|done].
    apply Is_true_true, task_less_spec in E. rewrite task_less_spec. lia.
  - split; [done|]. rewrite Hp. constructor; [by rewrite E; intros []|].
    eapply Forall_impl; [exact Hu|]. intros v Hv Htv. apply Hv.
    assert (¬ task_less t u) as Htu by (by rewrite E; intros []).
    rewrite task_less_spec in *. lia.
Qed.

Lemma pop_length ts t rest : pop ts = Some (t, rest) → length ts = S (length rest).
Proof.
  intros E. pose proof (pop_spec ts) as H. rewrite E in H. destruct H as [H _].
  by apply Permutation_length in H.
Qed.

(** Tasks run in the order of their deadlines, and in the order they were scheduled for equal ones:
    whatever [execute_ready] runs next is due, and nothing pending at that moment comes before it. *)
Theorem execute_ready_order fuel until now q t done n q' :
  execute_loop fuel until now q = Some (t :: done, n, q') →
  deadline t ≤ now < until
  ∧ ∃ rest, tasks q ≡ₚ t :: rest
    ∧ Forall (λ u, deadline t < deadline u ∨ (deadline t = deadline u ∧ order t ≤ order u)) rest.
Proof.
  destruct fuel as [|fuel]; [done|]. cbn [execute_loop].
  pose proof (pop_spec (tasks q)) as Hp. destruct (pop (tasks q)) as [[u rest]|]; [|done].
  destruct (Z.ltb_spec now until), (Z.leb_spec (deadline u) now); cbn [andb]; try done.
  destruct (read_clock _) as [now' q2]. destruct (execute_loop _ _ _ _) as [[[d n'] q1]|]; [|done].
  cbn. intros [= <- _ _ _]. split; [lia|]. exists rest. destruct Hp as [? Hp]. split; [done|].
  eapply Forall_impl; [exact Hp|]. intros v Hv. cbv beta in Hv. rewrite task_less_spec in Hv. lia.
Qed.

(** ** [execute_ready] ends *)

Lemma schedule_all_reads xs q : (reads q ≤ reads (schedule_all xs q))%nat.
Proof.
  unfold schedule_all. revert q; induction xs as [|[x d] xs IH]; intros q; [done|]. simpl.
  etrans; [|apply IH]. unfold schedule. destruct (stopped q); simpl; lia.
Qed.

Lemma execute_loop_S fuel until now q : execute_loop (S fuel) until now q =
  match pop (tasks q) with
  | Some (t, rest) =>
      if (now <? until) && (deadline t <=? now) then
        let q1 := mk_tasks rest (reads q) (ready_event q) (next_order q) (omit_notify q) (stopped q) in
        let '(now', q2) := read_clock (schedule_all (spawn (task t)) q1) in
        '(done, n, q') ← execute_loop fuel until now' q2; Some (t :: done, n, q')
      else Some ([], now, q)
  | None => Some ([], now, q)
  end.
Proof. done. Qed.

(** [execute_ready] returns within its time: as soon as the clock has passed the limit it was given,
    however many tasks the tasks themselves keep scheduling. *)
Theorem execute_ready_returns m max_duration q :
  (∀ k, (m ≤ k)%nat → clock (reads q) + max_duration ≤ clock k) →
  ∃ r, execute_ready (S (S (m - reads q))) max_duration q = Some r.
Proof.
  intros Hm. unfold execute_ready, read_clock. set (until := clock (reads q) + max_duration) in *.
  assert (H : ∀ fuel now q1, (m ≤ reads q1 - 1 + fuel)%nat → (0 < reads q1)%nat →
    ((m < reads q1)%nat → until ≤ now) → ∃ r, execute_loop (S fuel) until now q1 = Some r).
  { induction fuel as [|fuel IH]; intros now q1 Hf Hr Hn; rewrite execute_loop_S.
    - destruct (pop (tasks q1)) as [[t rest]|]; [|by eexists].
      rewrite (proj2 (Z.ltb_ge now until)) by (apply Hn; lia). by eexists.
    - destruct (pop (tasks q1)) as [[t rest]|]; [|by eexists].
      destruct (_ && _); [|by eexists].
      cbv zeta. unfold read_clock. set (q2 := schedule_all (spawn (task t)) _).
      pose proof (schedule_all_reads (spawn (task t)) (mk_tasks rest (reads q1) (ready_event q1)
        (next_order q1) (omit_notify q1) (stopped q1))) as Hq2. fold q2 in Hq2. simpl in Hq2.
      destruct (IH (clock (reads q2)) (mk_tasks (tasks q2) (S (reads q2)) (ready_event q2)
        (next_order q2) (omit_notify q2) (stopped q2))) as [[[d n] q3] Hr3]; [simpl; lia|simpl; lia| |].
      { simpl. intros ?. apply Hm. lia. }
      rewrite Hr3. by eexists. }
  destruct (H (S (m - reads q)) (clock (reads q))
    (set_omit true (mk_tasks (tasks q) (S (reads q)) (ready_event q) (next_order q) (omit_notify q)
      (stopped q)))) as [[[d n] q1] Hr1]; [simpl; lia|simpl; lia| |].
  { simpl. intros ?. apply Hm. lia. }
  rewrite Hr1. by eexists.
Qed.

(** ** What the caller is told *)

Definition earliest (ts : list deadlined_task) (t : deadlined_task) : Prop :=
  t ∈ ts ∧ ∀ u, u ∈ ts → deadline t ≤ deadline u.

Lemma top_earliest ts t : top ts = Some t → earliest ts t.
Proof.
  unfold top. pose proof (pop_spec ts) as Hp. destruct (pop ts) as [[u rest]|]; [|done].
  intros [= <-]. destruct Hp as [Hp Hu]. split; [rewrite Hp; by left|].
  intros v. rewrite Hp. intros [->|Hv]%elem_of_cons; [done|].
  rewrite Forall_forall in Hu. specialize (Hu v Hv). rewrite task_less_spec in Hu. lia.
Qed.

Lemma top_none ts : top ts = None → ts = [].
Proof.
  unfold top. pose proof (pop_spec ts) as Hp. by destruct (pop ts) as [[u rest]|].
Qed.

(** The hints that wake the caller are sufficient: outside of [execute_ready], a task that becomes
    the earliest one is always notified with its own delay (and one that does not is not), so that
    whoever sleeps until the earliest deadline it knew never oversleeps. *)
Theorem schedule_notifies x d q :
  stopped q = false → omit_notify q = false →
  let '((delay, notify), q') := schedule x d q in
  (notify = true ↔ ∀ u, u ∈ tasks q → clock (reads q) + d < deadline u)
  ∧ (notify = true → delay = d ∧ ready_event q' = true)
  ∧ (notify = false → ∃ u, u ∈ tasks q ∧ deadline u ≤ clock (reads q) + d).
Proof.
  intros Hs Ho. unfold schedule. rewrite Hs, Ho. cbn [negb andb deadline].
  destruct (top (tasks q)) as [u|] eqn:Et.
  - destruct (top_earliest _ _ Et) as [Hin Hu].
    destruct (Z.ltb_spec (clock (reads q) + d) (deadline u)) as [Hlt|Hge]; split_and!; try done.
    + split; [|done]. intros _ v Hv. specialize (Hu v Hv). lia.
    + split; [done|]. intros H. specialize (H u Hin). lia.
    + intros _. by exists u.
  - rewrite (top_none _ Et). split_and!; try done. by split; [intros _ v ?%elem_of_nil|].
Qed.

(** [execute_ready] tells when the next task is due, if there is one. *)
Lemma execute_ready_hint fuel max q done w q' :
  execute_ready fuel max q = Some (done, w, q') →
  (tasks q' = [] ∧ w = (0, false))
  ∨ ∃ t now, earliest (tasks q') t ∧ w = (Z.max 0 (deadline t - now), true).
Proof.
  unfold execute_ready. destruct (read_clock q) as [now q0].
  destruct (execute_loop _ _ _ _) as [[[d n] q1]|]; [|done]. cbn. intros [= _ <- <-]. cbn [tasks set_omit].
  destruct (top (tasks q1)) as [t|] eqn:Et; [right|left; split; [by apply top_none|done]].
  exists t, n. split; [by apply top_earliest|]. destruct (Z.ltb_spec n (deadline t)); f_equal; lia.
Qed.
End scheduler.

(** ** Private queues

    A private queue posts to a queue that outlives it; what it posts checks a control block that its
    destructor clears.  A worker queue posts jobs to one queue, and the progress they report to
    another. *)

Section private_queues.
Context {T : Type}.

(** [scheduler/src/private_queue.cpp:31-39] private_queue::control_block; a control block is named by
    a number, [alive] holds those whose owner exists *)
Record apartment := mk_apartment { alive : gset nat; posted : list (nat * T) }.

(** [scheduler/src/private_queue.cpp:52-54] private_queue::private_queue *)
Definition new_private (cb : nat) (a : apartment) : apartment :=
  mk_apartment ({[cb]} ∪ alive a) (posted a).

(** [scheduler/src/private_queue.cpp:56-60] private_queue::~private_queue *)
Definition destroy_private (cb : nat) (a : apartment) : apartment :=
  mk_apartment (alive a ∖ {[cb]}) (posted a).

(** [scheduler/src/private_queue.cpp:62-74] private_queue::schedule *)
Definition private_schedule (cb : nat) (x : T) (a : apartment) : apartment :=
  mk_apartment (alive a) (posted a ++ [(cb, x)]).

(** The underlying queue runs what was captured: the task, when its owner is alive. *)
(** [scheduler/src/private_queue.cpp:65-70] private_queue::schedule *)
Definition run_posted (a : apartment) : option T * apartment :=
  match posted a with
  | [] => (None, a)
  | (cb, x) :: rest =>
      (if decide (cb ∈ alive a) then Some x else None, mk_apartment (alive a) rest)
  end.

Fixpoint run_all (n : nat) (a : apartment) : list T :=
  match n with
  | O => []
  | S n => let '(r, a') := run_posted a in
           match r with Some x => x :: run_all n a' | None => run_all n a' end
  end.

Lemma run_all_spec n : ∀ a, run_all n a =
  map snd (filter (λ p, p.1 ∈ alive a) (take n (posted a))).
Proof.
  induction n as [|n IH]; intros a; [done|]. simpl. unfold run_posted.
  destruct (posted a) as [|[cb x] rest] eqn:E.
  - rewrite IH, E. by rewrite take_nil.
  - cbn [take]. destruct (decide (cb ∈ alive a)).
    + rewrite filter_cons_True by done. simpl. by rewrite IH.
    + rewrite filter_cons_False by done. by rewrite IH.
Qed.

(** A private queue that is gone runs nothing more: whatever it had posted is skipped when its turn
    comes, while the tasks of the other owners still run, in their order. *)
Theorem destroyed_queue_silent cb n a :
  run_all n (destroy_private cb a)
  = map snd (filter (λ p, p.1 ≠ cb ∧ p.1 ∈ alive a) (take n (posted a))).
Proof.
  rewrite run_all_spec. simpl. f_equal. apply list_filter_iff. intros [c x]; simpl.
  rewrite elem_of_difference, elem_of_singleton. tauto.
Qed.
End private_queues.

(** ** Witnesses *)

Definition demo_clock (k : nat) : Z := Z.of_nat k * 5.
Definition demo_spawn (x : Z) : list (Z * Z) := if x =? 1 then [(2, 0)] else [].
Definition demo_tasks : task_queue :=
  schedule_all demo_clock [(9, 100); (1, 0); (3, 0)] new_tasks.

Example demo_order :
  (λ '(d, w, _), (map task d, w)) <$> execute_ready demo_clock demo_spawn 10 1000 demo_tasks
  = Some ([1; 3; 2], (65, true)).
Proof. vm_compute. reflexivity. Qed.

Lemma execute_ready_returns_witness :
  ∃ r, execute_ready demo_clock demo_spawn 202 1000 demo_tasks = Some r.
Proof.
  apply (execute_ready_returns demo_clock demo_spawn 203 1000 demo_tasks).
  intros k Hk. unfold demo_clock. vm_compute reads. lia.
Defined.

Lemma schedule_notifies_witness :
  let '((delay, notify), q') := schedule demo_clock 5 (-40) demo_tasks in
  (notify = true ↔ ∀ u, u ∈ tasks demo_tasks → demo_clock (reads demo_tasks) + -40 < deadline u)
  ∧ (notify = true → delay = -40 ∧ ready_event q' = true)
  ∧ (notify = false → ∃ u, u ∈ tasks demo_tasks
      ∧ deadline u ≤ demo_clock (reads demo_tasks) + -40).
Proof. by apply (schedule_notifies demo_clock 5 (-40) demo_tasks). Defined.

Definition demo_ran : list (deadlined_task (T := Z)) * Z * task_queue :=
  default ([], 0, new_tasks)
    (execute_loop demo_clock demo_spawn 10 1000 15 demo_tasks).

Lemma execute_ready_order_witness :
  deadline (mk_task 1 5 1) ≤ 15 < 1000
  ∧ ∃ rest, tasks demo_tasks ≡ₚ mk_task 1 5 1 :: rest
    ∧ Forall (λ u, 5 < deadline u ∨ (5 = deadline u ∧ 1 ≤ order u)) rest.
Proof.
  apply (execute_ready_order demo_clock demo_spawn 10 1000 15 demo_tasks (mk_task 1 5 1)
    (tail demo_ran.1.1) demo_ran.1.2 demo_ran.2).
  vm_compute. reflexivity.
Defined.
