(* ===== verification/Sessions.v ===== *)
(** Remote sessions (src/ipc/client_session.h and .cpp, server_session.h and .cpp): requests carry a
    token, responses carry it back, and the client finds by it whom to call.

    The archive format (strmd, not in the repository) is an interface: what is put is read back.
    Callbacks, handlers and continuations are values of abstract types; a handler answers with the
    responses it sends and, when it defers, a continuation. *)

From S2P Require Import Prelude.
Local Open Scope Z_scope.

(** The part of the archive the sessions themselves use: [int] ids and 64-bit tokens. *)
Class archive := {
  put_id : Z → list Z;
  get_id : list Z → result (Z * list Z);
  put_token : Z → list Z;
  get_token : list Z → result (Z * list Z);
  id_roundtrip i rest : in_s 32 i → get_id (put_id i ++ rest) = Ret (i, rest);
  token_roundtrip t rest : in_u 64 t → get_token (put_token t ++ rest) = Ret (t, rest)
}.

Section client.
Context `{AR : archive} {C : Type}.

(** [ipc/client_session.h:33-81] client_session *)
Record client_session := mk_client {
  token : Z;
  callbacks : gmap (Z * Z) C;        (* by response id and token *)
  message_callbacks : gmap Z C
}.

(** [ipc/client_session.h:85-89] client_session::client_session *)
Definition new_client : client_session := mk_client 1 ∅ ∅.

(** What a handle keeps alive: entries of the two maps. *)
Inductive entry := e_message (id : Z) | e_response (id token : Z).

(** [ipc/client_session.h:91-99] client_session::subscribe: the handle names the entry, also when it
    was there before *)
Definition subscribe (id : Z) (cb : C) (c : client_session) : entry * client_session :=
  (e_message id,
   mk_client (token c) (callbacks c)
     (match message_callbacks c !! id with
      | Some _ => message_callbacks c
      | None => <[id := cb]> (message_callbacks c)
      end)).

(** [ipc/client_session.h:136-150] client_session::request_internal: the message, the token *)
Definition request_internal (id : Z) (payload : list Z) (c : client_session)
    : list Z * Z * client_session :=
  (put_id id ++ put_token (token c) ++ payload, token c,
   mk_client (u64 (token c + 1)) (callbacks c) (message_callbacks c)).

(** [ipc/client_session.h:117-133] client_session::request: one entry *)
Definition add_callback (tok : Z) (r : Z * C) (c : client_session) : client_session :=
  mk_client (token c)
    (match callbacks c !! (r.1, tok) with
     | Some _ => callbacks c
     | None => <[(r.1, tok) := r.2]> (callbacks c)
     end) (message_callbacks c).

(** [ipc/client_session.h:101-111] client_session::request *)
Definition request (id : Z) (payload : list Z) (response_id : Z) (cb : C) (c : client_session)
    : list Z * entry * client_session :=
  let '(bytes, tok, c') := request_internal id payload c in
  (bytes, e_response response_id tok, add_callback tok (response_id, cb) c').

(** [ipc/client_session.h:113-134] client_session::request, with a callback per response *)
Definition request_multi (id : Z) (payload : list Z) (cbs : list (Z * C)) (c : client_session)
    : list Z * list entry * client_session :=
  let '(bytes, tok, c') := request_internal id payload c in
  (bytes, map (λ r, e_response r.1 tok) cbs, foldl (λ c r, add_callback tok r c) c' cbs).

(** Releasing a handle erases its entry; an entry that is gone already is an invalid iterator. *)
(** [ipc/client_session.h:109-109] client_session::request *)
Definition release (e : entry) (c : client_session) : result client_session :=
  match e with
  | e_message id =>
      match message_callbacks c !! id with
      | Some _ => Ret (mk_client (token c) (callbacks c) (delete id (message_callbacks c)))
      | None => UB
      end
  | e_response id tok =>
      match callbacks c !! (id, tok) with
      | Some _ => Ret (mk_client (token c) (delete (id, tok) (callbacks c)) (message_callbacks c))
      | None => UB
      end
  end.

(** [ipc/src/client_session.cpp:46-72] client_session::message: the callback that is run and what is
    left for it to read *)
Definition message (payload : list Z) (c : client_session) : result (option (C * list Z)) :=
  '(response_id, rest) ← get_id payload;
  match message_callbacks c !! response_id with
  | Some cb => Ret (Some (cb, rest))
  | None =>
      if existsb (λ k, fst k =? response_id) (map fst (map_to_list (callbacks c)))
      then
        '(tok, rest) ← get_token rest;
        Ret (match callbacks c !! (response_id, tok) with
             | Some cb => Some (cb, rest)
             | None => None
             end)
      else Ret None
  end.

(** Tokens in use are older than the next one. *)
Definition client_ok (c : client_session) : Prop :=
  in_u 64 (token c) ∧ ∀ id t cb, callbacks c !! (id, t) = Some cb → 0 ≤ t < token c.

Lemma has_response c id t cb : callbacks c !! (id, t) = Some cb →
  existsb (λ k, fst k =? id) (map fst (map_to_list (callbacks c))) = true.
Proof.
  intros Hl. apply existsb_exists. exists (id, t). split; [|apply Z.eqb_refl].
  apply list_elem_of_In, list_elem_of_fmap. exists ((id, t), cb).
  split; [done|by apply elem_of_map_to_list].
Qed.

(** A response as the server writes it. *)
Definition reply (tok : Z) (r : Z * list Z) : list Z := put_id r.1 ++ put_token tok ++ r.2.

Lemma message_reply c tok id body :
  in_s 32 id → in_u 64 tok → message_callbacks c !! id = None →
  message (reply tok (id, body)) c =
    Ret (match callbacks c !! (id, tok) with Some cb => Some (cb, body) | None => None end).
Proof.
  intros Hi Ht Hm. unfold message, reply. rewrite id_roundtrip by done. cbn [mbind result_bind fst snd].
  rewrite Hm. destruct (callbacks c !! (id, tok)) as [cb|] eqn:E.
  - rewrite (has_response _ _ _ _ E), token_roundtrip by done. cbn. by rewrite E.
  - destruct (existsb _ _); [|done]. rewrite token_roundtrip by done. cbn. by rewrite E.
Qed.
End client.

Section server.
Context `{AR : archive} {H K : Type}.
(** What a handler (a continuation) does: the responses it sends, and whether it defers. *)
Context (handle : H → list Z → list (Z * list Z) * option K).
Context (continue : K → list (Z * list Z) * option K).

(** [ipc/server_session.h:36-71] server_session *)
Record server_session := mk_server {
  handlers : gmap Z H;
  has_queue : bool;                (* [_apartment_queue] *)
  queued : list (Z * K);           (* continuations posted to it, oldest first *)
  outbound : list (list Z)
}.

(** [ipc/src/server_session.cpp:29-31] server_session::server_session *)
Definition new_server (apartment : bool) : server_session := mk_server ∅ apartment [] [].

(** [ipc/server_session.h:127-132] server_session::add_handler *)
Definition add_handler (id : Z) (h : H) (s : server_session) : server_session :=
  mk_server (<[id := h]> (handlers s)) (has_queue s) (queued s) (outbound s).

(** [ipc/server_session.h:134-145] server_session::message; the buffer is cleared by its writer *)
Definition send (message_id : Z) (body : list Z) (s : server_session) : server_session :=
  mk_server (handlers s) (has_queue s) (queued s) (outbound s ++ [put_id message_id ++ body]).

(** [ipc/server_session.h:148-162] server_session::response::respond *)
Definition respond (tok : Z) (r : Z * list Z) (s : server_session) : server_session :=
  send r.1 (put_token tok ++ r.2) s.

(** [ipc/src/server_session.cpp:81-86] server_session::response::defer, and the posting of what was
    deferred *)
Definition schedule_continuation (tok : Z) (k : option K) (s : server_session)
    : result server_session :=
  match k with
  | None => Ret s
  | Some k =>
      if has_queue s
      then Ret (mk_server (handlers s) (has_queue s) (queued s ++ [(tok, k)]) (outbound s))
      else Throw logic_error
  end.

(** [ipc/src/server_session.cpp:42-62] server_session::message *)
Definition serve (payload : list Z) (s : server_session) : result server_session :=
  '(request_id, rest) ← get_id payload;
  '(tok, body) ← get_token rest;
  match handlers s !! request_id with
  | None => Ret s
  | Some h =>
      let '(responses, k) := handle h body in
      schedule_continuation tok k (foldl (λ s r, respond tok r s) s responses)
  end.

(** [ipc/src/server_session.cpp:64-74] server_session::schedule_continuation: the posted task *)
Definition run_continuation (s : server_session) : result server_session :=
  match queued s with
  | [] => Ret s
  | (tok, k) :: rest =>
      let s := mk_server (handlers s) (has_queue s) rest (outbound s) in
      let '(responses, k') := continue k in
      schedule_continuation tok k' (foldl (λ s r, respond tok r s) s responses)
  end.

Lemma respond_all tok rs : ∀ s, foldl (λ s r, respond tok r s) s rs =
  mk_server (handlers s) (has_queue s) (queued s) (outbound s ++ map (reply tok) rs).
Proof.
  induction rs as [|r rs IH]; intros s; simpl; [by rewrite app_nil_r; destruct s|].
  rewrite IH. unfold respond, send. simpl. by rewrite <- app_assoc.
Qed.

Lemma schedule_continuation_outbound tok k s s' :
  schedule_continuation tok k s = Ret s' →
  outbound s' = outbound s
  ∧ queued s' = queued s ++ match k with Some k => [(tok, k)] | None => [] end.
Proof.
  unfold schedule_continuation. destruct k; [|intros [= <-]; by rewrite app_nil_r].
  destruct (has_queue s); [|done]. by intros [= <-].
Qed.

(** The client's request reaches the handler of its id, and every response goes out under its token. *)
Lemma serve_request {C} id payload (c : client_session (C := C)) s s' h :
  in_s 32 id → in_u 64 (token c) → handlers s !! id = Some h →
  serve (request_internal id payload c).1.1 s = Ret s' →
  outbound s' = outbound s ++ map (reply (token c)) (handle h payload).1
  ∧ queued s' = queued s ++ match (handle h payload).2 with Some k => [(token c, k)] | None => [] end.
Proof.
  intros Hi Ht Hh. unfold serve, request_internal. cbn [fst].
  rewrite id_roundtrip by done. cbn. rewrite token_roundtrip by done. cbn. rewrite Hh.
  destruct (handle h payload) as [rs k]. rewrite respond_all. intros Hs.
  by apply schedule_continuation_outbound in Hs.
Qed.

Lemma run_continuation_spec s tok k rest s' :
  queued s = (tok, k) :: rest → run_continuation s = Ret s' →
  outbound s' = outbound s ++ map (reply tok) (continue k).1
  ∧ queued s' = rest ++ match (continue k).2 with Some k => [(tok, k)] | None => [] end.
Proof.
  intros Hq. unfold run_continuation. rewrite Hq. destruct (continue k) as [rs k'].
  rewrite respond_all. intros Hs. by apply schedule_continuation_outbound in Hs.
Qed.
End server.

(** ** Both ends *)

Section both.
Context `{AR : archive} {C H K : Type}.
Context (handle : H → list Z → list (Z * list Z) * option K).
Context (continue : K → list (Z * list Z) * option K).

Implicit Types c : client_session (C := C).

Lemma request_callback id payload rid cb c :
  client_ok c → token c < 2 ^ 64 - 1 →
  let '(bytes, e, c') := request id payload rid cb c in
  bytes = (request_internal id payload c).1.1 ∧ e = e_response rid (token c)
  ∧ callbacks c' !! (rid, token c) = Some cb ∧ message_callbacks c' = message_callbacks c
  ∧ client_ok c'.
Proof.
  intros [Ht Hc] Hn. unfold request, request_internal, add_callback. simpl.
  assert (Hnone : callbacks c !! (rid, token c) = None).
  { destruct (callbacks c !! (rid, token c)) as [x|] eqn:E; [|done]. specialize (Hc _ _ _ E). lia. }
  rewrite Hnone, lookup_insert_eq. split_and!; [done..|].
  unfold in_u in Ht. split; simpl; [apply uw_range; lia|]. rewrite uw_small by (unfold in_u; lia).
  intros i t x. destruct (decide ((i, t) = (rid, token c))) as [[= -> ->]|].
  - lia.
  - rewrite lookup_insert_ne by done. intros Hl. specialize (Hc _ _ _ Hl). lia.
Qed.

(** A response finds the request it answers: when a client's request is served, every response
    that comes back under the awaited id runs exactly the callback given with that request, on exactly the data the
    handler sent, and any other response id that nobody waits for is ignored. *)
Theorem served_response_found id payload rid cb c s s' h m r :
  client_ok c → token c < 2 ^ 64 - 1 → in_s 32 id →
  handlers s !! id = Some h → message_callbacks c !! r.1 = None → in_s 32 r.1 →
  let '(bytes, e, c') := request id payload rid cb c in
  serve handle bytes s = Ret s' →
  r ∈ (handle h payload).1 → m = reply (token c) r →
  m ∈ outbound s'
  ∧ message m c' = Ret (if decide (r.1 = rid) then Some (cb, r.2)
      else match callbacks c !! (r.1, token c) with Some x => Some (x, r.2) | None => None end).
Proof.
  intros Hok Hn Hi Hh Hm Hr.
  pose proof (request_callback id payload rid cb c Hok Hn) as Hreq.
  unfold request in *. destruct (request_internal id payload c) as [[bytes tok] c1] eqn:E.
  destruct Hreq as (_ & _ & Hcb & Hmc & Hok').
  intros Hs Hin ->. destruct Hok as [Ht Hc].
  assert (bytes = (request_internal id payload c).1.1) as Hb by by rewrite E.
  unfold request_internal in E. injection E as _ <- <-.
  rewrite Hb in Hs. destruct (serve_request handle id payload c s s' h Hi Ht Hh Hs) as [Ho _].
  split.
  { rewrite Ho. apply elem_of_app. right. apply list_elem_of_fmap. by exists r. }
  destruct r as [ri body]; simpl in *. rewrite message_reply; [|done..]. unfold add_callback; simpl.
  case_decide as Hd; [subst ri; by rewrite Hcb|].
  destruct (callbacks c !! (rid, token c)); simpl; [done|]. by rewrite lookup_insert_ne by congruence.
Qed.

(** A response to a request that was given up is harmless: after its handle was released, the client
    reads the response's token and drops it, whoever else waits for the same response id. *)
Theorem released_request_ignored id payload rid cb c body :
  client_ok c → token c < 2 ^ 64 - 1 → in_s 32 rid → message_callbacks c !! rid = None →
  let '(bytes, e, c') := request id payload rid cb c in
  ∃ c'', release e c' = Ret c'' ∧ message (reply (token c) (rid, body)) c'' = Ret None
    ∧ callbacks c'' = callbacks c.
Proof.
  intros Hok Hn Hr Hm. pose proof (request_callback id payload rid cb c Hok Hn) as Hreq.
  destruct Hok as [Ht Hc]. unfold request, request_internal, add_callback in *. simpl in *.
  assert (Hnone : callbacks c !! (rid, token c) = None).
  { destruct (callbacks c !! (rid, token c)) as [x|] eqn:E; [|done]. specialize (Hc _ _ _ E). lia. }
  rewrite Hnone in *. rewrite lookup_insert_eq. eexists. split; [done|].
  rewrite message_reply by done. simpl. rewrite lookup_delete_eq. split; [done|].
  by apply delete_insert_id.
Qed.

(** Subscribing to a message twice breaks the first subscription: the second callback is never
    installed, its handle names the first one's entry, and releasing both handles erases an entry
    that is gone. *)
Theorem double_subscription id (a b : C) c :
  message_callbacks c !! id = None →
  let '(e1, c1) := subscribe id a c in
  let '(e2, c2) := subscribe id b c1 in
  message_callbacks c2 !! id = Some a
  ∧ ∃ c3, release e2 c2 = Ret c3 ∧ message_callbacks c3 !! id = None ∧ release e1 c3 = UB.
Proof.
  intros Hn. unfold subscribe. rewrite Hn. simpl. rewrite lookup_insert_eq. split.
  - apply lookup_insert_eq.
  - rewrite lookup_insert_eq. eexists. split; [done|]. simpl. by rewrite lookup_delete_eq.
Qed.
End both.

(** ** Witnesses: an archive of one number per field *)

#[export, refine] Instance plain_archive : archive :=
  {| put_id i := [i]; get_id l := match l with i :: l => Ret (i, l) | [] => Throw runtime_error end;
     put_token t := [t]; get_token l := match l with t :: l => Ret (t, l) | [] => Throw runtime_error end |}.
Proof. all: done. Defined.

Definition demo_handle (h : Z) (payload : list Z) : list (Z * list Z) * option Z :=
  ([(h, payload); (h + 1, [0])], Some 5).

Definition demo_client : client_session (C := string) :=
  (request 1 [2] 20 "first" (subscribe 30 "event" new_client).2).2.

Definition demo_server : server_session (H := Z) (K := Z) := add_handler 7 40 (new_server true).

Definition demo_served : server_session (H := Z) (K := Z) :=
  match serve demo_handle (request 7 [10; 11] 40 "answer" demo_client).1.1 demo_server with
  | Ret s => s
  | _ => demo_server
  end.

Lemma demo_client_ok : client_ok demo_client.
Proof.
  split; [done|]. intros id t cb. vm_compute callbacks.
  intros H. assert (Hin : (id, t, cb) ∈ map_to_list ({[(20, 1) := "first"]} : gmap (Z * Z) string))
    by by apply elem_of_map_to_list.
  rewrite map_to_list_singleton in Hin. apply list_elem_of_singleton in Hin.
  injection Hin as -> -> ->. change (token demo_client) with 2. lia.
Qed.

Lemma served_response_found_witness :
  [40; 2; 10; 11] ∈ outbound demo_served
  ∧ message [40; 2; 10; 11] (request 7 [10; 11] 40 "answer" demo_client).2
    = Ret (if decide (40 = 40) then Some ("answer", [10; 11])
      else match callbacks demo_client !! (40, 2) with Some x => Some (x, [10; 11]) | None => None end).
Proof.
  apply (served_response_found demo_handle 7 [10; 11] 40 "answer" demo_client demo_server
    demo_served 40 [40; 2; 10; 11] (40, [10; 11]));
    [exact demo_client_ok|done|done|done|done|done|by vm_compute|by left|done].
Defined.

Lemma released_request_ignored_witness : ∃ c'',
  release (e_response 20 2) (request 7 [10] 20 "second" demo_client).2 = Ret c''
  ∧ message (reply 2 (20, [1])) c'' = Ret None ∧ callbacks c'' = callbacks demo_client.
Proof.
  apply (released_request_ignored 7 [10] 20 "second" demo_client [1]);
    [exact demo_client_ok|done..].
Defined.

Lemma double_subscription_witness :
  let '(e1, c1) := subscribe 5 "a" demo_client in
  let '(e2, c2) := subscribe 5 "b" c1 in
  message_callbacks c2 !! 5 = Some "a"
  ∧ ∃ c3, release e2 c2 = Ret c3 ∧ message_callbacks c3 !! 5 = None ∧ release e1 c3 = UB.
Proof. by apply (double_subscription 5 "a" "b" demo_client). Defined.
