(* ===== verification/Conversation.v ===== *)
(** A client and a server that talk (src/ipc/client_session.h, server_session.h).

    The two ends of [Sessions] and the channel between them, which hands messages over in their order: requests are
    made and given up, served, continued later and answered, in any interleaving. *)

From S2P Require Import Prelude Sessions.
Local Open Scope Z_scope.

Section conversation.
Context `{AR : archive} {H K : Type}.
Context (handle : H → list Z → list (Z * list Z) * option K).
Context (continue : K → list (Z * list Z) * option K).

(** The callback of a request is its place among the requests; a request that was made is kept with its handle. *)
Record conversation := mk_conversation {
  cv_client : client_session (C := nat);
  cv_server : server_session (H := H) (K := K);
  cv_sent : list (list Z);
  cv_made : list (Z * list Z * Z * entry);
  cv_called : list (nat * list Z);
  cv_released : list nat
}.

Definition new_conversation (hs : gmap Z H) : conversation :=
  mk_conversation new_client (mk_server hs true [] []) [] [] [] [].

(** What can happen next: a request is made, its handle is let go, the server takes the first message on its way, or
    runs the first continuation, or the client takes the first message on its way back. *)
Inductive talk :=
  | t_request (id : Z) (payload : list Z) (response_id : Z)
  | t_release (n : nat)
  | t_serve
  | t_continue
  | t_hear.

Definition talk_step (s : conversation) (t : talk) : result conversation :=
  match t with
  | t_request id payload rid =>
    let '(bytes, e, c) := request id payload rid (length (cv_made s)) (cv_client s) in
    Ret (mk_conversation c (cv_server s) (cv_sent s ++ [bytes]) (cv_made s ++ [(id, payload, rid, e)]) (cv_called s) (cv_released s))
  | t_release n =>
    match cv_made s !! n with
    | Some (_, e) =>
      if bool_decide (n ∈ cv_released s) then Ret s
      else
        c ← release e (cv_client s);
        Ret (mk_conversation c (cv_server s) (cv_sent s) (cv_made s) (cv_called s) (n :: cv_released s))
    | None => Ret s
    end
  | t_serve =>
    match cv_sent s with
    | [] => Ret s
    | m :: sent =>
      server ← serve handle m (cv_server s);
      Ret (mk_conversation (cv_client s) server sent (cv_made s) (cv_called s) (cv_released s))
    end
  | t_continue =>
    server ← run_continuation continue (cv_server s);
    Ret (mk_conversation (cv_client s) server (cv_sent s) (cv_made s) (cv_called s) (cv_released s))
  | t_hear =>
    match outbound (cv_server s) with
    | [] => Ret s
    | m :: rest =>
      r ← message m (cv_client s);
      Ret (mk_conversation (cv_client s) (mk_server (handlers (cv_server s)) (has_queue (cv_server s)) (queued (cv_server s)) rest)
        (cv_sent s) (cv_made s) (cv_called s ++ (match r with Some x => [x] | None => [] end)) (cv_released s))
    end
  end.

(** What has been sent for a request by its handler and the continuations that have run, and what is deferred. *)
Inductive carried (h : H) (payload : list Z) : list (Z * list Z) → option K → Prop :=
  | carried_served : carried h payload (handle h payload).1 (handle h payload).2
  | carried_continued rs k : carried h payload rs (Some k) → carried h payload (rs ++ (continue k).1) (continue k).2.

(** The data that come under an identifier; what a callback was run on. *)
Definition bodies (rid : Z) (rs : list (Z * list Z)) : list (list Z) := (filter (λ r, r.1 = rid) rs).*2.
Definition of_request {A} (n : nat) (l : list (nat * A)) : list A := (filter (λ x, x.1 = n) l).*2.
Definition calls (s : conversation) (n : nat) : list (list Z) := of_request n (cv_called s).

(** The identifiers of responses fit their type. *)
Definition ids_fit (o : list (Z * list Z) * option K) : Prop := Forall (λ r, in_s 32 r.1) o.1.
Definition talk_fits (t : talk) : Prop := match t with t_request id _ _ => in_s 32 id | _ => True end.

Lemma bodies_app rid a b : bodies rid (a ++ b) = bodies rid a ++ bodies rid b.
Proof using Type. unfold bodies. by rewrite filter_app, fmap_app. Qed.

Lemma of_request_app {A} n (a b : list (nat * A)) : of_request n (a ++ b) = of_request n a ++ of_request n b.
Proof using Type. unfold of_request. by rewrite filter_app, fmap_app. Qed.

Lemma of_request_cons {A} n m (x : A) l : of_request n ((m, x) :: l) = if decide (m = n) then x :: of_request n l else of_request n l.
Proof using Type. unfold of_request. rewrite filter_cons. simpl. by case_decide. Qed.

Lemma of_request_all {A} n m (l : list A) : of_request n (pair m <$> l) = if decide (m = n) then l else [].
Proof using Type.
  induction l as [|x l IH]; [by case_decide|]. rewrite fmap_cons, of_request_cons, IH. by case_decide.
Qed.

(** ** The invariant *)

(** How far a request is: [out] are the responses on their way, [waiting] the continuations that are posted. *)
Definition request_ok (s : conversation) (out : list (nat * (Z * list Z))) (waiting : list (nat * K)) (h : option H)
    (payload : list Z) (rid : Z) (n : nat) : Prop :=
  match h with
  | None => of_request n out = [] ∧ of_request n waiting = [] ∧ calls s n = []
  | Some h => ∃ rs k, carried h payload rs k ∧ of_request n waiting = option_list k ∧
      if decide (n ∈ cv_released s) then calls s n `prefix_of` bodies rid rs
      else calls s n ++ bodies rid (of_request n out) = bodies rid rs
  end.

Record conversation_ok (hs : gmap Z H) (s : conversation) (served : nat) (out : list (nat * (Z * list Z)))
    (waiting : list (nat * K)) : Prop := {
  cok_handlers : handlers (cv_server s) = hs ∧ has_queue (cv_server s) = true;
  cok_client : token (cv_client s) = len (cv_made s) + 1 ∧ message_callbacks (cv_client s) = ∅;
  cok_callbacks : ∀ rid tok n, callbacks (cv_client s) !! (rid, tok) = Some n ↔
    tok = Z.of_nat n + 1 ∧ n ∉ cv_released s ∧ ∃ id p e, cv_made s !! n = Some (id, p, rid, e);
  cok_made : ∀ n id p rid e, cv_made s !! n = Some (id, p, rid, e) → e = e_response rid (Z.of_nat n + 1) ∧ in_s 32 id;
  cok_sent : Forall2 (λ n m, ∃ id p rid e, cv_made s !! n = Some (id, p, rid, e) ∧ m = put_id id ++ put_token (Z.of_nat n + 1) ++ p)
    (seq served (length (cv_made s) - served)) (cv_sent s);
  cok_served : (served ≤ length (cv_made s))%nat;
  cok_released : ∀ n, n ∈ cv_released s → (n < length (cv_made s))%nat;
  cok_out : outbound (cv_server s) = (λ x, reply (Z.of_nat x.1 + 1) x.2) <$> out ∧ Forall (λ x, in_s 32 x.2.1) out;
  cok_waiting : queued (cv_server s) = (λ x, (Z.of_nat x.1 + 1, x.2)) <$> waiting;
  cok_new : ∀ n, (served ≤ n)%nat → of_request n out = [] ∧ of_request n waiting = [] ∧ calls s n = [];
  cok_old : ∀ n id p rid e, (n < served)%nat → cv_made s !! n = Some (id, p, rid, e) → request_ok s out waiting (hs !! id) p rid n
}.

Context (Hhandle : ∀ h p, ids_fit (handle h p)) (Hcontinue : ∀ k, ids_fit (continue k)).

Lemma new_conversation_ok hs : conversation_ok hs (new_conversation hs) 0 [] [].
Proof using Type.
  split; cbn; try done.
  - intros rid tok n. rewrite lookup_empty. split; [done|]. intros (_ & _ & id & p & e & Hn). done.
  - intros n Hn. by apply not_elem_of_nil in Hn.
Qed.

Lemma made_token hs s served out waiting n x : conversation_ok hs s served out waiting → len (cv_made s) < 2 ^ 64 - 1 →
  cv_made s !! n = Some x → in_u 64 (Z.of_nat n + 1).
Proof using Type. intros _ Hl Hn. apply lookup_lt_Some in Hn. unfold in_u. lia. Qed.

Lemma talk_request_ok hs s served out waiting id payload rid :
  conversation_ok hs s served out waiting → len (cv_made s) + 1 < 2 ^ 64 - 1 → in_s 32 id →
  ∃ s', talk_step s (t_request id payload rid) = Ret s' ∧ length (cv_made s') = S (length (cv_made s)) ∧
    conversation_ok hs s' served out waiting.
Proof using Type.
  intros [Hh [Ht Hm] Hc Hmade Hsent Hle Hrel Hout Hw Hnew Hold] Hl Hid. cbn [talk_step]. unfold request, request_internal.
  eexists. split; [done|]. cbn. split; [rewrite length_app; simpl; lia|].
  assert (∀ n x, cv_made s !! n = Some x → ∀ y, (cv_made s ++ [y]) !! n = Some x) as Hup
    by (intros n x Hn y; by apply lookup_app_l_Some).
  assert (callbacks (cv_client s) !! (rid, token (cv_client s)) = None) as Hnone.
  { destruct (callbacks (cv_client s) !! _) as [n|] eqn:E; [|done]. apply Hc in E as (E & _ & ? & ? & ? & Hn).
    apply lookup_lt_Some in Hn. lia. }
  split; cbn; try done.
  - rewrite Ht, length_app, uw_small by (unfold in_u; lia). simpl. split; [lia|done].
  - intros rid' tok n. rewrite Hnone. destruct (decide ((rid', tok) = (rid, token (cv_client s)))) as [[= -> ->]|Hne].
    + rewrite lookup_insert_eq. split.
      * intros [= <-]. split; [lia|]. split; [intros Hr%Hrel; lia|]. do 3 eexists. by apply list_lookup_middle.
      * intros (Htok & _). f_equal. lia.
    + rewrite lookup_insert_ne by congruence. rewrite Hc. split; intros (Htok & Hr & ? & ? & ? & Hn); (split; [done|]; split; [done|]).
      * do 3 eexists. by apply Hup.
      * apply lookup_app_Some in Hn as [Hn|[Hge Hn]]; [by do 3 eexists|]. exfalso. apply Hne.
        apply list_lookup_singleton_Some in Hn as [Hz [= <- <- <- <-]]. f_equal. lia.
  - intros n id' p rid' e Hn. apply lookup_app_Some in Hn as [Hn|[Hge Hn]]; [by apply (Hmade _ _ p)|].
    apply list_lookup_singleton_Some in Hn as [Hz [= <- <- <- <-]]. split; [|done]. f_equal. lia.
  - rewrite length_app. cbn [length]. replace (length (cv_made s) + 1 - served)%nat with (S (length (cv_made s) - served)) by lia.
    rewrite seq_S. apply Forall2_app.
    + eapply Forall2_impl; [exact Hsent|]. intros n m (id' & p & rid' & e & Hn & ->). do 4 eexists. split; [by apply Hup|done].
    + constructor; [|constructor]. replace (served + (length (cv_made s) - served))%nat with (length (cv_made s)) by lia.
      do 4 eexists. split; [by apply list_lookup_middle|]. rewrite Ht. done.
  - rewrite length_app. lia.
  - intros n Hn. rewrite length_app. specialize (Hrel n Hn). lia.
  - intros n id' p rid' e Hn Hm'. apply lookup_app_Some in Hm' as [Hm'|[Hge _]]; [|lia].
    specialize (Hold _ _ _ _ _ Hn Hm'). done.
Qed.

Lemma talk_release_ok hs s served out waiting n :
  conversation_ok hs s served out waiting →
  ∃ s', talk_step s (t_release n) = Ret s' ∧ length (cv_made s') = length (cv_made s) ∧ conversation_ok hs s' served out waiting.
Proof using Type.
  intros Hok. pose proof Hok as [Hh [Ht Hm] Hc Hmade Hsent Hle Hrel Hout Hw Hnew Hold]. cbn [talk_step].
  destruct (cv_made s !! n) as [[[[id p] rid] e]|] eqn:En; [|by exists s]. case_bool_decide as Hr; [by exists s|].
  destruct (Hmade _ _ _ _ _ En) as [-> Hid]. cbn [release].
  assert (callbacks (cv_client s) !! (rid, Z.of_nat n + 1) = Some n) as Hcb by (apply Hc; eauto 7).
  rewrite Hcb. cbn [mbind result_bind]. eexists. split; [done|]. split; [done|]. split; cbn; try done.
  - intros rid' tok n'. destruct (decide ((rid', tok) = (rid, Z.of_nat n + 1))) as [[= -> ->]|Hne].
    + rewrite lookup_delete_eq. split; [done|]. intros (Htok & Hr' & _). exfalso. apply Hr'. replace n' with n by lia. by left.
    + rewrite lookup_delete_ne by congruence. rewrite Hc. rewrite not_elem_of_cons. split.
      * intros (Htok & Hr' & id' & p' & e' & Hn'). split; [done|]. split; [|by do 3 eexists]. split; [|done].
        intros ->. rewrite En in Hn'. injection Hn' as <- <- <- <-. by apply Hne; rewrite Htok.
      * intros (Htok & [_ Hr'] & Hx). done.
  - intros n' [->|Hn']%elem_of_cons; [by apply lookup_lt_Some in En|auto].
  - intros n' id' p' rid' e' Hn' Hm'. specialize (Hold _ _ _ _ _ Hn' Hm'). unfold request_ok in *. cbn [cv_released cv_called].
    destruct (hs !! id') as [h|]; [|done]. destruct Hold as (rs & k & Hrs & Hk & Hcalls). exists rs, k. split; [done|]. split; [done|].
    destruct (decide (n' ∈ n :: cv_released s)) as [Hin|Hin].
    + case_decide; [done|]. unfold calls in *. cbn [cv_called]. rewrite <- Hcalls. by apply prefix_app_r.
    + rewrite decide_False in Hcalls; [done|]. by apply not_elem_of_cons in Hin as [_ Hin].
Qed.

(** What a handler or a continuation of the request [n] does to the server. *)
Lemma answers_sent n o (s : server_session (H := H) (K := K)) out waiting : has_queue s = true → ids_fit o →
  outbound s = (λ x, reply (Z.of_nat x.1 + 1) x.2) <$> out → Forall (λ x : nat * (Z * list Z), in_s 32 x.2.1) out →
  queued s = (λ x, (Z.of_nat x.1 + 1, x.2)) <$> waiting →
  ∃ s', schedule_continuation (Z.of_nat n + 1) o.2 (foldl (λ s r, respond (Z.of_nat n + 1) r s) s o.1) = Ret s' ∧
    handlers s' = handlers s ∧ has_queue s' = true ∧
    (outbound s' = (λ x, reply (Z.of_nat x.1 + 1) x.2) <$> (out ++ (pair n <$> o.1)) ∧
      Forall (λ x : nat * (Z * list Z), in_s 32 x.2.1) (out ++ (pair n <$> o.1))) ∧
    queued s' = (λ x, (Z.of_nat x.1 + 1, x.2)) <$> (waiting ++ (pair n <$> option_list o.2)).
Proof using Type.
  intros Hq Hf Ho Hfit Hw. rewrite respond_all. unfold schedule_continuation.
  assert (map (reply (Z.of_nat n + 1)) o.1 = (λ x, reply (Z.of_nat x.1 + 1) x.2) <$> (pair n <$> o.1)) as E
    by (rewrite <- list_fmap_compose; done).
  assert (Forall (λ x : nat * (Z * list Z), in_s 32 x.2.1) (out ++ (pair n <$> o.1))) as Hfit'
    by (apply Forall_app; split; [done|]; by apply Forall_fmap).
  destruct (o.2) as [k|]; cbn [has_queue queued outbound handlers option_list fmap list_fmap]; rewrite ?Hq.
  - eexists. split; [done|]. cbn [has_queue queued outbound handlers]. rewrite Ho, Hw, E, !fmap_app. done.
  - eexists. split; [done|]. cbn [has_queue queued outbound handlers]. rewrite Ho, Hw, E, app_nil_r, !fmap_app. done.
Qed.

(** What does not concern a request leaves it as it is. *)
Lemma request_ok_frame s s' out out' waiting waiting' h p rid n :
  of_request n out' = of_request n out → of_request n waiting' = of_request n waiting → calls s' n = calls s n →
  cv_released s' = cv_released s → request_ok s out waiting h p rid n → request_ok s' out' waiting' h p rid n.
Proof using Type. unfold request_ok. by intros -> -> -> ->. Qed.

Lemma of_request_other {A} n m (l : list A) : m ≠ n → of_request n (pair m <$> l) = [].
Proof using Type. intros. rewrite of_request_all. by rewrite decide_False. Qed.
Lemma of_request_same {A} n (l : list A) : of_request n (pair n <$> l) = l.
Proof using Type. rewrite of_request_all. by rewrite decide_True. Qed.

Lemma talk_serve_ok hs s served out waiting :
  conversation_ok hs s served out waiting → len (cv_made s) < 2 ^ 64 - 1 →
  ∃ s' served' out' waiting', talk_step s t_serve = Ret s' ∧ length (cv_made s') = length (cv_made s) ∧
    conversation_ok hs s' served' out' waiting'.
Proof using Hhandle.
  intros Hok Hl. pose proof Hok as [[Hh Hq] Hcl Hc Hmade Hsent Hle Hrel [Hout Hfit] Hw Hnew Hold]. cbn [talk_step].
  destruct (cv_sent s) as [|m sent] eqn:Es; [by exists s, served, out, waiting|].
  destruct (length (cv_made s) - served)%nat as [|j] eqn:Ej; [by inversion Hsent|]. cbn [seq] in Hsent.
  apply Forall2_cons in Hsent as [(id & p & rid & e & Hm & ->) Hsent].
  pose proof (Hmade _ _ _ _ _ Hm) as [_ Hid]. pose proof (made_token _ _ _ _ _ _ _ Hok Hl Hm) as Htok.
  unfold serve. rewrite id_roundtrip by done. cbn [mbind result_bind]. rewrite token_roundtrip by done. cbn [mbind result_bind].
  rewrite Hh. destruct (Hnew served ltac:(lia)) as (Hn1 & Hn2 & Hn3).
  assert (∀ server out' waiting', handlers server = hs ∧ has_queue server = true →
    (outbound server = (λ x, reply (Z.of_nat x.1 + 1) x.2) <$> out' ∧ Forall (λ x, in_s 32 x.2.1) out') →
    queued server = (λ x, (Z.of_nat x.1 + 1, x.2)) <$> waiting' →
    (∀ n, n ≠ served → of_request n out' = of_request n out ∧ of_request n waiting' = of_request n waiting) →
    request_ok s out' waiting' (hs !! id) p rid served →
    conversation_ok hs (mk_conversation (cv_client s) server sent (cv_made s) (cv_called s) (cv_released s)) (S served) out' waiting')
    as Hdone.
  { intros server out' waiting' Hh' Ho' Hw' Hother Hthis. split; cbn; try done.
    - replace (length (cv_made s) - S served)%nat with j by lia. done.
    - apply lookup_lt_Some in Hm. lia.
    - intros n Hn. destruct (Hother n ltac:(lia)) as [-> ->]. apply Hnew. lia.
    - intros n id' p' rid' e' Hn Hm'. destruct (decide (n = served)) as [->|Hne].
      + rewrite Hm in Hm'. injection Hm' as <- <- <- <-. done.
      + destruct (Hother n Hne). eapply request_ok_frame; [done|done|done|done|]. eapply Hold; [lia|done]. }
  destruct (hs !! id) as [h|] eqn:Eh.
  - destruct (handle h p) as [rs k] eqn:Ehp. pose proof (Hhandle h p) as Hids. rewrite Ehp in Hids.
    destruct (answers_sent served (rs, k) (cv_server s) out waiting Hq Hids Hout Hfit Hw) as (server & E & E1 & E2 & E3 & E4).
    cbn [fst snd] in E, E3, E4. rewrite E. cbn [mbind result_bind]. do 4 eexists. split; [done|]. split; [done|].
    apply Hdone; [by rewrite E1|exact E3|exact E4| |].
    + intros n Hn. rewrite !of_request_app, !of_request_other, !app_nil_r by done. done.
    + exists rs, k. split; [|split].
      * pose proof (carried_served h p) as Hcs. by rewrite Ehp in Hcs.
      * by rewrite of_request_app, Hn2, of_request_same.
      * rewrite Hn3. rewrite of_request_app, Hn1, of_request_same. case_decide; [apply prefix_nil|done].
  - cbn [mbind result_bind]. do 4 eexists. split; [done|]. split; [done|]. by apply (Hdone _ out waiting).
Qed.

Lemma talk_continue_ok hs s served out waiting :
  conversation_ok hs s served out waiting →
  ∃ s' out' waiting', talk_step s t_continue = Ret s' ∧ length (cv_made s') = length (cv_made s) ∧
    conversation_ok hs s' served out' waiting'.
Proof using Hcontinue.
  intros Hok. pose proof Hok as [[Hh Hq] Hcl Hc Hmade Hsent Hle Hrel [Hout Hfit] Hw Hnew Hold]. cbn [talk_step].
  unfold run_continuation. rewrite Hw. destruct waiting as [|[n k] waiting]; [|rewrite fmap_cons].
  { cbn [fmap list_fmap]. exists s, out, []. split; [|done]. cbn [mbind result_bind]. by destruct s. }
  cbn [fst snd]. destruct (continue k) as [rs k'] eqn:Ek. pose proof (Hcontinue k) as Hids. rewrite Ek in Hids.
  destruct (answers_sent n (rs, k') (mk_server (handlers (cv_server s)) (has_queue (cv_server s))
    ((λ x, (Z.of_nat x.1 + 1, x.2)) <$> waiting) (outbound (cv_server s))) out waiting Hq Hids Hout Hfit eq_refl)
    as (server & E & E1 & E2 & E3 & E4).
  cbn [fst snd] in E, E3, E4. rewrite E. cbn [mbind result_bind]. do 3 eexists. split; [done|]. split; [done|].
  assert (n < served)%nat as Hn.
  { destruct (decide (served ≤ n)%nat) as [Hge|]; [|lia]. destruct (Hnew n Hge) as (_ & Hno & _).
    rewrite of_request_cons, decide_True in Hno by done. done. }
  split; cbn; try done.
  - rewrite E1. done.
  - intros n' Hge. specialize (Hnew n' Hge). rewrite of_request_cons, decide_False in Hnew by lia.
    rewrite !of_request_app, !of_request_other, !app_nil_r by lia. done.
  - intros n' id p rid e Hn' Hm. specialize (Hold _ _ _ _ _ Hn' Hm).
    destruct (decide (n' = n)) as [->|Hne].
    + unfold request_ok in *. rewrite of_request_cons, decide_True in Hold by done.
      destruct (hs !! id) as [h|]; [|by destruct Hold as (_ & ? & _)]. destruct Hold as (rs0 & k0 & Hrs & Hk & Hcalls).
      destruct k0 as [k0|]; [|done]. injection Hk as <- Hk. exists (rs0 ++ rs), k'.
      split; [pose proof (carried_continued h p rs0 k Hrs) as Hnext; by rewrite Ek in Hnext|].
      split; [by rewrite of_request_app, of_request_same, Hk|]. change (cv_released (mk_conversation _ _ _ _ _ _)) with (cv_released s).
      change (calls (mk_conversation _ _ _ _ _ _) n) with (calls s n). rewrite bodies_app. case_decide.
      * by apply prefix_app_r.
      * rewrite of_request_app, of_request_same, bodies_app, app_assoc. by rewrite Hcalls.
    + eapply request_ok_frame; [..|exact Hold]; [| |done|done].
      * by rewrite of_request_app, of_request_other, app_nil_r by done.
      * by rewrite of_request_app, of_request_other, app_nil_r, of_request_cons, decide_False by done.
Qed.

Lemma talk_hear_ok hs s served out waiting :
  conversation_ok hs s served out waiting → len (cv_made s) < 2 ^ 64 - 1 →
  ∃ s' out', talk_step s t_hear = Ret s' ∧ length (cv_made s') = length (cv_made s) ∧ conversation_ok hs s' served out' waiting.
Proof using Type.
  intros Hok Hl. pose proof Hok as [Hh [Ht Hm] Hc Hmade Hsent Hle Hrel [Hout Hfit] Hw Hnew Hold]. cbn [talk_step].
  rewrite Hout. destruct out as [|[n [ri body]] out]; cbn [fmap list_fmap]; [by exists s, []|]. cbn [fst snd].
  apply Forall_cons in Hfit as [Hri Hfit]. cbn [fst snd] in Hri.
  assert (n < served)%nat as Hn.
  { destruct (decide (served ≤ n)%nat) as [Hge|]; [|lia]. destruct (Hnew n Hge) as (Hno & _).
    rewrite of_request_cons, decide_True in Hno by done. done. }
  destruct (lookup_lt_is_Some_2 (cv_made s) n ltac:(lia)) as [[[[id p] rid] e] Hmn].
  rewrite message_reply; [|done|by eapply made_token|by rewrite Hm]. cbn [mbind result_bind].
  do 2 eexists. split; [done|]. split; [done|]. split; cbn [cv_client cv_server cv_sent cv_made cv_called cv_released handlers has_queue queued outbound fst snd]; try done.
  - intros n' Hge. specialize (Hnew n' Hge). rewrite of_request_cons, decide_False in Hnew by lia.
    split_and!; [apply Hnew..|]. unfold calls. cbn [cv_called]. rewrite of_request_app. destruct Hnew as (_ & _ & Hcalls).
    unfold calls in Hcalls. rewrite Hcalls. destruct (callbacks (cv_client s) !! _) as [n2|] eqn:Ecb; [|done].
    apply Hc in Ecb as (Htok & _). rewrite of_request_cons, decide_False by lia. done.
  - intros n' id' p' rid' e' Hn' Hm'. specialize (Hold _ _ _ _ _ Hn' Hm'). destruct (decide (n' = n)) as [->|Hne].
    + rewrite Hmn in Hm'. injection Hm' as <- <- <- <-. unfold request_ok in *. cbn [cv_released].
      rewrite of_request_cons, decide_True in Hold by done.
      destruct (hs !! id) as [h|]; [|by destruct Hold]. destruct Hold as (rs & k & Hrs & Hk & Hcalls). exists rs, k.
      split; [done|]. split; [done|]. unfold calls in *. cbn [cv_called]. rewrite of_request_app.
      destruct (callbacks (cv_client s) !! (ri, Z.of_nat n + 1)) as [n2|] eqn:Ecb.
      * pose proof (proj1 (Hc _ _ _) Ecb) as (Htok & Hr2 & id2 & p2 & e2 & Hm2). assert (n2 = n) as -> by lia.
        rewrite Hmn in Hm2. injection Hm2 as <- <- -> <-. rewrite decide_False in Hcalls |- * by done.
        rewrite of_request_cons, decide_True by done. unfold bodies in Hcalls at 1. rewrite filter_cons in Hcalls. simpl in Hcalls.
        rewrite decide_True in Hcalls by done. cbn [fmap list_fmap snd] in Hcalls. rewrite <- app_assoc. exact Hcalls.
      * rewrite app_nil_r. case_decide as Hr; [done|]. unfold bodies in Hcalls at 1. rewrite filter_cons in Hcalls. simpl in Hcalls.
        rewrite decide_False in Hcalls; [done|]. intros ->. assert (callbacks (cv_client s) !! (rid, Z.of_nat n + 1) = Some n); [|congruence].
        apply Hc. eauto 7.
    + eapply request_ok_frame; [..|exact Hold]; [|done| |done].
      * by rewrite of_request_cons, decide_False by done.
      * unfold calls. cbn [cv_called]. rewrite of_request_app. destruct (callbacks (cv_client s) !! _) as [n2|] eqn:Ecb; [|by rewrite app_nil_r].
        apply Hc in Ecb as (Htok & _). rewrite of_request_cons, decide_False by lia. by rewrite app_nil_r.
Qed.

Lemma talk_ok hs s served out waiting t :
  conversation_ok hs s served out waiting → len (cv_made s) + 1 < 2 ^ 64 - 1 → talk_fits t →
  ∃ s' served' out' waiting', talk_step s t = Ret s' ∧ (length (cv_made s') ≤ S (length (cv_made s)))%nat ∧
    conversation_ok hs s' served' out' waiting'.
Proof using Hhandle Hcontinue.
  intros Hok Hl Hf. destruct t as [id p rid|n| | |].
  - destruct (talk_request_ok _ _ _ _ _ id p rid Hok Hl Hf) as (s' & E & El & Hok'). eauto 8 with lia.
  - destruct (talk_release_ok _ _ _ _ _ n Hok) as (s' & E & El & Hok'). eauto 8 with lia.
  - destruct (talk_serve_ok _ _ _ _ _ Hok ltac:(lia)) as (s' & ? & ? & ? & E & El & Hok'). eauto 8 with lia.
  - destruct (talk_continue_ok _ _ _ _ _ Hok) as (s' & ? & ? & E & El & Hok'). eauto 8 with lia.
  - destruct (talk_hear_ok _ _ _ _ _ Hok ltac:(lia)) as (s' & ? & E & El & Hok'). eauto 8 with lia.
Qed.

Lemma talks_ok hs ts : ∀ s served out waiting,
  conversation_ok hs s served out waiting → len (cv_made s) + len ts < 2 ^ 64 - 1 → Forall talk_fits ts →
  ∃ s' served' out' waiting', fold_m talk_step s ts = Ret s' ∧ conversation_ok hs s' served' out' waiting'.
Proof using Hhandle Hcontinue.
  induction ts as [|t ts IH]; intros s served out waiting Hok Hl Hf; [eauto 7|].
  apply Forall_cons in Hf as [Ht Hf]. cbn [length] in Hl.
  destruct (talk_ok _ _ _ _ _ t Hok ltac:(lia) Ht) as (s' & ? & ? & ? & E & El & Hok').
  cbn [fold_m]. rewrite E. cbn [mbind result_bind]. by apply (IH _ _ _ _ Hok' ltac:(lia)).
Qed.

(** C25: A response finds the request it answers: however requests are made and given up, served, continued later and
    answered, nothing fails, and the callback of a request is called only with what the handler of its identifier, or
    the continuations it has deferred to, have sent under the identifier that is waited for, in the order of sending
    and each response once; and when nothing is on its way or posted, it has been called with all of it, unless the
    request was given up. *)
Theorem response_reaches_request hs ts :
  len ts < 2 ^ 64 - 1 → Forall talk_fits ts →
  ∃ s, fold_m talk_step (new_conversation hs) ts = Ret s ∧
    ∀ n id payload rid e, cv_made s !! n = Some (id, payload, rid, e) →
      match hs !! id with
      | None => calls s n = []
      | Some h =>
        (∃ rs k, carried h payload rs k ∧ calls s n `prefix_of` bodies rid rs) ∧
        (cv_sent s = [] → outbound (cv_server s) = [] → queued (cv_server s) = [] → n ∉ cv_released s →
          ∃ rs, carried h payload rs None ∧ calls s n = bodies rid rs)
      end.
Proof using Hhandle Hcontinue.
  intros Hl Hf. destruct (talks_ok hs ts (new_conversation hs) 0 [] [] (new_conversation_ok hs)) as (s & served & out & waiting & E & Hok);
    [cbn; lia|done|]. exists s. split; [done|]. intros n id payload rid e Hn.
  destruct Hok as [_ _ _ _ Hsent Hle _ [Hout _] Hw Hnew Hold].
  destruct (decide (n < served)%nat) as [Hlt|Hge].
  - specialize (Hold _ _ _ _ _ Hlt Hn). unfold request_ok in Hold. destruct (hs !! id) as [h|]; [|by destruct Hold as (_ & _ & ?)].
    destruct Hold as (rs & k & Hrs & Hk & Hcalls). split.
    + exists rs, k. split; [done|]. case_decide; [done|]. rewrite <- Hcalls. by apply prefix_app_r.
    + intros _ Ho Hq Hr. rewrite Ho in Hout. symmetry in Hout. apply fmap_nil_inv in Hout. subst out.
      rewrite Hq in Hw. symmetry in Hw. apply fmap_nil_inv in Hw. subst waiting.
      rewrite decide_False in Hcalls by done. cbn in Hk. destruct k; [done|]. exists rs. split; [done|].
      cbn in Hcalls. by rewrite app_nil_r in Hcalls.
  - destruct (Hnew n ltac:(lia)) as (_ & _ & ->). destruct (hs !! id) as [h|]; [|done].
    split; [do 2 eexists; split; [apply carried_served|apply prefix_nil]|].
    intros Hs. rewrite Hs in Hsent. apply Forall2_nil_inv_r in Hsent. apply lookup_lt_Some in Hn.
    apply (f_equal length) in Hsent. rewrite length_seq in Hsent. simpl in Hsent. lia.
Qed.

End conversation.

(** ** A server that answers in parts

    The handler 7 answers at once under 20 and defers; the continuation [n] answers under 20 and 21, and defers as long as
    [n] is positive.  Two requests are made at the same time, and a third one is given up when it has been answered once. *)

Definition parts_handle (h : Z) (payload : list Z) : list (Z * list Z) * option nat := ([(20, h :: payload)], Some 1%nat).
Definition parts_continue (n : nat) : list (Z * list Z) * option nat :=
  ([(20, [Z.of_nat n]); (21, [])], match n with O => None | S n => Some n end).

Definition parts_talk : list talk :=
  [t_request 7 [10] 20; t_request 7 [11] 21; t_request 7 [12] 20; t_request 8 [] 20;
   t_serve; t_serve; t_hear; t_continue; t_serve; t_serve; t_continue; t_hear; t_hear; t_hear; t_hear; t_hear; t_hear; t_release 2;
   t_continue; t_continue; t_continue; t_continue; t_hear; t_hear; t_hear; t_hear; t_hear; t_hear; t_hear; t_hear].

Definition parts_over : result conversation :=
  fold_m (talk_step (AR := plain_archive) parts_handle parts_continue) (new_conversation {[ 7 := 1 ]}) parts_talk.

Example parts_calls :
  match parts_over with
  | Ret s => ((λ n, calls s n) <$> seq 0 4, cv_sent s, outbound (cv_server s), queued (cv_server s)) =
      ([[[1; 10]; [1]; [0]]; [[]; []]; [[1; 12]]; []], [], [], [])
  | _ => False
  end.
Proof. by vm_compute. Qed.

Lemma response_reaches_request_witness :
  ∃ s rs, parts_over = Ret s ∧ carried parts_handle parts_continue 1 [10] rs None ∧ calls s 0 = bodies 20 rs ∧
    calls s 0 = [[1; 10]; [1]; [0]].
Proof.
  destruct (response_reaches_request (AR := plain_archive) parts_handle parts_continue
    ltac:(intros h p; repeat constructor; vm_compute; intros [=]) ltac:(intros k; repeat constructor; vm_compute; intros [=])
    {[ 7 := 1 ]} parts_talk ltac:(by vm_compute) ltac:(by repeat constructor)) as (s & E & Hs).
  pose proof parts_calls as Hd. unfold parts_over in *. rewrite E in Hd.
  assert (∃ e, cv_made s !! 0%nat = Some (7, [10], 20, e)) as [e He].
  { assert (match parts_over with Ret s => fst <$> cv_made s !! 0%nat | _ => None end = Some (7, [10], 20)) as Hm by (by vm_compute).
    unfold parts_over in Hm. rewrite E in Hm. destruct (cv_made s !! 0%nat) as [[[[??]?] e]|]; [|done]. exists e. by injection Hm as -> -> ->. }
  assert (0%nat ∉ cv_released s) as Hr.
  { assert (match parts_over with Ret s => bool_decide (0%nat ∉ cv_released s) | _ => false end = true) as Hm by (by vm_compute).
    unfold parts_over in Hm. rewrite E in Hm. by apply bool_decide_eq_true in Hm. }
  specialize (Hs 0%nat 7 [10] 20 e He). injection Hd as H1 _ _ _ H4 H5 H6. rewrite lookup_singleton_eq in Hs.
  destruct (proj2 Hs H4 H5 H6 Hr) as (rs & Hrs & Hc). exists s, rs. split_and!; [done|done|done|]. by rewrite H1.
Defined.
