(* ===== verification/Marshalled.v ===== *)
(** Sessions of another thread (ipc/src/lifetime.h, ipc/src/marshalled_session.cpp,
    ipc/src/marshalled_server.cpp).

    The sessions of a server live in the thread of an apartment: what arrives for them is scheduled
    there, and what they send is passed on as long as the marshalled session is there.  A run is a
    sequence of steps of both threads; the apartment's queue is first in, first out. *)

From S2P Require Import Prelude.

(** * Lifetimes *)

(** [ipc/src/lifetime.h:29-59] lifetime. With its mutex, marking and executing are single steps. *)
Record lifetime := mk_lifetime { alive : bool }.

(** [ipc/src/lifetime.h:36-41] lifetime::mark_destroyed *)
Definition mark_destroyed (l : lifetime) : lifetime := mk_lifetime false.

(** [ipc/src/lifetime.h:43-50] lifetime::execute_safe *)
Definition execute_safe {S} (l : lifetime) (f : S → result S) (s : S) : result S :=
  if alive l then f s else Ret s.

(** * The passive session *)

Section marshalled.
Context {M : Type}.

(** What the underlying session is told, in its thread. *)
Inductive underlying_call := u_created | u_message (m : M) | u_disconnect | u_released.

(** The tasks in the apartment's queue. *)
Inductive task := t_create | t_message (m : M) | t_disconnect | t_destroy.

(** [ipc/marshalled_session.h:71-75] marshalled_passive_session. [session] is whether there is an underlying
    one; its wrapper of the outbound channel has a lifetime of its own. *)
Record passive_session := mk_passive {
  self : lifetime;
  session : bool;
  outbound_life : lifetime;
  apartment : list task;
  calls : list underlying_call;
  sent : list M
}.

(** [ipc/src/marshalled_session.cpp:69-72] marshalled_passive_session::marshalled_passive_session *)
Definition new_passive : passive_session := mk_passive (mk_lifetime true) false (mk_lifetime true) [] [] [].

(** [ipc/src/lifetime.h:52-54] lifetime::schedule_safe *)
Definition schedule_safe (t : task) (s : passive_session) : passive_session :=
  mk_passive (self s) (session s) (outbound_life s) (apartment s ++ [t]) (calls s) (sent s).

(** [ipc/src/marshalled_session.cpp:83-93] marshalled_passive_session::create_underlying *)
Definition create_underlying (s : passive_session) : passive_session := schedule_safe t_create s.

(** [ipc/src/marshalled_session.cpp:95-96] marshalled_passive_session::disconnect *)
Definition passive_disconnect (s : passive_session) : passive_session := schedule_safe t_disconnect s.

(** [ipc/src/marshalled_session.cpp:98-105] marshalled_passive_session::message. The payload is copied. *)
Definition passive_message (m : M) (s : passive_session) : passive_session := schedule_safe (t_message m) s.

(** [ipc/src/marshalled_session.cpp:41-48] schedule_destroy. The session is released in its own thread. *)
Definition schedule_destroy (s : passive_session) : passive_session :=
  mk_passive (self s) false (outbound_life s) (apartment s ++ (if session s then [t_destroy] else [])) (calls s) (sent s).

(** [ipc/src/marshalled_session.cpp:112-113] marshalled_passive_session::outbound_wrapper::stop *)
Definition outbound_stop (s : passive_session) : passive_session :=
  mk_passive (self s) (session s) (mark_destroyed (outbound_life s)) (apartment s) (calls s) (sent s).

(** [ipc/src/marshalled_session.cpp:74-81] marshalled_passive_session::~marshalled_passive_session *)
Definition passive_destroy (s : passive_session) : passive_session :=
  schedule_destroy (outbound_stop
    (mk_passive (mark_destroyed (self s)) (session s) (outbound_life s) (apartment s) (calls s) (sent s))).

(** [ipc/src/marshalled_session.cpp:118-119] marshalled_passive_session::outbound_wrapper::message *)
Definition outbound_message (m : M) (s : passive_session) : passive_session :=
  if alive (outbound_life s)
  then mk_passive (self s) (session s) (outbound_life s) (apartment s) (calls s) (sent s ++ [m])
  else s.

Definition called (c : underlying_call) (s : passive_session) : passive_session :=
  mk_passive (self s) (session s) (outbound_life s) (apartment s) (calls s ++ [c]) (sent s).

(** What a task does: calls through [_underlying], which may be null. *)
(** [ipc/src/marshalled_session.cpp:86-104] marshalled_passive_session. The scheduled functions. *)
Definition run_task (t : task) (s : passive_session) : result passive_session :=
  match t with
  | t_create => execute_safe (self s) (λ s, Ret (called u_created
      (mk_passive (self s) true (outbound_life s) (apartment s) (calls s) (sent s)))) s
  | t_message m => execute_safe (self s) (λ s, if session s then Ret (called (u_message m) s) else UB) s
  | t_disconnect => execute_safe (self s) (λ s, if session s then Ret (called u_disconnect s) else UB) s
  | t_destroy => Ret (called u_released s)
  end.

(** The apartment's thread runs its next task. *)
Definition apartment_step (s : passive_session) : result passive_session :=
  match apartment s with
  | [] => Ret s
  | t :: ts => run_task t (mk_passive (self s) (session s) (outbound_life s) ts (calls s) (sent s))
  end.

(** ** The server *)

(** [ipc/marshalled_server.h:49-53] marshalled_server *)
Record marshalled_server := mk_mserver { server_life : lifetime; underlying_server : bool }.

(** [ipc/src/marshalled_server.cpp:52-54] marshalled_server::marshalled_server *)
Definition new_mserver : marshalled_server := mk_mserver (mk_lifetime true) true.

(** [ipc/src/marshalled_server.cpp:62-66] marshalled_server::stop *)
Definition mserver_stop (v : marshalled_server) : marshalled_server :=
  mk_mserver (mark_destroyed (server_life v)) false.

(** [ipc/src/marshalled_server.cpp:68-77] marshalled_server::create_session. The result may be null. *)
Definition create_session (v : marshalled_server) : result (option passive_session) :=
  execute_safe (server_life v) (λ _, if underlying_server v then Ret (Some (create_underlying new_passive)) else UB) None.

(** ** Runs *)

Inductive act :=
  | a_message (m : M) | a_disconnect | a_destroy      (* of the connection's thread *)
  | a_run | a_reply (m : M).                          (* of the apartment: a task, a message that is sent *)

Definition act_step (s : passive_session) (a : act) : result passive_session :=
  match a with
  | a_message m => Ret (passive_message m s)
  | a_disconnect => Ret (passive_disconnect s)
  | a_destroy => Ret (passive_destroy s)
  | a_run => apartment_step s
  | a_reply m => Ret (outbound_message m s)
  end.

(** What was asked for, in the order of asking. *)
Definition posted (acts : list act) : list underlying_call :=
  omap (λ a, match a with a_message m => Some (u_message m) | a_disconnect => Some u_disconnect | _ => None end) acts.

Definition replies (acts : list act) : list M :=
  omap (λ a, match a with a_reply m => Some m | _ => None end) acts.

Definition runs_only (a : act) : Prop := match a with a_run | a_reply _ => True | _ => False end.

Definition call_of (t : task) : underlying_call :=
  match t with t_create => u_created | t_message m => u_message m | t_disconnect => u_disconnect | t_destroy => u_released end.

(** While the session is there: what was called and what is queued is what was asked for, and nothing
    can be called before the creation. *)
Record live_ok (asked : list underlying_call) (out : list M) (s : passive_session) : Prop := {
  lo_self : alive (self s) = true;
  lo_out : alive (outbound_life s) = true;
  lo_calls : calls s ++ map call_of (apartment s) = u_created :: asked;
  lo_created : session s = true ↔ calls s ≠ [];
  lo_sent : sent s = out;
  lo_tasks : t_destroy ∉ apartment s
}.

Lemma present_step asked out s a :
  live_ok asked out s → (a ≠ a_destroy) →
  ∃ s', act_step s a = Ret s' ∧ live_ok (asked ++ posted [a]) (out ++ replies [a]) s'.
Proof.
  intros [Hs Ho Hc Hcr Hsent Ht] Ha. destruct a as [m| | | |m]; [..|done| |]; cbn [act_step].
  - eexists. split; [done|]. split; simpl; rewrite ?app_nil_r; try done.
    + by rewrite map_app, app_assoc, Hc.
    + rewrite elem_of_app. by intros [?|?%list_elem_of_singleton].
  - eexists. split; [done|]. split; simpl; rewrite ?app_nil_r; try done.
    + by rewrite map_app, app_assoc, Hc.
    + rewrite elem_of_app. by intros [?|?%list_elem_of_singleton].
  - rewrite !app_nil_r. unfold apartment_step. destruct (apartment s) as [|t ts] eqn:E.
    { exists s. split; [done|]. split; rewrite ?E; done. }
    apply not_elem_of_cons in Ht as [Hne Ht]. simpl in Hc.
    assert (∀ c, c = call_of t → (calls s ++ [c]) ++ map call_of ts = u_created :: asked) as Hnext
      by (intros c ->; by rewrite <- app_assoc).
    assert (calls s ≠ [] ∨ t = t_create) as Hd.
    { destruct (calls s); [right|by left]. simpl in Hc. destruct t; by simplify_eq. }
    destruct t; [..|done]; cbn [run_task]; unfold execute_safe; cbn [self session]; rewrite Hs.
    + eexists. split; [done|]. split; cbn; [done|done|by apply Hnext| |done|done]. split; [|done]. by destruct (calls s).
    + rewrite (proj2 Hcr) by (by destruct Hd). eexists. split; [done|]. split; cbn; [done|done|by apply Hnext| |done|done].
      split; [by destruct (calls s)|done].
    + rewrite (proj2 Hcr) by (by destruct Hd). eexists. split; [done|]. split; cbn; [done|done|by apply Hnext| |done|done].
      split; [by destruct (calls s)|done].
  - unfold outbound_message. rewrite Ho. eexists. split; [done|]. split; simpl; rewrite ?app_nil_r; try done. by rewrite Hsent.
Qed.

Lemma live_run acts : ∀ asked out s,
  live_ok asked out s → Forall (λ a, a ≠ a_destroy) acts →
  ∃ s', fold_m act_step s acts = Ret s' ∧ live_ok (asked ++ posted acts) (out ++ replies acts) s'.
Proof.
  induction acts as [|a acts IH]; intros asked out s Hs Hd.
  { exists s. split; [done|]. by rewrite !app_nil_r. }
  apply Forall_cons in Hd as [Ha Hd]. destruct (present_step asked out s a Hs Ha) as (s1 & E & Hs1).
  destruct (IH _ _ _ Hs1 Hd) as (s' & E' & Hs'). exists s'. split; [cbn [fold_m]; by rewrite E|].
  revert Hs'. unfold posted, replies. rewrite <- !app_assoc, <- !omap_app. done.
Qed.

(** After the destruction: nothing but the release of the session is ever called, as the last task, and
    nothing is sent. *)
Record dead_ok (done_ : list underlying_call) (had : bool) (out : list M) (s : passive_session) : Prop := {
  do_self : alive (self s) = false;
  do_out : alive (outbound_life s) = false;
  do_sent : sent s = out;
  do_calls : (∃ q, t_destroy ∉ q ∧ apartment s = q ++ (if had then [t_destroy] else []) ∧ calls s = done_) ∨
    had = true ∧ apartment s = [] ∧ calls s = done_ ++ [u_released]
}.

Lemma live_calls_done asked out s : live_ok asked out s →
  dead_ok (calls s) (session s) out (passive_destroy s).
Proof.
  intros [Hs Ho Hc Hcr Hsent Ht]. split; simpl; [done|done|done|]. left. by exists (apartment s).
Qed.

Lemma gone_step done_ had out s a :
  dead_ok done_ had out s → runs_only a →
  ∃ s', act_step s a = Ret s' ∧ dead_ok done_ had out s' ∧
    length (apartment s') = match a with a_run => pred (length (apartment s)) | _ => length (apartment s) end.
Proof.
  intros [Hs Ho Hsent Hc] Ha. destruct a as [m| | | |m]; try done; cbn [act_step].
  - unfold apartment_step. destruct Hc as [(q & Hq & Happ & Hcalls)|(Hh & Happ & Hcalls)]; rewrite Happ.
    + destruct q as [|t q]; simpl.
      * destruct had; [|by exists s; split_and!; [done| |by rewrite Happ];
          split; [done|done|done|]; left; exists []; split_and!; [done|rewrite Happ|]].
        eexists. split; [done|]. split; [|done]. split; simpl; [done|done|done|]. right. by rewrite Hcalls.
      * apply not_elem_of_cons in Hq as [Hne Hq].
        exists (mk_passive (self s) (session s) (outbound_life s) (q ++ (if had then [t_destroy] else [])) (calls s) (sent s)).
        split; [destruct t; try done; unfold run_task, execute_safe; cbn [self]; by rewrite Hs|].
        split; [|done]. split; simpl; [done|done|done|]. left. by exists q.
    + exists s. split; [done|]. split; [|by rewrite Happ]. split; [done|done|done|]. by right.
  - unfold outbound_message. rewrite Ho. exists s. split; [done|]. by split; [split|].
Qed.

Lemma gone_run acts : ∀ done_ had out s,
  dead_ok done_ had out s → Forall runs_only acts →
  ∃ s', fold_m act_step s acts = Ret s' ∧ dead_ok done_ had out s'.
Proof.
  induction acts as [|a acts IH]; intros done_ had out s Hs Ha; [by exists s|].
  apply Forall_cons in Ha as [Ha Has]. destruct (gone_step done_ had out s a Hs Ha) as (s1 & E & Hs1 & _).
  destruct (IH _ _ _ s1 Hs1 Has) as (s' & E' & Hs'). exists s'. split; [|done]. cbn [fold_m]. by rewrite E.
Qed.

(** C26: However the threads interleave, a marshalled session calls no session that is not there, and the
    underlying session is told what was asked for, in the order of asking, behind its creation.  Once
    the marshalled one is destroyed, a part of that has been told, nothing else will be but the
    release, in the apartment's thread and only if there is something to release, and nothing that
    the session still sends gets out. *)
Theorem marshalled_session_order before after :
  Forall (λ a, a ≠ a_destroy) before → Forall runs_only after →
  ∃ s s', fold_m act_step (create_underlying new_passive) before = Ret s ∧
    fold_m act_step s (a_destroy :: after) = Ret s' ∧
    calls s ++ map call_of (apartment s) = u_created :: posted before ∧ sent s = replies before ∧
    (calls s' = calls s ∨ session s = true ∧ apartment s' = [] ∧ calls s' = calls s ++ [u_released]) ∧
    (apartment s' = [] → session s = true → calls s' = calls s ++ [u_released]) ∧
    sent s' = sent s.
Proof.
  intros Hb Ha. destruct (live_run before [] [] (create_underlying new_passive)) as (s & E & Hs); [|done|].
  { split; try done. intros Ht%list_elem_of_singleton. done. }
  pose proof (live_calls_done _ _ _ Hs) as Hd.
  destruct (gone_run after _ _ _ _ Hd Ha) as (s' & E' & Hs').
  exists s, s'. destruct Hs as [_ _ Hc _ Hsent _]. destruct Hs' as [_ _ Hsent' Hcalls].
  split_and!; [done|done|done|done| | |by rewrite Hsent', Hsent].
  - destruct Hcalls as [(q & _ & _ & ->)|(Hh & Happ & ->)]; [by left|by right].
  - intros He Hss. destruct Hcalls as [(q & _ & Happ & _)|(_ & _ & ->)]; [|done].
    rewrite He, Hss in Happ. by destruct q.
Qed.

(** A server that was stopped creates no sessions. *)
Lemma stopped_server_refuses v : create_session (mserver_stop v) = Ret None.
Proof. done. Qed.

Lemma running_server_creates v : server_life v = mk_lifetime true → underlying_server v = true →
  create_session v = Ret (Some (create_underlying new_passive)).
Proof. unfold create_session. by intros -> ->. Qed.
End marshalled.

(** * The active session *)

Section active.
Context {M : Type}.

(** [ipc/marshalled_session.h:39-53] marshalled_active_session. Its private queue drops what is left when the session
    goes ([private_queue] of the scheduler); [inbound] is what the server's session has been told. *)
Record active_session := mk_active {
  queue_there : bool;
  private : list (option M);
  inbound : list (option M)
}.

(** [ipc/src/marshalled_session.cpp:59-66] marshalled_active_session::message *)
Definition active_message (m : M) (s : active_session) : active_session :=
  mk_active (queue_there s) (private s ++ [Some m]) (inbound s).

(** [ipc/src/marshalled_session.cpp:52-57] marshalled_active_session::disconnect *)
Definition active_disconnect (s : active_session) : active_session :=
  mk_active (queue_there s) (private s ++ [None]) (inbound s).

Definition active_run (s : active_session) : active_session :=
  match private s with
  | [] => s
  | t :: ts => mk_active (queue_there s) ts (inbound s ++ if queue_there s then [t] else [])
  end.

Definition active_destroy (s : active_session) : active_session := mk_active false (private s) (inbound s).

(** What is told to the server's session is what was told to the connection's, in its order. *)
Lemma active_keeps_order s t :
  queue_there s = true →
  inbound (active_run s) ++ private (active_run s) = inbound s ++ private s ∧
  inbound (active_message t s) ++ private (active_message t s) = (inbound s ++ private s) ++ [Some t] ∧
  inbound (active_disconnect s) ++ private (active_disconnect s) = (inbound s ++ private s) ++ [None] ∧
  inbound (active_run (active_destroy s)) = inbound s.
Proof.
  intros Hq. unfold active_run, active_message, active_disconnect, active_destroy. simpl.
  destruct (private s) as [|x l] eqn:E; simpl; rewrite ?E, ?Hq; simpl; split_and!; by list_simplifier.
Qed.
End active.

(** ** A run *)

Definition demo_before : list (act (M := Z)) := [a_message 5; a_run; a_reply 1; a_run; a_message 6; a_disconnect]%Z.
Definition demo_after : list (act (M := Z)) := [a_run; a_reply 2; a_run; a_run]%Z.

Example demo_calls :
  (s ← fold_m act_step (create_underlying new_passive) (demo_before ++ a_destroy :: demo_after);
   Ret (calls s, sent s)) = Ret ([u_created; u_message 5; u_released], [1])%Z.
Proof. vm_compute. reflexivity. Qed.

Lemma marshalled_session_order_witness :
  ∃ s s', fold_m act_step (create_underlying new_passive) demo_before = Ret s ∧
    fold_m act_step s (a_destroy :: demo_after) = Ret s' ∧
    calls s ++ map call_of (apartment s) = u_created :: posted demo_before ∧ sent s = replies demo_before ∧
    (calls s' = calls s ∨ session s = true ∧ apartment s' = [] ∧ calls s' = calls s ++ [u_released]) ∧
    (apartment s' = [] → session s = true → calls s' = calls s ++ [u_released]) ∧
    sent s' = sent s.
Proof. apply (marshalled_session_order demo_before demo_after); by repeat constructor. Defined.
