(* ===== verification/Sdb.v ===== *)
(** The in-memory database of the front-end (src/sdb/table.h, index.h, integrated_index.h and
    transforms.h): tables of records with stable identities, indices that follow them, and grouped
    tables that are maintained incrementally.

    A record is named by a handle (the list iterator of the code); an index keeps an entry per
    record, with the iterator of the entry in a removal index.  In which order the entries of a key are
    gone through is up to the standard library: groups are right in any order. *)

From S2P Require Import Prelude.

(** ** Tables *)

Section table.
Context {V : Type}.

(** [sdb/table.h:55-119] table *)
Record table := mk_table { records : list (nat * V); next_handle : nat }.

Definition empty_table : table := mk_table [] 0.

(** [sdb/table.h:228-230] table::create *)
Definition create (v : V) (t : table) : nat * table :=
  (next_handle t, mk_table (records t ++ [(next_handle t, v)]) (S (next_handle t))).

(** The record a handle points to. *)
(** [sdb/table.h:136-137] table::const_iterator::operator * *)
Fixpoint find_record (h : nat) (rs : list (nat * V)) : option V :=
  match rs with
  | [] => None
  | (h', v) :: rs => if decide (h' = h) then Some v else find_record h rs
  end.

(** [sdb/table.h:232-234] table::modify: the record is changed in place *)
Definition modify (h : nat) (f : V → V) (t : table) : table :=
  mk_table (map (λ '(h', v), (h', if decide (h' = h) then f v else v)) (records t)) (next_handle t).

(** [sdb/table.h:301-307] table::commit_removal: the record is erased *)
Definition erase (h : nat) (t : table) : table :=
  mk_table (filter (λ p, p.1 ≠ h) (records t)) (next_handle t).

(** [sdb/table.h:207-214] table::clear *)
Definition clear_records (t : table) : table := mk_table [] (next_handle t).

Definition table_ok (t : table) : Prop :=
  NoDup (records t).*1 ∧ Forall (λ p, p.1 < next_handle t) (records t).

Lemma find_record_elem h v rs : NoDup rs.*1 → find_record h rs = Some v ↔ (h, v) ∈ rs.
Proof.
  induction rs as [|[h' v'] rs IH]; simpl; intros Hnd.
  - split; [done|by intros ?%elem_of_nil].
  - apply NoDup_cons in Hnd as [Hn Hnd]. rewrite elem_of_cons. case_decide as Hh.
    + subst h'. split; [intros [= ->]; by left|]. intros [[= ->]|Hin]; [done|].
      destruct Hn. apply list_elem_of_fmap. by exists (h, v).
    + rewrite IH by done. split; [by right|]. intros [[= -> ->]|?]; done.
Qed.

Lemma create_ok v t : table_ok t → table_ok (create v t).2.
Proof.
  intros [Hn Hl]. split; simpl.
  - rewrite fmap_app. apply NoDup_app. split_and!; [done| |by apply NoDup_singleton].
    intros h (p & -> & Hp)%list_elem_of_fmap. simpl. intros Heq%list_elem_of_singleton.
    rewrite Forall_forall in Hl. specialize (Hl _ Hp). lia.
  - apply Forall_app. split; [|by repeat constructor; simpl; lia].
    eapply Forall_impl; [exact Hl|]. simpl. lia.
Qed.

Lemma modify_handles h f t : (records (modify h f t)).*1 = (records t).*1.
Proof. unfold modify; simpl. induction (records t) as [|[h' v] rs IH]; simpl; [done|].
  f_equal. exact IH.
Qed.

Lemma modify_ok h f t : table_ok t → table_ok (modify h f t).
Proof.
  intros [Hn Hl]. split; [by rewrite modify_handles|]. unfold modify; simpl.
  apply Forall_map. eapply Forall_impl; [exact Hl|]. by intros [h' v].
Qed.

Lemma erase_ok h t : table_ok t → table_ok (erase h t).
Proof.
  intros [Hn Hl]. split; simpl.
  - by apply (NoDup_map_filter fst).
  - by apply Forall_filter_2.
Qed.

Lemma clear_ok t : table_ok (clear_records t).
Proof. split; simpl; constructor. Qed.
End table.
Arguments table V : clear implicits.

Lemma filter_filter_implies {A} (P Q : A → Prop) `{∀ x, Decision (P x)} `{∀ x, Decision (Q x)}
    (l : list A) :
  (∀ x, x ∈ l → P x → Q x) → filter P (filter Q l) = filter P l.
Proof.
  induction l as [|a l IH]; intros HPQ; [done|].
  assert (filter P (filter Q l) = filter P l) as Hl by (apply IH; intros x Hx; apply HPQ; by right).
  destruct (decide (Q a)) as [Hq|Hq], (decide (P a)) as [Hp|Hp].
  - rewrite (filter_cons_True Q), !(filter_cons_True P) by done. by rewrite Hl.
  - rewrite (filter_cons_True Q), !(filter_cons_False P) by done. done.
  - destruct Hq. apply HPQ; [by left|done].
  - rewrite (filter_cons_False Q), (filter_cons_False P) by done. done.
Qed.

(** ** Indices *)

(** The order in which a multimap keeps the entries of a key, given those that are there in the order they were
    inserted: behind the others in some libraries, before them in others. *)
Class equal_order := { arrange : list nat → list nat; arrange_perm l : arrange l ≡ₚ l }.

(** The order of insertion, for indices in which every key has one entry, and for examples. *)
#[export] Instance insertion_order : equal_order | 100 := {| arrange l := l; arrange_perm l := Permutation_refl l |}.
#[export] Instance reverse_order : equal_order | 200 := {| arrange l := reverse l; arrange_perm l := reverse_Permutation l |}.

Section index.
Context {K : Type} `{EqDecision K}.

(** [sdb/index.h:44-88] index_base; an entry has an identity of its own, its iterator *)
Record index := mk_index {
  entries : list (nat * (K * nat));
  removal : gmap nat nat;
  next_entry : nat
}.

Definition empty_index : index := mk_index [] ∅ 0.

(** [sdb/index.h:65-66] index_base::created *)
Definition index_created (k : K) (h : nat) (ix : index) : index :=
  mk_index (entries ix ++ [(next_entry ix, (k, h))])
    (match removal ix !! h with Some _ => removal ix | None => <[h := next_entry ix]> (removal ix) end)
    (S (next_entry ix)).

(** [sdb/index.h:68-74] index_base::removed *)
Definition index_removed (h : nat) (ix : index) : index :=
  match removal ix !! h with
  | None => ix
  | Some i => mk_index (filter (λ e, e.1 ≠ i) (entries ix)) (delete h (removal ix)) (next_entry ix)
  end.

(** [sdb/index.h:76-77] index_base::cleared *)
Definition index_cleared (ix : index) : index := mk_index [] ∅ (next_entry ix).

(** [sdb/index.h:143-165] immutable_index::equal_range *)
Definition equal_range {EO : equal_order} (k : K) (ix : index) : list nat :=
  arrange (omap (λ e, if decide (e.2.1 = k) then Some e.2.2 else None) (entries ix)).

(** [sdb/index.h:58-63] index_base::index_base *)
Definition build_index {V} (key : V → K) (t : table V) : index :=
  foldl (λ ix '(h, v), index_created (key v) h ix) empty_index (records t).

(** The index follows its table: an entry per record, in the same order. *)
Record index_ok {V} (key : V → K) (t : table V) (ix : index) : Prop := {
  ix_entries : (entries ix).*2 = map (λ '(h, v), (key v, h)) (records t);
  ix_nodup : NoDup (entries ix).*1;
  ix_below : Forall (λ e, e.1 < next_entry ix) (entries ix);
  ix_removal : ∀ h i, removal ix !! h = Some i ↔ ∃ k, (i, (k, h)) ∈ entries ix
}.

Lemma ix_handles {V} (key : V → K) t ix : index_ok key t ix →
  map (λ e, e.2.2) (entries ix) = (records t).*1.
Proof.
  intros Hok. transitivity (map snd (entries ix).*2).
  - by rewrite map_map.
  - rewrite (ix_entries _ _ _ Hok), map_map. apply map_ext. by intros [].
Qed.

Lemma index_created_ok {V} (key : V → K) (v : V) t ix :
  table_ok t → index_ok key t ix →
  index_ok key (create v t).2 (index_created (key v) (next_handle t) ix).
Proof.
  intros [_ Hlt] Hok. pose proof (ix_handles _ _ _ Hok) as Hh. destruct Hok.
  assert (Hfresh : removal ix !! next_handle t = None).
  { destruct (removal ix !! next_handle t) as [i|] eqn:E; [|done].
    apply ix_removal0 in E as [k Hin]. assert (next_handle t ∈ (records t).*1) as Hx.
    { rewrite <- Hh. apply list_elem_of_fmap. by exists (i, (k, next_handle t)). }
    apply list_elem_of_fmap in Hx as ([h w] & Heq & Hw). rewrite Forall_forall in Hlt.
    specialize (Hlt _ Hw). simpl in *. lia. }
  rewrite Forall_forall in ix_below0.
  split; simpl.
  - by rewrite fmap_app, map_app, ix_entries0.
  - rewrite fmap_app. apply NoDup_app. split_and!; [done| |by apply NoDup_singleton].
    intros i (e & -> & He)%list_elem_of_fmap Heq%list_elem_of_singleton.
    specialize (ix_below0 _ He). simpl in Heq. lia.
  - apply Forall_app. split; [|by repeat constructor].
    apply Forall_forall. intros e He. specialize (ix_below0 _ He). simpl in *. lia.
  - intros h i. rewrite Hfresh. setoid_rewrite elem_of_app.
    setoid_rewrite list_elem_of_singleton.
    destruct (decide (h = next_handle t)) as [->|].
    + rewrite lookup_insert_eq. split; [intros [= <-]; eauto|].
      intros (k & [Hin|[= -> ->]]); [|done].
      assert (removal ix !! next_handle t = Some i) by (apply ix_removal0; eauto). congruence.
    + rewrite lookup_insert_ne, ix_removal0 by done. naive_solver.
Qed.

Lemma filter_map_handles {V} (key : V → K) h i (es : list (nat * (K * nat))) (rs : list (nat * V)) :
  es.*2 = map (λ '(h, v), (key v, h)) rs →
  (∀ e, e ∈ es → e.1 = i ↔ e.2.2 = h) →
  (filter (λ e, e.1 ≠ i) es).*2 = map (λ '(h, v), (key v, h)) (filter (λ p, p.1 ≠ h) rs).
Proof.
  revert rs; induction es as [|[j [k g]] es IH]; intros [|[h' v] rs]; simpl; intros Heq Hi; try done.
  injection Heq as -> -> Heq. pose proof (Hi _ ltac:(by left)) as Hj. simpl in Hj.
  destruct (decide (j = i)) as [->|Hne].
  - rewrite filter_cons_False, filter_cons_False by (simpl; tauto). apply IH; [done|].
    intros e He. apply Hi. by right.
  - rewrite filter_cons_True, (filter_cons_True _ (h', v)) by (simpl; tauto). simpl. f_equal.
    apply IH; [done|]. intros e He. apply Hi. by right.
Qed.

Lemma entry_unique {V} (key : V → K) t ix i h k :
  table_ok t → index_ok key t ix → (i, (k, h)) ∈ entries ix →
  ∀ e, e ∈ entries ix → e.1 = i ↔ e.2.2 = h.
Proof.
  intros [Hnd _] Hok Hin e He. pose proof (ix_handles _ _ _ Hok) as Hh. destruct Hok. split.
  - intros Hi. assert (e = (i, (k, h))) as -> by (by eapply (NoDup_map_elem fst)). done.
  - intros Hi. assert (e = (i, (k, h))) as ->; [|done].
    eapply (NoDup_map_elem (λ e, e.2.2)); [|done..]. by rewrite Hh.
Qed.

Lemma index_removed_ok {V} (key : V → K) t ix h :
  table_ok t → index_ok key t ix → index_ok key (erase h t) (index_removed h ix).
Proof.
  intros Ht Hok. unfold index_removed. destruct (removal ix !! h) as [i|] eqn:E.
  - apply (ix_removal _ _ _ Hok) in E as [k Hin].
    pose proof (entry_unique _ _ _ _ _ _ Ht Hok Hin) as Hu. destruct Hok. split; simpl.
    + by apply filter_map_handles.
    + by apply (NoDup_map_filter fst).
    + by apply Forall_filter_2.
    + intros g j. setoid_rewrite list_elem_of_filter. simpl.
      destruct (decide (g = h)) as [->|Hne].
      * rewrite lookup_delete_eq. split; [done|]. intros (k' & Hji & Hin').
        destruct Hji. by apply (Hu _ Hin').
      * rewrite lookup_delete_ne, ix_removal0 by done. split.
        -- intros [k' Hin']. exists k'. split; [|done]. intros ->.
           apply Hne. by apply (Hu _ Hin').
        -- intros (k' & _ & ?). eauto.
  - assert (records (erase h t) = records t) as Hr.
    { unfold erase; simpl. apply filter_all_elem. intros p Hp Heq.
      assert (p.1 ∈ (records t).*1) as Hx by by apply list_elem_of_fmap_2.
      rewrite <- (ix_handles _ _ _ Hok), Heq in Hx.
      apply list_elem_of_fmap in Hx as ([i [k g]] & Hg & Hin). simpl in Hg. subst g.
      assert (removal ix !! h = Some i) by (apply (ix_removal _ _ _ Hok); eauto). congruence. }
    destruct Hok. split; rewrite ?Hr; done.
Qed.

Lemma index_cleared_ok {V} (key : V → K) t ix : index_ok key (clear_records t) (index_cleared ix).
Proof.
  split; simpl; [done|constructor|constructor|].
  intros h i. rewrite lookup_empty. split; [done|]. by intros (k & ?%elem_of_nil).
Qed.

Lemma index_modify_ok {V} (key : V → K) t ix h f :
  (∀ v, (h, v) ∈ records t → key (f v) = key v) →
  index_ok key t ix → index_ok key (modify h f t) ix.
Proof.
  intros Hf []. split; try done. rewrite ix_entries0. unfold modify; simpl. rewrite map_map.
  apply map_ext_in. intros [h' v] Hin%list_elem_of_In. case_decide; [subst|done]. by rewrite Hf.
Qed.

(** The records of a key, in the order of the table. *)
Definition with_key {V} (key : V → K) (k : K) (rs : list (nat * V)) : list (nat * V) :=
  filter (λ p, key p.2 = k) rs.

Lemma entries_of_key {V} (key : V → K) t ix k : index_ok key t ix →
  omap (λ e, if decide (e.2.1 = k) then Some e.2.2 else None) (entries ix) = (with_key key k (records t)).*1.
Proof.
  intros []. unfold with_key. revert ix_entries0. generalize (entries ix) (records t). clear.
  induction l as [|[i [k' h]] es IH]; intros [|[h' v] rs]; simpl; intros Heq; try done.
  injection Heq as -> -> Heq. case_decide.
  - rewrite filter_cons_True by done. simpl. f_equal. by apply IH.
  - rewrite filter_cons_False by done. by apply IH.
Qed.

Lemma equal_range_perm {EO : equal_order} {V} (key : V → K) t ix k : index_ok key t ix →
  equal_range k ix ≡ₚ (with_key key k (records t)).*1.
Proof. intros Hi. unfold equal_range. by rewrite arrange_perm, (entries_of_key key t). Qed.

Lemma equal_range_spec {V} (key : V → K) t ix k : index_ok key t ix →
  equal_range (EO := insertion_order) k ix = (with_key key k (records t)).*1.
Proof. apply entries_of_key. Qed.

Lemma equal_range_elem {EO : equal_order} {V} (key : V → K) t ix k h : index_ok key t ix →
  h ∈ equal_range k ix ↔ ∃ v, (h, v) ∈ records t ∧ key v = k.
Proof.
  intros Hi. rewrite (equal_range_perm key t ix k Hi), list_elem_of_fmap. unfold with_key. split.
  - intros ([h' v] & -> & [Hk Hin]%list_elem_of_filter). by exists v.
  - intros (v & Hin & Hk). exists (h, v). split; [done|]. by apply list_elem_of_filter.
Qed.
End index.

(** ** Grouped tables *)

Section group.
Context {EO : equal_order} {T A K : Type} `{EqDecision K}.
Context (ukey : T → K) (akey : A → K).
(** A new record of the aggregated table with its key written by the keyer, and the aggregator, which
    writes a record from the records of the group. *)
Context (fresh : K → A) (aggregate : A → list T → A).
Hypothesis fresh_key : ∀ k, akey (fresh k) = k.
Hypothesis aggregate_key : ∀ a l, akey (aggregate a l) = akey a.
Hypothesis aggregate_overwrites : ∀ a l l', aggregate (aggregate a l) l' = aggregate a l'.

Record grouped := mk_grouped {
  under : table T; uindex : index (K := K);
  agg : table A; aindex : index (K := K)
}.

(** The items of a key, through the index of the underlying table. *)
(** [sdb/transforms.h:74-75] group_by *)
Definition group_items (k : K) (g : grouped) : list T :=
  omap (λ h, find_record h (records (under g))) (equal_range k (uindex g)).

(** [sdb/index.h:118-136] immutable_unique_index::create_record, and its commit *)
Definition create_aggregated (k : K) (l : list T) (g : grouped) : grouped :=
  let '(h, t) := create (fresh k) (agg g) in
  mk_grouped (under g) (uindex g) (modify h (λ a, aggregate a l) t)
    (index_created (akey (aggregate (fresh k) l)) h (aindex g)).

(** [sdb/transforms.h:73-80] group_by: [update_record] *)
Definition update_record (k : K) (g : grouped) : grouped :=
  let l := group_items k g in
  match equal_range k (aindex g) with
  | h :: _ => mk_grouped (under g) (uindex g) (modify h (λ a, aggregate a l) (agg g)) (aindex g)
  | [] => create_aggregated k l g
  end.

(** [sdb/transforms.h:85-94] group_by: the slot for removed records *)
Definition on_removed (k : K) (g : grouped) : grouped :=
  match equal_range k (uindex g) with
  | [] =>
      match equal_range k (aindex g) with
      | h :: _ => mk_grouped (under g) (uindex g) (erase h (agg g)) (index_removed h (aindex g))
      | [] =>
          let '(h, t) := create (fresh k) (agg g) in
          mk_grouped (under g) (uindex g) (erase h t) (index_removed h (aindex g))
      end
  | _ => update_record k g
  end.

(** [sdb/table.h:287-292] table::commit_creation: the index, then the grouped table *)
Definition g_create (v : T) (g : grouped) : grouped :=
  let '(h, t) := create v (under g) in
  update_record (ukey v) (mk_grouped t (index_created (ukey v) h (uindex g)) (agg g) (aindex g)).

(** [sdb/table.h:294-299] table::commit_modification *)
Definition g_modify (h : nat) (f : T → T) (g : grouped) : grouped :=
  let t := modify h f (under g) in
  match find_record h (records t) with
  | None => g
  | Some v => update_record (ukey v) (mk_grouped t (uindex g) (agg g) (aindex g))
  end.

(** [sdb/table.h:301-307] table::commit_removal: the indices, the grouped table, and then the record *)
Definition g_remove (h : nat) (g : grouped) : grouped :=
  match find_record h (records (under g)) with
  | None => g
  | Some v =>
      let g' := on_removed (ukey v)
        (mk_grouped (under g) (index_removed h (uindex g)) (agg g) (aindex g)) in
      mk_grouped (erase h (under g')) (uindex g') (agg g') (aindex g')
  end.

(** [sdb/transforms.h:82-82] group_by: the slot for a cleared table *)
Definition g_clear (g : grouped) : grouped :=
  mk_grouped (clear_records (under g)) (index_cleared (uindex g))
    (clear_records (agg g)) (index_cleared (aindex g)).

(** [sdb/transforms.h:61-99] group_by: every record of a table that exists is gone through *)
Definition group_by (t : table T) : grouped :=
  foldl (λ g '(h, v), update_record (ukey v) g)
    (mk_grouped t (build_index ukey t) empty_table empty_index) (records t).

(** ** Maintaining is recomputing *)

Definition items (k : K) (g : grouped) : list T := (with_key ukey k (records (under g))).*2.

Record base_ok (g : grouped) : Prop := {
  under_table : table_ok (under g);
  under_index : index_ok ukey (under g) (uindex g);
  agg_table : table_ok (agg g);
  agg_index : index_ok akey (agg g) (aindex g);
  agg_keys : NoDup (map (λ p, akey p.2) (records (agg g)))
}.

(** [stale k]: the aggregated record of [k] may be out of date; [missing k]: it may not exist. *)
Record agg_ok (stale missing : K → Prop) (g : grouped) : Prop := {
  agg_value : ∀ h a, (h, a) ∈ records (agg g) →
    ∃ l, a = aggregate (fresh (akey a)) l
         ∧ (¬ stale (akey a) → l ≡ₚ items (akey a) g ∧ items (akey a) g ≠ []);
  agg_exists : ∀ k, ¬ missing k → items k g ≠ [] → ∃ h a, (h, a) ∈ records (agg g) ∧ akey a = k
}.

Lemma find_records_items {V} (key : V → K) k (rs : list (nat * V)) : NoDup rs.*1 →
  omap (λ h, find_record h rs) (with_key key k rs).*1 = (with_key key k rs).*2.
Proof.
  intros Hnd. unfold with_key.
  assert (H : ∀ qs, (∀ p, p ∈ qs → p ∈ rs) → omap (λ h, find_record h rs) qs.*1 = qs.*2).
  { induction qs as [|[h v] qs IH]; intros Hin; [done|]. simpl.
    rewrite (proj2 (find_record_elem h v rs Hnd)) by (apply Hin; by left). f_equal.
    apply IH. intros p Hp. apply Hin. by right. }
  apply H. by intros p [_ ?]%list_elem_of_filter.
Qed.

Lemma group_items_spec k g : base_ok g → group_items k g ≡ₚ items k g.
Proof.
  intros []. unfold group_items, items. rewrite (equal_range_perm ukey (under g)) by done.
  rewrite find_records_items; [done|]. apply under_table0.
Qed.

Lemma modify_elem {V} h f (t : table V) h' v : (h', v) ∈ records (modify h f t) ↔
  ∃ v0, (h', v0) ∈ records t ∧ v = if decide (h' = h) then f v0 else v0.
Proof.
  unfold modify; simpl. rewrite list_elem_of_fmap. split.
  - intros ([g v0] & [= -> ->] & Hin). eauto.
  - intros (v0 & Hin & ->). exists (h', v0). done.
Qed.

Lemma modify_keys h f (t : table A) : (∀ a, akey (f a) = akey a) →
  map (λ p, akey p.2) (records (modify h f t)) = map (λ p, akey p.2) (records t).
Proof.
  intros Hf. unfold modify; simpl. rewrite map_map. apply map_ext. intros [h' v]; simpl.
  by case_decide.
Qed.

Lemma create_modify {V} (v : V) f (t : table V) : table_ok t →
  modify (next_handle t) f (create v t).2 = (create (f v) t).2.
Proof.
  intros [_ Hl]. unfold modify, create; simpl. f_equal. rewrite map_app. simpl.
  rewrite decide_True by done. f_equal.
  rewrite <- (map_id (records t)) at 2. apply map_ext_in. intros [h w] Hin%list_elem_of_In.
  rewrite Forall_forall in Hl. specialize (Hl _ Hin). simpl in Hl. by rewrite decide_False by lia.
Qed.

Lemma equal_range_nil k g : base_ok g → equal_range k (aindex g) = [] →
  ∀ h a, (h, a) ∈ records (agg g) → akey a ≠ k.
Proof.
  intros [] He h a Hin Hk. assert (h ∈ equal_range k (aindex g)) as Hx by (apply (equal_range_elem akey (agg g)); eauto).
  rewrite He in Hx. by apply elem_of_nil in Hx.
Qed.

Lemma equal_range_head k g h hs : base_ok g → equal_range k (aindex g) = h :: hs →
  ∃ a, (h, a) ∈ records (agg g) ∧ akey a = k
    ∧ ∀ h' a', (h', a') ∈ records (agg g) → h' = h ∨ akey a' = k → (h', a') = (h, a).
Proof.
  intros [] He. assert (h ∈ equal_range k (aindex g)) as Hx by (rewrite He; by left).
  apply (equal_range_elem akey (agg g)) in Hx as (a & Hin & Hk); [|done].
  exists a. split_and!; [done..|]. intros h' a' Hin' [->|Hk'].
  - by apply (NoDup_map_elem fst (records (agg g))); [apply agg_table0|..].
  - apply (NoDup_map_elem (λ p, akey p.2) (records (agg g))); [done..|]. simpl. congruence.
Qed.

Definition except (P : K → Prop) (k : K) (k' : K) : Prop := P k' ∧ k' ≠ k.

Lemma refresh_ok stale missing k g h hs l :
  base_ok g → agg_ok stale missing g → l ≡ₚ items k g → items k g ≠ [] → equal_range k (aindex g) = h :: hs →
  let g' := mk_grouped (under g) (uindex g) (modify h (λ a, aggregate a l) (agg g)) (aindex g) in
  base_ok g' ∧ agg_ok (except stale k) (except missing k) g'.
Proof using aggregate_key aggregate_overwrites.
  intros Hb Ha Hl0 Hne He g'. destruct (equal_range_head k g h hs Hb He) as (a & Hin & Hk & Hu).
  split.
  - destruct Hb. split; unfold g'; cbn [under uindex agg aindex]; try done.
    + by apply modify_ok.
    + by apply index_modify_ok.
    + by rewrite modify_keys.
  - destruct Ha. split.
    + simpl. intros h' b (v0 & Hin' & ->)%modify_elem. case_decide as Hd.
      * subst h'. assert ((h, v0) = (h, a)) as [= ->] by (apply Hu; auto).
        rewrite aggregate_key. destruct (agg_value0 _ _ Hin) as (l' & Hl & _).
        exists l. rewrite Hl at 1. rewrite aggregate_overwrites, Hk. done.
      * destruct (agg_value0 _ _ Hin') as (l' & Hl & Hs). exists l'. split; [done|].
        intros Hns. apply Hs. intros Hst. apply Hns. split; [done|]. intros Hk'.
        assert ((h', v0) = (h, a)) as [= -> ->] by (apply Hu; auto). done.
    + simpl. intros k' Hm Hi. destruct (decide (k' = k)) as [->|Hk'].
      * exists h, (aggregate a l). rewrite aggregate_key. split; [|done].
        apply modify_elem. exists a. by rewrite decide_True.
      * destruct (agg_exists0 k') as (h' & b & Hin' & Hb'); [|done|].
        { intros Hmi. by apply Hm. }
        exists h', b. split; [|done]. apply modify_elem. exists b. split; [done|].
        rewrite decide_False; [done|]. intros ->.
        assert ((h, b) = (h, a)) as [= ->] by (apply Hu; auto). congruence.
Qed.

Lemma create_aggregated_ok stale missing k g l :
  base_ok g → agg_ok stale missing g → l ≡ₚ items k g → items k g ≠ [] → equal_range k (aindex g) = [] →
  let g' := create_aggregated k l g in
  base_ok g' ∧ agg_ok (except stale k) (except missing k) g'.
Proof using fresh_key aggregate_key.
  intros Hb Ha Hl0 Hne He. pose proof (equal_range_nil k g Hb He) as Hno.
  unfold create_aggregated. cbn [create]. destruct Hb.
  pose proof (create_modify (fresh k) (λ a, aggregate a l) (agg g) agg_table0) as Hcm.
  unfold create at 1 in Hcm. cbn [snd] in Hcm. rewrite Hcm.
  assert (Hak : akey (aggregate (fresh k) l) = k) by by rewrite aggregate_key.
  split.
  - split; cbn [under uindex agg aindex]; try done.
    + by apply create_ok.
    + by apply index_created_ok.
    + simpl. rewrite map_app. simpl. rewrite Hak. apply NoDup_app. split_and!;
        [done| |by apply NoDup_singleton].
      intros k' ([h a] & -> & Hin)%list_elem_of_fmap Hx%list_elem_of_singleton. simpl in Hx.
      by destruct (Hno _ _ Hin).
  - destruct Ha. split; cbn [under uindex agg aindex records create snd].
    + intros h a [Hin|[= -> ->]%list_elem_of_singleton]%elem_of_app.
      * destruct (agg_value0 _ _ Hin) as (l' & Hl & Hs). exists l'. split; [done|].
        intros Hns. apply Hs. intros Hst. apply Hns. split; [done|]. by eapply Hno.
      * exists l. by rewrite Hak.
    + intros k' Hm Hi. destruct (decide (k' = k)) as [->|Hk'].
      * exists (next_handle (agg g)), (aggregate (fresh k) l). split; [|done].
        apply elem_of_app. right. by left.
      * destruct (agg_exists0 k') as (h & a & Hin & Hka); [|done|].
        { intros Hmi. by apply Hm. }
        exists h, a. split; [|done]. apply elem_of_app. by left.
Qed.

Lemma update_record_ok stale missing k g :
  base_ok g → agg_ok stale missing g → items k g ≠ [] →
  let g' := update_record k g in
  base_ok g' ∧ agg_ok (except stale k) (except missing k) g' ∧ under g' = under g
  ∧ uindex g' = uindex g.
Proof using fresh_key aggregate_key aggregate_overwrites.
  intros Hb Ha Hne. unfold update_record. pose proof (group_items_spec k g Hb) as Hl.
  destruct (equal_range k (aindex g)) as [|h hs] eqn:He.
  - destruct (create_aggregated_ok stale missing k g _ Hb Ha Hl Hne He). split_and!; done.
  - destruct (refresh_ok stale missing k g h hs _ Hb Ha Hl Hne He). split_and!; done.
Qed.

Lemma items_nonempty k g :
  items k g ≠ [] ↔ ∃ h v, (h, v) ∈ records (under g) ∧ ukey v = k.
Proof.
  unfold items, with_key. split.
  - destruct (filter _ _) as [|[h v] l] eqn:E; [done|]. intros _.
    assert ((h, v) ∈ filter (λ p, ukey p.2 = k) (records (under g))) as Hx by (rewrite E; by left).
    apply list_elem_of_filter in Hx as [? ?]. eauto.
  - intros (h & v & Hin & Hk) Hnil.
    assert (v ∈ (filter (λ p, ukey p.2 = k) (records (under g))).*2) as Hx.
    { apply (list_elem_of_fmap_2 snd _ (h, v)). by apply list_elem_of_filter. }
    rewrite Hnil in Hx. by apply elem_of_nil in Hx.
Qed.

(** ** The operations *)

Definition grouped_ok (g : grouped) : Prop := base_ok g ∧ agg_ok (λ _, False) (λ _, False) g.

Lemma agg_ok_weaken (s s' m m' : K → Prop) g :
  (∀ k, s k → s' k) → (∀ k, m k → m' k) → agg_ok s m g → agg_ok s' m' g.
Proof.
  intros Hs Hm []. split.
  - intros h a Hin. destruct (agg_value0 h a Hin) as (l & Hl & Hn). exists l. split; [done|].
    intros ?. apply Hn. auto.
  - intros k Hk. apply agg_exists0. auto.
Qed.

(** A change of the underlying table that only touches the group of [k]. *)
Lemma touch_ok s m k g g' :
  agg_ok s m g → agg g' = agg g → (∀ k', k' ≠ k → items k' g' = items k' g) →
  agg_ok (λ k', s k' ∨ k' = k) (λ k', m k' ∨ k' = k) g'.
Proof.
  intros [] Hagg Hi. split.
  - rewrite Hagg. intros h a Hin. destruct (agg_value0 h a Hin) as (l & Hl & Hn). exists l.
    split; [done|]. intros Hns. rewrite Hi by tauto. apply Hn. tauto.
  - rewrite Hagg. intros k' Hk. rewrite Hi by tauto. apply agg_exists0. tauto.
Qed.

Lemma with_key_app k (rs rs' : list (nat * T)) :
  with_key ukey k (rs ++ rs') = with_key ukey k rs ++ with_key ukey k rs'.
Proof. apply filter_app. Qed.

Lemma update_touched k g :
  base_ok g → agg_ok (λ k', False ∨ k' = k) (λ k', False ∨ k' = k) g → items k g ≠ [] →
  grouped_ok (update_record k g).
Proof using fresh_key aggregate_key aggregate_overwrites.
  intros Hb Ha Hne. destruct (update_record_ok _ _ k g Hb Ha Hne) as (Hb' & Ha' & _).
  split; [done|]. eapply agg_ok_weaken, Ha'; intros k' [[?|?] ?]; done.
Qed.

Lemma g_create_ok v g : grouped_ok g → grouped_ok (g_create v g).
Proof using fresh_key aggregate_key aggregate_overwrites.
  intros [Hb Ha]. unfold g_create. cbn [create]. set (g1 := mk_grouped _ _ _ _).
  assert (Hit : ∀ k, items k g1 = items k g ++ if decide (ukey v = k) then [v] else []).
  { intros k. unfold items, g1; simpl. rewrite with_key_app, fmap_app. f_equal. unfold with_key.
    case_decide; [by rewrite filter_cons_True|by rewrite filter_cons_False]. }
  apply update_touched.
  - destruct Hb. split; unfold g1; cbn [under uindex agg aindex]; try done;
      [by apply (create_ok v)|by apply (index_created_ok ukey v)].
  - eapply (touch_ok _ _ (ukey v) g); [exact Ha|done|]. intros k' Hk'.
    rewrite (Hit k'), decide_False by done. apply app_nil_r.
  - rewrite (Hit (ukey v)), decide_True by done. by destruct (items _ g).
Qed.

Lemma find_key h v (rs : list (nat * T)) : NoDup rs.*1 → find_record h rs = Some v →
  ∀ w, (h, w) ∈ rs → w = v.
Proof.
  intros Hnd Hf w Hw. apply (find_record_elem h v rs Hnd) in Hf.
  by assert ((h, w) = (h, v)) as [= ->] by (by apply (NoDup_map_elem fst rs)).
Qed.

Lemma items_modify k h f g ux ag ai :
  (∀ v, (h, v) ∈ records (under g) → ukey (f v) = ukey v ∧ ukey v ≠ k) →
  items k (mk_grouped (modify h f (under g)) ux ag ai) = items k g.
Proof.
  intros Hf. unfold items, modify, with_key; simpl. f_equal.
  induction (records (under g)) as [|[h' v] rs IH]; [done|]. simpl. case_decide as Hh.
  - subst h'. destruct (Hf v ltac:(by left)) as [He Hn].
    rewrite !filter_cons_False by (simpl; congruence). apply IH. intros w Hw. apply Hf. by right.
  - assert (H : filter (λ p, ukey p.2 = k) (map (λ '(h', v), (h', if decide (h' = h) then f v else v)) rs)
      = filter (λ p, ukey p.2 = k) rs) by (apply IH; intros w Hw; apply Hf; by right).
    destruct (decide (ukey v = k)).
    + rewrite !(filter_cons_True _ (h', v)) by done. by rewrite H.
    + by rewrite !(filter_cons_False _ (h', v)).
Qed.

Lemma g_modify_ok h f g : (∀ v, ukey (f v) = ukey v) → grouped_ok g → grouped_ok (g_modify h f g).
Proof using fresh_key aggregate_key aggregate_overwrites.
  intros Hf [Hb Ha]. unfold g_modify.
  destruct (find_record h (records (modify h f (under g)))) as [v|] eqn:Ev; [|done].
  set (g1 := mk_grouped _ _ _ _).
  assert (Hb1 : base_ok g1).
  { destruct Hb. split; unfold g1; cbn [under uindex agg aindex]; try done;
      [by apply modify_ok|by apply index_modify_ok]. }
  pose proof (under_table _ Hb1) as [Hnd _]. unfold g1 in Hnd. cbn [under] in Hnd.
  pose proof (proj1 (find_record_elem _ _ _ Hnd) Ev) as Hin.
  apply update_touched; [done| |].
  - eapply (touch_ok _ _ (ukey v) g); [exact Ha|done|]. intros k Hk. apply items_modify.
    intros w Hw. split; [done|]. intros <-. apply Hk.
    assert ((h, f w) ∈ records (modify h f (under g))) as Hfw
      by (apply modify_elem; exists w; by rewrite decide_True).
    by rewrite <- (find_key h v _ Hnd Ev _ Hfw), Hf.
  - apply items_nonempty. by exists h, v.
Qed.

Lemma g_clear_ok g : grouped_ok (g_clear g).
Proof.
  split.
  - split; simpl; try apply clear_ok; try apply index_cleared_ok. constructor.
  - split; simpl; [by intros ?? ?%elem_of_nil|]. by intros k _ [].
Qed.

Lemma find_record_erase {V} h h' (rs : list (nat * V)) : h' ≠ h →
  find_record h' (filter (λ p, p.1 ≠ h) rs) = find_record h' rs.
Proof.
  intros Hne. induction rs as [|[g v] rs IH]; [done|].
  destruct (decide (g = h)) as [->|].
  - rewrite filter_cons_False by (simpl; tauto). simpl. by rewrite decide_False by congruence.
  - rewrite filter_cons_True by done. simpl. by rewrite IH.
Qed.

(** While a removal is signalled the record is still in the table, but no index names it: the group is
    the same as if it were gone. *)
Lemma group_items_erased k h g ix ag ai :
  table_ok (under g) → index_ok ukey (under g) (uindex g) → ix = index_removed h (uindex g) →
  group_items k (mk_grouped (under g) ix ag ai) = group_items k (mk_grouped (erase h (under g)) ix ag ai).
Proof.
  intros Ht Hix ->. unfold group_items; cbn [under uindex].
  assert (H : ∀ h', h' ∈ equal_range k (index_removed h (uindex g)) → h' ≠ h).
  { intros h' (v & Hin & _)%(equal_range_elem ukey (erase h (under g))); [|by apply index_removed_ok].
    by apply list_elem_of_filter in Hin as [? _]. }
  revert H. generalize (equal_range k (index_removed h (uindex g))).
  induction l as [|h' l IH]; intros Hl; [done|]. simpl.
  rewrite find_record_erase by (apply Hl; by left).
  destruct (find_record h' (records (under g))); [f_equal|]; apply IH; intros; apply Hl; by right.
Qed.

Lemma erase_group_ok k g h hs :
  base_ok g → agg_ok (λ k', False ∨ k' = k) (λ k', False ∨ k' = k) g → items k g = [] →
  equal_range k (aindex g) = h :: hs →
  grouped_ok (mk_grouped (under g) (uindex g) (erase h (agg g)) (index_removed h (aindex g))).
Proof.
  intros Hb Ha Hnil He. destruct (equal_range_head k g h hs Hb He) as (a & Hin & Hk & Hu). split.
  - destruct Hb. split; cbn [under uindex agg aindex]; try done.
    + by apply erase_ok.
    + by apply index_removed_ok.
    + by apply (NoDup_map_filter (λ p, akey p.2)).
  - destruct Ha. split; simpl.
    + intros h' b [Hne Hin']%list_elem_of_filter. simpl in Hne.
      destruct (agg_value0 _ _ Hin') as (l & Hl & Hs). exists l. split; [done|]. intros _. apply Hs.
      intros [[]|Hk']. assert ((h', b) = (h, a)) as [= -> ->] by (apply Hu; auto). done.
    + intros k' _ Hi. destruct (decide (k' = k)) as [->|Hk']; [done|].
      destruct (agg_exists0 k') as (h' & b & Hin' & Hb'); [tauto|done|].
      exists h', b. split; [|done]. apply list_elem_of_filter. split; [|done]. simpl. intros ->.
      assert ((h, b) = (h, a)) as [= ->] by (apply Hu; auto). congruence.
Qed.

Lemma update_record_under k g t :
  group_items k g = group_items k (mk_grouped t (uindex g) (agg g) (aindex g)) →
  update_record k (mk_grouped t (uindex g) (agg g) (aindex g))
  = mk_grouped t (uindex g) (agg (update_record k g)) (aindex (update_record k g)).
Proof.
  intros Hi. unfold update_record. rewrite <- Hi. cbn [aindex].
  by destruct (equal_range k (aindex g)).
Qed.

Lemma on_removed_keeps k g : under (on_removed k g) = under g.
Proof.
  unfold on_removed, update_record, create_aggregated.
  by destruct (equal_range k (uindex g)), (equal_range k (aindex g)).
Qed.

Lemma on_removed_under k g t :
  group_items k g = group_items k (mk_grouped t (uindex g) (agg g) (aindex g)) →
  mk_grouped t (uindex (on_removed k g)) (agg (on_removed k g)) (aindex (on_removed k g))
  = on_removed k (mk_grouped t (uindex g) (agg g) (aindex g)).
Proof.
  intros Hi. unfold on_removed. cbn [uindex aindex agg under].
  destruct (equal_range k (uindex g)).
  - by destruct (equal_range k (aindex g)).
  - rewrite (update_record_under k g t Hi). f_equal. unfold update_record, create_aggregated.
    by destruct (equal_range k (aindex g)).
Qed.

Lemma g_remove_ok h g : grouped_ok g → grouped_ok (g_remove h g).
Proof using fresh_key aggregate_key aggregate_overwrites.
  intros [Hb Ha]. unfold g_remove. destruct (find_record h (records (under g))) as [v|] eqn:Ev; [|done].
  pose proof Hb as []. pose proof (proj1 (find_record_elem _ _ _ (proj1 under_table0)) Ev) as Hin.
  set (g1 := mk_grouped (under g) _ _ _).
  set (g2 := mk_grouped (erase h (under g)) (index_removed h (uindex g)) (agg g) (aindex g)).
  assert (Hb2 : base_ok g2).
  { split; unfold g2; cbn [under uindex agg aindex]; try done;
      [by apply erase_ok|by apply index_removed_ok]. }
  assert (Ha2 : agg_ok (λ k', False ∨ k' = ukey v) (λ k', False ∨ k' = ukey v) g2).
  { eapply (touch_ok _ _ (ukey v) g); [exact Ha|done|]. intros k Hk. unfold items, g2, with_key; simpl.
    f_equal. apply filter_filter_implies. intros [h' w] Hw Hkw; simpl in *. intros ->. apply Hk.
    by rewrite <- (find_key h v _ (proj1 under_table0) Ev w Hw). }
  assert (Hgi : group_items (ukey v) g1 = group_items (ukey v) g2)
    by (by apply (group_items_erased (ukey v) h g)).
  assert (Hr : mk_grouped (erase h (under (on_removed (ukey v) g1))) (uindex (on_removed (ukey v) g1))
      (agg (on_removed (ukey v) g1)) (aindex (on_removed (ukey v) g1)) = on_removed (ukey v) g2).
  { rewrite on_removed_keeps. exact (on_removed_under (ukey v) g1 (erase h (under g)) Hgi). }
  rewrite Hr. unfold on_removed. change (uindex g2) with (index_removed h (uindex g)).
  destruct (equal_range (ukey v) (index_removed h (uindex g))) as [|h' hs'] eqn:Eu.
  - assert (Hnil : items (ukey v) g2 = []).
    { apply Permutation_nil_r. rewrite <- group_items_spec by done. unfold group_items, g2; cbn [uindex]. by rewrite Eu. }
    assert (Hne : items (ukey v) g ≠ []).
    { apply items_nonempty. eauto. }
    destruct (agg_exists _ _ _ Ha (ukey v) ltac:(tauto) Hne) as (h0 & a & Hin0 & Hk0).
    destruct (equal_range (ukey v) (aindex g2)) as [|h1 hs1] eqn:Ea.
    + by destruct (equal_range_nil (ukey v) g2 Hb2 Ea h0 a Hin0).
    + by apply (erase_group_ok (ukey v) g2 h1 hs1).
  - apply update_touched; [done..|]. apply items_nonempty.
    assert (h' ∈ equal_range (ukey v) (index_removed h (uindex g))) as Hx by (rewrite Eu; by left).
    apply (equal_range_elem ukey (erase h (under g))) in Hx as (w & Hw & Hk); [|apply Hb2]. by exists h', w.
Qed.

(** ** Building *)

Lemma build_index_ok {V} (key : V → K) (t : table V) : table_ok t → index_ok key t (build_index key t).
Proof.
  intros [Hnd Hl]. unfold build_index.
  assert (H : ∀ rs done_ ix, NoDup (done_ ++ rs).*1 →
    index_ok key (mk_table done_ (next_handle t)) ix →
    index_ok key (mk_table (done_ ++ rs) (next_handle t))
      (foldl (λ ix '(h, v), index_created (key v) h ix) ix rs)).
  { induction rs as [|[h v] rs IH]; intros done_ ix Hn Hix; simpl; [by rewrite app_nil_r|].
    rewrite (cons_middle (h, v)), app_assoc. apply IH; [by rewrite <- app_assoc|].
    rewrite fmap_app in Hn. apply NoDup_app in Hn as (Hn1 & Hn2 & _).
    assert (Hh : h ∉ done_.*1) by (intros Hx; apply (Hn2 _ Hx); by left).
    pose proof (ix_handles _ _ _ Hix) as Hhs. destruct Hix. rewrite Forall_forall in ix_below0.
    assert (Hf : removal ix !! h = None).
    { destruct (removal ix !! h) as [i|] eqn:E; [|done]. apply ix_removal0 in E as [k Hin].
      destruct Hh. simpl in Hhs. rewrite <- Hhs. apply list_elem_of_fmap. by exists (i, (k, h)). }
    split; simpl.
    - by rewrite fmap_app, map_app, ix_entries0.
    - rewrite fmap_app. apply NoDup_app. split_and!; [done| |by apply NoDup_singleton].
      intros i (e & -> & He)%list_elem_of_fmap Heq%list_elem_of_singleton.
      specialize (ix_below0 _ He). simpl in Heq. lia.
    - apply Forall_app. split; [|by repeat constructor].
      apply Forall_forall. intros e He. specialize (ix_below0 _ He). simpl in *. lia.
    - intros h' i. rewrite Hf. setoid_rewrite elem_of_app. setoid_rewrite list_elem_of_singleton.
      destruct (decide (h' = h)) as [->|].
      + rewrite lookup_insert_eq. split; [intros [= <-]; eauto|].
        intros (k & [Hin|[= -> ->]]); [|done].
        assert (removal ix !! h = Some i) by (apply ix_removal0; eauto). congruence.
      + rewrite lookup_insert_ne, ix_removal0 by done. naive_solver. }
  specialize (H (records t) [] empty_index). simpl in H.
  assert (t = mk_table (records t) (next_handle t)) as -> by by destruct t.
  apply H; [done|]. split; simpl; [done|constructor|constructor|].
  intros h i. rewrite lookup_empty. split; [done|]. by intros (k & ?%elem_of_nil).
Qed.

Lemma group_by_ok t : table_ok t → grouped_ok (group_by t).
Proof using fresh_key aggregate_key aggregate_overwrites.
  intros Ht. unfold group_by.
  set (g0 := mk_grouped t (build_index ukey t) empty_table empty_index).
  assert (H : ∀ rs (missing : K → Prop) g, (∀ p, p ∈ rs → p ∈ records t) → under g = t →
    base_ok g → agg_ok (λ _, False) missing g →
    let g' := foldl (λ g '(h, v), update_record (ukey v) g) g rs in
    base_ok g' ∧ under g' = t ∧
    agg_ok (λ _, False) (λ k, missing k ∧ ∀ p, p ∈ rs → ukey p.2 ≠ k) g').
  { induction rs as [|[h v] rs IH]; intros missing g Hin Hu Hb Ha; simpl.
    - split_and!; [done..|]. eapply agg_ok_weaken, Ha; [done|]. intros k Hk. split; [done|].
      by intros p ?%elem_of_nil.
    - assert (Hne : items (ukey v) g ≠ []).
      { apply items_nonempty. exists h, v. rewrite Hu. split; [|done]. apply Hin. by left. }
      destruct (update_record_ok _ _ _ _ Hb Ha Hne) as (Hb' & Ha' & Hu' & _).
      destruct (IH (except missing (ukey v)) (update_record (ukey v) g)) as (? & ? & Ha2).
      + intros p Hp. apply Hin. by right.
      + congruence.
      + done.
      + eapply agg_ok_weaken, Ha'; [|done]. by intros k [].
      + split_and!; [done..|]. eapply agg_ok_weaken, Ha2; [done|].
        intros k [[Hm Hk] Hp]. split; [done|]. intros p [->|Hp']%elem_of_cons; [done|by apply Hp]. }
  destruct (H (records t) (λ _, True) g0) as (Hb & Hu & Ha); [done|done| | |].
  - split; simpl; [done|by apply build_index_ok|exact (clear_ok empty_table)|exact (index_cleared_ok akey empty_table empty_index)|constructor].
  - split; simpl; [by intros ?? ?%elem_of_nil|]. by intros k [].
  - split; [done|]. destruct Ha. split; [done|]. intros k _ Hi. apply agg_exists0; [|done].
    intros [_ Hp]. apply items_nonempty in Hi as (h & v & Hin & Hk). rewrite Hu in Hin.
    by apply (Hp (h, v)).
Qed.

(** ** What a client sees *)

(** A change of the underlying table through its interface. *)
Inductive g_op :=
  | op_create (v : T) | op_modify (h : nat) (f : T → T) | op_remove (h : nat) | op_clear.

Definition g_run (g : grouped) (op : g_op) : grouped :=
  match op with
  | op_create v => g_create v g
  | op_modify h f => g_modify h f g
  | op_remove h => g_remove h g
  | op_clear => g_clear g
  end.

(** The key of a record does not change while it is indexed. *)
Definition keeps_key (op : g_op) : Prop :=
  match op with op_modify _ f => ∀ v, ukey (f v) = ukey v | _ => True end.

(** [sdb/index.h:105-109] immutable_unique_index::find *)
Definition find_aggregated (k : K) (g : grouped) : option A :=
  match equal_range k (aindex g) with
  | [] => None
  | h :: _ => find_record h (records (agg g))
  end.

Lemma find_aggregated_spec k g : grouped_ok g →
  match find_aggregated k g with
  | None => items k g = []
  | Some a => items k g ≠ [] ∧ ∃ l, l ≡ₚ items k g ∧ a = aggregate (fresh k) l
  end.
Proof.
  intros [Hb Ha]. unfold find_aggregated. destruct (equal_range k (aindex g)) as [|h hs] eqn:He.
  - pose proof (equal_range_nil k g Hb He) as Hno. destruct (items k g) as [|x l] eqn:Ei; [done|].
    destruct (agg_exists _ _ _ Ha k) as (h & a & Hin & Hk); [tauto|by rewrite Ei|].
    by destruct (Hno _ _ Hin).
  - destruct (equal_range_head k g h hs Hb He) as (a & Hin & <- & _).
    destruct (agg_value _ _ _ Ha h a Hin) as (l & Hl & Hs). destruct (Hs ltac:(tauto)) as [Hp Hne].
    rewrite (proj2 (find_record_elem h a _ (proj1 (agg_table _ Hb))) Hin). eauto.
Qed.

(** What becomes of the table that is grouped: what it would become if nobody grouped it. *)
Definition t_run (t : table T) (op : g_op) : table T :=
  match op with
  | op_create v => (create v t).2
  | op_modify h f => modify h f t
  | op_remove h => erase h t
  | op_clear => clear_records t
  end.

Lemma update_record_keeps k g : under (update_record k g) = under g.
Proof. unfold update_record, create_aggregated. by destruct (equal_range k (aindex g)). Qed.

Lemma find_record_none {V} h (rs : list (nat * V)) : find_record h rs = None → ∀ p, p ∈ rs → p.1 ≠ h.
Proof.
  induction rs as [|[h' v] rs IH]; intros Hn p; [by intros ?%elem_of_nil|]. cbn [find_record] in Hn. case_decide as Hh; [done|].
  intros [->|Hp]%elem_of_cons; [done|auto].
Qed.

Lemma g_run_under g op : under (g_run g op) = t_run (under g) op.
Proof.
  destruct op as [v|h f|h|]; cbn [g_run t_run]; [| | |done].
  - unfold g_create. cbn [create]. by rewrite update_record_keeps.
  - unfold g_modify. destruct (find_record h (records (modify h f (under g)))) as [v|] eqn:E; [by rewrite update_record_keeps|].
    pose proof (find_record_none _ _ E) as Hn. unfold modify in *. cbn [records] in Hn. destruct (under g) as [rs nh]. cbn [records next_handle] in *.
    f_equal. rewrite <- (map_id rs) at 1. apply map_ext_in. intros [h' v] Hin%list_elem_of_In. case_decide as Hh; [|done]. subst h'.
    destruct (Hn (h, f v)); [|done]. apply list_elem_of_fmap. exists (h, v). by rewrite decide_True.
  - unfold g_remove. destruct (find_record h (records (under g))) as [v|] eqn:E; [cbn [under]; by rewrite on_removed_keeps|].
    unfold erase. destruct (under g) as [rs nh]. cbn [records next_handle] in *. f_equal. symmetry.
    apply filter_all_elem, (find_record_none _ _ E).
Qed.

Lemma group_by_under t : under (group_by t) = t.
Proof.
  unfold group_by. assert (∀ (rs : list (nat * T)) g, under (foldl (λ g '(h, v), update_record (ukey v) g) g rs) = under g) as H; [|by rewrite H].
  induction rs as [|[h v] rs IH]; intros g; [done|]. cbn [foldl]. by rewrite IH, update_record_keeps.
Qed.

(** C28: A grouped table is never out of date, as long as modifications keep the keys of records: after any sequence of
    creations, such modifications, removals and clears of the table it was made from, it holds exactly one record for
    every key that occurs in that table (and none for others), and that record is the aggregate of the key's present
    records, in the order in which the standard library keeps equal keys: if the aggregator does not look at the order,
    what grouping the table anew would give. The table itself becomes what it would if it were not grouped. *)
Theorem group_by_recomputes t ops k :
  table_ok t → Forall keeps_key ops →
  let g := foldl g_run (group_by t) ops in
  under g = foldl t_run t ops ∧
  match find_aggregated k g with
  | None => items k g = []
  | Some a => items k g ≠ [] ∧ akey a = k ∧ ∃ l, l ≡ₚ items k g ∧ a = aggregate (fresh k) l
  end ∧
  NoDup (map (λ p, akey p.2) (records (agg g))) ∧
  ((∀ a l l', l ≡ₚ l' → aggregate a l = aggregate a l') →
    find_aggregated k g = find_aggregated k (group_by (foldl t_run t ops))).
Proof using fresh_key aggregate_key aggregate_overwrites.
  intros Ht Hops g. assert (grouped_ok g ∧ under g = foldl t_run t ops ∧ table_ok (under g)) as (Hg & Hu & Ht').
  { unfold g. clear g. pose proof (group_by_ok t Ht) as Hg. pose proof (group_by_under t) as Hu. revert Hg Hu.
    generalize (group_by t). revert t Ht.
    induction Hops as [|op ops Hop Hops IH]; intros t Ht g Hg Hu; cbn [foldl]; [by rewrite Hu|].
    assert (grouped_ok (g_run g op)) as Hg'
      by (destruct op; simpl; [by apply g_create_ok|by apply g_modify_ok|by apply g_remove_ok|apply g_clear_ok]).
    apply IH; [|done|by rewrite g_run_under, Hu]. rewrite <- Hu, <- g_run_under. apply Hg'. }
  pose proof (find_aggregated_spec k g Hg) as Hf. split_and!; [done| |apply Hg|].
  - destruct (find_aggregated k g) as [a|]; [|done]. destruct Hf as (? & l & Hl & ->). split_and!; [done|by rewrite aggregate_key|eauto].
  - intros Hperm. rewrite <- Hu. pose proof (find_aggregated_spec k (group_by (under g)) (group_by_ok _ Ht')) as Hf2.
    assert (items k (group_by (under g)) = items k g) as Ei by (unfold items; by rewrite group_by_under). rewrite Ei in Hf2.
    destruct (find_aggregated k g) as [a|], (find_aggregated k (group_by (under g))) as [a'|]; try done; try (by destruct Hf2, Hf || by destruct Hf).
    destruct Hf as (_ & l & Hl & ->), Hf2 as (_ & l' & Hl' & ->). f_equal. apply Hperm. by rewrite Hl, Hl'.
Qed.
End group.

(** ** Witness: calls of functions grouped by address *)

Definition demo_calls_table : table (Z * Z) :=
  mk_table [(0%nat, (7, 10)%Z); (1%nat, (8, 5)%Z); (2%nat, (7, 3)%Z)] 3.

Definition demo_aggregate (a : Z * Z) (l : list (Z * Z)) : Z * Z := (a.1, foldr Z.add 0%Z l.*2).

Definition demo_g_ops : list (g_op (T := Z * Z)) :=
  [op_create (9, 4)%Z; op_modify 0 (λ v, (v.1, 100)%Z); op_remove 1].

Example demo_grouped :
  map snd (records (agg (foldl (g_run fst fst (λ k : Z, (k, 0%Z)) demo_aggregate)
    (group_by fst fst (λ k, (k, 0%Z)) demo_aggregate demo_calls_table) demo_g_ops)))
  = [(7, 103); (9, 4)]%Z.
Proof. vm_compute. reflexivity. Qed.

(** A modification that changes the key of a record: no index is told, and both groups are out of date. *)
Lemma rekeyed_group_stale :
  let g := foldl (g_run fst fst (λ k : Z, (k, 0%Z)) demo_aggregate)
    (group_by fst fst (λ k, (k, 0%Z)) demo_aggregate demo_calls_table) [op_modify 0 (λ v, (8, v.2)%Z)] in
  (items fst 7%Z g, find_aggregated 7%Z g) = ([(7, 3)%Z], Some (7, 13)%Z) ∧
  (items fst 8%Z g, find_aggregated 8%Z g) = ([(8, 10); (8, 5)]%Z, Some (8, 5)%Z).
Proof. vm_compute. done. Qed.

Lemma demo_table_ok : table_ok demo_calls_table.
Proof.
  split; [|by repeat constructor; simpl; lia]. simpl.
  repeat (apply NoDup_cons; split; [by apply not_elem_of_nil || (intros H; vm_compute in H;
    repeat (apply elem_of_cons in H as [?|H]; [done|]); by apply elem_of_nil in H)|]).
  apply NoDup_nil_2.
Defined.

(** Whether a library keeps equal keys in the order they came in or the other way round. *)
Lemma group_by_recomputes_witness :
  let g (EO : equal_order) := foldl (g_run fst fst (λ k : Z, (k, 0%Z)) demo_aggregate)
    (group_by fst fst (λ k, (k, 0%Z)) demo_aggregate demo_calls_table) demo_g_ops in
  under (g insertion_order) = foldl (t_run (T := Z * Z)) demo_calls_table demo_g_ops ∧
  NoDup (map (λ p, p.2.1) (records (agg (g reverse_order)))).
Proof.
  split.
  - apply (group_by_recomputes (EO := insertion_order) fst fst (λ k : Z, (k, 0%Z)) demo_aggregate) with (k := 7%Z);
      [done..|exact demo_table_ok|by repeat constructor].
  - apply (group_by_recomputes (EO := reverse_order) fst fst (λ k : Z, (k, 0%Z)) demo_aggregate) with (k := 7%Z);
      [done..|exact demo_table_ok|by repeat constructor].
Defined.
