(* ===== verification/Reqm.v ===== *)
(** Multiplexed requests (reqm/multiplexing_request.h).

    Several callers that ask for the same thing share one underlying request: the callbacks
    waiting under a key are kept in a list, a handle stands for one element of it, and the entry of
    the key is dropped with its last callback.  [invoke] runs an executor on every callback, and
    the executor is free to create and release requests, of the same key too.  The model makes each
    of these a step, so that a run interleaves the loop of an invocation with whatever the executor
    does between two of its iterations; the iterators of the invocations in progress are a stack. *)

From S2P Require Import Prelude.

Section reqm.
Context {K : Type} `{Countable K} {C : Type}.

(** [reqm/multiplexing_request.h:125-129] multiplexing_request. A node of [_callbacks] is named by the handle
    that stands for it; an empty callback is [None]. [underlying] is what the handle of the underlying request
    stands for, once it has been made. *)
Record multiplexing_request := mk_mx {
  callbacks : list (nat * option C);
  in_progress : bool;
  require_cleanup : bool;
  underlying : option nat
}.

(** [reqm/multiplexing_request.h:87-89] multiplexing_request. The constructor. *)
Definition new_mx : multiplexing_request := mk_mx [] false false None.

(** [reqm/multiplexing_request.h:34-41] map_type. The map of the requests, with what the steps need besides: the
    iterators of the loops that are running (innermost first), the calls made so far, the next
    handle, and the underlying requests whose handles were released. *)
Record reqm_state := mk_reqm {
  requests : gmap K multiplexing_request;
  running : list (K * nat);
  called : list (K * nat);
  next_handle : nat;
  released : list nat
}.

Definition empty_reqm : reqm_state := mk_reqm ∅ [] [] 0 [].

Definition ids (m : multiplexing_request) : list nat := (callbacks m).*1.

(** [reqm/multiplexing_request.h:44-60] create. The entry is inserted when the key has none; the caller is
    asked to make the underlying request when the list is empty. *)
Definition mx_create (k : K) (cb : C) (s : reqm_state) : (bool * nat) * reqm_state :=
  let mx := default new_mx (requests s !! k) in
  let first := bool_decide (callbacks mx = []) in
  let inner := next_handle s in
  let mx' := mk_mx (callbacks mx ++ [(inner, Some cb)]) (in_progress mx) (require_cleanup mx) (underlying mx) in
  ((first, inner), mk_reqm (<[k := mx']> (requests s)) (running s) (called s) (S inner) (released s)).

(** [reqm/multiplexing_request.h:114-122] destroy_if_empty *)
Definition destroy_if_empty (k : K) (mx : multiplexing_request) (s : reqm_state) : reqm_state :=
  match callbacks mx with
  | [] => mk_reqm (delete k (requests s)) (running s) (called s) (next_handle s) (released s ++ option_list (underlying mx))
  | _ => mk_reqm (<[k := mx]> (requests s)) (running s) (called s) (next_handle s) (released s)
  end.

(** [reqm/multiplexing_request.h:105-112] destroy_inner. The deleter of a handle. *)
Definition destroy_inner (k : K) (inner : nat) (s : reqm_state) : result reqm_state :=
  match requests s !! k with
  | None => UB
  | Some mx =>
    if decide (inner ∈ ids mx) then
      Ret (if in_progress mx
        then mk_reqm
          (<[k := mk_mx (map (λ c, if decide (c.1 = inner) then (c.1, None) else c) (callbacks mx))
                    true true (underlying mx)]> (requests s)) (running s) (called s) (next_handle s) (released s)
        else destroy_if_empty k
          (mk_mx (filter (λ c, c.1 ≠ inner) (callbacks mx)) false (require_cleanup mx) (underlying mx)) s)
    else UB
  end.

(** [reqm/multiplexing_request.h:67-68] invoke. The body of the loop: an empty callback is passed over. *)
Definition run_callback (k : K) (c : nat * option C) (rest : list (K * nat)) (s : reqm_state) :
    reqm_state :=
  mk_reqm (requests s) ((k, c.1) :: rest)
    (match c.2 with Some _ => called s ++ [(k, c.1)] | None => called s end) (next_handle s) (released s).

(** [reqm/multiplexing_request.h:94-103] exit_invocation *)
Definition exit_invocation (k : K) (mx : multiplexing_request) (rest : list (K * nat))
    (s : reqm_state) : reqm_state :=
  let cs := if require_cleanup mx then filter (λ c, is_Some c.2) (callbacks mx) else callbacks mx in
  destroy_if_empty k (mk_mx cs false false (underlying mx))
    (mk_reqm (requests s) rest (called s) (next_handle s) (released s)).

(** [reqm/multiplexing_request.h:62-69] invoke. The guard raises [_in_progress], the loop starts at the first
    callback. *)
Definition invoke (k : K) (s : reqm_state) : result reqm_state :=
  match requests s !! k with
  | None => UB
  | Some mx =>
    let mx' := mk_mx (callbacks mx) true (require_cleanup mx) (underlying mx) in
    let s' := mk_reqm (<[k := mx']> (requests s)) (running s) (called s) (next_handle s) (released s) in
    Ret (match callbacks mx with
      | [] => exit_invocation k mx' (running s) s'
      | c :: _ => run_callback k c (running s) s'
      end)
  end.

(** The part of a list behind a node. *)
Fixpoint after (i : nat) (cs : list (nat * option C)) : option (list (nat * option C)) :=
  match cs with
  | [] => None
  | c :: cs => if decide (c.1 = i) then Some cs else after i cs
  end.

(** [reqm/multiplexing_request.h:67-68] invoke. The step of the innermost loop: it moves to the next node, or ends the
    invocation behind the last one. *)
Definition invoke_next (s : reqm_state) : result reqm_state :=
  match running s with
  | [] => UB
  | (k, i) :: rest =>
    match requests s !! k with
    | None => UB
    | Some mx =>
      match after i (callbacks mx) with
      | None => UB
      | Some [] => Ret (exit_invocation k mx rest s)
      | Some (c :: _) => Ret (run_callback k c rest s)
      end
    end
  end.

(** [reqm/multiplexing_request.h:50-55] create. Through [request_init::underlying] the one who is first puts the handle of
    the request he makes; a handle that is there is released. *)
Definition set_underlying (k : K) (u : nat) (s : reqm_state) : result reqm_state :=
  match requests s !! k with
  | None => UB
  | Some mx =>
    Ret (mk_reqm (<[k := mk_mx (callbacks mx) (in_progress mx) (require_cleanup mx) (Some u)]> (requests s)) (running s) (called s)
      (next_handle s) (released s ++ option_list (underlying mx)))
  end.

Inductive act := a_create (k : K) (cb : C) | a_underlying (k : K) (u : nat) | a_release (k : K) (h : nat) | a_invoke (k : K) | a_next.

Definition act_step (s : reqm_state) (a : act) : result reqm_state :=
  match a with
  | a_create k cb => Ret (mx_create k cb s).2
  | a_underlying k u => set_underlying k u s
  | a_release k h => destroy_inner k h s
  | a_invoke k => invoke k s
  | a_next => invoke_next s
  end.

Definition act_run : reqm_state → list act → result reqm_state := fold_m act_step.

(** [h] is a handle that has not been released. *)
Definition live (k : K) (h : nat) (s : reqm_state) : Prop :=
  ∃ mx cb, requests s !! k = Some mx ∧ (h, Some cb) ∈ callbacks mx.

(** What the users of the class keep to: a handle is released once, an underlying request is put and a key is invoked
    while it has an entry, and not from inside its own invocation. *)
Definition allowed (s : reqm_state) (a : act) : Prop :=
  match a with
  | a_create _ _ => True
  | a_underlying k _ => is_Some (requests s !! k)
  | a_release k h => live k h s
  | a_invoke k => is_Some (requests s !! k) ∧ k ∉ (running s).*1
  | a_next => running s ≠ []
  end.

Inductive reqm_reachable : reqm_state → Prop :=
  | rr_init : reqm_reachable empty_reqm
  | rr_step s a s' : reqm_reachable s → allowed s a → act_step s a = Ret s' → reqm_reachable s'.

(** ** The invariant *)

Definition all_set (m : multiplexing_request) : Prop := Forall (λ c, is_Some c.2) (callbacks m).

Record mx_ok (busy : Prop) (n : nat) (m : multiplexing_request) : Prop := {
  ok_nonempty : callbacks m ≠ [];
  ok_distinct : NoDup (ids m);
  ok_busy : in_progress m = true ↔ busy;
  ok_idle : ¬ busy → require_cleanup m = false;
  ok_clean : require_cleanup m = false → all_set m;
  ok_fresh : Forall (λ i, i < n) (ids m)
}.

Record reqm_ok (s : reqm_state) : Prop := {
  ok_entries : map_Forall (λ k m, mx_ok (k ∈ (running s).*1) (next_handle s) m) (requests s);
  ok_loops : Forall (λ r, ∃ m, requests s !! r.1 = Some m ∧ r.2 ∈ ids m) (running s);
  ok_nested : NoDup (running s).*1
}.

Lemma mx_ok_busy b b' n m : (b ↔ b') → mx_ok b n m → mx_ok b' n m.
Proof. intros Hb []. constructor; rewrite <-?Hb; auto. Qed.

Lemma mx_ok_mono b n n' m : n ≤ n' → mx_ok b n m → mx_ok b n' m.
Proof.
  intros Hn []. constructor; auto. eapply Forall_impl; [done|]. simpl. lia.
Qed.

Lemma reqm_ok_update s k m c n rl :
  reqm_ok s → next_handle s ≤ n → mx_ok (k ∈ (running s).*1) n m →
  (∀ i, (k, i) ∈ running s → i ∈ ids m) →
  reqm_ok (mk_reqm (<[k := m]> (requests s)) (running s) c n rl).
Proof.
  intros [He Hl Hn] Hle Hm Hin. split; simpl; [| |done].
  - apply map_Forall_insert_2; [done|]. eapply map_Forall_impl; [done|].
    simpl. eauto using mx_ok_mono.
  - apply Forall_forall. intros [k' i] Hr. destruct (decide (k' = k)) as [->|Hne]; simpl.
    + exists m. rewrite lookup_insert_eq. auto.
    + rewrite lookup_insert_ne by done. rewrite Forall_forall in Hl. by apply (Hl _ Hr).
Qed.

(** The entry of a key that is not being invoked is replaced or dropped. *)
Lemma reqm_ok_set rs run c n rl k om :
  map_Forall (λ k' m, k' ≠ k → mx_ok (k' ∈ run.*1) n m) rs →
  Forall (λ r, r.1 ≠ k → ∃ m, rs !! r.1 = Some m ∧ r.2 ∈ ids m) run →
  NoDup run.*1 → k ∉ run.*1 → (∀ m, om = Some m → mx_ok False n m) →
  reqm_ok (mk_reqm (partial_alter (λ _, om) k rs) run c n rl).
Proof.
  intros He Hl Hn Hk Hom. split; simpl; [| |done].
  - intros k' m'. destruct (decide (k' = k)) as [->|Hne].
    + rewrite lookup_partial_alter_eq. intros ->. eapply mx_ok_busy; [|by apply Hom]. done.
    + rewrite lookup_partial_alter_ne by done. intros Hm. by apply (He _ _ Hm).
  - rewrite Forall_forall in Hl |- *. intros [k' j] Hin. simpl.
    assert (k' ≠ k) as Hne by (intros ->; destruct Hk; apply list_elem_of_fmap; by exists (k, j)).
    rewrite lookup_partial_alter_ne by done. by apply (Hl _ Hin).
Qed.

Lemma destroy_if_empty_ok s k m rs run c n rl :
  map_Forall (λ k' m, k' ≠ k → mx_ok (k' ∈ run.*1) n m) rs →
  Forall (λ r, r.1 ≠ k → ∃ m, rs !! r.1 = Some m ∧ r.2 ∈ ids m) run →
  NoDup run.*1 → k ∉ run.*1 → (callbacks m ≠ [] → mx_ok False n m) →
  s = mk_reqm rs run c n rl → reqm_ok (destroy_if_empty k m s).
Proof.
  intros He Hl Hn Hk Hm ->. unfold destroy_if_empty.
  destruct (callbacks m) as [|b bs] eqn:E; apply reqm_ok_set; try done.
  intros m' [= <-]. by apply Hm.
Qed.

Lemma sublist_map {A B} (f : A → B) (l1 l2 : list A) :
  l1 `sublist_of` l2 → map f l1 `sublist_of` map f l2.
Proof. induction 1; simpl; by constructor. Qed.

(** A list from which callbacks have been taken out, none of them empty, is that of an idle entry. *)
Lemma mx_ok_sublist b n m cs u :
  mx_ok b n m → cs `sublist_of` callbacks m → cs ≠ [] → Forall (λ c, is_Some c.2) cs →
  mx_ok False n (mk_mx cs false false u).
Proof.
  intros [] Hsub Hne Hset.
  assert (cs.*1 `sublist_of` ids m) as Hids by by apply sublist_map.
  constructor; simpl; try done.
  - by eapply sublist_NoDup.
  - rewrite Forall_forall in ok_fresh0 |- *. intros x Hx. apply ok_fresh0.
    by eapply elem_of_submseteq, sublist_submseteq.
Qed.

Lemma exit_invocation_ok s k i rest m :
  reqm_ok s → running s = (k, i) :: rest → requests s !! k = Some m →
  reqm_ok (exit_invocation k m rest s).
Proof.
  intros [He Hl Hn] Hr Hm. rewrite Hr in *. simpl in Hn.
  apply NoDup_cons in Hn as [Hk Hn]. apply Forall_cons in Hl as [_ Hl].
  pose proof (He _ _ Hm) as Hok. eapply destroy_if_empty_ok; [| |exact Hn|exact Hk| |done].
  - intros k' m' Hm' Hne. eapply mx_ok_busy; [|by apply (He _ _ Hm')]. simpl. set_solver.
  - eapply Forall_impl; [exact Hl|]. by intros r Hr0 _.
  - simpl. intros Hcs. eapply mx_ok_sublist; [exact Hok| |done|].
    + destruct (require_cleanup m); [apply sublist_filter|done].
    + destruct (require_cleanup m) eqn:E; [|by apply (ok_clean _ _ _ Hok)].
      apply Forall_forall. by intros x [? _]%list_elem_of_filter.
Qed.

Lemma push_ok s k m i l :
  reqm_ok s → requests s !! k = Some m → k ∉ (running s).*1 → i ∈ ids m →
  reqm_ok (mk_reqm (<[k := mk_mx (callbacks m) true (require_cleanup m) (underlying m)]> (requests s))
    ((k, i) :: running s) l (next_handle s) (released s)).
Proof.
  intros [He Hl Hn] Hm Hk Hi. split; simpl; [| |by constructor].
  - intros k' m' [[<- <-]|[Hne Hm']]%lookup_insert_Some.
    + pose proof (He _ _ Hm) as []. constructor; simpl; auto; set_solver.
    + eapply mx_ok_busy; [|by apply (He _ _ Hm')]. set_solver.
  - constructor; [eexists; rewrite lookup_insert_eq; eauto|].
    rewrite Forall_forall in Hl |- *. intros [k' j] Hin. simpl.
    rewrite lookup_insert_ne; [by apply (Hl _ Hin)|].
    intros <-. destruct Hk. apply list_elem_of_fmap. by exists (k, j).
Qed.

Lemma reqm_ok_move s k i j rest c :
  reqm_ok s → running s = (k, i) :: rest →
  (∃ m, requests s !! k = Some m ∧ j ∈ ids m) →
  reqm_ok (mk_reqm (requests s) ((k, j) :: rest) c (next_handle s) (released s)).
Proof.
  intros [He Hl Hn] Hr Hj. rewrite Hr in *. split; simpl in *; [done| |done].
  apply Forall_cons in Hl as [_ Hl]. by constructor.
Qed.

Lemma after_elem i cs r : after i cs = Some r → ∀ c, c ∈ r → c ∈ cs.
Proof.
  induction cs as [|c cs IH]; [done|]. simpl. case_decide.
  - intros [= <-]. set_solver.
  - intros Hr c' Hc. apply elem_of_cons. auto.
Qed.

Lemma after_Some i cs : i ∈ cs.*1 → is_Some (after i cs).
Proof.
  induction cs as [|c cs IH]; simpl; [by intros ?%elem_of_nil|].
  case_decide; [eauto|]. intros [?|?]%elem_of_cons; [congruence|auto].
Qed.

Lemma ids_elem c m : c ∈ callbacks m → c.1 ∈ ids m.
Proof. intros Hc. by apply list_elem_of_fmap_2. Qed.

Lemma mx_create_ok k cb s : reqm_ok s → reqm_ok (mx_create k cb s).2.
Proof.
  intros Hok. destruct Hok as [He Hl Hn] eqn:E. clear E. unfold mx_create. simpl.
  destruct (requests s !! k) as [m|] eqn:Hm; simpl.
  - pose proof (He _ _ Hm) as Hmx. apply reqm_ok_update; [done|lia| |].
    + destruct Hmx. constructor; unfold ids, all_set in *; simpl; auto.
      * by destruct (callbacks m).
      * rewrite fmap_app. apply NoDup_app. split; [done|]. simpl.
        split; [|apply NoDup_singleton]. intros i Hi ->%list_elem_of_singleton.
        rewrite Forall_forall in ok_fresh0. specialize (ok_fresh0 _ Hi). lia.
      * intros Hc. apply Forall_app. split; [auto|]. by repeat constructor.
      * rewrite fmap_app. apply Forall_app. split; [|repeat constructor; simpl; lia].
        eapply Forall_impl; [done|]. simpl. lia.
    + intros i Hi. rewrite Forall_forall in Hl. destruct (Hl _ Hi) as (m' & Hm' & Hin).
      simpl in *. simplify_eq. unfold ids. simpl. rewrite fmap_app. set_solver.
  - assert (∀ i, (k, i) ∉ running s) as Hk.
    { intros i Hi. rewrite Forall_forall in Hl. destruct (Hl _ Hi) as (m' & Hm' & _).
      by simplify_eq/=. }
    apply reqm_ok_update; [done|lia| |by intros i ?%Hk].
    constructor; unfold ids, all_set; simpl; try done.
    + apply NoDup_singleton.
    + split; [done|]. intros ([k' i] & -> & Hi)%list_elem_of_fmap. by destruct (Hk i).
    + by intros _; apply Forall_singleton; eexists.
    + by apply Forall_singleton, Nat.lt_succ_diag_r.
Qed.

Lemma live_ids k h s : live k h s → ∃ m, requests s !! k = Some m ∧ h ∈ ids m.
Proof. intros (m & cb & Hm & Hin). exists m. split; [done|]. by apply (ids_elem (h, Some cb)). Qed.

Lemma clear_ids h (cs : list (nat * option C)) :
  (map (λ c, if decide (c.1 = h) then (c.1, None) else c) cs).*1 = cs.*1.
Proof. rewrite <- list_fmap_compose. apply list_fmap_ext. intros i c _. simpl. by case_decide. Qed.

Lemma destroy_inner_ok k h s :
  reqm_ok s → live k h s → ∃ s', destroy_inner k h s = Ret s' ∧ reqm_ok s'.
Proof.
  intros Hok (m & Hm & Hh)%live_ids. unfold destroy_inner. rewrite Hm, decide_True by done.
  eexists; split; [done|]. pose proof Hok as [He Hl Hn]. pose proof (He _ _ Hm) as Hmx.
  destruct (in_progress m) eqn:Hp.
  - apply reqm_ok_update; [done|lia| |].
    + destruct Hmx. constructor; unfold ids, all_set in *; cbn [callbacks in_progress require_cleanup];
        rewrite ?clear_ids; auto; first [by destruct (callbacks m) | naive_solver].
    + intros i Hi. unfold ids. simpl. rewrite clear_ids. rewrite Forall_forall in Hl.
      destruct (Hl _ Hi) as (m' & Hm' & ?). by simplify_eq/=.
  - assert (k ∉ (running s).*1) as Hk by (intros ?%(ok_busy _ _ _ Hmx); congruence).
    assert (require_cleanup m = false) as Hr by by apply (ok_idle _ _ _ Hmx).
    apply (destroy_if_empty_ok _ _ _ (requests s) (running s) (called s) (next_handle s) (released s));
      [| |exact Hn|exact Hk| |by destruct s].
    + by intros k' m' Hm' _; apply (He _ _ Hm').
    + eapply Forall_impl; [exact Hl|]. by intros.
    + simpl. intros Hne. rewrite Hr. eapply mx_ok_sublist; [exact Hmx|apply sublist_filter|done|].
      apply Forall_filter_2. by apply (ok_clean _ _ _ Hmx).
Qed.

Lemma invoke_ok k s :
  reqm_ok s → is_Some (requests s !! k) → k ∉ (running s).*1 →
  ∃ s', invoke k s = Ret s' ∧ reqm_ok s'.
Proof.
  intros Hok [m Hm] Hk. unfold invoke. rewrite Hm. eexists; split; [done|].
  pose proof (ok_entries _ Hok _ _ Hm) as Hmx.
  destruct (callbacks m) as [|c cs] eqn:E; [by destruct (ok_nonempty _ _ _ Hmx)|].
  unfold run_callback. simpl. rewrite <- E. apply push_ok; try done.
  apply ids_elem. rewrite E. set_solver.
Qed.

Lemma invoke_next_ok s :
  reqm_ok s → running s ≠ [] → ∃ s', invoke_next s = Ret s' ∧ reqm_ok s'.
Proof.
  intros Hok Hr. unfold invoke_next. destruct (running s) as [|[k i] rest] eqn:E; [done|].
  pose proof (ok_loops _ Hok) as Hl. rewrite E in Hl.
  apply Forall_cons in Hl as [(m & Hm & Hi) _]. simpl in Hm, Hi. rewrite Hm.
  destruct (after_Some i (callbacks m) Hi) as [r Hr']. rewrite Hr'.
  destruct r as [|c r]; (eexists; split; [done|]).
  - by eapply exit_invocation_ok.
  - eapply reqm_ok_move; [done|done|]. exists m. split; [done|]. apply ids_elem.
    eapply after_elem; [done|]. set_solver.
Qed.

Lemma set_underlying_ok k u s : reqm_ok s → is_Some (requests s !! k) → ∃ s', set_underlying k u s = Ret s' ∧ reqm_ok s'.
Proof.
  intros Hok [m Hm]. unfold set_underlying. rewrite Hm. eexists; split; [done|]. pose proof (ok_entries _ Hok _ _ Hm) as [].
  apply reqm_ok_update; [done|lia|by constructor|]. intros i Hi. pose proof (ok_loops _ Hok) as Hl. rewrite Forall_forall in Hl.
  destruct (Hl _ Hi) as (m' & Hm' & ?). by simplify_eq/=.
Qed.

Lemma act_step_ok s a :
  reqm_ok s → allowed s a → ∃ s', act_step s a = Ret s' ∧ reqm_ok s'.
Proof.
  destruct a; simpl; intros Hok Ha.
  - eexists; split; [done|]. by apply mx_create_ok.
  - by apply set_underlying_ok.
  - by apply destroy_inner_ok.
  - destruct Ha. by apply invoke_ok.
  - by apply invoke_next_ok.
Qed.

Lemma reqm_reachable_ok s : reqm_reachable s → reqm_ok s.
Proof.
  induction 1 as [|s a s' _ IH Ha Hs].
  - split; simpl; [by apply map_Forall_empty|by constructor|by constructor].
  - destruct (act_step_ok s a IH Ha) as (s2 & Hs2 & Hok). rewrite Hs in Hs2. by injection Hs2 as ->.
Qed.

(** C24: Whatever the executor creates and releases while callbacks are being invoked, nothing
    dangles: every step of a disciplined run is defined, an entry of the map always has a callback,
    and between two invocations it has no empty ones left. *)
Theorem multiplexing_safe s a :
  reqm_reachable s → allowed s a →
  ∃ s', act_step s a = Ret s' ∧
    map_Forall (λ k m, callbacks m ≠ [] ∧ (k ∉ (running s').*1 → all_set m)) (requests s').
Proof.
  intros Hr Ha. destruct (act_step_ok s a (reqm_reachable_ok _ Hr) Ha) as (s' & Hs & Hok).
  exists s'. split; [done|]. intros k m Hm. pose proof (ok_entries _ Hok _ _ Hm) as Hmx.
  split; [apply Hmx|]. intros Hk. apply (ok_clean _ _ _ Hmx). by apply (ok_idle _ _ _ Hmx).
Qed.

(** ** What is called *)

(** Once released, a handle names no callback. *)
Definition dead (k : K) (h : nat) (s : reqm_state) : Prop :=
  h < next_handle s ∧ ¬ live k h s.

Lemma destroy_if_empty_live k m s k' h :
  live k' h (destroy_if_empty k m s) →
  (k' = k ∧ ∃ cb, (h, Some cb) ∈ callbacks m) ∨ (k' ≠ k ∧ live k' h s).
Proof.
  unfold destroy_if_empty. intros (m' & cb & Hm' & Hin).
  destruct (callbacks m) as [|c cs] eqn:E; simpl in Hm'.
  - apply lookup_delete_Some in Hm' as [? ?]. right. split; [done|]. by exists m', cb.
  - apply lookup_insert_Some in Hm' as [[<- <-]|[? ?]].
    + left. rewrite <- E. eauto.
    + right. split; [done|]. by exists m', cb.
Qed.

Lemma exit_live k m rest s k' h :
  requests s !! k = Some m → live k' h (exit_invocation k m rest s) → live k' h s.
Proof.
  intros Hm [[-> [cb Hin]]|[_ Hl]]%destroy_if_empty_live; [|done].
  exists m, cb. split; [done|]. simpl in Hin.
  destruct (require_cleanup m); [by apply list_elem_of_filter in Hin as [_ ?]|done].
Qed.

(** A step brings no handle to life but the one it makes. *)
Lemma live_step s a s' k h :
  act_step s a = Ret s' → live k h s' → live k h s ∨ next_handle s ≤ h.
Proof.
  destruct a as [k1 cb|k1 u|k1 h1|k1|]; simpl.
  - intros [= <-] (m & cb' & Hm & Hin). simpl in Hm.
    apply lookup_insert_Some in Hm as [[<- <-]|[? ?]]; [|left; by exists m, cb'].
    simpl in Hin. apply elem_of_app in Hin as [Hin|Hin].
    + left. destruct (requests s !! k1) as [m0|] eqn:E; simpl in Hin; [by exists m0, cb'|].
      by apply elem_of_nil in Hin.
    + right. apply list_elem_of_singleton in Hin. simplify_eq. lia.
  - unfold set_underlying. destruct (requests s !! k1) as [m|] eqn:Hm; [|done]. intros [= <-] (m' & cb & Hm' & Hin).
    simpl in Hm'. left. apply lookup_insert_Some in Hm' as [[<- <-]|[? ?]]; [by exists m, cb|by exists m', cb].
  - unfold destroy_inner. destruct (requests s !! k1) as [m|] eqn:Hm; [|done].
    case_decide; [|done]. destruct (in_progress m); intros [= <-].
    + intros (m' & cb & Hm' & Hin). simpl in Hm'. left.
      apply lookup_insert_Some in Hm' as [[<- <-]|[? ?]]; [|by exists m', cb].
      simpl in Hin. apply list_elem_of_fmap in Hin as ([j o] & Hj & Hin). simpl in Hj.
      case_decide; simplify_eq. by exists m, cb.
    + intros [[-> [cb Hin]]|[_ ?]]%destroy_if_empty_live; [|by left].
      left. exists m, cb. by apply list_elem_of_filter in Hin as [_ ?].
  - unfold invoke. destruct (requests s !! k1) as [m|] eqn:Hm; [|done]. intros [= <-] Hl.
    assert (live k h (mk_reqm (<[k1 := mk_mx (callbacks m) true (require_cleanup m) (underlying m)]> (requests s))
      (running s) (called s) (next_handle s) (released s))) as (m' & cb & Hm' & Hin).
    { destruct (callbacks m); [eapply exit_live, Hl; simpl; by rewrite lookup_insert_eq|done]. }
    left. simpl in Hm'. apply lookup_insert_Some in Hm' as [[<- <-]|[? ?]]; [|by exists m', cb].
    by exists m, cb.
  - unfold invoke_next. destruct (running s) as [|[k1 i] rest]; [done|].
    destruct (requests s !! k1) as [m|] eqn:Hm; [|done].
    destruct (after i (callbacks m)) as [[|c r]|]; [..|done]; intros [= <-] Hl; left;
      [by eapply exit_live|done].
Qed.

Lemma exit_called k m rest s : called (exit_invocation k m rest s) = called s.
Proof. unfold exit_invocation, destroy_if_empty. simpl. by case_match. Qed.

Lemma run_callback_called k c rest s :
  ∃ l, called (run_callback k c rest s) = called s ++ l ∧
    ∀ k' h, (k', h) ∈ l → k' = k ∧ ∃ cb, c = (h, Some cb).
Proof.
  unfold run_callback. destruct c as [i [cb|]]; simpl.
  - exists [(k, i)]. split; [done|]. intros k' h ?%list_elem_of_singleton. simplify_eq. eauto.
  - exists []. split; [by rewrite app_nil_r|]. by intros ?? ?%elem_of_nil.
Qed.

(** A step calls nothing but a callback that has not been released. *)
Lemma called_step s a s' :
  act_step s a = Ret s' →
  ∃ l, called s' = called s ++ l ∧ ∀ k h, (k, h) ∈ l → live k h s.
Proof.
  assert (∀ P : K → nat → Prop, ∃ l, called s = called s ++ l ∧ ∀ k h, (k, h) ∈ l → P k h) as Hno.
  { intros P. exists []. split; [by rewrite app_nil_r|]. by intros ?? ?%elem_of_nil. }
  destruct a as [k1 cb|k1 u|k1 h1|k1|]; simpl.
  - by intros [= <-].
  - unfold set_underlying. destruct (requests s !! k1); [|done]. by intros [= <-].
  - unfold destroy_inner. destruct (requests s !! k1) as [m|]; [|done].
    case_decide; [|done]. intros [= <-]. destruct (in_progress m); simpl; [done|].
    unfold destroy_if_empty. by case_match.
  - unfold invoke. destruct (requests s !! k1) as [m|] eqn:Hm; [|done]. intros [= <-].
    destruct (callbacks m) as [|c cs] eqn:E; [by rewrite exit_called|].
    destruct (run_callback_called k1 c (running s) (mk_reqm
      (<[k1 := mk_mx (c :: cs) true (require_cleanup m) (underlying m)]> (requests s)) (running s) (called s)
      (next_handle s) (released s))) as (l & Hl & Hc).
    exists l. split; [done|]. intros k h [-> [cb ->]]%Hc. exists m, cb. split; [done|].
    rewrite E. set_solver.
  - unfold invoke_next. destruct (running s) as [|[k1 i] rest]; [done|].
    destruct (requests s !! k1) as [m|] eqn:Hm; [|done].
    destruct (after i (callbacks m)) as [[|c r]|] eqn:Ha; [..|done]; intros [= <-];
      [by rewrite exit_called|].
    destruct (run_callback_called k1 c rest s) as (l & Hl & Hc).
    exists l. split; [done|]. intros k h [-> [cb ->]]%Hc. exists m, cb. split; [done|].
    eapply after_elem; [done|]. set_solver.
Qed.

Lemma next_handle_step s a s' : act_step s a = Ret s' → next_handle s ≤ next_handle s'.
Proof.
  assert (∀ k m s, next_handle (destroy_if_empty k m s) = next_handle s) as Hd
    by (intros; unfold destroy_if_empty; by case_match).
  destruct a as [k1 cb|k1 u|k1 h1|k1|]; simpl.
  - intros [= <-]. simpl. lia.
  - unfold set_underlying. destruct (requests s !! k1); [|done]. by intros [= <-].
  - unfold destroy_inner. repeat case_match; intros; simplify_eq; rewrite ?Hd; simpl; lia.
  - unfold invoke. repeat case_match; intros; simplify_eq; unfold exit_invocation;
      rewrite ?Hd; simpl; lia.
  - unfold invoke_next. repeat case_match; intros; simplify_eq; unfold exit_invocation;
      rewrite ?Hd; simpl; lia.
Qed.

Lemma dead_step s a s' k h : act_step s a = Ret s' → dead k h s → dead k h s'.
Proof.
  intros Hs [Hlt Hd]. pose proof (next_handle_step _ _ _ Hs). split; [lia|].
  intros [?|?]%(live_step _ _ _ _ _ Hs); [done|lia].
Qed.

Lemma dead_run acts s s' k h :
  act_run s acts = Ret s' → dead k h s → ∃ l, called s' = called s ++ l ∧ (k, h) ∉ l.
Proof.
  revert s. induction acts as [|a acts IH]; intros s; simpl.
  - intros [= <-] _. exists []. split; [by rewrite app_nil_r|]. by intros ?%elem_of_nil.
  - destruct (act_step s a) as [s1| |] eqn:Hs; [|done..]. intros Hr Hd.
    destruct (called_step _ _ _ Hs) as (l1 & Hl1 & Hc).
    destruct (IH s1 Hr (dead_step _ _ _ _ _ Hs Hd)) as (l2 & Hl2 & Hn).
    exists (l1 ++ l2). split; [by rewrite Hl2, Hl1, app_assoc|].
    intros [?%Hc|?]%elem_of_app; [|done]. by destruct Hd.
Qed.

Lemma release_dead s k h s' :
  reqm_ok s → live k h s → destroy_inner k h s = Ret s' → dead k h s'.
Proof.
  intros Hok Hlive Hd. destruct (live_ids _ _ _ Hlive) as (m & Hm & Hh).
  pose proof (ok_entries _ Hok _ _ Hm) as Hmx. split.
  - pose proof (next_handle_step s (a_release k h) s' Hd). pose proof (ok_fresh _ _ _ Hmx) as Hf.
    rewrite Forall_forall in Hf. specialize (Hf _ Hh). simpl in Hf. lia.
  - revert Hd. unfold destroy_inner. rewrite Hm, decide_True by done.
    destruct (in_progress m); intros [= <-].
    + intros (m' & cb & Hm' & Hin). simpl in Hm'. rewrite lookup_insert_eq in Hm'.
      simplify_eq. simpl in Hin. apply list_elem_of_fmap in Hin as ([j o] & Hj & _).
      simpl in Hj. case_decide; simplify_eq.
    + intros [[_ [cb Hin]]|[? _]]%destroy_if_empty_live; [|done].
      simpl in Hin. by apply list_elem_of_filter in Hin as [? _].
Qed.

(** A released callback is not called any more: not by an invocation that starts later, and not
    by one that was under way, from inside of which it was released. *)
Theorem released_never_called s k h acts s' :
  reqm_reachable s → live k h s → act_run s (a_release k h :: acts) = Ret s' →
  ∃ l, called s' = called s ++ l ∧ (k, h) ∉ l.
Proof.
  intros Hr Hlive. simpl.
  destruct (destroy_inner k h s) as [s1| |] eqn:Hs; simpl; [|done..]. intros Hrun.
  pose proof (release_dead _ _ _ _ (reqm_reachable_ok _ Hr) Hlive Hs) as Hd.
  destruct (called_step s (a_release k h) s1 Hs) as (l1 & Hl1 & Hc).
  destruct (dead_run _ _ _ _ _ Hrun Hd) as (l2 & Hl2 & Hn).
  assert (called s1 = called s) as <-; [|eauto].
  revert Hs. unfold destroy_inner. repeat case_match; intros; simplify_eq; simpl; try done.
  unfold destroy_if_empty. by case_match.
Qed.

Lemma after_split i cb pre suf :
  NoDup (pre ++ (i, cb) :: suf).*1 → after i (pre ++ (i, cb) :: suf) = Some suf.
Proof.
  induction pre as [|[j o] pre IH]; simpl; [by rewrite decide_True|].
  intros [Hn Hnd]%NoDup_cons. rewrite decide_False; [auto|].
  intros ->. destruct Hn. rewrite fmap_app. set_solver.
Qed.

Lemma loop_run k suf u : ∀ pre i cb rest s,
  let m := mk_mx (pre ++ (i, cb) :: suf) true false u in
  running s = (k, i) :: rest → requests s !! k = Some m → NoDup (ids m) → all_set m →
  act_run s (replicate (S (length suf)) a_next) =
    Ret (mk_reqm (<[k := mk_mx (callbacks m) false false u]> (requests s)) rest
      (called s ++ map (k,.) suf.*1) (next_handle s) (released s)).
Proof.
  induction suf as [|[j o] suf IH]; intros pre i cb rest s m Hr Hm Hnd Hset;
    unfold act_run; cbn [replicate length fold_m act_step]; unfold invoke_next;
    rewrite Hr, Hm; unfold m in *; unfold ids in Hnd; cbn [callbacks] in *;
    rewrite after_split by done; cbn [mbind result_bind fold_m].
  - unfold exit_invocation, destroy_if_empty. simpl.
    rewrite app_nil_r. by destruct pre; simpl.
  - unfold run_callback. cbn [fst snd].
    assert (is_Some o) as [cb' ->].
    { unfold all_set in Hset. simpl in Hset. rewrite Forall_forall in Hset.
      apply (Hset (j, o)). set_solver. }
    unfold act_run in IH. rewrite (cons_middle (i, cb) pre), app_assoc in *.
    etransitivity; [apply (IH (pre ++ [(i, cb)]) j (Some cb') rest
      (mk_reqm (requests s) ((k, j) :: rest) (called s ++ [(k, j)]) (next_handle s) (released s)))|];
      [done..|]. simpl. by rewrite <- !app_assoc.
Qed.

(** An invocation whose executor creates and releases nothing calls every callback of the key
    once, in the order they were created in, and leaves the map as it was. *)
Theorem invoke_calls_all s k m :
  reqm_reachable s → requests s !! k = Some m → k ∉ (running s).*1 →
  act_run s (a_invoke k :: replicate (length (callbacks m)) a_next) =
    Ret (mk_reqm (requests s) (running s) (called s ++ map (k,.) (ids m)) (next_handle s) (released s)).
Proof.
  intros Hok%reqm_reachable_ok Hm Hk. pose proof (ok_entries _ Hok _ _ Hm) as Hmx.
  assert (require_cleanup m = false) as Hc by by apply (ok_idle _ _ _ Hmx).
  assert (in_progress m = false) as Hp.
  { apply not_true_is_false. by intros ?%(ok_busy _ _ _ Hmx). }
  pose proof (ok_clean _ _ _ Hmx Hc) as Hset. pose proof (ok_distinct _ _ _ Hmx) as Hnd.
  pose proof (ok_nonempty _ _ _ Hmx) as Hne.
  destruct m as [[|[i o] cs] p c u]; simpl in Hc, Hp, Hne; [done|]. subst p c.
  assert (is_Some o) as [cb ->] by (apply Forall_cons in Hset; apply Hset).
  unfold act_run. cbn [fold_m act_step callbacks length]. unfold invoke. rewrite Hm.
  cbn [callbacks mbind result_bind require_cleanup]. unfold run_callback. cbn [fst snd].
  pose proof (loop_run k cs u [] i (Some cb) (running s)) as Hloop. unfold act_run in Hloop.
  rewrite Hloop; simpl; [|done|by rewrite lookup_insert_eq|done|done].
  rewrite insert_insert_eq, <- app_assoc. simpl. by rewrite insert_id.
Qed.
End reqm.

(** ** A run: two callbacks wait for one key, the first of them releases the other *)

Definition demo_reqm : list (act (K := Z) (C := Z)) := [a_create 5%Z 1%Z; a_create 5%Z 2%Z].
Definition demo_waiting : reqm_state (K := Z) (C := Z) :=
  match act_run empty_reqm demo_reqm with Ret s => s | _ => empty_reqm end.

Lemma demo_waiting_reachable : reqm_reachable demo_waiting.
Proof.
  apply (rr_step (mx_create 5%Z 1%Z empty_reqm).2 (a_create 5%Z 2%Z)); [|done|done].
  by apply (rr_step empty_reqm (a_create 5%Z 1%Z)); [apply rr_init|..].
Defined.

Definition demo_invoking : reqm_state (K := Z) (C := Z) :=
  match act_step demo_waiting (a_invoke 5%Z) with Ret s => s | _ => empty_reqm end.

Lemma demo_invoking_reachable : reqm_reachable demo_invoking.
Proof.
  apply (rr_step demo_waiting (a_invoke 5%Z)); [apply demo_waiting_reachable| |done].
  split; [by eexists|]. by intros ?%elem_of_nil.
Defined.

Lemma demo_invoking_live : live 5%Z 1 demo_invoking.
Proof. eexists _, 2%Z. split; [reflexivity|]. simpl. set_solver. Defined.

Lemma multiplexing_safe_witness :
  ∃ s', act_step demo_invoking (a_release 5%Z 1) = Ret s' ∧
    map_Forall (λ k m, callbacks m ≠ [] ∧ (k ∉ (running s').*1 → all_set m)) (requests s').
Proof.
  apply multiplexing_safe; [apply demo_invoking_reachable|apply demo_invoking_live].
Defined.

Definition demo_after : reqm_state (K := Z) (C := Z) :=
  match act_run demo_invoking [a_release 5%Z 1; a_next; a_next] with
  | Ret s => s | _ => empty_reqm end.

Lemma released_never_called_witness :
  ∃ l, called demo_after = called demo_invoking ++ l ∧ (5%Z, 1) ∉ l.
Proof.
  apply (released_never_called demo_invoking 5%Z 1 [a_next; a_next]);
    [apply demo_invoking_reachable|apply demo_invoking_live|].
  vm_compute. reflexivity.
Defined.

Lemma invoke_calls_all_witness :
  act_run demo_waiting (a_invoke 5%Z :: replicate 2 a_next) =
    Ret (mk_reqm (requests demo_waiting) [] [(5%Z, 0); (5%Z, 1)] 2 []).
Proof.
  apply (invoke_calls_all demo_waiting 5%Z (mk_mx [(0, Some 1%Z); (1, Some 2%Z)] false false None));
    [apply demo_waiting_reachable|reflexivity|]. simpl. by intros ?%elem_of_nil.
Defined.
