(* ===== verification/Intel.v ===== *)
(** Memory and instructions (patcher/src/intel, patcher/src/replace.h, common/range.h,
    common/src/memory.cpp).

    Code is patched in place, so the model of the patcher has a memory: a function from addresses
    to bytes, with its writes explicit.  Addresses are integers, and a pointer stays inside of the
    allocation it was made for, so that pointer arithmetic does not wrap; a displacement is read and
    written at its width.  [ldisasm] measures one instruction; it is translated with its tables and
    its quirks. *)

From S2P Require Import Prelude.
Local Open Scope Z_scope.

(** * Memory *)

Abbreviation mem := (Z → Z).

Definition poke (m : mem) (a v : Z) : mem := λ x, if x =? a then v else m x.

(** The [n] bytes at [a]. *)
Fixpoint peek (m : mem) (a : Z) (n : nat) : list Z :=
  match n with O => [] | S n => m a :: peek m (a + 1) n end.

Fixpoint write (m : mem) (a : Z) (bs : list Z) : mem :=
  match bs with [] => m | b :: bs => write (poke m a b) (a + 1) bs end.

(** [common/src/memory.cpp:27-34] mem_copy. The bytes are moved one by one, from the first on. *)
Fixpoint mem_copy (m : mem) (dest src : Z) (length : nat) : mem :=
  match length with
  | O => m
  | S length => mem_copy (poke m dest (m src)) (dest + 1) (src + 1) length
  end.

(** [common/src/memory.cpp:36-42] mem_set *)
Fixpoint mem_set (m : mem) (dest value : Z) (length : nat) : mem :=
  match length with
  | O => m
  | S length => mem_set (poke m dest value) (dest + 1) value length
  end.

(** [common/range.h:28-47] range *)
Record range := mk_range { r_start : Z; r_length : Z }.

(** [common/range.h:70-72] range::end *)
Definition r_end (r : range) : Z := r_start r + r_length r.

(** [common/range.h:78-80] range::inside *)
Definition inside (r : range) (ptr : Z) : bool := (r_start r <=? ptr) && (ptr <? r_end r).

(** A little endian value of [n] bytes in memory. *)
Fixpoint get_le (m : mem) (a : Z) (n : nat) : Z :=
  match n with O => 0 | S n => m a + 256 * get_le m (a + 1) n end.

Definition bytes_ok (m : mem) : Prop := ∀ a, in_u 8 (m a).

(** ** Reads and writes *)

Lemma peek_length m a n : length (peek m a n) = n.
Proof. revert a; induction n as [|n IH]; intros; simpl; [done|by rewrite IH]. Qed.

Lemma peek_ext m m' a n :
  (∀ x, a ≤ x < a + Z.of_nat n → m x = m' x) → peek m a n = peek m' a n.
Proof.
  revert a; induction n as [|n IH]; intros a He; [done|]. simpl.
  f_equal; [apply He; lia|]. apply IH. intros x Hx. apply He. lia.
Qed.

Lemma poke_eq m a v : poke m a v a = v.
Proof. unfold poke. by rewrite Z.eqb_refl. Qed.

Lemma poke_ne m a v x : x ≠ a → poke m a v x = m x.
Proof. unfold poke. intros Hx. apply Z.eqb_neq in Hx. by rewrite Hx. Qed.

Lemma write_out m a bs x : x < a ∨ a + len bs ≤ x → write m a bs x = m x.
Proof.
  revert m a; induction bs as [|b bs IH]; intros m a Hx; simpl in *; [done|].
  rewrite IH by lia. apply poke_ne. lia.
Qed.

Lemma write_in m a bs i : (i < length bs)%nat →
  write m a bs (a + Z.of_nat i) = nth i bs 0.
Proof.
  revert m a i; induction bs as [|b bs IH]; intros m a i Hi; simpl in *; [lia|].
  destruct i as [|i].
  - rewrite write_out by lia. rewrite Z.add_0_r. apply poke_eq.
  - replace (a + Z.of_nat (S i)) with (a + 1 + Z.of_nat i) by lia. apply IH. lia.
Qed.

Lemma nth_peek m a n i : (i < n)%nat → nth i (peek m a n) 0 = m (a + Z.of_nat i).
Proof.
  revert a i; induction n as [|n IH]; intros a i Hi; [lia|]. simpl.
  destruct i as [|i]; [by rewrite Z.add_0_r|]. rewrite IH by lia. f_equal. lia.
Qed.

Lemma peek_write m a bs : peek (write m a bs) a (length bs) = bs.
Proof.
  apply nth_ext with 0 0; [apply peek_length|]. intros i Hi. rewrite peek_length in Hi.
  rewrite nth_peek by done. by apply write_in.
Qed.

(** What has been overwritten is put back by writing what was read there before. *)
Lemma write_back m m' a n :
  (∀ x, x < a ∨ a + Z.of_nat n ≤ x → m' x = m x) → ∀ x, write m' a (peek m a n) x = m x.
Proof.
  intros Hm x. destruct (decide (a ≤ x < a + Z.of_nat n)) as [Hx|Hx].
  - replace x with (a + Z.of_nat (Z.to_nat (x - a))) by lia.
    rewrite write_in by (rewrite peek_length; lia). apply nth_peek. lia.
  - rewrite write_out by (rewrite peek_length; lia). apply Hm. lia.
Qed.

Lemma mem_copy_out m d s n x : x < d ∨ d + Z.of_nat n ≤ x → mem_copy m d s n x = m x.
Proof.
  revert m d s; induction n as [|n IH]; intros m d s Hx; simpl; [done|].
  rewrite IH by lia. apply poke_ne. lia.
Qed.

(** Copying to an address that does not overlap the source, or precedes it. *)
Lemma mem_copy_write m d s n :
  d ≤ s ∨ s + Z.of_nat n ≤ d → ∀ x, mem_copy m d s n x = write m d (peek m s n) x.
Proof.
  revert m d s; induction n as [|n IH]; intros m d s Hd x; simpl; [done|].
  rewrite IH by lia. f_equal. apply peek_ext. intros y Hy. apply poke_ne. lia.
Qed.

Lemma mem_set_out m d v n x : x < d ∨ d + Z.of_nat n ≤ x → mem_set m d v n x = m x.
Proof.
  revert m d; induction n as [|n IH]; intros m d Hx; simpl; [done|].
  rewrite IH by lia. apply poke_ne. lia.
Qed.

Lemma mem_set_in m d v n x : d ≤ x < d + Z.of_nat n → mem_set m d v n x = v.
Proof.
  revert m d; induction n as [|n IH]; intros m d Hx; simpl; [lia|].
  destruct (decide (x = d)) as [->|Hne]; [|apply IH; lia].
  rewrite mem_set_out by lia. apply poke_eq.
Qed.

(** * The length of an instruction *)

(** [patcher/src/intel/ldisasm.h:11-11] LDISASM_R *)
Definition LDISASM_R (x : Z) : Z := Z.shiftr x 4.
(** [patcher/src/intel/ldisasm.h:12-12] LDISASM_C *)
Definition LDISASM_C (x : Z) : Z := Z.land x 0xF.

(** [patcher/src/intel/ldisasm.h:14-14] legacyPrefixes *)
Definition legacyPrefixes : list Z :=
  [0xF0; 0xF2; 0xF3; 0x2E; 0x36; 0x3E; 0x26; 0x64; 0x65; 0x66; 0x67].
(** [patcher/src/intel/ldisasm.h:15-15] op1modrm *)
Definition op1modrm : list Z :=
  [0x62; 0x63; 0x69; 0x6B; 0xC0; 0xC1; 0xC4; 0xC5; 0xC6; 0xC7; 0xD0; 0xD1; 0xD2; 0xD3; 0xF6; 0xF7;
   0xFE; 0xFF].
(** [patcher/src/intel/ldisasm.h:16-16] op1imm8 *)
Definition op1imm8 : list Z :=
  [0x6A; 0x6B; 0x80; 0x82; 0x83; 0xA8; 0xC0; 0xC1; 0xC6; 0xCD; 0xD4; 0xD5; 0xEB].
(** [patcher/src/intel/ldisasm.h:17-17] op1imm32 *)
Definition op1imm32 : list Z := [0x68; 0x69; 0x81; 0xA9; 0xC7; 0xE8; 0xE9].
(** [patcher/src/intel/ldisasm.h:18-18] op2modrm *)
Definition op2modrm : list Z := [0x0D; 0xA3; 0xA4; 0xA5; 0xAB; 0xAC; 0xAD; 0xAE; 0xAF].

(** [patcher/src/intel/ldisasm.h:20-20] findByte *)
Definition findByte (arr : list Z) (x : Z) : bool := existsb (λ a, a =? x) arr.

(** [patcher/src/intel/ldisasm.h:22-41] parseModRM. [b] comes in at the byte before the ModR/M one, and goes out at
    the last byte of the operand. *)
Definition parseModRM (m : mem) (b : Z) (addressPrefix : bool) : Z :=
  let b := b + 1 in
  let modrm := m b in
  if negb addressPrefix || (addressPrefix && (0x40 <=? m b)) then
    let hasSIB := (m b <? 0xC0) && (Z.land (m b) 7 =? 4) && negb addressPrefix in
    let b := if hasSIB then b + 1 else b in
    if (0x40 <=? modrm) && (modrm <=? 0x7F) then b + 1
    else if ((modrm <=? 0x3F) && (Z.land modrm 7 =? 5)) || ((0x80 <=? modrm) && (modrm <=? 0xBF))
    then b + (if addressPrefix then 2 else 4)
    else if hasSIB && (Z.land (m b) 7 =? 5)
    then b + (if Z.land modrm 64 =? 0 then 4 else 1)
    else b
  else if addressPrefix && (modrm =? 0x26) then b + 2
  else b.

(** What the prefixes of an instruction say. *)
Record prefixes := mk_prefixes { p_at : Z; operandPrefix : bool; addressPrefix : bool; rexW : bool }.

(** [patcher/src/intel/ldisasm.h:45-58] ldisasm. The loop over the prefixes; [i < 14] bounds the legacy ones only,
    so that a run of REX prefixes needs as much fuel as it is long. *)
Fixpoint scan_prefixes (fuel : nat) (m : mem) (x86_64_mode : bool) (i : Z) (p : prefixes) :
    option prefixes :=
  match fuel with
  | O => None
  | S fuel =>
    let c := m (p_at p) in
    if ((i <? 14) && findByte legacyPrefixes c) || (if x86_64_mode then LDISASM_R c =? 4 else false)
    then scan_prefixes fuel m x86_64_mode (i + 1)
      (if c =? 0x66 then mk_prefixes (p_at p + 1) true (addressPrefix p) (rexW p)
       else if c =? 0x67 then mk_prefixes (p_at p + 1) (operandPrefix p) true (rexW p)
       else if (LDISASM_R c =? 4) && (8 <=? LDISASM_C c)
       then mk_prefixes (p_at p + 1) (operandPrefix p) (addressPrefix p) true
       else mk_prefixes (p_at p + 1) (operandPrefix p) (addressPrefix p) (rexW p))
    else Some p
  end.

(** [patcher/src/intel/ldisasm.h:61-82] ldisasm. The opcodes behind 0F; the result is the position of the last byte
    looked at, and the size of the immediate operand. *)
Definition two_byte_opcode (m : mem) (p : prefixes) : Z * Z :=
  let b := p_at p + 1 in
  if (m b =? 0x38) || (m b =? 0x3A) then
    (parseModRM m (b + 1) (addressPrefix p), if m b =? 0x3A then 1 else 0)
  else
    let r := LDISASM_R (m b) in
    let c := LDISASM_C (m b) in
    let offset :=
      if r =? 8 then 4
      else if ((r =? 7) && (c <? 4)) || (m b =? 0xA4) || (m b =? 0xC2)
              || ((0xC3 <? m b) && (m b <=? 0xC6)) || (m b =? 0xBA) || (m b =? 0xAC) then 1
      else 0 in
    (if findByte op2modrm (m b) || (negb (r =? 3) && (0 <? r) && (r <? 7)) || (0xD0 <=? m b)
        || ((r =? 7) && negb (c =? 7)) || (r =? 9) || (r =? 0xB) || ((r =? 0xC) && (c <? 8))
        || ((r =? 0) && (c <? 4))
     then parseModRM m b (addressPrefix p) else b, offset).

(** [patcher/src/intel/ldisasm.h:83-102] ldisasm. The opcodes of one byte. *)
Definition one_byte_opcode (m : mem) (p : prefixes) : Z * Z :=
  let b := p_at p in
  let r := LDISASM_R (m b) in
  let c := LDISASM_C (m b) in
  let offset :=
    if ((r =? 0xE) && (c <? 8)) || ((r =? 0xB) && (c <? 8)) || (r =? 7)
       || ((r <? 4) && ((c =? 4) || (c =? 0xC))) || ((m b =? 0xF6) && (Z.land (m (b + 1)) 48 =? 0))
       || findByte op1imm8 (m b) then 1
    else if (m b =? 0xC2) || (m b =? 0xCA) then 2
    else if m b =? 0xC8 then 3
    else if ((r <? 4) && ((c =? 5) || (c =? 0xD))) || ((r =? 0xB) && (8 <=? c))
            || ((m b =? 0xF7) && (Z.land (m (b + 1)) 48 =? 0)) || findByte op1imm32 (m b)
    then (if rexW p then 8 else if operandPrefix p then 2 else 4)
    else if (r =? 0xA) && (c <? 4)
    then (if rexW p then 8 else if addressPrefix p then 2 else 4)
    else if (m b =? 0xEA) || (m b =? 0x9A) then (if operandPrefix p then 4 else 6)
    else 0 in
  (if findByte op1modrm (m b) || ((r <? 4) && ((c <? 4) || ((8 <=? c) && (c <? 0xC)))) || (r =? 8)
      || ((r =? 0xD) && (8 <=? c))
   then parseModRM m b (addressPrefix p) else b, offset).

(** [patcher/src/intel/ldisasm.h:43-105] ldisasm. [None] when the fuel does not cover the prefixes. *)
Definition ldisasm (fuel : nat) (m : mem) (address : Z) (x86_64_mode : bool) : option Z :=
  p ← scan_prefixes fuel m x86_64_mode 0 (mk_prefixes address false false false);
  let '(b, offset) := if m (p_at p) =? 0x0F then two_byte_opcode m p else one_byte_opcode m p in
  Some (b + 1 + offset - address).

(** ** Its bounds *)

Lemma parseModRM_bounds m b ap : b + 1 ≤ parseModRM m b ap ≤ b + 6.
Proof. unfold parseModRM. repeat case_match; lia. Qed.

Lemma scan_prefixes_at fuel m x64 i p p' :
  scan_prefixes fuel m x64 i p = Some p' → p_at p ≤ p_at p' < p_at p + Z.of_nat fuel.
Proof.
  revert i p; induction fuel as [|fuel IH]; intros i p; [done|]. cbn [scan_prefixes].
  destruct (_ || _).
  - intros Hs%IH. revert Hs. repeat case_match; simpl; lia.
  - intros [= <-]. lia.
Qed.

Lemma findByte_elem arr c : findByte arr c = true → c ∈ arr.
Proof.
  unfold findByte. intros (x & Hx & Heq)%existsb_exists. apply Z.eqb_eq in Heq as ->.
  by apply list_elem_of_In.
Qed.

(** A REX prefix is recognised in 64-bit mode only. *)
Lemma scan_prefixes_rex fuel m i p p' :
  scan_prefixes fuel m false i p = Some p' → rexW p' = rexW p.
Proof.
  revert i p; induction fuel as [|fuel IH]; intros i p; [done|]. cbn [scan_prefixes].
  rewrite orb_false_r. destruct (i <? 14); cbn [andb]; [|by intros [= <-]].
  destruct (findByte legacyPrefixes (m (p_at p))) eqn:Hf; [|by intros [= <-]].
  intros ->%IH. apply findByte_elem in Hf.
  destruct (m (p_at p) =? 102); [done|]. destruct (m (p_at p) =? 103); [done|].
  replace (LDISASM_R (m (p_at p)) =? 4) with false; [done|].
  symmetry. revert Hf. generalize (m (p_at p)). intros z Hz.
  repeat (apply elem_of_cons in Hz as [->|Hz]; [done|]). by apply elem_of_nil in Hz.
Qed.

(** The opcode and its operand, behind the prefixes. *)
Definition opcode (m : mem) (p : prefixes) : Z * Z :=
  if m (p_at p) =? 0x0F then two_byte_opcode m p else one_byte_opcode m p.

Lemma opcode_bounds m p q z :
  opcode m p = (q, z) →
  p_at p ≤ q ≤ p_at p + 8 ∧ 0 ≤ z ≤ 8 ∧ (rexW p = false → q + z ≤ p_at p + 12).
Proof.
  pose proof (parseModRM_bounds m (p_at p + 1 + 1) (addressPrefix p)).
  pose proof (parseModRM_bounds m (p_at p + 1) (addressPrefix p)).
  pose proof (parseModRM_bounds m (p_at p) (addressPrefix p)).
  unfold opcode, two_byte_opcode, one_byte_opcode.
  repeat case_match; intros [= <- <-]; (split_and!; [lia..|]); intros; try congruence; lia.
Qed.

Lemma ldisasm_opcode fuel m a x64 :
  ldisasm fuel m a x64 =
    p ← scan_prefixes fuel m x64 0 (mk_prefixes a false false false);
    Some ((opcode m p).1 + 1 + (opcode m p).2 - a).
Proof.
  unfold ldisasm, opcode. destruct (scan_prefixes _ _ _ _ _) as [p|]; [simpl|done].
  by destruct (if m (p_at p) =? 15 then two_byte_opcode m p else one_byte_opcode m p).
Qed.

Lemma ldisasm_bounds_fuel fuel m a x64 n :
  ldisasm fuel m a x64 = Some n →
  1 ≤ n ≤ Z.of_nat fuel + 16 ∧ (x64 = false → n ≤ Z.of_nat fuel + 12).
Proof.
  rewrite ldisasm_opcode. destruct (scan_prefixes _ _ _ _ _) as [p|] eqn:Hp; [simpl|done].
  intros [= <-]. destruct (opcode_bounds m p (opcode m p).1 (opcode m p).2) as (H1 & H2 & H3);
    [by destruct (opcode m p)|].
  pose proof (scan_prefixes_at _ _ _ _ _ _ Hp) as Ha. simpl in Ha. split; [lia|].
  intros ->. apply scan_prefixes_rex in Hp. specialize (H3 Hp). lia.
Qed.

(** In 32-bit mode the prefixes are the fourteen legacy ones at most. *)
Lemma scan_prefixes_total m : ∀ (k : nat) i p, (14 - i ≤ Z.of_nat k) →
  is_Some (scan_prefixes (S k) m false i p).
Proof.
  induction k as [|k IH]; intros i p Hi; cbn [scan_prefixes].
  - replace (i <? 14) with false by lia. simpl. eauto.
  - destruct ((i <? 14) && _); simpl; [|eauto]. apply IH. lia.
Qed.

(** In 32-bit mode the length of every instruction is found, and lies between 1 and 27 bytes:
    an iterator over instructions moves forward, and the offset of a jumper's entry, which is two
    bytes more, fits the six bits it is kept in. *)
Theorem ldisasm_total m a : ∃ n, ldisasm 15 m a false = Some n ∧ 1 ≤ n ≤ 27.
Proof.
  destruct (scan_prefixes_total m 14 0 (mk_prefixes a false false false)) as [p Hp]; [lia|].
  destruct (ldisasm 15 m a false) as [n|] eqn:Hn.
  - exists n. split; [done|]. apply ldisasm_bounds_fuel in Hn as [? Hn]. specialize (Hn eq_refl). lia.
  - exfalso. rewrite ldisasm_opcode in Hn. by rewrite Hp in Hn.
Qed.

(** More fuel does not change the length. *)
Lemma scan_prefixes_mono fuel m x64 i p p' k :
  scan_prefixes fuel m x64 i p = Some p' → scan_prefixes (fuel + k) m x64 i p = Some p'.
Proof.
  revert i p; induction fuel as [|fuel IH]; intros i p; [done|]. cbn [scan_prefixes Nat.add].
  destruct (_ || _); [apply IH|done].
Qed.

Lemma ldisasm_mono fuel m a x64 n k :
  ldisasm fuel m a x64 = Some n → ldisasm (fuel + k) m a x64 = Some n.
Proof.
  unfold ldisasm. destruct (scan_prefixes fuel m x64 0 _) as [p|] eqn:Hp; [|done].
  by rewrite (scan_prefixes_mono _ _ _ _ _ _ k Hp).
Qed.

(** ** The lengths of the jumps *)

Lemma LDISASM_mode_irrelevant fuel m a x64 p c :
  m a = c → findByte legacyPrefixes c = false → LDISASM_R c ≠ 4 → p_at p = a →
  scan_prefixes (S fuel) m x64 0 p = Some p.
Proof.
  intros Hc Hf Hr <-. cbn [scan_prefixes]. rewrite Hc, Hf. simpl.
  apply Z.eqb_neq in Hr. rewrite Hr. by destruct x64.
Qed.

(** The opcode of an instruction is known: evaluate the tables for it. *)
Ltac table_lookup :=
  repeat match goal with
  | |- context [LDISASM_R (Zpos ?c)] =>
    let v := eval vm_compute in (LDISASM_R (Zpos c)) in change (LDISASM_R (Zpos c)) with v
  | |- context [LDISASM_C (Zpos ?c)] =>
    let v := eval vm_compute in (LDISASM_C (Zpos c)) in change (LDISASM_C (Zpos c)) with v
  end; cbn -[Z.add Z.sub]; f_equal; lia.

(** A relative jump or call, by its first byte. *)
Definition short_opcode (c : Z) : bool := ((0x70 <=? c) && (c <=? 0x7F)) || (c =? 0xEB).
Definition long_opcode (c : Z) : bool := (c =? 0xE8) || (c =? 0xE9).
Definition jcc_opcode (c : Z) : bool := (0x80 <=? c) && (c <=? 0x8F).

Lemma ldisasm_short fuel m a x64 :
  short_opcode (m a) = true → ldisasm (S fuel) m a x64 = Some 2.
Proof.
  intros Hc. rewrite ldisasm_opcode.
  assert (m a ∈ [0x70; 0x71; 0x72; 0x73; 0x74; 0x75; 0x76; 0x77; 0x78; 0x79; 0x7A; 0x7B; 0x7C; 0x7D;
    0x7E; 0x7F; 0xEB]) as Hin.
  { unfold short_opcode in Hc. apply list_elem_of_In. simpl. lia. }
  assert (∀ c, c ∈ [0x70; 0x71; 0x72; 0x73; 0x74; 0x75; 0x76; 0x77; 0x78; 0x79; 0x7A; 0x7B; 0x7C; 0x7D;
    0x7E; 0x7F; 0xEB] → m a = c →
    (p ← scan_prefixes (S fuel) m x64 0 (mk_prefixes a false false false);
     Some ((opcode m p).1 + 1 + (opcode m p).2 - a)) = Some 2) as Hall; [|by apply (Hall (m a))].
  intros c Hcin Hm.
  repeat (apply elem_of_cons in Hcin as [->|Hcin];
    [rewrite (LDISASM_mode_irrelevant fuel m a x64 _ _ Hm eq_refl) by done; simpl;
     unfold opcode, one_byte_opcode; cbn [p_at]; rewrite Hm; table_lookup|]).
  by apply elem_of_nil in Hcin.
Qed.

Lemma ldisasm_long fuel m a x64 :
  long_opcode (m a) = true → ldisasm (S fuel) m a x64 = Some 5.
Proof.
  intros Hc. rewrite ldisasm_opcode.
  assert (m a = 0xE8 ∨ m a = 0xE9) as [Hm|Hm] by (unfold long_opcode in Hc; lia);
    rewrite (LDISASM_mode_irrelevant fuel m a x64 _ _ Hm eq_refl) by done; simpl;
    unfold opcode, one_byte_opcode; cbn [p_at]; rewrite Hm; table_lookup.
Qed.

Lemma ldisasm_jcc fuel m a x64 :
  m a = 0x0F → jcc_opcode (m (a + 1)) = true → ldisasm (S fuel) m a x64 = Some 6.
Proof.
  intros Hm Hc. rewrite ldisasm_opcode.
  rewrite (LDISASM_mode_irrelevant fuel m a x64 _ _ Hm eq_refl) by done. simpl.
  unfold opcode, two_byte_opcode. cbn [p_at]. rewrite Hm. change (15 =? 15) with true. cbv zeta iota.
  unfold jcc_opcode in Hc.
  assert (m (a + 1) ∈ [0x80; 0x81; 0x82; 0x83; 0x84; 0x85; 0x86; 0x87; 0x88; 0x89; 0x8A;
    0x8B; 0x8C; 0x8D; 0x8E; 0x8F]) as Hin by (apply list_elem_of_In; simpl; lia).
  revert Hin. generalize (m (a + 1)). intros c Hin.
  repeat (apply elem_of_cons in Hin as [->|Hin]; [table_lookup|]).
  by apply elem_of_nil in Hin.
Qed.

(** ** Locality

    The length of an instruction is found from the bytes of the instruction. *)

Definition agree (m m' : mem) (a b : Z) : Prop := ∀ x, a ≤ x < b → m' x = m x.

Lemma agree_mono m m' a b a' b' : agree m m' a b → a ≤ a' → b' ≤ b → agree m m' a' b'.
Proof. intros H Ha Hb x Hx. apply H. lia. Qed.

Lemma parseModRM_ext m m' b ap :
  agree m m' (b + 1) (parseModRM m b ap + 1) → parseModRM m' b ap = parseModRM m b ap.
Proof.
  intros H. pose proof (parseModRM_bounds m b ap).
  assert (m' (b + 1) = m (b + 1)) as E by (apply H; lia).
  unfold parseModRM in *. rewrite E.
  destruct (negb ap || (ap && (64 <=? m (b + 1)))); [|done].
  destruct ((m (b + 1) <? 192) && (Z.land (m (b + 1)) 7 =? 4) && negb ap); [|done].
  destruct ((64 <=? m (b + 1)) && (m (b + 1) <=? 127)); [done|].
  destruct (_ || _); [done|]. cbn [andb] in *.
  replace (m' (b + 1 + 1)) with (m (b + 1 + 1)); [done|].
  symmetry. apply H. repeat case_match; lia.
Qed.

Lemma opcode_ext m m' p :
  agree m m' (p_at p) ((opcode m p).1 + 1) → opcode m' p = opcode m p.
Proof.
  intros H. pose proof (opcode_bounds m p _ _ (surjective_pairing _)) as (Hq & _ & _).
  assert (m' (p_at p) = m (p_at p)) as E0 by (apply H; lia).
  unfold opcode in *. rewrite E0. destruct (m (p_at p) =? 15) eqn:E15.
  - unfold two_byte_opcode in *.
    pose proof (parseModRM_bounds m (p_at p + 1 + 1) (addressPrefix p)).
    pose proof (parseModRM_bounds m (p_at p + 1) (addressPrefix p)).
    assert (m' (p_at p + 1) = m (p_at p + 1)) as E1.
    { apply H. repeat case_match; simpl in *; lia. }
    rewrite E1. destruct ((m (p_at p + 1) =? 56) || (m (p_at p + 1) =? 58)).
    + simpl in H. by rewrite (parseModRM_ext m m') by (eapply agree_mono; [exact H|lia..]).
    + destruct (findByte op2modrm _ || _ || _ || _ || _ || _ || _ || _); [|done]. simpl in H.
      by rewrite (parseModRM_ext m m') by (eapply agree_mono; [exact H|lia..]).
  - unfold one_byte_opcode in *.
    pose proof (parseModRM_bounds m (p_at p) (addressPrefix p)). rewrite E0.
    set (modrm := findByte op1modrm _ || _ || _ || _) in *.
    assert (modrm = true → m' (p_at p + 1) = m (p_at p + 1)) as E1.
    { intros Hm. apply H. rewrite Hm. simpl. lia. }
    assert (((m (p_at p) =? 246) && (Z.land (m' (p_at p + 1)) 48 =? 0)) =
            ((m (p_at p) =? 246) && (Z.land (m (p_at p + 1)) 48 =? 0))) as ->.
    { destruct (Z.eqb_spec (m (p_at p)) 246) as [E|]; [|done]. simpl. rewrite E1; [done|].
      unfold modrm. by rewrite E. }
    assert (((m (p_at p) =? 247) && (Z.land (m' (p_at p + 1)) 48 =? 0)) =
            ((m (p_at p) =? 247) && (Z.land (m (p_at p + 1)) 48 =? 0))) as ->.
    { destruct (Z.eqb_spec (m (p_at p)) 247) as [E|]; [|done]. simpl. rewrite E1; [done|].
      unfold modrm. by rewrite E. }
    destruct modrm; [|done]. simpl in H.
    by rewrite (parseModRM_ext m m') by (eapply agree_mono; [exact H|lia..]).
Qed.

Lemma scan_prefixes_ext fuel m m' x64 i p p' :
  scan_prefixes fuel m x64 i p = Some p' → agree m m' (p_at p) (p_at p' + 1) →
  scan_prefixes fuel m' x64 i p = Some p'.
Proof.
  revert i p; induction fuel as [|fuel IH]; intros i p Hs H; [done|].
  pose proof (scan_prefixes_at _ _ _ _ _ _ Hs). cbn [scan_prefixes] in *.
  rewrite (H (p_at p)) by lia. destruct (_ || _); [|done].
  apply IH; [done|]. eapply agree_mono; [exact H| |lia]. repeat case_match; simpl; lia.
Qed.

Lemma ldisasm_ext fuel m m' a x64 n :
  ldisasm fuel m a x64 = Some n → agree m m' a (a + n) → ldisasm fuel m' a x64 = Some n.
Proof.
  rewrite !ldisasm_opcode. destruct (scan_prefixes fuel m x64 0 _) as [p|] eqn:Hp; [simpl|done].
  intros [= <-] H. pose proof (scan_prefixes_at _ _ _ _ _ _ Hp) as Ha. simpl in Ha.
  pose proof (opcode_bounds m p _ _ (surjective_pairing _)) as (Hq & Hz & _).
  rewrite (scan_prefixes_ext _ _ m' _ _ _ _ Hp) by (eapply agree_mono; [exact H|simpl; lia..]).
  simpl. rewrite (opcode_ext m m'); [done|]. eapply agree_mono; [exact H|lia..].
Qed.

(** * Jumps, paddings, placeholders *)

(** [patcher/src/intel/jump.cpp:27-31] jump::init *)
Definition jump_init (m : mem) (this address : Z) : mem :=
  write m this (0xE9 :: le_bytes (u32 (address - (this + 5))) 4).

(** [patcher/src/intel/jump.cpp:33-41] short_jump::init *)
Definition short_jump_init (m : mem) (this address : Z) : mem :=
  write m this [0xEB; u8 (address - (this + 2))].

(** [patcher/src/intel/nop.h:25-31] is_nop. By address. *)
Definition is_nop (m : mem) (address : Z) : bool :=
  ((m address =? 0x90) && (m (address + 1) =? 0x90))
  || ((m address =? 0x8B) && (m (address + 1) =? 0xFF))
  || ((m address =? 0x66) && (m (address + 1) =? 0x90))
  || ((m address =? 0x0F) && (m (address + 1) =? 0x1F)).

(** [patcher/src/intel/nop.h:33-34] is_nop. By opcode. *)
Definition is_nop_opcode (opcode : Z) : bool := opcode =? 0x90.

(** [patcher/src/replace.h:28-28] c_signature *)
Definition c_signature : Z := 0x31415926.

(** [patcher/src/replace.h:30-37] construct_replace_seq. [size] is the size of the value type. *)
Definition construct_replace_seq (size : nat) (index : Z) : Z :=
  let w := 8 * Z.of_nat size in
  let mask := Z.land (uw w (0 - 1)) (uw w (Z.lnot 0xFF)) in
  let signature := uw w (Z.shiftl c_signature (8 * (Z.of_nat size - 4))) in
  Z.lor (Z.land signature mask) index.

(** The first place in the [n] bytes at [i] where [seq] starts ([std::search]); the end of the
    range when there is none. *)
Fixpoint search (m : mem) (i : Z) (n : nat) (seq : list Z) : Z :=
  match n with
  | O => i
  | S n' =>
    if (n <? length seq)%nat then i + Z.of_nat n
    else if bool_decide (peek m i (length seq) = seq) then i
    else search m (i + 1) n' seq
  end.

(** [patcher/src/replace.h:48-54] replace. The loop over the occurrences. *)
Fixpoint replace_loop (fuel : nat) (m : mem) (i range_end : Z) (size : nat) (seq : list Z)
    (writer : Z → Z) : option mem :=
  match fuel with
  | O => None
  | S fuel =>
    let i := search m i (Z.to_nat (range_end - i)) seq in
    if i =? range_end then Some m
    else
      let replacement := le_bytes (uw (8 * Z.of_nat size) (writer (i + Z.of_nat size))) size in
      replace_loop fuel (write m i replacement) (i + Z.of_nat size) range_end size seq writer
  end.

(** [patcher/src/replace.h:39-55] replace *)
Definition replace (m : mem) (r : range) (size : nat) (index : Z) (writer : Z → Z) : option mem :=
  replace_loop (S (Z.to_nat (r_length r))) m (r_start r) (r_end r) size
    (le_bytes (construct_replace_seq size index) size) writer.

Lemma search_bounds m n i seq : i ≤ search m i n seq ≤ i + Z.of_nat n.
Proof.
  revert i; induction n as [|n IH]; intros i; [simpl; lia|]. unfold search; fold search.
  case_match; [lia|]. case_bool_decide; [lia|]. specialize (IH (i + 1)). lia.
Qed.

(** A match lies within the range as a whole. *)
Lemma search_found m n i seq :
  seq ≠ [] → search m i n seq ≠ i + Z.of_nat n →
  search m i n seq + len seq ≤ i + Z.of_nat n ∧
  peek m (search m i n seq) (length seq) = seq.
Proof.
  intros Hne. revert i; induction n as [|n IH]; intros i; [simpl; lia|].
  unfold search; fold search. destruct (Nat.ltb_spec (S n) (length seq)); [done|].
  case_bool_decide as Hp; intros Hs; [split; [lia|done]|].
  destruct (IH (i + 1)); [lia|]. split; [lia|done].
Qed.

Lemma replace_loop_spec fuel size seq writer : ∀ m i e,
  length seq = size → (0 < size)%nat → i ≤ e → e - i < Z.of_nat fuel →
  ∃ m', replace_loop fuel m i e size seq writer = Some m' ∧
    ∀ x, x < i ∨ e ≤ x → m' x = m x.
Proof.
  induction fuel as [|fuel IH]; intros m i e Hs Hpos Hie Hf; [lia|]. cbn [replace_loop].
  pose proof (search_bounds m (Z.to_nat (e - i)) i seq) as Hb.
  assert (seq ≠ []) as Hne by (intros ->; simpl in *; lia).
  pose proof (search_found m (Z.to_nat (e - i)) i seq Hne) as Hfd.
  revert Hb Hfd. generalize (search m i (Z.to_nat (e - i)) seq). intros j Hb Hfd.
  destruct (Z.eqb_spec j e) as [->|Hj]; [by eexists|].
  destruct Hfd as [Hfit _]; [lia|].
  destruct (IH (write m j (le_bytes (uw (8 * Z.of_nat size) (writer (j + Z.of_nat size))) size))
    (j + Z.of_nat size) e) as (m' & Hm' & Hout); [done|done|lia|lia|].
  exists m'. split; [done|]. intros x Hx. rewrite Hout by lia.
  apply write_out. rewrite le_bytes_length. lia.
Qed.

(** Filling the placeholders of a piece of code ends, and touches nothing outside of it. *)
Theorem replace_total m r size index writer :
  (0 < size)%nat → 0 ≤ r_length r →
  ∃ m', replace m r size index writer = Some m' ∧
    ∀ x, x < r_start r ∨ r_end r ≤ x → m' x = m x.
Proof.
  intros Hs Hr. unfold replace. apply replace_loop_spec.
  - apply le_bytes_length.
  - done.
  - unfold r_end. lia.
  - unfold r_end. lia.
Qed.

(** ** A measured instruction, and a stub with its address filled in *)

Definition demo_code (bs : list Z) : mem := write (λ _, 0xCC) 0x1000 bs.

Definition demo_stub : mem := demo_code [0x48; 0xB8; 0x01; 0; 0; 0; 0x26; 0x59; 0x41; 0x31; 0xFF; 0xE0].

Lemma replace_total_witness :
  ∃ m', replace demo_stub (mk_range 0x1000 12) 8 1 (λ _, 0x123456789) = Some m' ∧
    ∀ x, x < 0x1000 ∨ 0x100C ≤ x → m' x = demo_stub x.
Proof. apply (replace_total demo_stub (mk_range 0x1000 12)); [lia|simpl; lia]. Defined.

Example replace_stub :
  (λ m, peek m 0x1000 12) <$> replace demo_stub (mk_range 0x1000 12) 8 1 (λ _, 0x123456789) =
    Some [0x48; 0xB8; 0x89; 0x67; 0x45; 0x23; 0x01; 0; 0; 0; 0xFF; 0xE0].
Proof. vm_compute. reflexivity. Qed.

(** [sub rsp, imm32] with a REX.W prefix is an instruction of seven bytes: a processor never
    takes an immediate of eight there.  Its length comes out as eleven. *)
Theorem ldisasm_rex_immediate :
  ldisasm 32 (demo_code [0x48; 0x81; 0xEC; 0x00; 0x01; 0x00; 0x00]) 0x1000 true = Some 11.
Proof. vm_compute. reflexivity. Qed.
