(* ===== verification/Translation.v ===== *)
(** Binary translation (patcher/src/intel/binary_translation_x86.cpp, patcher/revert_buffer.h).

    The body of a function is walked instruction by instruction: to see how many whole
    instructions cover a length, to move the function elsewhere with its outward references
    adjusted, and to redirect the references into a part of it that has been displaced.  Every
    definition threads the memory, and says what has become of it when an exception leaves. *)

From S2P Require Import Prelude Intel.
Local Open Scope Z_scope.

Section translation.
Context (fuel : nat) (x64 : bool).

(** * Walking over instructions *)

(** [patcher/src/intel/binary_translation_x86.cpp:23-53] instruction_iterator *)
Record instruction_iterator := mk_iter { ptr : Z; remaining_length : Z; current_length : Z }.

(** [patcher/src/intel/binary_translation_x86.cpp:27-29] instruction_iterator. The constructor. *)
Definition new_iter (body : range) : instruction_iterator := mk_iter (r_start body) (r_length body) 0.

(** [patcher/src/intel/binary_translation_x86.cpp:37-47] fetch. [None] at the end of the body. *)
Definition fetch (m : mem) (i : instruction_iterator) : result (option instruction_iterator) :=
  if remaining_length i =? current_length i then Ret None
  else
    let p := ptr i + current_length i in
    let r := remaining_length i - current_length i in
    match ldisasm fuel m p x64 with
    | None => UB
    | Some n =>
      if r <? u8 n then Throw inconsistent_function_range_exception
      else Ret (Some (mk_iter p r (u8 n)))
    end.

(** [patcher/src/intel/binary_translation_x86.cpp:55-60] displacement_visitor. What a visitor is called with. *)
Inductive displacement := no_displacement | byte_at (a : Z) | dword_at (a : Z).

(** [patcher/src/intel/binary_translation_x86.cpp:62-89] visit_instruction *)
Definition visit_instruction (m : mem) (p : Z) : displacement :=
  let opcode := m p in
  if ((0x70 <=? opcode) && (opcode <=? 0x7F)) || (opcode =? 0xEB) then byte_at (p + 1)
  else if (opcode =? 0xE8) || (opcode =? 0xE9) then dword_at (p + 1)
  else if opcode =? 0x0F then
    let opcode2 := m (p + 1) in
    if (0x80 <=? opcode2) && (opcode2 <=? 0x8F) then dword_at (p + 2) else no_displacement
  else no_displacement.

(** [patcher/src/intel/binary_translation_x86.cpp:21-21] is_target_inside. The address a displacement of [size] bytes refers to. *)
Definition target_of (m : mem) (size : nat) (disp : Z) : Z :=
  disp + Z.of_nat size + sw (8 * Z.of_nat size) (get_le m disp size).

(** [patcher/src/intel/binary_translation_x86.cpp:19-21] is_target_inside *)
Definition is_target_inside (m : mem) (size : nat) (disp : Z) (source : range) : bool :=
  inside source (target_of m size disp).

(** [patcher/src/intel/binary_translation_x86.cpp:105-106] calculate_fragment_length. The loop. *)
Fixpoint fragment_loop (k : nat) (m : mem) (i : instruction_iterator) (remainder actual : Z) :
    result Z :=
  match k with
  | O => UB
  | S k =>
    if remainder <=? 0 then Ret actual
    else
      f ← fetch m i;
      match f with
      | None => Ret actual
      | Some i =>
        fragment_loop k m i (remainder - current_length i) (actual + current_length i)
      end
  end.

(** [patcher/src/intel/binary_translation_x86.cpp:100-108] calculate_fragment_length *)
Definition calculate_fragment_length (m : mem) (source : range) (min_length : Z) : result Z :=
  fragment_loop (S (Z.to_nat (r_length source))) m (new_iter source) min_length 0.

(** [patcher/src/intel/binary_translation_x86.cpp:112-136] offset_displacement. A displacement at [disp] of the moved
    instruction at [src], whose copy is at [dest]. *)
Definition move_displacement (source : range) (delta : Z) (m : mem) (src dest : Z) : result mem :=
  match visit_instruction m src with
  | no_displacement => Ret m
  | byte_at disp =>
    if is_target_inside m 1 disp source then Ret m
    else Throw inconsistent_function_range_exception
  | dword_at disp =>
    if is_target_inside m 4 disp source then Ret m
    else
      let d := dest + (disp - src) in
      Ret (write m d (le_bytes (u32 (get_le m d 4 + s32 delta)) 4))
  end.

(** [patcher/src/intel/binary_translation_x86.cpp:138-145] move_function. The loop; the memory is what the copies have
    made of it when an exception leaves. *)
Fixpoint move_loop (k : nat) (source : range) (delta : Z) (m : mem) (i : instruction_iterator)
    (destination : Z) : mem * result unit :=
  match k with
  | O => (m, UB)
  | S k =>
    match fetch m i with
    | Throw e => (m, Throw e)
    | UB => (m, UB)
    | Ret None => (m, Ret tt)
    | Ret (Some i) =>
      if m (ptr i) =? 0xCC then (m, Throw inconsistent_function_range_exception)
      else
        let m := mem_copy m destination (ptr i) (Z.to_nat (current_length i)) in
        match move_displacement source delta m (ptr i) destination with
        | Ret m => move_loop k source delta m i (destination + current_length i)
        | Throw e => (m, Throw e)
        | UB => (m, UB)
        end
    end
  end.

(** [patcher/src/intel/binary_translation_x86.cpp:110-146] move_function *)
Definition move_function (m : mem) (destination : Z) (source : range) : mem * result unit :=
  move_loop (S (Z.to_nat (r_length source))) source (r_start source - destination) m
    (new_iter source) destination.

(** ** Redirecting references *)

(** [patcher/revert_buffer.h:30-40] revert_entry *)
Record revert_entry := mk_revert { re_at : Z; original : list Z }.

(** [patcher/revert_buffer.h:47-50] revert_entry. The constructor. *)
Definition new_revert (m : mem) (a : Z) (length : nat) : revert_entry :=
  mk_revert a (peek m a length).

(** [patcher/revert_buffer.h:52-54] restore *)
Definition restore (m : mem) (e : revert_entry) : mem := write m (re_at e) (original e).

(** [patcher/src/intel/binary_translation_x86.cpp:191-192] offset_displaced_references. The entries are restored in order. *)
Definition restore_all (m : mem) (rb : list revert_entry) : mem := fold_left restore rb m.

(** [patcher/src/intel/binary_translation_x86.cpp:152-177] offset_displacement. The memory and the revert buffer after
    the visit of the instruction at [p]. *)
Definition offset_instruction (displaced : range) (delta : Z) (m : mem) (rb : list revert_entry)
    (p : Z) : result (mem * list revert_entry) :=
  if m p =? 0xE8 then Ret (m, rb)
  else match visit_instruction m p with
  | no_displacement => Ret (m, rb)
  | dword_at disp =>
    if is_target_inside m 4 disp displaced
    then Ret (write m disp (le_bytes (u32 (get_le m disp 4 + s32 delta)) 4),
              rb ++ [new_revert m disp 4])
    else Ret (m, rb)
  | byte_at disp =>
    if is_target_inside m 1 disp displaced then Throw offset_prohibited else Ret (m, rb)
  end.

(** [patcher/src/intel/binary_translation_x86.cpp:179-187] offset_displaced_references. The loop. *)
Fixpoint offset_loop (k : nat) (displaced : range) (delta : Z) (m : mem) (rb : list revert_entry)
    (i : instruction_iterator) : (mem * list revert_entry) * result unit :=
  match k with
  | O => ((m, rb), UB)
  | S k =>
    match fetch m i with
    | Throw e => ((m, rb), Throw e)
    | UB => ((m, rb), UB)
    | Ret None => ((m, rb), Ret tt)
    | Ret (Some i) =>
      match offset_instruction displaced delta m rb (ptr i) with
      | Ret (m, rb) => offset_loop k displaced delta m rb i
      | Throw e => ((m, rb), Throw e)
      | UB => ((m, rb), UB)
      end
    end
  end.

(** [patcher/src/intel/binary_translation_x86.cpp:148-196] offset_displaced_references. An exception puts back what the
    buffer holds, and empties it. *)
Definition offset_displaced_references (m : mem) (rb : list revert_entry) (source displaced : range)
    (displaced_to : Z) : (mem * list revert_entry) * result unit :=
  match offset_loop (S (Z.to_nat (r_length source))) displaced (displaced_to - r_start displaced)
          m rb (new_iter source) with
  | ((m, rb), Throw e) => ((restore_all m rb, []), Throw e)
  | r => r
  end.

(** * The instructions of a body *)

(** Where the instructions are that the iterator has still to fetch. *)
Fixpoint instructions (k : nat) (m : mem) (i : instruction_iterator) : list Z :=
  match k with
  | O => []
  | S k =>
    match fetch m i with Ret (Some i) => ptr i :: instructions k m i | _ => [] end
  end.


Definition next_ptr (i : instruction_iterator) : Z := ptr i + current_length i.
Definition left (i : instruction_iterator) : Z := remaining_length i - current_length i.

Record iter_ok (i : instruction_iterator) : Prop := {
  ok_current : 0 ≤ current_length i;
  ok_left : 0 ≤ left i
}.

Lemma new_iter_ok source : 0 ≤ r_length source → iter_ok (new_iter source).
Proof using Type. intros. split; unfold left; simpl; lia. Qed.

(** ** Reading displacements *)

Lemma get_le_shift m m' a a' n :
  (∀ i, 0 ≤ i < Z.of_nat n → m' (a' + i) = m (a + i)) → get_le m' a' n = get_le m a n.
Proof using Type.
  revert a a'. induction n as [|n IH]; intros a a' H; [done|]. cbn [get_le].
  rewrite (IH (a + 1) (a' + 1)).
  - specialize (H 0). rewrite !Z.add_0_r in H. by rewrite H by lia.
  - intros i Hi. specialize (H (i + 1)). rewrite !(Z.add_comm i), !Z.add_assoc in H. apply H. lia.
Qed.

Lemma get_le_write m a v n : 0 ≤ v < 256 ^ Z.of_nat n → get_le (write m a (le_bytes v n)) a n = v.
Proof using Type.
  revert m a v. induction n as [|n IH]; intros m a v Hv; [simpl in *; lia|].
  cbn [le_bytes write get_le]. rewrite Nat2Z.inj_succ, Z.pow_succ_r in Hv by lia.
  rewrite IH by (split; [apply Z.div_pos; lia|apply Z.div_lt_upper_bound; lia]).
  rewrite write_out by lia. rewrite poke_eq. pose proof (Z.div_mod v 256). lia.
Qed.

Lemma target_shift m m' size a a' :
  (∀ i, 0 ≤ i < Z.of_nat size → m' (a' + i) = m (a + i)) →
  target_of m' size a' = target_of m size a - a + a'.
Proof using Type. intros H. unfold target_of. rewrite (get_le_shift _ _ _ _ _ H). lia. Qed.

Lemma target_ext m m' size a : agree m m' a (a + Z.of_nat size) → target_of m' size a = target_of m size a.
Proof using Type. intros H. rewrite (target_shift m m' size a a); [lia|]. intros i Hi. apply H. lia. Qed.

(** A displacement that is read, adjusted and written back shifts its target, as far as 32 bits
    reach. *)
Lemma target_adjusted m m0 d d' delta :
  get_le m d' 4 = get_le m0 d 4 →
  eqm 32 (target_of (write m d' (le_bytes (u32 (get_le m d' 4 + s32 delta)) 4)) 4 d')
    (target_of m0 4 d + delta + (d' - d)).
Proof using Type.
  intros Hg. unfold target_of. rewrite get_le_write by apply (uw_range 32 ltac:(lia)).
  rewrite Hg. change (8 * Z.of_nat 4) with 32.
  repeat first [rewrite sw_eqm by lia | rewrite uw_eqm]. unfold eqm. f_equal. lia.
Qed.

(** A displacement leads to an address: modulo 2^32, which is everything where addresses have 32 bits, and without
    that where the address is within the reach of a displacement, 2 GiB on either side. *)
Definition leads_to (m : mem) (d t : Z) : Prop :=
  eqm 32 (target_of m 4 d) t ∧ (in_s 32 (t - (d + 4)) → target_of m 4 d = t).

Lemma leads_to_eqm m d t : eqm 32 (target_of m 4 d) t → leads_to m d t.
Proof using Type.
  intros H. split; [done|]. intros Hr. unfold target_of in *. change (8 * Z.of_nat 4) with 32 in *. change (Z.of_nat 4) with 4 in *.
  assert (sw 32 (get_le m d 4) = t - (d + 4)); [|lia].
  rewrite <- (sw_small 32 ltac:(lia) (t - (d + 4)) Hr). apply sw_eqm_eq; [lia|].
  rewrite <- H. rewrite sw_eqm by lia. unfold eqm. f_equal. lia.
Qed.

Lemma leads_to_ext m m' d t : agree m m' d (d + 4) → leads_to m d t → leads_to m' d t.
Proof using Type. intros Ha H. unfold leads_to. by rewrite (target_ext m m' 4 d Ha). Qed.

(** A displacement lies within its instruction. *)
Lemma visit_within m p n :
  ldisasm fuel m p x64 = Some n →
  match visit_instruction m p with
  | no_displacement => True
  | byte_at d => p < d ∧ d + 1 ≤ p + n
  | dword_at d => p < d ∧ d + 4 ≤ p + n
  end.
Proof using Type.
  destruct fuel as [|f]; [done|]. intros Hn. unfold visit_instruction.
  destruct (short_opcode (m p)) eqn:Hs.
  - rewrite ldisasm_short in Hn by done. unfold short_opcode in Hs. rewrite Hs.
    injection Hn as <-. lia.
  - unfold short_opcode in Hs. rewrite Hs. destruct (long_opcode (m p)) eqn:Hl.
    + rewrite ldisasm_long in Hn by done. unfold long_opcode in Hl. rewrite Hl.
      injection Hn as <-. lia.
    + unfold long_opcode in Hl. rewrite Hl. destruct (Z.eqb_spec (m p) 15) as [H15|]; [|done].
      destruct ((128 <=? m (p + 1)) && (m (p + 1) <=? 143)) eqn:Hj; [|done].
      rewrite ldisasm_jcc in Hn by done. injection Hn as <-. lia.
Qed.

Context (Hfuel : (fuel ≤ 239)%nat).

Lemma ldisasm_byte m a n : ldisasm fuel m a x64 = Some n → 1 ≤ n ∧ u8 n = n.
Proof using Hfuel.
  intros [Hn _]%ldisasm_bounds_fuel. split; [lia|]. apply uw_small; [lia|]. unfold in_u. lia.
Qed.

Lemma fetch_Some m i i' :
  iter_ok i → fetch m i = Ret (Some i') →
  iter_ok i' ∧ ptr i' = next_ptr i ∧ next_ptr i' + left i' = next_ptr i + left i ∧
  0 < current_length i' ∧ ldisasm fuel m (ptr i') x64 = Some (current_length i').
Proof using Hfuel.
  intros [Hc Hl]. unfold fetch, left, next_ptr in *. case_match; [done|].
  destruct (ldisasm _ _ _ _) as [n|] eqn:Hn; [|done].
  destruct (ldisasm_byte _ _ _ Hn) as [H1 H2]. rewrite H2.
  destruct (Z.ltb_spec (remaining_length i - current_length i) n); [done|]. intros [= <-]. simpl.
  split_and!; [split; unfold left; simpl; lia|lia..|done].
Qed.

Lemma fetch_None m i : iter_ok i → fetch m i = Ret None → left i = 0.
Proof using Hfuel.
  intros _. unfold fetch, left. destruct (Z.eqb_spec (remaining_length i) (current_length i)); [lia|].
  destruct (ldisasm _ _ _ _) as [z|]; [|done]. by case_match.
Qed.

Lemma fetch_end m m' i : iter_ok i → fetch m i = Ret None → fetch m' i = Ret None.
Proof using Hfuel.
  intros Hok Hf. pose proof (fetch_None _ _ Hok Hf) as Hl. unfold fetch, left in *.
  by replace (remaining_length i =? current_length i) with true by lia.
Qed.

Lemma fetch_ext m m' i i' :
  iter_ok i → fetch m i = Ret (Some i') →
  agree m m' (ptr i') (next_ptr i') → fetch m' i = Ret (Some i').
Proof using Hfuel.
  intros Hok Hf Ha. destruct (fetch_Some _ _ _ Hok Hf) as (Hok' & Hp & _ & _ & Hn).
  revert Hf. unfold fetch. case_match; [done|].
  unfold next_ptr in *. rewrite <- Hp, Hn. by rewrite (ldisasm_ext _ _ _ _ _ _ Hn Ha).
Qed.

Lemma fragment_loop_covers k : ∀ m i remainder actual n,
  iter_ok i → fragment_loop k m i remainder actual = Ret n →
  actual ≤ n ≤ actual + left i ∧ (remainder ≤ n - actual ∨ n = actual + left i).
Proof using Hfuel.
  induction k as [|k IH]; intros m i r a n Hok; [done|]. cbn [fragment_loop].
  destruct (Z.leb_spec r 0).
  - intros [= <-]. destruct Hok. lia.
  - destruct (fetch m i) as [[i'|]| |] eqn:Hf; simpl; [|..|done|done].
    + destruct (fetch_Some _ _ _ Hok Hf) as (Hok' & Hp & He & Hc & _).
      intros Hn%IH; [|done]. unfold next_ptr in *. destruct Hok'. lia.
    + intros [= <-]. pose proof (fetch_None _ _ Hok Hf). destruct Hok. lia.
Qed.

(** A fragment is made of whole instructions that cover the length asked for, or of the whole
    body when it is shorter than that. *)
Theorem fragment_covers m source min_length n :
  0 ≤ r_length source → calculate_fragment_length m source min_length = Ret n →
  0 ≤ n ≤ r_length source ∧ (min_length ≤ n ∨ n = r_length source).
Proof using Hfuel.
  intros Hs Hn. apply fragment_loop_covers in Hn; [|by apply new_iter_ok].
  unfold left in Hn. simpl in Hn. lia.
Qed.

Lemma visit_ext m m' p n :
  ldisasm fuel m p x64 = Some n → agree m m' p (p + n) →
  visit_instruction m' p = visit_instruction m p.
Proof using Hfuel.
  intros Hn Ha. pose proof (ldisasm_byte _ _ _ Hn). unfold visit_instruction.
  rewrite (Ha p) by lia. do 2 (case_match; [done|]).
  destruct (Z.eqb_spec (m p) 15) as [H15|]; [|done].
  rewrite (Ha (p + 1)); [done|]. split; [lia|].
  destruct (decide (n = 1)) as [->|]; [|lia]. exfalso.
  rewrite ldisasm_opcode in Hn. destruct (scan_prefixes _ _ _ _ _) as [q|] eqn:Hq; [|done].
  assert (q = mk_prefixes p false false false) as ->.
  { destruct fuel as [|f]; [done|].
    rewrite (LDISASM_mode_irrelevant f m p x64 _ _ H15) in Hq by done. by simplify_eq. }
  simpl in Hn. unfold opcode in Hn. simpl in Hn. rewrite H15 in Hn. simpl in Hn.
  unfold two_byte_opcode in Hn. simpl in Hn.
  pose proof (parseModRM_bounds m (p + 1 + 1) false). pose proof (parseModRM_bounds m (p + 1) false).
  repeat case_match; simplify_eq/=; lia.
Qed.

(** * Moving a function *)

Section moving.
Context (source : range) (destination : Z).
Context (Hdisjoint : r_end source ≤ destination ∨ destination + r_length source ≤ r_start source).








End moving.

(** * Redirecting references *)

Lemma write_local m m' a bs x : m x = m' x → write m a bs x = write m' a bs x.
Proof using Type.
  revert m m' a. induction bs as [|b bs IH]; intros m m' a H; simpl; [done|].
  apply IH. unfold poke. by case_match.
Qed.

Lemma restore_all_local rb : ∀ m m' x, m x = m' x → restore_all m rb x = restore_all m' rb x.
Proof using Type.
  induction rb as [|e rb IH]; intros m m' x H; [done|]. unfold restore_all in *. simpl.
  apply IH. by apply write_local.
Qed.

Lemma restore_all_app m rb1 rb2 : restore_all m (rb1 ++ rb2) = restore_all (restore_all m rb1) rb2.
Proof using Type. unfold restore_all. by rewrite fold_left_app. Qed.

Section redirecting.
Context (displaced : range) (delta : Z).

(** What becomes of an instruction: a jump into the displaced region follows it, with its opcode as it was; any other
    one, and a call, is left alone, and no short jump leads into the region. *)
Definition redirected (m m' : mem) (p n : Z) : Prop :=
  match visit_instruction m p with
  | dword_at d =>
    if negb (m p =? 0xE8) && inside displaced (target_of m 4 d)
    then (∀ x, p ≤ x < p + n → ¬ d ≤ x < d + 4 → m' x = m x) ∧ leads_to m' d (target_of m 4 d + delta)
    else ∀ x, p ≤ x < p + n → m' x = m x
  | byte_at d =>
    inside displaced (target_of m 1 d) = false ∧ ∀ x, p ≤ x < p + n → m' x = m x
  | no_displacement => ∀ x, p ≤ x < p + n → m' x = m x
  end.

Lemma redirected_ext m m1 m2 p n :
  ldisasm fuel m p x64 = Some n → agree m1 m2 p (p + n) →
  redirected m m1 p n → redirected m m2 p n.
Proof using Type.
  clear Hfuel. intros Hn Ha. pose proof (visit_within _ _ _ Hn) as Hv. unfold redirected.
  destruct (visit_instruction m p) as [|d|d].
  - intros Hm x Hx. rewrite Ha by done. auto.
  - intros [Ht Hm]. split; [done|]. intros x Hx. rewrite Ha by done. auto.
  - destruct (_ && _); [|intros Hm x Hx; rewrite Ha by done; auto].
    intros [Hm Ht]. split; [intros x Hx Hd; rewrite Ha by done; auto|].
    eapply leads_to_ext; [|exact Ht]. eapply agree_mono; [exact Ha|lia..].
Qed.

(** The state of the walk: what the buffer holds undoes what has been written, and that lies before
    the instruction that is fetched next. *)
Definition undoable (m0 m : mem) (rb : list revert_entry) (p : Z) : Prop :=
  (∀ x, restore_all m rb x = m0 x) ∧ (∀ x, p ≤ x → m x = m0 x).

Lemma offset_instruction_ok m0 m rb p n m' rb' :
  ldisasm fuel m0 p x64 = Some n → undoable m0 m rb p →
  offset_instruction displaced delta m rb p = Ret (m', rb') →
  undoable m0 m' rb' (p + n) ∧ (∀ x, x < p → m' x = m x) ∧ redirected m0 m' p n.
Proof using Hfuel.
  intros Hn [Hu Hm]. destruct (ldisasm_byte _ _ _ Hn) as [Hpos _].
  pose proof (visit_within _ _ _ Hn) as Hv.
  assert (agree m0 m p (p + n)) as Ha by (intros x Hx; apply Hm; lia).
  assert (undoable m0 m rb (p + n)) as Hsame by (split; [done|intros; apply Hm; lia]).
  unfold offset_instruction, redirected. rewrite (visit_ext _ _ _ _ Hn Ha), (Ha p) by lia.
  unfold is_target_inside. destruct (visit_instruction m0 p) as [|d|d] eqn:Hvis.
  - intros Hr. assert (Ret (m, rb) = Ret (m', rb')) as [= <- <-] by (by case_match). done.
  - rewrite (target_ext m0 m) by (eapply agree_mono; [exact Ha|lia..]).
    destruct (Z.eqb_spec (m0 p) 232) as [H8|].
    { exfalso. unfold visit_instruction in Hvis. by rewrite H8 in Hvis. }
    destruct (inside displaced _); [done|]. intros [= <- <-]. done.
  - rewrite (target_ext m0 m) by (eapply agree_mono; [exact Ha|lia..]).
    destruct (m0 p =? 232); cbn [negb andb]; [intros [= <- <-]; done|].
    destruct (inside displaced _); [|intros [= <- <-]; done]. intros Hr%Ret_inj.
    apply pair_equal_spec in Hr as [<- <-].
    set (bs := le_bytes _ 4). assert (length bs = 4%nat) as Hlen by apply le_bytes_length.
    assert (∀ x, x < d ∨ d + 4 ≤ x → write m d bs x = m x) as Hw
      by (intros; apply write_out; rewrite Hlen; lia).
    split_and!.
    + split; [|intros; rewrite Hw by lia; apply Hm; lia]. intros x.
      rewrite restore_all_app. unfold restore_all at 1, restore, new_revert.
      cbn [fold_left re_at original].
      destruct (decide (d ≤ x < d + 4)) as [Hx|Hx].
      * replace x with (d + Z.of_nat (Z.to_nat (x - d))) by lia.
        rewrite write_in by (rewrite peek_length; lia). rewrite nth_peek by lia. apply Hm. lia.
      * rewrite write_out by (rewrite peek_length; lia). rewrite <- Hu.
        apply restore_all_local, Hw. lia.
    + intros x Hx. apply Hw. lia.
    + intros x Hx Hd. rewrite Hw by lia. apply Ha. lia.
    + apply leads_to_eqm. unfold bs. rewrite (target_adjusted m m0 d d).
      * unfold eqm. f_equal. lia.
      * apply get_le_shift. intros i Hi. apply Ha. lia.
Qed.

Lemma offset_loop_ok k m0 : ∀ m rb i m' rb' r,
  iter_ok i → undoable m0 m rb (next_ptr i) →
  offset_loop k displaced delta m rb i = ((m', rb'), r) →
  (∃ p, undoable m0 m' rb' p) ∧ (∀ x, x < next_ptr i → m' x = m x) ∧
  (r = Ret tt → Forall (λ p, ∃ n, ldisasm fuel m0 p x64 = Some n ∧ redirected m0 m' p n)
                  (instructions k m0 i)).
Proof using Hfuel.
  induction k as [|k IH]; intros m rb i m' rb' r Hok Hu; cbn [offset_loop instructions].
  { intros [= <- <- <-]. split_and!; [by eexists|done|done]. }
  destruct (fetch m i) as [[j|]| |] eqn:Hf.
  2: { intros [= <- <- <-]. split_and!; [by eexists|done|]. rewrite (fetch_end m m0) by done.
       by constructor. }
  2-3: intros [= <- <- <-]; split_and!; [by eexists|done|done].
  destruct (fetch_Some _ _ _ Hok Hf) as (Hj & Hp & _ & _ & Hd).
  assert (agree m m0 (ptr j) (next_ptr j)) as Hb.
  { intros x Hx. symmetry. apply Hu. lia. }
  rewrite (fetch_ext m m0 _ _ Hok Hf Hb).
  assert (ldisasm fuel m0 (ptr j) x64 = Some (current_length j)) as Hd0
    by (by apply (ldisasm_ext _ m)).
  destruct (ldisasm_byte _ _ _ Hd0) as [Hpos _].
  destruct (offset_instruction displaced delta m rb (ptr j)) as [[m1 rb1]| |] eqn:Ho.
  2-3: intros [= <- <- <-]; split_and!; [by eexists|done|done].
  rewrite <- Hp in Hu. destruct (offset_instruction_ok _ _ _ _ _ _ _ Hd0 Hu Ho) as (Hu1 & Hlow & Hr).
  intros Hrun. apply IH in Hrun as (Hex & Hfr & Hall); [|done|done]. split_and!; [done| |].
  - intros x Hx. rewrite Hfr by (unfold next_ptr; lia). apply Hlow. lia.
  - intros ->. constructor; [|by apply Hall]. exists (current_length j). split; [done|].
    eapply redirected_ext; [done| |done]. intros x Hx. apply Hfr. unfold next_ptr. lia.
Qed.
End redirecting.

(** C18: Redirecting the references of a function is all or nothing: when it cannot be done, the
    memory is what it was and the revert buffer is empty. *)
Theorem offset_rolls_back m source displaced displaced_to m' rb e :
  0 ≤ r_length source →
  offset_displaced_references m [] source displaced displaced_to = ((m', rb), Throw e) →
  rb = [] ∧ ∀ x, m' x = m x.
Proof using Hfuel.
  intros Hs. unfold offset_displaced_references.
  destruct (offset_loop _ _ _ _ _ _) as [[m1 rb1] r] eqn:Hl.
  apply (offset_loop_ok _ _ _ m) in Hl as ([p [Hu _]] & _ & _); [|by apply new_iter_ok|by split].
  destruct r; try done. intros [= <- <- <-]. done.
Qed.


(** * Termination *)

Section termination.
Context (H15 : (15 ≤ fuel)%nat) (H32 : x64 = false).

Lemma fetch_defined m i : fetch m i ≠ UB.
Proof using H15 H32.
  clear Hfuel. unfold fetch. case_match; [done|].
  destruct (ldisasm_total m (ptr i + current_length i)) as (n & Hn & _).
  apply (ldisasm_mono _ _ _ _ _ (fuel - 15)) in Hn.
  replace (15 + (fuel - 15))%nat with fuel in Hn by lia. rewrite H32, Hn. by case_match.
Qed.

Lemma fragment_loop_defined k : ∀ m i r a,
  iter_ok i → left i < Z.of_nat k → fragment_loop k m i r a ≠ UB.
Proof using Hfuel H15 H32.
  induction k as [|k IH]; intros m i r a Hok Hk; [destruct Hok; lia|]. cbn [fragment_loop].
  case_match; [done|]. pose proof (fetch_defined m i).
  destruct (fetch m i) as [[j|]| |] eqn:Hf; simpl; try done.
  destruct (fetch_Some _ _ _ Hok Hf) as (Hj & Hp & Hn & Hc & _).
  apply IH; [done|]. unfold next_ptr in *. lia.
Qed.

Lemma move_loop_defined k source delta : ∀ m i d,
  iter_ok i → left i < Z.of_nat k → (move_loop k source delta m i d).2 ≠ UB.
Proof using Hfuel H15 H32.
  induction k as [|k IH]; intros m i d Hok Hk; [destruct Hok; lia|]. cbn [move_loop].
  pose proof (fetch_defined m i). destruct (fetch m i) as [[j|]| |] eqn:Hf; simpl; try done.
  destruct (fetch_Some _ _ _ Hok Hf) as (Hj & Hp & Hn & Hc & _). case_match; [done|].
  destruct (move_displacement _ _ _ _ _) as [m2| |] eqn:Hm; simpl.
  - apply IH; [done|]. unfold next_ptr in *. lia.
  - done.
  - exfalso. revert Hm. unfold move_displacement. by repeat case_match.
Qed.

Lemma offset_loop_defined k displaced delta : ∀ m rb i,
  iter_ok i → left i < Z.of_nat k → (offset_loop k displaced delta m rb i).2 ≠ UB.
Proof using Hfuel H15 H32.
  induction k as [|k IH]; intros m rb i Hok Hk; [destruct Hok; lia|]. cbn [offset_loop].
  pose proof (fetch_defined m i). destruct (fetch m i) as [[j|]| |] eqn:Hf; simpl; try done.
  destruct (fetch_Some _ _ _ Hok Hf) as (Hj & Hp & Hn & Hc & _).
  destruct (offset_instruction _ _ _ _ _) as [[m2 rb2]| |] eqn:Hm; simpl.
  - apply IH; [done|]. unfold next_ptr in *. lia.
  - done.
  - exfalso. revert Hm. unfold offset_instruction. by repeat case_match.
Qed.

(** The three walks end on any bytes at all, with a result or with an exception, and the fuel of
    their loops, one more than the length of the body, is enough. *)
Theorem translation_terminates m source :
  0 ≤ r_length source →
  (∀ min_length, calculate_fragment_length m source min_length ≠ UB) ∧
  (∀ destination, (move_function m destination source).2 ≠ UB) ∧
  (∀ rb displaced displaced_to,
     (offset_displaced_references m rb source displaced displaced_to).2 ≠ UB).
Proof using Hfuel H15 H32.
  intros Hs. pose proof (new_iter_ok source Hs) as Hok.
  assert (left (new_iter source) < Z.of_nat (S (Z.to_nat (r_length source)))) as Hk
    by (unfold left; simpl; lia).
  split_and!.
  - intros n. by apply fragment_loop_defined.
  - intros d. by apply move_loop_defined.
  - intros rb displaced to. unfold offset_displaced_references.
    pose proof (offset_loop_defined _ displaced (to - r_start displaced) m rb _ Hok Hk) as H.
    destruct (offset_loop _ _ _ _ _ _) as [[m1 rb1] r]. simpl in H. by destruct r.
Qed.
End termination.
End translation.

(** ** A function with a loop and a call

    [push ebp; mov ebp, esp; call 0x2000; jmp short -7 (to the call); ret] at 0x1000, and a caller. *)

Definition demo_function : mem :=
  demo_code [0x55; 0x8B; 0xEC; 0xE8; 0xF8; 0x0F; 0; 0; 0xEB; 0xF9; 0xC3].
Definition demo_body : range := mk_range 0x1000 11.
Definition demo_moved : mem := (move_function 15 false demo_function 0x1800 demo_body).1.

Example demo_moved_bytes :
  peek demo_moved 0x1800 11 = [0x55; 0x8B; 0xEC; 0xE8; 0xF8; 0x07; 0; 0; 0xEB; 0xF9; 0xC3].
Proof. vm_compute. reflexivity. Qed.

(** A copy that is further than 2 GiB away calls something else, and nobody is told. *)
Lemma far_copy_misleads :
  target_of demo_function 4 0x1004 = 0x2000 ∧ (move_function 15 true demo_function 0x200001000 demo_body).2 = Ret tt ∧
  target_of (move_function 15 true demo_function 0x200001000 demo_body).1 4 0x200001004 = 0x200002000.
Proof. by vm_compute. Qed.

Lemma fragment_covers_witness :
  (0 ≤ 8 ≤ 11) ∧ (5 ≤ 8 ∨ 8 = 11).
Proof.
  apply (fragment_covers 15 false ltac:(lia) demo_function demo_body 5 8); [simpl; lia|].
  vm_compute. reflexivity.
Defined.


Definition demo_short : mem :=
  write demo_function 0x1010 [0xE9; 0xEE; 0xFF; 0xFF; 0xFF; 0xEB; 0xEC].

Definition demo_offset (m : mem) (n : Z) : (mem * list revert_entry) * result unit :=
  offset_displaced_references 15 false m [] (mk_range 0x1010 n) (mk_range 0x1003 8) 0x1803.

Lemma offset_rolls_back_witness :
  (demo_offset demo_short 7).1.2 = [] ∧ ∀ x, (demo_offset demo_short 7).1.1 x = demo_short x.
Proof.
  apply (offset_rolls_back 15 false ltac:(lia) demo_short (mk_range 0x1010 7) (mk_range 0x1003 8)
    0x1803 _ _ offset_prohibited); [simpl; lia|].
  assert ((demo_offset demo_short 7).2 = Throw offset_prohibited) as H by (vm_compute; reflexivity).
  unfold demo_offset in *.
  destruct (offset_displaced_references _ _ _ _ _ _ _) as [[m' rb] r]. simpl in *. by subst.
Defined.


Lemma translation_terminates_witness :
  (∀ min_length, calculate_fragment_length 15 false demo_short demo_body min_length ≠ UB) ∧
  (∀ destination, (move_function 15 false demo_short destination demo_body).2 ≠ UB) ∧
  (∀ rb displaced displaced_to,
     (offset_displaced_references 15 false demo_short rb demo_body displaced displaced_to).2 ≠ UB).
Proof.
  apply translation_terminates; [lia|lia|reflexivity|simpl; lia].
Defined.
