(* ===== verification/Jumper.v ===== *)
(** Jumpers and function patches (patcher/src/jumper.cpp, patcher/src/dynamic_hooking.cpp,
    patcher/function_patch.h).

    A function is diverted by a short jump written over its first two bytes: it leads to a prologue
    that has been placed into the padding in front of the function, and from there to a trampoline.
    The trampoline comes back through the entry: behind the leading no-op of the function, or, when
    there is none, at a copy of its first instruction that continues with a short jump behind the
    original one.  Whether a page can be made writable is up to the operating system, and the code
    of the prologue is assembled: both are parameters. *)

From S2P Require Import Prelude Intel Translation.
Local Open Scope Z_scope.

Section jumper.
Context (fuel : nat) (x64 : bool).
(** [scoped_unprotect]: can the bytes [[a, a + n)] be made writable? *)
Context (unprotect : Z → Z → bool).
(** [c_jumper_proto], of [c_jumper_size] bytes. *)
Context (jumper_proto : list Z).

Definition c_jumper_size : Z := len jumper_proto.
(** [patcher/src/jumper.cpp:43-43] c_short_jump_size *)
Definition c_short_jump_size : Z := 2.
Definition word_size : nat := if x64 then 8 else 4.

(** [patcher/jumper.h:28-49] jumper. The two bytes of [_fuse_revert] that are used are kept; the bit fields
    [_active] and [_detached] as booleans. *)
Record jumper := mk_jumper {
  target : Z;
  fuse_revert : list Z;
  fill : Z;
  entry_offset : Z;
  is_active : bool;
  detached : bool
}.

(** [patcher/src/jumper.cpp:45-54] is_uniform *)
Definition is_uniform (m : mem) (ptr : Z) (n : Z) : bool :=
  forallb (λ b, b =? m ptr) (peek m ptr (Z.to_nat n)).

(** [patcher/src/jumper.cpp:56-75] VALIDATION_OVERRIDE. Does the function start with a relative jump or call? *)
Definition VALIDATION_OVERRIDE (m : mem) (instruction : Z) : bool :=
  let c := m instruction in
  ((0x70 <=? c) && (c <=? 0x7F)) || (c =? 0xEB) || (c =? 0xE8) || (c =? 0xE9)
  || ((c =? 0x0F) && ((0x80 <=? m (instruction + 1)) && (m (instruction + 1) <=? 0x8F))).

(** [patcher/src/jumper.cpp:165-166] prologue_size *)
Definition prologue_size (j : jumper) : Z :=
  u8 (c_jumper_size + (if entry_offset j <? 0 then - entry_offset j else 0)).

(** [patcher/src/jumper.cpp:162-163] prologue *)
Definition prologue (j : jumper) : Z := target j - prologue_size j.

(** [patcher/jumper.h:56-57] entry *)
Definition entry (j : jumper) : Z := target j + entry_offset j.

(** [patcher/jumper.h:53-54] active *)
Definition active (j : jumper) : bool := negb (detached j) && is_active j.

(** [patcher/src/jumper.cpp:97-105] jumper. What the constructor writes: the prototype with its address filled in,
    absolute or relative, and the copy of the first instruction with the jump behind it. *)
Definition write_prologue (m : mem) (j : jumper) (divert_to extra : Z) : option mem :=
  let r := mk_range (prologue j) c_jumper_size in
  let m := write m (r_start r) jumper_proto in
  m ← replace m r word_size 1 (λ _, divert_to);
  m ← replace m r word_size 0x81 (λ address, divert_to - address);
  Some (if entry_offset j <? 0
    then short_jump_init (mem_copy m (target j + entry_offset j) (target j) (Z.to_nat extra))
           (target j - c_short_jump_size) (target j + extra)
    else m).

(** [patcher/src/jumper.cpp:88-90] jumper. *)
Definition entry_of (m : mem) (t extra : Z) : Z :=
  sw 6 (if is_nop m t then Z.max extra c_short_jump_size else - (c_short_jump_size + extra)).

(** [patcher/src/jumper.cpp:78-114] jumper. The constructor: nothing is written before the last check. *)
Definition new_jumper (m : mem) (t divert_to : Z) : result (jumper * mem) :=
  if VALIDATION_OVERRIDE m t then Throw currently_prohibited
  else match ldisasm fuel m t x64 with
  | None => UB
  | Some n =>
    let extra := s8 n in
    if (extra <? c_short_jump_size) && negb (is_nop_opcode (m t)) then Throw leading_too_short
    else
      let j := mk_jumper t [] 0 (entry_of m t extra) false false in
      if negb (unprotect (prologue j) (prologue_size j)) then Throw padding_insufficient
      else if negb (is_uniform m (prologue j) (prologue_size j)) then Throw padding_insufficient
      else match write_prologue m j divert_to extra with
      | None => UB
      | Some m' => Ret (mk_jumper t [] (m (prologue j)) (entry_offset j) false false, m')
      end
  end.

(** [patcher/src/jumper.cpp:128-142] activate *)
Definition activate (m : mem) (j : jumper) : result (bool * (jumper * mem)) :=
  if detached j then Throw logic_error
  else if is_active j then Ret (false, (j, m))
  else if negb (unprotect (target j) c_short_jump_size) then Throw runtime_error
  else Ret (true,
    (mk_jumper (target j) (peek m (target j) 2) (fill j) (entry_offset j) true (detached j),
     short_jump_init m (target j) (prologue j))).

(** [patcher/src/jumper.cpp:144-157] revert *)
Definition revert (m : mem) (j : jumper) : result (bool * (jumper * mem)) :=
  if detached j then Throw logic_error
  else if negb (is_active j) then Ret (false, (j, m))
  else if negb (unprotect (target j) c_short_jump_size) then Throw runtime_error
  else Ret (true,
    (mk_jumper (target j) (fuse_revert j) (fill j) (entry_offset j) false (detached j),
     write m (target j) (fuse_revert j))).

(** [patcher/src/jumper.cpp:159-160] detach *)
Definition detach (j : jumper) : jumper :=
  mk_jumper (target j) (fuse_revert j) (fill j) (entry_offset j) (is_active j) true.

(** [patcher/src/jumper.cpp:116-126] ~jumper. An exception would leave a destructor here, which ends the process. *)
Definition destroy (m : mem) (j : jumper) : result mem :=
  if detached j then Ret m
  else if negb (unprotect (prologue j) (prologue_size j + c_short_jump_size)) then UB
  else
    let m := if is_active j then write m (target j) (fuse_revert j) else m in
    Ret (mem_set m (prologue j) (fill j) (Z.to_nat (prologue_size j))).

(** What can be done to a jumper. *)
Inductive jumper_op := op_activate | op_revert | op_detach.

#[export] Instance jumper_op_eq_dec : EqDecision jumper_op.
Proof using Type. solve_decision. Defined.

(** An operation that throws has changed nothing before. *)
Definition jumper_step (s : jumper * mem) (o : jumper_op) : jumper * mem :=
  match o with
  | op_activate => match activate s.2 s.1 with Ret (_, s') => s' | _ => s end
  | op_revert => match revert s.2 s.1 with Ret (_, s') => s' | _ => s end
  | op_detach => (detach s.1, s.2)
  end.

(** ** What a jumper keeps, so that it can put everything back *)

Record jumper_ok (m0 : mem) (j : jumper) (m : mem) : Prop := {
  ok_attached : detached j = false;
  ok_size : 0 ≤ prologue_size j;
  ok_fill : ∀ x, prologue j ≤ x < target j → m0 x = fill j;
  ok_fuse : is_active j = true → fuse_revert j = peek m0 (target j) 2;
  ok_outside : ∀ x, x < prologue j ∨ target j ≤ x →
    (is_active j = true → x < target j ∨ target j + 2 ≤ x) → m x = m0 x
}.

Lemma prologue_size_range j : 0 ≤ prologue_size j < 256.
Proof using Type. apply (uw_range 8). lia. Qed.

Lemma short_jump_out m this address x :
  x < this ∨ this + 2 ≤ x → short_jump_init m this address x = m x.
Proof using Type. intros. apply write_out. simpl. lia. Qed.

Lemma fuse_outside m0 j m x :
  jumper_ok m0 j m → is_active j = false → target j ≤ x → m x = m0 x.
Proof using Type. intros [] Ha Hx. apply ok_outside0; [by right|]. by rewrite Ha. Qed.

Lemma activate_ok m0 j m b j' m' :
  jumper_ok m0 j m → activate m j = Ret (b, (j', m')) →
  jumper_ok m0 j' m' ∧ is_active j' = true ∧ b = negb (is_active j).
Proof using Type.
  intros Hok. unfold activate. rewrite (ok_attached _ _ _ Hok).
  destruct (is_active j) eqn:Ha; [by intros [= <- <- <-]|]. case_match; [done|].
  intros Hr%Ret_inj. apply pair_equal_spec in Hr as [<- Hr]. apply pair_equal_spec in Hr as [<- <-].
  split_and!; [|done..].
  split; [done|apply Hok|apply Hok|..]; cbn [is_active fuse_revert target].
  - intros _. apply peek_ext. intros x Hx. apply (fuse_outside m0 j); [done|done|lia].
  - intros x Hx Ho. specialize (Ho eq_refl). unfold prologue, prologue_size in Hx. simpl in Hx.
    rewrite short_jump_out by lia. apply Hok; [|by rewrite Ha].
    unfold prologue, prologue_size. lia.
Qed.

Lemma revert_ok m0 j m b j' m' :
  jumper_ok m0 j m → revert m j = Ret (b, (j', m')) →
  jumper_ok m0 j' m' ∧ is_active j' = false ∧ b = is_active j.
Proof using Type.
  intros Hok. unfold revert. rewrite (ok_attached _ _ _ Hok).
  destruct (is_active j) eqn:Ha; simpl; [|by intros [= <- <- <-]]. case_match; [done|].
  intros Hr%Ret_inj. apply pair_equal_spec in Hr as [<- Hr]. apply pair_equal_spec in Hr as [<- <-].
  split_and!; [|done..].
  split; [done|apply Hok|apply Hok|done|]; cbn [target]. intros x Hx _.
  rewrite (ok_fuse _ _ _ Hok Ha).
  destruct (decide (target j ≤ x < target j + 2)) as [Hin|Hout].
  - replace x with (target j + Z.of_nat (Z.to_nat (x - target j))) by lia.
    rewrite write_in by (rewrite peek_length; lia). rewrite nth_peek by lia. done.
  - rewrite write_out by (rewrite peek_length; lia). apply Hok; [done|lia].
Qed.

Lemma destroy_restores m0 j m m' :
  jumper_ok m0 j m → destroy m j = Ret m' → ∀ x, m' x = m0 x.
Proof using Type.
  intros Hok. unfold destroy. rewrite (ok_attached _ _ _ Hok). case_match; [done|].
  intros <-%Ret_inj x. pose proof (prologue_size_range j).
  destruct (decide (prologue j ≤ x < target j)) as [Hin|Hout].
  - rewrite mem_set_in by (unfold prologue in *; lia). symmetry. by apply (ok_fill _ _ _ Hok).
  - rewrite mem_set_out by (unfold prologue in *; lia).
    destruct (is_active j) eqn:Ha; [|apply Hok; [unfold prologue in *; lia|by rewrite Ha]].
    rewrite (ok_fuse _ _ _ Hok Ha).
    destruct (decide (target j ≤ x < target j + 2)) as [Hin|Hout2].
    + replace x with (target j + Z.of_nat (Z.to_nat (x - target j))) by lia.
      rewrite write_in by (rewrite peek_length; lia). rewrite nth_peek by lia. done.
    + rewrite write_out by (rewrite peek_length; lia).
      apply Hok; [unfold prologue in *; lia|lia].
Qed.

(** ** Construction *)

Lemma is_uniform_all m p n :
  is_uniform m p n = true → ∀ x, p ≤ x < p + n → m x = m p.
Proof using Type.
  unfold is_uniform. intros Hu x Hx. rewrite forallb_forall in Hu.
  apply Z.eqb_eq. apply Hu. replace x with (p + Z.of_nat (Z.to_nat (x - p))) by lia.
  rewrite <- (nth_peek m p (Z.to_nat n) (Z.to_nat (x - p))) by lia.
  apply nth_In. rewrite peek_length. lia.
Qed.

Context (Hproto : c_jumper_size ≤ 90).

Lemma word_size_pos : (0 < word_size)%nat.
Proof using Type. unfold word_size. case_match; lia. Qed.

(** The writes of the constructor stay between the start of the prologue and the function. *)
Lemma write_prologue_spec m j divert_to n :
  prologue_size j = c_jumper_size + (if entry_offset j <? 0 then - entry_offset j else 0) →
  1 ≤ n → (entry_offset j < 0 → entry_offset j = - (2 + n)) →
  ∃ m', write_prologue m j divert_to n = Some m' ∧
    (∀ x, x < prologue j ∨ target j ≤ x → m' x = m x) ∧
    (entry_offset j < 0 → peek m' (entry j) (Z.to_nat n) = peek m (target j) (Z.to_nat n) ∧
       m' (target j - 2) = 0xEB ∧ m' (target j - 1) = u8 n).
Proof using Type.
  intros Hsize Hn He. unfold write_prologue.
  set (r := mk_range (prologue j) c_jumper_size). set (m1 := write m (r_start r) jumper_proto).
  destruct (replace_total m1 r word_size 1 (λ _, divert_to) word_size_pos) as (m2 & Hm2 & Hf2);
    [unfold r, c_jumper_size; simpl; lia|].
  destruct (replace_total m2 r word_size 0x81 (λ address, divert_to - address) word_size_pos)
    as (m3 & Hm3 & Hf3); [unfold r, c_jumper_size; simpl; lia|].
  rewrite Hm2. cbn [mbind option_bind]. rewrite Hm3. cbn [mbind option_bind]. eexists. split; [done|].
  assert (∀ x, x < prologue j ∨ prologue j + c_jumper_size ≤ x → m3 x = m x) as Hm.
  { intros x Hx. rewrite Hf3, Hf2 by (unfold r, r_end; simpl; lia).
    apply write_out. unfold r. simpl. unfold c_jumper_size in Hx. lia. }
  clearbody m1 r. clear Hm2 Hm3 Hf2 Hf3. pose proof (prologue_size_range j) as Hr.
  assert (0 ≤ c_jumper_size) by (unfold c_jumper_size; lia).
  destruct (Z.ltb_spec (entry_offset j) 0) as [Hneg|Hpos].
  2: { split; [|lia]. intros x Hx. apply Hm. unfold prologue in *. lia. }
  specialize (He Hneg). unfold entry, c_short_jump_size, prologue in *.
  split; [intros x Hx; rewrite short_jump_out, mem_copy_out by lia; apply Hm; lia|]. intros _.
  assert (peek m3 (target j) (Z.to_nat n) = peek m (target j) (Z.to_nat n)) as Hsrc
    by (apply peek_ext; intros x Hx; apply Hm; lia).
  split_and!.
  - rewrite <- Hsrc. rewrite <- (peek_write m3 (target j + entry_offset j) (peek m3 (target j) (Z.to_nat n))).
    rewrite peek_length. apply peek_ext. intros x Hx.
    rewrite short_jump_out by lia. apply mem_copy_write. lia.
  - unfold short_jump_init. cbn [write]. rewrite poke_ne by lia. apply poke_eq.
  - unfold short_jump_init. cbn [write]. replace (target j - 1) with (target j - 2 + 1) by lia.
    rewrite poke_eq. f_equal. lia.
Qed.

(** The first instruction of the function: its length, as far as a jumper can keep it. *)
Definition first_length (m : mem) (t n : Z) : Prop :=
  ldisasm fuel m t x64 = Some n ∧ n ≤ 30.

Lemma new_jumper_spec m t divert_to n j m' :
  first_length m t n → new_jumper m t divert_to = Ret (j, m') →
  target j = t ∧ is_active j = false ∧ jumper_ok m j m' ∧ (n < 2 → m t = 0x90) ∧
  prologue_size j = c_jumper_size + (if is_nop m t then 0 else 2 + n) ∧
  entry_offset j = (if is_nop m t then Z.max n 2 else - (2 + n)) ∧
  (is_nop m t = false → peek m' (entry j) (Z.to_nat n) = peek m t (Z.to_nat n) ∧
     m' (t - 2) = 0xEB ∧ m' (t - 1) = u8 n).
Proof using Hproto.
  intros [Hl Hn30]. unfold new_jumper. rewrite Hl. case_match; [done|].
  destruct (ldisasm_bounds_fuel _ _ _ _ _ Hl) as [[Hn1 _] _].
  assert (s8 n = n) as -> by (apply (sw_small 8 ltac:(lia)); unfold in_s; lia).
  set (j0 := mk_jumper t [] 0 (entry_of m t n) false false).
  assert (entry_offset j0 = (if is_nop m t then Z.max n 2 else - (2 + n))) as He.
  { simpl. unfold entry_of, c_short_jump_size. apply (sw_small 6 ltac:(lia)).
    unfold in_s. case_match; lia. }
  assert (0 ≤ c_jumper_size) as Hc by (unfold c_jumper_size; lia).
  assert (prologue_size j0 = c_jumper_size + (if is_nop m t then 0 else 2 + n)) as Hsize.
  { unfold prologue_size. rewrite He. apply (uw_small_eq 8 ltac:(lia)); [|unfold in_u]; repeat case_match; lia. }
  destruct ((n <? c_short_jump_size) && negb (is_nop_opcode (m t))) eqn:Hlead; [done|].
  destruct (unprotect (prologue j0) (prologue_size j0)); [cbn [negb]|done].
  destruct (is_uniform m (prologue j0) (prologue_size j0)) eqn:Hu; [|done].
  cbn [negb].
  destruct (write_prologue_spec m j0 divert_to n) as (m1 & Hm1 & Hout & Hneg).
  { rewrite Hsize, He. destruct (is_nop m t); case_match; lia. }
  { lia. }
  { rewrite He. case_match; lia. }
  rewrite Hm1. intros Hr%Ret_inj. apply pair_equal_spec in Hr as [<- <-].
  cbn [target is_active]. split_and!; [done|done| | |exact Hsize|exact He|].
  - split; [done|apply prologue_size_range| |done|].
    + intros x Hx. apply (is_uniform_all _ _ _ Hu). split; [apply Hx|].
      destruct Hx as [_ Hx]. cbn [target] in Hx. unfold prologue. simpl. lia.
    + intros x Hx _. by apply Hout.
  - unfold c_short_jump_size, is_nop_opcode in *. lia.
  - intros Hnop. apply Hneg. rewrite He, Hnop. lia.
Qed.

Lemma jumper_step_ok m0 s o : o ≠ op_detach → jumper_ok m0 s.1 s.2 → jumper_ok m0 (jumper_step s o).1 (jumper_step s o).2.
Proof using Type.
  intros Ho Hok. destruct s as [j m], o; [| |done]; cbn [jumper_step fst snd] in *.
  - destruct (activate m j) as [[b [k l]]| |] eqn:Hr; [|done..]. by apply (activate_ok _ _ _ _ _ _ Hok) in Hr as (? & _ & _).
  - destruct (revert m j) as [[b [k l]]| |] eqn:Hr; [|done..]. by apply (revert_ok _ _ _ _ _ _ Hok) in Hr as (? & _ & _).
Qed.

Lemma jumper_steps_ok m0 ops : ∀ s, op_detach ∉ ops → jumper_ok m0 s.1 s.2 →
  jumper_ok m0 (fold_left jumper_step ops s).1 (fold_left jumper_step ops s).2.
Proof using Type.
  induction ops as [|o ops IH]; intros s Hd Hok; [done|]. apply not_elem_of_cons in Hd as [Ho Hd]. cbn [fold_left].
  apply IH; [done|]. by apply jumper_step_ok.
Qed.

(** Nothing is done to a jumper that is detached. *)
Lemma jumper_steps_detached ops : ∀ s, detached s.1 = true →
  detached (fold_left jumper_step ops s).1 = true ∧ (fold_left jumper_step ops s).2 = s.2.
Proof using Type.
  induction ops as [|o ops IH]; intros [j m] Hd; [done|]. cbn [fst] in Hd. cbn [fold_left].
  assert (detached (jumper_step (j, m) o).1 = true ∧ (jumper_step (j, m) o).2 = m) as [H1 H2].
  { destruct o; unfold jumper_step, activate, revert; cbn [fst snd]; by rewrite ?Hd. }
  destruct (IH _ H1) as [? E]. by rewrite E.
Qed.

(** C20: Whatever is done to a jumper while it lives, whether its operations succeed or throw: if it was not detached,
    its end leaves every byte as it was before it was made, and it can end where the memory can be written; if it was
    detached, what was there when it was detached first stays: neither what is done to it after that nor its end
    writes anything, and it is not active any more. *)
Theorem jumper_restores m t n divert_to j m1 ops j2 m2 :
  first_length m t n → new_jumper m t divert_to = Ret (j, m1) → fold_left jumper_step ops (j, m1) = (j2, m2) →
  (op_detach ∉ ops →
    (∀ m3, destroy m2 j2 = Ret m3 → ∀ x, m3 x = m x) ∧
    (unprotect (prologue j2) (prologue_size j2 + c_short_jump_size) = true → ∃ m3, destroy m2 j2 = Ret m3)) ∧
  (∀ ops1 ops2, ops = ops1 ++ op_detach :: ops2 → op_detach ∉ ops1 →
    m2 = (fold_left jumper_step ops1 (j, m1)).2 ∧ destroy m2 j2 = Ret m2 ∧ active j2 = false).
Proof using Hproto.
  intros Hn Hnew Hops. destruct (new_jumper_spec _ _ _ _ _ _ Hn Hnew) as (_ & _ & Hok & _). split.
  - intros Hd. pose proof (jumper_steps_ok m ops (j, m1) Hd Hok) as H2. rewrite Hops in H2. cbn [fst snd] in H2. split.
    + intros m3. by apply (destroy_restores m).
    + intros Hu. unfold destroy. rewrite Hu, (ok_attached _ _ _ H2). cbn [negb]. by eexists.
  - intros ops1 ops2 -> Hd. rewrite fold_left_app in Hops. cbn [fold_left] in Hops.
    set (s := fold_left jumper_step ops1 (j, m1)) in *.
    destruct (jumper_steps_detached ops2 (jumper_step s op_detach)) as [H1 H2]; [done|]. rewrite Hops in H1, H2. cbn [fst snd] in H1, H2. subst m2.
    split; [done|]. unfold destroy, active. by rewrite H1.
Qed.

Lemma s8_u8 x : - 128 ≤ x < 128 → s8 (u8 x) = x.
Proof using Type.
  intros Hx. rewrite (sw_mod 8 ltac:(lia) (u8 x) x) by (by apply (uw_congr 8)).
  apply (sw_small 8 ltac:(lia)). unfold in_s. lia.
Qed.

Lemma target_of_byte m a v : m a = u8 v → - 128 ≤ v < 128 → target_of m 1 a = a + 1 + v.
Proof using Type.
  intros Ha Hv. unfold target_of. cbn [get_le]. rewrite Ha. change (8 * Z.of_nat 1) with 8.
  replace (u8 v + 256 * 0) with (u8 v) by lia. rewrite s8_u8 by done. lia.
Qed.

(** C19: An active jumper takes a call of the function to its prologue, and a call of its entry to
    the function itself: to the code behind the leading no-op, or to a copy of the first
    instruction, from where a short jump leads behind the original one.  None of the code reached
    that way is touched, provided the first instruction covers the two bytes of the jump. *)
Theorem jumper_diverts m t n divert_to j m1 j2 m2 :
  first_length m t n → 2 ≤ n → new_jumper m t divert_to = Ret (j, m1) →
  activate m1 j = Ret (true, (j2, m2)) →
  (m2 t = 0xEB ∧ target_of m2 1 (t + 1) = prologue j) ∧
  if is_nop m t
  then entry j2 = t + n ∧ ∀ x, entry j2 ≤ x → m2 x = m x
  else peek m2 (entry j2) (Z.to_nat n) = peek m t (Z.to_nat n) ∧
    m2 (entry j2 + n) = 0xEB ∧ target_of m2 1 (entry j2 + n + 1) = t + n ∧
    ∀ x, t + n ≤ x → m2 x = m x.
Proof using Hproto.
  intros Hn Hn2 Hnew Hact. destruct (new_jumper_spec _ _ _ _ _ _ Hn Hnew)
    as (Ht & Ha & Hok & _ & Hsize & He & Hcopy).
  destruct Hn as [_ Hn30]. assert (0 ≤ c_jumper_size) as Hc by (unfold c_jumper_size; lia).
  revert Hact. unfold activate. rewrite (ok_attached _ _ _ Hok), Ha.
  destruct (unprotect _ _); [cbn [negb]|done].
  intros Hr%Ret_inj. apply pair_equal_spec in Hr as [_ Hr]. apply pair_equal_spec in Hr as [<- <-].
  unfold entry. cbn [target entry_offset]. rewrite Ht in *.
  set (m2 := short_jump_init m1 t (prologue j)).
  assert (∀ x, x < t ∨ t + 2 ≤ x → m2 x = m1 x) as Hout by (intros; by apply short_jump_out).
  assert (∀ x, t ≤ x → m1 x = m x) as Hm1 by (intros; apply (fuse_outside m j); [done..|lia]).
  assert (m2 (t + 1) = u8 (prologue j - (t + 2))) as Hd
    by (unfold m2, short_jump_init; cbn [write]; apply poke_eq).
  split.
  - split; [unfold m2, short_jump_init; cbn [write]; rewrite poke_ne by lia; apply poke_eq|].
    rewrite (target_of_byte _ _ _ Hd); unfold prologue; rewrite Ht, Hsize; case_match; lia.
  - rewrite He. destruct (is_nop m t).
    + split; [lia|]. intros x Hx. rewrite Hout, Hm1 by lia. done.
    + destruct (Hcopy eq_refl) as (Hpk & Hop & Hdisp). unfold entry in Hpk. rewrite He, Ht in Hpk.
      split_and!.
      * rewrite <- Hpk. apply peek_ext. intros x Hx. apply Hout. lia.
      * rewrite Hout by lia. rewrite <- Hop. f_equal. lia.
      * replace (t + - (2 + n) + n + 1) with (t - 1) by lia.
        rewrite (target_of_byte _ _ n); [lia| |lia]. by rewrite Hout by lia.
      * intros x Hx. rewrite Hout, Hm1 by lia. done.
Qed.

(** The refusals: a function is left as it is when it starts with a relative jump or call, when
    its first instruction is shorter than the jump, or when the bytes in front of it are no padding
    or cannot be written. *)
Theorem jumper_refuses m t n divert_to e :
  first_length m t n → new_jumper m t divert_to = Throw e →
  (e = currently_prohibited ∧ VALIDATION_OVERRIDE m t = true) ∨
  (e = leading_too_short ∧ n < 2 ∧ m t ≠ 0x90) ∨
  (e = padding_insufficient ∧ ∃ j, target j = t ∧ entry_offset j = entry_of m t n ∧
     (unprotect (prologue j) (prologue_size j) = false ∨
      is_uniform m (prologue j) (prologue_size j) = false)).
Proof using Type.
  intros [Hl Hn]. unfold new_jumper. rewrite Hl.
  destruct (VALIDATION_OVERRIDE m t); [intros [= <-]; by left|].
  destruct (ldisasm_bounds_fuel _ _ _ _ _ Hl) as [[Hn1 _] _].
  assert (s8 n = n) as -> by (apply (sw_small 8 ltac:(lia)); unfold in_s; lia).
  destruct ((n <? c_short_jump_size) && negb (is_nop_opcode (m t))) eqn:Hlead.
  { intros [= <-]. right; left. unfold c_short_jump_size, is_nop_opcode in Hlead. split; [done|lia]. }
  set (j := mk_jumper t [] 0 (entry_of m t n) false false).
  destruct (unprotect (prologue j) (prologue_size j)) eqn:Hu; cbn [negb].
  2: { intros [= <-]. right; right. split; [done|]. exists j. auto. }
  destruct (is_uniform m (prologue j) (prologue_size j)) eqn:Hf; cbn [negb].
  2: { intros [= <-]. right; right. split; [done|]. exists j. auto. }
  by case_match.
Qed.
End jumper.

(** * Trampolines *)

(** [patcher/src/dynamic_hooking.cpp:46-66] initialize_trampoline. The prototype is copied to [trampoline] and its
    placeholders filled in one after another. *)
Definition initialize_trampoline (x64 : bool) (trampoline_proto : list Z) (m : mem)
    (trampoline target id interceptor on_enter on_exit : Z) : option mem :=
  let r := mk_range trampoline (len trampoline_proto) in
  let w := if x64 then 8%nat else 4%nat in
  let m := write m trampoline trampoline_proto in
  m ← replace m r w 1 (λ _, interceptor);
  m ← replace m r w 2 (λ _, id);
  m ← replace m r w 3 (λ _, on_enter);
  m ← replace m r w 0x83 (λ address, on_enter - address);
  m ← replace m r w 4 (λ _, on_exit);
  m ← replace m r w 0x84 (λ address, on_exit - address);
  m ← replace m r w 5 (λ _, target);
  replace m r w 0x85 (λ address, target - address).

(** [patcher/function_patch.h:49-52] function_patch. The constructor: a jumper to a trampoline that calls the
    function through the entry of the jumper.  The allocator gives the address of the trampoline. *)
Definition new_function_patch (fuel : nat) (x64 : bool) (unprotect : Z → Z → bool)
    (jumper_proto trampoline_proto : list Z) (m : mem) (target interceptor on_enter on_exit : Z)
    (trampoline : Z) : result (jumper * mem) :=
  '(j, m) ← new_jumper fuel x64 unprotect jumper_proto m target trampoline;
  match initialize_trampoline x64 trampoline_proto m trampoline (entry j) target interceptor
          on_enter on_exit with
  | Some m => Ret (j, m)
  | None => UB
  end.

(** Making a trampoline ends, and writes nothing but the trampoline. *)
Lemma initialize_trampoline_frame x64 proto m tr tg id ic oe ox :
  ∃ m', initialize_trampoline x64 proto m tr tg id ic oe ox = Some m' ∧
    ∀ x, x < tr ∨ tr + len proto ≤ x → m' x = m x.
Proof.
  unfold initialize_trampoline. set (w := if x64 then 8%nat else 4%nat).
  assert (0 < w)%nat as Hw by (unfold w; case_match; lia).
  set (r := mk_range tr (len proto)). assert (0 ≤ r_length r) as Hr by (simpl; lia).
  assert (∀ index f m, ∃ m', replace m r w index f = Some m' ∧
    ∀ x, x < tr ∨ tr + len proto ≤ x → m' x = m x) as Hrep
    by (intros; by apply (replace_total _ r)).
  set (m0 := write m tr proto).
  assert (∀ x, x < tr ∨ tr + len proto ≤ x → m0 x = m x) as Hf0 by (intros; by apply write_out).
  clearbody m0.
  repeat match goal with
  | Hf : ∀ x, _ → ?m0 x = m x |- context [replace ?m0 r w ?i ?f] =>
    let m' := fresh "m" in let Hm' := fresh "Hm" in let Hx := fresh "Hx" in
    destruct (Hrep i f m0) as (m' & Hm' & Hx); rewrite Hm'; cbn [mbind option_bind];
    assert (∀ x, x < tr ∨ tr + len proto ≤ x → m' x = m x)
      by (intros x ?; rewrite Hx by done; by apply Hf); clear Hx Hm' Hf
  end.
  by eexists.
Qed.

(** ** A function behind padding

    [push ebp; mov ebp, esp; ret] is refused, as its first instruction has one byte; [mov edi, edi]
    and [sub esp, 8] are not. *)

Definition jumper_proto_x86 : list Z := [0xE9; 0x81; 0x59; 0x41; 0x31].
Definition demo_sub : mem := demo_code [0x83; 0xEC; 0x08; 0x55; 0xC3].
Definition demo_new : result (jumper * mem) :=
  new_jumper 15 false (λ _ _, true) jumper_proto_x86 demo_sub 0x1000 0x5000.
Definition demo_j : jumper := match demo_new with Ret (j, _) => j | _ => mk_jumper 0 [] 0 0 false false end.
Definition demo_m : mem := match demo_new with Ret (_, m) => m | _ => λ _, 0 end.
Definition demo_act : result (bool * (jumper * mem)) :=
  activate (λ _ _, true) jumper_proto_x86 demo_m demo_j.
Definition demo_j2 : jumper := match demo_act with Ret (_, (j, _)) => j | _ => demo_j end.
Definition demo_m2 : mem := match demo_act with Ret (_, (_, m)) => m | _ => demo_m end.

Example demo_prologue :
  peek demo_m2 0xFF6 15 =
    [0xE9; 0x05; 0x40; 0; 0; 0x83; 0xEC; 0x08; 0xEB; 0x03; 0xEB; 0xF4; 0x08; 0x55; 0xC3].
Proof. vm_compute. reflexivity. Qed.

Lemma demo_sub_length : first_length 15 false demo_sub 0x1000 3.
Proof. split; [vm_compute; reflexivity|lia]. Defined.

Lemma demo_new_eq : demo_new = Ret (demo_j, demo_m).
Proof.
  assert (match demo_new with Ret _ => true | _ => false end = true) as H by (vm_compute; reflexivity).
  unfold demo_j, demo_m. by destruct demo_new as [[j m]| |].
Qed.

Lemma demo_act_eq : demo_act = Ret (true, (demo_j2, demo_m2)).
Proof.
  assert (match demo_act with Ret (b, _) => b | _ => false end = true) as H
    by (vm_compute; reflexivity).
  unfold demo_j2, demo_m2. destruct demo_act as [[b [j m]]| |]; [|done..]. by subst b.
Qed.

Lemma jumper_diverts_witness :
  (demo_m2 0x1000 = 0xEB ∧ target_of demo_m2 1 (0x1000 + 1) = prologue jumper_proto_x86 demo_j) ∧
  if is_nop demo_sub 0x1000
  then entry demo_j2 = 0x1000 + 3 ∧ ∀ x, entry demo_j2 ≤ x → demo_m2 x = demo_sub x
  else peek demo_m2 (entry demo_j2) (Z.to_nat 3) = peek demo_sub 0x1000 (Z.to_nat 3) ∧
    demo_m2 (entry demo_j2 + 3) = 0xEB ∧ target_of demo_m2 1 (entry demo_j2 + 3 + 1) = 0x1000 + 3 ∧
    ∀ x, 0x1000 + 3 ≤ x → demo_m2 x = demo_sub x.
Proof.
  apply (jumper_diverts 15 false (λ _ _, true) jumper_proto_x86 ltac:(vm_compute; discriminate)
    demo_sub 0x1000 3 0x5000 demo_j demo_m);
    [exact demo_sub_length|lia|exact demo_new_eq|exact demo_act_eq].
Defined.

(** The jumper of the example is activated twice and taken back; another one is detached while it is active. *)
Definition demo_step := jumper_step (λ _ _, true) jumper_proto_x86.

Lemma demo_step_activate : demo_step (demo_j, demo_m) op_activate = (demo_j2, demo_m2).
Proof. pose proof demo_act_eq as H. unfold demo_act in H. unfold demo_step, jumper_step. cbn [fst snd]. by rewrite H. Qed.

Lemma active_steps j m : is_active j = true → detached j = false →
  fold_left demo_step [op_activate; op_detach; op_revert] (j, m) = (detach j, m).
Proof.
  intros Ha Hd. cbn [fold_left]. unfold demo_step, jumper_step, activate, revert. cbn [fst snd]. by rewrite Hd, Ha.
Qed.

Lemma demo_steps : fold_left demo_step [op_activate; op_activate; op_detach; op_revert] (demo_j, demo_m) = (detach demo_j2, demo_m2).
Proof.
  change [op_activate; op_activate; op_detach; op_revert] with ([op_activate] ++ [op_activate; op_detach; op_revert]).
  rewrite fold_left_app. cbn [fold_left]. rewrite demo_step_activate. apply active_steps; vm_compute; reflexivity.
Qed.

Lemma jumper_restores_witness :
  (op_detach ∉ [op_activate] ∧
    ∃ m3, destroy (λ _ _, true) jumper_proto_x86 demo_m2 demo_j2 = Ret m3 ∧ (∀ x, m3 x = demo_sub x) ∧ demo_m2 0x1000 = 0xEB) ∧
  destroy (λ _ _, true) jumper_proto_x86 demo_m2 (detach demo_j2) = Ret demo_m2.
Proof.
  pose proof demo_step_activate as Hact. change (fold_left demo_step [op_activate] (demo_j, demo_m) = (demo_j2, demo_m2)) in Hact.
  assert (op_detach ∉ [op_activate]) as Hd by (by apply (bool_decide_unpack (op_detach ∉ [op_activate])); vm_compute).
  split.
  - destruct (jumper_restores 15 false (λ _ _, true) jumper_proto_x86 ltac:(vm_compute; discriminate)
      demo_sub 0x1000 3 0x5000 demo_j demo_m [op_activate] demo_j2 demo_m2 demo_sub_length demo_new_eq Hact) as [H _].
    destruct (H Hd) as [Hr He]. destruct (He eq_refl) as [m3 E]. split; [done|]. exists m3. split; [done|]. split; [by apply Hr|].
    vm_compute. reflexivity.
  - refine (proj1 (proj2 (proj2 (jumper_restores 15 false (λ _ _, true) jumper_proto_x86 ltac:(vm_compute; discriminate)
      demo_sub 0x1000 3 0x5000 demo_j demo_m _ _ _ demo_sub_length demo_new_eq demo_steps) [op_activate; op_activate] [op_revert] eq_refl _))).
    by apply (bool_decide_unpack (op_detach ∉ [op_activate; op_activate])); vm_compute.
Defined.

Lemma jumper_refuses_witness :
  let m := demo_code [0x55; 0x8B; 0xEC; 0xC3] in
  (leading_too_short = currently_prohibited ∧ VALIDATION_OVERRIDE m 0x1000 = true) ∨
  (leading_too_short = leading_too_short ∧ 1 < 2 ∧ m 0x1000 ≠ 0x90) ∨
  (leading_too_short = padding_insufficient ∧ ∃ j, target j = 0x1000 ∧
     entry_offset j = entry_of m 0x1000 1 ∧
     ((λ _ _, true) (prologue jumper_proto_x86 j) (prologue_size jumper_proto_x86 j) = false ∨
      is_uniform m (prologue jumper_proto_x86 j) (prologue_size jumper_proto_x86 j) = false)).
Proof.
  apply (jumper_refuses 15 false (λ _ _, true) jumper_proto_x86
    (demo_code [0x55; 0x8B; 0xEC; 0xC3]) 0x1000 1 0x5000).
  - split; [vm_compute; reflexivity|lia].
  - vm_compute. reflexivity.
Defined.

(** ** A single no-op

    A function that starts with one no-op of a byte passes the check meant for the two-byte ones. *)

Definition demo_nop : mem := demo_code [0x90; 0x55; 0x8B; 0xEC; 0xC3].
Definition demo_nop_new : result (jumper * mem) :=
  new_jumper 15 false (λ _ _, true) jumper_proto_x86 demo_nop 0x1000 0x5000.

(** Such a function is diverted, but the way back is broken: the entry continues at the second
    byte of the function, which the activation has overwritten. *)
Theorem single_nop_corrupts :
  match demo_nop_new with
  | Ret (j, m1) =>
    match activate (λ _ _, true) jumper_proto_x86 m1 j with
    | Ret (true, (j2, m2)) =>
      is_nop demo_nop 0x1000 = false ∧
      m2 (entry j2) = 0x90 ∧ m2 (entry j2 + 1) = 0xEB ∧
      target_of m2 1 (entry j2 + 2) = 0x1001 ∧ demo_nop 0x1001 = 0x55 ∧ m2 0x1001 = 0xF6
    | _ => False
    end
  | _ => False
  end.
Proof. vm_compute. repeat split. Qed.
