(* ===== verification/PatchManager.v ===== *)
(** The patch manager (patcher/src/image_patch_manager.cpp).

    It keeps the function patches of every image that was ever patched, counts the active ones of an
    image, and holds the lock on the image, which keeps it loaded, while there are any.  A patch is
    used through an interface; the jumpers implement it. *)

From S2P Require Import Prelude Intel Jumper.
Local Open Scope Z_scope.

(** * What the manager expects of a patch

    [W] is the world the patches act on.  An operation that throws leaves it alone. *)

Class patch_ops (W P : Type) := {
  create_patch : W → Z → result (P * W);
  patch_activate : W → P → result (bool * (P * W));
  patch_revert : W → P → result (bool * (P * W));
  patch_detach : P → P;
  patch_active : P → bool;
  create_inactive w a p w' : create_patch w a = Ret (p, w') → patch_active p = false;
  activate_active w p b p' w' :
    patch_activate w p = Ret (b, (p', w')) → patch_active p' = true ∧ b = negb (patch_active p);
  revert_inactive w p b p' w' :
    patch_revert w p = Ret (b, (p', w')) → patch_active p' = false ∧ b = patch_active p
}.

(** [patcher/exceptions.h:27-42] patch_exception. The exceptions derived from it. *)
Definition is_patch_exception (e : exn) : bool :=
  match e with padding_insufficient | leading_too_short | currently_prohibited => true | _ => false end.

(** [patcher/interface.h:29-32] patch_result *)
Inductive patch_result := pr_ok | pr_error | pr_unchanged.
#[export] Instance patch_result_eq_dec : EqDecision patch_result.
Proof. solve_decision. Defined.

(** [patcher/interface.h:40-44] patch_apply *)
Record patch_apply := mk_apply { pa_result : patch_result; pa_id : Z }.

Section manager.
Context {W P L : Type} `{patch_ops W P}.

(** [patcher/image_patch_manager.h:51-58] image_patch *)
Record image_patch := mk_image { lock : option L; patched : gmap Z P; patches_applied : Z }.

(** [patcher/src/image_patch_manager.cpp:29-31] image_patch. The constructor. *)
Definition new_image : image_patch := mk_image None ∅ 0.

(** [patcher/image_patch_manager.h:60-64] image_patch_manager. The images; [s_world] is what the patches act on. *)
Record manager := mk_manager { patched_images : gmap Z image_patch; s_world : W }.

(** [patcher/src/image_patch_manager.cpp:52-67] apply. The body of the [try]: the patch is found or made, and
    activated; the image, the world and the outcome, as far as it got. *)
Definition apply_one (base rva : Z) (image : image_patch) (w : W) :
    (image_patch * W) * result patch_result :=
  match (match patched image !! rva with
         | Some p => Ret (p, w)
         | None => create_patch w (base + rva)
         end) with
  | Throw e => ((image, w), Throw e)
  | UB => ((image, w), UB)
  | Ret (p, w) =>
    let image := mk_image (lock image) (<[rva := p]> (patched image)) (patches_applied image) in
    match patch_activate w p with
    | Throw e => ((image, w), Throw e)
    | UB => ((image, w), UB)
    | Ret (b, (p, w)) =>
      ((mk_image (lock image) (<[rva := p]> (patched image))
          (if b then u32 (patches_applied image + 1) else patches_applied image), w),
       Ret (if b then pr_ok else pr_unchanged))
    end
  end.

(** [patcher/src/image_patch_manager.cpp:50-73] apply. The loop: a patch exception is a result, any other one leaves. *)
Fixpoint apply_loop (base : Z) (image : image_patch) (w : W) (targets : list Z)
    (results : list (Z * patch_apply)) :
    (image_patch * W) * list (Z * patch_apply) * result unit :=
  match targets with
  | [] => ((image, w), results, Ret tt)
  | rva :: targets =>
    match apply_one base rva image w with
    | ((image, w), Ret r) => apply_loop base image w targets (results ++ [(rva, mk_apply r 0)])
    | ((image, w), Throw e) =>
      if is_patch_exception e
      then apply_loop base image w targets (results ++ [(rva, mk_apply pr_error 0)])
      else ((image, w), results, Throw e)
    | ((image, w), UB) => ((image, w), results, UB)
    end
  end.

(** [patcher/src/image_patch_manager.cpp:45-76] apply *)
Definition apply (persistent_id base : Z) (l : L) (targets : list Z) (s : manager) :
    manager * list (Z * patch_apply) * result unit :=
  let image := default new_image (patched_images s !! persistent_id) in
  let '((image, w), results, r) := apply_loop base image (s_world s) targets [] in
  let image :=
    match r with
    | Ret _ =>
      mk_image (if patches_applied image =? 0 then lock image else Some l) (patched image)
        (patches_applied image)
    | _ => image
    end in
  (mk_manager (<[persistent_id := image]> (patched_images s)) w, results, r).

(** [patcher/src/image_patch_manager.cpp:82-98] revert. The loop. *)
Fixpoint revert_loop (image : image_patch) (w : W) (targets : list Z)
    (results : list (Z * patch_result)) :
    (image_patch * W) * list (Z * patch_result) * result unit :=
  match targets with
  | [] => ((image, w), results, Ret tt)
  | rva :: targets =>
    match patched image !! rva with
    | None => revert_loop image w targets (results ++ [(rva, pr_unchanged)])
    | Some p =>
      match patch_revert w p with
      | Throw e => ((image, w), results, Throw e)
      | UB => ((image, w), results, UB)
      | Ret (b, (p, w)) =>
        revert_loop
          (mk_image (lock image) (<[rva := p]> (patched image))
            (if b then u32 (patches_applied image - 1) else patches_applied image)) w targets
          (results ++ [(rva, if b then pr_ok else pr_unchanged)])
      end
    end
  end.

(** [patcher/src/image_patch_manager.cpp:78-101] revert *)
Definition revert_patches (persistent_id : Z) (targets : list Z) (s : manager) :
    manager * list (Z * patch_result) * result unit :=
  let image := default new_image (patched_images s !! persistent_id) in
  let '((image, w), results, r) := revert_loop image (s_world s) targets [] in
  let image :=
    match r with
    | Ret _ =>
      mk_image (if patches_applied image =? 0 then None else lock image) (patched image)
        (patches_applied image)
    | _ => image
    end in
  (mk_manager (<[persistent_id := image]> (patched_images s)) w, results, r).

(** [patcher/src/image_patch_manager.cpp:33-40] detach_all *)
Definition detach_all (s : manager) : manager :=
  mk_manager ((λ i, mk_image (lock i) (patch_detach <$> patched i) (patches_applied i)) <$>
    patched_images s) (s_world s).

(** ** The number of active patches *)

Definition active_count (ps : gmap Z P) : Z :=
  Z.of_nat (size (filter (λ kp, patch_active kp.2 = true) ps)).

Lemma active_count_insert ps k p :
  active_count (<[k := p]> ps) = active_count (delete k ps) + Z.b2z (patch_active p).
Proof.
  unfold active_count. rewrite <- (insert_delete_eq ps).
  destruct (patch_active p) eqn:Ha; simpl.
  - rewrite map_filter_insert_True by done. rewrite map_size_insert_None; [lia|].
    rewrite map_lookup_filter_None. left. apply lookup_delete_eq.
  - rewrite map_filter_insert_False by (simpl; congruence). rewrite delete_delete_eq. lia.
Qed.

Lemma active_count_lookup ps k p :
  ps !! k = Some p → active_count ps = active_count (delete k ps) + Z.b2z (patch_active p).
Proof. intros Hk. rewrite <- (active_count_insert ps k p). by rewrite insert_id. Qed.

Definition image_ok (i : image_patch) : Prop :=
  patches_applied i = u32 (active_count (patched i)).

Lemma new_image_ok : image_ok new_image.
Proof. done. Qed.

Lemma counted i k (p : P) l d :
  image_ok i →
  u32 (active_count (<[k := p]> (patched i)) - active_count (patched i)) = u32 d →
  image_ok (mk_image l (<[k := p]> (patched i)) (u32 (patches_applied i + d))).
Proof.
  intros Hi Hd. unfold image_ok in *. simpl. rewrite Hi.
  rewrite uw_add_l by lia. rewrite <- uw_add_r, <- Hd, uw_add_r by lia. f_equal. lia.
Qed.

(** The step from a patch to the one it becomes. *)
Lemma count_change (ps : gmap Z P) k p :
  active_count (<[k := p]> ps) - active_count ps =
    Z.b2z (patch_active p) - Z.b2z (from_option patch_active false (ps !! k)).
Proof.
  rewrite active_count_insert. destruct (ps !! k) as [q|] eqn:Hk; simpl.
  - rewrite (active_count_lookup ps k q Hk). lia.
  - rewrite delete_id by done. lia.
Qed.

(** An operation on the image of [rva]: nothing but that patch is changed. *)
Definition touches (rva : Z) (i i' : image_patch) : Prop :=
  image_ok i' ∧ lock i' = lock i ∧ ∀ k, k ≠ rva → patched i' !! k = patched i !! k.

Lemma touches_insert rva i p l d n :
  image_ok i → l = lock i →
  d = Z.b2z (patch_active p) - Z.b2z (from_option patch_active false (patched i !! rva)) →
  n = u32 (patches_applied i + d) →
  touches rva i (mk_image l (<[rva := p]> (patched i)) n).
Proof.
  intros Hi -> -> ->. split_and!; [|done|].
  - apply counted; [done|]. f_equal. apply count_change.
  - intros k Hk. simpl. by rewrite lookup_insert_ne.
Qed.

Lemma image_ok_wrapped i : image_ok i → u32 (patches_applied i + 0) = patches_applied i.
Proof. unfold image_ok. intros ->. rewrite Z.add_0_r. by rewrite uw_uw by lia. Qed.

(** The patch at [rva] is active. *)
Definition active_at (rva : Z) (i : image_patch) : Prop :=
  ∃ p, patched i !! rva = Some p ∧ patch_active p = true.

Lemma unchanged_active rva i p l n :
  patch_active p = from_option patch_active false (patched i !! rva) →
  active_at rva i → active_at rva (mk_image l (<[rva := p]> (patched i)) n).
Proof.
  intros Hp (q & Hq & Ha). exists p. simpl. rewrite lookup_insert_eq. split; [done|].
  rewrite Hp, Hq. done.
Qed.

Lemma apply_one_ok base rva i w i' w' r :
  image_ok i → apply_one base rva i w = ((i', w'), r) →
  touches rva i i' ∧ (active_at rva i → active_at rva i') ∧
  (∀ b, r = Ret b → active_at rva i').
Proof.
  intros Hi. unfold apply_one.
  destruct (match patched i !! rva with Some p => _ | None => _ end) as [[p w1]|e|] eqn:Hp.
  2-3: intros [= <- <- <-]; split_and!; [by split_and!|done|done].
  assert (patch_active p = from_option patch_active false (patched i !! rva)) as Ha.
  { destruct (patched i !! rva) as [q|]; [by simplify_eq|]. simpl. by eapply create_inactive. }
  destruct (patch_activate w1 p) as [[b [q w2]]|e|] eqn:Hact; intros [= <- <- <-].
  - destruct (activate_active _ _ _ _ _ Hact) as [Hq ->]. cbn [lock patched patches_applied].
    rewrite insert_insert_eq. split_and!.
    + eapply touches_insert; [done|done|done|]. rewrite Hq, <- Ha.
      destruct (patch_active p); cbn [negb Z.b2z Z.sub Z.add Z.opp Z.pos_sub]; [|done]. by rewrite image_ok_wrapped.
    + intros _. exists q. simpl. by rewrite lookup_insert_eq.
    + intros b _. exists q. simpl. by rewrite lookup_insert_eq.
  - split_and!; [|by apply unchanged_active|done].
    eapply touches_insert; [done|done|done|]. rewrite <- Ha.
    rewrite Z.sub_diag. by rewrite image_ok_wrapped.
  - split_and!; [|by apply unchanged_active|done].
    eapply touches_insert; [done|done|done|]. rewrite <- Ha.
    rewrite Z.sub_diag. by rewrite image_ok_wrapped.
Qed.

Lemma touches_active rva k i i' :
  touches rva i i' → (active_at rva i → active_at rva i') → active_at k i → active_at k i'.
Proof.
  intros (_ & _ & Hk) Hr Ha. destruct (decide (k = rva)) as [->|Hne]; [auto|].
  unfold active_at. by rewrite Hk.
Qed.

Lemma apply_loop_ok base targets : ∀ i w rs i' w' rs' r,
  image_ok i → apply_loop base i w targets rs = ((i', w'), rs', r) →
  image_ok i' ∧ lock i' = lock i ∧
  (∀ k, active_at k i → active_at k i') ∧
  (∀ k, k ∉ targets → patched i' !! k = patched i !! k) ∧
  ∃ l, rs' = rs ++ l ∧ l.*1 `prefix_of` targets ∧ (r = Ret tt → l.*1 = targets) ∧
    Forall (λ x, pa_result x.2 = pr_error ∨ active_at x.1 i') l.
Proof.
  induction targets as [|rva targets IH]; intros i w rs i' w' rs' r Hi; cbn [apply_loop].
  { intros [= <- <- <- <-]. split_and!; [done..|]. exists []. rewrite app_nil_r. by split_and!. }
  destruct (apply_one base rva i w) as [[i1 w1] r1] eqn:H1.
  destruct (apply_one_ok _ _ _ _ _ _ _ Hi H1) as (Ht & Ha & Hact).
  pose proof Ht as (Hi1 & Hl1 & Hk1).
  assert (∀ x rs, pa_result x = pr_error ∨ active_at rva i1 →
    apply_loop base i1 w1 targets (rs ++ [(rva, x)]) = ((i', w'), rs', r) →
    image_ok i' ∧ lock i' = lock i ∧ (∀ k, active_at k i → active_at k i') ∧
    (∀ k, k ∉ rva :: targets → patched i' !! k = patched i !! k) ∧
    ∃ l, rs' = rs ++ l ∧ l.*1 `prefix_of` rva :: targets ∧ (r = Ret tt → l.*1 = rva :: targets) ∧
    Forall (λ x, pa_result x.2 = pr_error ∨ active_at x.1 i') l) as Hgo.
  { intros x rs0 Hx (Hi' & Hl' & Hmono & Hk' & l & -> & Hpre & Hfull & Hall)%IH; [|done].
    split_and!; [done|congruence| | |].
    - intros k Hk. apply Hmono. by eapply touches_active.
    - intros k [Hne Hk]%not_elem_of_cons. by rewrite Hk', Hk1.
    - exists ((rva, x) :: l). rewrite <- app_assoc. split_and!; [done| | |].
      + by apply prefix_cons.
      + intros Hr. rewrite fmap_cons. by rewrite Hfull.
      + constructor; [|done]. destruct Hx; [by left|right; by apply Hmono]. }
  destruct r1 as [r1|e|].
  - apply Hgo. right. by eapply Hact.
  - destruct (is_patch_exception e); [apply Hgo; by left|]. intros [= <- <- <- <-].
    split_and!; [done|done| | |].
    + intros k. by apply (touches_active rva).
    + intros k [? _]%not_elem_of_cons. by apply Hk1.
    + exists []. rewrite app_nil_r. split_and!; [done|apply prefix_nil|done|done].
  - intros [= <- <- <- <-]. split_and!; [done|done| | |].
    + intros k. by apply (touches_active rva).
    + intros k [? _]%not_elem_of_cons. by apply Hk1.
    + exists []. rewrite app_nil_r. split_and!; [done|apply prefix_nil|done|done].
Qed.

(** Between two operations: the counts are exact, and an image is locked exactly while it has
    patches applied. *)
Definition manager_ok (s : manager) : Prop :=
  map_Forall (λ _ i, image_ok i ∧ (patches_applied i = 0 ↔ lock i = None)) (patched_images s).

Definition image_of (id : Z) (s : manager) : image_patch :=
  default new_image (patched_images s !! id).

Lemma image_of_ok id s :
  manager_ok s → image_ok (image_of id s) ∧
    (patches_applied (image_of id s) = 0 ↔ lock (image_of id s) = None).
Proof.
  intros Hs. unfold image_of. destruct (patched_images s !! id) as [i|] eqn:Hi; [|done].
  by apply (Hs _ _ Hi).
Qed.

Lemma count_active i k : active_at k i → 0 < active_count (patched i).
Proof.
  intros (p & Hp & Ha). rewrite (active_count_lookup _ _ _ Hp), Ha. unfold active_count. simpl. lia.
Qed.

Lemma active_count_pos i : active_count (patched i) ≠ 0 → ∃ k, active_at k i.
Proof.
  unfold active_count. intros Hc.
  destruct (map_choose (filter (λ kp, patch_active kp.2 = true) (patched i))) as (k & p & Hk).
  - intros He. rewrite He, map_size_empty in Hc. done.
  - apply map_lookup_filter_Some in Hk as [Hk Ha]. by exists k, p.
Qed.

(** The count does not wrap: an image has fewer than 2^32 functions. *)
Definition small (i : image_patch) : Prop := Z.of_nat (size (patched i)) < 2 ^ 32.

Lemma count_exact i :
  image_ok i → small i → patches_applied i = active_count (patched i).
Proof.
  unfold image_ok, small, active_count. intros -> Hs. apply (uw_small 32 ltac:(lia)).
  assert (size (filter (λ kp, patch_active kp.2 = true) (patched i)) ≤ size (patched i))%nat
    by apply map_subseteq_size, map_filter_subseteq.
  unfold in_u. lia.
Qed.

Lemma manager_ok_insert id s i w :
  manager_ok s → image_ok i → (patches_applied i = 0 ↔ lock i = None) →
  manager_ok (mk_manager (<[id := i]> (patched_images s)) w).
Proof. intros. by apply map_Forall_insert_2. Qed.

(** C21: After a request to patch, every function of it is patched or has been answered with an
    error, the answers are in the order of the request, nothing that was patched is lost, and the
    image is locked exactly when it has patches applied. *)
Theorem apply_patches id base l targets s s' rs :
  manager_ok s → apply id base l targets s = (s', rs, Ret tt) → small (image_of id s') →
  manager_ok s' ∧ rs.*1 = targets ∧
  Forall (λ x, pa_result x.2 = pr_error ∨ active_at x.1 (image_of id s')) rs ∧
  (∀ k, active_at k (image_of id s) → active_at k (image_of id s')).
Proof.
  intros Hs. destruct (image_of_ok id s Hs) as [Hi Hlock]. unfold apply. fold (image_of id s).
  destruct (apply_loop _ _ _ _ _) as [[[i' w'] rs'] r] eqn:Hl. intros [= <- <- ->].
  apply apply_loop_ok in Hl as (Hi' & Hl' & Hmono & _ & l' & -> & _ & Hfull & Hall); [|done].
  set (i2 := mk_image _ (patched i') _).
  assert (image_of id (mk_manager (<[id := i2]> (patched_images s)) w') = i2) as ->
    by (unfold image_of; simpl; by rewrite lookup_insert_eq).
  intros Hsmall. split_and!; [|by apply Hfull|done|done].
  apply manager_ok_insert; [done|done|]. cbn [i2 patches_applied lock].
  destruct (Z.eqb_spec (patches_applied i') 0) as [E|E]; [|done].
  split; [intros _|done]. rewrite Hl'. apply Hlock.
  destruct (decide (patches_applied (image_of id s) = 0)) as [|Hne]; [done|exfalso].
  destruct (active_count_pos (image_of id s)) as [k Hk].
  { intros H0. apply Hne. by rewrite Hi, H0. }
  apply Hmono, count_active in Hk. rewrite (count_exact i') in E by done. lia.
Qed.

Lemma revert_loop_ok targets : ∀ i w rs i' w' rs' r,
  image_ok i → revert_loop i w targets rs = ((i', w'), rs', r) →
  image_ok i' ∧ lock i' = lock i ∧
  (∀ k, ¬ active_at k i → ¬ active_at k i') ∧
  (∀ k, k ∉ targets → patched i' !! k = patched i !! k) ∧
  (r = Ret tt → (∃ l, rs' = rs ++ l ∧ l.*1 = targets) ∧ Forall (λ k, ¬ active_at k i') targets).
Proof.
  induction targets as [|rva targets IH]; intros i w rs i' w' rs' r Hi; cbn [revert_loop].
  { intros [= <- <- <- <-]. split_and!; [done..|]. intros _. split; [|done].
    exists []. by rewrite app_nil_r. }
  assert (∀ i1 w1 x, touches rva i i1 → ¬ active_at rva i1 →
    revert_loop i1 w1 targets (rs ++ [(rva, x)]) = ((i', w'), rs', r) →
    image_ok i' ∧ lock i' = lock i ∧ (∀ k, ¬ active_at k i → ¬ active_at k i') ∧
    (∀ k, k ∉ rva :: targets → patched i' !! k = patched i !! k) ∧
    (r = Ret tt → (∃ l, rs' = rs ++ l ∧ l.*1 = rva :: targets) ∧
      Forall (λ k, ¬ active_at k i') (rva :: targets))) as Hgo.
  { intros i1 w1 x (Hi1 & Hl1 & Hk1) Hna (Hi' & Hl' & Hmono & Hk' & Hret)%IH; [|done].
    split_and!; [done|congruence| | |].
    - intros k Hk. apply Hmono. destruct (decide (k = rva)) as [->|Hne]; [done|].
      unfold active_at. by rewrite Hk1.
    - intros k [Hne Hk]%not_elem_of_cons. by rewrite Hk', Hk1.
    - intros Hr. destruct (Hret Hr) as [(l & -> & Hl) Hall]. split.
      + exists ((rva, x) :: l). rewrite <- app_assoc. split; [done|]. by rewrite fmap_cons, Hl.
      + constructor; [by apply Hmono|done]. }
  destruct (patched i !! rva) as [p|] eqn:Hp.
  - destruct (patch_revert w p) as [[b [q w2]]|e|] eqn:Hrev.
    + destruct (revert_inactive _ _ _ _ _ Hrev) as [Hq ->]. apply Hgo.
      * eapply touches_insert; [done|done|done|]. rewrite Hq, Hp.
        destruct (patch_active p) eqn:Ha; simpl; rewrite Ha; simpl; [done|].
        by rewrite image_ok_wrapped.
      * intros (q' & Hq' & Ha). simpl in Hq'. rewrite lookup_insert_eq in Hq'. congruence.
    + intros [= <- <- <- <-]. by split_and!.
    + intros [= <- <- <- <-]. by split_and!.
  - apply Hgo; [by split_and!|]. intros (q & Hq & _). congruence.
Qed.

(** After a request to revert, no function of it is patched, there is an answer for every one
    in order, the other functions are as they were, and the lock is gone with the last patch. *)
Theorem revert_patches_done id targets s s' rs :
  manager_ok s → revert_patches id targets s = (s', rs, Ret tt) → small (image_of id s) →
  manager_ok s' ∧ rs.*1 = targets ∧ Forall (λ k, ¬ active_at k (image_of id s')) targets ∧
  (∀ k, k ∉ targets → patched (image_of id s') !! k = patched (image_of id s) !! k).
Proof.
  intros Hs. destruct (image_of_ok id s Hs) as [Hi Hlock]. unfold revert_patches.
  fold (image_of id s).
  destruct (revert_loop _ _ _ _) as [[[i' w'] rs'] r] eqn:Hl. intros [= <- <- ->].
  apply revert_loop_ok in Hl as (Hi' & Hl' & Hmono & Hk & Hret); [|done].
  destruct (Hret eq_refl) as [(l' & -> & Hfull) Hall].
  set (i2 := mk_image _ (patched i') _).
  assert (image_of id (mk_manager (<[id := i2]> (patched_images s)) w') = i2) as ->
    by (unfold image_of; simpl; by rewrite lookup_insert_eq).
  intros Hsmall. split_and!; [|done|done|done].
  apply manager_ok_insert; [done|done|]. cbn [i2 patches_applied lock].
  destruct (Z.eqb_spec (patches_applied i') 0) as [E|E]; [done|].
  split; [done|]. rewrite Hl'. intros H0%Hlock. exfalso.
  destruct (active_count_pos i') as [k Hk']; [intros H1; apply E; by rewrite Hi', H1|].
  assert (¬ active_at k (image_of id s)) as Hna.
  { intros Ha%count_active. rewrite (count_exact _ Hi Hsmall) in H0. lia. }
  by destruct (Hmono k Hna).
Qed.
End manager.

(** * Function patches are patches

    The world is the memory; the addresses of the trampolines come from the allocator. *)

Section function_patches.
Context (fuel : nat) (x64 : bool) (unprotect : Z → Z → bool).
Context (jumper_proto trampoline_proto : list Z).
Context (interceptor on_enter on_exit : Z) (trampoline_for : Z → Z).

Lemma new_jumper_inactive m t d j m' :
  new_jumper fuel x64 unprotect jumper_proto m t d = Ret (j, m') → active j = false.
Proof.
  unfold new_jumper. repeat (case_match; try done). intros Hr%Ret_inj.
  by apply pair_equal_spec in Hr as [<- _].
Qed.

#[export, refine] Instance function_patches : patch_ops mem jumper := {|
  create_patch m t := new_function_patch fuel x64 unprotect jumper_proto trampoline_proto m t
    interceptor on_enter on_exit (trampoline_for t);
  patch_activate := activate unprotect jumper_proto;
  patch_revert := revert unprotect;
  patch_detach := detach;
  patch_active := active
|}.
Proof using All.
  - intros m t j m'. unfold new_function_patch.
    destruct (new_jumper _ _ _ _ _ _ _) as [[j1 m1]| |] eqn:Hj; simpl; try done.
    case_match; [|done]. intros [= <- _]. by eapply new_jumper_inactive.
  - intros m j b j' m'. unfold activate, active. destruct (detached j) eqn:Hd; [done|].
    destruct (is_active j) eqn:Ha; [intros [= <- <- _]; by rewrite Hd, Ha|].
    destruct (negb _); [done|]. intros Hr%Ret_inj.
    apply pair_equal_spec in Hr as [<- Hr]. apply pair_equal_spec in Hr as [<- _]. done.
  - intros m j b j' m'. unfold revert, active. destruct (detached j) eqn:Hd; [done|].
    destruct (is_active j) eqn:Ha; cbn [negb]; [|intros [= <- <- _]; by rewrite Hd, Ha].
    destruct (negb _); [done|]. intros Hr%Ret_inj.
    apply pair_equal_spec in Hr as [<- Hr]. apply pair_equal_spec in Hr as [<- _]. done.
Defined.
End function_patches.

(** ** An image with two functions, one of which cannot be patched *)

Definition demo_image : mem := write demo_sub 0x1100 [0x55; 0x8B; 0xEC; 0xC3].
#[local] Instance demo_patches : patch_ops mem jumper :=
  function_patches 15 false (λ _ _, true) jumper_proto_x86 [0xC3] 0x10 0x20 0x30 (λ t, t + 0x4000).

Definition demo_manager : manager (W := mem) (P := jumper) (L := Z) := mk_manager ∅ demo_image.
Definition demo_applied := apply 7 0x1000 99 [0; 0x100] demo_manager.
Definition demo_reverted := revert_patches 7 [0; 0x200] demo_applied.1.1.

Lemma demo_manager_ok : manager_ok demo_manager.
Proof. apply map_Forall_empty. Defined.

Lemma demo_applied_eq :
  apply 7 0x1000 99 [0; 0x100] demo_manager =
    (demo_applied.1.1, [(0, mk_apply pr_ok 0); (0x100, mk_apply pr_error 0)], Ret tt).
Proof.
  assert (demo_applied.1.2 = [(0, mk_apply pr_ok 0); (0x100, mk_apply pr_error 0)] ∧
    demo_applied.2 = Ret tt) as [H1 H2] by (vm_compute; done).
  fold demo_applied. destruct demo_applied as [[s rs] r]. simpl in *. by subst.
Qed.

Lemma demo_applied_small : small (image_of 7 demo_applied.1.1).
Proof. vm_compute. done. Defined.

Lemma apply_patches_witness :
  manager_ok demo_applied.1.1 ∧ [0; 0x100] = [0; 0x100] ∧
  Forall (λ x, pa_result x.2 = pr_error ∨ active_at x.1 (image_of 7 demo_applied.1.1))
    [(0, mk_apply pr_ok 0); (0x100, mk_apply pr_error 0)] ∧
  (∀ k, active_at k (image_of 7 demo_manager) → active_at k (image_of 7 demo_applied.1.1)).
Proof.
  apply (apply_patches 7 0x1000 99 [0; 0x100] demo_manager demo_applied.1.1
    [(0, mk_apply pr_ok 0); (0x100, mk_apply pr_error 0)]);
    [exact demo_manager_ok|exact demo_applied_eq|exact demo_applied_small].
Defined.

Lemma demo_applied_ok : manager_ok demo_applied.1.1.
Proof.
  assert (lock (image_of 7 demo_applied.1.1) = Some 99 ∧
    patches_applied (image_of 7 demo_applied.1.1) = 1 ∧
    active_count (patched (image_of 7 demo_applied.1.1)) = 1 ∧
    map_to_list (patched_images demo_applied.1.1) = [(7, image_of 7 demo_applied.1.1)])
    as (Hl & Hp & Hc & Hm) by (split_and!; vm_compute; reflexivity).
  revert Hl Hp Hc Hm. generalize demo_applied.1.1. intros s Hl Hp Hc Hm id i Hi.
  apply elem_of_map_to_list in Hi. rewrite Hm in Hi.
  apply list_elem_of_singleton in Hi. apply pair_equal_spec in Hi as [-> ->].
  split; [unfold image_ok; by rewrite Hp, Hc|by rewrite Hl, Hp].
Qed.

Lemma revert_patches_done_witness :
  manager_ok demo_reverted.1.1 ∧ [0; 0x200] = [0; 0x200] ∧
  Forall (λ k, ¬ active_at k (image_of 7 demo_reverted.1.1)) [0; 0x200] ∧
  (∀ k, k ∉ [0; 0x200] →
     patched (image_of 7 demo_reverted.1.1) !! k = patched (image_of 7 demo_applied.1.1) !! k).
Proof.
  apply (revert_patches_done 7 [0; 0x200] demo_applied.1.1 demo_reverted.1.1
    [(0, pr_ok); (0x200, pr_unchanged)]);
    [exact demo_applied_ok| |exact demo_applied_small].
  assert (demo_reverted.1.2 = [(0, pr_ok); (0x200, pr_unchanged)] ∧
    demo_reverted.2 = Ret tt) as [H1 H2] by (vm_compute; done).
  fold demo_reverted. destruct demo_reverted as [[s rs] r]. simpl in *. by subst.
Defined.
