(* ===== verification/PodVector.v ===== *)
(** Growing vectors and the streams over them (common/pod_vector.h, common/stream.h,
    common/src/stream.cpp).

    A [pod_vector] is a block of cells of which a prefix is in use.  It never throws: an element
    that no room can be found for is dropped.  The block is modelled with its cells, those that have
    not been written included, and a write outside of it is undefined. *)

From S2P Require Import Prelude.
Local Open Scope Z_scope.

Section pod_vector.
Context {T : Type}.
(** [new (std::nothrow) T[n]]: is there memory for [n] elements? *)
Context (alloc : Z → bool).

(** [common/pod_vector.h:31-75] pod_vector. The cells from [_begin] to [_limit], and how many of them precede [_end]. *)
Record pod_vector := mk_pod { cells : list (option T); size : nat }.

(** [common/pod_vector.h:160-162] capacity *)
Definition capacity (v : pod_vector) : Z := len (cells v).

(** [common/pod_vector.h:148-150] empty *)
Definition pod_empty (v : pod_vector) : bool := (size v =? 0)%nat.

(** [common/pod_vector.h:79-82] pod_vector. The constructor. *)
Definition new_pod (initial_capacity : nat) : pod_vector :=
  mk_pod (replicate initial_capacity None) 0.

(** [common/pod_vector.h:84-90] pod_vector. The copy constructor. *)
Definition copy_pod (v : pod_vector) : pod_vector :=
  mk_pod (take (size v) (cells v) ++ replicate (length (cells v) - size v) None) (size v).

(** [common/pod_vector.h:164-181] grow *)
Definition grow (by_ : Z) (v : pod_vector) : bool * pod_vector :=
  let new_capacity :=
    u64 (capacity v + (if capacity v <? u64 (2 * by_) then by_ else capacity v / 2)) in
  if alloc new_capacity
  then (true, mk_pod (take (size v) (cells v) ++ replicate (Z.to_nat new_capacity - size v) None)
                (size v))
  else (false, v).

(** [*_end++ = element] *)
Definition put (element : option T) (v : pod_vector) : result pod_vector :=
  if (size v <? length (cells v))%nat
  then Ret (mk_pod (<[size v := element]> (cells v)) (S (size v)))
  else UB.

(** [common/pod_vector.h:96-102] push_back *)
Definition push_back (element : T) (v : pod_vector) : result pod_vector :=
  if (size v =? length (cells v))%nat
  then match grow 0 v with
    | (true, v) => put (Some element) v
    | (false, v) => Ret v
    end
  else put (Some element) v.

(** [common/pod_vector.h:104-110] push_back. Without a value: the cell keeps what it held; to go past the limit is as
    bad as to write there. *)
Definition push_back_raw (v : pod_vector) : result pod_vector :=
  if (size v =? length (cells v))%nat
  then match grow 0 v with
    | (true, v) => put (default None (cells v !! size v)) v
    | (false, v) => Ret v
    end
  else put (default None (cells v !! size v)) v.

(** [common/pod_vector.h:112-114] pop_back *)
Definition pop_back (v : pod_vector) : result pod_vector :=
  match size v with O => UB | S n => Ret (mk_pod (cells v) n) end.

(** [common/pod_vector.h:116-126] append. Whether [grow] succeeded is not looked at. *)
Definition append (elements : list T) (v : pod_vector) : result pod_vector :=
  let demanded := Z.of_nat (size v) + len elements in
  let v := if capacity v <? demanded then (grow (demanded - capacity v) v).2 else v in
  fold_m (λ v e, put (Some e) v) v elements.

(** [common/pod_vector.h:128-130] clear *)
Definition pod_clear (v : pod_vector) : pod_vector := mk_pod (cells v) 0.

(** [common/pod_vector.h:144-146] back *)
Definition back (v : pod_vector) : result (option T) :=
  match size v with
  | O => UB
  | S n => match cells v !! n with Some c => Ret c | None => UB end
  end.

(** ** The list a vector stands for *)

Record pod_ok (v : pod_vector) (l : list T) : Prop := {
  ok_fits : (size v ≤ length (cells v))%nat;
  ok_contents : take (size v) (cells v) = Some <$> l
}.

Lemma pod_size v l : pod_ok v l → size v = length l.
Proof.
  intros [Hf Hc]. apply (f_equal length) in Hc. rewrite length_take, length_fmap in Hc. lia.
Qed.

Lemma pod_put_ok e v l :
  pod_ok v l → (size v < length (cells v))%nat →
  ∃ v', put (Some e) v = Ret v' ∧ pod_ok v' (l ++ [e]) ∧ length (cells v') = length (cells v).
Proof.
  intros [Hf Hc] Hlt. unfold put. destruct (Nat.ltb_spec (size v) (length (cells v))); [|lia].
  eexists. split; [done|]. cbn [cells size]. rewrite length_insert. split; [|done].
  split; cbn [cells size]; [rewrite length_insert; lia|].
  rewrite (take_S_r _ _ (Some e)) by (by apply list_lookup_insert_eq).
  rewrite take_insert_ge by lia. by rewrite Hc, fmap_app.
Qed.

(** Growing makes room for [by_] elements at least, and for half of what there was. *)
Lemma grow_ok by_ v l :
  pod_ok v l → 0 ≤ by_ < 2 ^ 62 → capacity v < 2 ^ 62 → (by_ = 0 → 2 ≤ capacity v) →
  (grow by_ v).1 = true →
  pod_ok (grow by_ v).2 l ∧ capacity v + Z.max 1 by_ ≤ capacity (grow by_ v).2.
Proof.
  intros [Hf Hc] Hb Hcap H2. unfold grow.
  set (n := u64 _). destruct (alloc n); [|done]. intros _. cbn [fst snd].
  assert (u64 (2 * by_) = 2 * by_) as Hby by (apply (uw_small 64 ltac:(lia)); unfold in_u; lia).
  assert (0 ≤ capacity v) as Hpos by (unfold capacity; lia).
  assert (capacity v + Z.max 1 by_ ≤ n < 2 ^ 64) as Hn.
  { pose proof (Z.div_mod (capacity v) 2 ltac:(lia)).
    pose proof (Z.mod_pos_bound (capacity v) 2 ltac:(lia)).
    unfold n. rewrite Hby. rewrite (uw_small 64 ltac:(lia)).
    - case_match; lia.
    - unfold in_u. case_match; lia. }
  unfold capacity in *.
  assert (length (take (size v) (cells v) ++ replicate (Z.to_nat n - size v) None) = Z.to_nat n)
    as Hlen by (rewrite length_app, length_take, length_replicate; lia).
  split; [split; cbn [cells size]|cbn [cells]; lia]; [lia|].
  rewrite take_app_le by (rewrite length_take; lia). by rewrite take_take, Nat.min_id.
Qed.

Definition full (v : pod_vector) : bool := (size v =? length (cells v))%nat.

Lemma push_back_room e v l :
  pod_ok v l → 2 ≤ capacity v < 2 ^ 62 → (full v = true → (grow 0 v).1 = true) →
  ∃ v', push_back e v = Ret v' ∧ pod_ok v' (l ++ [e]) ∧
    capacity v' = capacity (if full v then (grow 0 v).2 else v).
Proof.
  intros Hok Hcap Hroom. unfold push_back. fold (full v). destruct (full v) eqn:E; unfold full in E.
  - apply Nat.eqb_eq in E. destruct (grow_ok 0 v l Hok ltac:(lia) ltac:(lia) ltac:(lia) (Hroom eq_refl)) as [Hok1 Hc1].
    specialize (Hroom eq_refl). destruct (grow 0 v) as [b v1]. simpl in Hroom. subst b. cbn [snd] in *.
    destruct (pod_put_ok e v1 l Hok1) as (v2 & -> & Hok2 & Hlen).
    { pose proof (pod_size _ _ Hok). pose proof (pod_size _ _ Hok1). unfold capacity in *. lia. }
    exists v2. unfold capacity. by rewrite Hlen.
  - destruct (pod_put_ok e v l Hok) as (v2 & -> & Hok2 & Hlen); [apply Nat.eqb_neq in E; destruct Hok; lia|].
    exists v2. unfold capacity. by rewrite Hlen.
Qed.

(** A push appends the element, or drops it when the vector is full and there is no memory; it
    does not fail otherwise, provided the capacity is not below two. *)
Theorem push_back_appends e v l :
  pod_ok v l → 2 ≤ capacity v < 2 ^ 62 →
  ∃ v', push_back e v = Ret v' ∧
    (pod_ok v' (l ++ [e]) ∨ full v = true ∧ (grow 0 v).1 = false ∧ v' = v).
Proof.
  intros Hok Hcap. destruct (full v && negb (grow 0 v).1) eqn:E.
  - apply andb_true_iff in E as [Hf Hg%negb_true_iff]. exists v. split; [|auto].
    unfold push_back. fold (full v). rewrite Hf. destruct (grow 0 v) as [b v1] eqn:Eg.
    simpl in Hg. subst b. revert Eg. unfold grow. case_match; [done|]. by intros [= ->].
  - destruct (push_back_room e v l Hok Hcap) as (v' & -> & Hok' & _); [|eauto].
    intros Hf. rewrite Hf in E. by apply negb_false_iff in E.
Qed.

Lemma append_puts es : ∀ v l,
  pod_ok v l → (size v + length es ≤ length (cells v))%nat →
  ∃ v', fold_m (λ v e, put (Some e) v) v es = Ret v' ∧ pod_ok v' (l ++ es) ∧ capacity v' = capacity v.
Proof.
  induction es as [|e es IH]; intros v l Hok Hr; simpl; [rewrite app_nil_r; eauto|].
  destruct (pod_put_ok e v l Hok) as (v1 & -> & Hok1 & Hlen); [simpl in Hr; lia|]. simpl.
  destruct (IH v1 (l ++ [e]) Hok1) as (v2 & -> & Hok2 & Hc).
  { pose proof (pod_size _ _ Hok). pose proof (pod_size _ _ Hok1) as H1. rewrite length_app in H1.
    simpl in *. lia. }
  exists v2. split_and!; [done|by rewrite <- app_assoc in Hok2|]. rewrite Hc. unfold capacity. lia.
Qed.

(** The vector that [append] writes its range to. *)
Definition grown (n : Z) (v : pod_vector) : pod_vector :=
  if capacity v <? Z.of_nat (size v) + n
  then (grow (Z.of_nat (size v) + n - capacity v) v).2 else v.

Lemma append_room es v l :
  pod_ok v l → capacity v < 2 ^ 62 → len es < 2 ^ 61 → len l < 2 ^ 61 →
  (capacity v < len l + len es → (grow (len l + len es - capacity v) v).1 = true) →
  ∃ v', append es v = Ret v' ∧ pod_ok v' (l ++ es) ∧ capacity v' = capacity (grown (len es) v).
Proof.
  intros Hok Hcap Hes Hl Halloc. pose proof (pod_size _ _ Hok) as Hs. unfold append, grown.
  rewrite Hs. destruct (Z.ltb_spec (capacity v) (len l + len es)) as [Hlt|Hge].
  - destruct (grow_ok (len l + len es - capacity v) v l Hok) as [Hok1 Hc1];
      [unfold capacity in *; lia|lia|lia|by apply Halloc|].
    apply append_puts; [done|]. pose proof (pod_size _ _ Hok1). unfold capacity in *. lia.
  - apply append_puts; [done|]. unfold capacity in *. lia.
Qed.

(** Appending a range appends its elements, when they fit or the memory for them is there. *)
Theorem append_appends es v l :
  pod_ok v l → capacity v < 2 ^ 62 → len es < 2 ^ 61 → len l < 2 ^ 61 →
  (capacity v < len l + len es → (grow (len l + len es - capacity v) v).1 = true) →
  ∃ v', append es v = Ret v' ∧ pod_ok v' (l ++ es).
Proof.
  intros Hok Hcap Hes Hl Halloc. destruct (append_room es v l) as (v' & ? & ? & _); eauto.
Qed.

Lemma pop_back_ok v l e : pod_ok v (l ++ [e]) → ∃ v', pop_back v = Ret v' ∧ pod_ok v' l.
Proof.
  intros Hok. pose proof (pod_size _ _ Hok) as Hs. destruct Hok as [Hf Hc]. unfold pop_back.
  rewrite length_app, Nat.add_comm in Hs. simpl in Hs. rewrite Hs in *. eexists. split; [done|].
  split; cbn [cells size]; [lia|].
  apply (f_equal (take (length l))) in Hc. rewrite take_take, Nat.min_l in Hc by lia. rewrite Hc.
  rewrite fmap_app, take_app_le by (rewrite length_fmap; lia).
  by rewrite take_ge by (rewrite length_fmap; lia).
Qed.

Lemma back_ok v l e : pod_ok v (l ++ [e]) → back v = Ret (Some e).
Proof.
  intros Hok. pose proof (pod_size _ _ Hok) as Hs. destruct Hok as [Hf Hc]. unfold back.
  rewrite length_app, Nat.add_comm in Hs. simpl in Hs. rewrite Hs in *.
  rewrite <- (lookup_take_lt _ (S (length l))) by lia. rewrite Hc, fmap_app.
  rewrite lookup_app_r by (by rewrite length_fmap). rewrite length_fmap, Nat.sub_diag. done.
Qed.

(** A vector made with a capacity of one does not grow: half of one is nothing, so that the
    second push finds memory and writes behind the block. *)
Theorem tiny_vector_overruns (a b : T) :
  alloc 1 = true → (v ← push_back a (new_pod 1); push_back b v) = UB.
Proof.
  intros Ha. assert (push_back a (new_pod 1) = Ret (mk_pod [Some a] 1)) as -> by done.
  cbn [mbind result_bind]. unfold push_back. cbn [size cells length Nat.eqb].
  assert (grow 0 (mk_pod [Some a] 1) = (true, mk_pod [Some a] 1)) as ->; [|done].
  unfold grow. change (u64 _) with 1. rewrite Ha. done.
Qed.
End pod_vector.

Lemma demo_pod_ok : pod_ok (mk_pod [Some 1; None] 1) [1].
Proof. split; [simpl; lia|reflexivity]. Defined.

Lemma push_back_appends_witness :
  ∃ v', push_back (λ _, true) 2 (mk_pod [Some 1; None] 1) = Ret v' ∧
    (pod_ok v' ([1] ++ [2]) ∨ full (mk_pod [Some 1; None] 1) = true ∧
      (grow (λ _, true) 0 (mk_pod [Some 1; None] 1)).1 = false ∧ v' = mk_pod [Some 1; None] 1).
Proof.
  apply (push_back_appends (λ _, true) 2 (mk_pod [Some 1; None] 1) [1]);
    [exact demo_pod_ok|unfold capacity; simpl; lia].
Defined.

Lemma append_appends_witness :
  ∃ v', append (λ _, true) [2; 3; 4] (mk_pod [Some 1; None] 1) = Ret v' ∧ pod_ok v' ([1] ++ [2; 3; 4]).
Proof.
  apply (append_appends (λ _, true) [2; 3; 4] (mk_pod [Some 1; None] 1) [1]);
    [exact demo_pod_ok|unfold capacity; simpl; lia|simpl; lia|simpl; lia|reflexivity].
Defined.

Lemma tiny_vector_overruns_witness :
  (v ← push_back (λ _, true) 1 (new_pod 1); push_back (λ _, true) 2 v) = UB.
Proof. apply (tiny_vector_overruns (λ _, true) 1 2). reflexivity. Defined.

(** * Streams *)

(** [common/stream.h:36-50] buffer_reader. The bytes at [_ptr] that remain. *)
Record buffer_reader := mk_reader { remaining : list Z }.

(** [common/src/stream.cpp:37-44] buffer_reader::read *)
Definition read (size : Z) (r : buffer_reader) : result (list Z * buffer_reader) :=
  if len (remaining r) <? size then Throw (insufficient_buffer_error size (len (remaining r)))
  else Ret (take (Z.to_nat size) (remaining r), mk_reader (drop (Z.to_nat size) (remaining r))).

(** [common/src/stream.cpp:46-52] buffer_reader::skip *)
Definition skip (size : Z) (r : buffer_reader) : result buffer_reader :=
  if len (remaining r) <? size then Throw (insufficient_buffer_error size (len (remaining r)))
  else Ret (mk_reader (drop (Z.to_nat size) (remaining r))).

Section streams.
Context (alloc : Z → bool).

(** [common/stream.h:71-80] buffer_writer::write *)
Definition stream_write (data : list Z) (v : pod_vector (T := Z)) : result pod_vector :=
  match data with
  | [b] => push_back alloc b v
  | _ => append alloc data v
  end.

(** [common/stream.h:66-69] buffer_writer. The constructor clears the buffer. *)
Definition write_all (chunks : list (list Z)) (v : pod_vector (T := Z)) : result pod_vector :=
  fold_m (λ v data, stream_write data v) (pod_clear v) chunks.

(** The chunks read back by their sizes. *)
Fixpoint read_all (sizes : list Z) (r : buffer_reader) : result (list (list Z) * buffer_reader) :=
  match sizes with
  | [] => Ret ([], r)
  | n :: sizes =>
    '(c, r) ← read n r;
    '(cs, r) ← read_all sizes r;
    Ret (c :: cs, r)
  end.

Context (Halloc : ∀ n, alloc n = true).

Lemma grow_upper (v : pod_vector (T := Z)) by_ :
  0 ≤ by_ < 2 ^ 61 → capacity v < 2 ^ 62 →
  capacity (grow alloc by_ v).2 ≤ Z.max (Z.of_nat (size v)) (capacity v + Z.max by_ (capacity v / 2)).
Proof using Halloc.
  intros Hb Hc. unfold grow. rewrite Halloc. cbn [snd]. unfold capacity at 1. cbn [cells].
  assert (0 ≤ capacity v) as Hpos by (unfold capacity; lia).
  assert (0 ≤ capacity v / 2 ≤ capacity v) as Hhalf.
  { split; [apply Z.div_pos; lia|]. apply Z.div_le_upper_bound; lia. }
  rewrite length_app, length_take, length_replicate.
  rewrite (uw_small 64 ltac:(lia)); [|unfold in_u; case_match; lia]. case_match; lia.
Qed.

Lemma grow_succeeds (v : pod_vector (T := Z)) by_ : (grow alloc by_ v).1 = true.
Proof using Halloc. unfold grow. by rewrite Halloc. Qed.

Lemma grow_lower (v : pod_vector (T := Z)) l by_ :
  pod_ok v l → 0 ≤ by_ < 2 ^ 62 → 2 ≤ capacity v < 2 ^ 62 → 2 ≤ capacity (grow alloc by_ v).2.
Proof using Halloc.
  intros Hok Hb Hc.
  destruct (grow_ok alloc by_ v l Hok Hb ltac:(lia) ltac:(lia) (grow_succeeds _ _)). lia.
Qed.

Lemma stream_write_ok data v l :
  pod_ok v l → 2 ≤ capacity v < 2 ^ 61 → 2 * (len l + len data) < 2 ^ 61 →
  ∃ v', stream_write data v = Ret v' ∧ pod_ok v' (l ++ data) ∧
    2 ≤ capacity v' ≤ Z.max (capacity v) (2 * (len l + len data)).
Proof using Halloc.
  intros Hok Hcap Hlen. pose proof (pod_size _ _ Hok) as Hs.
  assert (∃ v', append alloc data v = Ret v' ∧ pod_ok v' (l ++ data) ∧
    2 ≤ capacity v' ≤ Z.max (capacity v) (2 * (len l + len data))) as Happ.
  { destruct (append_room alloc data v l Hok) as (v' & -> & Hok' & Hc'); [lia..| |].
    { intros _. apply grow_succeeds. }
    exists v'. split_and!; [done|done| |]; rewrite Hc'; unfold grown; rewrite Hs;
      destruct (Z.ltb_spec (capacity v) (len l + len data)); try lia.
    - eapply grow_lower; [done|lia|lia].
    - etransitivity; [apply grow_upper; lia|]. rewrite Hs.
      pose proof (Z.div_mod (capacity v) 2). pose proof (Z.mod_pos_bound (capacity v) 2). lia. }
  destruct data as [|b [|b2 data]]; [exact Happ| |exact Happ]. cbn [stream_write].
  destruct (push_back_room alloc b v l Hok) as (v' & -> & Hok' & Hc'); [lia| |].
  { intros _. apply grow_succeeds. }
  exists v'. split_and!; [done|done| |]; rewrite Hc'; destruct (full v) eqn:Hf; try lia.
  - eapply grow_lower; [done|lia|lia].
  - etransitivity; [apply grow_upper; lia|]. unfold full in Hf. apply Nat.eqb_eq in Hf.
    unfold capacity in *.
    pose proof (Z.div_mod (len (cells v)) 2). pose proof (Z.mod_pos_bound (len (cells v)) 2).
    cbn [length] in Hlen. lia.
Qed.

Lemma write_loop_ok chunks : ∀ (v : pod_vector (T := Z)) l,
  pod_ok v l → 2 ≤ capacity v < 2 ^ 61 → 2 * (len l + len (concat chunks)) < 2 ^ 61 →
  ∃ v', fold_m (λ v data, stream_write data v) v chunks = Ret v' ∧ pod_ok v' (l ++ concat chunks).
Proof using Halloc.
  induction chunks as [|c chunks IH]; intros v l Hok Hcap Hlen; simpl;
    [rewrite app_nil_r; eauto|].
  simpl in Hlen. rewrite length_app in Hlen.
  destruct (stream_write_ok c v l Hok Hcap) as (v1 & -> & Hok1 & Hc1); [lia|]. simpl.
  destruct (IH v1 (l ++ c) Hok1) as (v2 & -> & Hok2); [lia|rewrite length_app; lia|].
  exists v2. split; [done|]. by rewrite app_assoc.
Qed.

Lemma read_chunks chunks rest :
  read_all (map (λ c, len c) chunks) (mk_reader (concat chunks ++ rest)) = Ret (chunks, mk_reader rest).
Proof using Type.
  induction chunks as [|c chunks IH]; [done|]. cbn [map read_all concat]. unfold read at 1.
  cbn [remaining]. rewrite <- app_assoc, length_app.
  destruct (Z.ltb_spec (Z.of_nat (length c + length (concat chunks ++ rest))) (len c)); [lia|].
  cbn [mbind result_bind]. rewrite Nat2Z.id, drop_app_length, take_app_length. by rewrite IH.
Qed.

(** What is written to a buffer piece by piece is the bytes of the pieces, one after another, and
    reading pieces of the same sizes gives them back, up to whatever follows. *)
Theorem stream_roundtrip chunks (v : pod_vector (T := Z)) l rest :
  pod_ok v l → 2 ≤ capacity v < 2 ^ 61 → 2 * len (concat chunks) < 2 ^ 61 →
  ∃ v', write_all chunks v = Ret v' ∧ pod_ok v' (concat chunks) ∧
    read_all (map (λ c, len c) chunks) (mk_reader (concat chunks ++ rest)) =
      Ret (chunks, mk_reader rest).
Proof using Halloc.
  intros Hok Hcap Hlen. destruct (write_loop_ok chunks (pod_clear v) []) as (v' & Hw & Hok').
  - by split; simpl; [lia|].
  - done.
  - simpl. lia.
  - exists v'. split_and!; [done|done|apply read_chunks].
Qed.

(** A request for more than there is throws, and says how much there was. *)
Lemma read_short n r :
  len (remaining r) < n → read n r = Throw (insufficient_buffer_error n (len (remaining r))) ∧
    skip n r = Throw (insufficient_buffer_error n (len (remaining r))).
Proof using Type.
  intros Hn. unfold read, skip. by replace (len (remaining r) <? n) with true by lia.
Qed.
End streams.

Lemma stream_roundtrip_witness :
  ∃ v', write_all (λ _, true) [[1]; [2; 3]; []; [4; 5; 6]] (mk_pod [Some 9; None] 1) = Ret v' ∧
    pod_ok v' [1; 2; 3; 4; 5; 6] ∧
    read_all [1; 2; 0; 3] (mk_reader [1; 2; 3; 4; 5; 6; 7]) =
      Ret ([[1]; [2; 3]; []; [4; 5; 6]], mk_reader [7]).
Proof.
  apply (stream_roundtrip (λ _, true) (λ _, eq_refl) [[1]; [2; 3]; []; [4; 5; 6]]
    (mk_pod [Some 9; None] 1) [9] [7]);
    [split; [simpl; lia|reflexivity]|unfold capacity; simpl; lia|simpl; lia].
Defined.
