(* ===== verification/FrontendPatcher.v ===== *)
(** Patch requests of the frontend (frontend/src/frontend_patcher.cpp).

    The frontend keeps a table of patches and sends requests to apply and to revert them.  A patch
    that is waiting for a response is marked, so that it is not asked for twice.  The table is
    accessed by its index over symbols; responses arrive later, in any order. *)

From S2P Require Import Prelude Intel Jumper PatchManager.
Local Open Scope Z_scope.

(** [frontend/primitives.h:62-76] patch *)
Record patch := mk_patch { patch_id : Z; requested : bool; error : bool; patch_is_active : bool }.

(** [frontend/primitives.h:64-65] patch. The constructor. *)
Definition new_patch : patch := mk_patch 0 false false false.

(** A record of the table is found by the image and the offset of its function. *)
Abbreviation symbol := (Z * Z)%type.

(** [frontend/src/frontend_patcher.cpp:32-36] set_requested *)
Definition set_requested (p : patch) (for_active : bool) : bool * patch :=
  if eqb (patch_is_active p) for_active && negb (error p) && negb (requested p)
  then (true, mk_patch (patch_id p) true (error p) (patch_is_active p))
  else (false, p).

(** [frontend/src/frontend_patcher.cpp:38-45] set_complete *)
Definition set_complete (p : patch) (e : patch_result) (active : bool) : patch :=
  if decide (e ≠ pr_ok) then mk_patch (patch_id p) false true (patch_is_active p)
  else mk_patch (patch_id p) false (error p) active.

(** A request that is waiting for its response. *)
Record pending_request := mk_pending { for_apply : bool; image_id : Z; functions : list Z }.

(** [frontend/frontend.h:93-98] frontend. The table, the requests under way, and how often the table was invalidated. *)
Record frontend := mk_frontend {
  patches : gmap symbol patch;
  pending : list pending_request;
  invalidations : nat
}.

(** [frontend/src/frontend_patcher.cpp:67-73] apply. One function: its record is made when it is missing. *)
Definition mark_apply (id : Z) (s : gmap symbol patch * list Z) (rva : Z) :
    gmap symbol patch * list Z :=
  let '(marked, p) := set_requested (default new_patch (s.1 !! (id, rva))) false in
  (<[(id, rva) := p]> s.1, if marked then s.2 ++ [rva] else s.2).

(** [frontend/src/frontend_patcher.cpp:103-114] revert. One function: a missing record is left missing. *)
Definition mark_revert (id : Z) (s : gmap symbol patch * list Z) (rva : Z) :
    gmap symbol patch * list Z :=
  match s.1 !! (id, rva) with
  | None => s
  | Some p =>
    let '(marked, p) := set_requested p true in
    (<[(id, rva) := p]> s.1, if marked then s.2 ++ [rva] else s.2)
  end.

(** [frontend/src/frontend_patcher.cpp:74-77] apply. Nothing is sent when there is nothing to do. *)
Definition send_request (apply : bool) (id : Z) (m : gmap symbol patch * list Z) (f : frontend) :
    frontend :=
  match m.2 with
  | [] => mk_frontend m.1 (pending f) (invalidations f)
  | _ => mk_frontend m.1 (pending f ++ [mk_pending apply id m.2]) (S (invalidations f))
  end.

(** [frontend/src/frontend_patcher.cpp:58-92] frontend::apply *)
Definition request_apply (id : Z) (rva : list Z) (f : frontend) : frontend :=
  send_request true id (fold_left (mark_apply id) rva (patches f, [])) f.

(** [frontend/src/frontend_patcher.cpp:94-132] frontend::revert *)
Definition request_revert (id : Z) (rva : list Z) (f : frontend) : frontend :=
  send_request false id (fold_left (mark_revert id) rva (patches f, [])) f.

(** [frontend/src/frontend_patcher.cpp:81-88] apply. One answer. *)
Definition complete_apply (id : Z) (ps : gmap symbol patch) (r : Z * patch_apply) : gmap symbol patch :=
  let p := default new_patch (ps !! (id, r.1)) in
  <[(id, r.1) := set_complete
      (mk_patch (pa_id r.2) (requested p) (error p) (patch_is_active p)) (pa_result r.2) true]> ps.

(** [frontend/src/frontend_patcher.cpp:122-128] revert. One answer. *)
Definition complete_revert (id : Z) (ps : gmap symbol patch) (r : Z * patch_result) :
    gmap symbol patch :=
  let p := default new_patch (ps !! (id, r.1)) in
  <[(id, r.1) := set_complete p r.2 false]> ps.

(** [frontend/src/frontend_patcher.cpp:78-91] apply. The response to the request at [i]. *)
Definition on_patched (i : nat) (answers : list (Z * patch_apply)) (f : frontend) : frontend :=
  match pending f !! i with
  | None => f
  | Some r =>
    mk_frontend (fold_left (complete_apply (image_id r)) answers (patches f))
      (delete i (pending f)) (S (invalidations f))
  end.

(** [frontend/src/frontend_patcher.cpp:119-131] revert. The response to the request at [i]. *)
Definition on_reverted (i : nat) (answers : list (Z * patch_result)) (f : frontend) : frontend :=
  match pending f !! i with
  | None => f
  | Some r =>
    mk_frontend (fold_left (complete_revert (image_id r)) answers (patches f))
      (delete i (pending f)) (S (invalidations f))
  end.

Inductive frontend_step : frontend → frontend → Prop :=
  | fs_apply id rva f : frontend_step f (request_apply id rva f)
  | fs_revert id rva f : frontend_step f (request_revert id rva f)
  | fs_patched i r answers f :
    pending f !! i = Some r → for_apply r = true → answers.*1 = functions r →
    frontend_step f (on_patched i answers f)
  | fs_reverted i r answers f :
    pending f !! i = Some r → for_apply r = false → answers.*1 = functions r →
    frontend_step f (on_reverted i answers f).

(** ** Marks and requests *)

Definition request_keys (r : pending_request) : list symbol := map (image_id r,.) (functions r).
Definition waiting (f : frontend) : list symbol := concat (map request_keys (pending f)).

Definition marked (ps : gmap symbol patch) (k : symbol) : Prop :=
  ∃ p, ps !! k = Some p ∧ requested p = true.

Record frontend_ok (f : frontend) : Prop := {
  ok_once : NoDup (waiting f);
  ok_marked : ∀ k, k ∈ waiting f ↔ marked (patches f) k
}.

Lemma marked_insert ps k p k' :
  marked (<[k := p]> ps) k' ↔ (k' = k ∧ requested p = true) ∨ (k' ≠ k ∧ marked ps k').
Proof.
  unfold marked. destruct (decide (k' = k)) as [->|Hne].
  - rewrite lookup_insert_eq. naive_solver.
  - rewrite lookup_insert_ne by done. naive_solver.
Qed.

(** Marking adds to the targets the functions it marks, none of which was marked before. *)
Definition marks (id : Z) (ps0 : gmap symbol patch) (s : gmap symbol patch * list Z) : Prop :=
  NoDup s.2 ∧ (∀ rva, rva ∈ s.2 → ¬ marked ps0 (id, rva)) ∧
  (∀ k, marked s.1 k ↔ marked ps0 k ∨ ∃ rva, k = (id, rva) ∧ rva ∈ s.2).

Lemma set_requested_spec p b :
  (set_requested p b).1 = true ∧ requested p = false ∧ requested (set_requested p b).2 = true ∨
  (set_requested p b).1 = false ∧ (set_requested p b).2 = p.
Proof.
  unfold set_requested. destruct (_ && _ && negb (requested p)) eqn:E; [|by right].
  left. apply andb_true_iff in E as [_ E%negb_true_iff]. done.
Qed.

Lemma marks_insert id ps0 s rva p b :
  marks id ps0 s → (s.1 !! (id, rva) = Some p ∨ s.1 !! (id, rva) = None ∧ requested p = false) →
  marks id ps0 (<[(id, rva) := (set_requested p b).2]> s.1,
    if (set_requested p b).1 then s.2 ++ [rva] else s.2).
Proof.
  intros (Hnd & Hnew & Hm) Hp.
  assert (marked s.1 (id, rva) ↔ requested p = true) as Hreq.
  { unfold marked. destruct Hp as [Hp|[Hp Hr]]; rewrite Hp.
    - split; [by intros (q & [= <-] & Hq)|eauto].
    - rewrite Hr. split; [by intros (q & ? & _)|done]. }
  destruct (set_requested_spec p b) as [(H1 & H2 & H3)|[H1 H2]].
  - rewrite H1. assert (¬ marked s.1 (id, rva)) as Hno by (rewrite Hreq; congruence).
    assert (rva ∉ s.2) as Hrva by (intros Hin; apply Hno, Hm; right; eauto).
    split_and!; simpl.
    + apply NoDup_app. split_and!; [done| |apply NoDup_singleton].
      intros x Hx Hy. apply list_elem_of_singleton in Hy as ->. done.
    + intros r [Hr|Hr]%elem_of_app; [by apply Hnew|]. apply list_elem_of_singleton in Hr as ->.
      intros Hr. apply Hno, Hm. by left.
    + intros k. rewrite marked_insert, H3, Hm. setoid_rewrite elem_of_app.
      setoid_rewrite list_elem_of_singleton.
      destruct (decide (k = (id, rva))) as [->|Hne]; [naive_solver|].
      split; [naive_solver|]. intros [Hk|(r & -> & [Hr| ->])]; naive_solver.
  - rewrite H1, H2. split_and!; [done|done|]. simpl. intros k. rewrite marked_insert, <- Hm.
    destruct (decide (k = (id, rva))) as [->|Hne]; [rewrite Hreq|]; naive_solver.
Qed.

Lemma mark_apply_ok id ps0 s rva : marks id ps0 s → marks id ps0 (mark_apply id s rva).
Proof.
  intros Hs. unfold mark_apply. rewrite (surjective_pairing (set_requested _ _)).
  apply marks_insert; [done|]. destruct (s.1 !! (id, rva)) as [p|]; [by left|by right].
Qed.

Lemma mark_revert_ok id ps0 s rva : marks id ps0 s → marks id ps0 (mark_revert id s rva).
Proof.
  intros Hs. unfold mark_revert. destruct (s.1 !! (id, rva)) as [p|] eqn:Hp; [|done].
  rewrite (surjective_pairing (set_requested p true)). apply marks_insert; [done|by left].
Qed.

Lemma fold_left_invariant {A B} (P : A → Prop) (f : A → B → A) l a :
  (∀ a b, P a → P (f a b)) → P a → P (fold_left f l a).
Proof. intros Hf. revert a. induction l as [|b l IH]; simpl; auto. Qed.

Lemma marks_nil id ps : marks id ps (ps, []).
Proof.
  split_and!; simpl; [constructor|by intros ? ?%elem_of_nil|].
  intros k. split; [by left|]. intros [?|(? & _ & ?%elem_of_nil)]; done.
Qed.

Lemma send_request_ok a id m f :
  frontend_ok f → marks id (patches f) m → frontend_ok (send_request a id m f).
Proof.
  intros [Ho Hw] (Hnd & Hnew & Hm). unfold send_request.
  destruct m as [ps ts]. cbn [fst snd] in *. destruct (decide (ts = [])) as [->|Hne].
  - split; [done|]. intros k. simpl. change (waiting (mk_frontend ps (pending f) (invalidations f)))
      with (waiting f). rewrite Hw, Hm. split; [by left|]. by intros [?|(? & _ & ?%elem_of_nil)].
  - assert (∀ n, waiting (mk_frontend ps (pending f ++ [mk_pending a id ts]) n) =
      waiting f ++ map (id,.) ts) as Hwait.
    { intros n. unfold waiting. simpl. rewrite map_app, concat_app. simpl. by rewrite app_nil_r. }
    replace (match ts with [] => mk_frontend ps (pending f) (invalidations f) | _ => _ end) with
      (mk_frontend ps (pending f ++ [mk_pending a id ts]) (S (invalidations f))) by by destruct ts.
    split; rewrite ?Hwait.
    + apply NoDup_app. split_and!; [done| |].
      * intros k Hk (r & -> & Hr)%list_elem_of_fmap. apply (Hnew r Hr). by apply Hw.
      * apply NoDup_fmap_2; [|done]. by intros ?? [= ->].
    + intros k. rewrite elem_of_app, Hm, Hw. rewrite list_elem_of_fmap. done.
Qed.

(** Completing takes the mark from the functions that are answered, and from no other. *)
Lemma set_complete_unmarked p e b : requested (set_complete p e b) = false.
Proof. unfold set_complete. by case_decide. Qed.

Lemma complete_all {R} (complete : gmap symbol patch → Z * R → gmap symbol patch) id answers :
  (∀ ps r, ∃ p, complete ps r = <[(id, r.1) := p]> ps ∧ requested p = false) →
  ∀ ps k, marked (fold_left complete answers ps) k ↔
    marked ps k ∧ k ∉ map (id,.) (answers.*1).
Proof.
  intros Hc. induction answers as [|r answers IH]; intros ps k; simpl.
  - split; [|by intros [? _]]. intros Hk. split; [done|by intros ?%elem_of_nil].
  - rewrite IH. destruct (Hc ps r) as (p & -> & Hp). rewrite marked_insert, Hp, not_elem_of_cons.
    naive_solver.
Qed.

Lemma waiting_delete f i r n ps :
  pending f !! i = Some r →
  waiting f ≡ₚ request_keys r ++ waiting (mk_frontend ps (delete i (pending f)) n).
Proof.
  intros Hi. unfold waiting. simpl. rewrite <- (take_drop_middle _ _ _ Hi) at 1.
  rewrite delete_take_drop, !map_app, !concat_app. simpl. solve_Permutation.
Qed.

Lemma response_ok f i r ps n :
  frontend_ok f → pending f !! i = Some r →
  (∀ k, marked ps k ↔ marked (patches f) k ∧ k ∉ request_keys r) →
  frontend_ok (mk_frontend ps (delete i (pending f)) n).
Proof.
  intros [Ho Hw] Hi Hps. pose proof (waiting_delete f i r n ps Hi) as Hp.
  rewrite Hp in Ho. apply NoDup_app in Ho as (_ & Hdis & Hnd). split; [done|].
  intros k. simpl. rewrite Hps, <- Hw, Hp, elem_of_app. split; [|naive_solver].
  intros Hk. split; [by right|]. intros Hr. by apply (Hdis k).
Qed.

(** C23: A function is waited for by one request at most, and is marked exactly while it is: whatever
    is asked for in the meantime and in whatever order the answers come. *)
Theorem frontend_marks_pending f f' : frontend_ok f → frontend_step f f' → frontend_ok f'.
Proof.
  intros Hok Hs. revert Hok.
  destruct Hs as [id rva g|id rva g|i r answers g Hi _ Ha|i r answers g Hi _ Ha]; intros Hok.
  - apply send_request_ok; [done|]. apply fold_left_invariant; [|apply marks_nil].
    intros. by apply mark_apply_ok.
  - apply send_request_ok; [done|]. apply fold_left_invariant; [|apply marks_nil].
    intros. by apply mark_revert_ok.
  - unfold on_patched. rewrite Hi. apply (response_ok g i r); [done|done|]. intros k.
    rewrite (complete_all _ (image_id r)), Ha; [done|]. intros ps x. eexists. split; [done|].
    apply set_complete_unmarked.
  - unfold on_reverted. rewrite Hi. apply (response_ok g i r); [done|done|]. intros k.
    rewrite (complete_all _ (image_id r)), Ha; [done|]. intros ps x. eexists. split; [done|].
    apply set_complete_unmarked.
Qed.

(** What can be asked for: a function that is not patched, has not failed, and is not waited for. *)
Definition can_apply (p : patch) : Prop :=
  patch_is_active p = false ∧ error p = false ∧ requested p = false.

Lemma set_requested_can p : (set_requested p false).1 = true ↔ can_apply p.
Proof.
  unfold set_requested, can_apply. destruct p as [i [] [] []]; simpl; naive_solver.
Qed.

Lemma mark_apply_other id s a r :
  r ≠ a → (mark_apply id s a).1 !! (id, r) = s.1 !! (id, r) ∧
  (r ∈ (mark_apply id s a).2 ↔ r ∈ s.2).
Proof.
  intros Hne. unfold mark_apply. destruct (set_requested _ _) as [b p]. simpl.
  rewrite lookup_insert_ne by congruence. split; [done|]. destruct b; [|done].
  rewrite elem_of_app, list_elem_of_singleton. naive_solver.
Qed.

Lemma fold_mark_apply id l : ∀ s r,
  r ∈ (fold_left (mark_apply id) l s).2 ↔
    r ∈ s.2 ∨ (r ∈ l ∧ can_apply (default new_patch (s.1 !! (id, r)))).
Proof.
  induction l as [|a l IH]; intros s r; simpl.
  { split; [by left|]. intros [?|[?%elem_of_nil _]]; done. }
  rewrite IH, elem_of_cons. destruct (decide (r = a)) as [->|Hne].
  - unfold mark_apply. pose proof (set_requested_can (default new_patch (s.1 !! (id, a)))) as Hc.
    destruct (set_requested_spec (default new_patch (s.1 !! (id, a))) false) as [(H1 & _ & H3)|[H1 H2]];
      destruct (set_requested _ false) as [b p]; simpl in *; subst b;
      rewrite lookup_insert_eq; simpl.
    + rewrite elem_of_app, list_elem_of_singleton. naive_solver.
    + subst p. naive_solver.
  - destruct (mark_apply_other id s a r Hne) as [-> ->]. naive_solver.
Qed.

(** A request to patch asks for exactly those of the given functions that are not patched, have
    not failed and are not waited for, each once; when there are none nothing is sent. *)
Theorem request_apply_asks id rva f :
  ∃ targets, NoDup targets ∧
    (∀ r, r ∈ targets ↔ r ∈ rva ∧ can_apply (default new_patch (patches f !! (id, r)))) ∧
    pending (request_apply id rva f) =
      pending f ++ (if decide (targets = []) then [] else [mk_pending true id targets]).
Proof.
  exists (fold_left (mark_apply id) rva (patches f, [])).2. split_and!.
  - assert (marks id (patches f) (fold_left (mark_apply id) rva (patches f, []))) as [Hnd _]; [|done].
    apply fold_left_invariant; [|apply marks_nil]. intros. by apply mark_apply_ok.
  - intros r. rewrite fold_mark_apply. simpl. split; [|naive_solver].
    by intros [?%elem_of_nil|?].
  - unfold request_apply, send_request.
    destruct (fold_left (mark_apply id) rva (patches f, [])) as [ps [|t ts]]; simpl;
      by rewrite ?app_nil_r.
Qed.

(** ** Two requests that overlap *)

Definition demo_frontend : frontend :=
  request_apply 1 [20; 30] (request_apply 1 [10; 20; 10] (mk_frontend ∅ [] 0)).

Example demo_frontend_pending :
  pending demo_frontend = [mk_pending true 1 [10; 20]; mk_pending true 1 [30]].
Proof. vm_compute. reflexivity. Qed.

Lemma empty_frontend_ok : frontend_ok (mk_frontend ∅ [] 0).
Proof.
  split; [constructor|]. intros k. split; [by intros ?%elem_of_nil|]. by intros (p & ? & _).
Defined.

Lemma frontend_marks_pending_witness :
  frontend_ok (request_apply 1 [10; 20; 10] (mk_frontend ∅ [] 0)).
Proof.
  apply (frontend_marks_pending (mk_frontend ∅ [] 0)); [exact empty_frontend_ok|apply fs_apply].
Defined.
