(* ===== verification/Strings.v ===== *)
(** Numbers and text (common/formatting.h, common/src/string.cpp).

    [itoa] prints a number into a local buffer from its end on; the buffer is as long as the number
    in base two, so that a padding wider than that would run out of it.  The conversions between
    UTF-8 and UTF-16 work on bytes and on 16-bit units. *)

From S2P Require Import Prelude.
Local Open Scope Z_scope.

(** * Printing numbers *)

(** [common/formatting.h:45-51] digits. The digits above nine are reached for a base above ten only. *)
Definition digit (d : Z) : Z := if d <? 10 then 0x30 + d else 0x41 + (d - 10).

(** [common/formatting.h:53-67] adjust_signed. A negative number is printed behind its sign; the least one has no
    negation. *)
Definition adjust_signed (is_signed : bool) (w : Z) (destination : list Z) (value min_width : Z) :
    result (list Z * Z * Z) :=
  if is_signed && (value <? 0)
  then if value =? - 2 ^ (w - 1) then UB
    else Ret (destination ++ [0x2D], - value, s8 (min_width - 1))
  else Ret (destination, value, min_width).

(** [common/formatting.h:93-95] itoa. The loop over the digits; [buffer] is what has been written to the local buffer,
    [room] what is left of it. *)
Fixpoint digits_loop (fuel : nat) (base value min_width : Z) (room : nat) (buffer : list Z) :
    result (list Z * Z * nat) :=
  match fuel, room with
  | S fuel, S room =>
    let buffer := digit (value mod base) :: buffer in
    let min_width := s8 (min_width - 1) in
    let value := value / base in
    if value =? 0 then Ret (buffer, min_width, room)
    else digits_loop fuel base value min_width room buffer
  | _, _ => UB
  end.

(** [common/formatting.h:96-97] itoa. The loop over the padding. *)
Fixpoint pad_loop (n : nat) (padding : Z) (room : nat) (buffer : list Z) : result (list Z) :=
  match n with
  | O => Ret buffer
  | S n => match room with O => UB | S room => pad_loop n padding room (padding :: buffer) end
  end.

(** [common/formatting.h:85-99] itoa. For a type of [w] bits. *)
Definition itoa (base : Z) (is_signed : bool) (w : Z) (destination : list Z) (value : Z)
    (min_width padding : Z) : result (list Z) :=
  let max_length := Z.to_nat (w + 1) in
  '(destination, value, min_width) ← adjust_signed is_signed w destination value min_width;
  '(buffer, min_width, room) ← digits_loop max_length base value min_width max_length [];
  buffer ← pad_loop (Z.to_nat min_width) padding room buffer;
  Ret (destination ++ buffer).

(** The number some digits stand for. *)
Definition digit_value (c : Z) : Z := if c <? 0x3A then c - 0x30 else c - 0x41 + 10.
Definition of_digits (base : Z) (l : list Z) : Z := fold_left (λ n c, n * base + digit_value c) l 0.

Lemma digit_value_digit d : 0 ≤ d < 16 → digit_value (digit d) = d.
Proof. intros Hd. unfold digit_value, digit. repeat case_match; lia. Qed.

Lemma of_digits_acc base l : ∀ n,
  fold_left (λ n c, n * base + digit_value c) l n = n * base ^ len l + of_digits base l.
Proof.
  unfold of_digits. induction l as [|x l IH]; intros n; [simpl; lia|].
  cbn [fold_left length]. rewrite IH, (IH (0 * base + digit_value x)).
  rewrite Nat2Z.inj_succ, Z.pow_succ_r by lia. lia.
Qed.

Lemma of_digits_cons base c l :
  of_digits base (c :: l) = digit_value c * base ^ len l + of_digits base l.
Proof. unfold of_digits at 1. simpl. rewrite of_digits_acc. lia. Qed.

(** The digits of a number: as many as it takes, and their value is the number. *)
Lemma digits_loop_ok base : 2 ≤ base ≤ 16 → ∀ room fuel value mw buffer,
  (room ≤ fuel)%nat → 0 ≤ value < 2 ^ Z.of_nat room → (0 < room)%nat →
  - 127 + Z.of_nat room ≤ mw ≤ 127 →
  ∃ ds room', digits_loop fuel base value mw room buffer = Ret (ds ++ buffer, mw - len ds, room') ∧
    (length ds + room' = room)%nat ∧ of_digits base ds = value ∧ ds ≠ [] ∧
    Forall (λ c, ∃ d, 0 ≤ d < base ∧ c = digit d) ds.
Proof.
  intros Hb. induction room as [|room IH]; intros fuel value mw buffer Hf Hv Hr Hmw; [lia|].
  destruct fuel as [|fuel]; [lia|]. cbn [digits_loop].
  pose proof (Z.mod_pos_bound value base ltac:(lia)) as Hm.
  pose proof (Z.div_mod value base ltac:(lia)) as Hdm.
  assert (s8 (mw - 1) = mw - 1) as -> by (apply (sw_small 8 ltac:(lia)); unfold in_s; lia).
  destruct (Z.eqb_spec (value / base) 0) as [E|E].
  - exists [digit (value mod base)], room. split_and!; [simpl; f_equal; f_equal; f_equal; lia|simpl; lia| |done|].
    + rewrite of_digits_cons, digit_value_digit by lia. unfold of_digits. simpl. lia.
    + repeat constructor. eauto.
  - assert (0 < value / base) as Hpos by (pose proof (Z.div_pos value base); lia).
    assert (value / base < 2 ^ Z.of_nat room) as Hlt.
    { apply Z.div_lt_upper_bound; [lia|]. rewrite Nat2Z.inj_succ, Z.pow_succ_r in Hv by lia. nia. }
    destruct room as [|room]; [change (2 ^ Z.of_nat 0) with 1 in Hlt; lia|].
    destruct (IH fuel (value / base) (mw - 1) (digit (value mod base) :: buffer))
      as (ds & room' & -> & Hlen & Hval & Hne & Hall); [lia|lia|lia|lia|].
    exists (ds ++ [digit (value mod base)]), room'. split_and!.
    + rewrite <- app_assoc, length_app. simpl. do 3 f_equal. lia.
    + rewrite length_app. simpl. lia.
    + unfold of_digits in *. rewrite fold_left_app. simpl. rewrite Hval, digit_value_digit by lia. lia.
    + by destruct ds.
    + apply Forall_app. split; [done|]. repeat constructor. eauto.
Qed.

Lemma pad_loop_ok n padding : ∀ room buffer,
  (n ≤ room)%nat → pad_loop n padding room buffer = Ret (replicate n padding ++ buffer).
Proof.
  induction n as [|n IH]; intros room buffer Hr; [done|]. destruct room as [|room]; [lia|].
  cbn [pad_loop]. rewrite IH by lia. by rewrite replicate_S_end, <- app_assoc.
Qed.

(** A number is printed as its digits in the base, behind the padding up to the least width, and
    behind its sign, which counts to the width; the local buffer is never left when the width is
    not greater than it.  Only the least number of a signed type is excluded. *)
Theorem itoa_prints base (is_signed : bool) w destination value min_width padding :
  2 ≤ base ≤ 16 → 8 ≤ w ≤ 64 → (if is_signed then in_s w value else in_u w value) →
  (is_signed = true → value ≠ - 2 ^ (w - 1)) → 0 ≤ min_width ≤ w →
  let sign := if is_signed && (value <? 0) then [0x2D] else [] in
  ∃ ds pads, itoa base is_signed w destination value min_width padding =
      Ret (destination ++ sign ++ replicate pads padding ++ ds) ∧
    of_digits base ds = Z.abs value ∧ ds ≠ [] ∧
    Z.of_nat pads = Z.max 0 (min_width - len sign - len ds) ∧
    Forall (λ c, ∃ d, 0 ≤ d < base ∧ c = digit d) ds.
Proof.
  intros Hb Hw Hv Hmin Hmw sign. unfold itoa.
  assert (2 ^ w = 2 * 2 ^ (w - 1)) as Hp by (apply pow_w_half; lia).
  assert (adjust_signed is_signed w destination value min_width =
    Ret (destination ++ sign, Z.abs value, min_width - len sign)) as ->.
  { unfold adjust_signed, sign. destruct is_signed; simpl.
    - unfold in_s in Hv. destruct (Z.ltb_spec value 0).
      + destruct (Z.eqb_spec value (- 2 ^ (w - 1))); [by destruct Hmin|].
        rewrite (sw_small 8 ltac:(lia)) by (unfold in_s; lia). do 3 f_equal; simpl; lia.
      + rewrite app_nil_r. do 3 f_equal; simpl; lia.
    - unfold in_u in Hv. rewrite app_nil_r. do 3 f_equal; simpl; lia. }
  cbn [mbind result_bind].
  assert (0 ≤ Z.abs value < 2 ^ Z.of_nat (Z.to_nat (w + 1))) as Hrange.
  { rewrite Z2Nat.id by lia. replace (w + 1) with (Z.succ w) by lia. rewrite Z.pow_succ_r by lia.
    destruct is_signed; unfold in_s, in_u in Hv; lia. }
  assert (len sign ≤ 1) as Hs by (unfold sign; destruct (is_signed && (value <? 0)); simpl; lia).
  destruct (digits_loop_ok base Hb (Z.to_nat (w + 1)) (Z.to_nat (w + 1)) (Z.abs value)
    (min_width - len sign) []) as (ds & room' & -> & Hlen & Hval & Hne & Hall);
    [lia|done|lia|lia|].
  cbn [mbind result_bind]. rewrite app_nil_r.
  exists ds, (Z.to_nat (min_width - len sign - len ds)). split_and!; [|done|done|lia|done].
  rewrite pad_loop_ok by lia. cbn [mbind result_bind]. by rewrite <- app_assoc.
Qed.

(** The least number is the one that cannot be printed. *)
Lemma itoa_least base w destination min_width padding :
  0 < w → itoa base true w destination (- 2 ^ (w - 1)) min_width padding = UB.
Proof.
  intros Hw. assert (0 < 2 ^ (w - 1)) by (apply Z.pow_pos_nonneg; lia).
  unfold itoa, adjust_signed. simpl. replace (- 2 ^ (w - 1) <? 0) with true by lia.
  by rewrite Z.eqb_refl.
Qed.

Example itoa_hex : itoa 16 false 32 [0x23] 0xBEEF 8 0x30 =
  Ret [0x23; 0x30; 0x30; 0x30; 0x30; 0x42; 0x45; 0x45; 0x46].
Proof. vm_compute. reflexivity. Qed.

Lemma itoa_prints_witness :
  let sign := [0x2D] in
  ∃ ds pads, itoa 10 true 32 [] (-1234) 6 0x20 = Ret ([] ++ sign ++ replicate pads 0x20 ++ ds) ∧
    of_digits 10 ds = Z.abs (-1234) ∧ ds ≠ [] ∧
    Z.of_nat pads = Z.max 0 (6 - len sign - len ds) ∧
    Forall (λ c, ∃ d, 0 ≤ d < 10 ∧ c = digit d) ds.
Proof.
  apply (itoa_prints 10 true 32 [] (-1234) 6 0x20); [lia|lia|unfold in_s; simpl; lia|lia|lia].
Defined.

(** * GUIDs *)

Record guid_t := mk_guid { values : list Z }.

(** A little endian integer of [n] bytes at [i] of the values. *)
Definition guid_field (id : guid_t) (i n : nat) : Z :=
  fold_right (λ b v, b + 256 * v) 0 (take n (drop i (values id))).

(** The fields of a GUID: where they are, and how many bytes they have; a dash is between two groups. *)
Definition print_field (id : guid_t) (s : list Z) (f : nat * nat * bool) : result (list Z) :=
  let '(i, n, dash) := f in
  itoa 16 false (8 * Z.of_nat n) (if dash then s ++ [0x2D] else s) (guid_field id i n)
    (2 * Z.of_nat n) 0x30.

(** [common/src/string.cpp:159-182] to_string *)
Definition guid_to_string (id : guid_t) : result (list Z) :=
  s ← fold_m (print_field id) [0x7B]
    [(0%nat, 4%nat, false); (4%nat, 2%nat, true); (6%nat, 2%nat, true); (8%nat, 1%nat, true);
     (9%nat, 1%nat, false); (10%nat, 1%nat, true); (11%nat, 1%nat, false); (12%nat, 1%nat, false);
     (13%nat, 1%nat, false); (14%nat, 1%nat, false); (15%nat, 1%nat, false)];
  Ret (s ++ [0x7D]).

Example guid_printed :
  guid_to_string (mk_guid [0x78; 0x56; 0x34; 0x12; 0xCD; 0xAB; 0x01; 0xEF; 1; 2; 3; 4; 5; 6; 7; 0xFF])
    = Ret (map (λ a, Z.of_N (Ascii.N_of_ascii a))
        (String.list_ascii_of_string "{12345678-ABCD-EF01-0102-0304050607FF}")).
Proof. vm_compute. reflexivity. Qed.

(** * UTF-8 *)

(** [common/src/string.cpp:57-81] unicode. What is appended for one character: of the three bytes that are made of a
    character above 0x7FF, [l] takes two. *)
Definition encode_char (c : Z) : list Z :=
  if c <=? 0x7F then [u8 c]
  else if c <=? 0x7FF then [u8 (Z.lor 0xC0 (Z.shiftr c 6)); u8 (Z.lor 0x80 (Z.land c 0x3F))]
  else take 2 [u8 (Z.lor 0xE0 (Z.shiftr c 12)); u8 (Z.lor 0x80 (Z.land (Z.shiftr c 6) 0x3F));
               u8 (Z.lor 0x80 (Z.land c 0x3F))].

(** [common/src/string.cpp:52-83] unicode. A zero-terminated string of wide characters. *)
Fixpoint unicode (i : list Z) : list Z :=
  match i with
  | [] => []
  | c :: i => if c =? 0 then [] else encode_char c ++ unicode i
  end.

(** [common/src/string.cpp:97-124] unicode. The first byte of a character: its bits, and how many bytes follow. *)
Definition lead_byte (ch : Z) : result (Z * nat) :=
  if ch <=? 0x7F then Ret (ch, 0%nat)
  else if ch <=? 0xBF then Throw invalid_argument
  else if ch <=? 0xDF then Ret (Z.land ch 0x1F, 1%nat)
  else if ch <=? 0xEF then Ret (Z.land ch 0x0F, 2%nat)
  else if ch <=? 0xF7 then Ret (Z.land ch 0x07, 3%nat)
  else Throw invalid_argument.

(** [common/src/string.cpp:125-134] unicode. The bytes that follow. *)
Fixpoint follow_bytes (todo : nat) (uni : Z) (s : list Z) : result (Z * list Z) :=
  match todo with
  | O => Ret (uni, s)
  | S todo =>
    match s with
    | [] => Throw invalid_argument
    | ch2 :: s =>
      if (ch2 <? 0x80) || (0xBF <? ch2) then Throw invalid_argument
      else follow_bytes todo (Z.shiftl uni 6 + Z.land ch2 0x3F) s
    end
  end.

(** [common/src/string.cpp:91-140] unicode. The loop over the characters; each takes a byte at least. *)
Fixpoint code_points (fuel : nat) (utf8 : list Z) : result (list Z) :=
  match fuel, utf8 with
  | _, [] => Ret []
  | O, _ => UB
  | S fuel, ch :: rest =>
    '(uni, todo) ← lead_byte ch;
    '(uni, rest) ← follow_bytes todo uni rest;
    if (0xD800 <=? uni) && (uni <=? 0xDFFF) then Throw invalid_argument
    else if 0x10FFFF <? uni then Throw invalid_argument
    else
      us ← code_points fuel rest;
      Ret (uni :: us)
  end.

(** [common/src/string.cpp:142-155] unicode. One code point in units of 16 bits. *)
Definition utf16_units (uni : Z) : list Z :=
  if uni <=? 0xFFFF then [u16 uni]
  else
    let uni := uni - 0x10000 in
    [u16 (Z.shiftr uni 10 + 0xD800); u16 (Z.land uni 0x3FF + 0xDC00)].

(** [common/src/string.cpp:85-157] unicode. From UTF-8 to UTF-16. *)
Definition unicode_w (utf8 : list Z) : result (list Z) :=
  us ← code_points (length utf8) utf8;
  Ret (concat (map utf16_units us)).

(** ** Any bytes at all are converted or refused *)

Lemma follow_bytes_shorter todo : ∀ uni s r,
  follow_bytes todo uni s = Ret r → (length r.2 ≤ length s)%nat.
Proof.
  induction todo as [|todo IH]; intros uni s r; simpl; [by intros [= <-]|].
  destruct s as [|c s]; [done|]. case_match; [done|]. intros Hr%IH. simpl. lia.
Qed.

Lemma follow_bytes_defined todo : ∀ uni s, follow_bytes todo uni s ≠ UB.
Proof.
  induction todo as [|todo IH]; intros uni s; [done|]. simpl. destruct s as [|c s]; [done|].
  by case_match.
Qed.

Lemma code_points_defined fuel : ∀ s, (length s ≤ fuel)%nat → code_points fuel s ≠ UB.
Proof.
  induction fuel as [|fuel IH]; intros [|c s] Hf; simpl in *; try done; [lia|].
  destruct (lead_byte c) as [[uni todo]| |] eqn:Hl; simpl; [|done|].
  - pose proof (follow_bytes_defined todo uni s).
    destruct (follow_bytes todo uni s) as [[uni2 rest]| |] eqn:Hr; simpl; [|done|done].
    apply follow_bytes_shorter in Hr. simpl in Hr. case_match; [done|]. case_match; [done|].
    pose proof (IH rest ltac:(lia)). by destruct (code_points fuel rest).
  - exfalso. revert Hl. unfold lead_byte. by repeat case_match.
Qed.

(** The conversion from UTF-8 ends on any bytes: it returns, or it throws [invalid_argument]. *)
Theorem unicode_w_total utf8 :
  (∃ w, unicode_w utf8 = Ret w) ∨ unicode_w utf8 = Throw invalid_argument.
Proof.
  assert (∀ todo uni s e, follow_bytes todo uni s = Throw e → e = invalid_argument) as Hf.
  { induction todo as [|todo IH]; intros uni s e; simpl; [done|]. destruct s as [|c s]; [congruence|].
    case_match; [congruence|apply IH]. }
  assert (∀ fuel s e, code_points fuel s = Throw e → e = invalid_argument) as Hc.
  { induction fuel as [|fuel IH]; intros [|c s] e; simpl; try done.
    destruct (lead_byte c) as [[uni todo]|e1|] eqn:Hl; simpl; [| |done].
    - destruct (follow_bytes todo uni s) as [[uni2 rest]|e1|] eqn:Hr; simpl; [| |done].
      + case_match; [congruence|]. case_match; [congruence|].
        destruct (code_points fuel rest) eqn:E; simpl; [done|intros [= <-]; eauto|done].
      + intros [= <-]. by eapply Hf.
    - revert Hl. unfold lead_byte. repeat case_match; congruence. }
  unfold unicode_w. pose proof (code_points_defined (length utf8) utf8 ltac:(lia)) as Hdef.
  destruct (code_points (length utf8) utf8) as [us|e|] eqn:E; simpl; [eauto| |done].
  right. by rewrite (Hc _ _ _ E).
Qed.

(** ** There and back *)

(** Facts about the bits of a character, by computation over all characters. *)
Fixpoint all_from (n : nat) (z : Z) (P : Z → bool) : bool :=
  match n with O => true | S n => if P z then all_from n (z + 1) P else false end.

Lemma all_from_spec n P : ∀ z, all_from n z P = true → ∀ c, z ≤ c < z + Z.of_nat n → P c = true.
Proof.
  induction n as [|n IH]; intros z; simpl; [lia|]. destruct (P z) eqn:Hz; [|done].
  intros Hall c Hc. destruct (decide (c = z)) as [->|]; [done|]. apply (IH (z + 1) Hall). lia.
Qed.

(** Decoding what is made of one character gives the character back, up to two bytes. *)
Definition decodes_back (c : Z) : bool :=
  match encode_char c with
  | b :: bs =>
    match lead_byte b with
    | Ret (uni, todo) =>
      (todo =? length bs)%nat &&
      match follow_bytes todo uni bs with Ret (u, []) => u =? c | _ => false end
    | _ => false
    end
  | [] => false
  end.

Lemma encode_char_decodes c : 0 ≤ c < 0x800 → decodes_back c = true.
Proof. apply (all_from_spec (Z.to_nat 0x800) decodes_back 0). vm_compute. reflexivity. Qed.

Lemma follow_bytes_app todo : ∀ uni s rest r,
  follow_bytes todo uni s = Ret (r, []) → follow_bytes todo uni (s ++ rest) = Ret (r, rest).
Proof.
  induction todo as [|todo IH]; intros uni s rest r; simpl; [by intros [= -> ->]|].
  destruct s as [|c s]; [done|]. simpl. case_match; [done|]. apply IH.
Qed.

Lemma code_points_char c rest fuel :
  0 ≤ c < 0x800 → (length (encode_char c ++ rest) ≤ S fuel)%nat →
  code_points (S fuel) (encode_char c ++ rest) = us ← code_points fuel rest; Ret (c :: us).
Proof.
  intros Hc _. pose proof (encode_char_decodes c Hc) as Hd. unfold decodes_back in Hd.
  destruct (encode_char c) as [|b bs]; [done|]. simpl.
  destruct (lead_byte b) as [[uni todo]| |]; [simpl|done..].
  apply andb_true_iff in Hd as [_ Hd].
  destruct (follow_bytes todo uni bs) as [[u [|? ?]]| |] eqn:Hf; try done.
  apply Z.eqb_eq in Hd as ->. rewrite (follow_bytes_app _ _ _ rest _ Hf). simpl.
  replace (55296 <=? c) with false by lia. replace (1114111 <? c) with false by lia. done.
Qed.

Lemma encode_char_length c : (1 ≤ length (encode_char c) ≤ 2)%nat.
Proof. unfold encode_char. repeat case_match; simpl; lia. Qed.

Lemma code_points_unicode s : ∀ fuel,
  Forall (λ c, 0 < c < 0x800) s → (length (unicode s) ≤ fuel)%nat →
  code_points fuel (unicode s) = Ret s.
Proof.
  induction s as [|c s IH]; intros fuel Hs Hf; [by destruct fuel|].
  apply Forall_cons in Hs as [Hc Hs]. simpl in *. replace (c =? 0) with false in * by lia.
  pose proof (encode_char_length c) as Hl. rewrite length_app in Hf.
  destruct fuel as [|fuel]; [lia|].
  rewrite code_points_char by (rewrite ?length_app; lia). rewrite IH by (done || lia). done.
Qed.

(** Text of the characters below 0x800 survives the conversion to UTF-8 and back. *)
Theorem unicode_roundtrip s :
  Forall (λ c, 0 < c < 0x800) s → unicode_w (unicode s) = Ret s.
Proof.
  intros Hs. unfold unicode_w. rewrite code_points_unicode by done. simpl. f_equal.
  induction Hs as [|c s Hc Hs IH]; [done|]. simpl. rewrite IH. unfold utf16_units.
  replace (c <=? 65535) with true by lia. simpl. f_equal. apply (uw_small 16 ltac:(lia)).
  unfold in_u. lia.
Qed.

(** The first byte of a character does not continue one. *)
Definition starts_character (c : Z) : bool :=
  match encode_char c with b :: _ => (b <? 0x80) || (0xBF <? b) | [] => false end.

Lemma encode_char_starts c : 0 ≤ c < 0x10000 → starts_character c = true.
Proof. apply (all_from_spec (Z.to_nat 0x10000) starts_character 0). vm_compute. reflexivity. Qed.

(** What is made of a character of three bytes announces two more, and has one. *)
Definition announces_more (c : Z) : bool :=
  match encode_char c with
  | [b1; b2] =>
    match lead_byte b1 with Ret (_, 2%nat) => negb ((b2 <? 0x80) || (0xBF <? b2)) | _ => false end
  | _ => false
  end.

Lemma encode_char_announces c : 0x800 ≤ c < 0x10000 → announces_more c = true.
Proof.
  intros Hc. apply (all_from_spec (Z.to_nat 0xF800) announces_more 0x800); [|lia].
  vm_compute. reflexivity.
Qed.

Lemma unicode_starts s :
  Forall (λ c, 0 ≤ c < 0x10000) s →
  match unicode s with b :: _ => (b <? 0x80) || (0xBF <? b) = true | [] => True end.
Proof.
  destruct s as [|c s]; [done|]. intros [Hc _]%Forall_cons. cbn [unicode]. destruct (c =? 0); [done|].
  pose proof (encode_char_starts c Hc) as Hst. unfold starts_character in Hst.
  by destruct (encode_char c).
Qed.

(** A character from 0x800 on is written as the first two of its three bytes: what comes out is
    not UTF-8, and the conversion back refuses it. *)
Theorem unicode_truncates c s :
  0x800 ≤ c < 0x10000 → Forall (λ c, 0 ≤ c < 0x10000) s →
  unicode_w (unicode (c :: s)) = Throw invalid_argument.
Proof.
  intros Hc Hs%unicode_starts. pose proof (encode_char_announces c Hc) as Ha.
  unfold announces_more in Ha. unfold unicode_w. cbn [unicode]. replace (c =? 0) with false by lia.
  destruct (encode_char c) as [|b1 [|b2 [|]]]; try done.
  destruct (lead_byte b1) as [[uni [|[|[|?]]]]| |] eqn:Hl; try done.
  apply negb_true_iff in Ha. cbn [app length code_points]. rewrite Hl. cbn [mbind result_bind].
  cbn [follow_bytes]. rewrite Ha. destruct (unicode s) as [|b r]; [done|]. by rewrite Hs.
Qed.

Lemma unicode_roundtrip_witness : unicode_w (unicode [0x48; 0x7FF; 0x410]) = Ret [0x48; 0x7FF; 0x410].
Proof. apply unicode_roundtrip. repeat constructor; lia. Defined.

Lemma unicode_truncates_witness : unicode_w (unicode [0x20AC; 0x48]) = Throw invalid_argument.
Proof. apply unicode_truncates; [lia|]. repeat constructor; lia. Defined.
