(* ===== verification/Logger.v ===== *)
(** The log (logger/log.h, logger/src/log.cpp, logger/src/multithreaded_logger.cpp).

    A message is made of a beginning, attributes and a commit, which are three calls to the logger: what
    is written in between is kept in a buffer per thread.  The steps of threads are interleaved; what
    the writer gets is remembered with the thread that wrote it. *)

From S2P Require Import Prelude Strings.
Local Open Scope Z_scope.

(** Characters are numbers, texts are lists of them. *)
Fixpoint of_string (s : string) : list Z :=
  match s with
  | EmptyString => []
  | String c s => Z.of_N (Ascii.N_of_ascii c) :: of_string s
  end.

(** A C string ends at its first zero. *)
Fixpoint c_str (text : list Z) : list Z :=
  match text with
  | [] => []
  | c :: text => if c =? 0 then [] else c :: c_str text
  end.

(** * Values as text *)

(** [logger/log.h:82-96] to_string. The types that have a text; a number has a width. *)
Inductive value :=
  | v_number (is_signed : bool) (w : Z) (n : Z)
  | v_bool (b : bool)
  | v_pointer (p : Z)
  | v_string (s : list Z)
  | v_c_string (s : option (list Z)).

(** [logger/src/log.cpp:33-53] to_string. *)
Definition to_string (buffer : list Z) (v : value) : result (list Z) :=
  match v with
  | v_number is_signed w n => itoa 10 is_signed w buffer n 0 0x30
  | v_bool b => Ret (buffer ++ of_string (if b then "true" else "false"))
  | v_pointer p => itoa 16 false 64 (buffer ++ of_string "0x") p 16 0x30
  | v_string s => Ret (buffer ++ s)
  | v_c_string s => Ret (buffer ++ c_str (default (of_string "<null>") s))
  end.

(** What can be printed: numbers that fit, but for the least one of a signed type. *)
Definition value_ok (v : value) : Prop :=
  match v with
  | v_number is_signed w n =>
    8 ≤ w ≤ 64 ∧ (if is_signed then in_s w n else in_u w n) ∧ (is_signed = true → n ≠ - 2 ^ (w - 1))
  | v_pointer p => in_u 64 p
  | _ => True
  end.

(** What is printed does not depend on what it is printed behind. *)
Lemma itoa_appends base is_signed w d v mw p :
  itoa base is_signed w d v mw p = (t ← itoa base is_signed w [] v mw p; Ret (d ++ t)).
Proof.
  unfold itoa, adjust_signed. destruct (is_signed && (v <? 0)).
  - destruct (v =? - 2 ^ (w - 1)); simpl; [done|].
    destruct (digits_loop _ _ _ _ _ _) as [[[b m] r]| |]; simpl; [|done..].
    destruct (pad_loop _ _ _ _); simpl; [|done..]. by rewrite <- app_assoc.
  - simpl. destruct (digits_loop _ _ _ _ _ _) as [[[b m] r]| |]; simpl; [|done..].
    by destruct (pad_loop _ _ _ _).
Qed.

Lemma itoa_text base (is_signed : bool) w v mw p :
  2 ≤ base ≤ 16 → 8 ≤ w ≤ 64 → (if is_signed then in_s w v else in_u w v) →
  (is_signed = true → v ≠ - 2 ^ (w - 1)) → 0 ≤ mw ≤ w →
  ∃ text, ∀ d, itoa base is_signed w d v mw p = Ret (d ++ text).
Proof.
  intros Hb Hw Hv Hl Hm. destruct (itoa_prints base is_signed w [] v mw p Hb Hw Hv Hl Hm) as (ds & pads & E & _).
  eexists. intros d. rewrite itoa_appends, E. simpl. reflexivity.
Qed.

(** Every value that can be printed has a text. *)
Definition text_of (v : value) : list Z := match to_string [] v with Ret t => t | _ => [] end.

Lemma to_string_appends v buffer : value_ok v → to_string buffer v = Ret (buffer ++ text_of v).
Proof.
  unfold text_of. destruct v as [is_signed w n|b|p|s|s]; simpl; try done.
  - intros (Hw & Hn & Hl). destruct (itoa_text 10 is_signed w n 0 0x30) as [text Ht]; [lia..|done|done|lia|].
    by rewrite !Ht.
  - intros Hp. destruct (itoa_text 16 false 64 p 16 0x30) as [text Ht]; [lia..|done|done|lia|].
    by rewrite !Ht, <- app_assoc.
Qed.

(** * Messages *)

(** [common/time.h:27-36] datetime. *)
Record datetime := mk_datetime {
  year : Z; month : Z; day : Z; hour : Z; minute : Z; second : Z; millisecond : Z;
}.

(** The widths of the fields. *)
Definition datetime_ok (dt : datetime) : Prop :=
  in_u 8 (year dt) ∧ in_u 4 (month dt) ∧ in_u 5 (day dt) ∧ in_u 5 (hour dt) ∧ in_u 6 (minute dt) ∧
  in_u 6 (second dt) ∧ in_u 10 (millisecond dt).

(** [logger/src/multithreaded_logger.cpp:34-45] format_datetime. *)
Definition format_datetime (buffer : list Z) (dt : datetime) : result (list Z) :=
  let packed_date := u32 (((year dt + 1900) * 100 + month dt) * 100 + day dt) in
  let packed_time := u32 ((hour dt * 100 + minute dt) * 100 + second dt) in
  buffer ← itoa 10 false 32 buffer packed_date 8 0x30;
  buffer ← itoa 10 false 32 (buffer ++ of_string "T") packed_time 6 0x30;
  buffer ← itoa 10 true 32 (buffer ++ of_string ".") (millisecond dt mod 1000) 3 0x30;
  Ret (buffer ++ of_string "Z").

(** [logger/log.h:38-38] level. *)
Inductive level := severe | info.

(** [logger/log.h:40-44] attribute. *)
Record attribute := mk_attribute { name : list Z; value_ : value }.

(** [logger/src/multithreaded_logger.cpp:67-71] multithreaded_logger::begin. What it appends; the letter is
    put into the middle of three spaces. *)
Definition begin_text (dt : datetime) (message : list Z) (l : level) : result (list Z) :=
  b ← format_datetime [] dt;
  let letter := match l with severe => of_string "S" | info => of_string "I" end in
  Ret (b ++ of_string " " ++ letter ++ of_string " " ++ c_str message ++ [0x0A]).

(** [logger/src/multithreaded_logger.cpp:89-94] multithreaded_logger::add_attribute. What it appends. *)
Definition attribute_text (a : attribute) : result (list Z) :=
  v ← to_string [] (value_ a);
  Ret ([0x09] ++ c_str (name a) ++ of_string ": " ++ v ++ [0x0A]).

(** * The logger *)

(** [logger/multithreaded_logger.h:53-57] multithreaded_logger. The buffers are in a list; the local value of a
    thread points to one of them. [written] is what the writer got, with the thread it got it from. *)
Record logger := mk_logger {
  buffer_container : list (list Z);
  buffers : gmap nat nat;
  written : list (nat * list Z);
}.

Definition new_logger : logger := mk_logger [] ∅ [].

(** [logger/src/multithreaded_logger.cpp:123-135] multithreaded_logger::get_buffer. *)
Definition get_buffer (t : nat) (s : logger) : nat * logger :=
  match buffers s !! t with
  | Some p => (p, s)
  | None =>
    let p := length (buffer_container s) in
    (p, mk_logger (buffer_container s ++ [[]]) (<[t := p]> (buffers s)) (written s))
  end.

Definition set_buffer (p : nat) (b : list Z) (s : logger) : logger :=
  mk_logger (<[p := b]> (buffer_container s)) (buffers s) (written s).
Definition buffer_at (p : nat) (s : logger) : result (list Z) :=
  match buffer_container s !! p with Some b => Ret b | None => UB end.
Definition write_log (t : nat) (text : list Z) (s : logger) : logger :=
  mk_logger (buffer_container s) (buffers s) (written s ++ [(t, c_str text)]).

(** Memory may be over when something is appended: [room] characters are there still, if it is bounded.
    What was appended stays, and the writer is told. A buffer that could not be made is an empty one. *)
Definition append (t p : nat) (room : option nat) (text failure : list Z) (s : logger) : result logger :=
  b ← buffer_at p s;
  match room with
  | Some n =>
    if (n <? length text)%nat then Ret (write_log t failure (set_buffer p (b ++ take n text) s))
    else Ret (set_buffer p (b ++ text) s)
  | None => Ret (set_buffer p (b ++ text) s)
  end.

Definition failure_in (where_ : string) : list Z :=
  of_string ("Memory allocation failure in logger (" ++ where_ ++ ")!").

(** [logger/src/multithreaded_logger.cpp:62-80] multithreaded_logger::begin. *)
Definition begin (t : nat) (room : option nat) (dt : datetime) (message : list Z) (l : level) (s : logger) :
    result logger :=
  let '(p, s) := get_buffer t s in
  text ← begin_text dt message l;
  append t p room text (failure_in "begin") s.

(** [logger/src/multithreaded_logger.cpp:82-103] multithreaded_logger::add_attribute. An attribute without a
    message is left out. *)
Definition add_attribute (t : nat) (room : option nat) (a : attribute) (s : logger) : result logger :=
  let '(p, s) := get_buffer t s in
  b ← buffer_at p s;
  match b with
  | [] => Ret s
  | _ => text ← attribute_text a; append t p room text (failure_in "add_attribute") s
  end.

(** [logger/src/multithreaded_logger.cpp:105-121] multithreaded_logger::commit. *)
Definition commit_log (t : nat) (room : option nat) (s : logger) : result logger :=
  let '(p, s) := get_buffer t s in
  match room with
  | Some O => Ret (write_log t (failure_in "commit") s)
  | _ =>
    b ← buffer_at p s;
    Ret (set_buffer p [] (write_log t (b ++ [0]) s))
  end.

(** What threads do, a call at a time. *)
Inductive call :=
  | c_begin (dt : datetime) (message : list Z) (l : level)
  | c_attribute (a : attribute)
  | c_commit.

(** [logger/log.h:73-78] logger. *)
Definition do_call (s : logger) (x : nat * option nat * call) : result logger :=
  let '(t, room, c) := x in
  match c with
  | c_begin dt message l => begin t room dt message l s
  | c_attribute a => add_attribute t room a s
  | c_commit => commit_log t room s
  end.

Definition run (calls : list (nat * option nat * call)) (s : logger) : result logger := fold_m do_call s calls.

Definition of_thread (t : nat) (calls : list (nat * option nat * call)) : list (nat * option nat * call) :=
  filter (λ x, x.1.1 = t) calls.

(** What a thread wrote. *)
Definition written_by (t : nat) (s : logger) : list (list Z) :=
  map snd (filter (λ x, x.1 = t) (written s)).

(** ** One thread by itself *)

(** What is behind a call when there is no other thread: the buffer, and the texts that are written. *)
Definition append_alone (room : option nat) (text failure b : list Z) : list Z * list (list Z) :=
  match room with
  | Some n => if (n <? length text)%nat then (b ++ take n text, [c_str failure]) else (b ++ text, [])
  | None => (b ++ text, [])
  end.

Definition call_alone (room : option nat) (c : call) (b : list Z) : result (list Z * list (list Z)) :=
  match c with
  | c_begin dt message l =>
    text ← begin_text dt message l; Ret (append_alone room text (failure_in "begin") b)
  | c_attribute a =>
    match b with
    | [] => Ret ([], [])
    | _ => text ← attribute_text a; Ret (append_alone room text (failure_in "add_attribute") b)
    end
  | c_commit =>
    match room with
    | Some O => Ret (b, [c_str (failure_in "commit")])
    | _ => Ret ([], [c_str (b ++ [0])])
    end
  end.

Definition alone_step (x : list Z * list (list Z)) (c : nat * option nat * call) : result (list Z * list (list Z)) :=
  '(b, ws) ← call_alone c.1.2 c.2 x.1;
  Ret (b, x.2 ++ ws).

(** ** Many threads *)

Record logger_ok (s : logger) : Prop := {
  lo_valid t p : buffers s !! t = Some p → (p < length (buffer_container s))%nat;
  lo_apart t u p : buffers s !! t = Some p → buffers s !! u = Some p → t = u;
}.

Definition buffer_of (t : nat) (s : logger) : list Z :=
  default [] (p ← buffers s !! t; buffer_container s !! p).

Lemma get_buffer_ok t s : logger_ok s → let '(p, s') := get_buffer t s in
  logger_ok s' ∧ buffers s' !! t = Some p ∧ buffer_container s' !! p = Some (buffer_of t s) ∧
  (∀ u, buffer_of u s' = buffer_of u s) ∧ written s' = written s.
Proof.
  intros Hs. unfold get_buffer. destruct (buffers s !! t) as [p|] eqn:Ep.
  - split; [done|]. split; [done|]. pose proof (lo_valid _ Hs _ _ Ep) as Hp.
    apply lookup_lt_is_Some in Hp as [b Hb]. split; [|done]. unfold buffer_of. by rewrite Ep; simpl; rewrite Hb.
  - set (p := length (buffer_container s)). simpl. split; [split; simpl|].
    + intros u q [[<- <-]|[_ Hq]]%lookup_insert_Some; rewrite length_app; simpl; [lia|].
      pose proof (lo_valid _ Hs _ _ Hq). lia.
    + intros u v q [[<- <-]|[_ Hq]]%lookup_insert_Some [[<- Heq]|[_ Hq']]%lookup_insert_Some; try done.
      * pose proof (lo_valid _ Hs _ _ Hq'). lia.
      * pose proof (lo_valid _ Hs _ _ Hq). lia.
      * by apply (lo_apart _ Hs u v q).
    + split; [by rewrite lookup_insert_eq|]. unfold buffer_of at 1. rewrite Ep. simpl.
      split; [by apply list_lookup_middle|]. split; [|done]. intros u. unfold buffer_of. simpl.
      destruct (decide (u = t)) as [->|Hne].
      * rewrite lookup_insert_eq, Ep. simpl. by rewrite list_lookup_middle.
      * rewrite lookup_insert_ne by done. destruct (buffers s !! u) as [q|] eqn:Eq; simpl; [|done].
        rewrite lookup_app_l; [done|]. by apply (lo_valid _ Hs u).
Qed.

(** What a call leaves behind, of the thread that made it and of the others. *)
Definition called (t : nat) (b : list Z) (ws : list (list Z)) (s s' : logger) : Prop :=
  logger_ok s' ∧ buffer_of t s' = b ∧ (∀ u, u ≠ t → buffer_of u s' = buffer_of u s) ∧
  written s' = written s ++ map (pair t) ws.

Lemma set_buffer_ok t p b s : logger_ok s → buffers s !! t = Some p → called t b [] s (set_buffer p b s).
Proof.
  intros Hs Hp. pose proof (lo_valid _ Hs _ _ Hp) as Hlt. split_and!.
  - split; simpl; [intros u q Hq; rewrite length_insert; by apply (lo_valid _ Hs u)|apply (lo_apart _ Hs)].
  - unfold buffer_of. simpl. rewrite Hp. simpl. by rewrite list_lookup_insert_eq.
  - intros u Hne. unfold buffer_of. simpl. destruct (buffers s !! u) as [q|] eqn:Eq; simpl; [|done].
    rewrite list_lookup_insert_ne; [done|]. intros ->. by destruct Hne; apply (lo_apart _ Hs u t q).
  - simpl. by rewrite app_nil_r.
Qed.

Lemma write_log_called t b ws text s s' : called t b ws s s' → called t b (ws ++ [c_str text]) s (write_log t text s').
Proof.
  intros (H1 & H2 & H3 & H4). split_and!; [by destruct H1|done|done|]. simpl. by rewrite H4, map_app, app_assoc.
Qed.

Lemma append_ok t p room text failure s : logger_ok s → buffers s !! t = Some p →
  let '(b, ws) := append_alone room text failure (buffer_of t s) in
  ∃ s', append t p room text failure s = Ret s' ∧ called t b ws s s'.
Proof.
  intros Hs Hp. unfold append, buffer_at. pose proof (lo_valid _ Hs _ _ Hp) as Hlt.
  apply lookup_lt_is_Some in Hlt as [b Hb]. rewrite Hb. simpl.
  assert (buffer_of t s = b) as -> by (unfold buffer_of; rewrite Hp; simpl; by rewrite Hb).
  unfold append_alone. destruct room as [n|]; [destruct (n <? length text)%nat|]; eexists; (split; [done|]).
  - apply (write_log_called t _ []). by apply set_buffer_ok.
  - by apply set_buffer_ok.
  - by apply set_buffer_ok.
Qed.

Lemma called_after t b ws s s1 s' : (∀ u, buffer_of u s1 = buffer_of u s) → written s1 = written s →
  called t b ws s1 s' → called t b ws s s'.
Proof.
  intros Hb Hw (H1 & H2 & H3 & H4). split_and!; [done|done| |by rewrite H4, Hw].
  intros u Hu. by rewrite H3.
Qed.

Lemma do_call_alone s t room c : logger_ok s →
  match call_alone room c (buffer_of t s) with
  | Ret (b, ws) => ∃ s', do_call s (t, room, c) = Ret s' ∧ called t b ws s s'
  | Throw e => do_call s (t, room, c) = Throw e
  | UB => do_call s (t, room, c) = UB
  end.
Proof.
  intros Hs. pose proof (get_buffer_ok t s Hs) as Hg.
  destruct c as [dt message l|a|]; simpl; unfold begin, add_attribute, commit_log;
    destruct (get_buffer t s) as [p s1]; destruct Hg as (Hs1 & Hp & Hb & Hsame & Hw).
  - destruct (begin_text dt message l) as [text| |]; simpl; [|done..].
    pose proof (append_ok t p room text (failure_in "begin") s1 Hs1 Hp) as Ha. rewrite (Hsame t) in Ha.
    destruct (append_alone _ _ _ _) as [b ws]. destruct Ha as (s' & ? & ?). exists s'. split; [done|].
    by apply (called_after t b ws s s1).
  - unfold buffer_at. rewrite Hb. simpl. destruct (buffer_of t s) as [|x b0] eqn:Eb.
    { exists s1. split; [done|]. split_and!; [done|by rewrite Hsame|done|by rewrite app_nil_r]. }
    rewrite <- Eb. destruct (attribute_text a) as [text| |]; simpl; [|done..].
    pose proof (append_ok t p room text (failure_in "add_attribute") s1 Hs1 Hp) as Ha. rewrite (Hsame t) in Ha.
    destruct (append_alone _ _ _ _) as [b ws]. destruct Ha as (s' & ? & ?). exists s'. split; [done|].
    by apply (called_after t b ws s s1).
  - assert (called t [] [c_str (buffer_of t s ++ [0])] s (set_buffer p [] (write_log t (buffer_of t s ++ [0]) s1))) as Hc.
    { apply (called_after t _ _ s s1 _ Hsame Hw).
      assert (called t [] [] s1 (set_buffer p [] s1)) as H0 by by apply set_buffer_ok.
      exact (write_log_called t [] [] (buffer_of t s ++ [0]) s1 _ H0). }
    unfold buffer_at. rewrite Hb. destruct room as [[|n]|]; simpl.
    + eexists. split; [done|]. apply (called_after t _ _ s s1 _ Hsame Hw). apply (write_log_called t _ []).
      split_and!; [done|done|done|by rewrite app_nil_r].
    + by eexists.
    + by eexists.
Qed.

Lemma alone_step_eq b ws t room c :
  alone_step (b, ws) (t, room, c) = ('(b', ws') ← call_alone room c b; Ret (b', ws ++ ws')).
Proof. done. Qed.

Lemma written_by_app t s s' u ws : written s' = written s ++ map (pair u) ws →
  written_by t s' = written_by t s ++ (if decide (u = t) then ws else []).
Proof.
  intros Hw. unfold written_by. rewrite Hw, filter_app, map_app. f_equal. clear Hw.
  destruct (decide (u = t)) as [->|Hne]; (induction ws as [|w ws IH]; [done|]); simpl.
  - rewrite filter_cons_True by done. simpl. by f_equal.
  - by rewrite filter_cons_False by done.
Qed.

Lemma run_alone calls : ∀ s s', logger_ok s → run calls s = Ret s' → logger_ok s' ∧
  ∀ t, fold_m alone_step (buffer_of t s, written_by t s) (of_thread t calls) = Ret (buffer_of t s', written_by t s').
Proof.
  unfold run. induction calls as [|[[u room] c] calls IH]; intros s s' Hs; cbn [fold_m]; [by intros [= <-]|].
  pose proof (do_call_alone s u room c Hs) as Hc. destruct (call_alone room c (buffer_of u s)) as [[b ws]|e|] eqn:Ea.
  - destruct Hc as (s1 & -> & Hs1 & Hb & Ho & Hw). simpl. intros Hr.
    destruct (IH s1 s' Hs1 Hr) as [Hs' Hall]. split; [done|]. intros t. unfold of_thread. specialize (Hall t).
    rewrite (written_by_app t s s1 u ws Hw) in Hall. destruct (decide (u = t)) as [->|Hne].
    + rewrite filter_cons_True by done. cbn [fold_m]. rewrite alone_step_eq, Ea. simpl.
      by rewrite <- Hall, Hb.
    + rewrite filter_cons_False by done. by rewrite app_nil_r, (Ho t) in Hall by done.
  - by rewrite Hc.
  - by rewrite Hc.
Qed.

Lemma new_logger_ok : logger_ok new_logger.
Proof. split; done. Qed.

(** Threads do not see each other in the log, whatever the order of their calls and wherever memory is
    over: the buffer of a thread and the texts it writes are those it would make alone. *)
Theorem logger_threads_apart calls s t : run calls new_logger = Ret s →
  fold_m alone_step ([], []) (of_thread t calls) = Ret (buffer_of t s, written_by t s).
Proof. intros Hr. destruct (run_alone calls new_logger s new_logger_ok Hr) as [_ H]. apply H. Qed.

(** ** Whole messages *)

(** [logger/log.h:113-138] e. A message with its attributes. *)
Record event := mk_event {
  at_time : datetime;
  message : list Z;
  severity : level;
  attributes : list attribute;
}.

(** The calls of the constructor, of the operators and of the destructor. *)
Definition event_calls (e : event) : list call :=
  c_begin (at_time e) (message e) (severity e) :: map c_attribute (attributes e) ++ [c_commit].

(** [logger/src/multithreaded_logger.cpp:55-57] multithreaded_logger::multithreaded_logger. *)
Definition log_started (dt : datetime) : event :=
  mk_event dt (of_string "---------- Application logging started.") info [].

(** [logger/src/multithreaded_logger.cpp:59-60] multithreaded_logger::~multithreaded_logger. *)
Definition log_complete (dt : datetime) : event :=
  mk_event dt (of_string "---------- Application logging complete. Bye!") info [].

Definition event_text (e : event) : result (list Z) :=
  b ← begin_text (at_time e) (message e) (severity e);
  fold_m (λ b a, t ← attribute_text a; Ret (b ++ t)) b (attributes e).

Definition event_ok (e : event) : Prop :=
  datetime_ok (at_time e) ∧ Forall (λ a, value_ok (value_ a)) (attributes e).

Lemma begin_text_returns dt m l : datetime_ok dt → ∃ x text, begin_text dt m l = Ret (x :: text).
Proof.
  intros (Hy & Hm & Hd & Hh & Hmi & Hs & Hms). unfold in_u in *. unfold begin_text, format_datetime.
  rewrite !(uw_small 32 ltac:(lia)) by (unfold in_u; lia).
  destruct (itoa_prints 10 false 32 [] (((year dt + 1900) * 100 + month dt) * 100 + day dt) 8 0x30)
    as (ds & pads & -> & _ & Hds & _); [lia|lia|unfold in_u; lia|done|lia|]. simpl.
  edestruct (itoa_text 10 false 32 ((hour dt * 100 + minute dt) * 100 + second dt) 6 0x30) as [t2 ->];
    [lia|lia|unfold in_u; lia|done|lia|]. simpl.
  pose proof (Z.mod_pos_bound (millisecond dt) 1000 ltac:(lia)).
  edestruct (itoa_text 10 true 32 (millisecond dt mod 1000) 3 0x30) as [t3 ->];
    [lia|lia|unfold in_s; lia|lia|lia|]. simpl.
  destruct pads; simpl; [destruct ds; [done|]|]; by eexists _, _.
Qed.

Lemma attribute_text_returns a : value_ok (value_ a) → ∃ text, attribute_text a = Ret text.
Proof. intros Hv. unfold attribute_text. rewrite to_string_appends by done. by eexists. Qed.

Lemma attributes_alone t l : ∀ b ws, Forall (λ a, value_ok (value_ a)) l → b ≠ [] →
  ∃ b', fold_m (λ b a, t ← attribute_text a; Ret (b ++ t)) b l = Ret b' ∧
    fold_m alone_step (b, ws) (map (λ c, (t, None, c)) (map c_attribute l)) = Ret (b', ws).
Proof.
  induction l as [|a l IH]; intros b ws Hl Hb; [by exists b|]. apply Forall_cons in Hl as [Ha Hl].
  destruct (attribute_text_returns a Ha) as [text Ht]. cbn [fold_m map]. rewrite alone_step_eq. simpl.
  destruct b as [|x b]; [done|]. rewrite Ht. simpl. rewrite app_nil_r. by apply (IH (x :: b ++ text) ws).
Qed.

Lemma event_alone t e ws : event_ok e →
  ∃ text, event_text e = Ret text ∧
    fold_m alone_step ([], ws) (map (λ c, (t, None, c)) (event_calls e)) = Ret ([], ws ++ [c_str text]).
Proof.
  intros [Hd Ha]. unfold event_text, event_calls.
  destruct (begin_text_returns (at_time e) (message e) (severity e) Hd) as (x & b & Hb). cbn [fold_m map].
  rewrite alone_step_eq. simpl. rewrite Hb. simpl. rewrite map_app, fold_m_app, app_nil_r.
  destruct (attributes_alone t (attributes e) (x :: b) ws Ha) as (b' & H1 & ->); [done|]. exists b'. split; [done|].
  cbn. do 3 f_equal. f_equal. clear. induction b' as [|c b IH]; [done|]. simpl. case_match; [done|by f_equal].
Qed.

Definition event_written (e : event) : list Z := match event_text e with Ret text => c_str text | _ => [] end.

Lemma events_alone t es : ∀ ws, Forall event_ok es →
  fold_m alone_step ([], ws) (map (λ c, (t, None, c)) (concat (map event_calls es))) =
    Ret ([], ws ++ map event_written es).
Proof.
  induction es as [|e es IH]; intros ws Hes; [by rewrite app_nil_r|]. apply Forall_cons in Hes as [He Hes].
  destruct (event_alone t e ws He) as (text & Ht & Hf). cbn [map concat]. rewrite map_app, fold_m_app, Hf.
  cbn [mbind result_bind]. rewrite IH by done. unfold event_written at 2. by rewrite Ht, <- app_assoc.
Qed.

Lemma run_progress calls : ∀ s, logger_ok s →
  (∀ t, returns (fold_m alone_step (buffer_of t s, written_by t s) (of_thread t calls))) → returns (run calls s).
Proof.
  unfold run. induction calls as [|[[u room] c] calls IH]; intros s Hs Hall; [done|]. cbn [fold_m].
  pose proof (do_call_alone s u room c Hs) as Hc.
  assert (∃ b ws, call_alone room c (buffer_of u s) = Ret (b, ws)) as (b & ws & Ea).
  { specialize (Hall u). unfold of_thread in Hall. rewrite filter_cons_True in Hall by done. cbn [fold_m] in Hall.
    rewrite alone_step_eq in Hall. destruct (call_alone room c (buffer_of u s)) as [[b ws]| |]; [eauto|done..]. }
  rewrite Ea in Hc. destruct Hc as (s1 & -> & Hs1 & Hb & Ho & Hw). simpl. apply IH; [done|]. intros t.
  specialize (Hall t). unfold of_thread in *. rewrite (written_by_app t s s1 u ws Hw).
  destruct (decide (u = t)) as [->|Hne].
  - rewrite filter_cons_True in Hall by done. cbn [fold_m] in Hall. rewrite alone_step_eq, Ea in Hall. simpl in Hall.
    by rewrite Hb.
  - rewrite filter_cons_False in Hall by done. by rewrite app_nil_r, (Ho t) by done.
Qed.

(** Every message reaches the writer once, with its attributes, as the text up to its first zero, and those
    of a thread in their order, however the calls of the threads that make them are interleaved. *)
Theorem messages_whole (events : nat → list event) calls :
  (∀ t, of_thread t calls = map (λ c, (t, None, c)) (concat (map event_calls (events t)))) →
  (∀ t, Forall event_ok (events t)) →
  ∃ s, run calls new_logger = Ret s ∧ ∀ t, written_by t s = map event_written (events t).
Proof.
  intros Hcalls Hok. assert (returns (run calls new_logger)) as Hr.
  { apply run_progress; [apply new_logger_ok|]. intros t. rewrite Hcalls.
    change (buffer_of t new_logger, written_by t new_logger) with ([] : list Z, [] : list (list Z)).
    by rewrite events_alone. }
  destruct (run calls new_logger) as [s| |] eqn:E; [|done..]. exists s. split; [done|]. intros t.
  destruct (run_alone calls new_logger s new_logger_ok E) as [_ Hall]. specialize (Hall t). rewrite Hcalls in Hall.
  change (buffer_of t new_logger, written_by t new_logger) with ([] : list Z, [] : list (list Z)) in Hall.
  rewrite events_alone in Hall by done. apply Ret_inj in Hall. by injection Hall as _ <-.
Qed.

(** ** Two threads *)

Definition demo_time : datetime := mk_datetime 123 7 4 9 5 0 42.
Definition demo_first : event :=
  mk_event demo_time (of_string "one") info [mk_attribute (of_string "n") (v_number true 32 (-5))].
Definition demo_second : event :=
  mk_event demo_time (of_string "two") severe [mk_attribute (of_string "p") (v_pointer 0xBEEF)].
Definition demo_events (t : nat) : list event :=
  match t with 0%nat => [log_started demo_time; demo_first] | 1%nat => [demo_second; demo_first] | _ => [] end.

Definition demo_calls : list (nat * option nat * call) :=
  let c (t : nat) (e : event) (i : nat) := (t, None, default c_commit (event_calls e !! i)) in
  let l := log_started demo_time in
  [c 0 l 0; c 0 l 1; c 1 demo_second 0; c 0 demo_first 0; c 0 demo_first 1; c 1 demo_second 1; c 1 demo_second 2;
   c 1 demo_first 0; c 0 demo_first 2; c 1 demo_first 1; c 1 demo_first 2]%nat.

Definition demo_log : logger := match run demo_calls new_logger with Ret s => s | _ => new_logger end.

Lemma demo_log_texts :
  written demo_log = [
    (0%nat, of_string "20230704T090500.042Z I ---------- Application logging started." ++ [0x0A]);
    (1%nat, of_string "20230704T090500.042Z S two" ++ [0x0A] ++ [9] ++ of_string "p: 0x000000000000BEEF" ++ [0x0A]);
    (0%nat, of_string "20230704T090500.042Z I one" ++ [0x0A] ++ [9] ++ of_string "n: -5" ++ [0x0A]);
    (1%nat, of_string "20230704T090500.042Z I one" ++ [0x0A] ++ [9] ++ of_string "n: -5" ++ [0x0A])].
Proof. vm_compute. reflexivity. Qed.

Lemma messages_whole_witness :
  ∃ s, run demo_calls new_logger = Ret s ∧ ∀ t, written_by t s = map event_written (demo_events t).
Proof.
  apply (messages_whole demo_events demo_calls).
  - intros [|[|t]]; [reflexivity|reflexivity|]. unfold of_thread, demo_calls. by repeat rewrite filter_cons_False by done.
  - intros [|[|t]]; repeat constructor; simpl; try lia.
Defined.

Lemma logger_threads_apart_witness :
  fold_m alone_step ([], []) (of_thread 1 demo_calls) = Ret (buffer_of 1 demo_log, written_by 1 demo_log).
Proof. apply logger_threads_apart. vm_compute. reflexivity. Defined.
