(* ===== verification/Hierarchy.v ===== *)
(** The order of a call tree (frontend/hierarchy.h, frontend/primitives.h,
    frontend/statistic_models.h, frontend/aggregators.h).

    Nodes of a table know the node they are called from; the path of a node is the identifiers from
    the root to it.  [hierarchical_less] orders the nodes of a tree so that siblings are sorted by
    a predicate of the user and children follow their parents; it is what a table is sorted by, and
    sorting is defined for strict weak orders only. *)

From S2P Require Import Prelude Statistics.
Local Open Scope Z_scope.

(** * Nodes and their paths *)

(** [frontend/primitives.h:43-60] call_statistics. With [identity] and [call_node], its bases. *)
Record call_statistics := mk_call {
  call_id : Z;
  thread_id : Z;
  parent_id : Z;
  address : Z;
  call_stats : function_statistics
}.

#[export] Instance call_statistics_eq_dec : EqDecision call_statistics.
Proof. solve_decision. Defined.

Section paths.
Context (lookup : Z → option call_statistics).

(** [frontend/primitives.h:93-94] initialize_path. The loop up the parents; as much fuel as there are ancestors. *)
Fixpoint path_loop (fuel : nat) (address_ : Z) (item : call_statistics) (path : list Z)
    (reentrance : Z) : option (list Z * Z) :=
  match lookup (parent_id item) with
  | None => Some (path, reentrance)
  | Some item =>
    match fuel with
    | O => None
    | S fuel =>
      path_loop fuel address_ item (path ++ [call_id item])
        (u32 (reentrance + Z.b2z (address item =? address_)))
    end
  end.

(** [frontend/primitives.h:88-96] initialize_path. The path and the reentrance of a node. *)
Definition initialize_path (fuel : nat) (item : call_statistics) : option (list Z * Z) :=
  '(path, reentrance) ← path_loop fuel (address item) item [call_id item] 0;
  Some (rev path, reentrance).

(** The nodes a node is called from, the root first. *)
Inductive ancestors : call_statistics → list call_statistics → Prop :=
  | anc_root n : lookup (parent_id n) = None → ancestors n []
  | anc_child n p l : lookup (parent_id n) = Some p → ancestors p l → ancestors n (l ++ [p]).

(** How often the function of a node is among them. *)
Definition nested (a : Z) (l : list call_statistics) : Z := len (filter (λ n, address n = a) l).

Lemma nested_snoc a l p : nested a (l ++ [p]) = Z.b2z (address p =? a) + nested a l.
Proof.
  unfold nested. rewrite filter_app, length_app. destruct (Z.eqb_spec (address p) a) as [E|E].
  - rewrite filter_cons_True by done. simpl. lia.
  - rewrite filter_cons_False by done. simpl. lia.
Qed.

Lemma path_loop_ok a n l : ancestors n l → ∀ fuel path r,
  (length l ≤ fuel)%nat → 0 ≤ r →
  path_loop fuel a n path (u32 r) = Some (path ++ rev (map call_id l), u32 (r + nested a l)).
Proof.
  induction 1 as [n Hn|n p l Hp _ IH]; intros fuel path r Hf Hr.
  - destruct fuel; cbn [path_loop]; rewrite Hn; simpl; rewrite app_nil_r; do 3 f_equal; unfold nested;
      simpl; lia.
  - rewrite length_app in Hf. simpl in Hf. destruct fuel as [|fuel]; [lia|]. cbn [path_loop].
    rewrite Hp, uw_add_l by lia. rewrite IH by (destruct (address p =? a); simpl; lia).
    f_equal. f_equal.
    + rewrite map_app, rev_app_distr. simpl. by rewrite <- app_assoc.
    + f_equal. rewrite nested_snoc. lia.
Qed.

(** The path of a node is the identifiers from the root down to it, and its reentrance is how
    often its function is already under way above it. *)
Lemma path_loop_path fuel n l :
  ancestors n l → (length l ≤ fuel)%nat →
  initialize_path fuel n = Some (map call_id (l ++ [n]), u32 (nested (address n) l)).
Proof.
  intros Ha Hf. unfold initialize_path. change 0 with (u32 0) at 1.
  rewrite (path_loop_ok _ _ _ Ha) by (done || lia). cbn [mbind option_bind]. f_equal. f_equal.
  rewrite rev_app_distr, rev_involutive. simpl. by rewrite map_app.
Qed.

Lemma ancestors_functional n l l' : ancestors n l → ancestors n l' → l = l'.
Proof.
  intros Ha. revert l'. induction Ha as [n Hn|n p l Hp _ IH]; intros l' Ha'.
  - inversion Ha'; congruence.
  - inversion Ha' as [|? p' l0 Hp' Hl']; subst; [congruence|].
    assert (p' = p) as -> by congruence. by rewrite (IH l0).
Qed.
End paths.

(** * The order *)

(** What [hierarchical_less] asks of a table ([AccessT]). *)
Class hierarchy (T : Type) := {
  same_parent : T → T → bool;
  path_of : T → list Z;
  node_at : Z → option T;
  total_less : T → T → bool
}.

Section hierarchical_less.
Context {T : Type} `{hierarchy T} (predicate : T → T → Z).

(** [frontend/hierarchy.h:87-91] hierarchical_less. Ties of the predicate are resolved by the total order. *)
Definition total_predicate (lhs rhs : T) : bool :=
  let result := predicate lhs rhs in
  if negb (result =? 0) then result <? 0 else total_less lhs rhs.

(** [frontend/hierarchy.h:97-113] hierarchical_less. The loop over the common length of the paths, and what decides
    behind it. *)
Fixpoint less_by_paths (lhs_path rhs_path : list Z) : result bool :=
  match lhs_path, rhs_path with
  | lhs_id :: lhs_path, rhs_id :: rhs_path =>
    if lhs_id =? rhs_id then less_by_paths lhs_path rhs_path
    else match node_at lhs_id, node_at rhs_id with
      | Some l, Some r => Ret (total_predicate l r)
      | _, _ => UB
      end
  | _, _ => Ret (length lhs_path <? length rhs_path)%nat
  end.

(** [frontend/hierarchy.h:82-114] hierarchical_less *)
Definition hierarchical_less (lhs rhs : T) : result bool :=
  if same_parent lhs rhs then Ret (total_predicate lhs rhs)
  else less_by_paths (path_of lhs) (path_of rhs).
End hierarchical_less.

(** A tree: paths consist of nodes and end in the node they belong to, siblings share the rest of
    their paths, and the nodes are totally ordered. *)
Class hierarchy_laws {T} (h : hierarchy T) (valid : T → Prop) := {
  node_id : T → Z;
  path_ends n : valid n → last (path_of n) = Some (node_id n);
  path_nodes n i : valid n → i ∈ path_of n → ∃ m, node_at i = Some m ∧ valid m ∧ node_id m = i;
  node_unique a b : valid a → valid b → node_id a = node_id b → a = b;
  siblings a b : valid a → valid b →
    same_parent a b = true ↔ removelast (path_of a) = removelast (path_of b);
  less_irreflexive a : valid a → total_less a a = false;
  less_transitive a b c : valid a → valid b → valid c →
    total_less a b = true → total_less b c = true → total_less a c = true;
  less_total a b : valid a → valid b → a ≠ b → total_less a b = true ∨ total_less b a = true
}.

(** A three-way comparison of what is [valid]: its sign flips with its sides, and "not greater" is
    transitive. *)
Class comparison_laws {T} (valid : T → Prop) (compare : T → T → Z) := {
  compare_flips a b : valid a → valid b → compare a b < 0 ↔ 0 < compare b a;
  compare_transitive a b c : valid a → valid b → valid c →
    compare a b ≤ 0 → compare b c ≤ 0 → compare a c ≤ 0
}.

Section order.
Context {T : Type} {h : hierarchy T} {valid : T → Prop} {hl : hierarchy_laws h valid}.
Context (predicate : T → T → Z) {cl : comparison_laws valid predicate}.

Abbreviation tp := (total_predicate predicate).

Lemma compare_refl a : valid a → predicate a a = 0.
Proof using cl. intros Ha. pose proof (compare_flips a a Ha Ha). lia. Qed.

Lemma compare_zero a b : valid a → valid b → predicate a b = 0 → predicate b a = 0.
Proof using cl. intros Ha Hb. pose proof (compare_flips a b Ha Hb). pose proof (compare_flips b a Hb Ha). lia. Qed.

Lemma tp_true a b : tp a b = true ↔ predicate a b < 0 ∨ predicate a b = 0 ∧ total_less a b = true.
Proof using Type.
  unfold total_predicate. destruct (Z.eqb_spec (predicate a b) 0); simpl; [naive_solver lia|].
  rewrite Z.ltb_lt. lia.
Qed.

Lemma tp_irreflexive a : valid a → tp a a = false.
Proof using hl cl.
  intros Ha. apply not_true_is_false. rewrite tp_true, compare_refl, less_irreflexive by done.
  intros [?|[_ ?]]; [lia|done].
Qed.

Lemma tp_transitive a b c :
  valid a → valid b → valid c → tp a b = true → tp b c = true → tp a c = true.
Proof using hl cl.
  intros Ha Hb Hc. rewrite !tp_true. intros Hab Hbc.
  assert (predicate a c ≤ 0) as Hac by (apply (compare_transitive a b c); lia || done).
  destruct (decide (predicate a c < 0)) as [|Hz]; [by left|right].
  assert (predicate a c = 0) as E by lia. pose proof (compare_zero _ _ Ha Hc E) as E'.
  assert (predicate b a ≤ 0) as Hba by (apply (compare_transitive b c a); lia || done).
  pose proof (compare_flips b a Hb Ha). pose proof (compare_flips a b Ha Hb).
  assert (predicate c b ≤ 0) as Hcb by (apply (compare_transitive c a b); lia || done).
  pose proof (compare_flips c b Hc Hb). pose proof (compare_flips b c Hb Hc).
  split; [done|]. destruct Hab as [?|[_ Hab]]; [lia|]. destruct Hbc as [?|[_ Hbc]]; [lia|].
  by apply (less_transitive a b c).
Qed.

Lemma tp_total a b : valid a → valid b → a ≠ b → tp a b = true ∨ tp b a = true.
Proof using hl cl.
  intros Ha Hb Hne. rewrite !tp_true. pose proof (compare_flips a b Ha Hb). pose proof (compare_flips b a Hb Ha).
  destruct (Z.lt_trichotomy (predicate a b) 0) as [|[E|]]; [left; by left| |right; left; lia].
  destruct (less_total a b Ha Hb Hne); [left|right]; right; auto using compare_zero.
Qed.

(** The order of two paths, as a relation: the first identifiers that differ decide, and a path comes
    after the ones it continues. *)
Inductive path_less : list Z → list Z → Prop :=
  | pl_shorter q i : path_less [] (i :: q)
  | pl_differ i j l r p q :
    i ≠ j → node_at i = Some l → node_at j = Some r → tp l r = true → path_less (i :: p) (j :: q)
  | pl_same i p q : path_less p q → path_less (i :: p) (i :: q).

Definition nodes_of (p : list Z) : Prop := ∀ i, i ∈ p → ∃ m, node_at i = Some m ∧ valid m ∧ node_id m = i.

Lemma nodes_of_cons i p : nodes_of (i :: p) →
  (∃ m, node_at i = Some m ∧ valid m ∧ node_id m = i) ∧ nodes_of p.
Proof using Type.
  intros Hn. split; [by apply Hn, elem_of_cons; left|].
  intros j Hj. by apply Hn, elem_of_cons; right.
Qed.

Lemma less_by_paths_spec p : ∀ q,
  nodes_of p → nodes_of q →
  ∃ b, less_by_paths predicate p q = Ret b ∧ (b = true ↔ path_less p q).
Proof using Type.
  induction p as [|i p IH]; intros q Hp Hq; cbn [less_by_paths].
  - eexists. split; [done|]. destruct q as [|j q]; simpl; [|split; [intros; constructor|done]].
    split; [done|]. by inversion 1.
  - destruct q as [|j q]; [eexists; split; [done|]; split; [done|by inversion 1]|].
    apply nodes_of_cons in Hp as [(l & Hl & _ & _) Hp]. apply nodes_of_cons in Hq as [(r & Hr & _ & _) Hq].
    destruct (Z.eqb_spec i j) as [->|Hne].
    + destruct (IH q Hp Hq) as (b & -> & Hb). exists b. split; [done|]. rewrite Hb.
      split; [by constructor|]. by inversion 1.
    + rewrite Hl, Hr. eexists. split; [done|]. split; [by intros; eapply pl_differ|].
      inversion 1; congruence.
Qed.

Lemma path_less_irreflexive p : ¬ path_less p p.
Proof using Type. induction p as [|i p IH]; [by inversion 1|]. inversion 1; subst; done. Qed.

Lemma path_less_transitive p : ∀ q r,
  nodes_of p → nodes_of q → nodes_of r → path_less p q → path_less q r → path_less p r.
Proof using hl cl.
  induction p as [|i p IH]; intros q r Hp Hq Hr Hpq Hqr.
  { inversion Hpq; subst. inversion Hqr; subst; constructor. }
  destruct q as [|j q]; [by inversion Hpq|]. destruct r as [|k r]; [by inversion Hqr|].
  apply nodes_of_cons in Hp as [(a & Ha & Hva & Hia) Hp].
  apply nodes_of_cons in Hq as [(b & Hb & Hvb & Hib) Hq].
  apply nodes_of_cons in Hr as [(c & Hc & Hvc & Hic) Hr].
  inversion Hpq; inversion Hqr; simplify_eq.
  - destruct (decide (node_id a = node_id c)) as [E|Hne].
    + assert (a = c) as -> by by apply node_unique. exfalso.
      assert (tp c c = true) as Ht by by apply (tp_transitive c b c).
      by rewrite tp_irreflexive in Ht.
    + eapply pl_differ; [done|done|done|]. by apply (tp_transitive a b c).
  - assert (b = c) as -> by by apply node_unique. by eapply pl_differ.
  - assert (a = b) as -> by by apply node_unique. by eapply pl_differ.
  - constructor. by apply (IH q).
Qed.

Lemma path_less_total p : ∀ q,
  nodes_of p → nodes_of q → p ≠ q → path_less p q ∨ path_less q p.
Proof using hl cl.
  induction p as [|i p IH]; intros [|j q] Hp Hq Hne; [done|left; constructor|right; constructor|].
  apply nodes_of_cons in Hp as [(a & Ha & Hva & Hia) Hp].
  apply nodes_of_cons in Hq as [(b & Hb & Hvb & Hib) Hq].
  destruct (decide (i = j)) as [->|Hij].
  - destruct (IH q Hp Hq) as [?|?]; [congruence|left; by constructor|right; by constructor].
  - assert (a ≠ b) as Hab by congruence.
    destruct (tp_total a b Hva Hvb Hab); [left|right]; eapply pl_differ; eauto.
Qed.

Lemma path_of_snoc n : valid n → path_of n = removelast (path_of n) ++ [node_id n].
Proof using hl.
  intros Hn. pose proof (path_ends n Hn) as Hl. apply last_Some in Hl as [q Hq].
  by rewrite Hq, removelast_last.
Qed.

Lemma path_of_inj a b : valid a → valid b → path_of a = path_of b → a = b.
Proof using hl.
  intros Ha Hb Hp. apply node_unique; [done|done|].
  pose proof (path_ends a Ha) as Hl. rewrite Hp, path_ends in Hl by done. by simplify_eq.
Qed.

Lemma path_of_nodes n : valid n → nodes_of (path_of n).
Proof using hl. intros Hn i Hi. by apply (path_nodes n). Qed.

Lemma path_less_siblings s i j a b :
  node_at i = Some a → node_at j = Some b → node_id a = i → node_id b = j → valid a → valid b →
  path_less (s ++ [i]) (s ++ [j]) ↔ tp a b = true.
Proof using hl cl.
  intros Ha Hb Hia Hib Hva Hvb. induction s as [|k s IH]; simpl.
  - split.
    + inversion 1 as [| |? ? ? Hbad]; simplify_eq; [done|by inversion Hbad].
    + intros Ht. eapply pl_differ; [|done|done|done]. intros E.
      assert (a = b) as -> by (apply node_unique; congruence). by rewrite tp_irreflexive in Ht.
  - rewrite <- IH. split; [|by constructor]. by inversion 1.
Qed.

(** The shortcut for siblings agrees with the paths. *)
Lemma hierarchical_less_paths a b :
  valid a → valid b →
  ∃ r, hierarchical_less predicate a b = Ret r ∧ (r = true ↔ path_less (path_of a) (path_of b)).
Proof using hl cl.
  intros Ha Hb. unfold hierarchical_less. destruct (same_parent a b) eqn:E.
  - eexists. split; [done|]. apply siblings in E; [|done|done].
    pose proof (path_of_snoc a Ha) as Pa. pose proof (path_of_snoc b Hb) as Pb. rewrite E in Pa.
    revert Pa Pb. generalize (removelast (path_of b)). intros s Pa Pb. rewrite Pa, Pb.
    destruct (path_nodes a (node_id a) Ha) as (m & Hm & Hvm & Him); [rewrite Pa; set_solver|].
    destruct (path_nodes b (node_id b) Hb) as (m' & Hm' & Hvm' & Him'); [rewrite Pb; set_solver|].
    assert (m = a) as -> by by apply node_unique. assert (m' = b) as -> by by apply node_unique.
    by rewrite path_less_siblings.
  - apply less_by_paths_spec; by apply path_of_nodes.
Qed.
End order.

Section strict_order.
Context {T : Type} {h : hierarchy T} {valid : T → Prop} {hl : hierarchy_laws h valid}.
Context (predicate : T → T → Z) {cl : comparison_laws valid predicate}.

Lemma hierarchical_less_iff x y : valid x → valid y →
  hierarchical_less predicate x y = Ret true ↔ path_less predicate (path_of x) (path_of y).
Proof using hl cl.
  intros Hx Hy. destruct (hierarchical_less_paths predicate x y Hx Hy) as (r & -> & Hr).
  rewrite <- Hr. naive_solver.
Qed.

Lemma hierarchical_less_trans a b c : valid a → valid b → valid c →
  hierarchical_less predicate a b = Ret true → hierarchical_less predicate b c = Ret true →
  hierarchical_less predicate a c = Ret true.
Proof using hl cl.
  intros Ha Hb Hc. rewrite !hierarchical_less_iff by done.
  apply (path_less_transitive predicate); by apply path_of_nodes.
Qed.

Lemma hierarchical_less_connected a b : valid a → valid b → a ≠ b →
  hierarchical_less predicate a b = Ret true ∨ hierarchical_less predicate b a = Ret true.
Proof using hl cl.
  intros Ha Hb Hne. rewrite !hierarchical_less_iff by done.
  apply (path_less_total predicate); [by apply path_of_nodes..|].
  intros Hp. by apply Hne, path_of_inj.
Qed.

Lemma hierarchical_less_refl a : valid a → hierarchical_less predicate a a = Ret false.
Proof using hl cl.
  intros Ha. destruct (hierarchical_less_paths predicate a a Ha Ha) as ([] & -> & Hr); [|done].
  exfalso. apply (path_less_irreflexive predicate (path_of a)). by apply Hr.
Qed.

(** The order of a tree is a strict total order of its nodes, whatever consistent comparison they
    are sorted by: it is defined, irreflexive, transitive and decides any two of them. *)
Theorem hierarchical_less_strict a b c :
  valid a → valid b → valid c →
  hierarchical_less predicate a a = Ret false ∧
  (hierarchical_less predicate a b = Ret true → hierarchical_less predicate b c = Ret true →
     hierarchical_less predicate a c = Ret true) ∧
  (a ≠ b → hierarchical_less predicate a b = Ret true ∨ hierarchical_less predicate b a = Ret true).
Proof using hl cl.
  intros Ha Hb Hc. split_and!; [by apply hierarchical_less_refl| |by apply hierarchical_less_connected].
  by apply hierarchical_less_trans.
Qed.

Lemma path_less_prefix p q : p `prefix_of` q → p ≠ q → path_less predicate p q.
Proof using Type.
  intros [s ->] Hne. induction p as [|i p IH]; simpl.
  - destruct s; [done|constructor].
  - constructor. apply IH. intros E. apply Hne. simpl. by rewrite <- E.
Qed.

Lemma path_less_subtree p q s :
  path_less predicate p q → ¬ p `prefix_of` q → path_less predicate (p ++ s) q.
Proof using Type.
  induction 1 as [q i|i j l r p q Hne Hl Hr Ht|i p q Hpq IH]; intros Hp; simpl.
  - destruct Hp. apply prefix_nil.
  - by eapply pl_differ.
  - constructor. apply IH. intros Hpre. by apply Hp, prefix_cons.
Qed.

(** The nodes of a subtree are together, behind its root: a node precedes everything that is
    called from it, and what it precedes otherwise its whole subtree precedes. *)
Theorem subtree_together a b c :
  valid a → valid b → valid c → path_of a `prefix_of` path_of b →
  (a ≠ b → hierarchical_less predicate a b = Ret true) ∧
  (hierarchical_less predicate a c = Ret true → ¬ path_of a `prefix_of` path_of c →
     hierarchical_less predicate b c = Ret true).
Proof using hl cl.
  intros Ha Hb Hc Hpre. split.
  - intros Hne. destruct (hierarchical_less_paths predicate a b Ha Hb) as (r & -> & Hr). f_equal.
    apply Hr, path_less_prefix; [done|]. intros Hp. by apply Hne, path_of_inj.
  - intros Hac Hn. destruct (hierarchical_less_paths predicate a c Ha Hc) as (r & Hr & Hiff).
    rewrite Hr in Hac. injection Hac as ->.
    destruct (hierarchical_less_paths predicate b c Hb Hc) as (r' & -> & Hiff'). f_equal.
    apply Hiff'. destruct Hpre as [s Hs]. rewrite Hs. apply path_less_subtree; [|done]. by apply Hiff.
Qed.
End strict_order.

(** * Tables of call statistics *)

Section table.
Context (t : gmap Z call_statistics).

Definition by_id (i : Z) : option call_statistics := t !! i.

(** A table of calls: records are found by their identifiers, every one is called from the root, and
    the calls from the root have no parent. *)
Record tree_ok : Prop := {
  tree_ids i n : t !! i = Some n → call_id n = i;
  tree_rooted i n : t !! i = Some n → ∃ l, ancestors by_id n l;
  tree_roots i n : t !! i = Some n → by_id (parent_id n) = None → parent_id n = 0
}.

Definition in_table (n : call_statistics) : Prop := t !! call_id n = Some n.

(** [frontend/primitives.h:80-82] call_statistics::path. The cache of the path is not modelled: it is filled once
    and stays. *)
Definition call_path (n : call_statistics) : list Z :=
  default [] (fst <$> initialize_path by_id (size t) n).

(** [frontend/primitives.h:84-86] call_statistics::reentrance *)
Definition reentrance (n : call_statistics) : Z :=
  default 0 (snd <$> initialize_path by_id (size t) n).

(** [frontend/statistic_models.h:57-77] stack_hierarchy_access *)
#[export] Instance stack_hierarchy_access : hierarchy call_statistics := {|
  same_parent lhs rhs := parent_id lhs =? parent_id rhs;
  path_of := call_path;
  node_at := by_id;
  total_less lhs rhs := call_id lhs <? call_id rhs
|}.

Context (Hok : tree_ok).

Lemma ancestors_split n l : ancestors by_id n l →
  ∀ l1 p l2, l = l1 ++ p :: l2 → in_table p ∧ ancestors by_id p l1.
Proof using Hok.
  induction 1 as [n Hn|n p l Hp Ha IH]; intros l1 q l2 Hl.
  - by destruct l1.
  - destruct l2 as [|x l2 _] using rev_ind.
    + apply app_inj_tail in Hl as [-> ->]. split; [|done].
      unfold in_table. by rewrite (tree_ids Hok _ _ Hp).
    + rewrite app_comm_cons, app_assoc in Hl. apply app_inj_tail in Hl as [-> ->]. by apply (IH l1 q l2).
Qed.

Lemma ancestors_distinct n l : ancestors by_id n l → NoDup (map call_id l).
Proof using Hok.
  intros Ha. apply NoDup_alt. intros i j x. rewrite !list_lookup_fmap.
  intros (p & Hi & ->)%fmap_Some (q & Hj & Hpq)%fmap_Some.
  pose proof (ancestors_split _ _ Ha _ _ _ (eq_sym (take_drop_middle _ _ _ Hi))) as [Hp Hap].
  pose proof (ancestors_split _ _ Ha _ _ _ (eq_sym (take_drop_middle _ _ _ Hj))) as [Hq Haq].
  assert (p = q) as -> by (unfold in_table in *; congruence).
  pose proof (ancestors_functional _ _ _ _ Hap Haq) as E. apply (f_equal length) in E.
  rewrite !length_take in E. apply lookup_lt_Some in Hi, Hj. lia.
Qed.

Lemma ancestors_length n l : ancestors by_id n l → (length l ≤ size t)%nat.
Proof using Hok.
  intros Ha. pose proof (ancestors_distinct _ _ Ha) as Hnd.
  rewrite <- (length_fmap call_id l). rewrite <- size_dom.
  rewrite <- (size_list_to_set (C := gset Z) (call_id <$> l)) by done.
  apply subseteq_size. intros i Hi. apply elem_of_list_to_set in Hi.
  apply list_elem_of_fmap in Hi as (p & -> & Hp). apply list_elem_of_split in Hp as (l1 & l2 & ->).
  destruct (ancestors_split _ _ Ha _ _ _ eq_refl) as [Hp _]. apply elem_of_dom. by exists p.
Qed.

Lemma call_path_ancestors n l :
  ancestors by_id n l →
  call_path n = map call_id (l ++ [n]) ∧ reentrance n = u32 (nested (address n) l).
Proof using Hok.
  intros Ha. unfold call_path, reentrance.
  rewrite (path_loop_path _ _ _ _ Ha (ancestors_length _ _ Ha)). done.
Qed.

Lemma in_table_ancestors n : in_table n → ∃ l, ancestors by_id n l.
Proof using Hok. apply (tree_rooted Hok). Qed.

#[export, refine] Instance stack_hierarchy_laws : hierarchy_laws stack_hierarchy_access in_table :=
  {| node_id := call_id |}.
Proof using Hok.
  - intros n Hn. destruct (in_table_ancestors n Hn) as [l Hl]. cbn [path_of stack_hierarchy_access].
    destruct (call_path_ancestors n l Hl) as [-> _]. rewrite map_app. simpl. by rewrite last_snoc.
  - intros n i Hn. destruct (in_table_ancestors n Hn) as [l Hl]. cbn [path_of stack_hierarchy_access].
    destruct (call_path_ancestors n l Hl) as [-> _]. intros (m & -> & Hm)%list_elem_of_fmap.
    exists m. apply elem_of_app in Hm as [Hm|Hm].
    + apply list_elem_of_split in Hm as (l1 & l2 & ->).
      by destruct (ancestors_split _ _ Hl _ _ _ eq_refl).
    + apply list_elem_of_singleton in Hm as ->. done.
  - unfold in_table. intros a b Ha Hb E. congruence.
  - intros a b Ha Hb. cbn [path_of same_parent stack_hierarchy_access].
    destruct (in_table_ancestors a Ha) as [la Hla]. destruct (in_table_ancestors b Hb) as [lb Hlb].
    destruct (call_path_ancestors a la Hla) as [-> _]. destruct (call_path_ancestors b lb Hlb) as [-> _].
    rewrite !map_app. cbn [map]. rewrite !removelast_last, Z.eqb_eq. split.
    + intros E. f_equal. inversion Hla; inversion Hlb; subst; try congruence.
      assert (p0 = p) as -> by congruence. f_equal. by eapply ancestors_functional.
    + intros E. inversion Hla as [|? p l Hp]; inversion Hlb as [|? q l' Hq]; subst.
      * by rewrite (tree_roots Hok _ a Ha), (tree_roots Hok _ b Hb).
      * rewrite map_app in E. by apply app_cons_not_nil in E.
      * rewrite map_app in E. symmetry in E. by apply app_cons_not_nil in E.
      * rewrite !map_app in E. apply app_inj_tail in E as [_ E].
        by rewrite <- (tree_ids Hok _ _ Hp), <- (tree_ids Hok _ _ Hq).
  - intros a _. cbn [total_less stack_hierarchy_access]. lia.
  - intros a b c _ _ _. cbn [total_less stack_hierarchy_access]. lia.
  - intros a b Ha Hb Hne. cbn [total_less stack_hierarchy_access].
    assert (call_id a ≠ call_id b) by (unfold in_table in *; congruence). lia.
Defined.
End table.

(** * Aggregation *)

Section aggregation.
Context (t : gmap Z call_statistics).

(** [frontend/primitives.h:99-110] add. The time of a call is inclusive of what is called from it, so that calls nested
    in a call of the same function do not count to the inclusive time again. *)
Definition add_call (lhs : function_statistics) (rhs : call_statistics) : function_statistics :=
  let r := call_stats rhs in
  let outer := reentrance t rhs =? 0 in
  mk_stats (u64 (times_called lhs + times_called r))
    (if outer then s64 (inclusive_time lhs + inclusive_time r) else inclusive_time lhs)
    (s64 (exclusive_time lhs + exclusive_time r))
    (if outer && (max_call_time lhs <? max_call_time r) then max_call_time r else max_call_time lhs).

(** [frontend/aggregators.h:22-29] sum_flat *)
Definition sum_flat (aggregated : call_statistics) (group : list call_statistics) : call_statistics :=
  mk_call (call_id aggregated) (thread_id aggregated) 0 (address aggregated)
    (fold_left add_call group function_statistics_default).

(** The calls of a group that are not nested in a call of their function. *)
Definition outer_calls (group : list call_statistics) : list call_statistics :=
  filter (λ n, reentrance t n = 0) group.

Definition total (f : function_statistics → Z) (group : list call_statistics) : Z :=
  fold_right (λ n s, f (call_stats n) + s) 0 group.

Definition longest (group : list call_statistics) : Z :=
  fold_right (λ n s, Z.max (max_call_time (call_stats n)) s) 0 group.

Lemma longest_nonneg group : 0 ≤ longest group.
Proof. induction group; simpl; lia. Qed.

Lemma add_call_wf s n : wf_stats s → wf_stats (call_stats n) → wf_stats (add_call s n).
Proof.
  intros (Ht & Hi & He & Hm) (_ & _ & _ & Hm'). unfold add_call. split_and!; simpl.
  - apply (uw_range 64). lia.
  - case_match; [apply (sw_range 64); lia|done].
  - apply (sw_range 64). lia.
  - case_match; lia.
Qed.

Lemma add_calls_sum group : ∀ s,
  wf_stats s → Forall (λ n, wf_stats (call_stats n)) group →
  fold_left add_call group s =
    mk_stats (u64 (times_called s + total times_called group))
      (s64 (inclusive_time s + total inclusive_time (outer_calls group)))
      (s64 (exclusive_time s + total exclusive_time group))
      (Z.max (max_call_time s) (longest (outer_calls group))).
Proof.
  unfold outer_calls. induction group as [|n group IH]; intros s Hs Hg.
  - destruct Hs as (Ht & Hi & He & Hm). simpl. rewrite !Z.add_0_r.
    rewrite (uw_small 64), !(sw_small 64) by (done || lia). destruct s; simpl in *. f_equal. lia.
  - apply Forall_cons in Hg as [Hn Hg]. cbn [fold_left]. rewrite IH by auto using add_call_wf.
    pose proof (longest_nonneg (filter (λ n, reentrance t n = 0) group)) as Hl.
    destruct Hn as (_ & _ & _ & Hn). destruct Hs as (_ & _ & _ & Hs).
    unfold add_call. cbn [times_called inclusive_time exclusive_time max_call_time total fold_right].
    fold (total times_called group). fold (total exclusive_time group).
    destruct (Z.eqb_spec (reentrance t n) 0) as [E|E].
    + rewrite filter_cons_True by done. cbn [andb total longest fold_right].
      fold (total inclusive_time (filter (λ n, reentrance t n = 0) group)).
      fold (longest (filter (λ n, reentrance t n = 0) group)).
      f_equal; [wsolve|wsolve|wsolve|]. case_match; lia.
    + rewrite filter_cons_False by done. cbn [andb].
      f_equal; [wsolve|wsolve].
Qed.

(** A flat record of several calls counts and sums up all of them, but takes the inclusive time,
    and the longest call, of the ones that are not nested in a call of the same function: time is
    not counted twice. *)
Theorem sum_flat_totals aggregated group :
  Forall (λ n, wf_stats (call_stats n)) group →
  call_stats (sum_flat aggregated group) =
    mk_stats (u64 (total times_called group))
      (s64 (total inclusive_time (outer_calls group)))
      (s64 (total exclusive_time group))
      (longest (outer_calls group)).
Proof.
  intros Hg. unfold sum_flat. cbn [call_stats]. rewrite add_calls_sum; [|by split_and!|done].
  pose proof (longest_nonneg (outer_calls group)). simpl. f_equal. lia.
Qed.
End aggregation.

(** ** A small tree: main (1) calls f (2), which calls itself (3); g (4) is called from main *)

Definition demo_call (i parent a inclusive : Z) : call_statistics :=
  mk_call i 0 parent a (mk_stats 1 inclusive 10 inclusive).
Definition demo_calls : list call_statistics :=
  [demo_call 1 0 100 90; demo_call 2 1 200 50; demo_call 3 2 200 20; demo_call 4 1 50 30].
Definition demo_tree : gmap Z call_statistics := list_to_map (map (λ n, (call_id n, n)) demo_calls).

Lemma demo_tree_elem i n : demo_tree !! i = Some n → (i, n) ∈ map (λ n, (call_id n, n)) demo_calls.
Proof. apply elem_of_list_to_map_2. Qed.

Lemma demo_tree_ok : tree_ok demo_tree.
Proof.
  assert (∀ i n, demo_tree !! i = Some n → n ∈ demo_calls ∧ i = call_id n) as Hd.
  { intros i n Hi%demo_tree_elem. apply list_elem_of_fmap in Hi as (m & Hm & Hin). by simplify_eq. }
  assert (∀ n, n ∈ demo_calls → ∃ l, ancestors (by_id demo_tree) n l) as Ha.
  { assert (ancestors (by_id demo_tree) (demo_call 1 0 100 90) []) as H1 by by apply anc_root.
    assert (ancestors (by_id demo_tree) (demo_call 2 1 200 50) ([] ++ [demo_call 1 0 100 90])) as H2
      by by apply anc_child.
    assert (ancestors (by_id demo_tree) (demo_call 3 2 200 20)
      (([] ++ [demo_call 1 0 100 90]) ++ [demo_call 2 1 200 50])) as H3 by by apply anc_child.
    assert (ancestors (by_id demo_tree) (demo_call 4 1 50 30) ([] ++ [demo_call 1 0 100 90])) as H4
      by by apply anc_child.
    intros n Hn. unfold demo_calls in Hn.
    repeat (apply elem_of_cons in Hn as [->|Hn]; [eauto|]). by apply elem_of_nil in Hn. }
  split.
  - intros i n [_ ->]%Hd. done.
  - intros i n [Hn _]%Hd. by apply Ha.
  - intros i n [Hn _]%Hd. unfold demo_calls in Hn.
    repeat (apply elem_of_cons in Hn as [->|Hn]; [done|]). by apply elem_of_nil in Hn.
Qed.

Definition by_address (a b : call_statistics) : Z := address a - address b.

#[local] Instance by_address_laws valid : comparison_laws valid by_address.
Proof. split; unfold by_address; intros; lia. Defined.

#[local] Instance demo_hierarchy : hierarchy call_statistics := stack_hierarchy_access demo_tree.
#[local] Instance demo_laws : hierarchy_laws demo_hierarchy (in_table demo_tree) :=
  stack_hierarchy_laws demo_tree demo_tree_ok.

Definition demo_less (a b : call_statistics) : result bool := hierarchical_less by_address a b.

Lemma hierarchical_less_strict_witness :
  demo_less (demo_call 4 1 50 30) (demo_call 4 1 50 30) = Ret false ∧
  (demo_less (demo_call 4 1 50 30) (demo_call 2 1 200 50) = Ret true →
   demo_less (demo_call 2 1 200 50) (demo_call 3 2 200 20) = Ret true →
   demo_less (demo_call 4 1 50 30) (demo_call 3 2 200 20) = Ret true) ∧
  (demo_call 4 1 50 30 ≠ demo_call 2 1 200 50 →
   demo_less (demo_call 4 1 50 30) (demo_call 2 1 200 50) = Ret true ∨
   demo_less (demo_call 2 1 200 50) (demo_call 4 1 50 30) = Ret true).
Proof.
  apply (hierarchical_less_strict by_address (demo_call 4 1 50 30) (demo_call 2 1 200 50)
    (demo_call 3 2 200 20)); vm_compute; reflexivity.
Defined.

Lemma subtree_together_witness :
  (demo_call 1 0 100 90 ≠ demo_call 3 2 200 20 →
     demo_less (demo_call 1 0 100 90) (demo_call 3 2 200 20) = Ret true) ∧
  (demo_less (demo_call 1 0 100 90) (demo_call 4 1 50 30) = Ret true →
   ¬ path_of (demo_call 1 0 100 90) `prefix_of` path_of (demo_call 4 1 50 30) →
   demo_less (demo_call 3 2 200 20) (demo_call 4 1 50 30) = Ret true).
Proof.
  apply (subtree_together by_address (demo_call 1 0 100 90) (demo_call 3 2 200 20) (demo_call 4 1 50 30));
    [vm_compute; reflexivity..|].
  exists [2; 3]. vm_compute. reflexivity.
Defined.

Lemma sum_flat_totals_witness :
  call_stats (sum_flat demo_tree (demo_call 9 7 200 0) [demo_call 2 1 200 50; demo_call 3 2 200 20]) =
    mk_stats 2 50 20 50.
Proof.
  refine (eq_trans (sum_flat_totals demo_tree (demo_call 9 7 200 0)
    [demo_call 2 1 200 50; demo_call 3 2 200 20] _) _).
  - repeat constructor; simpl; unfold in_u, in_s; lia.
  - vm_compute. reflexivity.
Defined.
