(* ===== verification/Views.v ===== *)
(** The views the front-end shows its tables through (views/ordered.h, views/filter.h,
    views/flatten.h, frontend/trackables_provider.h).

    [ordered] keeps iterators of the records of a table, sorted by a predicate; [filter] and
    [flatten] are ranges whose iterators skip and nest; [trackables_provider] follows rows by their
    keys while the order changes.  [Models] composes them into the tables that windows show. *)

From S2P Require Import Prelude Sdb Hierarchy.

(** * [std::sort] *)

(** What [std::sort] needs of a predicate, a strict weak order of the elements it is given, and
    what it then promises: they are all there, none before a smaller one.  Without the order it has
    no defined behaviour. *)
Record strict_weak {A} (p : A → A → result bool) (l : list A) : Prop := {
  sw_defined a b : a ∈ l → b ∈ l → ∃ r, p a b = Ret r;
  sw_asymmetric a b : a ∈ l → b ∈ l → p a b = Ret true → p b a = Ret false;
  sw_negative a b c : a ∈ l → b ∈ l → c ∈ l →
    p a b = Ret false → p b c = Ret false → p a c = Ret false
}.

Definition sorted_by {A} (p : A → A → result bool) (l : list A) : Prop :=
  StronglySorted (λ a b, p b a = Ret false) l.

Class std_sort := {
  sort {A} : (A → A → result bool) → list A → result (list A);
  sort_sorts {A} (p : A → A → result bool) l :
    strict_weak p l → ∃ l', sort p l = Ret l' ∧ l' ≡ₚ l ∧ sorted_by p l'
}.

Section insertion.
Context {A : Type} (p : A → A → result bool).

Fixpoint insert_one (a : A) (l : list A) : result (list A) :=
  match l with
  | [] => Ret [a]
  | b :: l =>
    less ← p b a;
    if (less : bool) then (l' ← insert_one a l; Ret (b :: l')) else Ret (a :: b :: l)
  end.

Fixpoint insert_all (l : list A) : result (list A) :=
  match l with
  | [] => Ret []
  | a :: l => l' ← insert_all l; insert_one a l'
  end.

Lemma strict_weak_perm l l' : l ≡ₚ l' → strict_weak p l → strict_weak p l'.
Proof. intros Hp [H1 H2 H3]. split; setoid_rewrite <- Hp; done. Qed.

Lemma strict_weak_tail a l : strict_weak p (a :: l) → strict_weak p l.
Proof.
  intros [H1 H2 H3]. assert (∀ x, x ∈ l → x ∈ a :: l) as Hin by (intros; apply elem_of_cons; by right).
  split; [auto|auto|]. intros x y z Hx Hy Hz. by apply H3; auto.
Qed.

Lemma insert_one_sorts a l :
  strict_weak p (a :: l) → sorted_by p l →
  ∃ l', insert_one a l = Ret l' ∧ l' ≡ₚ a :: l ∧ sorted_by p l'.
Proof.
  intros Hw Hs. induction Hs as [|b l Hs IH Hb]; cbn [insert_one].
  { exists [a]. split_and!; [done|done|]. repeat constructor. }
  destruct (sw_defined _ _ Hw b a) as [r Hr]; [set_solver..|]. rewrite Hr. cbn [mbind result_bind].
  destruct r.
  - destruct IH as (l' & -> & Hp & Hs').
    { apply strict_weak_tail with b. eapply strict_weak_perm; [|exact Hw]. constructor. }
    exists (b :: l'). split_and!; [done|rewrite Hp; constructor|].
    constructor; [done|]. rewrite Hp. constructor; [|done].
    apply (sw_asymmetric _ _ Hw); [set_solver..|done].
  - exists (a :: b :: l). split_and!; [done|done|]. constructor; [by constructor|].
    constructor; [done|]. rewrite Forall_forall in Hb |- *. intros x Hx.
    apply (sw_negative _ _ Hw x b a); [set_solver..|by apply Hb|done].
Qed.

Lemma insert_all_sorts l :
  strict_weak p l → ∃ l', insert_all l = Ret l' ∧ l' ≡ₚ l ∧ sorted_by p l'.
Proof.
  induction l as [|a l IH]; intros Hw; cbn [insert_all].
  { exists []. split_and!; [done|done|constructor]. }
  destruct IH as (l' & -> & Hp & Hs); [by eapply strict_weak_tail|]. cbn [mbind result_bind].
  destruct (insert_one_sorts a l') as (l'' & -> & Hp' & Hs'); [|done|].
  - eapply strict_weak_perm; [|exact Hw]. by rewrite Hp.
  - exists l''. split_and!; [done|by rewrite Hp', Hp|done].
Qed.
End insertion.

(** An implementation, to run the model with. *)
#[local] Instance insertion_sort : std_sort := {| sort := @insert_all; sort_sorts := @insert_all_sorts |}.

(** * Ordered tables *)

(** A predicate is a closure: [W] is what it reads through its captures at the time it is called. *)
Section ordered.
Context {V W : Type} `{std_sort}.

(** [views/ordered.h:55-58] ordered *)
Record ordered_view := mk_ordered {
  ordered_data : list nat;
  sort_order : option ((W → V → V → result bool) * bool)
}.

(** The record an iterator of the view points to; there is none once it is erased from the table. *)
Definition deref (t : table V) (h : nat) : result V :=
  match find_record h (records t) with Some v => Ret v | None => UB end.

(** [views/ordered.h:88-103] ordered::set_order. The predicate on iterators. *)
Definition iterator_less (w : W) (t : table V) (order : (W → V → V → result bool) * bool)
    (lhs rhs : nat) : result bool :=
  let '(predicate, ascending) := order in
  if (ascending : bool) then (l ← deref t lhs; r ← deref t rhs; predicate w l r)
  else (l ← deref t lhs; r ← deref t rhs; predicate w r l).

Definition sort_view (w : W) (t : table V) (o : ordered_view) : result ordered_view :=
  match sort_order o with
  | None => Ret o
  | Some order =>
    data ← sort (iterator_less w t order) (ordered_data o);
    Ret (mk_ordered data (sort_order o))
  end.

(** [views/ordered.h:72-80] ordered::fetch *)
Definition ordered_fetch (w : W) (t : table V) (o : ordered_view) : result ordered_view :=
  sort_view w t (mk_ordered (records t).*1 (sort_order o)).

(** [views/ordered.h:63-66] ordered::ordered *)
Definition new_ordered (t : table V) : ordered_view := mk_ordered (records t).*1 None.

(** [views/ordered.h:82-105] ordered::set_order *)
Definition ordered_set_order (w : W) (t : table V) (predicate : W → V → V → result bool)
    (ascending : bool) (o : ordered_view) : result ordered_view :=
  sort_view w t (mk_ordered (ordered_data o) (Some (predicate, ascending))).

(** [views/ordered.h:68-70] ordered::size *)
Definition ordered_size (o : ordered_view) : nat := length (ordered_data o).

(** [views/ordered.h:107-109] ordered::operator [] *)
Definition ordered_at (t : table V) (o : ordered_view) (index : nat) : result V :=
  match ordered_data o !! index with Some h => deref t h | None => UB end.

Definition values (t : table V) : list V := (records t).*2.

(** The records of a view, in its order. *)
Definition shown (t : table V) (o : ordered_view) : list V :=
  omap (λ h, find_record h (records t)) (ordered_data o).

(** A view is up to date: it has an iterator to every record, once. *)
Definition view_ok (t : table V) (o : ordered_view) : Prop := ordered_data o ≡ₚ (records t).*1.

Lemma deref_ok t h v : table_ok t → deref t h = Ret v ↔ (h, v) ∈ records t.
Proof.
  intros [Hnd _]. unfold deref. rewrite <- find_record_elem by done. destruct (find_record _ _); naive_solver.
Qed.

Lemma shown_values t hs : table_ok t → hs ≡ₚ (records t).*1 →
  omap (λ h, find_record h (records t)) hs ≡ₚ values t.
Proof.
  intros [Hnd _] ->. unfold values.
  assert (∀ rs', rs' ⊆ records t → omap (λ h, find_record h (records t)) rs'.*1 = rs'.*2) as Hrs.
  { induction rs' as [|[h v] rs' IH]; intros Hin; [done|]. simpl.
    assert (find_record h (records t) = Some v) as -> by (apply find_record_elem; set_solver).
    f_equal. apply IH. set_solver. }
  by rewrite Hrs.
Qed.

Lemma shown_lookup t o i v : table_ok t → view_ok t o →
  ordered_at t o i = Ret v ↔ shown t o !! i = Some v.
Proof.
  intros Ht Hv. unfold ordered_at, shown.
  assert (∀ h, h ∈ ordered_data o → is_Some (find_record h (records t))) as Hs.
  { intros h Hh. rewrite Hv in Hh. apply list_elem_of_fmap in Hh as ([h' v'] & -> & Hin).
    exists v'. by apply find_record_elem; [apply Ht|]. }
  clear Hv. revert i Hs. induction (ordered_data o) as [|h hs IH]; intros i Hs; [done|].
  destruct (Hs h) as [w Hw]; [set_solver|]. simpl. rewrite Hw. destruct i as [|i]; simpl.
  - unfold deref. rewrite Hw. naive_solver.
  - apply IH. set_solver.
Qed.

Lemma view_at t o i : table_ok t → view_ok t o → i < ordered_size o → ∃ v, ordered_at t o i = Ret v.
Proof.
  intros Ht Hv Hi. unfold ordered_at, ordered_size in *. apply lookup_lt_is_Some in Hi as [h Hh].
  rewrite Hh. apply list_elem_of_lookup_2 in Hh. rewrite Hv in Hh.
  apply list_elem_of_fmap in Hh as ([h' v] & -> & Hin). exists v. by apply deref_ok.
Qed.

(** The order on records that a view sorts by. *)
Definition value_less (w : W) (order : (W → V → V → result bool) * bool) (lhs rhs : V) : result bool :=
  if order.2 then order.1 w lhs rhs else order.1 w rhs lhs.

Lemma iterator_less_values w t order l r a b :
  table_ok t → (l, a) ∈ records t → (r, b) ∈ records t →
  iterator_less w t order l r = value_less w order a b.
Proof.
  intros Ht Ha%(deref_ok t) Hb%(deref_ok t); [|done..]. unfold iterator_less, value_less.
  destruct order as [predicate []]; by rewrite Ha, Hb.
Qed.

Lemma iterator_less_weak w t order :
  table_ok t → strict_weak (value_less w order) (values t) →
  strict_weak (iterator_less w t order) (records t).*1.
Proof.
  intros Ht [H1 H2 H3].
  assert (∀ h, h ∈ (records t).*1 → ∃ v, (h, v) ∈ records t ∧ v ∈ values t) as Hv.
  { intros h ([h' v] & -> & Hin)%list_elem_of_fmap. exists v. split; [done|].
    apply list_elem_of_fmap. by exists (h', v). }
  split.
  - intros l r (a & Ha & Ha')%Hv (b & Hb & Hb')%Hv. rewrite (iterator_less_values w t order l r a b); auto.
  - intros l r (a & Ha & Ha')%Hv (b & Hb & Hb')%Hv.
    rewrite (iterator_less_values w t order l r a b), (iterator_less_values w t order r l b a); auto.
  - intros l m r (a & Ha & Ha')%Hv (b & Hb & Hb')%Hv (c & Hc & Hc')%Hv.
    rewrite (iterator_less_values w t order l m a b), (iterator_less_values w t order m r b c),
      (iterator_less_values w t order l r a c); auto. by apply H3.
Qed.

Lemma shown_sorted w t order hs :
  table_ok t → hs ≡ₚ (records t).*1 → sorted_by (iterator_less w t order) hs →
  sorted_by (value_less w order) (omap (λ h, find_record h (records t)) hs).
Proof.
  intros Ht Hp Hs. assert (∀ h, h ∈ hs → h ∈ (records t).*1) as Hin by (intros h; by rewrite Hp).
  clear Hp. induction Hs as [|h hs Hs IH Hh]; [constructor|]. simpl.
  assert (sorted_by (value_less w order) (omap (λ h, find_record h (records t)) hs)) as Hr
    by (apply IH; set_solver).
  destruct (find_record h (records t)) as [a|] eqn:Ha; [|done]. constructor; [done|].
  apply Forall_forall. intros b (r & Hr' & Hb)%list_elem_of_omap. rewrite Forall_forall in Hh.
  rewrite <- (iterator_less_values w t order r h b a Ht); [by apply Hh|..];
    by apply find_record_elem; [apply Ht|].
Qed.

Lemma sort_view_ok w t o order :
  table_ok t → view_ok t o → sort_order o = Some order →
  strict_weak (value_less w order) (values t) →
  ∃ o', sort_view w t o = Ret o' ∧ view_ok t o' ∧ sort_order o' = Some order ∧
    shown t o' ≡ₚ values t ∧ sorted_by (value_less w order) (shown t o').
Proof.
  intros Ht Hv Ho Hw. unfold sort_view. rewrite Ho.
  destruct (sort_sorts (iterator_less w t order) (ordered_data o)) as (data & -> & Hp & Hs).
  { eapply strict_weak_perm; [by symmetry|]. by apply iterator_less_weak. }
  eexists. split; [done|]. assert (data ≡ₚ (records t).*1) as Hd by by rewrite Hp.
  split_and!; [done|done|by apply shown_values|by apply shown_sorted].
Qed.

(** Whatever the table has become since, fetching an ordered view shows every record of it once,
    none before one that the order of the view puts first; setting an order does the same for a view
    that is up to date. *)
Theorem ordered_sorts w t o predicate ascending :
  table_ok t → strict_weak (value_less w (predicate, ascending)) (values t) →
  (sort_order o = Some (predicate, ascending) →
     ∃ o', ordered_fetch w t o = Ret o' ∧ shown t o' ≡ₚ values t ∧
       sorted_by (value_less w (predicate, ascending)) (shown t o')) ∧
  (view_ok t o →
     ∃ o', ordered_set_order w t predicate ascending o = Ret o' ∧ shown t o' ≡ₚ values t ∧
       sorted_by (value_less w (predicate, ascending)) (shown t o')).
Proof.
  intros Ht Hw. unfold ordered_fetch, ordered_set_order. split.
  - intros Ho. destruct (sort_view_ok w t (mk_ordered (records t).*1 (sort_order o))
      (predicate, ascending)) as (o' & ? & _ & _ & ? & ?); [done|unfold view_ok; done|done|done|]. eauto.
  - intros Hv. destruct (sort_view_ok w t (mk_ordered (ordered_data o) (Some (predicate, ascending)))
      (predicate, ascending)) as (o' & ? & _ & _ & ? & ?); [done|unfold view_ok; done|done|done|]. eauto.
Qed.
End ordered.
Arguments ordered_view V W : clear implicits.

(** * Ranges *)

Section filter.
Context {V : Type}.

(** The predicate of a filter, if it has one. An iterator of the underlying range is what is left
    of the range. *)
Abbreviation filter_t := (option (V → bool)).

(** [views/filter.h:120-122] filter::match *)
Definition filter_match (f : filter_t) (value : V) : bool :=
  match f with None => true | Some predicate => predicate value end.

(** [views/filter.h:149-155] filter::const_iterator::find_next. Behind the first increment. *)
Fixpoint find_loop (f : filter_t) (underlying : list V) : list V :=
  match underlying with
  | [] => []
  | v :: rest => if filter_match f v then underlying else find_loop f rest
  end.

(** [views/filter.h:149-155] filter::const_iterator::find_next *)
Definition find_next (f : filter_t) (underlying : list V) : result (list V) :=
  match underlying with [] => UB | _ :: rest => Ret (find_loop f rest) end.

(** [views/filter.h:112-131] filter::begin. With the constructor of the iterator. *)
Definition filter_begin (f : filter_t) (l : list V) : result (list V) :=
  match l with
  | [] => Ret l
  | v :: _ => if negb (filter_match f v) then find_next f l else Ret l
  end.

(** [for (auto i = f.begin(); i != f.end(); ++i)]: what the loop sees. *)
Fixpoint filter_loop (fuel : nat) (f : filter_t) (i : list V) : option (result (list V)) :=
  match i with
  | [] => Some (Ret [])
  | v :: _ =>
    match fuel with
    | O => None
    | S fuel =>
      match find_next f i with
      | Ret i' => (λ r, l ← r; Ret (v :: l)) <$> filter_loop fuel f i'
      | Throw e => Some (Throw e)
      | UB => Some UB
      end
    end
  end.

Lemma find_loop_length f l : length (find_loop f l) ≤ length l.
Proof. induction l as [|v l IH]; simpl; [done|]. case_match; simpl; lia. Qed.

Lemma filter_begin_loop f l : filter_begin f l = Ret (find_loop f l).
Proof. destruct l as [|v l]; [done|]. simpl. by destruct (filter_match f v). Qed.

Lemma filter_loop_ok f fuel l : length l ≤ fuel →
  filter_loop fuel f (find_loop f l) = Some (Ret (List.filter (filter_match f) l)).
Proof.
  revert l. induction fuel as [|fuel IH]; intros l Hl.
  { by destruct l; [|simpl in Hl; lia]. }
  induction l as [|v l IHl]; [done|]. cbn [find_loop List.filter]. destruct (filter_match f v) eqn:E.
  - cbn [filter_loop find_next]. simpl in Hl. rewrite IH by lia. done.
  - apply IHl. simpl in Hl. lia.
Qed.

(** Going through a filtered range ends and sees the records that match, in their order; it never
    steps behind the end of the underlying range. *)
Theorem filter_iterates f l :
  ∃ i, filter_begin f l = Ret i ∧
    filter_loop (length l) f i = Some (Ret (List.filter (filter_match f) l)).
Proof. exists (find_loop f l). split; [apply filter_begin_loop|by apply filter_loop_ok]. Qed.
End filter.

Section flatten.
Context {U X : Type} (equal_range : U → list X).

(** [views/flatten.h:71-82] flatten::const_iterator. What is left of the outer range, and of the one in it. *)
Record flatten_iterator := mk_flat { l1 : list U; l2 : list X }.

(** [views/flatten.h:135-143] flatten::const_iterator::fetch *)
Definition flatten_fetch (i : flatten_iterator) : bool * flatten_iterator :=
  match l1 i with
  | [] => (true, i)
  | u :: _ => let r := equal_range u in
    (match r with [] => false | _ => true end, mk_flat (l1 i) r)
  end.

(** [views/flatten.h:121-122] flatten::const_iterator::operator ++. The loops advance before, or behind, a fetch that fails. *)
Fixpoint advance (outer : list U) (inner : list X) : flatten_iterator :=
  let '(found, i) := flatten_fetch (mk_flat outer inner) in
  if found then i else match outer with [] => i | _ :: rest => advance rest (l2 i) end.

(** [views/flatten.h:104-110] flatten::const_iterator::const_iterator *)
Definition flatten_begin (l : list U) : flatten_iterator := advance l [].

(** [views/flatten.h:116-124] flatten::const_iterator::operator ++ *)
Definition flatten_next (i : flatten_iterator) : result flatten_iterator :=
  match l1 i, l2 i with
  | _ :: outer, _ :: inner =>
    match inner with [] => Ret (advance outer inner) | _ => Ret (mk_flat (l1 i) inner) end
  | _, _ => UB
  end.

(** [views/flatten.h:126-132] flatten::const_iterator::operator ==. For two iterators of one range: they
    are told apart by how much is left. *)
Definition flatten_eq (lhs rhs : flatten_iterator) : bool :=
  (length (l1 lhs) =? length (l1 rhs)) && ((length (l1 lhs) =? 0) || (length (l2 lhs) =? length (l2 rhs))).

Fixpoint flatten_loop (fuel : nat) (end_ i : flatten_iterator) : option (result (list (U * X))) :=
  if flatten_eq i end_ then Some (Ret []) else
  match fuel, l1 i, l2 i with
  | S fuel, u :: _, x :: _ =>
    match flatten_next i with
    | Ret i' => (λ r, l ← r; Ret ((u, x) :: l)) <$> flatten_loop fuel end_ i'
    | Throw e => Some (Throw e)
    | UB => Some UB
    end
  | S _, _, _ => Some UB
  | O, _, _ => None
  end.

Definition flattened (l : list U) : list (U * X) := concat (map (λ u, map (pair u) (equal_range u)) l).

Lemma flatten_eq_end i rest : flatten_eq i (mk_flat [] rest) = (length (l1 i) =? 0).
Proof. unfold flatten_eq. simpl. by destruct (l1 i). Qed.

Lemma flatten_loop_end fuel i rest : l1 i = [] → flatten_loop fuel (mk_flat [] rest) i = Some (Ret []).
Proof. intros Hi. destruct fuel; simpl; by rewrite flatten_eq_end, Hi. Qed.

(** A fetch ends at the end, or at the first element that is left. *)
Lemma advance_position outer : ∀ prev,
  l1 (advance outer prev) = [] ∧ flattened outer = [] ∨
  ∃ u x inner rest, advance outer prev = mk_flat (u :: rest) (x :: inner) ∧
    flattened outer = map (pair u) (x :: inner) ++ flattened rest.
Proof.
  induction outer as [|u outer IH]; intros prev; [by left|]. cbn [advance].
  unfold flatten_fetch, flattened. simpl. destruct (equal_range u) as [|x inner] eqn:E; simpl.
  - apply IH.
  - right. by exists u, x, inner, outer.
Qed.

Lemma flatten_loop_ok fuel rest : ∀ u x inner outer,
  length (x :: inner) + length (flattened outer) ≤ fuel →
  flatten_loop fuel (mk_flat [] rest) (mk_flat (u :: outer) (x :: inner)) =
    Some (Ret (map (pair u) (x :: inner) ++ flattened outer)).
Proof.
  induction fuel as [|fuel IH]; intros u x inner outer Hf; simpl in Hf; [lia|].
  cbn [flatten_loop]. rewrite flatten_eq_end. cbn [l1 l2 length Nat.eqb]. unfold flatten_next. cbn [l1 l2].
  destruct inner as [|y inner].
  - destruct (advance_position outer []) as [[Hi Hl]|(v & y & inner & rest' & Ha & Hl)].
    + rewrite flatten_loop_end by done. by rewrite Hl.
    + rewrite Ha, Hl. rewrite Hl, length_app, length_map in Hf. rewrite IH by lia. done.
  - rewrite IH by (simpl in *; lia). done.
Qed.

(** Going through nested ranges ends and sees the elements of every one of them, in their order,
    the empty ones are passed over. *)
Theorem flatten_iterates l rest :
  flatten_loop (length (flattened l)) (mk_flat [] rest) (flatten_begin l) = Some (Ret (flattened l)).
Proof.
  unfold flatten_begin. destruct (advance_position l []) as [[Hi Hl]|(u & x & inner & rest' & -> & ->)].
  - by rewrite flatten_loop_end, Hl.
  - apply flatten_loop_ok. by rewrite length_app, length_map.
Qed.
End flatten.

(** * Rows that are followed *)

Definition npos : Z := u64 (-1).

Section trackables.
Context {V K : Type} `{EqDecision K} (get_key : V → K).

(** [frontend/trackables_provider.h:59-68] trackables_provider::trackable *)
Record trackable := mk_trackable { t_key : K; current_index : Z }.

(** The list of trackables, whose iterators the handles given out keep. *)
Abbreviation trackables_t := (table trackable).

(** [frontend/trackables_provider.h:107-112] trackables_provider::invalidate_trackables *)
Definition invalidate_trackables (ts : trackables_t) : trackables_t :=
  mk_table (map (λ '(h, j), (h, mk_trackable (t_key j) npos)) (records ts)) (next_handle ts).

(** [frontend/trackables_provider.h:90-94] trackables_provider::fetch. The inner loop. *)
Definition place_trackables (key : K) (i : nat) (ts : trackables_t) : trackables_t :=
  mk_table (map (λ '(h, j),
    (h, if decide (t_key j = key) then mk_trackable (t_key j) (Z.of_nat i) else j)) (records ts))
    (next_handle ts).

(** [frontend/trackables_provider.h:81-96] trackables_provider::fetch. [size] and [at_] are those of the view. *)
Definition trackables_fetch (size : nat) (at_ : nat → result V) (ts : trackables_t) : result trackables_t :=
  fold_m (λ ts i, v ← at_ i; Ret (place_trackables (get_key v) i ts)) (invalidate_trackables ts) (seq 0 size).

(** [frontend/trackables_provider.h:98-105] trackables_provider::track *)
Definition track_row (at_ : nat → result V) (index : nat) (ts : trackables_t) : result (nat * trackables_t) :=
  v ← at_ index; Ret (create (mk_trackable (get_key v) (Z.of_nat index)) ts).

(** [frontend/trackables_provider.h:104-104] trackables_provider::track. The deleter of a handle. *)
Definition untrack (h : nat) (ts : trackables_t) : trackables_t := erase h ts.

(** A trackable knows the row of its key, and that there is none. *)
Definition follows (rows : list V) (j : trackable) : Prop :=
  (current_index j = npos ∧ t_key j ∉ map get_key rows) ∨
  ∃ i v, current_index j = Z.of_nat i ∧ rows !! i = Some v ∧ get_key v = t_key j.

Lemma place_follows rows v ts :
  Forall (follows rows) (records ts).*2 →
  Forall (follows (rows ++ [v])) (records (place_trackables (get_key v) (length rows) ts)).*2.
Proof.
  rewrite !Forall_forall. intros Hf j (p & -> & Hp)%list_elem_of_fmap. simpl in Hp.
  apply list_elem_of_fmap in Hp as ([h k] & -> & Hin). simpl.
  assert (follows rows k) as Hk by (apply Hf, list_elem_of_fmap; by exists (h, k)).
  case_decide as E.
  - right. exists (length rows), v. simpl. split_and!; [done| |done].
    by rewrite lookup_app_r, Nat.sub_diag by lia.
  - destruct Hk as [[Hi Hn]|(i & w & Hi & Hw & Hk)].
    + left. split; [done|]. rewrite map_app, elem_of_app. simpl. set_solver.
    + right. exists i, w. split_and!; [done| |done]. by apply lookup_app_l_Some.
Qed.

Lemma place_keys key i ts :
  map (λ p, (p.1, t_key p.2)) (records (place_trackables key i ts)) =
  map (λ p, (p.1, t_key p.2)) (records ts).
Proof.
  simpl. rewrite map_map. apply map_ext. intros [h j]. simpl. by case_decide.
Qed.

(** A row that is followed is found again: after a fetch every trackable has the index of a row
    with its key, or [npos] when the row is gone; none is lost or changes its key. *)
Theorem trackables_follow at_ rows ts :
  (∀ i, i < length rows → at_ i = default UB (Ret <$> rows !! i)) →
  ∃ ts', trackables_fetch (length rows) at_ ts = Ret ts' ∧
    Forall (follows rows) (records ts').*2 ∧
    map (λ p, (p.1, t_key p.2)) (records ts') = map (λ p, (p.1, t_key p.2)) (records ts).
Proof.
  unfold trackables_fetch. induction rows as [|v rows IH] using rev_ind; intros Hat.
  - eexists. split; [done|]. simpl. split.
    + apply Forall_forall. intros j (p & -> & Hp)%list_elem_of_fmap. simpl in Hp.
      apply list_elem_of_fmap in Hp as ([h k] & -> & Hin). left. simpl. set_solver.
    + rewrite map_map. apply map_ext. by intros [].
  - rewrite length_app in *. simpl in *. rewrite seq_app, fold_m_app. destruct IH as (ts' & -> & Hf & Hk).
    { intros i Hi. rewrite Hat by lia. by rewrite lookup_app_l. }
    cbn [mbind result_bind seq fold_m]. rewrite Nat.add_0_l, Hat by lia.
    rewrite lookup_app_r, Nat.sub_diag by lia. simpl. eexists. split; [done|].
    split; [by apply place_follows|by rewrite place_keys].
Qed.
End trackables.
