(* ===== verification/Histogram.v ===== *)
(** Histograms (math/histogram.h, math/scale.h, math/variant_scale.h).

    A histogram counts values in the bins of a scale, and finds the values below which a share of the
    counts lies.  The scales compute with floating point numbers; what they do with integers is here,
    the rest are parameters. *)

From S2P Require Import Prelude Views.
Local Open Scope Z_scope.

(** * Scales *)

(** What a histogram takes a scale for: a number of bins, the bin of a value, the value of a bin. *)
Class scale (X S : Type) := {
  samples : S → nat;
  convert : S → X → result (option nat);
  value_at : S → nat → X;
  same_scale : S → S → bool;
  convert_below s x i : convert s x = Ret (Some i) → (i < samples s)%nat;
  same_scale_eq s t : same_scale s t = true ↔ s = t;
}.

(** What a scale is made of; the rest is computed. *)
(** [math/scale.h:46-54] linear_scale. *)
Record bounds {X : Type} := mk_bounds { near_value : X; far_value : X; samples_ : nat }.
Arguments bounds X : clear implicits.
Arguments mk_bounds {X} _ _ _.

(** [math/scale.h:90-101] linear_scale::linear_scale. *)
Definition new_linear {X} (zero : X) (leb : X → X → bool) (near far : X) (samples : nat) : result (bounds X) :=
  if (samples =? 0)%nat then Ret (mk_bounds zero zero 0)
  else if leb far near then Throw invalid_argument
  else Ret (mk_bounds near far samples).

(** [index_of] is the value less the base, times the factor, without its fraction; it is cast to an
    integer of 32 bits, which has no defined result for one that does not fit. *)
(** [math/scale.h:128-138] linear_scale::operator (). *)
Definition linear_convert {X} (index_of : bounds X → X → Z) (s : bounds X) (value : X) : result (option nat) :=
  match samples_ s with
  | O => Ret None
  | S last =>
    let index := index_of s value in
    if negb (bool_decide (in_s 32 index)) then UB
    else Ret (Some (if index <? 0 then 0%nat else if s32 (Z.of_nat last) <? index then last else Z.to_nat index))
  end.

Lemma s32_below n : 0 ≤ n → s32 n ≤ n.
Proof.
  intros. unfold sw. pose proof (Z.mod_le (n + 2 ^ (32 - 1)) (2 ^ 32) ltac:(lia) ltac:(lia)). lia.
Qed.

Lemma linear_below {X} (f : bounds X → X → Z) s x i : linear_convert f s x = Ret (Some i) → (i < samples_ s)%nat.
Proof.
  unfold linear_convert. destruct (samples_ s) as [|last]; [done|]. destruct (negb _); [done|]. intros [= <-].
  pose proof (s32_below (Z.of_nat last)).
  destruct (Z.ltb_spec (f s x) 0), (Z.ltb_spec (s32 (Z.of_nat last)) (f s x)); lia.
Qed.

(** A value whose bin would be too far to the right is not put into the last one. *)
Lemma far_value_undefined {X} (index_of : bounds X → X → Z) s x :
  samples_ s ≠ 0%nat → 2 ^ 31 ≤ index_of s x → linear_convert index_of s x = UB.
Proof.
  intros Hs Hx. unfold linear_convert. destruct (samples_ s); [done|]. rewrite bool_decide_false; [done|].
  unfold in_s. lia.
Qed.

Section scales.
(** [lg] is the logarithm of a value, and [pow] its inverse. *)
Context {X L : Type} `{EqDecision X} (zero : X) (leb : X → X → bool) (lzero : L) (lleb : L → L → bool).
Context (index_of : bounds X → X → Z) (center : bounds X → nat → X).
Context (lg : X → L) (pow : L → X) (lg_index_of : bounds L → L → Z) (lg_center : bounds L → nat → L).

(** The inner scale, of the logarithms of the bounds. *)
Definition inner (s : bounds X) : bounds L :=
  match samples_ s with
  | O => mk_bounds lzero lzero 0
  | n => mk_bounds (lg (near_value s)) (lg (far_value s)) n
  end.

(** [math/scale.h:151-153] log_scale::log_scale. *)
Definition new_log (near far : X) (samples : nat) : result (bounds X) :=
  _ ← new_linear lzero lleb (lg near) (lg far) samples;
  Ret (mk_bounds near far samples).

(** [math/scale.h:168-169] log_scale::operator (). *)
Definition log_convert (s : bounds X) (value : X) : result (option nat) :=
  if leb value zero then Ret None else linear_convert lg_index_of (inner s) (lg value).

(** [math/variant_scale.h:28-33] variant_scale. *)
Inductive variant_scale := v_log (s : bounds X) | v_linear (s : bounds X).

(** [math/variant_scale.h:97-99] variant_scale::samples. *)
Definition variant_samples (s : variant_scale) : nat :=
  match s with v_log s => samples_ (inner s) | v_linear s => samples_ s end.

(** [math/variant_scale.h:101-106] variant_scale::operator (). *)
Definition variant_convert (s : variant_scale) (value : X) : result (option nat) :=
  match s with v_log s => log_convert s value | v_linear s => linear_convert index_of s value end.

(** [math/variant_scale.h:108-113] variant_scale::operator []. *)
Definition variant_at (s : variant_scale) (i : nat) : X :=
  match s with v_log s => pow (lg_center (inner s) i) | v_linear s => center s i end.

(** [math/scale.h:181-183] scale_eq. *)
Definition scale_eq (s t : bounds X) : bool :=
  bool_decide (samples_ s = samples_ t) && bool_decide (near_value s = near_value t) &&
  bool_decide (far_value s = far_value t).

(** [math/variant_scale.h:116-121] operator ==. *)
Definition variant_eq (s t : variant_scale) : bool :=
  match s, t with
  | v_log s, v_log t | v_linear s, v_linear t => scale_eq s t
  | _, _ => false
  end.

Lemma scale_eq_iff s t : scale_eq s t = true ↔ s = t.
Proof.
  unfold scale_eq. rewrite !andb_true_iff, !bool_decide_eq_true. destruct s, t; simpl.
  split; [by intros [[-> ->] ->]|by intros [= -> -> ->]].
Qed.

Lemma variant_below s x i : variant_convert s x = Ret (Some i) → (i < variant_samples s)%nat.
Proof.
  destruct s as [s|s]; simpl; [|apply linear_below]. unfold log_convert.
  destruct (leb x zero); [done|]. apply linear_below.
Qed.

Lemma variant_eq_iff s t : variant_eq s t = true ↔ s = t.
Proof.
  destruct s, t; simpl; rewrite ?scale_eq_iff; try (by split; [intros ->|intros [= ->]]); done.
Qed.

#[export] Instance variant_is_scale : scale X variant_scale := {|
  samples := variant_samples; convert := variant_convert; value_at := variant_at; same_scale := variant_eq;
  convert_below := variant_below; same_scale_eq := variant_eq_iff |}.

#[export] Instance linear_is_scale : scale X (bounds X) := {|
  samples := samples_; convert := linear_convert index_of; value_at := center; same_scale := scale_eq;
  convert_below := linear_below index_of; same_scale_eq := scale_eq_iff |}.
End scales.

(** * Histograms *)

Section histogram.
Context {X S : Type} `{SC : scale X S} `{SO : std_sort}.
(** [interp previous next part whole] is the value [part / whole] of the way from [previous] to [next]. *)
Context (interp : X → X → Z → Z → X).

(** [math/histogram.h:30-60] histogram. *)
Record histogram := mk_histogram { bins : list Z; scale_ : S }.

(** The bins are those of the scale. *)
Definition histogram_ok (h : histogram) : Prop := length (bins h) = samples (scale_ h).

(** [math/histogram.h:76-81] histogram::set_scale. *)
Definition set_scale (s : S) (h : histogram) : histogram := mk_histogram (replicate (samples s) 0) s.

(** [math/histogram.h:83-90] histogram::add. *)
Definition add_value (at_ : X) (d : Z) (h : histogram) : result histogram :=
  i ← convert (scale_ h) at_;
  match i with
  | None => Ret h
  | Some i =>
    match bins h !! i with
    | Some n => Ret (mk_histogram (<[i := n + d]> (bins h)) (scale_ h))
    | None => UB
    end
  end.

(** [math/histogram.h:132-134] histogram::reset. *)
Definition reset (h : histogram) : histogram := mk_histogram (replicate (length (bins h)) 0) (scale_ h).

(** [math/histogram.h:137-153] operator +=. *)
Definition merge (lhs rhs : histogram) : histogram :=
  if same_scale (scale_ lhs) (scale_ rhs)
  then mk_histogram (zip_with Z.add (bins lhs) (bins rhs)) (scale_ lhs)
  else rhs.

(** The first bin that is not empty, but for the last, with its count. *)
(** [math/histogram.h:98-107] histogram::find_partitions. *)
Fixpoint first_bin (j : nat) (bs : list Z) : nat * Z :=
  match bs with
  | b :: (_ :: _) as rest => if b =? 0 then first_bin (1 + j) rest else (j, b)
  | _ => (j, 0)
  end.

(** The values up to [limit] get their locations, the others are left. *)
Fixpoint place_up_to (limit : Z) (place : Z → result X) (ms : list Z) : result (list (Z * X) * list Z) :=
  match ms with
  | m :: ms' =>
    if m <=? limit then
      x ← place m;
      '(placed, rest) ← place_up_to limit place ms';
      Ret ((m, x) :: placed, rest)
    else Ret ([], ms)
  | [] => Ret ([], [])
  end.

(** The bins from [i] on; [sum] is what is counted before them, [j] the last of the others that is not
    empty.  A value in an empty bin would divide by zero. *)
(** [math/histogram.h:112-129] histogram::find_partitions. *)
Fixpoint place_bins (s : S) (i j : nat) (sum : Z) (bs ms : list Z) : result (list (Z * X)) :=
  match bs with
  | [] => Ret (map (λ m, (m, value_at s j)) ms)
  | d :: bs =>
    let place m := if d =? 0 then UB else Ret (interp (value_at s j) (value_at s i) (m - sum) d) in
    '(placed, ms) ← place_up_to (sum + d) place ms;
    more ← place_bins s (1 + i) (if d =? 0 then j else i) (sum + d) bs ms;
    Ret (placed ++ more)
  end.

(** The partitions by their [midvalue]s, with the locations that are found for them. *)
(** [math/histogram.h:92-130] histogram::find_partitions. *)
Definition find_partitions (midvalues : list Z) (h : histogram) : result (list (Z * X)) :=
  ms ← sort (λ a b, Ret (a <? b)) midvalues;
  let '(j, sum) := first_bin 0 (bins h) in
  '(placed, ms) ← place_up_to sum (λ _, Ret (value_at (scale_ h) j)) ms;
  more ← place_bins (scale_ h) (1 + j) j sum (drop (1 + j) (bins h)) ms;
  Ret (placed ++ more).

(** ** Counting *)

Lemma add_ok at_ d h : histogram_ok h → returns (convert (scale_ h) at_) →
  ∃ h', add_value at_ d h = Ret h' ∧ histogram_ok h' ∧ scale_ h' = scale_ h.
Proof.
  intros Hh Hc. unfold add_value. destruct (convert (scale_ h) at_) as [[i|]| |] eqn:E; try done; simpl; [|by exists h].
  apply convert_below in E. unfold histogram_ok in Hh. rewrite <- Hh in E. apply lookup_lt_is_Some in E as [n ->].
  eexists. split; [done|]. split; [|done]. unfold histogram_ok. simpl. by rewrite length_insert.
Qed.

(** All the values of a list. *)
Definition count (xs : list (X * Z)) (h : histogram) : result histogram :=
  fold_m (λ h x, add_value x.1 x.2 h) h xs.

Lemma merge_add at_ d a b b' : histogram_ok a → histogram_ok b → scale_ a = scale_ b →
  add_value at_ d b = Ret b' → add_value at_ d (merge a b) = Ret (merge a b').
Proof.
  intros Ha Hb Hs. unfold add_value, merge. rewrite (proj2 (same_scale_eq _ _) Hs). simpl. rewrite Hs.
  destruct (convert (scale_ b) at_) as [[i|]| |] eqn:E; simpl; [|intros [= <-]; by rewrite (proj2 (same_scale_eq _ _) eq_refl)|done..].
  destruct (bins b !! i) as [n|] eqn:En; [|done]. intros [= <-]. simpl. rewrite (proj2 (same_scale_eq _ _) eq_refl).
  unfold histogram_ok in *. rewrite Hs, <- Hb in Ha. pose proof (lookup_lt_Some _ _ _ En) as Hlt.
  rewrite <- Ha in Hlt. apply lookup_lt_is_Some in Hlt as [m Hm]. rewrite lookup_zip_with, Hm, En. simpl.
  do 2 f_equal. apply list_eq. intros k. rewrite !lookup_zip_with.
  destruct (decide (k = i)) as [->|Hk].
  - rewrite Hm. simpl. rewrite !list_lookup_insert_eq; simpl; [f_equal; lia|by eapply lookup_lt_Some|].
    rewrite length_zip_with. apply lookup_lt_Some in Hm, En. lia.
  - rewrite !list_lookup_insert_ne, lookup_zip_with by done. done.
Qed.

Lemma merge_ok a b : histogram_ok a → histogram_ok b → scale_ a = scale_ b →
  histogram_ok (merge a b) ∧ scale_ (merge a b) = scale_ b.
Proof.
  intros Ha Hb Hs. unfold merge, histogram_ok in *. rewrite (proj2 (same_scale_eq _ _) Hs). simpl.
  rewrite length_zip_with, Ha, Hb, Hs. split; [lia|done].
Qed.

Lemma merge_count xs : ∀ a b b', histogram_ok a → histogram_ok b → scale_ a = scale_ b →
  count xs b = Ret b' → count xs (merge a b) = Ret (merge a b').
Proof.
  unfold count. induction xs as [|[x d] xs IH]; intros a b b' Ha Hb Hs; cbn [fold_m fst snd]; [by intros [= ->]|].
  destruct (add_value x d b) as [b1| |] eqn:E; simpl; [|done..]. intros Hr. rewrite (merge_add x d a b b1) by done. simpl.
  assert (returns (convert (scale_ b) x)) as Hc.
  { unfold add_value in E. by destruct (convert (scale_ b) x). }
  destruct (add_ok x d b Hb Hc) as (b2 & E2 & Hb2 & Hs2). rewrite E in E2. apply Ret_inj in E2 as <-.
  apply IH; [done|done|congruence|done].
Qed.

Lemma merge_zero a s : histogram_ok a → scale_ a = s → merge a (mk_histogram (replicate (samples s) 0) s) = a.
Proof.
  intros Ha <-. unfold merge. simpl. rewrite (proj2 (same_scale_eq _ _) eq_refl). destruct a as [bs s]. simpl. f_equal.
  unfold histogram_ok in Ha. simpl in Ha. rewrite <- Ha. apply list_eq. intros k. rewrite lookup_zip_with.
  destruct (bs !! k) as [n|] eqn:E; simpl; [|done]. rewrite lookup_replicate_2 by (by eapply lookup_lt_Some).
  simpl. f_equal. lia.
Qed.

Lemma count_ok s xs h0 a : count xs (set_scale s h0) = Ret a → histogram_ok a ∧ scale_ a = s.
Proof.
  unfold count. apply (fold_m_invariant _ (λ h, histogram_ok h ∧ scale_ h = s)).
  - intros h x h' [Hh Hsh] E. assert (returns (convert (scale_ h) x.1)) as Hc
      by (unfold add_value in E; by destruct (convert (scale_ h) x.1)).
    destruct (add_ok x.1 x.2 h Hh Hc) as (h'' & E2 & Hh2 & Hs2). rewrite E in E2. apply Ret_inj in E2 as <-.
    split; [done|congruence].
  - split; [|done]. unfold histogram_ok, set_scale. simpl. apply length_replicate.
Qed.

(** Adding up histograms of the same scale is counting all the values at once. *)
Theorem merge_counts_together s xs ys a b h0 :
  count xs (set_scale s h0) = Ret a → count ys (set_scale s h0) = Ret b →
  count (xs ++ ys) (set_scale s h0) = Ret (merge a b).
Proof.
  intros Ha Hb. unfold count. rewrite fold_m_app. fold (count xs (set_scale s h0)). rewrite Ha. simpl.
  fold (count ys a).
  destruct (count_ok s xs h0 a Ha) as [Hok Hs].
  apply (merge_count ys a (set_scale s h0) b) in Hb; [|done| |done].
  - unfold set_scale in Hb at 1. by rewrite merge_zero in Hb.
  - unfold histogram_ok, set_scale. simpl. apply length_replicate.
Qed.

(** ** Locating *)

Definition total (l : list Z) : Z := foldr Z.add 0 l.

Lemma total_app l l' : total (l ++ l') = total l + total l'.
Proof. unfold total. induction l as [|x l IH]; simpl; lia. Qed.

Lemma total_take_S l i d : l !! i = Some d → total (take (1 + i) l) = total (take i l) + d.
Proof. intros Hi. change (1 + i)%nat with (Datatypes.S i). rewrite (take_S_r _ _ _ Hi), total_app. simpl. lia. Qed.

Lemma total_zero l : Forall (λ n, n = 0) l → total l = 0.
Proof. induction 1; simpl; lia. Qed.

(** Where a value lies: at the first bin that is not empty, at the last one, or, in the bin where the
    counts reach it, between this and the last one before it that is not empty. *)
Inductive located (bs : list Z) (s : S) (m : Z) : X → Prop :=
  | at_first j :
    (∀ k, (k < j)%nat → bs !! k = Some 0) → m ≤ total (take (1 + j) bs) ∨ (length bs ≤ 1 + j)%nat →
    located bs s m (value_at s j)
  | between j i d :
    (j < i)%nat → (∀ k, (j < k < i)%nat → bs !! k = Some 0) → bs !! i = Some d → 0 < d →
    0 < m - total (take i bs) ≤ d → located bs s m (interp (value_at s j) (value_at s i) (m - total (take i bs)) d)
  | at_last j :
    total bs < m → (∀ k, (j < k < length bs)%nat → bs !! k = Some 0) → located bs s m (value_at s j).

Lemma place_up_to_ok limit place ms : StronglySorted Z.le ms →
  (∀ m, m ∈ ms → m ≤ limit → ∃ x, place m = Ret x) →
  ∃ placed rest, place_up_to limit place ms = Ret (placed, rest) ∧ ms = placed.*1 ++ rest ∧
    Forall (λ p, p.1 ≤ limit ∧ place p.1 = Ret p.2) placed ∧ Forall (λ m, limit < m) rest.
Proof.
  induction 1 as [|m ms Hms IH Hm]; intros Hp; cbn [place_up_to]; [by exists [], []|].
  destruct (Z.leb_spec m limit) as [Hle|Hlt].
  - destruct (Hp m) as [x Hx]; [by left|done|]. rewrite Hx. simpl.
    destruct IH as (placed & rest & Hr & -> & Hpl & Hre); [intros; apply Hp; [by right|done]|]. rewrite Hr. simpl.
    exists ((m, x) :: placed), rest. split_and!; [done..| |done]. constructor; done.
  - exists [], (m :: ms). split_and!; [done..|]. constructor; [done|].
    eapply Forall_impl; [exact Hm|]. simpl. lia.
Qed.

Lemma sorted_rest (l1 l2 : list Z) : StronglySorted Z.le (l1 ++ l2) → StronglySorted Z.le l2.
Proof. induction l1 as [|x l1 IH]; [done|]. intros H. apply IH. by inversion H. Qed.

Lemma place_bins_ok bs s : Forall (λ n, 0 ≤ n) bs → ∀ n i j ms, (n = length bs - i)%nat → (j < i)%nat →
  (∀ k, (j < k < i)%nat → bs !! k = Some 0) → StronglySorted Z.le ms →
  Forall (λ m, total (take i bs) < m) ms → (i ≤ length bs)%nat →
  ∃ ps, place_bins s i j (total (take i bs)) (drop i bs) ms = Ret ps ∧ ps.*1 = ms ∧
    Forall (λ p, located bs s p.1 p.2) ps.
Proof.
  intros Hbs. induction n as [|n IH]; intros i j ms Hn Hj Hz Hs Hms Hi.
  { rewrite drop_ge by lia. cbn [place_bins]. eexists. split; [done|].
    rewrite take_ge in Hms by lia. split; [rewrite <- list_fmap_compose; apply list_fmap_id|].
    apply Forall_fmap. eapply Forall_impl; [exact Hms|]. intros m Hm. simpl. apply at_last; [done|].
    intros k Hk. apply Hz. lia. }
  destruct (lookup_lt_is_Some_2 bs i ltac:(lia)) as [d Hd].
  rewrite (drop_S _ _ _ Hd). cbn [place_bins]. rewrite Forall_lookup in Hbs. pose proof (Hbs _ _ Hd) as Hd0. simpl in Hd0.
  set (place m := if d =? 0 then UB else Ret _).
  destruct (place_up_to_ok (total (take i bs) + d) place ms Hs) as (placed & rest & -> & Hsplit & Hpl & Hre).
  { intros m Hm Hle. rewrite Forall_forall in Hms. specialize (Hms m Hm). unfold place.
    destruct (Z.eqb_spec d 0); [lia|]. by eexists. }
  simpl. assert (total (take (1 + i) bs) = total (take i bs) + d) as Ht by (by apply total_take_S).
  destruct (IH (1 + i)%nat (if d =? 0 then j else i) rest) as (ps & Hr & Hps & Hloc); [lia| | |..].
  - destruct (d =? 0); lia.
  - intros k Hk. destruct (Z.eqb_spec d 0) as [->|]; [|lia]. destruct (decide (k = i)) as [->|]; [done|]. apply Hz. lia.
  - rewrite Hsplit in Hs. by apply sorted_rest in Hs.
  - rewrite Ht. done.
  - lia.
  - rewrite Ht in Hr. change (1 + i)%nat with (Datatypes.S i) in Hr. rewrite Hr. simpl. eexists. split; [done|].
    split; [rewrite fmap_app; by rewrite Hsplit, Hps|]. apply Forall_app. split; [|done].
    rewrite Forall_forall. intros [m x] Hin. rewrite Forall_forall in Hpl. destruct (Hpl _ Hin) as [Hle Hx].
    simpl in *. assert (m ∈ ms) as Hm by (rewrite Hsplit; apply elem_of_app; left; apply list_elem_of_fmap; by exists (m, x)).
    rewrite Forall_forall in Hms. specialize (Hms m Hm). unfold place in Hx.
    destruct (Z.eqb_spec d 0) as [|]; [done|]. injection Hx as <-. apply between; [done..|lia|lia].
Qed.

Lemma first_bin_ok bs : ∀ j, let '(r, sum) := first_bin j bs in
  (j ≤ r)%nat ∧ (∀ k, (k < r - j)%nat → bs !! k = Some 0) ∧ ((length bs ≤ 1 + (r - j))%nat ∧ sum = 0 ∨
    (1 + (r - j) < length bs)%nat ∧ bs !! (r - j)%nat = Some sum) ∧ ((r - j < length bs)%nat ∨ bs = []).
Proof.
  induction bs as [|b bs IH]; intros j; [simpl; split_and!; auto; lia|].
  destruct bs as [|b' bs]; [simpl; split_and!; auto; lia|].
  change (first_bin j (b :: b' :: bs)) with (if b =? 0 then first_bin (1 + j) (b' :: bs) else (j, b)).
  destruct (Z.eqb_spec b 0) as [->|Hb].
  - specialize (IH (1 + j)%nat). destruct (first_bin (1 + j) (b' :: bs)) as [r sum].
    destruct IH as (Hr & Hz & Hor & Hlt). assert (r - j = 1 + (r - (1 + j)))%nat as -> by lia.
    split; [lia|]. split; [intros [|k] Hk; [done|apply (Hz k); lia]|].
    cbn [length] in *. split; [|left; destruct Hlt; [lia|done]].
    destruct Hor as [[? ?]|[? ?]]; [left|right]; (split; [lia|done]).
  - split; [lia|]. rewrite Nat.sub_diag. cbn [length]. split_and!; [lia|right; split; [lia|done]|left; lia].
Qed.

Lemma sorted_le (l : list Z) : sorted_by (λ a b, Ret (a <? b)) l → StronglySorted Z.le l.
Proof.
  induction 1 as [|x l _ IH Hx]; constructor; [done|]. eapply Forall_impl; [exact Hx|].
  simpl. intros y [= Hy]. lia.
Qed.

(** Looking for any partitions of a histogram finds a location for each of them, in their order, and
    never divides by the count of an empty bin: the location is at the first or the last bin that
    is not empty, or between the bin where the counts reach the partition and the last one before it
    that is not empty, as far from it as the partition is into the count of the bin. *)
Theorem partitions_located midvalues h :
  histogram_ok h → Forall (λ n, 0 ≤ n) (bins h) →
  ∃ ps, find_partitions midvalues h = Ret ps ∧ Permutation ps.*1 midvalues ∧ StronglySorted Z.le ps.*1 ∧
    Forall (λ p, located (bins h) (scale_ h) p.1 p.2) ps.
Proof.
  intros Hh Hbs. unfold find_partitions.
  destruct (sort_sorts (λ a b, Ret (a <? b)) midvalues) as (ms & -> & Hp & Hs).
  { split; [eauto|..]; intros; simplify_eq; f_equal; lia. }
  apply sorted_le in Hs. simpl. pose proof (first_bin_ok (bins h) 0) as Hf.
  destruct (first_bin 0 (bins h)) as [j sum]. destruct Hf as (_ & Hz & Hor & Hlt). rewrite Nat.sub_0_r in *.
  assert (total (take j (bins h)) = 0) as Hzero.
  { apply total_zero, Forall_lookup. intros k n Hk. apply lookup_take_Some in Hk as [Hk Hkj].
    specialize (Hz k Hkj). congruence. }
  destruct (place_up_to_ok sum (λ _, Ret (value_at (scale_ h) j)) ms Hs) as (placed & rest & -> & Hsplit & Hpl & Hre); [eauto|].
  simpl. assert (∃ ps, place_bins (scale_ h) (1 + j) j sum (drop (1 + j) (bins h)) rest = Ret ps ∧ ps.*1 = rest ∧
    Forall (λ p, located (bins h) (scale_ h) p.1 p.2) ps) as (ps & Hr & Hps & Hloc).
  { destruct Hor as [[Hlen ->]|[Hlen Hj]].
    - rewrite drop_ge by lia. cbn [place_bins]. eexists. split; [done|].
      split; [rewrite <- list_fmap_compose; apply list_fmap_id|]. apply Forall_fmap, Forall_true. intros m.
      apply at_first; [done|]. right. lia.
    - pose proof (total_take_S _ _ _ Hj) as Ht. rewrite Hzero, Z.add_0_l in Ht. rewrite <- Ht.
      apply (place_bins_ok _ _ Hbs (length (bins h) - (1 + j))); [done|lia|lia| |by rewrite Ht|lia].
      rewrite Hsplit in Hs. by apply sorted_rest in Hs. }
  simpl in Hr. rewrite Hr. simpl. eexists. split; [done|].
  assert ((placed ++ ps).*1 = ms) as Hms by (by rewrite fmap_app, Hps, Hsplit).
  rewrite Hms. split; [done|]. split; [done|]. apply Forall_app. split; [|done].
  eapply Forall_impl; [exact Hpl|]. intros [m x] [Hm [= <-]]. simpl in *. apply at_first; [done|].
  destruct Hor as [[Hlen _]|[_ Hj]]; [by right|left]. rewrite (total_take_S _ _ _ Hj). lia.
Qed.
End histogram.

(** * Ten bins *)

(** Integers instead of floating point numbers. *)
Definition demo_index (s : bounds Z) (v : Z) : Z :=
  let n := Z.of_nat (samples_ s) - 1 in let w := far_value s - near_value s in
  Z.quot (2 * n * (v - near_value s) + w) (2 * w).
Definition demo_center (s : bounds Z) (i : nat) : Z :=
  near_value s + Z.quot ((far_value s - near_value s) * Z.of_nat i) (Z.of_nat (samples_ s) - 1).
Definition demo_interp (previous next part whole : Z) : Z := previous + Z.quot ((next - previous) * part) whole.

#[local] Instance demo_sort : std_sort := {| sort := @insert_all; sort_sorts := @insert_all_sorts |}.
#[local] Instance demo_scale : scale Z (bounds Z) := linear_is_scale demo_index demo_center.

Definition demo_bounds : bounds Z := mk_bounds 0 90 10.
Definition demo_empty : histogram (S := bounds Z) := mk_histogram [] demo_bounds.
Definition demo_count (xs : list (Z * Z)) : histogram (S := bounds Z) :=
  match count xs (set_scale demo_bounds demo_empty) with Ret h => h | _ => demo_empty end.

(** The last value is far out, but not too far. *)
Definition demo_histogram : histogram (S := bounds Z) := demo_count [(4, 1); (3, 1); (85, 2); (47, 6); (-30, 1); (1000, 1)].

Lemma demo_histogram_bins : bins demo_histogram = [3; 0; 0; 0; 0; 6; 0; 0; 0; 3].
Proof. vm_compute. reflexivity. Qed.

Lemma merge_counts_together_witness :
  count ([(4, 1); (3, 1)] ++ [(85, 2)]) (set_scale demo_bounds demo_empty) =
    Ret (merge (demo_count [(4, 1); (3, 1)]) (demo_count [(85, 2)])).
Proof. apply (merge_counts_together demo_bounds); vm_compute; reflexivity. Defined.

Lemma partitions_located_witness :
  ∃ ps, find_partitions demo_interp [11; 6; 2; 20] demo_histogram = Ret ps ∧ Permutation ps.*1 [11; 6; 2; 20] ∧
    StronglySorted Z.le ps.*1 ∧
    Forall (λ p, located demo_interp (bins demo_histogram) (scale_ demo_histogram) p.1 p.2) ps.
Proof.
  apply (partitions_located demo_interp); [vm_compute; reflexivity|].
  rewrite demo_histogram_bins. repeat constructor; discriminate.
Defined.

Lemma demo_partitions :
  find_partitions demo_interp [11; 6; 2; 20] demo_histogram = Ret [(2, 0); (6, 25); (11, 76); (20, 90)].
Proof. vm_compute. reflexivity. Qed.
