(* ===== verification/Models.v ===== *)
(** The models the windows of the front-end are bound to: the column a chart shows
    (frontend/projection_view.h), the table of a view (frontend/table_model_impl.h) and the set of
    selected items (frontend/selection_model.h).

    A table model composes the ordered view, the trackables and the projection of [Views] with the
    order of [Hierarchy]; a selection is a table of keys with a unique index of [Sdb]. *)

From S2P Require Import Prelude Sdb Hierarchy Views.

(** * Columns and projections *)

(** [W] is the context of a model: the tables its closures look into. *)
Section models.
Context {V W K D Text : Type} `{EqDecision K} `{std_sort}.
Context (get_key : V → K) (access_hierarchy : W → hierarchy V) (zero : D).

(** [frontend/column_definition.h:28-39] column_definition. What the model uses of it. *)
Record column_definition := mk_column {
  get_text : W → nat → V → Text;
  compare : option (W → V → V → Z);
  get_value : option (W → V → D)
}.

(** [frontend/projection_view.h:53-57] projection_view. [p_invalidated] are the signals it has sent. *)
Record projection_view := mk_projection {
  p_trackables : table (trackable (K := K));
  extractor : option (W → V → D);
  p_invalidated : list Z
}.

(** [frontend/projection_view.h:66-71] projection_view::fetch *)
Definition projection_fetch (size : nat) (at_ : nat → result V) (p : projection_view) :
    result projection_view :=
  ts ← trackables_fetch get_key size at_ (p_trackables p);
  Ret (mk_projection ts (extractor p) (p_invalidated p ++ [npos])).

(** [frontend/projection_view.h:73-85] projection_view::project *)
Definition project (e : option (W → V → D)) (p : projection_view) : projection_view :=
  mk_projection (p_trackables p) e (p_invalidated p ++ [npos]).

(** [frontend/projection_view.h:87-89] projection_view::get_count *)
Definition projection_count (size : nat) (p : projection_view) : nat :=
  match extractor p with Some _ => size | None => 0 end.

(** [frontend/projection_view.h:91-93] projection_view::get_value *)
Definition projection_value (w : W) (at_ : nat → result V) (index : nat) (p : projection_view) : result D :=
  match extractor p with Some e => v ← at_ index; Ret (e w v) | None => Ret zero end.

(** * Table models *)

(** [frontend/table_model_impl.h:69-76] table_model_impl *)
Record table_model := mk_model {
  m_ordered : ordered_view V W;
  m_trackables : table (trackable (K := K));
  m_projection : projection_view;
  columns : list column_definition;
  m_invalidated : list Z
}.

(** [frontend/table_model_impl.h:146-165] table_model_impl::set_order. The order of a column, down or up the scale. *)
Definition compare_bound (compare : W → V → V → Z) (ascending : bool) (w : W) (lhs rhs : V) : Z :=
  if ascending then compare w lhs rhs else compare w rhs lhs.

(** [frontend/table_model_impl.h:152-154] table_model_impl::set_order. The predicate the rows are sorted by. *)
Definition row_less (compare : W → V → V → Z) (w : W) (lhs rhs : V) : result bool :=
  hierarchical_less (H := access_hierarchy w) (compare w) lhs rhs.

(** [frontend/table_model_impl.h:175-177] table_model_impl::set_order. Without a column: siblings by their identifiers. *)
Definition no_compare (w : W) (lhs rhs : V) : Z := 0.

(** [frontend/table_model_impl.h:80-89] table_model_impl::table_model_impl *)
Definition new_model (w : W) (t : table V) : result table_model :=
  o ← ordered_set_order w t (row_less no_compare) true (new_ordered t);
  Ret (mk_model o empty_table (mk_projection empty_table None []) [] []).

(** [frontend/table_model_impl.h:103-106] table_model_impl::add_columns *)
Definition add_columns (cs : list column_definition) (m : table_model) : table_model :=
  mk_model (m_ordered m) (m_trackables m) (m_projection m) (columns m ++ cs) (m_invalidated m).

Definition with_order (m : table_model) (o : ordered_view V W) (p : projection_view) (sent : list Z) :
    table_model :=
  mk_model o (m_trackables m) p (columns m) (m_invalidated m ++ sent).

(** The rows are counted again by both: the last lines of [fetch] and of [set_order]. *)
(** [frontend/table_model_impl.h:179-180] table_model_impl::set_order *)
Definition fetch_rows (t : table V) (m : table_model) : result table_model :=
  let o := m_ordered m in
  ts ← trackables_fetch get_key (ordered_size o) (ordered_at t o) (m_trackables m);
  p ← projection_fetch (ordered_size o) (ordered_at t o) (m_projection m);
  Ret (mk_model o ts p (columns m) (m_invalidated m)).

(** [frontend/table_model_impl.h:108-115] table_model_impl::fetch *)
Definition model_fetch (w : W) (t : table V) (m : table_model) : result table_model :=
  o ← ordered_fetch w t (m_ordered m);
  m' ← fetch_rows t (with_order m o (m_projection m) []);
  Ret (with_order m' (m_ordered m') (m_projection m') [npos]).

(** [frontend/table_model_impl.h:132-181] table_model_impl::set_order *)
Definition model_set_order (w : W) (t : table V) (column : Z) (ascending : bool) (m : table_model) :
    result table_model :=
  m' ← (if negb (column =? npos)%Z then
    match columns m !! Z.to_nat column with
    | None => Throw out_of_range
    | Some c =>
      m' ← match compare c with
        | Some f =>
          o ← ordered_set_order w t (row_less (compare_bound f ascending)) true (m_ordered m);
          Ret (with_order m o (m_projection m) [npos])
        | None => Ret m
        end;
      Ret (with_order m' (m_ordered m') (project (get_value c) (m_projection m')) [])
    end
  else
    o ← ordered_set_order w t (row_less no_compare) true (m_ordered m);
    Ret (with_order m o (m_projection m) []));
  fetch_rows t m'.

(** [frontend/table_model_impl.h:117-119] table_model_impl::get_count *)
Definition model_count (m : table_model) : nat := ordered_size (m_ordered m).

(** [frontend/table_model_impl.h:121-126] table_model_impl::get_text *)
Definition model_text (w : W) (t : table V) (row column : nat) (m : table_model) : result (option Text) :=
  match columns m !! column with
  | Some c => v ← ordered_at t (m_ordered m) row; Ret (Some (get_text c w row v))
  | None => Ret None
  end.

(** [frontend/table_model_impl.h:128-130] table_model_impl::track *)
Definition model_track (t : table V) (row : nat) (m : table_model) : result (nat * table_model) :=
  '(h, ts) ← track_row get_key (ordered_at t (m_ordered m)) row (m_trackables m);
  Ret (h, mk_model (m_ordered m) ts (m_projection m) (columns m) (m_invalidated m)).

(** ** What a table shows *)

Context (valid : W → V → Prop) `{laws : ∀ w, hierarchy_laws (access_hierarchy w) (valid w)}.

(** The rows form the tree: all records, sorted by the order of the tree; behind a node everything
    that is called from it, and nothing else until that ends; and what is tracked is found again. *)
Record tree_shown (order : W → V → V → Z) (w : W) (t : table V) (m : table_model) : Prop := {
  shown_all : shown t (m_ordered m) ≡ₚ values t;
  shown_ordered : StronglySorted (λ a b, row_less order w a b = Ret true) (shown t (m_ordered m));
  shown_below i j a b : shown t (m_ordered m) !! i = Some a → shown t (m_ordered m) !! j = Some b →
    path_of (hierarchy := access_hierarchy w) a `prefix_of` path_of (hierarchy := access_hierarchy w) b →
    i ≤ j;
  shown_together i k j a b c : i ≤ k ≤ j →
    shown t (m_ordered m) !! i = Some a → shown t (m_ordered m) !! k = Some b →
    shown t (m_ordered m) !! j = Some c →
    path_of (hierarchy := access_hierarchy w) a `prefix_of` path_of (hierarchy := access_hierarchy w) c →
    path_of (hierarchy := access_hierarchy w) a `prefix_of` path_of (hierarchy := access_hierarchy w) b;
  shown_tracked : Forall (follows get_key (shown t (m_ordered m))) (records (m_trackables m)).*2
}.

(** The last sort was by this order; there is a row for every record. *)
Definition model_ok (order : W → V → V → Z) (t : table V) (m : table_model) : Prop :=
  view_ok t (m_ordered m) ∧ sort_order (m_ordered m) = Some (row_less order, true).

Section one_order.
Context (order : W → V → V → Z) (w : W) `{cl : !comparison_laws (valid w) (order w)}.

Abbreviation less := (row_less order w).

Lemma row_less_defined a b : valid w a → valid w b → ∃ r, less a b = Ret r.
Proof using laws cl.
  intros Ha Hb. destruct (hierarchical_less_paths (h := access_hierarchy w) (order w) a b Ha Hb) as (r & Hr & _). eauto.
Qed.

Lemma row_less_asymmetric a b : valid w a → valid w b → less a b = Ret true → less b a = Ret false.
Proof using laws cl.
  intros Ha Hb Hab. destruct (row_less_defined b a) as [[] Hba]; [done..| |done].
  pose proof (hierarchical_less_trans (h := access_hierarchy w) (order w) a b a Ha Hb Ha Hab Hba) as Haa.
  by rewrite (hierarchical_less_refl (h := access_hierarchy w)) in Haa.
Qed.

Lemma row_less_decides a b : valid w a → valid w b → a ≠ b → less b a = Ret false → less a b = Ret true.
Proof using laws cl.
  intros Ha Hb Hne Hba. destruct (hierarchical_less_connected (h := access_hierarchy w) (order w) a b Ha Hb Hne) as [|Hc]; [done|].
  unfold row_less in Hba. congruence.
Qed.

Lemma row_less_weak l : (∀ a, a ∈ l → valid w a) → (∀ a b : V, Decision (a = b)) → strict_weak less l.
Proof using laws cl.
  intros Hv Hdec. split.
  - intros a b Ha Hb. apply row_less_defined; auto.
  - intros a b Ha Hb. apply row_less_asymmetric; auto.
  - intros a b c Ha%Hv Hb%Hv Hc%Hv Hab Hbc.
    destruct (Hdec b a) as [->|Hba]; [done|]. destruct (Hdec c b) as [->|Hcb]; [done|].
    apply (row_less_decides b a Hb Ha Hba) in Hab. apply (row_less_decides c b Hc Hb Hcb) in Hbc.
    apply row_less_asymmetric; [done..|]. by apply (hierarchical_less_trans (h := access_hierarchy w) (order w) c b a).
Qed.

Lemma sorted_strictly l : (∀ a, a ∈ l → valid w a) → NoDup l → sorted_by less l →
  StronglySorted (λ a b, less a b = Ret true) l.
Proof using laws cl.
  intros Hv Hnd Hs. induction Hs as [|a l Hs IH Ha]; [constructor|].
  apply NoDup_cons in Hnd as [Hn Hnd].
  constructor; [apply IH; [|done]; intros b Hb; apply Hv; by apply list_elem_of_further|].
  rewrite Forall_forall in Ha |- *. intros b Hb.
  apply row_less_decides; [by apply Hv; left|by apply Hv; right| |by apply Ha]. by intros ->.
Qed.

Lemma sorted_lookup l i j a b : StronglySorted (λ a b, less a b = Ret true) l →
  i < j → l !! i = Some a → l !! j = Some b → less a b = Ret true.
Proof using Type.
  intros Hs. revert i j. induction Hs as [|x l Hs IH Hx]; intros i j Hij Hi Hj; [done|].
  destruct j as [|j]; [lia|]. simpl in Hj. destruct i as [|i]; simpl in Hi.
  - injection Hi as ->. rewrite Forall_forall in Hx. apply Hx. by eapply list_elem_of_lookup_2.
  - apply (IH i j); [lia|done..].
Qed.

Lemma prefix_less a b : valid w a → valid w b → a ≠ b →
  path_of (hierarchy := access_hierarchy w) a `prefix_of` path_of (hierarchy := access_hierarchy w) b →
  less a b = Ret true.
Proof using laws cl.
  intros Ha Hb Hne Hp. apply (hierarchical_less_iff (h := access_hierarchy w)); [done..|]. apply path_less_prefix; [done|].
  intros E. by apply Hne, (path_of_inj (h := access_hierarchy w) a b).
Qed.

Lemma less_irreflexive' a : valid w a → less a a ≠ Ret true.
Proof using laws cl. intros Ha. unfold row_less. by rewrite (hierarchical_less_refl (h := access_hierarchy w)). Qed.

Lemma rows_below l i j a b : (∀ a, a ∈ l → valid w a) → StronglySorted (λ a b, less a b = Ret true) l →
  l !! i = Some a → l !! j = Some b →
  path_of (hierarchy := access_hierarchy w) a `prefix_of` path_of (hierarchy := access_hierarchy w) b →
  i ≤ j.
Proof using laws cl.
  intros Hv Hs Hi Hj Hp. destruct (decide (i ≤ j)) as [|Hn]; [done|exfalso].
  assert (valid w a) as Ha by (by eapply Hv, list_elem_of_lookup_2).
  assert (valid w b) as Hb by (by eapply Hv, list_elem_of_lookup_2).
  assert (less b a = Ret true) as Hba by (by eapply (sorted_lookup l j i); [|lia| |]).
  assert (a ≠ b) as Hne by (intros ->; by eapply (less_irreflexive' b)).
  apply (less_irreflexive' a Ha).
  by apply (hierarchical_less_trans (h := access_hierarchy w) (order w) a b a), Hba; [..|apply prefix_less].
Qed.

Lemma rows_together l i k j a b c : (∀ a, a ∈ l → valid w a) →
  StronglySorted (λ a b, less a b = Ret true) l → i ≤ k ≤ j →
  l !! i = Some a → l !! k = Some b → l !! j = Some c →
  path_of (hierarchy := access_hierarchy w) a `prefix_of` path_of (hierarchy := access_hierarchy w) c →
  path_of (hierarchy := access_hierarchy w) a `prefix_of` path_of (hierarchy := access_hierarchy w) b.
Proof using laws cl.
  intros Hv Hs [Hik Hkj] Hi Hk Hj Hp. apply dec_stable. intros Hn.
  assert (valid w a ∧ valid w b ∧ valid w c) as (Ha & Hb & Hc)
    by (split_and!; by eapply Hv, list_elem_of_lookup_2).
  assert (i ≠ k) as Hik' by (intros ->; simplify_eq; by destruct Hn).
  assert (k ≠ j) as Hkj' by (intros ->; simplify_eq).
  assert (less a b = Ret true) as Hab by (by eapply (sorted_lookup l i k); [|lia| |]).
  assert (less b c = Ret true) as Hbc by (by eapply (sorted_lookup l k j); [|lia| |]).
  apply (less_irreflexive' b Hb).
  apply (hierarchical_less_trans (h := access_hierarchy w) (order w) b c b); [done..|].
  apply (hierarchical_less_iff (h := access_hierarchy w)); [done..|].
  apply (hierarchical_less_iff (h := access_hierarchy w)) in Hab; [|done..].
  destruct Hp as [s ->]. by apply path_less_subtree.
Qed.

Lemma tree_shown_intro (t : table V) (m : table_model) :
  (∀ a, a ∈ values t → valid w a) → NoDup (values t) →
  shown t (m_ordered m) ≡ₚ values t → sorted_by less (shown t (m_ordered m)) →
  Forall (follows get_key (shown t (m_ordered m))) (records (m_trackables m)).*2 →
  tree_shown order w t m.
Proof using laws cl.
  intros Hv Hnd Hp Hs Hf.
  assert (∀ a, a ∈ shown t (m_ordered m) → valid w a) as Hv' by (intros a; rewrite Hp; auto).
  assert (StronglySorted (λ a b, less a b = Ret true) (shown t (m_ordered m))) as Hs'
    by (apply sorted_strictly; [done|by rewrite Hp|done]).
  split; [done|done| | |done].
  - intros i j a b Hi Hj. by apply (rows_below (shown t (m_ordered m)) i j a b).
  - intros i k j a b c Hikj Hi Hk Hj. by apply (rows_together (shown t (m_ordered m)) i k j a b c).
Qed.
End one_order.

Lemma shown_size t (o : ordered_view V W) : table_ok t → view_ok t o → length (shown t o) = ordered_size o.
Proof using Type.
  intros Ht Hv. unfold shown, ordered_size. rewrite (shown_values t) by done. rewrite Hv.
  unfold values. by rewrite !length_map.
Qed.

Lemma fetch_rows_ok t m : table_ok t → view_ok t (m_ordered m) →
  ∃ m', fetch_rows t m = Ret m' ∧ m_ordered m' = m_ordered m ∧ columns m' = columns m ∧
    m_invalidated m' = m_invalidated m ∧
    Forall (follows get_key (shown t (m_ordered m))) (records (m_trackables m')).*2.
Proof using Type.
  intros Ht Hv. unfold fetch_rows, projection_fetch. rewrite <- (shown_size t) by done.
  assert (∀ i, i < length (shown t (m_ordered m)) →
    ordered_at t (m_ordered m) i = default UB (Ret <$> shown t (m_ordered m) !! i)) as Hat.
  { intros i [v Hi]%lookup_lt_is_Some. rewrite Hi. by apply shown_lookup. }
  destruct (trackables_follow get_key _ _ (m_trackables m) Hat) as (ts & -> & Hf & _).
  destruct (trackables_follow get_key _ _ (p_trackables (m_projection m)) Hat) as (ts' & -> & _).
  eexists. split; [done|]. by split_and!.
Qed.

#[local] Instance compare_bound_laws f asc w :
  comparison_laws (valid w) (f w) → comparison_laws (valid w) (compare_bound f asc w).
Proof.
  intros [H1 H2]. unfold compare_bound. destruct asc; split; intros; eauto.
Qed.

(** The tables a model can be asked to show. *)
Definition showable (w : W) (t : table V) : Prop :=
  table_ok t ∧ NoDup (values t) ∧ ∀ a, a ∈ values t → valid w a.

Lemma resort_shows `{∀ a b : V, Decision (a = b)} order w t o :
  showable w t → comparison_laws (valid w) (order w) → view_ok t o → sort_order o = Some (row_less order, true) →
  ∃ o', sort_view w t o = Ret o' ∧ ∀ m, m_ordered m = o' →
    ∃ m', fetch_rows t m = Ret m' ∧ m_ordered m' = o' ∧ tree_shown order w t m' ∧
      m_invalidated m' = m_invalidated m ∧ sort_order (m_ordered m') = Some (row_less order, true).
Proof using laws.
  intros (Ht & Hnd & Hv) Hc Ho Hso.
  destruct (sort_view_ok w t o _ Ht Ho Hso) as (o' & -> & Hv' & Hso' & Hp & Hs).
  { by apply (row_less_weak order w). }
  exists o'. split; [done|]. intros m <-. destruct (fetch_rows_ok t m Ht Hv') as (m' & -> & Hm & _ & Hi & Hf).
  exists m'. split_and!; [done|done| |done|by rewrite Hm].
  apply tree_shown_intro; rewrite ?Hm; done.
Qed.

(** A table shows the call tree: once it is sorted by a column, up or down, its rows are all the
    records, every node above what is called from it and nothing foreign in between, siblings in the
    order of the column; rows that are followed have their new indices.  Every later fetch, of
    whatever the table has become, shows the tree of the new records in the same order. *)
Theorem table_shows_tree `{∀ a b : V, Decision (a = b)} w t m column c f ascending :
  showable w t → view_ok t (m_ordered m) → column ≠ npos →
  columns m !! Z.to_nat column = Some c → compare c = Some f →
  (∀ w, comparison_laws (valid w) (f w)) →
  ∃ m', model_set_order w t column ascending m = Ret m' ∧
    tree_shown (compare_bound f ascending) w t m' ∧
    m_invalidated m' = m_invalidated m ++ [npos] ∧
    ∀ w' t', showable w' t' → ∃ m'', model_fetch w' t' m' = Ret m'' ∧
      tree_shown (compare_bound f ascending) w' t' m'' ∧
      m_invalidated m'' = m_invalidated m' ++ [npos].
Proof using laws.
  intros Hsh Hv Hne Hcol Hf Hlaws.
  assert (∀ w, comparison_laws (valid w) (compare_bound f ascending w)) as Hl by (intros; by apply compare_bound_laws).
  unfold model_set_order. rewrite (proj2 (Z.eqb_neq _ _) Hne). cbn [negb]. rewrite Hcol, Hf.
  unfold ordered_set_order.
  destruct (resort_shows (compare_bound f ascending) w t
    (mk_ordered (ordered_data (m_ordered m)) (Some (row_less (compare_bound f ascending), true))))
    as (o' & -> & Hm); [done..|].
  cbn [mbind result_bind].
  edestruct Hm as (m' & -> & Ho & Hshown & Hi & Hso); [|eexists; split; [done|]]; [done|].
  split_and!; [done|by rewrite Hi; simpl; rewrite app_nil_r|].
  intros w' t' Hsh'. unfold model_fetch, ordered_fetch.
  destruct (resort_shows (compare_bound f ascending) w' t' (mk_ordered (records t').*1
    (sort_order (m_ordered m')))) as (o'' & -> & Hm'); [done|done|unfold view_ok; done|done|].
  cbn [mbind result_bind]. edestruct Hm' as (m'' & -> & Ho' & [] & Hi' & _); [|eexists; split; [done|]]; [done|].
  split; [by constructor|]. simpl. rewrite Hi'. simpl. by rewrite app_nil_r.
Qed.

(** A column there is not is refused. *)
Lemma set_order_out_of_range w t m column ascending :
  column ≠ npos → (length (columns m) ≤ Z.to_nat column) →
  model_set_order w t column ascending m = Throw out_of_range.
Proof using Type.
  intros Hne Hc. unfold model_set_order. rewrite (proj2 (Z.eqb_neq _ _) Hne). cbn [negb].
  by rewrite (lookup_ge_None_2 _ _ Hc).
Qed.
End models.

(** * Selections *)

(** What a selection tells: the selections that share its keys, and its own subscribers. *)
Inductive notice (I : Type) := scope_changed | item_changed (item : I) | everything_changed.
Arguments scope_changed {I}.
Arguments item_changed {I} item.
Arguments everything_changed {I}.

Section selection.
Context {I K : Type} `{Countable K} (get_key : I → K).

(** [frontend/selection_model.h:58-64] selection. The table of keys with its unique index. *)
Record selection := mk_selection {
  scope : table K;
  key_index : index (K := K);
  notices : list (notice I)
}.

(** [sdb/index.h:118-136] immutable_unique_index::operator []. The record of a key, a new one if there is none. *)
Definition unique_record (key : K) (s : selection) : bool * nat * selection :=
  match equal_range key (key_index s) with
  | h :: _ => (false, h, s)
  | [] => let '(h, t) := create key (scope s) in (true, h, mk_selection t (key_index s) (notices s))
  end.

(** [sdb/table.h:175-176] table::transacted_record::commit. The index is told of records that are new. *)
Definition commit_record (new_ : bool) (key : K) (h : nat) (s : selection) : selection :=
  mk_selection (scope s) (if new_ then index_created key h (key_index s) else key_index s) (notices s).

(** [sdb/table.h:178-179] table::transacted_record::remove. The index first, then the record. *)
Definition remove_record (h : nat) (s : selection) : selection :=
  mk_selection (erase h (scope s)) (index_removed h (key_index s)) (notices s).

(** [frontend/selection_model.h:108-117] selection::notify_invalidate. The own subscription to the scope is
    silent meanwhile. *)
Definition notify_invalidate (item : I) (s : selection) : selection :=
  mk_selection (scope s) (key_index s) (notices s ++ [scope_changed; item_changed item]).

(** [frontend/selection_model.h:74-76] selection::clear *)
Definition selection_clear (s : selection) : selection :=
  mk_selection (clear_records (scope s)) (index_cleared (key_index s))
    (notices s ++ [scope_changed; everything_changed]).

(** [frontend/selection_model.h:78-85] selection::add *)
Definition selection_add (item : I) (s : selection) : selection :=
  let '(new_, h, s) := unique_record (get_key item) s in
  notify_invalidate item (commit_record new_ (get_key item) h s).

(** [frontend/selection_model.h:87-94] selection::remove *)
Definition selection_remove (item : I) (s : selection) : selection :=
  let '(_, h, s) := unique_record (get_key item) s in
  notify_invalidate item (remove_record h s).

(** [frontend/selection_model.h:96-98] selection::contains *)
Definition selection_contains (item : I) (s : selection) : bool :=
  match equal_range (get_key item) (key_index s) with [] => false | _ => true end.

(** A selection is the set of its keys. *)
Definition selected (s : selection) : gset K := list_to_set (values (scope s)).

Record selection_ok (s : selection) : Prop := {
  sel_table : table_ok (scope s);
  sel_index : index_ok id (scope s) (key_index s);
  sel_once : NoDup (values (scope s))
}.

Inductive sel_op := sel_add (item : I) | sel_remove (item : I) | sel_clear.

Definition sel_run (s : selection) (op : sel_op) : selection :=
  match op with
  | sel_add i => selection_add i s
  | sel_remove i => selection_remove i s
  | sel_clear => selection_clear s
  end.

Definition sel_spec (X : gset K) (op : sel_op) : gset K :=
  match op with sel_add i => {[get_key i]} ∪ X | sel_remove i => X ∖ {[get_key i]} | sel_clear => ∅ end.

Lemma key_found key s : selection_ok s →
  match equal_range key (key_index s) with
  | [] => key ∉ values (scope s)
  | h :: _ => (h, key) ∈ records (scope s)
  end.
Proof.
  intros [_ Hi _]. rewrite (equal_range_spec _ _ _ _ Hi). unfold with_key, values.
  destruct (filter _ (records (scope s))) as [|[h k] l] eqn:E; simpl.
  - intros ([h k] & -> & Hin)%list_elem_of_fmap.
    assert ((h, k) ∈ filter (λ p, id p.2 = k) (records (scope s))) as Hx
      by (apply list_elem_of_filter; done).
    simpl in *. rewrite E in Hx. by apply elem_of_nil in Hx.
  - assert ((h, k) ∈ filter (λ p, id p.2 = key) (records (scope s))) as Hx by (rewrite E; by left).
    apply list_elem_of_filter in Hx as [Hk Hx]. simpl in Hk. by subst.
Qed.

Lemma selected_elem key s : key ∈ selected s ↔ key ∈ values (scope s).
Proof. apply elem_of_list_to_set. Qed.

Lemma selection_contains_spec item s : selection_ok s →
  selection_contains item s = true ↔ get_key item ∈ selected s.
Proof.
  intros Hs. rewrite selected_elem. unfold selection_contains. pose proof (key_found (get_key item) s Hs) as Hk.
  destruct (equal_range _ _); [done|]. split; [|done]. intros _. apply list_elem_of_fmap. by exists (n, get_key item).
Qed.

(** A record that is removed before it is committed leaves no trace. *)
Lemma erase_created key (t : table K) : table_ok t → records (erase (next_handle t) (create key t).2) = records t.
Proof.
  intros [_ Hl]. unfold erase. simpl. rewrite filter_app, filter_cons_False by (simpl; lia).
  rewrite app_nil_r. apply filter_all_elem. intros p Hp. rewrite Forall_forall in Hl.
  specialize (Hl p Hp). simpl in Hl. lia.
Qed.

Lemma index_unknown s : selection_ok s → index_removed (next_handle (scope s)) (key_index s) = key_index s.
Proof.
  intros [[_ Hl] Hi _]. unfold index_removed. destruct (removal (key_index s) !! _) as [i|] eqn:E; [|done].
  apply (ix_removal _ _ _ Hi) in E as [k Hin].
  assert (next_handle (scope s) ∈ (records (scope s)).*1) as Hx.
  { rewrite <- (ix_handles _ _ _ Hi). apply list_elem_of_fmap. by exists (i, (k, next_handle (scope s))). }
  apply list_elem_of_fmap in Hx as (p & Hp & Hin'). rewrite Forall_forall in Hl. specialize (Hl p Hin'). lia.
Qed.

Lemma index_ok_records (t t' : table K) (ix : index) :
  records t = records t' → index_ok id t ix → index_ok id t' ix.
Proof. intros Hr []. split; rewrite <- ?Hr; done. Qed.

Lemma erase_values h key (t : table K) : table_ok t → NoDup (values t) → (h, key) ∈ records t →
  ∀ k, k ∈ values (erase h t) ↔ k ∈ values t ∧ k ≠ key.
Proof.
  intros [Hh _] Hnd Hin k. unfold values, erase. simpl. split.
  - intros ([h' k'] & -> & [Hne Hk]%list_elem_of_filter)%list_elem_of_fmap. simpl in *. split.
    + apply list_elem_of_fmap. by exists (h', k').
    + intros ->. assert ((h', key) = (h, key)) as [=]; [|done].
      by apply (NoDup_map_elem snd (records t)).
  - intros [([h' k'] & -> & Hk)%list_elem_of_fmap Hne]. simpl in *. apply list_elem_of_fmap.
    exists (h', k'). split; [done|]. apply list_elem_of_filter. split; [|done]. simpl. intros ->. destruct Hne.
    assert ((h, k') = (h, key)) as [= ->]; [|done]. by apply (NoDup_map_elem fst (records t)).
Qed.

Lemma selection_add_ok item s : selection_ok s →
  selection_ok (selection_add item s) ∧
  selected (selection_add item s) = {[get_key item]} ∪ selected s.
Proof.
  intros Hs. unfold selection_add, unique_record. pose proof (key_found (get_key item) s Hs) as Hk.
  destruct Hs as [Ht Hi Hn]. destruct (equal_range (get_key item) (key_index s)) as [|h hs]; simpl.
  - split.
    + split; simpl; [by apply create_ok|by apply (index_created_ok id)|].
      unfold values. simpl. rewrite fmap_app. apply NoDup_app. split_and!; [done| |apply NoDup_singleton].
      simpl. intros k Hin ->%list_elem_of_singleton. done.
    + unfold selected, values. simpl. rewrite fmap_app, list_to_set_app_L. simpl. set_solver.
  - split; [by split|]. apply set_eq. intros k. rewrite elem_of_union, elem_of_singleton, !selected_elem.
    simpl. split; [by right|]. intros [->|]; [|done]. apply list_elem_of_fmap. by exists (h, get_key item).
Qed.

Lemma selection_remove_ok item s : selection_ok s →
  selection_ok (selection_remove item s) ∧
  selected (selection_remove item s) = selected s ∖ {[get_key item]}.
Proof.
  intros Hs. pose proof (index_unknown s Hs) as Hu. unfold selection_remove, unique_record.
  pose proof (key_found (get_key item) s Hs) as Hk.
  destruct Hs as [Ht Hi Hn]. destruct (equal_range (get_key item) (key_index s)) as [|h hs].
  - pose proof (erase_created (get_key item) (scope s) Ht) as He. cbn -[erase].
    unfold create in He |- *. cbn [snd] in He. split.
    + split; cbn [scope key_index notify_invalidate remove_record].
      * apply erase_ok. by apply (create_ok (get_key item) (scope s)).
      * rewrite Hu. by eapply index_ok_records.
      * unfold values. by rewrite He.
    + apply set_eq. intros k. rewrite elem_of_difference, elem_of_singleton, !selected_elem.
      cbn [scope notify_invalidate remove_record]. unfold values in *. rewrite He. split; [|by intros []].
      intros Hin. split; [done|]. by intros ->.
  - split.
    + split; cbn; [by apply erase_ok|by apply (index_removed_ok id)|].
      by apply (NoDup_map_filter snd).
    + apply set_eq. intros k. rewrite elem_of_difference, elem_of_singleton, !selected_elem.
      by apply (erase_values h (get_key item)).
Qed.

(** A selection is the set of the keys that were added and not removed since: whatever is done to
    it, [contains] answers for exactly these, and its range lists each of them once. *)
Theorem selection_is_set s ops item :
  selection_ok s →
  let s' := foldl sel_run s ops in
  (selection_contains item s' = true ↔ get_key item ∈ foldl sel_spec (selected s) ops) ∧
  list_to_set (values (scope s')) = foldl sel_spec (selected s) ops ∧ NoDup (values (scope s')).
Proof.
  intros Hs s'. assert (selection_ok s' ∧ selected s' = foldl sel_spec (selected s) ops) as [Hs' Hsel].
  { unfold s'. clear s'. revert s Hs. induction ops as [|op ops IH]; intros s Hs; [done|]. simpl.
    assert (selection_ok (sel_run s op) ∧ selected (sel_run s op) = sel_spec (selected s) op) as [Ho <-].
    { destruct op; simpl; [by apply selection_add_ok|by apply selection_remove_ok|].
      split; [|done]. split; simpl; [apply clear_ok|apply index_cleared_ok|constructor]. }
    by apply IH. }
  split_and!; [by rewrite selection_contains_spec, Hsel|by rewrite <- Hsel|apply Hs'].
Qed.
End selection.

(** * The calls of [Hierarchy], sorted by address *)

#[local] Existing Instance insertion_sort.
#[local] Existing Instance demo_laws.

Definition demo_table : table call_statistics :=
  mk_table (zip (seq 0 4) demo_calls) 4.

Definition demo_column : column_definition (V := call_statistics) (W := unit) (D := Z) (Text := Z) :=
  mk_column (λ _ _ n, call_id n) (Some (λ _, by_address)) (Some (λ _ n, address n)).

Definition demo_access (_ : unit) : hierarchy call_statistics := demo_hierarchy.

#[local] Instance demo_access_laws w : hierarchy_laws (demo_access w) (in_table demo_tree) := demo_laws.

Abbreviation demo_model := (table_model (V := call_statistics) (W := unit) (K := Z) (D := Z) (Text := Z)).

Definition demo_shown : demo_model :=
  mk_model (new_ordered demo_table)
    (mk_table [(0, mk_trackable 3%Z 2)] 1) (mk_projection empty_table None []) [demo_column] [].

Definition ids (r : result demo_model) : option (list Z * list Z) :=
  match r with
  | Ret m => Some (map call_id (shown demo_table (m_ordered m)),
      map current_index (records (m_trackables m)).*2)
  | _ => None
  end.

(** 1 main; 4 (address 50) and 2 (address 200), called from it; 3, called from 2. *)
Example demo_ascending :
  ids (model_set_order call_id demo_access tt demo_table 0%Z true demo_shown) = Some ([1; 4; 2; 3], [3])%Z.
Proof. vm_compute. reflexivity. Qed.

Example demo_descending :
  ids (model_set_order call_id demo_access tt demo_table 0%Z false demo_shown) = Some ([1; 2; 3; 4], [2])%Z.
Proof. vm_compute. reflexivity. Qed.

Lemma demo_showable : showable (λ _ : unit, in_table demo_tree) tt demo_table.
Proof.
  split_and!.
  - split; [|by repeat constructor; simpl; lia]. apply (bool_decide_unpack _). vm_compute. done.
  - apply (bool_decide_unpack _). vm_compute. done.
  - intros a Ha. assert (Forall (in_table demo_tree) (values demo_table)) as Hf
      by (repeat constructor; vm_compute; reflexivity).
    rewrite Forall_forall in Hf. auto.
Qed.

Lemma table_shows_tree_witness :
  ∃ m', model_set_order call_id demo_access tt demo_table 0%Z true demo_shown = Ret m' ∧
    tree_shown call_id demo_access (compare_bound (λ _, by_address) true) tt demo_table m' ∧
    m_invalidated m' = [] ++ [npos] ∧
    ∀ w' t', showable (λ _ : unit, in_table demo_tree) w' t' →
      ∃ m'', model_fetch call_id w' t' m' = Ret m'' ∧
        tree_shown call_id demo_access (compare_bound (λ _, by_address) true) w' t' m'' ∧
        m_invalidated m'' = m_invalidated m' ++ [npos].
Proof.
  apply (table_shows_tree call_id demo_access (λ _ : unit, in_table demo_tree) tt demo_table demo_shown
    0%Z demo_column (λ _, by_address) true); [apply demo_showable|unfold view_ok; done|done|done|done|].
  intros _. apply by_address_laws.
Defined.

Definition demo_selection : selection (I := nat) (K := nat) := mk_selection empty_table empty_index [].

Lemma selection_is_set_witness :
  let s' := foldl (sel_run (λ i : nat, i / 2)) demo_selection [sel_add 4; sel_add 5; sel_add 7; sel_remove 6] in
  (selection_contains (λ i, i / 2) 5 s' = true ↔
    5 / 2 ∈ foldl (sel_spec (λ i, i / 2)) (selected demo_selection) [sel_add 4; sel_add 5; sel_add 7; sel_remove 6]) ∧
  list_to_set (values (scope s')) =
    foldl (sel_spec (λ i, i / 2)) (selected demo_selection) [sel_add 4; sel_add 5; sel_add 7; sel_remove 6] ∧
  NoDup (values (scope s')).
Proof.
  apply (selection_is_set (λ i : nat, i / 2)). split; [|apply (index_cleared_ok id empty_table empty_index)|constructor].
  apply (clear_ok empty_table).
Defined.
