(* ===== verification/Channels.v ===== *)
(** Channels over byte streams (ipc/endpoint_sockets.h, ipc/src/client_endpoint_spawn.cpp,
    ipc/src/server_endpoint_spawn.cpp, ipc/src/client_endpoint_sockets.cpp,
    ipc/src/server_endpoint_sockets.h and .cpp, ipc/src/helpers.h).

    A message is sent as its length and its bytes.  The stream of a connection is the list of all
    the bytes its peer sends until it closes: a blocking read takes as many as it wants, or what is
    left.  The socket server is a state machine: its thread goes round the list of handlers and
    calls those whose sockets have something to read, and the handlers change the list. *)

From S2P Require Import Prelude.
Local Open Scope Z_scope.

(** * Scalars on the wire *)

(** The bytes of a 32-bit value in memory, on a machine of either endianness. *)
Definition value_bytes (little : bool) (v : Z) : list Z :=
  if little then le_bytes v 4 else rev (le_bytes v 4).

Definition bytes_value (little : bool) (l : list Z) : Z :=
  if little then le_value l else le_value (rev l).

(** [std::swap(bytes[i], bytes[j])] *)
Definition swap_at (l : list Z) (i j : nat) : list Z :=
  match l !! i, l !! j with
  | Some a, Some b => <[j := a]> (<[i := b]> l)
  | _, _ => l
  end.

(** [ipc/endpoint_sockets.h:49-60] byte_representation::reorder *)
Definition reorder (little : bool) (bytes : list Z) : list Z :=
  match value_bytes little 0xFF with
  | b0 :: _ =>
    if b0 =? 0 then bytes
    else fold_left (λ l i, swap_at l i (length bytes - 1 - i)) (seq 0 (length bytes / 2)) bytes
  | [] => bytes
  end.

(** [ipc/src/server_endpoint_sockets.cpp:58-66] send_scalar. What goes into the stream. *)
Definition send_scalar (little : bool) (value : Z) : list Z := reorder little (value_bytes little value).

(** [ipc/src/server_endpoint_sockets.cpp:68-77] recv_scalar. The number of bytes received, the value
    when there are all of them (the rest of the union is not initialised), what is left of the stream. *)
Definition recv_scalar (little : bool) (stream : list Z) : nat * option Z * list Z :=
  let bytes := take 4 stream in
  (length bytes,
   if (length bytes =? 4)%nat then Some (bytes_value little (reorder little bytes)) else None,
   drop 4 stream).

Lemma length_4 (l : list Z) : length l = 4%nat → ∃ a b c d, l = [a; b; c; d].
Proof. destruct l as [|a [|b [|c [|d [|]]]]]; try done. eauto. Qed.

Lemma reorder_rev little l : length l = 4%nat → reorder little l = if little then rev l else l.
Proof. intros (a & b & c & d & ->)%length_4. by destruct little. Qed.

Lemma value_bytes_length little v : length (value_bytes little v) = 4%nat.
Proof. by destruct little. Qed.

Lemma send_scalar_wire little v : send_scalar little v = rev (le_bytes v 4).
Proof. unfold send_scalar. rewrite reorder_rev by apply value_bytes_length. by destruct little. Qed.

Lemma send_scalar_length little v : length (send_scalar little v) = 4%nat.
Proof. by rewrite send_scalar_wire. Qed.

(** A scalar is read back as it was sent, whatever the byte orders of the two machines: what is on
    the wire does not depend on them. *)
Lemma recv_sent sender receiver v rest :
  in_u 32 v → recv_scalar receiver (send_scalar sender v ++ rest) = (4%nat, Some v, rest).
Proof.
  intros Hv. unfold recv_scalar. rewrite send_scalar_wire.
  set (w := rev (le_bytes v 4)). assert (length w = 4%nat) as Hw by done.
  rewrite take_app_length' by done. rewrite drop_app_length' by done. rewrite Hw. cbn [Nat.eqb].
  rewrite reorder_rev by done. do 3 f_equal. unfold bytes_value, w.
  assert (le_value (le_bytes v 4) = v) as Hl by (apply le_value_bytes; unfold in_u in Hv; lia).
  destruct receiver; by rewrite rev_involutive.
Qed.

(** * Messages over pipes *)

(** [ipc/src/client_endpoint_spawn.cpp:68-75] client_session::message. The length goes out as it is in memory. *)
Definition pipe_message (little : bool) (payload : list Z) : list Z :=
  value_bytes little (u32 (len payload)) ++ payload.

(** [vector::resize] *)
Definition resize (n : nat) (buffer : list Z) : list Z := take n buffer ++ replicate (n - length buffer) 0.

(** [fread] into a buffer: what cannot be read leaves the buffer as it is. *)
Definition read_into (buffer stream : list Z) : list Z :=
  let got := take (length buffer) stream in got ++ drop (length got) buffer.

(** What a channel is told. *)
Inductive inbound := got_message (payload : list Z) | got_disconnect.

(** [ipc/src/client_endpoint_spawn.cpp:44-56] client_session::client_session. The loop of the reading thread:
    [_outbound] is there while the session has not been destroyed. *)
Fixpoint pipe_reader (fuel : nat) (little outbound : bool) (buffer stream : list Z) : option (list inbound) :=
  match fuel with
  | O => None
  | S fuel =>
    if (length (take 4 stream) =? 4)%nat then
      let n := Z.to_nat (bytes_value little (take 4 stream)) in
      let buffer := read_into (resize n buffer) (drop 4 stream) in
      (got_message buffer ::.) <$> pipe_reader fuel little outbound buffer (drop n (drop 4 stream))
    else Some (if outbound then [got_disconnect] else [])
  end.

(** [ipc/src/server_endpoint_spawn.cpp:53-59] main. The loop of the spawned process; it always tells the session. *)
Definition pipe_server (fuel : nat) (little : bool) (stream : list Z) : option (list inbound) :=
  pipe_reader fuel little true [] stream.

Lemma bytes_value_bytes little v : in_u 32 v → bytes_value little (value_bytes little v) = v.
Proof.
  intros Hv. assert (le_value (le_bytes v 4) = v) as Hl by (apply le_value_bytes; unfold in_u in Hv; lia).
  unfold bytes_value, value_bytes. destruct little; [done|by rewrite rev_involutive].
Qed.

Lemma resize_length n buffer : length (resize n buffer) = n.
Proof. unfold resize. rewrite length_app, length_take, length_replicate. lia. Qed.

Lemma read_into_full buffer data rest : length buffer = length data → read_into buffer (data ++ rest) = data.
Proof.
  intros Hb. unfold read_into. rewrite Hb, take_app_length. rewrite <- Hb, drop_all. apply app_nil_r.
Qed.

Lemma pipe_reader_ok little outbound ms : ∀ fuel buffer,
  Forall (λ m, in_u 32 (len m)) ms → (length ms < fuel)%nat →
  pipe_reader fuel little outbound buffer (concat (map (pipe_message little) ms)) =
    Some (map got_message ms ++ if outbound then [got_disconnect] else []).
Proof.
  induction ms as [|m ms IH]; intros fuel buffer Hm Hf; (destruct fuel as [|fuel]; [simpl in Hf; lia|]).
  - done.
  - apply Forall_cons in Hm as [Hm Hms]. 
    assert (concat (map (pipe_message little) (m :: ms)) =
      value_bytes little (u32 (len m)) ++ m ++ concat (map (pipe_message little) ms)) as ->
      by (simpl; unfold pipe_message; by rewrite <- app_assoc).
    cbn [pipe_reader].
    rewrite !(take_app_length' (value_bytes little (u32 (len m)))),
      !(drop_app_length' (value_bytes little (u32 (len m)))) by (by rewrite value_bytes_length).
    rewrite value_bytes_length. cbn [Nat.eqb].
    rewrite bytes_value_bytes, (uw_small 32 ltac:(lia)), Nat2Z.id by (done || apply uw_range; lia).
    rewrite read_into_full by apply resize_length. rewrite drop_app_length.
    rewrite IH by (done || simpl in Hf; lia). done.
Qed.

(** What is sent over a pipe arrives: all the messages, in their order and with their bytes, then the
    end of the connection, unless it was the session itself that ended it; the reading thread ends. *)
Theorem pipe_roundtrip little outbound buffer ms :
  Forall (λ m, in_u 32 (len m)) ms →
  pipe_reader (S (length ms)) little outbound buffer (concat (map (pipe_message little) ms)) =
    Some (map got_message ms ++ if outbound then [got_disconnect] else []) ∧
  pipe_server (S (length ms)) little (concat (map (pipe_message little) ms)) =
    Some (map got_message ms ++ [got_disconnect]).
Proof. intros Hm. split; apply (pipe_reader_ok little); (done || lia). Qed.

(** A message that is cut short is delivered all the same, with its missing bytes made up: here, of the
    two of [1; 2] that was announced only the first arrives. *)
Lemma cut_message_delivered :
  pipe_reader 3 true true [] (pipe_message true [7; 8; 9] ++ take 5 (pipe_message true [1; 2])) =
    Some [got_message [7; 8; 9]; got_message [1; 8]; got_disconnect].
Proof. vm_compute. reflexivity. Qed.

(** * Messages over sockets *)

(** [ipc/src/client_endpoint_sockets.cpp:77-86] client_session::message. The length goes out in network order; the
    handlers of the server send the same. *)
Definition socket_message (little : bool) (payload : list Z) : list Z :=
  send_scalar little (u32 (len payload)) ++ payload.

(** [ipc/src/server_endpoint_sockets.cpp:224-226] server::handle_session. The body of a message: [&_buffer[0]] is
    not defined for an empty buffer. *)
Definition recv_body (size : Z) (buffer stream : list Z) : result (list Z * list Z) :=
  if size =? 0 then UB
  else Ret (read_into (resize (Z.to_nat size) buffer) stream, drop (Z.to_nat size) stream).

(** [ipc/src/client_endpoint_sockets.cpp:88-104] client_session::worker *)
Fixpoint socket_worker (fuel : nat) (little : bool) (buffer stream : list Z) : option (result (list inbound)) :=
  match fuel with
  | O => None
  | S fuel =>
    match recv_scalar little stream with
    | (4%nat, Some size, stream) =>
      match recv_body size buffer stream with
      | Ret (buffer, stream) =>
        (λ r, l ← r; Ret (got_message buffer :: l)) <$> socket_worker fuel little buffer stream
      | Throw e => Some (Throw e)
      | UB => Some UB
      end
    | _ => Some (Ret [got_disconnect])
    end
  end.

(** What can be sent as a message. *)
Definition sendable (m : list Z) : Prop := m ≠ [] ∧ in_u 32 (len m).

Lemma recv_message sender receiver m rest :
  sendable m → recv_scalar receiver (socket_message sender m ++ rest) = (4%nat, Some (len m), m ++ rest).
Proof.
  intros [_ Hm]. unfold socket_message. rewrite <- app_assoc, (uw_small 32 ltac:(lia)) by done.
  unfold recv_scalar. rewrite send_scalar_wire.
  set (w := rev (le_bytes (len m) 4)). assert (length w = 4%nat) as Hw by done.
  rewrite take_app_length' by done. rewrite drop_app_length' by done. rewrite Hw. cbn [Nat.eqb].
  rewrite reorder_rev by done. do 3 f_equal. unfold bytes_value, w.
  assert (le_value (le_bytes (len m) 4) = len m) as Hl by (apply le_value_bytes; unfold in_u in Hm; lia).
  destruct receiver; by rewrite rev_involutive.
Qed.

Lemma recv_body_ok m buffer rest : sendable m → recv_body (len m) buffer (m ++ rest) = Ret (m, rest).
Proof.
  intros [Hne _]. unfold recv_body. destruct (Z.eqb_spec (len m) 0); [destruct m; [done|simpl in *; lia]|].
  rewrite Nat2Z.id, read_into_full, drop_app_length by apply resize_length. done.
Qed.

Lemma socket_worker_ok sender receiver ms : ∀ fuel buffer,
  Forall sendable ms → (length ms < fuel)%nat →
  socket_worker fuel receiver buffer (concat (map (socket_message sender) ms)) =
    Some (Ret (map got_message ms ++ [got_disconnect])).
Proof.
  induction ms as [|m ms IH]; intros fuel buffer Hms Hf; (destruct fuel as [|fuel]; [simpl in Hf; lia|]).
  - done.
  - apply Forall_cons in Hms as [Hm Hms].
    change (concat (map (socket_message sender) (m :: ms)))
      with (socket_message sender m ++ concat (map (socket_message sender) ms)).
    cbn [socket_worker]. rewrite recv_message, recv_body_ok by done.
    rewrite IH by (done || simpl in Hf; lia). done.
Qed.

(** What is sent over a socket arrives, between machines of any byte orders: all the messages, with
    their bytes and in their order, then the end of the connection; the reading thread ends. *)
Theorem socket_roundtrip sender receiver buffer ms :
  Forall sendable ms →
  socket_worker (S (length ms)) receiver buffer (concat (map (socket_message sender) ms)) =
    Some (Ret (map got_message ms ++ [got_disconnect])).
Proof. intros Hm. apply socket_worker_ok; (done || lia). Qed.

(** * The socket server *)

Inductive handler_kind := accept_preinit | accept_regular | handle_preinit | handle_aux | handle_session.

(** [ipc/src/server_endpoint_sockets.h:37-62] socket_handler. A socket is the number of its connection. *)
Record socket_handler := mk_handler { h_id : Z; h_kind : handler_kind; h_socket : nat }.

#[export] Instance handler_kind_eq_dec : EqDecision handler_kind.
Proof. solve_decision. Defined.
#[export] Instance socket_handler_eq_dec : EqDecision socket_handler.
Proof. solve_decision. Defined.

(** [ipc/src/server_endpoint_sockets.h:40-40] socket_handler::status *)
Inductive status := proceed | remove_this | exit_thread.

(** What the sessions of a server are told, by the identifiers of their handlers. *)
Inductive session_event :=
  | session_created (id : Z)
  | session_message (id : Z) (payload : list Z)
  | session_disconnected (id : Z)
  | session_released (id : Z).

(** [ipc/src/server_endpoint_sockets.h:64-96] server. [streams] are what can be read from the connections,
    [backlog] those that are waiting to be accepted; [released] are those whose handlers are gone. *)
Record socket_server := mk_server {
  handlers : list socket_handler;
  next_id : Z;
  streams : gmap nat (list Z);
  backlog : list nat;
  buffer : list Z;
  events : list session_event
}.

Definition init_magic : Z := 0xFFFFFFFE.

Definition log (e : session_event) (s : socket_server) : socket_server :=
  mk_server (handlers s) (next_id s) (streams s) (backlog s) (buffer s) (events s ++ [e]).
Definition with_handlers (hs : list socket_handler) (s : socket_server) : socket_server :=
  mk_server hs (next_id s) (streams s) (backlog s) (buffer s) (events s).
Definition stream_of (c : nat) (s : socket_server) : list Z := default [] (streams s !! c).
Definition set_stream (c : nat) (l : list Z) (s : socket_server) : socket_server :=
  mk_server (handlers s) (next_id s) (<[c := l]> (streams s)) (backlog s) (buffer s) (events s).
Definition with_buffer (b : list Z) (s : socket_server) : socket_server :=
  mk_server (handlers s) (next_id s) (streams s) (backlog s) b (events s).

Section server.
Context (little : bool).

(** [ipc/src/server_endpoint_sockets.cpp:88-92] socket_handler::~socket_handler. The session goes first. *)
Definition drop_handler (h : socket_handler) (s : socket_server) : socket_server :=
  match h_kind h with handle_session => log (session_released (h_id h)) s | _ => s end.

(** [ipc/src/server_endpoint_sockets.cpp:180-190] server::handle_preinit. Who had been waiting becomes a session. *)
Definition promote (first : bool) (aux : nat) (h : socket_handler) (s : socket_server) :
    socket_handler * socket_server :=
  if first then (mk_handler (h_id h) accept_regular (h_socket h), s)
  else if (h_socket h =? aux)%nat then (mk_handler (h_id h) handle_aux (h_socket h), s)
  else (mk_handler (h_id h) handle_session (h_socket h), log (session_created (h_id h)) s).

(** [ipc/src/server_endpoint_sockets.cpp:180-190] server::handle_preinit. The loop. *)
Fixpoint promote_all (first : bool) (aux : nat) (hs : list socket_handler) (s : socket_server) :
    list socket_handler * socket_server :=
  match hs with
  | [] => ([], s)
  | h :: hs =>
    let '(h, s) := promote first aux h s in
    let '(hs, s) := promote_all false aux hs s in (h :: hs, s)
  end.

(** [ipc/src/server_endpoint_sockets.cpp:173-193] server::handle_preinit. [arrived] bytes can be seen already; to peek
    does not wait for more. *)
Definition do_preinit (arrived : nat) (h : socket_handler) (s : socket_server) : result (status * socket_server) :=
  match recv_scalar little (take arrived (stream_of (h_socket h) s)) with
  | (_, Some magic, _) =>
    if magic =? init_magic then
      let s := set_stream (h_socket h) (drop 4 (stream_of (h_socket h) s)) s in
      let '(hs, s) := promote_all true (h_socket h) (handlers s) s in
      Ret (proceed, with_handlers hs s)
    else Ret (proceed, s)
  | _ => Ret (proceed, s)
  end.

(** [ipc/src/server_endpoint_sockets.cpp:195-203] server::accept_preinit. [accept] fails when nobody is waiting. *)
Definition do_accept_preinit (s : socket_server) : result (status * socket_server) :=
  match backlog s with
  | [] => Throw invalid_argument
  | c :: waiting =>
    Ret (proceed, mk_server (handlers s ++ [mk_handler (next_id s) handle_preinit c]) (u32 (next_id s + 1))
      (streams s) waiting (buffer s) (events s))
  end.

(** [ipc/src/server_endpoint_sockets.cpp:205-216] server::accept_regular *)
Definition do_accept_regular (s : socket_server) : result (status * socket_server) :=
  match backlog s with
  | [] => Throw invalid_argument
  | c :: waiting =>
    Ret (proceed, mk_server (handlers s ++ [mk_handler (next_id s) handle_session c]) (u32 (next_id s + 1))
      (streams s) waiting (buffer s) (events s ++ [session_created (next_id s)]))
  end.

(** [ipc/src/server_endpoint_sockets.cpp:218-234] server::handle_session *)
Definition do_session (h : socket_handler) (s : socket_server) : result (status * socket_server) :=
  match recv_scalar little (stream_of (h_socket h) s) with
  | (0%nat, _, _) => Ret (remove_this, log (session_disconnected (h_id h)) s)
  | (_, None, _) => UB
  | (_, Some size, stream) =>
    '(body, stream) ← recv_body size (buffer s) stream;
    Ret (proceed, log (session_message (h_id h) body) (with_buffer body (set_stream (h_socket h) stream s)))
  end.

(** [ipc/src/server_endpoint_sockets.cpp:241-246] server::handle_aux. The first handler of an identifier is erased. *)
Fixpoint erase_id (id : Z) (hs : list socket_handler) : option (socket_handler * list socket_handler) :=
  match hs with
  | [] => None
  | h :: hs => if h_id h =? id then Some (h, hs) else '(h', hs') ← erase_id id hs; Some (h', h :: hs')
  end.

(** [ipc/src/server_endpoint_sockets.cpp:236-248] server::handle_aux *)
Definition do_aux (h : socket_handler) (s : socket_server) : result (status * socket_server) :=
  match recv_scalar little (stream_of (h_socket h) s) with
  | (0%nat, _, _) => Ret (exit_thread, s)
  | (_, None, _) => UB
  | (_, Some id, stream) =>
    let s := set_stream (h_socket h) stream s in
    match erase_id id (handlers s) with
    | Some (gone, hs) => Ret (proceed, drop_handler gone (with_handlers hs s))
    | None => Ret (exit_thread, s)
    end
  end.

(** The handler that is called. *)
Definition call_handler (arrived : nat) (h : socket_handler) (s : socket_server) : result (status * socket_server) :=
  match h_kind h with
  | accept_preinit => do_accept_preinit s
  | accept_regular => do_accept_regular s
  | handle_preinit => do_preinit arrived h s
  | handle_aux => do_aux h s
  | handle_session => do_session h s
  end.

(** What is behind an element of the list: none if the element is not there any more. *)
Fixpoint behind (c : nat) (hs : list socket_handler) : option (list socket_handler) :=
  match hs with
  | [] => None
  | h :: hs => if (h_socket h =? c)%nat then Some hs else behind c hs
  end.

(** [ipc/src/server_endpoint_sockets.cpp:108-124] socket_handler::run. One round over the handlers: [cur] is what is
    left of it, [ready] the sockets that can be read, with what has arrived.  The answer is whether
    the thread goes on; an iterator whose element was erased is not defined to be advanced. *)
Fixpoint run_round (fuel : nat) (ready : gmap nat nat) (cur : list socket_handler) (s : socket_server) :
    option (result (bool * socket_server)) :=
  match cur with
  | [] => Some (Ret (true, s))
  | h :: _ =>
    match fuel with
    | O => None
    | S fuel =>
      match (match ready !! h_socket h with
             | Some arrived => call_handler arrived h s
             | None => Ret (proceed, s)
             end) with
      | Throw e => Some (Throw e)
      | UB => Some UB
      | Ret (exit_thread, s) => Some (Ret (false, s))
      | Ret (proceed, s) =>
        match behind (h_socket h) (handlers s) with
        | None => Some UB
        | Some cur => run_round fuel ready cur s
        end
      | Ret (remove_this, s) =>
        match behind (h_socket h) (handlers s) with
        | None => Some UB
        | Some cur =>
          run_round fuel ready cur
            (drop_handler h (with_handlers (filter (λ x, h_socket x ≠ h_socket h) (handlers s)) s))
        end
      end
    end
  end.

(** [ipc/src/server_endpoint_sockets.cpp:99-125] socket_handler::run. The rounds; when [select] fails, or after an
    exception, the thread ends as well. *)
Fixpoint run_rounds (rounds : list (gmap nat nat)) (s : socket_server) : option (bool * socket_server) :=
  match rounds with
  | [] => Some (true, s)
  | ready :: rounds =>
    match run_round (S (length (handlers s))) ready (handlers s) s with
    | Some (Ret (true, s)) => run_rounds rounds s
    | Some (Ret (false, s)) => Some (false, s)
    | Some (Throw _) => Some (false, s)
    | Some UB | None => None
    end
  end.

(** [ipc/src/server_endpoint_sockets.cpp:148-165] server::server. The acceptor is the first handler; the connection
    [aux] to the own port is waiting, with the magic number. *)
Definition new_socket_server (acceptor aux : nat) (before : list nat) (streams : gmap nat (list Z)) : socket_server :=
  mk_server [mk_handler 100 accept_preinit acceptor] 101 (<[aux := send_scalar little init_magic]> streams)
    (before ++ [aux]) [] [].

(** [ipc/src/server_endpoint_sockets.cpp:136-137] socket_handler::disconnect *)
Definition outbound_disconnect (aux : nat) (id : Z) (s : socket_server) : socket_server :=
  set_stream aux (stream_of aux s ++ send_scalar little id) s.

(** [ipc/src/server_endpoint_sockets.cpp:167-171] server::~server. Zero is the identifier of no handler. *)
Definition stop_server (aux : nat) (s : socket_server) : socket_server := outbound_disconnect aux 0 s.

(** ** The list of handlers during a round *)

Abbreviation sockets hs := (map h_socket hs).

Lemma behind_split c hs : NoDup (sockets hs) → ∀ pre h post,
  hs = pre ++ h :: post → h_socket h = c → behind c hs = Some post.
Proof.
  intros Hnd pre h post -> <-. induction pre as [|x pre IH]; simpl; [by rewrite Nat.eqb_refl|].
  simpl in Hnd. apply NoDup_cons in Hnd as [Hx Hnd]. destruct (Nat.eqb_spec (h_socket x) (h_socket h)) as [E|].
  - destruct Hx. rewrite E, map_app. apply elem_of_app. right. by left.
  - by apply IH.
Qed.

Lemma erase_id_split id hs gone hs' : erase_id id hs = Some (gone, hs') →
  h_id gone = id ∧ ∃ l1 l2, hs = l1 ++ gone :: l2 ∧ hs' = l1 ++ l2.
Proof.
  revert hs'. induction hs as [|h hs IH]; intros hs'; simpl; [done|].
  destruct (Z.eqb_spec (h_id h) id) as [E|].
  - intros [= -> ->]. split; [done|]. by exists [], hs'.
  - destruct (erase_id id hs) as [[g l]|]; [|done]. intros [= -> <-].
    destruct (IH l eq_refl) as (Hid & l1 & l2 & -> & ->). split; [done|]. by exists (h :: l1), l2.
Qed.

Lemma erase_id_None id hs : erase_id id hs = None ↔ id ∉ map h_id hs.
Proof.
  induction hs as [|h hs IH]; simpl; [split; [intros _; apply not_elem_of_nil|done]|].
  rewrite not_elem_of_cons. destruct (Z.eqb_spec (h_id h) id) as [E|E]; [naive_solver|].
  destruct (erase_id id hs) as [[g l]|]; simpl; naive_solver.
Qed.

(** An element that stays is not lost when another is erased, and what is behind it does not grow. *)
Lemma erased_around (pre post l1 l2 : list socket_handler) h gone :
  pre ++ h :: post = l1 ++ gone :: l2 → h ≠ gone →
  ∃ pre' post', l1 ++ l2 = pre' ++ h :: post' ∧ (length post' ≤ length post)%nat.
Proof.
  revert l1. induction pre as [|x pre IH]; intros [|y l1]; simpl; intros [= -> Heq] Hne; try done.
  - subst. exists [], (l1 ++ l2). split; [done|]. rewrite !length_app. simpl. lia.
  - subst. by exists pre, post.
  - destruct (IH l1 Heq Hne) as (pre' & post' & -> & Hl). by exists (y :: pre'), post'.
Qed.
End server.

(** ** What holds between two calls *)

Section server_inv.
Context (little : bool) (peer : nat → bool) (plan : nat → list (list Z)) (acceptor aux : nat).

(** The messages that the peers of a server send; a length is never the magic number. *)
Definition frames (c : nat) (ms : list (list Z)) : list Z := concat (map (socket_message (peer c)) ms).
Hypothesis plan_ok : ∀ c, Forall (λ m, sendable m ∧ len m ≠ init_magic) (plan c).
Hypothesis aux_ne : aux ≠ acceptor.

(** The messages a session has got. *)
Definition delivered (id : Z) (es : list session_event) : list (list Z) :=
  omap (λ e, match e with
    | session_message i m => if decide (i = id) then Some m else None
    | _ => None
    end) es.

(** A connection: what its session has got and what is still in the stream are the peer's messages. *)
Definition conn_ok (s : socket_server) (h : socket_handler) : Prop :=
  ∃ rest, stream_of (h_socket h) s = frames (h_socket h) rest ∧
    delivered (h_id h) (events s) ++ rest = plan (h_socket h).

(** An identifier that can be found in the connection [aux]: of a session, or of nobody. *)
Definition issued (s : socket_server) (id : Z) : Prop :=
  0 ≤ id < next_id s ∧ ∀ h, h ∈ handlers s → h_id h = id → h_kind h = handle_session.

Definition phase_ok (k : handler_kind) (rest : list socket_handler) (s : socket_server) : Prop :=
  (k = accept_preinit ∧ Forall (λ h, h_kind h = handle_preinit) rest ∧
     ∃ ids, stream_of aux s = send_scalar little init_magic ++ concat (map (send_scalar little) ids) ∧
       Forall (issued s) ids) ∨
  (k = accept_regular ∧ aux ∉ backlog s ∧
     Forall (λ h, h_kind h = if decide (h_socket h = aux) then handle_aux else handle_session) rest ∧
     ∃ ids, stream_of aux s = concat (map (send_scalar little) ids) ∧ Forall (issued s) ids).

Record server_ok (s : socket_server) : Prop := {
  so_phase : ∃ a rest, handlers s = a :: rest ∧ h_socket a = acceptor ∧ phase_ok (h_kind a) rest s;
  so_sockets : NoDup (map h_socket (handlers s) ++ backlog s);
  so_ids : NoDup (map h_id (handlers s));
  so_range : Forall (λ h, 100 ≤ h_id h < next_id s) (handlers s);
  so_conns h : h ∈ handlers s → h_socket h ≠ acceptor → h_socket h ≠ aux → conn_ok s h;
  so_backlog c : c ∈ backlog s → c ≠ aux → stream_of c s = frames c (plan c);
  so_fresh id : next_id s ≤ id → delivered id (events s) = []
}.

Lemma stream_set c c' l s : stream_of c (set_stream c' l s) = if decide (c = c') then l else stream_of c s.
Proof.
  unfold stream_of, set_stream. simpl. destruct (decide (c = c')) as [->|].
  - by rewrite lookup_insert_eq.
  - by rewrite lookup_insert_ne.
Qed.

Lemma delivered_app id es es' : delivered id (es ++ es') = delivered id es ++ delivered id es'.
Proof. apply omap_app. Qed.

Lemma frames_cons c m ms : frames c (m :: ms) = socket_message (peer c) m ++ frames c ms.
Proof. done. Qed.

Lemma rest_ok s h : conn_ok s h → ∃ rest, stream_of (h_socket h) s = frames (h_socket h) rest ∧
  delivered (h_id h) (events s) ++ rest = plan (h_socket h) ∧
  Forall (λ m, sendable m ∧ len m ≠ init_magic) rest.
Proof using plan_ok.
  intros (rest & Hs & Hd). exists rest. split_and!; [done|done|].
  pose proof (plan_ok (h_socket h)) as Hp. rewrite <- Hd in Hp. by apply Forall_app in Hp as [_ ?].
Qed.

(** The handlers' sockets are their own. *)
Lemma same_socket s h h' : server_ok s → h ∈ handlers s → h' ∈ handlers s → h_socket h = h_socket h' → h = h'.
Proof using Type.
  intros Hs Hh Hh' E. pose proof (so_sockets _ Hs) as Hnd. apply NoDup_app in Hnd as [Hnd _].
  by apply (NoDup_map_elem h_socket (handlers s)).
Qed.

(** ** Accepting *)

Definition accepted (k : handler_kind) (c : nat) (waiting : list nat) (es : list session_event)
    (s : socket_server) : socket_server :=
  mk_server (handlers s ++ [mk_handler (next_id s) k c]) (u32 (next_id s + 1)) (streams s) waiting
    (buffer s) (events s ++ es).

Lemma accepted_ok s k c waiting es a rest :
  server_ok s → backlog s = c :: waiting → next_id s + 1 < 2 ^ 32 →
  handlers s = a :: rest →
  (h_kind a = accept_preinit ∧ k = handle_preinit ∧ es = [] ∨
   h_kind a = accept_regular ∧ k = handle_session ∧ es = [session_created (next_id s)]) →
  server_ok (accepted k c waiting es s).
Proof using aux_ne.
  intros [Hph Hso Hid Hr Hc Hb Hf] Hbl Hn Hh Hk. rewrite Hbl in Hso, Hb.
  assert (0 ≤ next_id s) as Hn0 by (rewrite Hh in Hr; apply Forall_cons in Hr as [? _]; lia).
  assert (u32 (next_id s + 1) = next_id s + 1) as Hu by (apply (uw_small 32); unfold in_u; lia).
  assert (∀ id, delivered id es = []) as Hes by (intros id; destruct Hk as [(_ & _ & ->)|(_ & _ & ->)]; done).
  destruct Hph as (a' & rest' & Heq & Ha & Hph). rewrite Hh in Heq. injection Heq as <- <-.
  split; unfold accepted; cbn [handlers next_id streams backlog buffer events].
  - exists a, (rest ++ [mk_handler (next_id s) k c]). split_and!; [by rewrite Hh|done|].
    assert (∀ id, issued s id → (∀ h, h = mk_handler (next_id s) k c → h_id h ≠ id)) as Hne.
    { intros id [Hid' _] h -> E. simpl in E. lia. }
    assert (∀ ids, Forall (issued s) ids → Forall (issued (accepted k c waiting es s)) ids) as Hi.
    { intros ids Hall. eapply Forall_impl; [exact Hall|]. intros id Hiss. pose proof (Hne id Hiss) as Hx. destruct Hiss as [? Hs'].
      split; simpl; [rewrite Hu; lia|]. intros h [Hin|Hin%list_elem_of_singleton]%elem_of_app E; [auto|].
      by destruct (Hx h Hin). }
    destruct Hph as [(Ek & Hre & ids & Hst & Hids)|(Ek & Hnb & Hre & ids & Hst & Hids)].
    + left. destruct Hk as [(_ & -> & _)|(? & _)]; [|congruence]. split_and!; [done| |by exists ids; split; [|apply Hi]].
      apply Forall_app. split; [done|]. by constructor.
    + right. destruct Hk as [(? & _)|(_ & -> & _)]; [congruence|].
      assert (c ≠ aux) as Hca by (intros ->; destruct Hnb; rewrite Hbl; by left).
      rewrite Hbl in Hnb.
      split_and!; [done|by intros ?; apply Hnb; right| |by exists ids; split; [|apply Hi]].
      apply Forall_app. split; [done|]. constructor; [|done]. simpl. by rewrite decide_False.
  - rewrite map_app, <- app_assoc. done.
  - rewrite map_app. apply NoDup_app. split_and!; [done| |apply NoDup_singleton].
    intros i (h & -> & Hin)%list_elem_of_fmap Hi%list_elem_of_singleton. simpl in Hi.
    rewrite Forall_forall in Hr. specialize (Hr h Hin). lia.
  - rewrite Hu. apply Forall_app. split; [|by repeat constructor; simpl; rewrite Hh in Hr; apply Forall_cons in Hr as [? _]; lia].
    eapply Forall_impl; [exact Hr|]. simpl. lia.
  - intros h [Hin|Hin%list_elem_of_singleton]%elem_of_app Hna Hnx.
    + destruct (Hc h Hin Hna Hnx) as (r & ? & ?). exists r. simpl. rewrite delivered_app, Hes, app_nil_r. done.
    + subst h. simpl in *. exists (plan c). simpl. rewrite delivered_app, Hes, Hf by lia.
      split; [|done]. apply Hb; [by left|done].
  - intros c' Hc' Hne. apply Hb; [by right|done].
  - rewrite Hu. intros id Hle. rewrite delivered_app, Hes, Hf by lia. done.
Qed.

(** ** The magic number *)

Definition promoted (h : socket_handler) : socket_handler :=
  mk_handler (h_id h) (if decide (h_socket h = aux) then handle_aux else handle_session) (h_socket h).

Definition logs (es : list session_event) (s : socket_server) : socket_server :=
  mk_server (handlers s) (next_id s) (streams s) (backlog s) (buffer s) (events s ++ es).

Lemma promote_rest hs : ∀ s, ∃ es, promote_all false aux hs s = (map promoted hs, logs es s) ∧
  ∀ id, delivered id es = [].
Proof using Type.
  induction hs as [|h hs IH]; intros s; cbn [promote_all map].
  - exists []. split; [|done]. unfold logs. rewrite app_nil_r. by destruct s.
  - unfold promote, promoted. destruct (Nat.eqb_spec (h_socket h) aux) as [E|E].
    + destruct (IH s) as (es & Heq & Hes). rewrite Heq. exists es. split; [|done]. by rewrite decide_True.
    + destruct (IH (log (session_created (h_id h)) s)) as (es & Heq & Hes). rewrite Heq.
      exists (session_created (h_id h) :: es). rewrite decide_False by done. split.
      * unfold logs, log. simpl. by rewrite <- app_assoc.
      * intros id. by apply Hes.
Qed.

Lemma recv_peek p v k rest w :
  in_u 32 v → (recv_scalar little (take k (send_scalar p v ++ rest))).1.2 = Some w → w = v.
Proof using Type.
  clear aux_ne plan_ok. intros Hv. pose proof (recv_sent p little v rest Hv) as Hr. unfold recv_scalar in *. simpl.
  destruct (Nat.eqb_spec (length (take 4 (take k (send_scalar p v ++ rest)))) 4) as [El|]; [|done].
  rewrite length_take, length_take in El. rewrite take_take, (Nat.min_l 4 k) by lia.
  injection Hr as _ Hr _. intros [= <-]. destruct (_ =? 4)%nat in Hr; congruence.
Qed.

Lemma handler_phase s h : server_ok s → h ∈ handlers s →
  h_socket h = acceptor ∧ (h_kind h = accept_preinit ∨ h_kind h = accept_regular) ∨
  h_socket h ≠ acceptor ∧ h_kind h ≠ accept_preinit ∧ h_kind h ≠ accept_regular.
Proof using aux_ne.
  intros Hs Hh. pose proof (same_socket s) as Hsame. pose proof (so_sockets _ Hs) as Hnd.
  destruct (so_phase _ Hs) as (a & rest & Ha & Hsa & Hph).
  rewrite Ha in Hh. apply elem_of_cons in Hh as [->|Hh].
  - left. split; [done|]. destruct Hph as [[? _]|[? _]]; auto.
  - right. split.
    + intros E. rewrite Ha in Hnd. simpl in Hnd. apply NoDup_cons in Hnd as [Hn _]. destruct Hn.
      apply elem_of_app. left. rewrite Hsa, <- E. by apply list_elem_of_fmap_2.
    + destruct Hph as [(_ & Hf & _)|(_ & _ & Hf & _)]; rewrite Forall_forall in Hf; rewrite (Hf h Hh);
        [done|by destruct (decide _)].
Qed.

Lemma preinit_phase s h : server_ok s → h ∈ handlers s → h_kind h = handle_preinit →
  ∃ a rest, handlers s = a :: rest ∧ h ∈ rest ∧ h_socket a = acceptor ∧ h_kind a = accept_preinit ∧
    Forall (λ h, h_kind h = handle_preinit) rest ∧
    ∃ ids, stream_of aux s = send_scalar little init_magic ++ concat (map (send_scalar little) ids) ∧
      Forall (issued s) ids.
Proof using Type.
  intros Hs Hh Hk. destruct (so_phase _ Hs) as (a & rest & Ha & Hsa & Hph). exists a, rest.
  rewrite Ha in Hh. apply elem_of_cons in Hh as [->|Hh].
  - destruct Hph as [(E & _)|(E & _)]; congruence.
  - destruct Hph as [(E & Hf & Hids)|(E & _ & Hf & _)]; [by split_and!|].
    rewrite Forall_forall in Hf. specialize (Hf h Hh). simpl in Hf. rewrite Hk in Hf. by destruct (decide _).
Qed.

(** After the magic number: the state of the regular phase. *)
Definition regular (rest : list socket_handler) (a : socket_handler) (stream : list Z)
    (es : list session_event) (s : socket_server) : socket_server :=
  mk_server (mk_handler (h_id a) accept_regular (h_socket a) :: map promoted rest) (next_id s)
    (<[aux := stream]> (streams s)) (backlog s) (buffer s) (events s ++ es).

Lemma promoted_sockets hs : map h_socket (map promoted hs) = map h_socket hs.
Proof using Type. by rewrite map_map. Qed.
Lemma promoted_ids hs : map h_id (map promoted hs) = map h_id hs.
Proof using Type. by rewrite map_map. Qed.

Lemma regular_ok s a rest ids es :
  server_ok s → handlers s = a :: rest → h_socket a = acceptor →
  Forall (λ h, h_kind h = handle_preinit) rest → h_kind a = accept_preinit → Forall (issued s) ids →
  aux ∈ map h_socket rest →
  (∀ id, delivered id es = []) →
  server_ok (regular rest a (concat (map (send_scalar little) ids)) es s).
Proof using aux_ne.
  intros [Hph Hso Hid Hr Hc Hb Hf] Ha Hsa Hre Hka Hids Haux Hes. rewrite Ha in Hso, Hid, Hr, Hc.
  assert (∀ c l, c ≠ aux → stream_of c (regular rest a l es s) = stream_of c s) as Hst
    by (intros; unfold stream_of, regular; simpl; by rewrite lookup_insert_ne).
  split; cbn [handlers next_id streams backlog buffer events regular].
  - eexists _, _. split_and!; [done|done|]. right. split_and!; [done| | |exists ids; split].
    + simpl. intros Hbx. simpl in Hso. apply NoDup_cons in Hso as [_ Hso]. apply NoDup_app in Hso as (_ & Hd & _).
      by apply (Hd aux).
    + apply Forall_fmap, Forall_forall. intros h _. done.
    + unfold stream_of. simpl. by rewrite lookup_insert_eq.
    + eapply Forall_impl; [exact Hids|]. intros id [Hi Hk]. split; [done|]. intros h Hh E. exfalso.
      assert (∀ x, x ∈ handlers s → h_id x ≠ id) as Hno.
      { intros x Hx Ex. specialize (Hk x Hx Ex). rewrite Ha in Hx. apply elem_of_cons in Hx as [->|Hx];
          [congruence|]. rewrite Forall_forall in Hre. specialize (Hre x Hx). simpl in Hre. congruence. }
      rewrite Ha in Hno. apply elem_of_cons in Hh as [->|(x & -> & Hx)%list_elem_of_fmap].
      * by apply (Hno a); [left|].
      * by apply (Hno x); [right|].
  - simpl. by rewrite promoted_sockets.
  - simpl. by rewrite promoted_ids.
  - apply Forall_cons in Hr as [Hra Hr]. constructor; [done|]. apply Forall_fmap. done.
  - intros h Hh Hna Hnx. apply elem_of_cons in Hh as [->|(x & -> & Hx)%list_elem_of_fmap]; [done|].
    destruct (Hc x) as (r & Hr1 & Hr2); [by right|done|done|]. exists r. rewrite Hst by done. split; [done|].
    simpl. by rewrite delivered_app, Hes, app_nil_r.
  - intros c Hcb Hne. rewrite Hst by done. by apply Hb.
  - intros id Hle. rewrite delivered_app, Hes, Hf by done. done.
Qed.

Lemma preinit_ok arrived s h :
  server_ok s → h ∈ handlers s → h_kind h = handle_preinit →
  ∃ s', do_preinit little arrived h s = Ret (proceed, s') ∧ server_ok s' ∧
    map h_socket (handlers s') = map h_socket (handlers s) ∧ next_id s' = next_id s.
Proof using aux_ne plan_ok.
  intros Hs Hh Hk. destruct (preinit_phase s h Hs Hh Hk) as (a & rest & Ha & Hin & Hsa & Hka & Hre & ids & Hx & Hids).
  unfold do_preinit. destruct (recv_scalar little _) as [[n v] l] eqn:E.
  destruct v as [v|]; [|by exists s]. destruct (Z.eqb_spec v init_magic) as [->|]; [|by exists s].
  assert (h_socket h = aux) as Haux.
  { destruct (decide (h_socket h = aux)) as [|Hne]; [done|exfalso].
    destruct (handler_phase s h Hs Hh) as [[_ [?|?]]|[Hna _]]; [congruence..|].
    destruct (rest_ok s h (so_conns _ Hs h Hh Hna Hne)) as (ms & Hst & _ & Hms). rewrite Hst in E.
    destruct ms as [|m ms]; [change (frames (h_socket h) []) with (@nil Z) in E; by rewrite take_nil in E|]. apply Forall_cons in Hms as [[Hm Hmm] _].
    rewrite frames_cons in E. unfold socket_message in E. rewrite <- app_assoc in E.
    destruct Hm as [_ Hm]. rewrite (uw_small 32 ltac:(lia)) in E by done.
    apply Hmm. symmetry. by eapply recv_peek; [|rewrite E]. }
  rewrite Haux, Hx. rewrite (drop_app_length' (send_scalar little init_magic)) by (by rewrite send_scalar_length).
  set (s1 := set_stream aux (concat (map (send_scalar little) ids)) s).
  assert (handlers s1 = a :: rest) as -> by done. cbn [promote_all promote].
  destruct (promote_rest rest s1) as (es & -> & Hes).
  eexists. split; [done|]. split_and!; [| |done].
  - apply (regular_ok s a rest ids es); try done. rewrite <- Haux. by apply list_elem_of_fmap_2.
  - rewrite Ha. simpl. by rewrite promoted_sockets.
Qed.

(** ** Sessions *)

(** A call changes one stream and what its session got; the rest of the list stays. *)
Lemma session_ok s h :
  server_ok s → h ∈ handlers s → h_kind h = handle_session →
  (∃ m s', do_session little h s = Ret (proceed, s') ∧ server_ok s' ∧ handlers s' = handlers s ∧
     next_id s' = next_id s ∧ events s' = events s ++ [session_message (h_id h) m]) ∨
  (do_session little h s = Ret (remove_this, log (session_disconnected (h_id h)) s) ∧
     delivered (h_id h) (events s) = plan (h_socket h)).
Proof using aux_ne plan_ok.
  intros Hs Hh Hk. destruct (handler_phase s h Hs Hh) as [[_ [?|?]]|[Hna _]]; [congruence..|].
  pose proof (same_socket s) as Hsame.
  assert (h_socket h ≠ aux) as Hne.
  { intros E. destruct (so_phase _ Hs) as (a & rest & Ha & Hsa & Hph). rewrite Ha in Hh.
    apply elem_of_cons in Hh as [->|Hh]; [congruence|].
    destruct Hph as [(_ & Hf & _)|(_ & _ & Hf & _)]; rewrite Forall_forall in Hf; specialize (Hf h Hh); simpl in Hf.
    - congruence.
    - rewrite Hk, decide_True in Hf; done. }
  destruct (rest_ok s h (so_conns _ Hs h Hh Hna Hne)) as (ms & Hst & Hd & Hms).
  unfold do_session. rewrite Hst. destruct ms as [|m ms].
  { right. split; [done|]. by rewrite app_nil_r in Hd. }
  left. apply Forall_cons in Hms as [[Hm _] _]. rewrite frames_cons, recv_message, recv_body_ok by done.
  exists m. eexists. split; [done|]. split_and!; [|done..].
  destruct Hs as [Hph Hso Hid Hr Hc Hb Hf].
  split; cbn [handlers next_id streams backlog buffer events log with_buffer set_stream]; try done.
  - destruct Hph as (a & rest & Ha & Hsa & Hph). exists a, rest. split_and!; [done|done|].
    unfold phase_ok, issued, stream_of in *. simpl. by rewrite lookup_insert_ne.
  - intros x Hx Hxa Hxx. unfold conn_ok. destruct (decide (h_socket x = h_socket h)) as [E|E].
    + assert (x = h) as -> by (apply NoDup_app in Hso as [Hso _]; by apply (NoDup_map_elem h_socket (handlers s))).
      exists ms. unfold stream_of. simpl. rewrite lookup_insert_eq, delivered_app. simpl.
      rewrite decide_True by done. split; [done|]. by rewrite <- app_assoc.
    + destruct (Hc x Hx Hxa Hxx) as (r & Hr1 & Hr2). exists r. unfold stream_of in *. simpl.
      rewrite lookup_insert_ne by done. split; [done|]. rewrite delivered_app. simpl.
      rewrite decide_False; [by rewrite app_nil_r|]. intros Ei. apply E. f_equal.
      symmetry. by apply (NoDup_map_elem h_id (handlers s)).
  - intros c Hcb Hcx. unfold stream_of in *. simpl. rewrite lookup_insert_ne; [by apply Hb|].
    intros <-. apply NoDup_app in Hso as (_ & Hdis & _). apply (Hdis (h_socket h)); [|done].
    by apply list_elem_of_fmap_2.
  - intros id Hle. rewrite delivered_app, Hf by done. simpl. rewrite decide_False; [done|].
    rewrite Forall_forall in Hr. specialize (Hr h Hh). lia.
Qed.

(** ** Removal *)

Lemma removed_ok s hs es :
  server_ok s → hs `sublist_of` handlers s → (∃ a rest, hs = a :: rest ∧ h_socket a = acceptor) →
  (∀ id, delivered id es = []) →
  server_ok (mk_server hs (next_id s) (streams s) (backlog s) (buffer s) (events s ++ es)).
Proof using aux_ne.
  intros Hs Hsub (a & rest & Ha & Hsa) Hes.
  assert (∀ x, x ∈ hs → x ∈ handlers s) as Hin by (intros x Hx; by eapply elem_of_sublist).
  destruct (so_phase _ Hs) as (a' & rest' & Ha' & Hsa' & Hph).
  assert (a = a') as ->.
  { apply (same_socket s); [done|apply Hin; rewrite Ha; by left|rewrite Ha'; by left|congruence]. }
  assert (∀ x, x ∈ rest → x ∈ rest') as Hrest.
  { intros x Hx. assert (x ∈ handlers s) as Hx' by (apply Hin; rewrite Ha; by right).
    rewrite Ha' in Hx'. apply elem_of_cons in Hx' as [->|]; [|done].
    pose proof (sublist_NoDup _ _ (NoDup_fmap_1 h_id _ (so_ids _ Hs)) Hsub) as Hnd. rewrite Ha in Hnd.
    by apply NoDup_cons in Hnd as [Hn _]. }
  destruct Hs as [_ Hso Hid Hr Hc Hb Hf].
  split; cbn [handlers next_id streams backlog buffer events].
  - exists a', rest. split_and!; [done|done|].
    assert (∀ ids, Forall (issued s) ids →
      Forall (issued (mk_server hs (next_id s) (streams s) (backlog s) (buffer s) (events s ++ es))) ids) as Hi.
    { intros ids Hall. eapply Forall_impl; [exact Hall|]. intros id [? Hk]. split; [done|]. simpl. auto. }
    rewrite !Forall_forall in *.
    destruct Hph as [(Ek & Hre & ids & Hst & Hids)|(Ek & Hnb & Hre & ids & Hst & Hids)].
    + left. rewrite Forall_forall in Hre. split_and!; [done|apply Forall_forall; auto|exists ids; auto].
    + right. rewrite Forall_forall in Hre. split_and!; [done|done|apply Forall_forall; auto|exists ids; auto].
  - eapply sublist_NoDup; [exact Hso|]. apply sublist_app; [|done]. by apply (fmap_sublist h_socket).
  - eapply sublist_NoDup; [exact Hid|]. by apply (fmap_sublist h_id).
  - rewrite Forall_forall in Hr |- *. auto.
  - intros h Hh Hna Hnx. destruct (Hc h (Hin h Hh) Hna Hnx) as (r & ? & ?). exists r. simpl.
    by rewrite delivered_app, Hes, app_nil_r.
  - done.
  - intros id Hle. by rewrite delivered_app, Hes, Hf.
Qed.

(** A session that is over leaves the list. *)
Lemma session_removed_ok s h :
  server_ok s → h ∈ handlers s → h_kind h = handle_session →
  server_ok (drop_handler h (with_handlers (filter (λ x, h_socket x ≠ h_socket h) (handlers s))
    (log (session_disconnected (h_id h)) s))).
Proof using aux_ne.
  intros Hs Hh Hk. unfold drop_handler. rewrite Hk.
  unfold with_handlers, log. cbn [handlers next_id streams backlog buffer events]. rewrite <- app_assoc.
  apply removed_ok; [done|apply sublist_filter| |done].
  destruct (so_phase _ Hs) as (a & rest & Ha & Hsa & Hph). rewrite Ha.
  destruct (handler_phase s h Hs Hh) as [[_ [?|?]]|[Hna _]]; [congruence..|].
  exists a, (filter (λ x, h_socket x ≠ h_socket h) rest). split; [|done].
  apply filter_cons_True. congruence.
Qed.

(** ** The own connection *)

Lemma aux_phase s h : server_ok s → h ∈ handlers s → h_kind h = handle_aux →
  ∃ a rest ids, handlers s = a :: rest ∧ h_socket a = acceptor ∧ h_kind a = accept_regular ∧ h ∈ rest ∧
    Forall (λ h, h_kind h = if decide (h_socket h = aux) then handle_aux else handle_session) rest ∧
    h_socket h = aux ∧ stream_of aux s = concat (map (send_scalar little) ids) ∧ Forall (issued s) ids.
Proof using Type.
  intros Hs Hh Hk. destruct (so_phase _ Hs) as (a & rest & Ha & Hsa & Hph). exists a, rest.
  rewrite Ha in Hh. apply elem_of_cons in Hh as [->|Hh].
  - destruct Hph as [(E & _)|(E & _)]; congruence.
  - destruct Hph as [(E & Hf & _)|(E & _ & Hf & ids & Hst & Hids)]; pose proof Hf as Hf'; rewrite Forall_forall in Hf';
      specialize (Hf' h Hh); simpl in Hf'; [congruence|].
    exists ids. split_and!; try done. rewrite Hk in Hf'. by destruct (decide _).
Qed.

Lemma aux_consumed_ok s h ids : server_ok s → h ∈ handlers s → h_kind h = handle_aux →
  Forall (issued s) ids → server_ok (set_stream aux (concat (map (send_scalar little) ids)) s).
Proof using aux_ne.
  intros Hs Hh Hk Hids. destruct (aux_phase s h Hs Hh Hk) as (a & rest & _ & Ha & Hsa & Hka & Hin & Hf & Haux & _).
  assert (aux ∉ backlog s) as Hnb.
  { intros Hbx. pose proof (so_sockets _ Hs) as Hnd. apply NoDup_app in Hnd as (_ & Hd & _).
    apply (Hd aux); [|done]. rewrite <- Haux. by apply list_elem_of_fmap_2. }
  destruct Hs as [Hph Hso Hid Hr Hc Hb Hfr].
  split; cbn [handlers next_id streams backlog buffer events set_stream]; try done.
  - exists a, rest. split_and!; [done|done|]. right. split_and!; [done|done|done|]. exists ids. split; [|done].
    unfold stream_of. simpl. by rewrite lookup_insert_eq.
  - intros x Hx Hxa Hxx. destruct (Hc x Hx Hxa Hxx) as (r & ? & ?). exists r. unfold stream_of in *. simpl.
    by rewrite lookup_insert_ne.
  - intros c Hcb Hcx. unfold stream_of in *. simpl. rewrite lookup_insert_ne by done. by apply Hb.
Qed.

Lemma aux_ok s h : server_ok s → h ∈ handlers s → h_kind h = handle_aux → next_id s < 2 ^ 32 →
  (∃ gone l1 l2 s', do_aux little h s = Ret (proceed, s') ∧ server_ok s' ∧ gone ≠ h ∧
     h_kind gone = handle_session ∧ handlers s = l1 ++ gone :: l2 ∧ handlers s' = l1 ++ l2 ∧
     next_id s' = next_id s ∧ events s' = events s ++ [session_released (h_id gone)]) ∨
  (∃ s', do_aux little h s = Ret (exit_thread, s') ∧ server_ok s').
Proof using aux_ne plan_ok.
  intros Hs Hh Hk Hn. destruct (aux_phase s h Hs Hh Hk) as (a & rest & ids & Ha & Hsa & Hka & Hin & Hf & Hx & Hst & Hids).
  unfold do_aux. rewrite Hx, Hst. destruct ids as [|id ids]; [right; by exists s|].
  apply Forall_cons in Hids as [[Hid Hks] Hids].
  change (concat (map (send_scalar little) (id :: ids)))
    with (send_scalar little id ++ concat (map (send_scalar little) ids)).
  rewrite recv_sent by (unfold in_u; lia).
  pose proof (aux_consumed_ok s h ids Hs Hh Hk Hids) as Hs'. revert Hs'.
  set (s' := set_stream aux (concat (map (send_scalar little) ids)) s). intros Hs'.
  destruct (erase_id id (handlers s')) as [[gone hs]|] eqn:E; [|right; by exists s'].
  left. apply erase_id_split in E as (Eg & l1 & l2 & El & ->).
  assert (gone ∈ handlers s) as Hg by (change (handlers s) with (handlers s'); rewrite El; set_solver).
  pose proof (Hks gone Hg Eg) as Hkg. assert (gone ≠ h) as Hgh by congruence.
  exists gone, l1, l2. eexists. split; [done|].
  unfold drop_handler. rewrite Hkg. split_and!; try done.
  unfold log, with_handlers. cbn [handlers next_id streams backlog buffer events].
  apply removed_ok; [done|rewrite El; by apply sublist_app, sublist_cons| |done].
  change (handlers s') with (handlers s) in El. rewrite El in Ha.
  destruct l1 as [|x l1]; simpl in Ha; injection Ha as -> <-.
  - exfalso. congruence.
  - by exists a, (l1 ++ l2).
Qed.

(** ** A call, and a round *)

Definition extra (h : socket_handler) : nat := if decide (h_socket h = acceptor) then 1 else 0.

(** An element that was called is still there, unless it asks to be removed; only the acceptor makes the
    list longer. *)
Definition still_there (s s' : socket_server) (h : socket_handler) : Prop :=
  ∀ pre post, handlers s = pre ++ h :: post →
    ∃ pre' h' post', handlers s' = pre' ++ h' :: post' ∧ h_socket h' = h_socket h ∧
      (length post' ≤ length post + extra h)%nat.

Lemma same_sockets_there s s' h :
  map h_socket (handlers s') = map h_socket (handlers s) → still_there s s' h.
Proof using Type.
  clear aux_ne plan_ok. intros Hm pre post Hh. rewrite Hh, map_app in Hm. apply fmap_app_inv in Hm as (pre' & l & Hp & Hl & ->).
  destruct l as [|h' post']; [done|]. injection Hl as E Hl. exists pre', h', post'.
  split_and!; [done|done|]. apply (f_equal length) in Hl. rewrite !length_map in Hl. lia.
Qed.

Lemma accept_call arrived s h :
  server_ok s → h ∈ handlers s → h_socket h = acceptor → backlog s ≠ [] → next_id s + 1 < 2 ^ 32 →
  ∃ s', call_handler little arrived h s = Ret (proceed, s') ∧ server_ok s' ∧ still_there s s' h ∧
    next_id s' = next_id s + 1.
Proof using aux_ne plan_ok.
  intros Hs Hh Ha Hb Hn. destruct (backlog s) as [|c waiting] eqn:Eb; [done|].
  destruct (so_phase _ Hs) as (a & rest & Eh & Hsa & Hph).
  assert (h = a) as -> by (apply (same_socket s); [done|done|rewrite Eh; by left|congruence]).
  assert (100 ≤ next_id s) as Hid by (pose proof (so_range _ Hs) as Hr; rewrite Eh in Hr;
    apply Forall_cons in Hr as [? _]; lia).
  assert (∀ k es, still_there s (accepted k c waiting es s) a) as Hst.
  { intros k es pre post E. exists pre, a, (post ++ [mk_handler (next_id s) k c]). unfold accepted. simpl.
    rewrite E, <- app_assoc. split_and!; [done|done|]. rewrite length_app. simpl. unfold extra.
    rewrite decide_True by done. lia. }
  assert (u32 (next_id s + 1) = next_id s + 1) as Hu by (apply (uw_small 32); unfold in_u; lia).
  unfold call_handler. destruct Hph as [(Ek & _)|(Ek & _)]; rewrite Ek.
  - unfold do_accept_preinit. rewrite Eb. exists (accepted handle_preinit c waiting [] s).
    split_and!; [unfold accepted; by rewrite app_nil_r| |done|done].
    eapply accepted_ok; [done..|]. by left.
  - unfold do_accept_regular. rewrite Eb.
    exists (accepted handle_session c waiting [session_created (next_id s)] s). split_and!; [done| |done|done].
    eapply accepted_ok; [done..|]. by right.
Qed.

Lemma other_call arrived s h :
  server_ok s → h ∈ handlers s → h_socket h ≠ acceptor → next_id s < 2 ^ 32 →
  ∃ st s', call_handler little arrived h s = Ret (st, s') ∧ next_id s' = next_id s ∧
    match st with
    | proceed => server_ok s' ∧ still_there s s' h
    | remove_this => handlers s' = handlers s ∧
        server_ok (drop_handler h (with_handlers (filter (λ x, h_socket x ≠ h_socket h) (handlers s')) s'))
    | exit_thread => server_ok s'
    end.
Proof using aux_ne plan_ok.
  intros Hs Hh Hna Hn. destruct (handler_phase s h Hs Hh) as [[? _]|(_ & Hk1 & Hk2)]; [done|].
  unfold call_handler. destruct (h_kind h) eqn:Hk; [done|done|..].
  - destruct (preinit_ok arrived s h Hs Hh Hk) as (s' & -> & Hs' & Hm & Hid). exists proceed, s'.
    split_and!; [done|done|done|by apply same_sockets_there].
  - destruct (aux_ok s h Hs Hh Hk Hn) as [(gone & l1 & l2 & s' & -> & Hs' & Hne & _ & Hh1 & Hh2 & Hid & _)|(s' & E & Hs')].
    + exists proceed, s'. split_and!; [done|done|done|]. intros pre post Hp.
      destruct (erased_around pre post l1 l2 h gone) as (pre' & post' & E & Hl); [congruence|done|].
      exists pre', h, post'. split_and!; [congruence|done|lia].
    + exists exit_thread, s'. split_and!; [done| |done]. revert E. unfold do_aux.
      destruct (recv_scalar _ _) as [[[|n] [id|]] l]; try (by intros [= <-]); try done.
      by destruct (erase_id _ _) as [[]|]; intros [= <-].
  - destruct (session_ok s h Hs Hh Hk) as [(m & s' & -> & Hs' & Hhs & Hid & _)|[-> _]].
    + exists proceed, s'. split_and!; [done|done|done|]. apply same_sockets_there. by rewrite Hhs.
    + exists remove_this. eexists. split_and!; [done|done|done|]. exact (session_removed_ok s h Hs Hh Hk).
Qed.

(** What is left of a round: the acceptor can still be in it, and then will add one handler. *)
Definition work (cur : list socket_handler) : nat := length cur + match cur with [] => 0 | h :: _ => extra h end.

Lemma behind_work s h pre post : server_ok s → handlers s = pre ++ h :: post →
  work post = length post.
Proof using Type.
  clear aux_ne plan_ok.
  intros Hs Hh. destruct post as [|x post]; [done|]. unfold work, extra. rewrite decide_False; [lia|]. intros E.
  destruct (so_phase _ Hs) as (a & rest & Ha & Hsa & _).
  pose proof (same_socket s) as Hsame. rewrite Hh in Ha.
  assert (x = a) as ->.
  { apply (same_socket s); [done|rewrite Hh; set_solver|rewrite Hh, Ha; by left|congruence]. }
  pose proof (NoDup_fmap_1 h_id _ (so_ids _ Hs)) as Hnd. rewrite Hh in Hnd.
  destruct pre as [|y pre]; simpl in Ha; injection Ha as -> Ha.
  - apply NoDup_cons in Hnd as [Hn _]. destruct Hn. by left.
  - simpl in Hnd. apply NoDup_cons in Hnd as [Hn _]. destruct Hn. set_solver.
Qed.

Lemma behind_there s h s' pre post : server_ok s' → handlers s = pre ++ h :: post → still_there s s' h →
  ∃ pre' h' post', behind (h_socket h) (handlers s') = Some post' ∧ handlers s' = pre' ++ h' :: post' ∧
    (work post' ≤ length post + extra h)%nat.
Proof using Type.
  clear aux_ne plan_ok. intros Hs' Hh Hst. destruct (Hst pre post Hh) as (pre' & h' & post' & Hh' & E & Hl).
  exists pre', h', post'. split_and!; [|done|by rewrite (behind_work s' h' pre' post')].
  pose proof (so_sockets _ Hs') as Hnd. apply NoDup_app in Hnd as [Hnd _].
  by apply (behind_split _ _ Hnd pre' h' post').
Qed.

Lemma acceptor_first s h pre post : server_ok s → handlers s = pre ++ h :: post → h_socket h = acceptor → pre = [].
Proof using Type.
  clear aux_ne plan_ok. intros Hs Hp Ea. destruct (so_phase _ Hs) as (a & rest & Ha & Hsa & _).
  assert (h = a) as -> by (apply (same_socket s); [done|rewrite Hp; set_solver|rewrite Ha; by left|congruence]).
  destruct pre as [|y pre]; [done|exfalso]. rewrite Hp in Ha. simpl in Ha. injection Ha as -> _.
  pose proof (NoDup_fmap_1 h_id _ (so_ids _ Hs)) as Hnd. rewrite Hp in Hnd.
  simpl in Hnd. apply NoDup_cons in Hnd as [Hni _]. destruct Hni. set_solver.
Qed.

Lemma filter_others s h pre post : server_ok s → handlers s = pre ++ h :: post →
  filter (λ x, h_socket x ≠ h_socket h) (handlers s) = pre ++ post.
Proof using Type.
  clear aux_ne plan_ok. intros Hs Hp. pose proof (so_sockets _ Hs) as Hnd. apply NoDup_app in Hnd as [Hnd _].
  rewrite Hp in *. rewrite map_app in Hnd. simpl in Hnd. apply NoDup_app in Hnd as (_ & Hd & Hnd).
  apply NoDup_cons in Hnd as [Hn _].
  rewrite filter_app, filter_cons_False, !filter_all_elem; [done|..|tauto].
  - intros x Hx E. destruct Hn. rewrite <- E. by apply list_elem_of_fmap_2.
  - intros x Hx E. apply (Hd (h_socket x)); [by apply list_elem_of_fmap_2|]. rewrite E. by left.
Qed.

(** How many handlers the round can still add. *)
Definition adds (cur : list socket_handler) : Z := match cur with [] => 0 | h :: _ => Z.of_nat (extra h) end.

(** The states a round goes on from. *)
Definition round_pre (fuel : nat) (ready : gmap nat nat) (cur : list socket_handler) (s : socket_server) : Prop :=
  server_ok s ∧ (∃ pre, handlers s = pre ++ cur) ∧ (work cur ≤ fuel)%nat ∧ next_id s + adds cur < 2 ^ 32 ∧
  (cur = handlers s → is_Some (ready !! acceptor) → backlog s ≠ []).

Lemma adds_behind s h pre post : server_ok s → handlers s = pre ++ h :: post → adds post = 0.
Proof using Type.
  clear aux_ne plan_ok. intros Hs Hh. pose proof (behind_work s h pre post Hs Hh) as Hb. unfold work in Hb.
  destruct post; simpl in *; lia.
Qed.

(** On to the next element. *)
Lemma round_next fuel ready s h post s' cur' :
  round_pre (S fuel) ready (h :: post) s → server_ok s' →
  next_id s' ≤ next_id s + Z.of_nat (extra h) → (work cur' ≤ length post + extra h)%nat →
  (∃ pre' h', handlers s' = pre' ++ h' :: cur' ∧ adds cur' = 0) → round_pre fuel ready cur' s'.
Proof using Type.
  clear aux_ne plan_ok. intros (_ & _ & Hw & Hn & _) Hs' Hid Hw' (pre' & h' & Hh' & Ha). simpl in Hn.
  split_and!; [done|exists (pre' ++ [h']); by rewrite <- app_assoc|unfold work in *; simpl in *; lia|lia|].
  intros E. exfalso. rewrite Hh' in E. apply (f_equal length) in E. rewrite length_app in E. simpl in E. lia.
Qed.

Lemma round_step fuel ready h post s :
  round_pre (S fuel) ready (h :: post) s →
  (∃ cur' s', run_round little (S fuel) ready (h :: post) s = run_round little fuel ready cur' s' ∧
     round_pre fuel ready cur' s') ∨
  (∃ s', run_round little (S fuel) ready (h :: post) s = Some (Ret (false, s')) ∧ server_ok s').
Proof using aux_ne plan_ok.
  intros Hpre. pose proof Hpre as (Hs & [pre Hp] & Hw & Hn & Hb).
  assert (h ∈ handlers s) as Hh by (rewrite Hp; set_solver). pose proof (adds_behind s h pre post Hs Hp) as Ha0.
  pose proof (behind_work s h pre post Hs Hp) as Hw0. cbn [run_round].
  assert (∀ x, server_ok x → still_there s x h → next_id x ≤ next_id s + Z.of_nat (extra h) →
    ∃ post', behind (h_socket h) (handlers x) = Some post' ∧ round_pre fuel ready post' x) as Hgo.
  { intros x Hsx Hst Hid. destruct (behind_there s h x pre post Hsx Hp Hst) as (pre' & h' & post' & -> & Hh' & Hw').
    exists post'. split; [done|]. eapply round_next; [done..|]. exists pre', h'. split; [done|].
    by apply (adds_behind x h' pre'). }
  destruct (ready !! h_socket h) as [arrived|] eqn:Er.
  2:{ destruct (Hgo s Hs) as (post' & -> & Hr); [by apply same_sockets_there|lia|]. left. by exists post', s. }
  destruct (decide (h_socket h = acceptor)) as [Ea|Ea].
  - rewrite (acceptor_first s h pre post Hs Hp Ea) in Hp. simpl in Hn.
    assert (extra h = 1%nat) as Ex by (unfold extra; by rewrite decide_True). rewrite Ex in Hn.
    destruct (accept_call arrived s h Hs Hh Ea) as (s' & -> & Hs' & Hst & Hid);
      [apply Hb; [done|by rewrite <- Ea, Er]|lia|].
    destruct (Hgo s' Hs' Hst) as (post' & -> & Hr); [lia|]. left. by exists post', s'.
  - assert (extra h = 0%nat) as Ex by (unfold extra; by rewrite decide_False). simpl in Hn. rewrite Ex in Hn.
    destruct (other_call arrived s h Hs Hh Ea) as (st & s' & -> & Hid & Hst); [lia|]. destruct st.
    + destruct Hst as [Hs' Hst]. destruct (Hgo s' Hs' Hst) as (post' & -> & Hr); [lia|]. left. by exists post', s'.
    + destruct Hst as [Hhs Hs']. rewrite Hhs in Hs' |- *.
      pose proof (so_sockets _ Hs) as Hnd. apply NoDup_app in Hnd as [Hnd _].
      rewrite (behind_split _ _ Hnd pre h post Hp eq_refl). left. eexists post, _. split; [done|].
      eapply round_next; [done|done| |lia|].
      * unfold drop_handler. destruct (h_kind h); simpl; lia.
      * rewrite (filter_others s h pre post Hs Hp).
        destruct pre as [|x pre _] using rev_ind; [|exists pre, x; split; [|done]].
        -- exfalso. destruct (so_phase _ Hs) as (a & rest & Ha & Hsa & _). rewrite Hp in Ha. simpl in Ha.
           injection Ha as -> _. done.
        -- rewrite <- app_assoc. unfold drop_handler. by destruct (h_kind h).
    + right. by exists s'.
Qed.

Lemma round_ok fuel ready : ∀ cur s, round_pre fuel ready cur s →
  ∃ go s', run_round little fuel ready cur s = Some (Ret (go, s')) ∧ server_ok s'.
Proof using aux_ne plan_ok.
  induction fuel as [|fuel IH]; intros cur s Hpre.
  - destruct cur; [exists true, s; split; [done|apply Hpre]|].
    destruct Hpre as (_ & _ & Hw & _). unfold work in Hw. simpl in Hw. lia.
  - destruct cur as [|h post]; [exists true, s; split; [done|apply Hpre]|].
    destruct (round_step fuel ready h post s Hpre) as [(cur' & s' & -> & Hpre')|(s' & -> & Hs')]; [by apply IH|].
    by exists false, s'.
Qed.

(** C27: A round of the socket server ends, and uses no handler that is gone, whatever the sockets that
    can be read, although handlers add and remove handlers under its feet; what every session has got
    and what is still on its way are its peer's messages, before and after. *)
Theorem socket_round_safe ready s :
  server_ok s → next_id s + 1 < 2 ^ 32 → (is_Some (ready !! acceptor) → backlog s ≠ []) →
  ∃ go s', run_round little (S (length (handlers s))) ready (handlers s) s = Some (Ret (go, s')) ∧ server_ok s'.
Proof using aux_ne plan_ok.
  intros Hs Hn Hb. apply round_ok. split_and!; [done|by exists []| | |auto].
  - unfold work. destruct (handlers s) as [|h l]; simpl; [lia|]. unfold extra. case_decide; lia.
  - unfold adds, extra. destruct (handlers s) as [|h l]; [lia|]. case_decide; lia.
Qed.

(** ** What happens between the rounds *)

Lemma new_server_ok before st :
  NoDup (acceptor :: before ++ [aux]) → (∀ c, c ∈ before → default [] (st !! c) = frames c (plan c)) →
  server_ok (new_socket_server little acceptor aux before st).
Proof using aux_ne.
  intros Hnd Hst. split; simpl.
  - eexists _, []. split_and!; [done|done|]. left. split_and!; [done|done|]. exists [].
    unfold stream_of. simpl. by rewrite lookup_insert_eq, app_nil_r.
  - done.
  - apply NoDup_singleton.
  - repeat constructor; simpl; lia.
  - intros h ->%list_elem_of_singleton Hna. done.
  - intros c [Hc|Hc%list_elem_of_singleton]%elem_of_app Hne; [|done]. unfold stream_of. simpl.
    rewrite lookup_insert_ne by done. by apply Hst.
  - done.
Qed.

(** A session, or somebody who was one, asks for its end; the server itself does with zero. *)
Lemma outbound_disconnect_ok id s :
  server_ok s → issued s id →
  server_ok (outbound_disconnect little aux id s).
Proof using aux_ne.
  intros [Hph Hso Hid Hr Hc Hb Hf] Hi. unfold outbound_disconnect.
  assert (∀ c, c ≠ aux → stream_of c (set_stream aux (stream_of aux s ++ send_scalar little id) s) = stream_of c s)
    as Hsame by (intros; rewrite stream_set; by rewrite decide_False).
  split; cbn [handlers next_id backlog events set_stream]; try done.
  - destruct Hph as (a & rest & Ha & Hsa & Hph). exists a, rest. split_and!; [done|done|].
    assert (∀ ids, concat (map (send_scalar little) ids) ++ send_scalar little id =
      concat (map (send_scalar little) (ids ++ [id]))) as Hcat.
    { intros ids. rewrite map_app, concat_app. cbn [map concat]. by rewrite app_nil_r. }
    destruct Hph as [(Ek & Hre & ids & Hst & Hids)|(Ek & Hnb & Hre & ids & Hst & Hids)].
    + left. split_and!; [done|done|]. exists (ids ++ [id]). rewrite stream_set, decide_True by done.
      rewrite Hst, <- app_assoc, Hcat. split; [done|]. apply Forall_app. split; [done|by constructor].
    + right. split_and!; [done|done|done|]. exists (ids ++ [id]). rewrite stream_set, decide_True by done.
      rewrite Hst, Hcat. split; [done|]. apply Forall_app. split; [done|by constructor].
  - intros h Hh Hna Hnx. destruct (Hc h Hh Hna Hnx) as (r & ? & ?). exists r. by rewrite Hsame.
  - intros c Hcb Hne. rewrite Hsame by done. by apply Hb.
Qed.

(** The end a session asks for is its own: its handler is dropped and its session released, and no
    other handler, stream or session is touched; the thread goes on. *)
Theorem disconnect_releases s h g ids :
  server_ok s → h ∈ handlers s → h_kind h = handle_aux → g ∈ handlers s → h_kind g = handle_session →
  next_id s < 2 ^ 32 → stream_of aux s = send_scalar little (h_id g) ++ ids →
  ∃ s', do_aux little h s = Ret (proceed, s') ∧
    handlers s' = filter (λ x, h_socket x ≠ h_socket g) (handlers s) ∧
    events s' = events s ++ [session_released (h_id g)] ∧
    (∀ c, c ≠ aux → stream_of c s' = stream_of c s) ∧ stream_of aux s' = ids.
Proof using aux_ne plan_ok.
  intros Hs Hh Hk Hg Hkg Hn Hst. destruct (aux_phase s h Hs Hh Hk) as (a & rest & _ & _ & _ & _ & _ & _ & Hx & _).
  pose proof (so_range _ Hs) as Hr. rewrite Forall_forall in Hr. specialize (Hr g Hg). simpl in Hr.
  unfold do_aux. rewrite Hx, Hst, recv_sent by (unfold in_u; lia).
  cbn [handlers set_stream]. destruct (erase_id (h_id g) (handlers s)) as [[gone hs]|] eqn:E.
  2:{ apply erase_id_None in E. destruct E. by apply list_elem_of_fmap_2. }
  apply erase_id_split in E as (Eid & l1 & l2 & El & ->).
  assert (gone = g) as -> by (apply (NoDup_map_elem h_id (handlers s)); [apply Hs|rewrite El; set_solver|done|done]).
  unfold drop_handler. rewrite Hkg. eexists. split; [done|]. split_and!.
  - symmetry. by apply filter_others.
  - done.
  - intros c Hc. unfold stream_of. simpl. by rewrite lookup_insert_ne.
  - unfold stream_of. simpl. by rewrite lookup_insert_eq.
Qed.
End server_inv.

(** ** A server with one client *)

Definition demo_plan (c : nat) : list (list Z) := if (c =? 2)%nat then [[7; 8; 9]; [1]] else [].
Definition demo_peer (c : nat) : bool := true.
Definition demo_streams : gmap nat (list Z) := {[ 2%nat := frames demo_peer 2 (demo_plan 2) ]}.
Definition demo_start : socket_server := new_socket_server true 0 1 [] demo_streams.

Definition connect (c : nat) (s : socket_server) : socket_server :=
  mk_server (handlers s) (next_id s) (streams s) (backlog s ++ [c]) (buffer s) (events s).

(** Accepting the own connection, the magic number, accepting the client. *)
Definition demo_session : socket_server :=
  match run_rounds true [{[ 0%nat := 0%nat ]}; {[ 1%nat := 4%nat ]}] demo_start with
  | Some (_, s) =>
    match run_rounds true [{[ 0%nat := 0%nat ]}] (connect 2 s) with Some (_, s) => s | None => demo_start end
  | None => demo_start
  end.

Example demo_served :
  option_map (λ r, (r.1, events r.2)) (run_rounds true [{[ 2%nat := 0%nat ]}; {[ 2%nat := 0%nat ]}; {[ 2%nat := 0%nat ]}] demo_session) =
    Some (true, [session_created 102; session_message 102 [7; 8; 9]; session_message 102 [1];
      session_disconnected 102; session_released 102]).
Proof. vm_compute. reflexivity. Qed.

(** A length that is cut short is read as if it were complete. *)
Lemma partial_length_undefined little h s :
  (0 < length (stream_of (h_socket h) s) < 4)%nat → do_session little h s = UB.
Proof.
  unfold do_session, recv_scalar. generalize (stream_of (h_socket h) s). intros l Hl.
  rewrite take_ge by lia. destruct (Nat.eqb_spec (length l) 4); [lia|]. by destruct (length l); [lia|].
Qed.

(** A session asks for its end just as its peer closes the connection: its handler is gone when the
    request is read, and the thread of the server ends, with all the other sessions. *)
Lemma stale_disconnect_stops :
  option_map (λ r, r.1) (run_rounds true [{[ 2%nat := 0%nat ]}; {[ 2%nat := 0%nat ]}; {[ 2%nat := 0%nat ]}; {[ 1%nat := 0%nat ]}]
    (outbound_disconnect true 1 102 demo_session)) = Some false.
Proof. vm_compute. reflexivity. Qed.

Lemma demo_plan_ok c : Forall (λ m, sendable m ∧ len m ≠ init_magic) (demo_plan c).
Proof.
  unfold demo_plan. destruct (c =? 2)%nat; [|done]. repeat constructor; try done; unfold in_u; simpl; lia.
Qed.

Lemma demo_session_ok : server_ok true demo_peer demo_plan 0 1 (outbound_disconnect true 1 102 demo_session).
Proof.
  split.
  - exists (mk_handler 100 accept_regular 0),
      [mk_handler 101 handle_aux 1; mk_handler 102 handle_session 2]. split_and!; [done|done|]. right.
    split_and!; [done|apply not_elem_of_nil|by repeat constructor|]. exists [102].
    split; [done|]. constructor; [|done]. split; [done|]. intros h Hh E.
    change (handlers (outbound_disconnect true 1 102 demo_session)) with
      [mk_handler 100 accept_regular 0; mk_handler 101 handle_aux 1; mk_handler 102 handle_session 2] in Hh.
    apply elem_of_cons in Hh as [->|Hh]; [done|]. apply elem_of_cons in Hh as [->|Hh]; [done|].
    by apply list_elem_of_singleton in Hh as ->.
  - apply (bool_decide_unpack _). vm_compute. done.
  - apply (bool_decide_unpack _). vm_compute. done.
  - apply (bool_decide_unpack _). vm_compute. done.
  - intros h Hh Hna Hnx.
    change (handlers (outbound_disconnect true 1 102 demo_session)) with
      [mk_handler 100 accept_regular 0; mk_handler 101 handle_aux 1; mk_handler 102 handle_session 2] in Hh.
    apply elem_of_cons in Hh as [->|Hh]; [done|]. apply elem_of_cons in Hh as [->|Hh]; [done|].
    apply list_elem_of_singleton in Hh as ->. exists (demo_plan 2). vm_compute. done.
  - intros c Hc. by apply elem_of_nil in Hc.
  - done.
Qed.

Lemma disconnect_releases_witness :
  ∃ s', do_aux true (mk_handler 101 handle_aux 1) (outbound_disconnect true 1 102 demo_session) = Ret (proceed, s') ∧
    handlers s' = filter (λ x, h_socket x ≠ 2%nat) (handlers (outbound_disconnect true 1 102 demo_session)) ∧
    events s' = events (outbound_disconnect true 1 102 demo_session) ++ [session_released 102] ∧
    (∀ c, c ≠ 1%nat → stream_of c s' = stream_of c (outbound_disconnect true 1 102 demo_session)) ∧
    stream_of 1 s' = [].
Proof.
  apply (disconnect_releases true demo_peer demo_plan 0 1 demo_plan_ok ltac:(done)
    (outbound_disconnect true 1 102 demo_session) (mk_handler 101 handle_aux 1) (mk_handler 102 handle_session 2) []);
    [apply demo_session_ok| |done| |done|done|done].
  - apply (bool_decide_unpack _). vm_compute. done.
  - apply (bool_decide_unpack _). vm_compute. done.
Defined.

Lemma socket_round_safe_witness :
  ∃ go s', run_round true 4 {[ 1%nat := 0%nat; 2%nat := 0%nat ]}
      (handlers (outbound_disconnect true 1 102 demo_session)) (outbound_disconnect true 1 102 demo_session) =
      Some (Ret (go, s')) ∧ server_ok true demo_peer demo_plan 0 1 s'.
Proof.
  apply (socket_round_safe true demo_peer demo_plan 0 1 demo_plan_ok ltac:(done)
    {[ 1%nat := 0%nat; 2%nat := 0%nat ]} (outbound_disconnect true 1 102 demo_session));
    [apply demo_session_ok|done|]. by intros [? ?].
Defined.

Lemma pipe_roundtrip_witness :
  pipe_reader 3 true true [] (concat (map (pipe_message true) [[7; 8]; []])) =
    Some [got_message [7; 8]; got_message []; got_disconnect] ∧
  pipe_server 3 true (concat (map (pipe_message true) [[7; 8]; []])) =
    Some [got_message [7; 8]; got_message []; got_disconnect].
Proof. apply (pipe_roundtrip true true [] [[7; 8]; []]). repeat constructor; unfold in_u; simpl; lia. Defined.

Lemma socket_roundtrip_witness :
  socket_worker 3 false [] (concat (map (socket_message true) [[7; 8]; [9]])) =
    Some (Ret [got_message [7; 8]; got_message [9]; got_disconnect]).
Proof.
  apply (socket_roundtrip true false [] [[7; 8]; [9]]).
  repeat constructor; (done || unfold in_u; simpl; lia).
Defined.
