(* ===== verification/Join.v ===== *)
(** Joined tables (sdb/transforms.h).

    A join follows two tables by their signals: when a record appears on one side it is paired with
    the records of its key on the other, when it goes away its pairs go with it.  The joined table
    keeps iterators of both sides, here their handles, and has an index over each of them. *)

From S2P Require Import Prelude Sdb.

(** * The joined table *)

(** [sdb/transforms.h:42-57] joined_record. The iterators of both sides. *)
Record joined_record := mk_pair { left_h : nat; right_h : nat }.

#[export] Instance joined_record_eq_dec : EqDecision joined_record.
Proof. solve_decision. Defined.

(** The table, its indices by the records of the sides, and the handles of the pairs whose
    modification has been announced. *)
Record joined_table := mk_joined {
  pairs : table joined_record;
  by_left : index (K := nat);
  by_right : index (K := nat);
  announced : list nat
}.

(** [joined.create()], its assignment and [commit]: the indices are told. *)
(** [sdb/transforms.h:118-121] maintain_joined *)
Definition add_pair (p : joined_record) (j : joined_table) : joined_table :=
  let '(h, t) := create p (pairs j) in
  mk_joined t (index_created (left_h p) h (by_left j)) (index_created (right_h p) h (by_right j)) (announced j).

(** [joined.modify(...).remove()] *)
(** [sdb/transforms.h:132-132] maintain_joined *)
Definition remove_pair (h : nat) (j : joined_table) : joined_table :=
  mk_joined (erase h (pairs j)) (index_removed h (by_left j)) (index_removed h (by_right j)) (announced j).

(** [sdb/transforms.h:115-123] maintain_joined. A new record: [opposite] are those of its key on the other side. *)
Definition on_create (composer : nat → joined_record) (opposite : list nat) (j : joined_table) : joined_table :=
  fold_left (λ j o, add_pair (composer o) j) opposite j.

(** [sdb/transforms.h:126-129] maintain_joined. A modification announces the pairs of the record. *)
Definition on_modified (hs : list nat) (j : joined_table) : joined_table :=
  mk_joined (pairs j) (by_left j) (by_right j) (announced j ++ hs).

(** [sdb/transforms.h:130-133] maintain_joined. The range is gone through while its elements are removed. *)
Definition on_side_removed (hs : list nat) (j : joined_table) : joined_table :=
  fold_left (λ j h, remove_pair h j) hs j.

(** [sdb/transforms.h:134-134] maintain_joined. The cleared side clears the pairs. *)
Definition on_side_cleared (j : joined_table) : joined_table :=
  mk_joined (clear_records (pairs j)) (index_cleared (by_left j)) (index_cleared (by_right j)) (announced j).

Record joined_ok (j : joined_table) : Prop := {
  j_table : table_ok (pairs j);
  j_left : index_ok left_h (pairs j) (by_left j);
  j_right : index_ok right_h (pairs j) (by_right j)
}.

Definition pair_list (j : joined_table) : list joined_record := (records (pairs j)).*2.

Lemma add_pair_ok p j : joined_ok j → joined_ok (add_pair p j) ∧ pair_list (add_pair p j) = pair_list j ++ [p].
Proof.
  intros [Ht Hl Hr]. unfold add_pair, pair_list. split.
  - split; simpl.
    + by apply (create_ok p).
    + by apply (index_created_ok left_h p).
    + by apply (index_created_ok right_h p).
  - simpl. by rewrite fmap_app.
Qed.

Lemma on_create_ok composer opposite : ∀ j, joined_ok j →
  joined_ok (on_create composer opposite j) ∧
  pair_list (on_create composer opposite j) = pair_list j ++ map composer opposite.
Proof.
  unfold on_create. induction opposite as [|o opposite IH]; intros j Hj; simpl; [by rewrite app_nil_r|].
  destruct (add_pair_ok (composer o) j Hj) as [Hj' Hp]. destruct (IH _ Hj') as [? Hp'].
  split; [done|]. by rewrite Hp', Hp, <- app_assoc.
Qed.

Lemma remove_pairs_ok hs : ∀ j, joined_ok j →
  joined_ok (on_side_removed hs j) ∧
  records (pairs (on_side_removed hs j)) = filter (λ p, p.1 ∉ hs) (records (pairs j)).
Proof.
  unfold on_side_removed. induction hs as [|h hs IH]; intros j Hj; simpl.
  - split; [done|]. symmetry. apply filter_all_elem. intros p _. apply not_elem_of_nil.
  - destruct Hj as [Ht Hl Hr]. destruct (IH (remove_pair h j)) as [Hj' Hp].
    { split; simpl; [by apply erase_ok|by apply (index_removed_ok left_h)|by apply (index_removed_ok right_h)]. }
    split; [done|]. rewrite Hp. unfold remove_pair, erase. simpl.
    rewrite list_filter_filter. apply list_filter_iff. intros p. rewrite not_elem_of_cons. tauto.
Qed.

Lemma cleared_ok j : joined_ok (on_side_cleared j).
Proof. split; simpl; [apply clear_ok|apply index_cleared_ok|apply index_cleared_ok]. Qed.

(** * Two tables and their join *)

Section join.
Context {EO : equal_order} {L R K : Type} `{EqDecision K} (left_by : L → K) (right_by : R → K).

Record join_state := mk_join {
  left_t : table L; left_i : index (K := K);
  right_t : table R; right_i : index (K := K);
  joined : joined_table
}.

(** [sdb/transforms.h:149-156] join. The left side: a record is created, its index told, then the join. *)
Definition create_left (v : L) (s : join_state) : join_state :=
  let '(h, t) := create v (left_t s) in
  mk_join t (index_created (left_by v) h (left_i s)) (right_t s) (right_i s)
    (on_create (λ r, mk_pair h r) (equal_range (left_by v) (right_i s)) (joined s)).

(** [sdb/transforms.h:158-165] join. The right side. *)
Definition create_right (v : R) (s : join_state) : join_state :=
  let '(h, t) := create v (right_t s) in
  mk_join (left_t s) (left_i s) t (index_created (right_by v) h (right_i s))
    (on_create (λ l, mk_pair l h) (equal_range (right_by v) (left_i s)) (joined s)).

Definition modify_left (h : nat) (f : L → L) (s : join_state) : join_state :=
  mk_join (modify h f (left_t s)) (left_i s) (right_t s) (right_i s)
    (on_modified (equal_range h (by_left (joined s))) (joined s)).

Definition modify_right (h : nat) (f : R → R) (s : join_state) : join_state :=
  mk_join (left_t s) (left_i s) (modify h f (right_t s)) (right_i s)
    (on_modified (equal_range h (by_right (joined s))) (joined s)).

(** The index goes first, then the join, then the record itself. *)
Definition remove_left (h : nat) (s : join_state) : join_state :=
  mk_join (erase h (left_t s)) (index_removed h (left_i s)) (right_t s) (right_i s)
    (on_side_removed (equal_range h (by_left (joined s))) (joined s)).

Definition remove_right (h : nat) (s : join_state) : join_state :=
  mk_join (left_t s) (left_i s) (erase h (right_t s)) (index_removed h (right_i s))
    (on_side_removed (equal_range h (by_right (joined s))) (joined s)).

Definition clear_left (s : join_state) : join_state :=
  mk_join (clear_records (left_t s)) (index_cleared (left_i s)) (right_t s) (right_i s) (on_side_cleared (joined s)).

Definition clear_right (s : join_state) : join_state :=
  mk_join (left_t s) (left_i s) (clear_records (right_t s)) (index_cleared (right_i s)) (on_side_cleared (joined s)).

Definition empty_joined : joined_table := mk_joined empty_table empty_index empty_index [].

(** [sdb/transforms.h:139-171] join. The indices are built, then the pairs from the left. *)
Definition join (left : table L) (right : table R) : join_state :=
  let right_index := build_index right_by right in
  mk_join left (build_index left_by left) right right_index
    (fold_left (λ j '(h, v), on_create (λ r, mk_pair h r) (equal_range (left_by v) right_index) j)
      (records left) empty_joined).

(** ** What the joined table is *)

Definition joins (ls : list (nat * L)) (rs : list (nat * R)) (p : joined_record) : Prop :=
  ∃ a b, (left_h p, a) ∈ ls ∧ (right_h p, b) ∈ rs ∧ left_by a = right_by b.

Record join_ok (s : join_state) : Prop := {
  jo_left : table_ok (left_t s);
  jo_lindex : index_ok left_by (left_t s) (left_i s);
  jo_right : table_ok (right_t s);
  jo_rindex : index_ok right_by (right_t s) (right_i s);
  jo_joined : joined_ok (joined s);
  jo_once : NoDup (pair_list (joined s));
  jo_pairs p : p ∈ pair_list (joined s) ↔ joins (records (left_t s)) (records (right_t s)) p
}.

Lemma opposite_NoDup {V} (key : V → K) t ix k : table_ok t → index_ok key t ix → NoDup (equal_range k ix).
Proof using Type.
  intros [Hnd _] Hi. rewrite (equal_range_perm key t ix k Hi). unfold with_key. by apply (NoDup_map_filter fst).
Qed.

Lemma fresh_handle {V} (t : table V) v : table_ok t → (next_handle t, v) ∉ records t.
Proof using Type. intros [_ Hl] Hin. rewrite Forall_forall in Hl. specialize (Hl _ Hin). simpl in Hl. lia. Qed.

(** New pairs: those of one new record. *)
Lemma create_pairs_ok (j : joined_table) (composer : nat → joined_record) hs (P Q : joined_record → Prop) :
  joined_ok j → NoDup (pair_list j) → (∀ p, p ∈ pair_list j ↔ P p) → NoDup hs →
  (∀ a b, composer a = composer b → a = b) → (∀ a, a ∈ hs → ¬ P (composer a)) →
  (∀ p, Q p ↔ P p ∨ ∃ a, a ∈ hs ∧ p = composer a) →
  joined_ok (on_create composer hs j) ∧ NoDup (pair_list (on_create composer hs j)) ∧
  ∀ p, p ∈ pair_list (on_create composer hs j) ↔ Q p.
Proof using Type.
  intros Hj Hnd HP Hhs Hinj Hfresh HQ. destruct (on_create_ok composer hs j Hj) as [Hj' Hl]. rewrite Hl.
  split_and!; [done| |].
  - apply NoDup_app. split_and!; [done| |by apply NoDup_fmap_2].
    intros p Hp (a & -> & Ha)%list_elem_of_fmap. by apply (Hfresh a Ha), HP.
  - intros p. rewrite elem_of_app, HP, HQ, list_elem_of_fmap. naive_solver.
Qed.

Lemma create_left_ok v s : join_ok s → join_ok (create_left v s).
Proof using Type.
  intros [Hl Hli Hr Hri Hj Hn Hp]. unfold create_left. destruct (create v (left_t s)) as [h t] eqn:E.
  injection E as <- <-.
  destruct (create_pairs_ok (joined s) (λ r, mk_pair (next_handle (left_t s)) r)
    (equal_range (left_by v) (right_i s)) (joins (records (left_t s)) (records (right_t s)))
    (joins (records (left_t s) ++ [(next_handle (left_t s), v)]) (records (right_t s))))
    as (Hj' & Hn' & Hp'); [done|done|done|by apply (opposite_NoDup right_by (right_t s))|by intros a b [= ->]| | |].
  - intros a _ (x & y & Hx & _). by apply (fresh_handle (left_t s) x).
  - intros p. unfold joins. setoid_rewrite elem_of_app. setoid_rewrite list_elem_of_singleton.
    setoid_rewrite (equal_range_elem right_by _ _ _ _ Hri). split.
    + intros (a & b & [Ha|[= Hh ->]] & Hb & Hk); [left; eauto|right].
      exists (right_h p). split; [by exists b|]. rewrite <- Hh. by destruct p.
    + intros [(a & b & ? & ? & ?)|(a & (b & Hb & Hk) & ->)]; [eauto 10|].
      exists v, b. simpl. eauto.
  - split; cbn [left_t left_i right_t right_i joined]; try done.
    + by apply (create_ok v).
    + by apply (index_created_ok left_by v).
Qed.

Lemma create_right_ok v s : join_ok s → join_ok (create_right v s).
Proof using Type.
  intros [Hl Hli Hr Hri Hj Hn Hp]. unfold create_right. destruct (create v (right_t s)) as [h t] eqn:E.
  injection E as <- <-.
  destruct (create_pairs_ok (joined s) (λ l, mk_pair l (next_handle (right_t s)))
    (equal_range (right_by v) (left_i s)) (joins (records (left_t s)) (records (right_t s)))
    (joins (records (left_t s)) (records (right_t s) ++ [(next_handle (right_t s), v)])))
    as (Hj' & Hn' & Hp'); [done|done|done|by apply (opposite_NoDup left_by (left_t s))|by intros a b [= ->]| | |].
  - intros a _ (x & y & _ & Hy & _). by apply (fresh_handle (right_t s) y).
  - intros p. unfold joins. setoid_rewrite elem_of_app. setoid_rewrite list_elem_of_singleton.
    setoid_rewrite (equal_range_elem left_by _ _ _ _ Hli). split.
    + intros (a & b & Ha & [Hb|[= Hh ->]] & Hk); [left; eauto|right].
      exists (left_h p). split; [by exists a|]. rewrite <- Hh. by destruct p.
    + intros [(a & b & ? & ? & ?)|(a & (b & Hb & Hk) & ->)]; [eauto 10|].
      exists b, v. simpl. eauto.
  - split; cbn [left_t left_i right_t right_i joined]; try done.
    + by apply (create_ok v).
    + by apply (index_created_ok right_by v).
Qed.

(** The pairs of a record are what its index finds: removing them leaves the others. *)
Lemma remove_pairs_spec (side : joined_record → nat) ix h j :
  joined_ok j → index_ok side (pairs j) ix →
  joined_ok (on_side_removed (equal_range h ix) j) ∧
  pair_list (on_side_removed (equal_range h ix) j) = filter (λ p, side p ≠ h) (pair_list j).
Proof using Type.
  intros Hj Hi. destruct (remove_pairs_ok (equal_range h ix) j Hj) as [Hj' Hr]. split; [done|].
  unfold pair_list. rewrite Hr, (list_filter_iff (λ p, p.1 ∉ equal_range h ix) (λ p, p.1 ∉ (with_key side h (records (pairs j))).*1))
    by (intros p; by rewrite (equal_range_perm side (pairs j) ix h Hi)).
  destruct (j_table _ Hj) as [Hnd _]. unfold with_key.
  assert (∀ rs, rs ⊆ records (pairs j) →
    (filter (λ p, p.1 ∉ (filter (λ p, side p.2 = h) (records (pairs j))).*1) rs).*2 =
    filter (λ p, side p ≠ h) rs.*2) as Hrs; [|by apply Hrs].
  induction rs as [|[i p] rs IH]; intros Hin; [done|]. cbn [fmap list_fmap].
  assert (i ∈ (filter (λ p, side p.2 = h) (records (pairs j))).*1 ↔ side p = h) as Hi'.
  { rewrite list_elem_of_fmap. split.
    - intros ([i' p'] & -> & [Hs Hin']%list_elem_of_filter). simpl in *.
      assert ((i', p) = (i', p')) as [= ->]; [|done].
      apply (NoDup_map_elem fst (records (pairs j))); [done|apply Hin; by left|done|done].
    - intros Hs. exists (i, p). split; [done|]. apply list_elem_of_filter. split; [done|]. apply Hin. by left. }
  assert (rs ⊆ records (pairs j)) as Hin' by (intros x Hx; apply Hin; by right). specialize (IH Hin').
  destruct (decide (side p = h)) as [E|E].
  - rewrite !filter_cons_False by tauto. done.
  - rewrite filter_cons_True by (simpl; tauto). rewrite (filter_cons_True _ p) by done. cbn. by f_equal.
Qed.

Lemma erase_elem {V} h (t : table V) i v : (i, v) ∈ records (erase h t) ↔ (i, v) ∈ records t ∧ i ≠ h.
Proof using Type. unfold erase. simpl. rewrite list_elem_of_filter. simpl. tauto. Qed.

Lemma remove_left_ok h s : join_ok s → join_ok (remove_left h s).
Proof using Type.
  intros [Hl Hli Hr Hri Hj Hn Hp].
  destruct (remove_pairs_spec left_h (by_left (joined s)) h (joined s) Hj (j_left _ Hj)) as [Hj' Hpl].
  split; cbn [left_t left_i right_t right_i joined remove_left];
    [by apply erase_ok|by apply (index_removed_ok left_by)|done|done|done| |].
  - rewrite Hpl. by apply NoDup_filter.
  - intros p. rewrite Hpl, list_elem_of_filter, Hp. unfold joins. setoid_rewrite erase_elem. naive_solver.
Qed.

Lemma remove_right_ok h s : join_ok s → join_ok (remove_right h s).
Proof using Type.
  intros [Hl Hli Hr Hri Hj Hn Hp].
  destruct (remove_pairs_spec right_h (by_right (joined s)) h (joined s) Hj (j_right _ Hj)) as [Hj' Hpl].
  split; cbn [left_t left_i right_t right_i joined remove_right];
    [done|done|by apply erase_ok|by apply (index_removed_ok right_by)|done| |].
  - rewrite Hpl. by apply NoDup_filter.
  - intros p. rewrite Hpl, list_elem_of_filter, Hp. unfold joins. setoid_rewrite erase_elem. naive_solver.
Qed.

(** A modification in place that keeps the key keeps what the record is joined with. *)
Lemma modify_elem_key {V} (key : V → K) h f (t : table V) i k : (∀ v, key (f v) = key v) →
  (∃ v, (i, v) ∈ records (modify h f t) ∧ key v = k) ↔ (∃ v, (i, v) ∈ records t ∧ key v = k).
Proof using Type.
  intros Hf. unfold modify. simpl. setoid_rewrite list_elem_of_fmap. split.
  - intros (v & ([j w] & [= -> ->] & Hin) & Hk). exists w. split; [done|]. case_decide; [by rewrite <- Hf|done].
  - intros (v & Hin & Hk). eexists. split; [by exists (i, v)|]. case_decide; [by rewrite Hf|done].
Qed.

Lemma joins_keys ls rs p : joins ls rs p ↔
  ∃ k, (∃ a, (left_h p, a) ∈ ls ∧ left_by a = k) ∧ (∃ b, (right_h p, b) ∈ rs ∧ right_by b = k).
Proof using Type. unfold joins. split; [intros (a & b & ? & ? & ?)|intros (k & (a & ? & ?) & b & ? & ?)]; naive_solver. Qed.

Lemma modify_left_ok h f s : (∀ v, left_by (f v) = left_by v) → join_ok s → join_ok (modify_left h f s).
Proof using Type.
  intros Hf [Hl Hli Hr Hri [] Hn Hp].
  split; cbn [left_t left_i right_t right_i joined modify_left];
    [by apply modify_ok|by apply index_modify_ok|done|done|by split|done|].
  intros p. unfold pair_list in *. simpl. rewrite Hp, !joins_keys. by setoid_rewrite (modify_elem_key left_by h f).
Qed.

Lemma modify_right_ok h f s : (∀ v, right_by (f v) = right_by v) → join_ok s → join_ok (modify_right h f s).
Proof using Type.
  intros Hf [Hl Hli Hr Hri [] Hn Hp].
  split; cbn [left_t left_i right_t right_i joined modify_right];
    [done|done|by apply modify_ok|by apply index_modify_ok|by split|done|].
  intros p. unfold pair_list in *. simpl. rewrite Hp, !joins_keys. by setoid_rewrite (modify_elem_key right_by h f).
Qed.

Lemma no_pairs (ls : list (nat * L)) (rs : list (nat * R)) p : ls = [] ∨ rs = [] → p ∈ @nil joined_record ↔ joins ls rs p.
Proof using Type.
  intros He. split; [by intros ?%elem_of_nil|]. intros (a & b & Ha & Hb & _).
  destruct He as [->| ->]; [by apply elem_of_nil in Ha|by apply elem_of_nil in Hb].
Qed.

Lemma clear_left_ok s : join_ok s → join_ok (clear_left s).
Proof using Type.
  intros [Hl Hli Hr Hri Hj Hn Hp].
  split; cbn [left_t left_i right_t right_i joined clear_left];
    [apply clear_ok|apply index_cleared_ok|done|done|apply cleared_ok|constructor|].
  intros p. apply no_pairs. by left.
Qed.

Lemma clear_right_ok s : join_ok s → join_ok (clear_right s).
Proof using Type.
  intros [Hl Hli Hr Hri Hj Hn Hp].
  split; cbn [left_t left_i right_t right_i joined clear_right];
    [done|done|apply clear_ok|apply index_cleared_ok|apply cleared_ok|constructor|].
  intros p. apply no_pairs. by right.
Qed.

(** ** Building *)

Lemma join_pairs right : table_ok right → ∀ ls done_ j,
  joined_ok j → NoDup (pair_list j) → NoDup (done_ ++ ls).*1 →
  (∀ p, p ∈ pair_list j ↔ joins done_ (records right) p) →
  let j' := fold_left (λ j '(h, v), on_create (λ r, mk_pair h r)
    (equal_range (left_by v) (build_index right_by right)) j) ls j in
  joined_ok j' ∧ NoDup (pair_list j') ∧ ∀ p, p ∈ pair_list j' ↔ joins (done_ ++ ls) (records right) p.
Proof using Type.
  intros Hr. pose proof (build_index_ok right_by right Hr) as Hri.
  induction ls as [|[h v] ls IH]; intros done_ j Hj Hn Hnd Hp; [by rewrite app_nil_r|].
  rewrite (cons_middle (h, v)), app_assoc in Hnd |- *. cbn [fold_left].
  destruct (create_pairs_ok j (λ r, mk_pair h r) (equal_range (left_by v) (build_index right_by right))
    (joins done_ (records right)) (joins (done_ ++ [(h, v)]) (records right)))
    as (Hj' & Hn' & Hp'); [done|done|done|by apply (opposite_NoDup right_by right)|by intros a b [= ->]| | |by apply IH].
  - intros a _ (x & y & Hx & _). rewrite !fmap_app in Hnd. apply NoDup_app in Hnd as [Hnd _].
    apply NoDup_app in Hnd as (_ & Hd & _). apply (Hd h); [|by left]. by apply (list_elem_of_fmap_2 fst _ (h, x)).
  - intros p. unfold joins. setoid_rewrite elem_of_app. setoid_rewrite list_elem_of_singleton.
    setoid_rewrite (equal_range_elem right_by _ _ _ _ Hri). split.
    + intros (a & b & [Ha|[= Hh ->]] & Hb & Hk); [left; eauto|right].
      exists (right_h p). split; [by exists b|]. rewrite <- Hh. by destruct p.
    + intros [(a & b & ? & ? & ?)|(a & (b & Hb & Hk) & ->)]; [eauto 10|].
      exists v, b. simpl. eauto.
Qed.

Lemma join_built left right : table_ok left → table_ok right → join_ok (join left right).
Proof using Type.
  intros Hl Hr. destruct (join_pairs right Hr (records left) [] empty_joined) as (Hj & Hn & Hp).
  - apply (cleared_ok empty_joined).
  - constructor.
  - apply Hl.
  - intros p. apply no_pairs. by left.
  - by split; [|apply build_index_ok| |apply build_index_ok|..].
Qed.

(** ** Any run *)

Inductive join_op :=
  | jo_create_left (v : L) | jo_create_right (v : R)
  | jo_modify_left (h : nat) (f : L → L) | jo_modify_right (h : nat) (f : R → R)
  | jo_remove_left (h : nat) | jo_remove_right (h : nat)
  | jo_clear_left | jo_clear_right.

Definition join_run (s : join_state) (op : join_op) : join_state :=
  match op with
  | jo_create_left v => create_left v s | jo_create_right v => create_right v s
  | jo_modify_left h f => modify_left h f s | jo_modify_right h f => modify_right h f s
  | jo_remove_left h => remove_left h s | jo_remove_right h => remove_right h s
  | jo_clear_left => clear_left s | jo_clear_right => clear_right s
  end.

Definition keeps_keys (op : join_op) : Prop :=
  match op with
  | jo_modify_left _ f => ∀ v, left_by (f v) = left_by v
  | jo_modify_right _ f => ∀ v, right_by (f v) = right_by v
  | _ => True
  end.

(** C29: A join is never out of date: after any sequence of creations, modifications (that keep the keys),
    removals and clears on either side it holds exactly the pairs of present records whose keys are
    equal, each of them once. *)
Theorem join_exact left right ops p :
  table_ok left → table_ok right → Forall keeps_keys ops →
  let s := foldl join_run (join left right) ops in
  NoDup (pair_list (joined s)) ∧
  (p ∈ pair_list (joined s) ↔ joins (records (left_t s)) (records (right_t s)) p).
Proof using Type.
  intros Hl Hr Hops s. assert (join_ok s) as Hs; [|by destruct Hs].
  unfold s. clear s. generalize (join_built left right Hl Hr). generalize (join left right).
  induction Hops as [|op ops Hop Hops IH]; intros s Hs; [done|]. simpl. apply IH.
  destruct op; simpl; auto using create_left_ok, create_right_ok, modify_left_ok, modify_right_ok,
    remove_left_ok, remove_right_ok, clear_left_ok, clear_right_ok.
Qed.
End join.

(** ** Functions (address, name) and calls (address, time) *)

Definition demo_functions : table (Z * Z) := mk_table [(0, (100, 1)%Z); (1, (200, 2)%Z)] 2.
Definition demo_times : table (Z * Z) := mk_table [(0, (100, 7)%Z); (1, (100, 9)%Z)] 2.
Definition demo_join_ops : list (join_op (L := Z * Z) (R := Z * Z)) :=
  [jo_create_right (200, 5)%Z; jo_remove_right 0; jo_create_left (100, 3)%Z].

Example demo_joined :
  pair_list (joined (foldl (join_run fst fst) (join fst fst demo_functions demo_times) demo_join_ops)) =
    [mk_pair 0 1; mk_pair 1 2; mk_pair 2 1].
Proof. vm_compute. reflexivity. Qed.

Lemma join_exact_witness :
  let s := foldl (join_run fst fst) (join fst fst demo_functions demo_times) demo_join_ops in
  NoDup (pair_list (joined s)) ∧
  (mk_pair 1 2 ∈ pair_list (joined s) ↔ joins fst fst (records (left_t s)) (records (right_t s)) (mk_pair 1 2)).
Proof.
  apply (join_exact fst fst demo_functions demo_times demo_join_ops (mk_pair 1 2)).
  - split; [by apply (bool_decide_unpack _); vm_compute|by repeat constructor; simpl; lia].
  - split; [by apply (bool_decide_unpack _); vm_compute|by repeat constructor; simpl; lia].
  - by repeat constructor.
Defined.
