(* ===== verification/Derived.v ===== *)
(** Callers and callees of the selected functions (frontend/src/derived_statistics.cpp,
    frontend/src/representation.cpp, frontend/keyer.h).

    The functions that are selected in a table of calls give their addresses; the calls of these functions
    are joined to them and grouped by who called them, or the calls that they made by what was called.
    [representation] puts the tables together for a view, and activating a row goes to the function it
    shows.  It composes [group_by] of [Sdb], [Join] and the aggregation of [Hierarchy]; both keep themselves
    up to date, so that what is shown here of the tables when they are made holds of them ever after.  The
    representations that are cumulative over the threads are in [Cumulative]. *)

From S2P Require Import Prelude Statistics Sdb Join Hierarchy.
Local Open Scope Z_scope.

Definition values {V} (t : table V) : list V := (records t).*2.

(** * Tables and sums *)

Lemma find_records_sub {V} (rs qs : list (nat * V)) : NoDup rs.*1 → (∀ p, p ∈ qs → p ∈ rs) →
  omap (λ h, find_record h rs) qs.*1 = qs.*2.
Proof.
  intros Hnd. induction qs as [|[h v] qs IH]; intros Hin; [done|]. simpl.
  rewrite (proj2 (find_record_elem h v rs Hnd)) by (apply Hin; by left). f_equal.
  apply IH. intros p Hp. apply Hin. by right.
Qed.

Lemma values_filter {V} (P : V → Prop) `{∀ v, Decision (P v)} (rs : list (nat * V)) :
  (filter (λ p, P p.2) rs).*2 = filter P rs.*2.
Proof.
  induction rs as [|[h v] rs IH]; [done|]. rewrite fmap_cons.
  destruct (decide (P v)); [rewrite !filter_cons_True by done|rewrite !filter_cons_False by done]; [simpl; f_equal|]; apply IH.
Qed.

Lemma total_perm f l l' : l ≡ₚ l' → total f l = total f l'.
Proof. unfold total. induction 1; simpl; lia. Qed.

Lemma longest_perm l l' : l ≡ₚ l' → longest l = longest l'.
Proof. unfold longest. induction 1; simpl; lia. Qed.

Lemma total_other_groups {K} `{EqDecision K} (key : call_statistics → K) f n l ks : key n ∉ ks →
  fold_right (λ k s, total f (filter (λ n, key n = k) (n :: l)) + s) 0 ks =
  fold_right (λ k s, total f (filter (λ n, key n = k) l) + s) 0 ks.
Proof.
  induction ks as [|j ks IH]; intros Hj; [done|]. cbn [fold_right].
  apply not_elem_of_cons in Hj as [Hj Hks]. rewrite filter_cons_False by congruence. by rewrite IH.
Qed.

(** A sum is the sum over the groups of a key, if there is a group for every key that occurs. *)
Lemma total_groups {K} `{EqDecision K} (key : call_statistics → K) f l ks : NoDup ks → (∀ n, n ∈ l → key n ∈ ks) →
  fold_right (λ k s, total f (filter (λ n, key n = k) l) + s) 0 ks = total f l.
Proof.
  intros Hks. induction l as [|n l IH]; intros Hl.
  - clear. induction ks as [|k ks IHk]; [done|]. cbn [fold_right]. by rewrite IHk.
  - change (total f (n :: l)) with (f (call_stats n) + total f l).
    rewrite <- IH by (intros m Hm; apply Hl; by right). assert (key n ∈ ks) as Hn by (apply Hl; by left). clear IH Hl.
    induction Hks as [|k ks Hk Hks IHk]; [by apply elem_of_nil in Hn|]. cbn [fold_right].
    destruct (decide (key n = k)) as [E|E].
    + rewrite filter_cons_True by done. change (total f (n :: ?x)) with (f (call_stats n) + total f x).
      rewrite (total_other_groups key f n l ks) by congruence. lia.
    + rewrite filter_cons_False by done. apply elem_of_cons in Hn as [Hn|Hn]; [congruence|]. rewrite IHk by done. lia.
Qed.

(** * The left side of a join *)

Section left.
Context {L R K : Type} `{EqDecision K} (left_by : L → K) (right_by : R → K).

(** The records of a join stand for their left sides. *)
(** [sdb/transforms.h:42-57] joined_record::operator const left_type & *)
Definition left_records (j : join_state (L := L) (R := R) (K := K)) : table L :=
  mk_table (omap (λ '(i, p), (λ n, (i, n)) <$> find_record (left_h p) (records (left_t j))) (records (pairs (joined j))))
    (next_handle (pairs (joined j))).

Lemma left_present j p : join_ok left_by right_by j → p ∈ pair_list (joined j) →
  ∃ n, (left_h p, n) ∈ records (left_t j) ∧ find_record (left_h p) (records (left_t j)) = Some n ∧
    left_by n ∈ map right_by (values (right_t j)).
Proof using Type.
  intros Hj (n & r & Hn & Hr & Hk)%(jo_pairs _ _ _ Hj). exists n. split_and!; [done| |].
  - apply find_record_elem; [apply (jo_left _ _ _ Hj)|done].
  - rewrite Hk. apply list_elem_of_In, in_map, list_elem_of_In. by apply (list_elem_of_fmap_2 snd) in Hr.
Qed.

Lemma left_records_ok j : join_ok left_by right_by j → table_ok (left_records j).
Proof using Type.
  intros Hj. destruct (j_table _ (jo_joined _ _ _ Hj)) as [Hnd Hlt].
  assert ((records (left_records j)).*1 = (records (pairs (joined j))).*1) as E.
  { unfold left_records. cbn [records]. pose proof (left_present j) as Hp. specialize (λ p, Hp p Hj).
    unfold pair_list in Hp. induction (records (pairs (joined j))) as [|[i p] rs IH]; [done|]. simpl.
    destruct (Hp p ltac:(by left)) as (n & _ & -> & _). simpl. f_equal.
    apply IH; [by inversion Hnd|by inversion Hlt|]. intros q Hq. apply Hp. by right. }
  split; [by rewrite E|]. rewrite <- (Forall_fmap (fst : nat * L → nat) (λ h, h < next_handle (left_records j))%nat).
  rewrite E. by rewrite Forall_fmap.
Qed.

Lemma left_values j : values (left_records j) = omap (λ h, find_record h (records (left_t j))) (left_h <$> pair_list (joined j)).
Proof using Type.
  unfold values, left_records, pair_list. cbn [records]. induction (records (pairs (joined j))) as [|[i p] rs IH]; [done|].
  simpl. destruct (find_record _ _); simpl; [f_equal|]; apply IH.
Qed.

Lemma left_records_elem j n : join_ok left_by right_by j →
  n ∈ values (left_records j) ↔ n ∈ values (left_t j) ∧ left_by n ∈ map right_by (values (right_t j)).
Proof using Type.
  intros Hj. rewrite left_values, list_elem_of_omap. split.
  - intros (h & (p & -> & Hp)%list_elem_of_fmap & Hf). destruct (left_present j p Hj Hp) as (m & Hm & Hf' & Hk).
    assert (n = m) as -> by congruence. split; [|done]. by apply (list_elem_of_fmap_2 snd) in Hm.
  - intros [([h m] & -> & Hn)%list_elem_of_fmap Hk]. apply list_elem_of_In, in_map_iff in Hk as (r & Hk & Hr).
    apply list_elem_of_In, list_elem_of_fmap in Hr as ([i r'] & -> & Hr). exists h. split.
    + apply list_elem_of_fmap. exists (mk_pair h i). split; [done|]. apply (jo_pairs _ _ _ Hj). by exists m, r'.
    + apply find_record_elem; [apply (jo_left _ _ _ Hj)|done].
Qed.

(** With every key on the right only once, they are the records of the left whose key is there, each once. *)
Lemma left_values_perm j : join_ok left_by right_by j → NoDup (map right_by (values (right_t j))) →
  values (left_records j) ≡ₚ filter (λ n, left_by n ∈ map right_by (values (right_t j))) (values (left_t j)).
Proof using Type.
  intros Hj Hr. set (P := λ n, left_by n ∈ map right_by (values (right_t j))).
  destruct (jo_left _ _ _ Hj) as [Hnd _]. rewrite left_values.
  unfold values. rewrite <- (values_filter P).
  rewrite <- (find_records_sub (records (left_t j)) (filter (λ p, P p.2) (records (left_t j)))); [|done|].
  2: by intros p [_ ?]%list_elem_of_filter.
  apply omap_Permutation, NoDup_Permutation.
  - apply NoDup_fmap_2_strong, (jo_once _ _ _ Hj). intros p q Hp Hq E.
    apply (jo_pairs _ _ _ Hj) in Hp as (a & b & Ha & Hb & Hk). apply (jo_pairs _ _ _ Hj) in Hq as (a' & b' & Ha' & Hb' & Hk').
    rewrite <- E in Ha'. assert ((left_h p, a) = (left_h p, a')) as [= ->] by (by apply (NoDup_map_elem fst (records (left_t j)))).
    unfold values in Hr. rewrite map_map in Hr.
    assert ((right_h p, b) = (right_h q, b')) as [= Hh _] by (apply (NoDup_map_elem (λ x : nat * R, right_by x.2) (records (right_t j))); [done..|simpl; congruence]).
    destruct p, q. simpl in *. congruence.
  - by apply (NoDup_map_filter fst).
  - intros h. rewrite !list_elem_of_fmap. split.
    + intros (p & -> & Hp). destruct (left_present j p Hj Hp) as (n & Hn & _ & Hk). exists (left_h p, n).
      split; [done|]. by apply list_elem_of_filter.
    + intros ([i n] & -> & [Hk Hn]%list_elem_of_filter). unfold P in Hk. simpl in Hk.
      apply list_elem_of_In, in_map_iff in Hk as (r & Hk & Hr'%list_elem_of_In).
      apply list_elem_of_fmap in Hr' as ([k r'] & -> & Hr'). exists (mk_pair i k). split; [done|].
      apply (jo_pairs _ _ _ Hj). by exists n, r'.
Qed.
End left.

(** * Addresses, callers and callees *)

Section derived.
Context {EO : equal_order} (hierarchy : table call_statistics).

(** The unique index by identifiers. *)
Definition by_ids : gmap Z call_statistics := list_to_map (map (λ n, (call_id n, n)) (values hierarchy)).

(** [frontend/keyer.h:177-192] parent_address *)
Definition parent_address (n : call_statistics) : Z :=
  match by_ids !! parent_id n with Some p => address p | None => 0 end.

(** [frontend/src/derived_statistics.cpp:40-52] hierarchy_address. An identifier that is not there is refused. *)
Definition hierarchy_address (id : Z) : result Z :=
  match by_ids !! id with Some n => Ret (address n) | None => Throw invalid_argument end.

(** The addresses of the selection, each once: the aggregator does nothing. *)
Definition group_addresses (selection : table Z) : grouped (T := Z) (A := Z) (K := Z) :=
  group_by (λ id, default 0 (address <$> by_ids !! id)) (λ a, a) (λ a, a) (λ a _, a) selection.

(** [frontend/src/derived_statistics.cpp:88-101] derived_statistics::addresses *)
Definition addresses (selection : table Z) : result (table Z) :=
  fold_m (λ _ id, hierarchy_address id) 0 (values selection) ≫= λ _, Ret (agg (group_addresses selection)).

(** The key of a derived record, a new record of it, and what becomes of a record. *)
Definition function_key (n : call_statistics) : Z * Z := (address n, thread_id n).
Definition fresh_function (k : Z * Z) : call_statistics := mk_call 0 k.2 0 k.1 function_statistics_default.

(** [frontend/src/derived_statistics.cpp:111-117] derived_statistics::callers. And lines 129 to 135 of [callees]: the join
    by one key, the groups by another. *)
Definition join_and_group (member : call_statistics → Z) (key : call_statistics → Z * Z) (addresses : table Z) :
    grouped (T := call_statistics) (A := call_statistics) (K := Z * Z) :=
  group_by key function_key fresh_function (sum_flat by_ids) (left_records (join member (λ a, a) hierarchy addresses)).

(** [frontend/src/derived_statistics.cpp:103-119] derived_statistics::callers *)
Definition callers (callees : table Z) : grouped :=
  join_and_group address (λ n, (parent_address n, thread_id n)) callees.

(** [frontend/src/derived_statistics.cpp:121-137] derived_statistics::callees *)
Definition callees (callers : table Z) : grouped :=
  join_and_group parent_address (λ n, (address n, thread_id n)) callers.

(** ** What they are *)

Lemma under_group_by {T A K : Type} `{EqDecision K} (ukey : T → K) (akey : A → K) (fresh : K → A) (aggregate : A → list T → A) (t : table T) :
  under (group_by ukey akey fresh aggregate t) = t.
Proof using Type.
  unfold group_by. assert (∀ (rs : list (nat * T)) (g : grouped (T := T) (A := A) (K := K)), under (foldl (λ g '(h, v), update_record akey fresh aggregate (ukey v) g) g rs) = under g) as H; [|apply H].
  induction rs as [|[h v] rs IH]; intros g; [done|]. simpl. rewrite IH. unfold update_record, create_aggregated.
  by destruct (equal_range _ _).
Qed.

(** The addresses are those of the selection. *)
Lemma addresses_ok selection t : table_ok selection → addresses selection = Ret t →
  table_ok t ∧ NoDup (values t) ∧
  ∀ a, a ∈ values t ↔ ∃ id n, id ∈ values selection ∧ by_ids !! id = Some n ∧ a = address n.
Proof using Type.
  intros Ht Ha. unfold addresses in Ha.
  assert (∀ l x, fold_m (λ _ id, hierarchy_address id) x l ≫= (λ _ : Z, Ret (agg (group_addresses selection))) = Ret t →
    t = agg (group_addresses selection) ∧ ∀ id, id ∈ l → is_Some (by_ids !! id)) as Hl.
  { induction l as [|id l IH]; intros x; cbn [fold_m].
    - intros [= <-]. split; [done|]. by intros id ?%elem_of_nil.
    - destruct (hierarchy_address id) as [a| |] eqn:Ea; [|by intros [=]..]. cbn [mbind result_bind]. intros H%IH.
      destruct H as [-> H]. split; [done|]. intros i [->|Hi]%elem_of_cons; [|by apply H].
      unfold hierarchy_address in Ea. by destruct (by_ids !! id). }
  destruct (Hl _ _ Ha) as [-> Hin]. clear Ha Hl. unfold group_addresses.
  set (key := λ id, default 0 (address <$> by_ids !! id)).
  destruct (group_by_ok key (λ a : Z, a) (λ a, a) (λ a _, a) (λ _, eq_refl) (λ _ _, eq_refl) (λ _ _ _, eq_refl) selection Ht)
    as [Hb Hagg]. pose proof (under_group_by key (λ a : Z, a) (λ a, a) (λ a _, a) selection) as Hu.
  split_and!; [apply Hb|apply Hb|]. intros a. split.
  - intros ([h b] & -> & Hr)%list_elem_of_fmap. destruct (agg_value _ _ _ _ _ _ _ Hagg h b Hr) as (l & _ & Hne).
    destruct (Hne ltac:(tauto)) as [_ Hi]. apply items_nonempty in Hi as (h' & id & Hid & Hk). rewrite Hu in Hid.
    apply (list_elem_of_fmap_2 snd) in Hid. simpl in *. destruct (Hin id Hid) as [n En]. exists id, n.
    split_and!; [done|done|]. unfold key in Hk. by rewrite En in Hk.
  - intros (id & n & Hid & En & ->). apply list_elem_of_fmap in Hid as ([h id'] & -> & Hid). simpl in En.
    destruct (agg_exists _ _ _ _ _ _ _ Hagg (address n)) as (h' & a & Ha & <-); [tauto| |by apply (list_elem_of_fmap_2 snd) in Ha].
    apply items_nonempty. exists h, id'. rewrite Hu. split; [done|]. unfold key. simpl. by rewrite En.
Qed.

(** What a table of functions tells of a list of calls that are grouped by a key: there is a row for every key, each
    once, with the sums over its calls. *)
Record summarizes (involved : list call_statistics) (key : call_statistics → Z * Z) (rows : list call_statistics) : Prop := {
  sm_once : NoDup (map function_key rows);
  sm_keys k : k ∈ map function_key rows ↔ k ∈ map key involved;
  sm_sums r : r ∈ rows → let group := filter (λ n, key n = function_key r) involved in
    call_stats r = mk_stats (u64 (total times_called group)) (s64 (total inclusive_time (outer_calls by_ids group)))
      (s64 (total exclusive_time group)) (longest (outer_calls by_ids group));
  sm_times : u64 (total times_called rows) = u64 (total times_called involved);
  sm_exclusive : s64 (total exclusive_time rows) = s64 (total exclusive_time involved)
}.

(** Sums of what wrapped wrap to the same. *)
Lemma total_rows (w : Z → Z) f key involved rows : (∀ a b, w (w a + b) = w (a + b)) →
  NoDup (map function_key rows) → (∀ k, k ∈ map function_key rows ↔ k ∈ map key involved) →
  (∀ r, r ∈ rows → f (call_stats r) = w (total f (filter (λ n, key n = function_key r) involved))) →
  w (total f rows) = w (total f involved).
Proof using Type.
  intros Hw Hnd Hk Hr. rewrite <- (total_groups key f involved (map function_key rows) Hnd).
  - clear Hnd Hk. induction rows as [|r rows IH]; [done|]. change (total f (r :: rows)) with (f (call_stats r) + total f rows).
    rewrite Hr by (by left). rewrite Hw. cbn [map fold_right].
    rewrite (Z.add_comm (total f (filter _ involved)) (total f rows)), <- Hw.
    rewrite IH by (intros r' Hr'; apply Hr; by right). by rewrite Hw, Z.add_comm.
  - intros n Hn. apply Hk, list_elem_of_In, in_map. by apply list_elem_of_In.
Qed.

Lemma join_and_group_ok member key addrs : table_ok hierarchy → table_ok addrs → NoDup (values addrs) →
  let g := join_and_group member key addrs in
  grouped_ok key function_key fresh_function (sum_flat by_ids) g ∧
  values (under g) ≡ₚ filter (λ n, member n ∈ values addrs) (values hierarchy).
Proof using Type.
  intros Hh Ha Hnd g. pose proof (join_built member (λ a : Z, a) hierarchy addrs Hh Ha) as Hj. unfold g, join_and_group. split.
  - apply group_by_ok; [by intros []|done|done|]. by apply (left_records_ok member (λ a : Z, a)).
  - rewrite under_group_by. pose proof (left_values_perm member (λ a : Z, a) _ Hj) as Hp.
    rewrite map_id in Hp. exact (Hp Hnd).
Qed.

Lemma outer_calls_perm (l l' : list call_statistics) : l ≡ₚ l' → outer_calls by_ids l ≡ₚ outer_calls by_ids l'.
Proof using Type. unfold outer_calls. by intros ->. Qed.

Lemma summary_sums key involved t r (g : grouped (T := call_statistics) (A := call_statistics) (K := Z * Z)) : values (under g) ≡ₚ involved → Forall (λ n, wf_stats (call_stats n)) involved →
  ∀ l, l ≡ₚ items key (function_key r) g → r = sum_flat by_ids t l →
  let group := filter (λ n, key n = function_key r) involved in
  call_stats r = mk_stats (u64 (total times_called group)) (s64 (total inclusive_time (outer_calls by_ids group)))
    (s64 (total exclusive_time group)) (longest (outer_calls by_ids group)).
Proof using Type.
  intros Hp Hwf l Hl Hr group. assert (l ≡ₚ group) as Hi.
  { rewrite Hl. assert (items key (function_key r) g = filter (λ n, key n = function_key r) (values (under g))) as ->
      by exact (values_filter (λ n, key n = function_key r) (records (under g))).
    unfold group. by rewrite <- Hp. }
  rewrite (f_equal call_stats Hr), sum_flat_totals; [|rewrite Hi; by apply Forall_filter_2].
  pose proof (outer_calls_perm _ _ Hi) as Ho.
  by rewrite (total_perm _ _ _ Hi), (total_perm _ _ _ Ho), (total_perm exclusive_time _ _ Hi), (longest_perm _ _ Ho).
Qed.

Lemma group_elem {X Y : Type} (f : X → Y) k l : k ∈ map f l ↔ ∃ n, n ∈ l ∧ f n = k.
Proof using Type.
  rewrite list_elem_of_In, in_map_iff. split; intros (n & H1 & H2); exists n; [|split; [done|by apply list_elem_of_In]].
  split; [by apply list_elem_of_In|done].
Qed.

Lemma grouped_summary key involved (g : grouped (T := call_statistics) (A := call_statistics) (K := Z * Z)) :
  grouped_ok key function_key fresh_function (sum_flat by_ids) g → values (under g) ≡ₚ involved →
  Forall (λ n, wf_stats (call_stats n)) involved → summarizes involved key (values (agg g)).
Proof using Type.
  intros [Hb Hg] Hp Hwf.
  assert (NoDup (map function_key (values (agg g)))) as Honce by (unfold values; rewrite map_map; apply Hb).
  assert (∀ k, k ∈ map function_key (values (agg g)) ↔ k ∈ map key involved) as Hkeys.
  { intros k. rewrite !group_elem. setoid_rewrite <- Hp. split.
    - intros (r & ([h r'] & -> & Hr)%list_elem_of_fmap & <-). destruct (agg_value _ _ _ _ _ _ _ Hg h r' Hr) as (l & _ & Hne).
      destruct (Hne ltac:(tauto)) as [_ Hi]. apply items_nonempty in Hi as (i & n & Hn & Hk). exists n.
      split; [by apply (list_elem_of_fmap_2 snd) in Hn|done].
    - intros (n & ([i n'] & -> & Hn)%list_elem_of_fmap & Hk).
      destruct (agg_exists _ _ _ _ _ _ _ Hg k) as (h & r & Hr & <-); [tauto|apply items_nonempty; eauto|].
      exists r. split; [by apply (list_elem_of_fmap_2 snd) in Hr|done]. }
  assert (∀ r, r ∈ values (agg g) → let group := filter (λ n, key n = function_key r) involved in
    call_stats r = mk_stats (u64 (total times_called group)) (s64 (total inclusive_time (outer_calls by_ids group)))
      (s64 (total exclusive_time group)) (longest (outer_calls by_ids group))) as Hsums.
  { intros r ([h r'] & -> & Hr)%list_elem_of_fmap. destruct (agg_value _ _ _ _ _ _ _ Hg h r' Hr) as (l & El & Hne).
    destruct (Hne ltac:(tauto)) as [Hl _]. by eapply summary_sums. }
  split; [done..| |]; eapply total_rows; try done; try (intros; apply uw_add_l || apply sw_add_l; lia);
    intros r Hr; by rewrite (Hsums r Hr).
Qed.

Lemma summary_ok member key addrs : table_ok hierarchy → table_ok addrs → NoDup (values addrs) →
  Forall (λ n, wf_stats (call_stats n)) (values hierarchy) →
  summarizes (filter (λ n, member n ∈ values addrs) (values hierarchy)) key (values (agg (join_and_group member key addrs))).
Proof using Type.
  intros Hh Ha Hnd Hwf. destruct (join_and_group_ok member key addrs Hh Ha Hnd) as [Hg Hp].
  apply grouped_summary; [done..|]. by apply Forall_filter_2.
Qed.

(** Rows that tell the same tell as much of the calls. *)
Definition alike (r r' : call_statistics) : Prop := function_key r = function_key r' ∧ call_stats r = call_stats r'.

Lemma summarizes_alike involved key rows rows' : Forall2 alike rows rows' →
  summarizes involved key rows → summarizes involved key rows'.
Proof using Type.
  intros Hl [H1 H2 H3 H4 H5]. assert (map function_key rows' = map function_key rows) as Ek.
  { clear -Hl. induction Hl as [|r r' rows rows' [E _] _ IH]; [done|]. simpl. by rewrite IH, E. }
  assert (∀ f, total f rows' = total f rows) as Et.
  { intros f. clear -Hl. unfold total. induction Hl as [|r r' rows rows' [_ E] _ IH]; [done|]. simpl. by rewrite IH, E. }
  split; rewrite ?Ek, ?Et; [done..| |done|done].
  intros r' Hr'. apply list_elem_of_lookup in Hr' as [i Hi]. destruct (Forall2_lookup_r _ _ _ _ _ Hl Hi) as (r & Hr & Ek' & Es).
  rewrite <- Ek', <- Es. apply H3. by eapply list_elem_of_lookup_2.
Qed.
End derived.

(** * Representations *)

Section representations.
Context {EO : equal_order}.

(** Aggregated records are numbered in the order they are made. *)
(** [frontend/constructors.h:32-44] auto_increment_constructor *)
Definition numbered (t : table call_statistics) : table call_statistics :=
  mk_table (map (λ '(h, n), (h, mk_call (u32 (Z.of_nat h + 1)) (thread_id n) (parent_id n) (address n) (call_stats n)))
    (records t)) (next_handle t).

(** [frontend/src/representation.cpp:82-91] group_by_thread_address *)
Definition group_by_thread_address (source : table call_statistics) : table call_statistics :=
  numbered (agg (group_by function_key function_key fresh_function (sum_flat (by_ids source)) source)).

(** [frontend/src/representation.cpp:93-100] join_by_thread *)
Definition join_by_thread (source : table call_statistics) (threads : table Z) : table call_statistics :=
  left_records (join thread_id (λ t, t) source threads).

(** [frontend/representation.h:37-45] representation. What there is to be seen; the selections are arguments. *)
Record representation := mk_rep { main : table call_statistics; rep_callers : table call_statistics; rep_callees : table call_statistics }.

(** [frontend/src/representation.cpp:131-148] create_all *)
Definition create_all (main source : table call_statistics) (selection : table Z) : result representation :=
  a ← addresses main selection;
  Ret (mk_rep main (numbered (agg (callers source a))) (numbered (agg (callees source a)))).

(** [frontend/src/representation.cpp:163-184] create_filtered *)
Definition create_filtered (main_all source : table call_statistics) (selection threads : table Z) : result representation :=
  r ← create_all main_all source selection;
  Ret (mk_rep (join_by_thread main_all threads) (join_by_thread (rep_callers r) threads) (join_by_thread (rep_callees r) threads)).

(** With call stacks the calls are shown as they are, without them the functions. *)
(** [frontend/src/representation.cpp:187-189] representation::create. And lines 199 to 201, without call stacks. *)
Definition representation_all (callstacks : bool) (source : table call_statistics) (selection : table Z) : result representation :=
  create_all (if callstacks then source else group_by_thread_address source) source selection.

(** [frontend/src/representation.cpp:195-197] representation::create. And lines 207 to 209, without call stacks. *)
Definition representation_filtered (callstacks : bool) (source : table call_statistics) (selection threads : table Z) : result representation :=
  create_filtered (if callstacks then source else group_by_thread_address source) source selection threads.

(** [frontend/src/representation.cpp:61-69] collect_keys *)
Definition collect_keys {L R K : Type} (j : join_state (L := L) (R := R) (K := K)) (key : L → Z * Z) : list (Z * Z) :=
  map key (values (left_records j)).

(** The row at an iterator is selected by its identifier. *)
(** [frontend/src/representation.cpp:102-108] add_record *)
Definition add_record (main : table call_statistics) (selection : table Z) (h : nat) : table Z :=
  match find_record h (records main) with Some n => (create (call_id n) selection).2 | None => selection end.

(** Goes to the functions of the selected rows: the keys are taken before the selections are cleared, as the rows go
    with what is selected. [j] joins the rows with the selected ones. *)
(** [frontend/src/representation.cpp:110-129] make_activate_derived *)
Definition activate_derived (main : table call_statistics) (main_index : index (K := Z * Z)) (selection_main : table Z)
    (j : join_state (L := call_statistics) (R := Z) (K := Z)) : table Z * join_state :=
  let jump := collect_keys j function_key in
  let selected := foldl (λ selection k, foldl (add_record main) selection (equal_range k main_index))
    (clear_records selection_main) jump in
  (selected, clear_right j).

(** ** What they show *)

Lemma map_values {V W} (f : nat → V → W) (rs : list (nat * V)) : (map (λ '(h, v), (h, f h v)) rs).*1 = rs.*1.
Proof. induction rs as [|[h v] rs IH]; [done|]. simpl. f_equal. apply IH. Qed.

Lemma numbered_alike t : Forall2 alike (values t) (values (numbered t)).
Proof. unfold values, numbered. cbn [records]. induction (records t) as [|[h n] rs IH]; by repeat constructor. Qed.

Lemma numbered_ok t : table_ok t → table_ok (numbered t).
Proof.
  intros [Hnd Hl]. split.
  - assert ((records (numbered t)).*1 = (records t).*1) as -> by
      exact (map_values (λ h n, mk_call (u32 (Z.of_nat h + 1)) (thread_id n) (parent_id n) (address n) (call_stats n)) _).
    done.
  - cbn [numbered records next_handle]. apply Forall_map. eapply Forall_impl; [exact Hl|]. by intros [h n].
Qed.

Lemma join_by_thread_perm t threads : table_ok t → table_ok threads → NoDup (values threads) →
  values (join_by_thread t threads) ≡ₚ filter (λ n, thread_id n ∈ values threads) (values t).
Proof.
  intros Ht Hs Hnd. pose proof (left_values_perm thread_id (λ i : Z, i) _ (join_built thread_id (λ i : Z, i) t threads Ht Hs)) as H.
  rewrite map_id in H. exact (H Hnd).
Qed.

(** The table of functions tells of all the calls. *)
Lemma functions_summary source : table_ok source → Forall (λ n, wf_stats (call_stats n)) (values source) →
  table_ok (group_by_thread_address source) ∧
  summarizes source (values source) function_key (values (group_by_thread_address source)).
Proof.
  intros Ht Hwf. set (g := group_by function_key function_key fresh_function (sum_flat (by_ids source)) source).
  assert (grouped_ok function_key function_key fresh_function (sum_flat (by_ids source)) g) as Hg
    by (apply group_by_ok; [by intros []|done|done|done]).
  split; [apply numbered_ok, (proj1 Hg)|]. eapply summarizes_alike; [apply numbered_alike|].
  apply (grouped_summary source function_key (values source) g); [done| |done]. unfold g. by rewrite under_group_by.
Qed.

Definition caller_key (source : table call_statistics) (n : call_statistics) : Z * Z := (parent_address source n, thread_id n).

(** C35: Callers and callees account for the calls: with some rows of a table of calls or of functions selected, and [chosen]
    the functions these rows are of, a row of the callers is for every function and thread that calls a chosen
    function, once, and has the sums over just these calls; a row of the callees is for every function called by a
    chosen one. Nothing is counted twice or lost: the rows add up to all the calls of (or from) the chosen functions. *)
Theorem representation_accounts callstacks source selection r :
  table_ok source → table_ok selection → Forall (λ n, wf_stats (call_stats n)) (values source) →
  representation_all callstacks source selection = Ret r →
  ∃ chosen : list Z,
    (∀ a, a ∈ chosen ↔ ∃ id n, id ∈ values selection ∧ by_ids (main r) !! id = Some n ∧ a = address n) ∧
    summarizes source (filter (λ n, address n ∈ chosen) (values source)) (caller_key source) (values (rep_callers r)) ∧
    summarizes source (filter (λ n, parent_address source n ∈ chosen) (values source)) function_key (values (rep_callees r)) ∧
    if callstacks then main r = source else summarizes source (values source) function_key (values (main r)).
Proof.
  intros Ht Hs Hwf. unfold representation_all, create_all.
  destruct (addresses _ selection) as [a| |] eqn:Ea; [|by intros [=]..]. intros [= <-]. cbn [main rep_callers rep_callees].
  destruct (addresses_ok _ _ _ Hs Ea) as (Ha & Hnd & Hin). exists (values a). split_and!; [done| | |].
  - eapply summarizes_alike; [apply numbered_alike|]. by apply summary_ok.
  - eapply summarizes_alike; [apply numbered_alike|]. by apply summary_ok.
  - destruct callstacks; [done|]. by apply functions_summary.
Qed.

(** An identifier that is not there is refused, and only that. *)
Lemma addresses_refused main selection :
  addresses main selection = Throw invalid_argument ↔ ∃ id, id ∈ values selection ∧ by_ids main !! id = None.
Proof.
  unfold addresses. generalize (values selection), 0. induction l as [|id l IH]; intros x; cbn [fold_m].
  - split; [by intros [=]|]. by intros (id & ?%elem_of_nil & _).
  - destruct (by_ids main !! id) as [n|] eqn:En.
    + assert (hierarchy_address main id = Ret (address n)) as -> by (unfold hierarchy_address; by rewrite En).
      cbn [mbind result_bind]. rewrite IH. setoid_rewrite elem_of_cons. split; [naive_solver|].
      intros (i & [->|Hi] & Hn); [congruence|eauto].
    + assert (hierarchy_address main id = Throw invalid_argument) as -> by (unfold hierarchy_address; by rewrite En).
      split; [|done]. intros _. exists id. split; [by left|done].
Qed.

Lemma join_by_thread_elem t threads n : table_ok t → table_ok threads →
  n ∈ values (join_by_thread t threads) ↔ n ∈ values t ∧ thread_id n ∈ values threads.
Proof.
  intros Ht Hs. unfold join_by_thread. rewrite (left_records_elem thread_id (λ i : Z, i)); [|by apply join_built].
  by rewrite map_id.
Qed.

(** What a view of some threads shows is what is shown of these threads in a view of all, whose rows are per thread. *)
Theorem filtered_shows callstacks source selection threads r :
  table_ok source → table_ok selection → table_ok threads → Forall (λ n, wf_stats (call_stats n)) (values source) →
  representation_all callstacks source selection = Ret r →
  ∃ r', representation_filtered callstacks source selection threads = Ret r' ∧
    ∀ part n, part ∈ [main; rep_callers; rep_callees] →
      n ∈ values (part r') ↔ n ∈ values (part r) ∧ thread_id n ∈ values threads.
Proof.
  intros Ht Hs Hth Hwf. unfold representation_all, representation_filtered, create_filtered, create_all.
  destruct (functions_summary source Ht Hwf) as [Hm _].
  assert (table_ok (if callstacks then source else group_by_thread_address source)) as Hmain by by destruct callstacks.
  destruct (addresses _ selection) as [a| |] eqn:Ea; [|by intros [=]..]. intros [= <-]. cbn [mbind result_bind main rep_callers rep_callees].
  destruct (addresses_ok _ _ _ Hs Ea) as (Ha & Hnd & _). eexists. split; [done|].
  assert (table_ok (numbered (agg (callers source a)))) as Hcr by (apply numbered_ok; by apply join_and_group_ok).
  assert (table_ok (numbered (agg (callees source a)))) as Hce by (apply numbered_ok; by apply join_and_group_ok).
  intros part n Hp. rewrite !elem_of_cons, elem_of_nil in Hp.
  destruct Hp as [->|[->|[->|[]]]]; cbn [main rep_callers rep_callees]; by apply join_by_thread_elem.
Qed.

(** ** Going to a function *)

Lemma add_records_elem main hs : ∀ selection i, table_ok main →
  i ∈ values (foldl (add_record main) selection hs) ↔
  i ∈ values selection ∨ ∃ h n, h ∈ hs ∧ (h, n) ∈ records main ∧ call_id n = i.
Proof.
  induction hs as [|h hs IH]; intros selection i Hm; cbn [foldl]; [set_solver|]. rewrite IH by done.
  assert (i ∈ values (add_record main selection h) ↔ i ∈ values selection ∨ ∃ n, (h, n) ∈ records main ∧ call_id n = i) as ->.
  { unfold add_record. destruct (find_record h (records main)) as [n|] eqn:E.
    - apply find_record_elem in E; [|apply Hm]. unfold values. simpl. rewrite fmap_app, elem_of_app. cbn [fmap list_fmap].
      rewrite list_elem_of_singleton. split; [naive_solver|]. intros [?|(m & Hn & <-)]; [by left|right].
      assert ((h, n) = (h, m)) as [= ->]; [|done]. by apply (NoDup_map_elem fst (records main)); [apply Hm|..].
    - split; [by left|]. intros [?|(n & Hn & _)]; [done|]. apply find_record_elem in Hn; [congruence|apply Hm]. }
  setoid_rewrite elem_of_cons. naive_solver.
Qed.

(** Activating selected rows of the callers (or the callees) selects in the main table just the calls of their functions
    and threads, and no rows. *)
Theorem activate_selects main ix selection j : table_ok main → index_ok function_key main ix →
  join_ok call_id (λ i : Z, i) j →
  (∀ i, i ∈ values (activate_derived main ix selection j).1 ↔ ∃ n row, n ∈ values main ∧ call_id n = i ∧
    row ∈ values (left_t j) ∧ call_id row ∈ values (right_t j) ∧ function_key n = function_key row) ∧
  values (right_t (activate_derived main ix selection j).2) = [] ∧ values (left_records (activate_derived main ix selection j).2) = [].
Proof.
  intros Hm Hi Hj. split; [|done]. intros i. unfold activate_derived. cbn [fst].
  assert (∀ ks selection, i ∈ values (foldl (λ selection k, foldl (add_record main) selection (equal_range k ix)) selection ks) ↔
    i ∈ values selection ∨ ∃ n, n ∈ values main ∧ call_id n = i ∧ function_key n ∈ ks) as ->.
  { induction ks as [|k ks IH]; intros sel; cbn [foldl]; [set_solver|]. rewrite IH, add_records_elem by done.
    setoid_rewrite (equal_range_elem function_key main ix k _ Hi). setoid_rewrite elem_of_cons. unfold values. split.
    - intros [[?|(h & n & (m & Hin & Hk) & Hn & <-)]|(n & Hn & <- & Hk)]; [by left|right|right; eauto].
      assert ((h, m) = (h, n)) as [= ->] by (by apply (NoDup_map_elem fst (records main)); [apply Hm|..]).
      exists n. split; [by apply (list_elem_of_fmap_2 snd) in Hn|]. auto.
    - intros [?|(n & Hn & <- & [Hk|Hk])]; [auto|left; right|right; eauto].
      apply list_elem_of_fmap in Hn as ([h n'] & -> & Hn). exists h, n'. eauto 10. }
  assert (∀ k, k ∈ collect_keys j function_key ↔
    ∃ row, row ∈ values (left_t j) ∧ call_id row ∈ values (right_t j) ∧ k = function_key row) as Hkeys.
  { intros k. unfold collect_keys. rewrite group_elem. split.
    - intros (row & Hrow & <-). apply (left_records_elem call_id (λ i : Z, i) j row Hj) in Hrow as [Hl Hr].
      rewrite map_id in Hr. by exists row.
    - intros (row & Hl & Hr & ->). exists row. split; [|done]. apply (left_records_elem call_id (λ i : Z, i) j row Hj).
      by rewrite map_id. }
  split.
  - intros [?%elem_of_nil|(n & Hn & <- & (row & Hl & Hr & Hk)%Hkeys)]; [done|]. by exists n, row.
  - intros (n & row & Hn & <- & Hl & Hr & Hk). right. exists n. split_and!; [done..|]. apply Hkeys. by exists row.
Qed.

End representations.

(** * The small tree: main (100) calls f (200), which calls itself, and g (50) *)

Definition table_of {V} (l : list V) : table V := foldl (λ t v, (create v t).2) empty_table l.
Definition demo_source : table call_statistics := table_of demo_calls.
Definition shown (t : table call_statistics) : list (Z * Z * function_statistics) :=
  map (λ n, (call_id n, address n, call_stats n)) (values t).

(** f is called from main and from itself; it is the second function, and g is not among what it calls. *)
Example demo_representation :
  match representation_all false demo_source (table_of [2]) with
  | Ret r =>
      shown (main r) = [(1, 100, mk_stats 1 90 10 90); (2, 200, mk_stats 2 50 20 50); (3, 50, mk_stats 1 30 10 30)] ∧
      shown (rep_callers r) = [(1, 100, mk_stats 1 50 10 50); (2, 200, mk_stats 1 0 10 0)] ∧
      shown (rep_callees r) = [(1, 200, mk_stats 1 0 10 0)]
  | _ => False
  end.
Proof. vm_compute. done. Qed.

Example demo_refused : representation_all true demo_source (table_of [2; 7]) = Throw invalid_argument.
Proof. vm_compute. done. Qed.

(** From the row of the callers that shows main to main itself. *)
Example demo_activate :
  match representation_all true demo_source (table_of [2]) with
  | Ret r => values (activate_derived (main r) (build_index function_key (main r)) (table_of [2])
      (join call_id (λ i : Z, i) (rep_callers r) (table_of [1]))).1 = [1]
  | _ => False
  end.
Proof. vm_compute. done. Qed.

Definition demo_rep : representation :=
  match representation_all true demo_source (table_of [2]) with Ret r => r | _ => mk_rep empty_table empty_table empty_table end.

Lemma table_of_ok {V} (l : list V) : table_ok (table_of l).
Proof.
  unfold table_of. assert (∀ t : table V, table_ok t → table_ok (foldl (λ t v, (create v t).2) t l)) as H; [|apply H, (clear_ok empty_table)].
  induction l as [|v l IH]; intros t Ht; [done|]. cbn [foldl]. by apply IH, create_ok.
Qed.

Lemma representation_accounts_witness : ∃ chosen : list Z,
  (∀ a, a ∈ chosen ↔ ∃ id n, id ∈ values (table_of [2]) ∧ by_ids (main demo_rep) !! id = Some n ∧ a = address n) ∧
  summarizes demo_source (filter (λ n, address n ∈ chosen) (values demo_source)) (caller_key demo_source) (values (rep_callers demo_rep)) ∧
  summarizes demo_source (filter (λ n, parent_address demo_source n ∈ chosen) (values demo_source)) function_key (values (rep_callees demo_rep)) ∧
  main demo_rep = demo_source.
Proof.
  apply (representation_accounts true demo_source (table_of [2]) demo_rep); [apply table_of_ok..| |].
  - repeat constructor; simpl; unfold in_u, in_s; lia.
  - vm_compute. reflexivity.
Defined.
