(* ===== verification/Symbols.v ===== *)
(** Symbols of addresses (frontend/helpers.h, frontend/src/symbol_resolver.cpp).

    An address is in the mapping with the greatest base that is not above it; its offset is looked
    for among the symbols of the module in the same way, once the metadata of the module are there.
    They are asked for by the first address that needs them, and come at once or later.  The ordered
    containers are lists of entries in the order of their insertion. *)

From S2P Require Import Prelude.
Local Open Scope Z_scope.

(** * Ranges *)

(** [frontend/helpers.h:27-33] find_range. The entry before the upper bound: of the greatest key that is not above
    the value, the last one. *)
Definition find_range {V} (container : list (Z * V)) (value : Z) : option (Z * V) :=
  fold_left (λ best e,
    if e.1 <=? value
    then match best with
      | Some b => if b.1 <=? e.1 then Some e else best
      | None => Some e
      end
    else best) container None.

Lemma find_range_snoc {V} (l : list (Z * V)) e v :
  find_range (l ++ [e]) v =
    if e.1 <=? v
    then match find_range l v with
      | Some b => if b.1 <=? e.1 then Some e else find_range l v
      | None => Some e
      end
    else find_range l v.
Proof. unfold find_range. by rewrite fold_left_app. Qed.

Lemma find_range_spec {V} (l : list (Z * V)) v :
  match find_range l v with
  | Some e => e ∈ l ∧ e.1 ≤ v ∧ ∀ e', e' ∈ l → e'.1 ≤ v → e'.1 ≤ e.1
  | None => ∀ e', e' ∈ l → v < e'.1
  end.
Proof.
  induction l as [|e l IH] using rev_ind; [by intros e' ?%elem_of_nil|].
  rewrite find_range_snoc. destruct (Z.leb_spec e.1 v) as [He|He].
  - destruct (find_range l v) as [b|].
    + destruct IH as (Hb & Hbv & Hmax). destruct (Z.leb_spec b.1 e.1).
      * split_and!; [set_solver|done|]. intros e' [Hin|Hin%list_elem_of_singleton]%elem_of_app Hv; [|by subst].
        specialize (Hmax e' Hin Hv). lia.
      * split_and!; [set_solver|done|]. intros e' [Hin|Hin%list_elem_of_singleton]%elem_of_app Hv; [auto|subst; lia].
    + split_and!; [set_solver|done|]. intros e' [Hin|Hin%list_elem_of_singleton]%elem_of_app Hv; [|by subst].
      specialize (IH e' Hin). lia.
  - destruct (find_range l v) as [b|].
    + destruct IH as (Hb & Hbv & Hmax). split_and!; [set_solver|done|].
      intros e' [Hin|Hin%list_elem_of_singleton]%elem_of_app Hv; [auto|subst; lia].
    + intros e' [Hin|Hin%list_elem_of_singleton]%elem_of_app; [auto|by subst].
Qed.

(** * The resolver *)

(** [common/image_info.h:31-37] symbol_info *)
Record symbol_info := mk_symbol { s_name : string; s_rva : Z; s_size : Z; s_file : Z; s_line : Z }.

(** The metadata of a module: its symbols and its source files. *)
Record metadata := mk_metadata { symbols : list symbol_info; source_files : list (Z * string) }.

(** [frontend/symbol_resolver.h:57-59] symbol_resolver. [asked] are the requests made, [invalidated] the signals sent. *)
Record symbol_resolver := mk_resolver {
  symbols_ordered : gmap Z (gmap Z symbol_info);
  file_lines : gmap Z (list (Z * string));
  requests : gset Z;
  asked : list Z;
  invalidated : nat
}.

Definition new_resolver : symbol_resolver := mk_resolver ∅ ∅ ∅ [] 0.

(** [std::map::operator []] for every symbol: the last one of an offset stays. *)
(** [frontend/src/symbol_resolver.cpp:81-82] symbol_resolver::find_symbol_by_va. The loop. *)
Definition cache_symbols (l : list symbol_info) (m : gmap Z symbol_info) : gmap Z symbol_info :=
  fold_left (λ m s, <[s_rva s := s]> m) l m.

(** [frontend/src/symbol_resolver.cpp:77-86] symbol_resolver::find_symbol_by_va. The metadata have come. *)
Definition metadata_ready (pid : Z) (d : metadata) (r : symbol_resolver) : symbol_resolver :=
  mk_resolver
    (<[pid := cache_symbols (symbols d) (default ∅ (symbols_ordered r !! pid))]> (symbols_ordered r))
    (<[pid := source_files d]> (file_lines r)) (requests r ∖ {[pid]}) (asked r) (S (invalidated r)).

(** A sorted container, by its keys. *)
Definition entries_of (m : gmap Z symbol_info) : list (Z * symbol_info) := map_to_list m.

Section resolver.
(** What [request_presence] has at hand: it answers at once for the modules that are loaded. *)
Context (present : Z → option metadata).

(** [frontend/src/symbol_resolver.cpp:72-88] symbol_resolver::find_symbol_by_va. The request, if there is none yet. *)
Definition request_symbols (pid : Z) (r : symbol_resolver) : symbol_resolver :=
  if decide (pid ∈ requests r) then r
  else
    let r := mk_resolver (symbols_ordered r) (file_lines r) ({[pid]} ∪ requests r) (asked r ++ [pid]) (invalidated r) in
    match present pid with
    | Some d => metadata_ready pid d r
    | None => r
    end.

(** [frontend/src/symbol_resolver.cpp:64-104] symbol_resolver::find_symbol_by_va. [mappings] are the bases with the
    identifiers of their modules. *)
Definition find_symbol_by_va (mappings : list (Z * Z)) (address : Z) (r : symbol_resolver) :
    option (Z * symbol_info) * symbol_resolver :=
  match find_range mappings address with
  | None => (None, r)
  | Some (base, pid) =>
    let r := match symbols_ordered r !! pid with Some _ => r | None => request_symbols pid r end in
    match symbols_ordered r !! pid with
    | None => (None, r)
    | Some cached =>
      let rva := u32 (address - base) in
      match find_range (entries_of cached) rva with
      | Some (_, candidate) =>
        (if u32 (rva - s_rva candidate) <? s_size candidate then Some (pid, candidate) else None, r)
      | None => (None, r)
      end
    end
  end.

(** [frontend/src/symbol_resolver.cpp:36-43] symbol_resolver::symbol_name_by_va *)
Definition symbol_name_by_va (mappings : list (Z * Z)) (address : Z) (r : symbol_resolver) : string * symbol_resolver :=
  match find_symbol_by_va mappings address r with
  | (Some (_, s), r) => (s_name s, r)
  | (None, r) => (""%string, r)
  end.

(** The file of an identifier. *)
Fixpoint find_file (id : Z) (files : list (Z * string)) : option string :=
  match files with [] => None | (i, f) :: files => if i =? id then Some f else find_file id files end.

(** [frontend/src/symbol_resolver.cpp:45-62] symbol_resolver::symbol_fileline_by_va *)
Definition symbol_fileline_by_va (mappings : list (Z * Z)) (address : Z) (r : symbol_resolver) :
    option (string * Z) * symbol_resolver :=
  match find_symbol_by_va mappings address r with
  | (Some (pid, s), r) =>
    (files ← file_lines r !! pid; f ← find_file (s_file s) files; Some (f, s_line s), r)
  | (None, r) => (None, r)
  end.

End resolver.

(** ** What is found *)

(** Of the symbols that begin at an offset, the one that was listed last. *)
Definition last_at (k : Z) (l : list symbol_info) : option symbol_info := last (filter (λ s, s_rva s = k) l).

(** Of the symbols of a module that begin at or before an offset, the one that begins last. *)
Definition nearest (l : list symbol_info) (rva : Z) : option symbol_info := snd <$> find_range (map (λ s, (s_rva s, s)) l) rva.

(** The fields have 32 bits. *)
Definition symbols_fit (l : list symbol_info) : Prop := Forall (λ s, in_u 32 (s_rva s) ∧ in_u 32 (s_size s)) l.

(** No symbol begins within another one. *)
Definition disjoint_symbols (l : list symbol_info) : Prop :=
  ∀ s s', s ∈ l → s' ∈ l → s_rva s ≤ s_rva s' → s = s' ∨ s_rva s + s_size s ≤ s_rva s'.

Definition covers (s : symbol_info) (rva : Z) : Prop := s_rva s ≤ rva < s_rva s + s_size s.

Lemma last_at_elem k l s : last_at k l = Some s → s ∈ l ∧ s_rva s = k.
Proof. intros H. apply last_Some_elem_of, list_elem_of_filter in H. tauto. Qed.

Lemma last_at_some k l s : s ∈ l → s_rva s = k → is_Some (last_at k l).
Proof.
  intros Hs Hk. unfold last_at. apply last_is_Some. intros E.
  assert (s ∈ filter (λ s, s_rva s = k) l) as H by by apply list_elem_of_filter. rewrite E in H. by apply elem_of_nil in H.
Qed.

Lemma last_at_snoc k l a : last_at k (l ++ [a]) = if decide (s_rva a = k) then Some a else last_at k l.
Proof.
  unfold last_at. rewrite filter_app. case_decide as H.
  - rewrite filter_cons_True, filter_nil by done. by rewrite last_snoc.
  - rewrite filter_cons_False, filter_nil by done. by rewrite app_nil_r.
Qed.

Lemma cache_symbols_spec l m k : cache_symbols l m !! k = match last_at k l with Some s => Some s | None => m !! k end.
Proof.
  unfold cache_symbols. induction l as [|a l IH] using rev_ind; [done|]. rewrite fold_left_app, last_at_snoc. cbn [fold_left].
  case_decide as H; [by rewrite H, lookup_insert_eq|by rewrite lookup_insert_ne].
Qed.

(** What the search in the list gives, ties included. *)
Lemma nearest_spec l rva : match nearest l rva with
  | Some s => s_rva s ≤ rva ∧ last_at (s_rva s) l = Some s ∧ ∀ s', s' ∈ l → s_rva s' ≤ rva → s_rva s' ≤ s_rva s
  | None => ∀ s, s ∈ l → rva < s_rva s
  end.
Proof.
  unfold nearest. induction l as [|a l IH] using rev_ind; [by intros s ?%elem_of_nil|].
  rewrite map_app. cbn [map]. rewrite find_range_snoc. cbn [fst].
  assert (match find_range (map (λ s, (s_rva s, s)) l) rva with Some e => e.1 = s_rva e.2 | None => True end) as Hkey.
  { pose proof (find_range_spec (map (λ s, (s_rva s, s)) l) rva) as H. destruct (find_range _ rva) as [e|]; [|done].
    destruct H as (He & _). by apply list_elem_of_fmap in He as (s & -> & _). }
  destruct (find_range (map (λ s, (s_rva s, s)) l) rva) as [[k b]|]; cbn [fmap option_fmap option_map snd fst] in *; [subst k|];
    destruct (Z.leb_spec (s_rva a) rva) as [Ha|Ha]; [destruct IH as (H1 & H2 & H3)..| |].
  - destruct (Z.leb_spec (s_rva b) (s_rva a)); cbn [fmap option_fmap option_map snd].
    + rewrite last_at_snoc, decide_True by done. split_and!; [done|done|]. intros s' [Hs'|Heq%list_elem_of_singleton]%elem_of_app Hr; [|subst; lia]. specialize (H3 s' Hs' Hr). lia.
    + rewrite last_at_snoc, decide_False by lia. split_and!; [done|done|]. intros s' [Hs'|Heq%list_elem_of_singleton]%elem_of_app Hr; [auto|subst; lia].
  - cbn [fmap option_fmap option_map snd]. rewrite last_at_snoc, decide_False by lia. split_and!; [done|done|]. intros s' [Hs'|Heq%list_elem_of_singleton]%elem_of_app Hr; [auto|subst; lia].
  - cbn [fmap option_fmap option_map snd]. rewrite last_at_snoc, decide_True by done. split_and!; [done|done|].
    intros s' [Hs'|Heq%list_elem_of_singleton]%elem_of_app Hr; [|subst; lia]. specialize (IH s' Hs'). lia.
  - cbn [fmap option_fmap option_map]. intros s [Hs|Heq%list_elem_of_singleton]%elem_of_app; [auto|subst; lia].
Qed.

(** The symbols of a module that has been answered for are those of its metadata. *)
Definition cached_ok (d : metadata) (cached : gmap Z symbol_info) : Prop := ∀ k, cached !! k = last_at k (symbols d).

Lemma find_cached d cached rva : cached_ok d cached → snd <$> find_range (entries_of cached) rva = nearest (symbols d) rva.
Proof.
  intros Hc. assert (∀ k s, (k, s) ∈ entries_of cached ↔ last_at k (symbols d) = Some s) as He.
  { intros k s. unfold entries_of. rewrite elem_of_map_to_list. by rewrite Hc. }
  pose proof (find_range_spec (entries_of cached) rva) as Hs. pose proof (nearest_spec (symbols d) rva) as Hn.
  destruct (find_range (entries_of cached) rva) as [[k c]|]; cbn [fmap option_fmap option_map snd].
  - destruct Hs as (Hkc & Hk & Hmax). cbn [fst] in Hk. apply He in Hkc. destruct (last_at_elem _ _ _ Hkc) as [Hcin Hck].
    destruct (nearest (symbols d) rva) as [s|]; [|specialize (Hn c Hcin); lia]. destruct Hn as (Hr & Hl & Hm).
    specialize (Hm c Hcin ltac:(lia)). specialize (Hmax (s_rva s, s)). rewrite He in Hmax. specialize (Hmax Hl Hr). cbn [fst] in Hmax.
    assert (k = s_rva s) as -> by lia. congruence.
  - destruct (nearest (symbols d) rva) as [s|]; [|done]. destruct Hn as (Hr & Hl & _). apply He in Hl. specialize (Hs _ Hl). cbn [fst] in Hs. lia.
Qed.
(** ** Any run of queries and answers *)

Section runs.
(** What the metadata of the modules are, whoever answers, and whenever. *)
Context (answers : Z → metadata) (Hfit : ∀ pid, symbols_fit (symbols (answers pid))).
Definition honest (present : Z → option metadata) : Prop := ∀ pid d, present pid = Some d → d = answers pid.

Record resolver_ok (r : symbol_resolver) : Prop := {
  ro_cached pid c : symbols_ordered r !! pid = Some c → cached_ok (answers pid) c;
  ro_once : NoDup (asked r);
  ro_asked pid : pid ∈ asked r ↔ pid ∈ requests r ∨ is_Some (symbols_ordered r !! pid);
  ro_waiting pid : pid ∈ requests r → symbols_ordered r !! pid = None
}.

Lemma metadata_ready_ok pid r : resolver_ok r → pid ∈ requests r → resolver_ok (metadata_ready pid (answers pid) r).
Proof using Type.
  clear Hfit. intros [Hc Ho Ha Hw] Hp. split; simpl.
  - intros p c. destruct (decide (p = pid)) as [->|Hne].
    + rewrite lookup_insert_eq, (Hw pid Hp). simpl. intros [= <-] k. rewrite cache_symbols_spec, lookup_empty. by destruct (last_at _ _).
    + rewrite lookup_insert_ne by done. apply Hc.
  - done.
  - intros p. rewrite Ha. destruct (decide (p = pid)) as [->|Hne].
    + rewrite lookup_insert_eq. split; [intros _; right; eauto|intros _; by left].
    + rewrite lookup_insert_ne by done. set_solver.
  - intros p Hp'. rewrite lookup_insert_ne by set_solver. apply Hw. set_solver.
Qed.

Lemma request_symbols_ok present pid r : honest present → resolver_ok r → symbols_ordered r !! pid = None →
  resolver_ok (request_symbols present pid r).
Proof using Type.
  clear Hfit. intros Hp Hr Hn. unfold request_symbols. case_decide as Hin; [done|].
  assert (resolver_ok (mk_resolver (symbols_ordered r) (file_lines r) ({[pid]} ∪ requests r) (asked r ++ [pid])
    (invalidated r))) as Hr'.
  { destruct Hr as [Hc Ho Ha Hw]. split; simpl; [done| | |].
    - apply NoDup_app. split_and!; [done| |apply NoDup_singleton]. intros p Hp' ->%list_elem_of_singleton.
      apply Ha in Hp' as [?|[c Hcp]]; [done|congruence].
    - intros p. rewrite elem_of_app, list_elem_of_singleton, Ha. set_solver.
    - intros p [->%elem_of_singleton|Hp']%elem_of_union; [done|auto]. }
  destruct (present pid) as [d|] eqn:E; [|done]. rewrite (Hp pid d E).
  apply metadata_ready_ok; [done|]. simpl. set_solver.
Qed.

(** The symbol of an address, from the tables alone. *)
Definition symbol_at (mappings : list (Z * Z)) (address : Z) : option (Z * symbol_info) :=
  '(base, pid) ← find_range mappings address;
  s ← nearest (symbols (answers pid)) (address - base);
  if address - base - s_rva s <? s_size s then Some (pid, s) else None.

Definition near (mappings : list (Z * Z)) (address : Z) : Prop :=
  match find_range mappings address with Some (base, _) => address - base < 2 ^ 32 | None => True end.

Lemma find_symbol_ok present mappings address r : honest present → resolver_ok r → near mappings address →
  resolver_ok (find_symbol_by_va present mappings address r).2 ∧
  match find_range mappings address with
  | Some (_, pid) => if decide (pid ∈ requests (find_symbol_by_va present mappings address r).2)
    then (find_symbol_by_va present mappings address r).1 = None
    else (find_symbol_by_va present mappings address r).1 = symbol_at mappings address
  | None => (find_symbol_by_va present mappings address r).1 = None
  end.
Proof using Hfit.
  intros Hp Hr Hnear. unfold find_symbol_by_va, symbol_at, near in *.
  pose proof (find_range_spec mappings address) as Hrange.
  destruct (find_range mappings address) as [[base pid]|]; [|done].
  destruct Hrange as (_ & Hbase & _). simpl in Hbase.
  set (r' := match symbols_ordered r !! pid with Some _ => r | None => request_symbols present pid r end).
  assert (resolver_ok r') as Hr'.
  { unfold r'. destruct (symbols_ordered r !! pid) eqn:E; [done|by apply request_symbols_ok]. }
  destruct (symbols_ordered r' !! pid) as [cached|] eqn:E.
  - assert (u32 (address - base) = address - base) as -> by (apply (uw_small 32); unfold in_u; lia).
    pose proof (find_cached (answers pid) cached (address - base) (ro_cached _ Hr' pid cached E)) as Hf.
    pose proof (nearest_spec (symbols (answers pid)) (address - base)) as Hn. cbn [mbind option_bind].
    assert (pid ∉ requests r') as Hout by (intros Hin; rewrite (ro_waiting _ Hr' pid Hin) in E; done).
    destruct (find_range (entries_of cached) (address - base)) as [[k c]|]; cbn [fmap option_fmap option_map snd] in Hf; rewrite <- Hf in *;
      cbn [mbind option_bind fst snd]; (split; [done|]); rewrite decide_False by done; [|done].
    destruct Hn as (Hc & Hl & _). apply last_at_elem in Hl as [Hl _]. pose proof (Hfit pid) as Hft. unfold symbols_fit in Hft.
    rewrite Forall_forall in Hft. destruct (Hft c Hl) as [[? ?] _]. by rewrite (uw_small 32) by (unfold in_u; lia).
  - split; [done|]. cbn [fst snd]. rewrite decide_True; [done|].
    assert (pid ∈ asked r') as Ha.
    { unfold r' in *. destruct (symbols_ordered r !! pid) eqn:E'; [congruence|].
      unfold request_symbols in *. case_decide as Hin; [by apply (ro_asked _ Hr); left|].
      destruct (present pid); [|simpl; set_solver].
      simpl in E. by rewrite lookup_insert_eq in E. }
    apply (ro_asked _ Hr') in Ha as [?|[c Hc]]; [done|congruence].
Qed.

(** An address is asked for, with what is mapped and what is at hand then; the metadata of a module come. *)
Inductive resolver_op :=
  | ask_symbol (present : Z → option metadata) (mappings : list (Z * Z)) (address : Z)
  | answer_metadata (pid : Z).

Definition resolver_run (r : symbol_resolver) (op : resolver_op) : symbol_resolver :=
  match op with
  | ask_symbol present mappings a => (find_symbol_by_va present mappings a r).2
  | answer_metadata pid => if decide (pid ∈ requests r) then metadata_ready pid (answers pid) r else r
  end.

Definition op_ok (op : resolver_op) : Prop :=
  match op with ask_symbol present mappings a => honest present ∧ near mappings a | _ => True end.

Lemma resolver_run_ok ops : ∀ r, Forall op_ok ops → resolver_ok r → resolver_ok (foldl resolver_run r ops).
Proof using Hfit.
  induction ops as [|op ops IH]; intros r Hops Hr; [done|]. apply Forall_cons in Hops as [Hop Hops]. simpl. apply IH; [done|].
  destruct op as [present mappings a|pid]; simpl; [by apply find_symbol_ok; destruct Hop|]. case_decide; [by apply metadata_ready_ok|done].
Qed.

Lemma new_resolver_ok : resolver_ok new_resolver.
Proof using Type.
  clear Hfit. split; simpl; [intros ??; by rewrite lookup_empty|constructor| |set_solver].
  intros p. rewrite elem_of_nil, lookup_empty. split; [done|]. intros [?|[? ?]]; [set_solver|done].
Qed.

(** C30: Whatever has been asked before, whatever was mapped then, and whenever the answers come, as long as the metadata of
    a module are always the same: an address within 4 GiB of the base of its mapping, the last one that begins at or
    before it, gets the symbol of the module that begins last at or before it, if this one reaches to it, and none
    otherwise, or while the metadata of the module are on their way. So what it gets covers it, and where no symbol
    begins within another it gets the symbol that covers it, if there is one. No module is ever asked for twice. *)
Theorem resolver_exact present mappings ops address :
  Forall op_ok ops → honest present → near mappings address →
  let r := foldl resolver_run new_resolver ops in
  let '(found, r') := find_symbol_by_va present mappings address r in
  NoDup (asked r') ∧
  match find_range mappings address with
  | None => found = None
  | Some (base, pid) =>
    if decide (pid ∈ requests r') then found = None
    else
      found = symbol_at mappings address ∧
      (∀ pid' s, found = Some (pid', s) → pid' = pid ∧ s ∈ symbols (answers pid) ∧ covers s (address - base)) ∧
      (disjoint_symbols (symbols (answers pid)) → ∀ s, s ∈ symbols (answers pid) → covers s (address - base) → found = Some (pid, s))
  end.
Proof using Hfit.
  intros Hops Hp Hnear r. pose proof (resolver_run_ok ops new_resolver Hops new_resolver_ok) as Hr. fold r in Hr.
  pose proof (find_symbol_ok present mappings address r Hp Hr Hnear) as [Hr' Hf].
  destruct (find_symbol_by_va present mappings address r) as [found r']. cbn [fst snd] in *. split; [apply Hr'|].
  unfold symbol_at in *. destruct (find_range mappings address) as [[base pid]|]; [|done]. cbn [mbind option_bind] in *. case_decide; [done|].
  split; [done|]. pose proof (nearest_spec (symbols (answers pid)) (address - base)) as Hn. subst found. unfold covers.
  destruct (nearest (symbols (answers pid)) (address - base)) as [c|]; cbn [mbind option_bind].
  - destruct Hn as (Hc & Hl & Hmax). pose proof (last_at_elem _ _ _ Hl) as [Hcin _]. split.
    + intros pid' s. destruct (Z.ltb_spec (address - base - s_rva c) (s_size c)); [|done]. intros [= <- <-]. split_and!; [done|done|lia..].
    + intros Hd s Hs Hcov. specialize (Hmax s Hs ltac:(lia)). destruct (Hd s c Hs Hcin Hmax) as [->|]; [|lia].
      destruct (Z.ltb_spec (address - base - s_rva c) (s_size c)); [done|lia].
  - split; [done|]. intros _ s Hs Hcov. specialize (Hn s Hs). lia.
Qed.
End runs.

(** ** Two modules *)

Definition demo_answers (pid : Z) : metadata :=
  if pid =? 1 then mk_metadata [mk_symbol "main" 0x10 0x20 7 3; mk_symbol "f" 0x40 8 7 21] [(7, "main.cpp")]%string
  else mk_metadata [mk_symbol "g" 0 4 1 1]%string [].

Definition demo_mappings : list (Z * Z) := [(0x20000, 2); (0x10000, 1)].

(** An address far above everything that is mapped gets the symbol of the last module that its low 32
    bits fall into. *)
Lemma far_address_aliases :
  (find_symbol_by_va (λ pid, Some (demo_answers pid)) [(0x10000, 1)] (0x10000 + 2 ^ 32 + 0x12) new_resolver).1 =
    Some (1, mk_symbol "main" 0x10 0x20 7 3).
Proof. vm_compute. reflexivity. Qed.

(** A symbol within another one hides the rest of it. *)
Lemma nested_symbol_hides :
  let d := mk_metadata [mk_symbol "outer" 0 0x100 1 1; mk_symbol "inner" 0x10 0x10 1 5]%string [] in
  (find_symbol_by_va (λ _, Some d) [(0x10000, 1)] 0x10030 new_resolver).1 = None ∧ covers (mk_symbol "outer" 0 0x100 1 1) 0x30.
Proof. split; [by vm_compute|]. unfold covers. simpl. lia. Qed.

Lemma demo_answers_fit pid : symbols_fit (symbols (demo_answers pid)).
Proof. unfold demo_answers. destruct (pid =? 1); repeat constructor; simpl; lia. Qed.

Lemma resolver_exact_witness :
  let r := foldl (resolver_run demo_answers) new_resolver
    [ask_symbol (λ _, None) [] 0x10012; ask_symbol (λ _, None) demo_mappings 0x10013; answer_metadata 1] in
  (find_symbol_by_va (λ _, None) demo_mappings 0x10012 r).1 = Some (1, mk_symbol "main" 0x10 0x20 7 3) ∧
  NoDup (asked (find_symbol_by_va (λ _, None) demo_mappings 0x10012 r).2).
Proof.
  intros r. split; [by vm_compute|].
  assert (honest demo_answers (λ _, None)) as Hh by done.
  pose proof (resolver_exact demo_answers demo_answers_fit (λ _, None) demo_mappings
    [ask_symbol (λ _, None) [] 0x10012; ask_symbol (λ _, None) demo_mappings 0x10013; answer_metadata 1] 0x10012
    ltac:(repeat constructor; done) Hh ltac:(done)) as H. fold r in H. cbv zeta in H.
  destruct (find_symbol_by_va (λ _, None) demo_mappings 0x10012 r) as [found r']. apply H.
Defined.
