(* ===== verification/Elf.v ===== *)
(** Symbols of images (common/src/elf/sym-elf.cpp, common/src/image_info_unix.cpp).

    An image is the bytes of a file.  Its header points to a table of sections, these to tables of symbols and to
    texts; both widths of the format are read by one template, which is a layout here.  What is read outside
    the file has no defined behaviour: the code does not look at the size it is given. *)

From S2P Require Import Prelude Logger Symbols.
Local Open Scope Z_scope.

(** * Structures in memory *)

(** The size of the fields of a structure, none of which needs padding in this format. *)
Abbreviation fields := (list nat).

Definition sum_of (l : fields) : nat := fold_right Nat.add 0%nat l.
Definition sizeof (ws : fields) : Z := Z.of_nat (sum_of ws).

(** [n] bytes at an offset, as a little endian number. *)
Definition field (img : list Z) (off : Z) (n : nat) : result Z :=
  if (0 <=? off) && (off + Z.of_nat n <=? len img) then Ret (le_value (take n (drop (Z.to_nat off) img))) else UB.

(** The field [i] of a structure. *)
Definition member (img : list Z) (off : Z) (ws : fields) (i : nat) : result Z :=
  field img (off + sizeof (take i ws)) (default 0%nat (ws !! i)).

(** A C string is defined when it ends within the file. *)
Definition c_string (img : list Z) (off : Z) : result (list Z) :=
  if (0 <=? off) && existsb (Z.eqb 0) (drop (Z.to_nat off) img) then Ret (c_str (drop (Z.to_nat off) img)) else UB.

(** ** What is in an image *)

Definition has (img : list Z) (off : Z) (bs : list Z) : Prop :=
  0 ≤ off ∧ take (length bs) (drop (Z.to_nat off) img) = bs ∧ off + len bs ≤ len img.

Lemma has_app img off a b : has img off (a ++ b) ↔ has img off a ∧ has img (off + len a) b.
Proof.
  unfold has. rewrite length_app, <- take_take_drop, drop_drop. split.
  - intros (H0 & H1 & H2). apply app_inj_1 in H1 as [H1 H3]; [|rewrite length_take, length_drop; lia].
    rewrite Z2Nat.inj_add, Nat2Z.id by lia. split_and!; done || lia.
  - intros ((H0 & H1 & H2) & H3 & H4 & H5). rewrite Z2Nat.inj_add, Nat2Z.id in H4 by lia.
    split_and!; [done|by rewrite H1, H4|lia].
Qed.

Lemma field_has img off n v : has img off (le_bytes v n) → 0 ≤ v < 256 ^ Z.of_nat n → field img off n = Ret v.
Proof.
  intros (H0 & H1 & H2) Hv. rewrite le_bytes_length in H1, H2. unfold field.
  rewrite (proj2 (Z.leb_le _ _) H0), (proj2 (Z.leb_le _ _) H2). simpl. by rewrite H1, le_value_bytes.
Qed.

(** The bytes of a structure. *)
Fixpoint encode (ws : fields) (vs : list Z) : list Z :=
  match ws, vs with w :: ws, v :: vs => le_bytes v w ++ encode ws vs | _, _ => [] end.

Definition fits (ws : fields) (vs : list Z) : Prop := Forall2 (λ w v, 0 ≤ v < 256 ^ Z.of_nat w) ws vs.

Lemma encode_length ws vs : fits ws vs → len (encode ws vs) = sizeof ws.
Proof.
  unfold sizeof. induction 1 as [|w v ws vs Hv _ IH]; [done|]. simpl. rewrite length_app, le_bytes_length. lia.
Qed.

Lemma member_has img ws vs : fits ws vs → ∀ off i v, has img off (encode ws vs) → vs !! i = Some v → member img off ws i = Ret v.
Proof.
  unfold member, sizeof. induction 1 as [|w x ws vs Hv _ IH]; intros off i v Hh Hi; [done|].
  cbn [encode] in Hh. apply has_app in Hh as [H1 H2]. rewrite le_bytes_length in H2. destruct i as [|i].
  - injection Hi as <-. simpl. rewrite Z.add_0_r. by apply field_has.
  - simpl. rewrite Nat2Z.inj_add, Z.add_assoc. by apply (IH _ i v).
Qed.

(** An array of structures. *)
Lemma member_array img ws off i : ∀ (k : nat) vss vs v, Forall (fits ws) vss →
  has img off (concat (map (encode ws) vss)) → vss !! k = Some vs → vs !! i = Some v →
  member img (off + Z.of_nat k * sizeof ws) ws i = Ret v.
Proof.
  intros k vss. revert off k. induction vss as [|vs0 vss IH]; intros off k vs v Hf Hh Hk Hi; [done|].
  apply Forall_cons in Hf as [Hf0 Hf]. cbn [map concat] in Hh. apply has_app in Hh as [H1 H2].
  rewrite encode_length in H2 by done. destruct k as [|k].
  - injection Hk as ->. rewrite Z.add_0_r. by eapply member_has.
  - replace (off + Z.of_nat (S k) * sizeof ws) with (off + sizeof ws + Z.of_nat k * sizeof ws) by lia.
    by apply (IH _ k vs v).
Qed.

Lemma c_str_zero t rest : Forall (λ c, c ≠ 0) t → c_str (t ++ 0 :: rest) = t ∧ existsb (Z.eqb 0) (t ++ 0 :: rest) = true.
Proof.
  induction 1 as [|c t Hc _ [IH1 IH2]]; [done|]. cbn [c_str app existsb].
  rewrite (proj2 (Z.eqb_neq c 0) Hc), IH1, IH2, orb_true_r. done.
Qed.

Lemma c_string_has img off t : Forall (λ c, c ≠ 0) t → has img off (t ++ [0]) → c_string img off = Ret t.
Proof.
  intros Ht (H0 & H1 & H2). rewrite length_app in H1. simpl in H1. unfold c_string.
  rewrite (proj2 (Z.leb_le _ _) H0). simpl.
  rewrite <- (take_drop (length t + 1) (drop (Z.to_nat off) img)), H1, <- app_assoc. simpl.
  by destruct (c_str_zero t (drop (length t + 1) (drop (Z.to_nat off) img)) Ht) as [-> ->].
Qed.

(** * Layouts *)

(** The structures of a width of the format. The symbols have their fields in different orders: where the name, the
    value, the size, the kind and the section are. *)
Record layout := mk_layout {
  ehdr : fields;
  shdr : fields;
  sym : fields;
  st_name : nat; st_value : nat; st_size : nat; st_info : nat; st_shndx : nat
}.

(** [common/src/macos-compat/elf.h:74-90] Elf32_Ehdr. The bytes of [e_ident] come one by one. *)
Definition elf32_ehdr : fields := replicate 16 1%nat ++ [2; 2; 4; 4; 4; 4; 4; 2; 2; 2; 2; 2; 2]%nat.
(** [common/src/macos-compat/elf.h:92-108] Elf64_Ehdr *)
Definition elf64_ehdr : fields := replicate 16 1%nat ++ [2; 2; 4; 8; 8; 8; 4; 2; 2; 2; 2; 2; 2]%nat.
(** [common/src/macos-compat/elf.h:275-287] Elf32_Shdr *)
Definition elf32_shdr : fields := [4; 4; 4; 4; 4; 4; 4; 4; 4; 4]%nat.
(** [common/src/macos-compat/elf.h:289-301] Elf64_Shdr *)
Definition elf64_shdr : fields := [4; 4; 8; 8; 8; 8; 4; 4; 8; 8]%nat.
(** [common/src/macos-compat/elf.h:384-392] Elf32_Sym *)
Definition elf32_sym : fields := [4; 4; 4; 1; 1; 2]%nat.
(** [common/src/macos-compat/elf.h:394-402] Elf64_Sym *)
Definition elf64_sym : fields := [4; 1; 1; 2; 8; 8]%nat.

Definition elf32 : layout := mk_layout elf32_ehdr elf32_shdr elf32_sym 0 1 2 3 5.
Definition elf64 : layout := mk_layout elf64_ehdr elf64_shdr elf64_sym 0 4 5 1 3.

Lemma sizes : map sizeof [ehdr elf32; shdr elf32; sym elf32; ehdr elf64; shdr elf64; sym elf64] = [52; 40; 16; 64; 64; 24].
Proof. done. Qed.

(** * Reading *)

(** [common/src/elf/sym-elf.cpp:14-23] get_bitness *)
Definition get_bitness (img : list Z) : result (option layout) :=
  c ← field img 4 1;
  Ret (if c =? 1 then Some elf32 else if c =? 2 then Some elf64 else None).

(** [common/src/elf/sym-elf.h:8-18] section. The name is where it is in the image. *)
Record section := mk_section {
  index : Z; file_offset : Z; virtual_address : Z; name : Z; type : Z; size : Z; entry_size : Z; address_align : Z
}.
Definition no_section : section := mk_section 0 0 0 0 0 0 0 0.

(** [common/src/elf/sym-elf.h:20-25] symbol *)
Record symbol := mk_elf_symbol { y_name : Z; y_address : Z; y_size : Z }.

Section reading.
Context (L : layout) (img : list Z).

(** [common/src/elf/sym-elf.cpp:35-44] read_sections. A section, from the entry of its index. *)
Definition read_section (shdrs strtab : Z) (i : nat) : result section :=
  let at_ := shdrs + Z.of_nat i * sizeof (shdr L) in
  sh_name ← member img at_ (shdr L) 0;
  sh_type ← member img at_ (shdr L) 1;
  sh_addr ← member img at_ (shdr L) 3;
  sh_offset ← member img at_ (shdr L) 4;
  sh_size ← member img at_ (shdr L) 5;
  sh_entsize ← member img at_ (shdr L) 9;
  sh_addralign ← member img at_ (shdr L) 8;
  Ret (mk_section (Z.of_nat i) (s64 sh_offset) (s64 sh_addr) (strtab + sh_name) sh_type sh_size sh_entsize sh_addralign).

(** [common/src/elf/sym-elf.cpp:25-47] read_sections *)
Definition read_sections_of {S} (callback : S → section → result S) (s : S) : result S :=
  e_shoff ← member img 0 (ehdr L) 21;
  e_shstrndx ← member img 0 (ehdr L) 28;
  strtab ← member img (e_shoff + e_shstrndx * sizeof (shdr L)) (shdr L) 4;
  e_shnum ← member img 0 (ehdr L) 27;
  fold_m (λ s i, x ← read_section e_shoff strtab i; callback s x) s (seq 0 (Z.to_nat e_shnum)).

(** [common/src/elf/sym-elf.cpp:59-70] read_symbols. The body of the loop: functions of the code that have a size. *)
Definition read_symbol {S} (code : Z) (table names : Z) (callback : S → symbol → result S) (s : S) (i : nat) : result S :=
  let at_ := table + Z.of_nat i * sizeof (sym L) in
  info ← member img at_ (sym L) (st_info L);
  if negb (Z.land info 0xF =? 2) then Ret s
  else
    shndx ← member img at_ (sym L) (st_shndx L);
    if negb (shndx =? code) then Ret s
    else
      n ← member img at_ (sym L) (st_size L);
      if n =? 0 then Ret s
      else
        st_name ← member img at_ (sym L) (st_name L);
        value ← member img at_ (sym L) (st_value L);
        callback s (mk_elf_symbol (names + st_name) (s64 value) n).

(** [common/src/elf/sym-elf.cpp:50-72] read_symbols *)
Definition read_table {S} (code : Z) (symbols : section) (names : Z) (callback : S → symbol → result S) (s : S) : result S :=
  fold_m (read_symbol code (file_offset symbols) names callback) s
    (seq 0 (Z.to_nat (size symbols / sizeof (sym L)))).
End reading.

(** [common/src/elf/sym-elf.cpp:75-90] read_sections *)
Definition read_sections {S} (img : list Z) (callback : S → section → result S) (s : S) : result S :=
  b ← get_bitness img;
  match b with Some L => read_sections_of L img callback s | None => Throw runtime_error end.

(** [common/src/elf/sym-elf.cpp:94-96] read_symbols. What the sections say. *)
Record scan := mk_scan {
  code_section_index : Z;
  symtab : section;
  dynsym : section;
  strtab : option Z;
  dynstr : option Z
}.
Definition no_scan : scan := mk_scan 0 no_section no_section None None.

(** [common/src/elf/sym-elf.cpp:98-118] read_symbols. What becomes of a section. *)
Definition scan_section (img : list Z) (x : scan) (s : section) : result scan :=
  n ← c_string img (name s);
  let code := if decide (n = of_string ".text") then index s else code_section_index x in
  Ret (if type s =? 3 then
      if decide (n = of_string ".strtab") then mk_scan code (symtab x) (dynsym x) (Some (file_offset s)) (dynstr x)
      else if decide (n = of_string ".dynstr") then mk_scan code (symtab x) (dynsym x) (strtab x) (Some (file_offset s))
      else mk_scan code (symtab x) (dynsym x) (strtab x) (dynstr x)
    else if type s =? 2 then mk_scan code s (dynsym x) (strtab x) (dynstr x)
    else if type s =? 11 then mk_scan code (symtab x) s (strtab x) (dynstr x)
    else mk_scan code (symtab x) (dynsym x) (strtab x) (dynstr x)).

(** [common/src/elf/sym-elf.cpp:92-139] read_symbols *)
Definition read_symbols {S} (img : list Z) (callback : S → symbol → result S) (s : S) : result S :=
  x ← read_sections img (scan_section img) no_scan;
  b ← get_bitness img;
  match b with
  | None => Throw runtime_error
  | Some L =>
    s ← match strtab x with
        | Some names => read_table L img (code_section_index x) (symtab x) names callback s
        | None => Ret s
        end;
    match dynstr x with
    | Some names => read_table L img (code_section_index x) (dynsym x) names callback s
    | None => Ret s
    end
  end.

Section enumeration.
(** The name of a function in its source; there is none for what was not mangled. *)
Context (demangle : list Z → option (list Z)).

(** [common/src/image_info_unix.cpp:63-74] elf_image_info::enumerate_functions. The callback: a name, an offset and a size. *)
Definition on_symbol (img : list Z) (l : list (list Z * Z * Z)) (s : symbol) : result (list (list Z * Z * Z)) :=
  n ← c_string img (y_name s);
  Ret (l ++ [(default n (demangle n), u32 (y_address s), u32 (y_size s))]).

(** [common/src/image_info_unix.cpp:57-76] elf_image_info::enumerate_functions *)
Definition enumerate_functions (img : list Z) : result (list (list Z * Z * Z)) := read_symbols img (on_symbol img) [].
End enumeration.

(** * What an image says *)

(** A symbol: its name and the fields of its entry; a section: its name, the fields, and the symbols in it. *)
Record symbol_entry := mk_symbol_entry { sy_name : list Z; sy_values : list Z }.
Record section_entry := mk_section_entry { se_name : list Z; se_values : list Z; se_symbols : list symbol_entry }.

Definition se_field (e : section_entry) (i : nat) : Z := default 0 (se_values e !! i).
Definition sy_field (y : symbol_entry) (i : nat) : Z := default 0 (sy_values y !! i).

Definition text_ok (t : list Z) : Prop := Forall (λ c, c ≠ 0) t.

Section image.
Context (L : layout) (demangle : list Z → option (list Z)).

(** The last section that is so and so, with its index. *)
Definition last_such (P : section_entry → bool) (l : list section_entry) : option (nat * section_entry) :=
  last (filter (λ x, P x.2 = true) (imap pair l)).

Definition is_named (n : string) (e : section_entry) : bool := bool_decide (se_name e = of_string n).
Definition has_type (t : Z) (e : section_entry) : bool := se_field e 1 =? t.

Definition code_index (l : list section_entry) : Z :=
  match last_such (is_named ".text") l with Some (i, _) => Z.of_nat i | None => 0 end.
Definition names_of (n : string) (l : list section_entry) : option Z :=
  (λ x, s64 (se_field x.2 4)) <$> last_such (λ e, has_type 3 e && is_named n e) l.
Definition table_of (t : Z) (l : list section_entry) : list symbol_entry :=
  match last_such (has_type t) l with Some (_, e) => se_symbols e | None => [] end.

(** The functions of the code. *)
Definition is_function (code : Z) (y : symbol_entry) : bool :=
  (Z.land (sy_field y (st_info L)) 0xF =? 2) && (sy_field y (st_shndx L) =? code) && negb (sy_field y (st_size L) =? 0).
Definition function_of (y : symbol_entry) : list Z * Z * Z :=
  (default (sy_name y) (demangle (sy_name y)), u32 (sy_field y (st_value L)), u32 (sy_field y (st_size L))).
Definition functions_of (code : Z) (l : list symbol_entry) : list (list Z * Z * Z) :=
  map function_of (List.filter (is_function code) l).

(** All of them: those of both tables, if there are names for them. *)
Definition functions (l : list section_entry) : list (list Z * Z * Z) :=
  (match names_of ".strtab" l with Some _ => functions_of (code_index l) (table_of 2 l) | None => [] end) ++
  (match names_of ".dynstr" l with Some _ => functions_of (code_index l) (table_of 11 l) | None => [] end).

(** A table of symbols is in the image, and so are the names of its functions, if there are names. *)
Definition has_table (img : list Z) (code : Z) (names : option Z) (e : section_entry) : Prop :=
  Forall (λ y, fits (sym L) (sy_values y)) (se_symbols e) ∧ se_field e 4 < 2 ^ 63 ∧
  has img (se_field e 4) (concat (map (λ y, encode (sym L) (sy_values y)) (se_symbols e))) ∧
  se_field e 5 / sizeof (sym L) = len (se_symbols e) ∧
  ∀ p y, names = Some p → y ∈ se_symbols e → is_function code y = true →
    text_ok (sy_name y) ∧ has img (p + sy_field y (st_name L)) (sy_name y ++ [0]).

(** The image holds the header [h] and the sections [l]. *)
Record describes (img : list Z) (h : list Z) (l : list section_entry) : Prop := {
  de_header : fits (ehdr L) h ∧ has img 0 (encode (ehdr L) h);
  de_class : get_bitness img = Ret (Some L);
  de_count : h !! 27%nat = Some (len l);
  de_sections : ∃ off, h !! 21%nat = Some off ∧ Forall (λ e, fits (shdr L) (se_values e)) l ∧
    has img off (concat (map (λ e, encode (shdr L) (se_values e)) l));
  de_names : ∃ k str, h !! 28%nat = Some (Z.of_nat k) ∧ l !! k = Some str ∧
    Forall (λ e, text_ok (se_name e) ∧ has img (se_field str 4 + se_field e 0) (se_name e ++ [0])) l;
  de_symtab i e : last_such (has_type 2) l = Some (i, e) → has_table img (code_index l) (names_of ".strtab" l) e;
  de_dynsym i e : last_such (has_type 11) l = Some (i, e) → has_table img (code_index l) (names_of ".dynstr" l) e
}.

Lemma last_such_snoc P l e : last_such P (l ++ [e]) = if P e then Some (length l, e) else last_such P l.
Proof using Type.
  unfold last_such. rewrite imap_app, filter_app. simpl. rewrite Nat.add_0_r. destruct (P e) eqn:E.
  - rewrite filter_cons_True by done. by rewrite filter_nil, last_snoc.
  - rewrite filter_cons_False by (simpl; congruence). by rewrite filter_nil, app_nil_r.
Qed.

(** *** The sections are read *)

Definition section_of (str : Z) (i : nat) (e : section_entry) : section :=
  mk_section (Z.of_nat i) (s64 (se_field e 4)) (s64 (se_field e 3)) (str + se_field e 0) (se_field e 1) (se_field e 5)
    (se_field e 9) (se_field e 8).

Definition scan_of (str : Z) (l : list section_entry) : scan :=
  let at_ t := match last_such (has_type t) l with Some (i, e) => section_of str i e | None => no_section end in
  mk_scan (code_index l) (at_ 2) (at_ 11) (names_of ".strtab" l) (names_of ".dynstr" l).

Lemma scan_of_snoc str l e :
  scan_of str (l ++ [e]) =
    let x := scan_of str l in
    let s := section_of str (length l) e in
    let code := if decide (se_name e = of_string ".text") then index s else code_section_index x in
    if type s =? 3 then
      if decide (se_name e = of_string ".strtab") then mk_scan code (symtab x) (dynsym x) (Some (file_offset s)) (dynstr x)
      else if decide (se_name e = of_string ".dynstr") then mk_scan code (symtab x) (dynsym x) (strtab x) (Some (file_offset s))
      else mk_scan code (symtab x) (dynsym x) (strtab x) (dynstr x)
    else if type s =? 2 then mk_scan code s (dynsym x) (strtab x) (dynstr x)
    else if type s =? 11 then mk_scan code (symtab x) s (strtab x) (dynstr x)
    else mk_scan code (symtab x) (dynsym x) (strtab x) (dynstr x).
Proof using Type.
  unfold scan_of, code_index, names_of. rewrite !last_such_snoc. unfold has_type, is_named.
  cbn [index type file_offset section_of code_section_index symtab dynsym strtab dynstr].
  destruct (Z.eqb_spec (se_field e 1) 3) as [->|H3]; cbn [andb].
  - change (3 =? 2) with false. change (3 =? 11) with false.
    destruct (decide (se_name e = of_string ".strtab")) as [E|E].
    + rewrite (bool_decide_eq_true_2 _ E), E. done.
    + rewrite (bool_decide_eq_false_2 _ E). destruct (decide (se_name e = of_string ".dynstr")) as [E'|E'].
      * rewrite E'. done.
      * rewrite (bool_decide_eq_false_2 _ E'). destruct (decide (se_name e = of_string ".text")) as [E''|E''].
        { by rewrite (bool_decide_eq_true_2 _ E''). }
        { by rewrite (bool_decide_eq_false_2 _ E''). }
  - assert (∀ A (a b : A), (if bool_decide (se_name e = of_string ".text") then a else b) =
      if decide (se_name e = of_string ".text") then a else b) as Ht.
    { intros A a b. destruct (decide _) as [E|E]; [by rewrite bool_decide_eq_true_2|by rewrite bool_decide_eq_false_2]. }
    rewrite Ht. destruct (Z.eqb_spec (se_field e 1) 2) as [->|H2], (Z.eqb_spec (se_field e 1) 11) as [H11|H11]; try lia;
      by destruct (decide _).
Qed.

Lemma array_member img ws off i {A} (values : A → list Z) (l : list A) (k : nat) a :
  Forall (λ a, fits ws (values a)) l → has img off (concat (map (λ a, encode ws (values a)) l)) → l !! k = Some a →
  (i < length ws)%nat → member img (off + Z.of_nat k * sizeof ws) ws i = Ret (default 0 (values a !! i)).
Proof using Type.
  intros Hf Hh Hk Hi. assert (is_Some (values a !! i)) as [v Hv].
  { apply lookup_lt_is_Some. rewrite Forall_forall in Hf. apply list_elem_of_lookup_2 in Hk.
    by rewrite <- (Forall2_length _ _ _ (Hf a Hk)). }
  apply (member_array img ws off i k (map values l) (values a)); rewrite ?Hv; [by apply Forall_map|by rewrite map_map| |done].
  by rewrite list_lookup_fmap, Hk.
Qed.

Lemma read_section_ok img str off l i e : Forall (λ e, fits (shdr L) (se_values e)) l → length (shdr L) = 10%nat →
  has img off (concat (map (λ e, encode (shdr L) (se_values e)) l)) → l !! i = Some e →
  read_section L img off str i = Ret (section_of str i e).
Proof using Type.
  intros Hf Hl Hh Hi. unfold read_section.
  assert (∀ j, (j < 10)%nat → member img (off + Z.of_nat i * sizeof (shdr L)) (shdr L) j = Ret (se_field e j)) as Hm.
  { intros j Hj. apply (array_member img (shdr L) off j se_values l i e); [done..|lia]. }
  rewrite !Hm by lia. done.
Qed.

Lemma scan_sections_ok img str off l : length (shdr L) = 10%nat → Forall (λ e, fits (shdr L) (se_values e)) l →
  has img off (concat (map (λ e, encode (shdr L) (se_values e)) l)) →
  Forall (λ e, text_ok (se_name e) ∧ has img (str + se_field e 0) (se_name e ++ [0])) l →
  ∀ k, (k ≤ length l)%nat →
    fold_m (λ s i, x ← read_section L img off str i; scan_section img s x) no_scan (seq 0 k) = Ret (scan_of str (take k l)).
Proof using Type.
  intros Hl Hf Hh Hn. induction k as [|k IH]; intros Hk; [done|].
  rewrite seq_S, fold_m_app, IH by lia. cbn [mbind result_bind fold_m Nat.add].
  destruct (lookup_lt_is_Some_2 l k) as [e He]; [lia|]. rewrite (read_section_ok img str off l k e) by done.
  rewrite (take_S_r _ _ e He), scan_of_snoc, length_take, Nat.min_l by lia. cbn [mbind result_bind].
  rewrite Forall_forall in Hn. destruct (Hn e) as [Ht Hs]; [by eapply list_elem_of_lookup_2|].
  unfold scan_section. change (name (section_of str k e)) with (str + se_field e 0).
  rewrite (c_string_has img _ (se_name e)) by done. done.
Qed.

(** *** The symbols are read *)

Lemma u32_s64 v : u32 (s64 v) = u32 v.
Proof using Type.
  pose proof (sw_congr 64 ltac:(lia) v) as H. unfold uw. change (2 ^ 64) with (2 ^ 32 * 2 ^ 32) in H.
  rewrite <- (Z.mod_mod_divide (s64 v) (2 ^ 32 * 2 ^ 32) (2 ^ 32)), H by by exists (2 ^ 32).
  by rewrite Z.mod_mod_divide by by exists (2 ^ 32).
Qed.

Lemma read_table_ok img code names e s : (st_name L < length (sym L) ∧ st_value L < length (sym L) ∧
    st_size L < length (sym L) ∧ st_info L < length (sym L) ∧ st_shndx L < length (sym L))%nat →
  has_table img code (Some names) e → ∀ k, (k ≤ length (se_symbols e))%nat →
  fold_m (read_symbol L img code (se_field e 4) names (on_symbol demangle img)) s (seq 0 k) =
    Ret (s ++ functions_of code (take k (se_symbols e))).
Proof using Type.
  intros (L1 & L2 & L3 & L4 & L5) (Hf & _ & Hh & _ & Hn). induction k as [|k IH]; intros Hk; [by rewrite app_nil_r|].
  rewrite seq_S, fold_m_app, IH by lia. cbn [mbind result_bind fold_m Nat.add].
  destruct (lookup_lt_is_Some_2 (se_symbols e) k) as [y Hy]; [lia|].
  assert (∀ j, (j < length (sym L))%nat →
    member img (se_field e 4 + Z.of_nat k * sizeof (sym L)) (sym L) j = Ret (sy_field y j)) as Hm.
  { intros j Hj. by apply (array_member img (sym L) _ j sy_values (se_symbols e) k y). }
  unfold functions_of. rewrite (take_S_r _ _ y Hy), List.filter_app, map_app, app_assoc. simpl.
  unfold read_symbol. rewrite !Hm by done. cbn [mbind result_bind].
  destruct (is_function code y) eqn:Ey; unfold is_function in Ey.
  - destruct (Hn names y) as [Ht Hs]; [done|by eapply list_elem_of_lookup_2|done|].
    apply andb_true_iff in Ey as [Ey E3]. apply andb_true_iff in Ey as [E1 E2]. apply negb_true_iff in E3.
    rewrite E1, E2, E3. simpl. unfold on_symbol. cbn [y_name y_address y_size].
    rewrite (c_string_has img _ (sy_name y)) by done. simpl. by rewrite u32_s64.
  - destruct (Z.land _ _ =? 2); simpl in *; [|by rewrite app_nil_r].
    destruct (_ =? code); simpl in *; [|by rewrite app_nil_r].
    apply negb_false_iff in Ey. rewrite Ey. simpl. by rewrite app_nil_r.
Qed.

Lemma last_such_in P l i e : last_such P l = Some (i, e) → l !! i = Some e ∧ P e = true.
Proof using Type.
  unfold last_such. intros H%last_Some_elem_of. apply list_elem_of_filter in H as [HP H]. split; [|done].
  apply elem_of_lookup_imap in H as (j & x & [= -> ->] & Hx). done.
Qed.

(** A table that was found is read with the names that were found. *)
Lemma found_table_ok img str l t n s : (st_name L < length (sym L) ∧ st_value L < length (sym L) ∧
    st_size L < length (sym L) ∧ st_info L < length (sym L) ∧ st_shndx L < length (sym L))%nat →
  Forall (λ e, fits (shdr L) (se_values e)) l →
  (∀ i e, last_such (has_type t) l = Some (i, e) → has_table img (code_index l) (names_of n l) e) →
  match names_of n l with
  | Some names => read_table L img (code_index l)
      match last_such (has_type t) l with Some (i, e) => section_of str i e | None => no_section end
      names (on_symbol demangle img) s
  | None => Ret s
  end = Ret (s ++ match names_of n l with Some _ => functions_of (code_index l) (table_of t l) | None => [] end).
Proof using Type.
  intros HL Hf Ht. destruct (names_of n l) as [names|]; [|by rewrite app_nil_r]. unfold read_table, table_of.
  destruct (last_such (has_type t) l) as [[i e]|] eqn:E; [|simpl; by rewrite app_nil_r].
  destruct (Ht i e eq_refl) as (H1 & H2 & H3 & H4 & H5). cbn [size file_offset section_of]. rewrite H4, Nat2Z.id.
  apply last_such_in in E as [E _]. apply list_elem_of_lookup_2 in E. rewrite Forall_forall in Hf.
  assert (0 ≤ se_field e 4) as H0.
  { unfold se_field. destruct (se_values e !! 4%nat) as [v|] eqn:Ev; [|done]. simpl.
    destruct (Forall2_lookup_r _ _ _ _ _ (Hf e E) Ev) as (w & _ & Hw). lia. }
  rewrite (sw_small 64 ltac:(lia)) by (unfold in_s; lia).
  rewrite (read_table_ok img (code_index l) names e) by (done || split_and!; done || lia).
  by rewrite firstn_all.
Qed.
End image.

(** C32: The symbols of an image are found: whatever the layout of the file, in 32 and in 64 bits, if the header, the
    table of sections, the tables of symbols and the names are within it, the functions that are reported
    are those of the code section that have a size, of the static table and then of the dynamic one, each
    with its name, its offset and its size; nothing outside the file is read. *)
Theorem functions_enumerated demangle L img h l : L = elf32 ∨ L = elf64 → describes L img h l →
  enumerate_functions demangle img = Ret (functions L demangle l).
Proof.
  intros HL [[Hh Hhas] Hc Hn (off & Hoff & Hf & Hsec) (k & str & Hk & Hstr & Hnames) Hs Hd].
  assert (length (shdr L) = 10%nat) as Hl by by destruct HL; subst.
  unfold enumerate_functions, read_symbols, read_sections. rewrite Hc. cbn [mbind result_bind].
  assert (read_sections_of L img (scan_section img) no_scan = Ret (scan_of (se_field str 4) l)) as ->.
  { unfold read_sections_of. pose proof (member_has img (ehdr L) h Hh 0) as Hm.
    rewrite (Hm 21%nat off), (Hm 28%nat (Z.of_nat k)) by done. cbn [mbind result_bind].
    rewrite (array_member img (shdr L) off 4 se_values l k str) by (done || lia). cbn [mbind result_bind].
    rewrite (Hm 27%nat (len l)) by done. cbn [mbind result_bind]. rewrite Nat2Z.id.
    change (default 0 (se_values str !! 4%nat)) with (se_field str 4).
    rewrite (scan_sections_ok L img _ off l Hl Hf Hsec Hnames (length l)) by lia. by rewrite firstn_all. }
  cbn [mbind result_bind scan_of strtab dynstr symtab dynsym code_section_index].
  assert ((st_name L < length (sym L) ∧ st_value L < length (sym L) ∧ st_size L < length (sym L) ∧
    st_info L < length (sym L) ∧ st_shndx L < length (sym L))%nat) as HS by (destruct HL; subst; simpl; lia).
  rewrite (found_table_ok L demangle img (se_field str 4) l 2 ".strtab" []) by done. cbn [mbind result_bind].
  by rewrite (found_table_ok L demangle img (se_field str 4) l 11 ".dynstr") by done.
Qed.

(** A file that is shorter than the header it is taken to have is read past its end; that it is not an image at all
    is not noticed either. *)
Lemma short_file_undefined demangle img : field img 4 1 = Ret 1 → len img < 52 → enumerate_functions demangle img = UB.
Proof.
  intros Hc Hl. unfold enumerate_functions, read_symbols, read_sections, get_bitness. rewrite Hc. cbn [mbind result_bind].
  rewrite Z.eqb_refl. unfold read_sections_of. destruct (member img 0 (ehdr elf32) 21) as [off| |] eqn:E; [|exfalso|done].
  - cbn [mbind result_bind]. assert (member img 0 (ehdr elf32) 28 = UB) as ->; [|done].
    unfold member, field. change (0 + sizeof (take 28 (ehdr elf32)) + Z.of_nat (default 0%nat (ehdr elf32 !! 28%nat))) with 52.
    rewrite (proj2 (Z.leb_gt 52 (len img))), andb_false_r by lia. done.
  - unfold member, field in E. by destruct (_ && _).
Qed.

(** * An image *)

Definition demo_section (name : string) (values : list Z) (symbols : list symbol_entry) : section_entry :=
  mk_section_entry (of_string name) values symbols.

(** A header, five sections, two symbols and their names, those of the sections; 64 bits. *)
Definition demo_header : list Z :=
  [0x7F; 0x45; 0x4C; 0x46; 2; 1; 1; 0; 0; 0; 0; 0; 0; 0; 0; 0] ++ [3; 62; 1; 0; 0; 64; 0; 64; 0; 0; 64; 5; 4].

Definition demo_functions : list symbol_entry := [
  mk_symbol_entry (of_string "_Z1fv") [1; 0x12; 0; 1; 0x1000; 24];
  mk_symbol_entry (of_string "data") [0; 0x11; 0; 1; 0x2000; 8]].

Definition demo_names : list Z := [0] ++ of_string "_Z1fv" ++ [0].
Definition demo_section_names : list Z :=
  [0] ++ of_string ".text" ++ [0] ++ of_string ".symtab" ++ [0] ++ of_string ".strtab" ++ [0].

Definition demo_sections : list section_entry := [
  demo_section "" [0; 0; 0; 0; 0; 0; 0; 0; 0; 0] [];
  demo_section ".text" [1; 1; 6; 0x1000; 0; 0; 0; 0; 16; 0] [];
  demo_section ".symtab" [7; 2; 0; 0; 384; 48; 3; 1; 8; 24] demo_functions;
  demo_section ".strtab" [15; 3; 0; 0; 432; 7; 0; 0; 1; 0] [];
  demo_section "" [0; 3; 0; 0; 439; 23; 0; 0; 1; 0] []].

Definition demo_image : list Z :=
  encode (ehdr elf64) demo_header ++ concat (map (λ e, encode (shdr elf64) (se_values e)) demo_sections) ++
  concat (map (λ y, encode (sym elf64) (sy_values y)) demo_functions) ++ demo_names ++ demo_section_names.

Definition demo_demangle (n : list Z) : option (list Z) :=
  if decide (n = of_string "_Z1fv") then Some (of_string "f()") else None.

Example demo_enumerated : enumerate_functions demo_demangle demo_image = Ret [(of_string "f()", 0x1000, 24)].
Proof. vm_compute. reflexivity. Qed.

#[local] Instance has_dec img off bs : Decision (has img off bs).
Proof. unfold has. apply _. Defined.

#[local] Instance fits_dec ws vs : Decision (fits ws vs).
Proof. unfold fits. apply _. Defined.

Lemma demo_describes : describes elf64 demo_image demo_header demo_sections.
Proof.
  split.
  - split; apply (bool_decide_unpack _); by vm_compute.
  - by vm_compute.
  - done.
  - exists 64. split_and!; [done|apply (bool_decide_unpack _); by vm_compute..].
  - exists 4%nat, (demo_section "" [0; 3; 0; 0; 439; 23; 0; 0; 1; 0] []). split_and!; [done|done|].
    repeat constructor; try done; apply (bool_decide_unpack _); by vm_compute.
  - intros i e He. vm_compute in He. injection He as <- <-. split_and!; [apply (bool_decide_unpack _); by vm_compute|done|apply (bool_decide_unpack _); by vm_compute|done|].
    intros p y Hp Hy Hf. vm_compute in Hp. injection Hp as <-.
    assert (Forall (λ y, is_function elf64 1 y = true → text_ok (sy_name y) ∧
      has demo_image (432 + sy_field y 0) (sy_name y ++ [0])) demo_functions) as Hall.
    { repeat constructor; try done; apply (bool_decide_unpack _); by vm_compute. }
    rewrite Forall_forall in Hall. by apply Hall.
  - done.
Qed.

Lemma functions_enumerated_witness :
  enumerate_functions demo_demangle demo_image = Ret (functions elf64 demo_demangle demo_sections).
Proof. apply (functions_enumerated demo_demangle elf64 demo_image demo_header); [by right|apply demo_describes]. Defined.
