(* ===== verification/Frontend.v ===== *)
(** The front-end of a profiled process (frontend/src/frontend.cpp, frontend/src/threads_model.cpp).

    It asks for updates one at a time, keeps the table of threads up to date, and, when the process exits, fetches the
    metadata that are missing before it disconnects.  Answers come in steps of their own. *)

From S2P Require Import Prelude Symbols.
Local Open Scope Z_scope.

(** * Threads *)

(** The identifier of a thread and whether it has ended, in the order of the table. *)
Abbreviation thread_rows := (list (Z * bool)).

(** [frontend/src/frontend.cpp:139-142] frontend::update_threads. The record of an identifier, found or created, is
    marked as running. *)
Fixpoint touch_thread (id : Z) (threads : thread_rows) : thread_rows :=
  match threads with
  | [] => [(id, false)]
  | (i, c) :: threads => if i =? id then (i, false) :: threads else (i, c) :: touch_thread id threads
  end.

(** [frontend/src/frontend.cpp:132-151] frontend::update_threads. The table, and the identifiers that are asked for. *)
Definition update_threads (thread_ids : list Z) (threads : thread_rows) : thread_rows * list Z :=
  let threads := fold_left (λ t id, touch_thread id t) thread_ids threads in
  (threads, (filter (λ r, r.2 = false) threads).*1).

Lemma touch_ids id t : (touch_thread id t).*1 = t.*1 ∧ id ∈ t.*1 ∨ (touch_thread id t).*1 = t.*1 ++ [id] ∧ id ∉ t.*1.
Proof.
  induction t as [|[i c] t IH]; [right; split; [done|apply not_elem_of_nil]|].
  cbn [touch_thread]. destruct (Z.eqb_spec i id) as [->|Hne]; rewrite ?fmap_cons; cbn [fst]; [left; split; [done|by left]|].
  destruct IH as [[-> Hin]|[-> Hin]]; [left|right]; (split; [done|]).
  - by right.
  - by apply not_elem_of_cons.
Qed.

Lemma touch_elem id t i c : NoDup t.*1 → (i, c) ∈ touch_thread id t ↔ (i = id ∧ c = false) ∨ (i ≠ id ∧ (i, c) ∈ t).
Proof.
  induction t as [|[j b] t IH]; intros Hnd; simpl.
  - rewrite list_elem_of_singleton, elem_of_nil. naive_solver.
  - simpl in Hnd. apply NoDup_cons in Hnd as [Hn Hnd]. destruct (Z.eqb_spec j id) as [->|Hne].
    + rewrite !elem_of_cons. split; [|naive_solver]. intros [[= -> ->]|Hin]; [by left|].
      right. split; [|by right]. intros ->. destruct Hn. by apply (list_elem_of_fmap_2 fst _ (id, c)).
    + rewrite !elem_of_cons, IH by done. split; [|naive_solver]. intros [[= -> ->]|[?|[? ?]]]; [|by left|]; right; eauto.
Qed.

Lemma touch_all ids : ∀ t, NoDup t.*1 →
  NoDup (fold_left (λ t id, touch_thread id t) ids t).*1 ∧
  ∀ i c, (i, c) ∈ fold_left (λ t id, touch_thread id t) ids t ↔
    (i ∈ ids ∧ c = false) ∨ (i ∉ ids ∧ (i, c) ∈ t).
Proof.
  induction ids as [|id ids IH]; intros t Hnd; simpl.
  - split; [done|]. intros i c. rewrite elem_of_nil. naive_solver.
  - assert (NoDup (touch_thread id t).*1) as Hnd'.
    { destruct (touch_ids id t) as [[-> _]|[-> Hn]]; [done|]. apply NoDup_app. split_and!; [done| |apply NoDup_singleton].
      by intros i Hi ->%list_elem_of_singleton. }
    destruct (IH _ Hnd') as [H1 H2]. split; [done|]. intros i c. rewrite H2, touch_elem, elem_of_cons by done.
    destruct (decide (i ∈ ids)); naive_solver.
Qed.

(** An update asks for the information of every thread that has been reported or is not known to have
    ended, and of no other, each of them once; the threads stay distinct. *)
Theorem update_threads_asks ids threads :
  NoDup threads.*1 →
  let '(threads', asked) := update_threads ids threads in
  NoDup threads'.*1 ∧ NoDup asked ∧ ∀ i, i ∈ asked ↔ i ∈ ids ∨ (i, false) ∈ threads.
Proof.
  intros Hnd. unfold update_threads. destruct (touch_all ids threads Hnd) as [H1 H2].
  split_and!; [done|by apply (NoDup_map_filter fst)|]. intros i. rewrite list_elem_of_fmap. split.
  - intros ([j c] & -> & [Hc Hin]%list_elem_of_filter). simpl in *. subst c. apply H2 in Hin as [[? _]|[_ ?]]; auto.
  - intros Hi. exists (i, false). split; [done|]. apply list_elem_of_filter. split; [done|]. apply H2.
    destruct (decide (i ∈ ids)); [by left|right]. naive_solver.
Qed.

(** [frontend/src/threads_model.cpp:57-67] threads_model::get_key. [cumulative] stands for all the threads; the first
    row has no key. *)
Definition thread_key (cumulative : Z) (view : list Z) (index : nat) : option Z :=
  match index with
  | 0%nat => None
  | 1%nat => Some cumulative
  | S (S index) => view !! index
  end.

(** [frontend/src/threads_model.cpp:69-70] threads_model::get_count *)
Definition thread_count (view : list Z) : nat := length view + 2.

(** [frontend/src/threads_model.cpp:35-36] trackable::index. Of a row behind the two fixed ones: the index is that of
    the row of the view, in the arithmetic of [size_t]. *)
Definition thread_index (underlying : option Z) (fixed : Z) : Z :=
  match underlying with Some i => u64 (i + 2) | None => fixed end.

(** A thread that is not in the view any more: its trackable has the index of the second fixed row, where
    [npos] would say that there is none. *)
Lemma lost_thread_becomes_cumulative : thread_index (Some (u64 (-1))) 5 = 1.
Proof. vm_compute. reflexivity. Qed.

(** * Updates *)

Inductive outgoing := out_update | out_threads (ids : list Z) | out_disconnect.

(** [frontend/frontend.h:81-91] frontend. What its own logic works on; [update_request] is whether an update has been
    asked for through the slot that the views use. *)
Record frontend_state := mk_frontend {
  initialized : bool;
  update_request : bool;
  threads : thread_rows;
  out : list outgoing
}.

Definition send_out (o : outgoing) (f : frontend_state) : frontend_state :=
  mk_frontend (initialized f) (update_request f) (threads f) (out f ++ [o]).

(** [frontend/src/frontend.cpp:108-130] frontend::request_full_update. Through the slot of the views. *)
Definition request_full_update (f : frontend_state) : frontend_state :=
  if update_request f then f
  else mk_frontend (initialized f) true (threads f) (out f ++ [out_update]).

(** [frontend/src/frontend.cpp:64-79] frontend::frontend. The message [init]; it counts once. *)
Definition on_init (f : frontend_state) : frontend_state :=
  if initialized f then f
  else
    let f := request_full_update f in
    mk_frontend true (update_request f) (threads f) (out f).

(** [frontend/src/frontend.cpp:59-62] frontend::frontend. The message of an older collector. *)
Definition on_init_v1 (f : frontend_state) : frontend_state := send_out out_disconnect f.

(** [frontend/src/frontend.cpp:119-123] frontend::request_full_update. The statistics have come, with the threads they
    are of; the slot is free again. *)
Definition on_statistics (thread_ids : list Z) (f : frontend_state) : frontend_state :=
  let '(t, asked) := update_threads thread_ids (threads f) in
  let f := send_out (out_threads asked) (mk_frontend (initialized f) (update_request f) t (out f)) in
  mk_frontend (initialized f) false (threads f) (out f).

Inductive frontend_event := fe_init | fe_poll | fe_statistics (thread_ids : list Z).

(** Statistics only come when they were asked for. *)
Definition frontend_step (f : frontend_state) (e : frontend_event) : frontend_state :=
  match e with
  | fe_init => on_init f
  | fe_poll => request_full_update f
  | fe_statistics ids => if update_request f then on_statistics ids f else f
  end.

Definition is_update (o : outgoing) : bool := match o with out_update => true | _ => false end.
Definition is_threads (o : outgoing) : bool := match o with out_threads _ => true | _ => false end.
Definition count (p : outgoing → bool) (l : list outgoing) : Z := len (List.filter p l).

Lemma count_app p l l' : count p (l ++ l') = count p l + count p l'.
Proof. unfold count. rewrite List.filter_app, length_app. lia. Qed.

(** However often the views poll, there is never more than one update on its way: updates are asked for
    as often as they were answered, but for the one that is waited for. *)
Theorem one_update_at_a_time events f :
  count is_update (out f) = count is_threads (out f) + Z.b2z (update_request f) →
  let f' := foldl frontend_step f events in
  count is_update (out f') = count is_threads (out f') + Z.b2z (update_request f').
Proof.
  revert f. induction events as [|e events IH]; intros f Hf; [done|]. simpl. apply IH.
  destruct f as [i u t o]. destruct e as [| |ids]; simpl in *; unfold on_init, request_full_update; simpl.
  - destruct i, u; simpl in *; rewrite ?count_app; unfold count in *; simpl in *; lia.
  - destruct u; simpl in *; rewrite ?count_app; unfold count in *; simpl in *; lia.
  - destruct u; [|done]. unfold on_statistics. simpl. destruct (update_threads ids t). simpl.
    rewrite !count_app. unfold count in *. simpl in *. lia.
Qed.

(** * The end of the process *)

(** [frontend/src/frontend.cpp:165-166] frontend::finalize. What the callbacks share: how many answers are awaited,
    whether all the requests are out; and how often the session was disconnected. *)
Record finalizer := mk_final { remaining : Z; enabled : bool; disconnects : nat; awaited : list Z }.

(** [frontend/src/frontend.cpp:179-183] frontend::finalize. The metadata of a module have come. *)
Definition on_final_metadata (f : finalizer) : finalizer :=
  let r := u32 (remaining f - 1) in
  mk_final r (enabled f) (if (r =? 0) && enabled f then S (disconnects f) else disconnects f) (awaited f).

Section finalize.
(** Modules whose metadata are there are answered at once. *)
Context (present : Z → bool).

(** [frontend/src/frontend.cpp:171-184] frontend::finalize. The loop over the addresses of the statistics, with the
    modules it has counted. *)
Fixpoint finalize_loop (mappings : list (Z * Z)) (addresses : list Z) (counted : gset Z) (f : finalizer) : finalizer :=
  match addresses with
  | [] => f
  | a :: addresses =>
    match Symbols.find_range mappings a with
    | None => finalize_loop mappings addresses counted f
    | Some (_, pid) =>
      if decide (pid ∈ counted) then finalize_loop mappings addresses counted f
      else
        let f := mk_final (u32 (remaining f + 1)) (enabled f) (disconnects f) (awaited f) in
        let f := if present pid then on_final_metadata f
          else mk_final (remaining f) (enabled f) (disconnects f) (awaited f ++ [pid]) in
        finalize_loop mappings addresses ({[pid]} ∪ counted) f
    end
  end.

(** [frontend/src/frontend.cpp:159-191] frontend::finalize. Behind the last full update. *)
Definition finalize (mappings : list (Z * Z)) (addresses : list Z) : finalizer :=
  let f := finalize_loop mappings addresses ∅ (mk_final 0 false 0 []) in
  if remaining f =? 0 then mk_final (remaining f) (enabled f) (S (disconnects f)) (awaited f)
  else mk_final (remaining f) true (disconnects f) (awaited f).

(** An answer that was awaited. *)
Definition final_answer (pid : Z) (f : finalizer) : finalizer :=
  if decide (pid ∈ awaited f)
  then on_final_metadata (mk_final (remaining f) (enabled f) (disconnects f) (filter (λ p, p ≠ pid) (awaited f)))
  else f.

(** The modules of the addresses, in their order, each of them once. *)
Fixpoint modules_of (mappings : list (Z * Z)) (addresses : list Z) (counted : gset Z) : list Z :=
  match addresses with
  | [] => []
  | a :: addresses =>
    match Symbols.find_range mappings a with
    | None => modules_of mappings addresses counted
    | Some (_, pid) =>
      if decide (pid ∈ counted) then modules_of mappings addresses counted
      else pid :: modules_of mappings addresses ({[pid]} ∪ counted)
    end
  end.

Lemma modules_of_NoDup mappings addresses : ∀ counted,
  NoDup (modules_of mappings addresses counted) ∧ ∀ p, p ∈ modules_of mappings addresses counted → p ∉ counted.
Proof using Type.
  induction addresses as [|a addresses IH]; intros counted; simpl; [split; [constructor|by intros ? ?%elem_of_nil]|].
  destruct (find_range mappings a) as [[b pid]|]; [|apply IH]. case_decide as Hc; [apply IH|].
  destruct (IH ({[pid]} ∪ counted)) as [Hnd Hout]. split.
  - constructor; [|done]. intros Hp. apply Hout in Hp. apply Hp. by apply elem_of_union_l, elem_of_singleton.
  - intros p [->|Hp]%elem_of_cons; [done|]. apply Hout in Hp. intros Hin. apply Hp. by apply elem_of_union_r.
Qed.

Lemma modules_of_length mappings addresses : ∀ counted,
  (length (modules_of mappings addresses counted) ≤ length addresses)%nat.
Proof using Type.
  induction addresses as [|a addresses IH]; intros counted; simpl; [lia|].
  destruct (find_range mappings a) as [[b pid]|]; [|specialize (IH counted); lia].
  case_decide; simpl; [specialize (IH counted); lia|specialize (IH ({[pid]} ∪ counted)); lia].
Qed.

Lemma finalize_loop_ok mappings addresses : ∀ counted f,
  enabled f = false → remaining f = len (awaited f) → len (awaited f) + len addresses < 2 ^ 32 →
  finalize_loop mappings addresses counted f =
    let w := awaited f ++ List.filter (λ p, negb (present p)) (modules_of mappings addresses counted) in
    mk_final (len w) false (disconnects f) w.
Proof using Type.
  induction addresses as [|a addresses IH]; intros counted f He Hr Hl; simpl.
  { rewrite app_nil_r, <- Hr. destruct f. simpl in *. by subst. }
  simpl in Hl. destruct (find_range mappings a) as [[b pid]|]; [|apply IH; (done || lia)].
  case_decide as Hc; [apply IH; (done || lia)|].
  assert (u32 (remaining f + 1) = len (awaited f) + 1) as Hu
    by (rewrite Hr; apply (uw_small 32); unfold in_u; lia).
  rewrite Hu. unfold on_final_metadata. cbn [remaining enabled disconnects awaited].
  destruct (present pid) eqn:Hp; simpl; rewrite ?Hp; simpl.
  - rewrite He, andb_false_r. rewrite IH; cbn [remaining enabled disconnects awaited]; [done|done| |lia].
    rewrite (uw_small_eq 32 ltac:(lia) _ (len (awaited f))); [done|lia|unfold in_u; lia].
  - rewrite IH; cbn [remaining enabled disconnects awaited]; [by rewrite <- app_assoc|done|rewrite length_app; simpl; lia|].
    rewrite length_app. simpl. lia.
Qed.

(** Nobody is awaited: nothing happens any more. *)
Lemma final_done answers : ∀ f, awaited f = [] →
  disconnects (foldl (λ f p, final_answer p f) f answers) = disconnects f.
Proof using Type.
  induction answers as [|x l IH]; intros f Hf; [done|]. simpl. unfold final_answer at 2. rewrite Hf.
  rewrite decide_False by apply not_elem_of_nil. by apply IH.
Qed.

Lemma final_answers_ok answers : ∀ f,
  enabled f = true → NoDup (awaited f) → remaining f = len (awaited f) → len (awaited f) < 2 ^ 32 →
  awaited f ≠ [] →
  let f' := foldl (λ f p, final_answer p f) f answers in
  disconnects f' = (disconnects f + if decide (awaited f ⊆ answers) then 1 else 0)%nat.
Proof using Type.
  clear present. induction answers as [|p answers IH]; intros f He Hnd Hr Hl Hne; simpl.
  { rewrite decide_False; [lia|]. intros Hs. apply Hne. destruct (awaited f) as [|x l]; [done|].
    specialize (Hs x ltac:(by left)). by apply elem_of_nil in Hs. }
  unfold final_answer at 2. destruct (decide (p ∈ awaited f)) as [Hp|Hp].
  - set (w := filter (λ q, q ≠ p) (awaited f)).
    assert (len (awaited f) = len w + 1) as Hw.
    { apply list_elem_of_split in Hp as (l1 & l2 & Heq). unfold w. rewrite Heq in Hnd |- *.
      apply NoDup_app in Hnd as (_ & Hd & Hnd). apply NoDup_cons in Hnd as [Hn _].
      rewrite filter_app, filter_cons_False by tauto. rewrite !filter_all_elem.
      - rewrite !length_app. simpl. lia.
      - intros q Hq ->. done.
      - intros q Hq ->. apply (Hd p Hq). by left. }
    assert (u32 (remaining f - 1) = len w) as Hu by (rewrite Hr; apply uw_small_eq; unfold in_u; lia).
    assert (NoDup w) as Hndw by by apply NoDup_filter.
    assert (awaited f ⊆ p :: answers ↔ w ⊆ answers) as Hsub.
    { unfold w. split.
      - intros H q [Hqp Hq]%list_elem_of_filter. specialize (H q Hq). by apply elem_of_cons in H as [?|?].
      - intros H q Hq. apply elem_of_cons. destruct (decide (q = p)); [by left|right].
        by apply H, list_elem_of_filter. }
    unfold on_final_metadata. cbn [remaining enabled disconnects awaited]. rewrite Hu, He, andb_true_r.
    destruct (Z.eqb_spec (len w) 0) as [E|E].
    + assert (w = []) as Hw0 by (destruct w; [done|simpl in E; lia]).
      rewrite (decide_True (P := awaited f ⊆ _)) by (apply Hsub; rewrite Hw0; by intros ? ?%elem_of_nil).
      rewrite final_done by done. simpl. lia.
    + rewrite IH; cbn [remaining enabled disconnects awaited]; [|done|done|done|lia|by intros ->].
      fold w. by rewrite (decide_ext (awaited f ⊆ p :: answers) (w ⊆ answers)).
  - rewrite IH by done. f_equal. apply decide_ext. split; intros H q Hq; specialize (H q Hq); rewrite elem_of_cons in *.
    + by right.
    + destruct H as [->|?]; done.
Qed.

(** C33: When the process exits the front-end disconnects exactly once: when the metadata of every module
    that has been called into have come, whatever of them is there already and in whatever order the
    others come; and not before. *)
Theorem finalize_disconnects_once mappings addresses answers :
  len addresses < 2 ^ 32 →
  let missing := List.filter (λ p, negb (present p)) (modules_of mappings addresses ∅) in
  disconnects (foldl (λ f p, final_answer p f) (finalize mappings addresses) answers) =
    if decide (missing ⊆ answers) then 1%nat else 0%nat.
Proof using Type.
  intros Hl missing. unfold finalize. rewrite finalize_loop_ok by (done || simpl; lia). cbn -[len].
  fold missing. destruct (Z.eqb_spec (len missing) 0) as [E|E].
  - assert (missing = []) as -> by (destruct missing; [done|simpl in E; lia]). rewrite decide_True by set_solver.
    by rewrite final_done.
  - rewrite final_answers_ok; cbn [remaining enabled disconnects awaited]; [done|done| |done| |by intros He; rewrite He in E].
    + unfold missing. apply NoDup_ListNoDup, List.NoDup_filter, NoDup_ListNoDup, modules_of_NoDup.
    + pose proof (modules_of_length mappings addresses ∅). unfold missing.
      pose proof (List.filter_length_le (λ p, negb (present p)) (modules_of mappings addresses ∅)). lia.
Qed.
End finalize.

(** ** Witnesses *)

Lemma update_threads_asks_witness :
  let '(threads', asked) := update_threads [3; 1] [(1, true); (2, false)] in
  NoDup threads'.*1 ∧ NoDup asked ∧ ∀ i, i ∈ asked ↔ i ∈ [3; 1] ∨ (i, false) ∈ [(1, true); (2, false)].
Proof. apply (update_threads_asks [3; 1] [(1, true); (2, false)]). by apply (bool_decide_unpack _); vm_compute. Defined.

Lemma one_update_at_a_time_witness :
  let f' := foldl frontend_step (mk_frontend false false [] []) [fe_init; fe_poll; fe_statistics [1; 2]; fe_poll; fe_poll] in
  count is_update (out f') = count is_threads (out f') + Z.b2z (update_request f').
Proof.
  apply (one_update_at_a_time [fe_init; fe_poll; fe_statistics [1; 2]; fe_poll; fe_poll] (mk_frontend false false [] [])).
  reflexivity.
Defined.

Lemma finalize_disconnects_once_witness :
  disconnects (foldl (λ f p, final_answer p f)
    (finalize (λ p, p =? 1) [(0x10000, 1); (0x20000, 2); (0x30000, 3)] [0x10010; 0x20010; 0x30010; 0x20020]) [3; 2]) =
    if decide (List.filter (λ p, negb (p =? 1))
      (modules_of [(0x10000, 1); (0x20000, 2); (0x30000, 3)] [0x10010; 0x20010; 0x30010; 0x20020] ∅) ⊆ [3; 2])
    then 1%nat else 0%nat.
Proof.
  apply (finalize_disconnects_once (λ p, p =? 1) [(0x10000, 1); (0x20000, 2); (0x30000, 3)]
    [0x10010; 0x20010; 0x30010; 0x20020] [3; 2]). reflexivity.
Defined.
