(* ===== verification/ModuleMetadata.v ===== *)
(** The metadata of modules in the front-end (frontend/src/frontend_metadata.cpp).

    Who needs the metadata of a module asks for them, and has a handle of his request.  They are fetched once for all
    of them, from the cache on the disk or from the process, by a request that is multiplexed ([Reqm]); when they come,
    they are put into the database, whose listeners hear of it, and then everybody who waits is called in turn.
    Whoever is called, here or by the database, is free to ask and to release: each of these is a step. *)

From S2P Require Import Prelude Reqm.

Section metadata.
Context {D : Type}.

(** How far a fetch is; what does not come from the cache is stored there if it has a path in it. *)
Inductive stage := reading | remote (store : bool).

#[global] Instance stage_eq_dec : EqDecision stage.
Proof. solve_decision. Defined.

(** The modules of the database, the multiplexed requests, and the fetches that are under way, by the numbers in which
    they were begun; [ready] are the modules that have come and whose callbacks are about to be called.  What has
    been done: the fetches, each with its module and the handle of the one who was first; who asked (by the number of
    his handle), for which module, and whether those who waited for it were being called then; the fetches that asked the
    process; those whose metadata were written to the cache; callbacks called. *)
(** [frontend/frontend.h:84-89] frontend *)
Record metadata_state := mk_meta {
  modules : gmap Z D;
  mx : reqm_state (K := Z) (C := unit);
  underway : gmap nat stage;
  ready : list Z;
  fetches : list (Z * nat);
  asked : list (Z * bool);
  requested : list nat;
  stored : list nat;
  served : list (nat * D)
}.

Definition new_metadata : metadata_state := mk_meta ∅ empty_reqm ∅ [] [] [] [] [] [].

(** Callbacks are called with the record of the module. *)
Definition told (db : gmap Z D) (c : Z * nat) : result (nat * D) :=
  match db !! c.1 with Some d => Ret (c.2, d) | None => UB end.

(** A step of the multiplexed requests: what it calls is called, and fetches whose handles it releases are under way no
    more. *)
Definition mx_step (a : act (K := Z) (C := unit)) (s : metadata_state) : result metadata_state :=
  q ← act_step (mx s) a;
  calls ← fold_m (λ l c, x ← told (modules s) c; Ret (l ++ [x])) [] (drop (length (called (mx s))) (called q));
  Ret (mk_meta (modules s) q (filter (λ x, x.1 ∉ released q) (underway s)) (ready s) (fetches s) (asked s) (requested s)
    (stored s) (served s ++ calls)).

(** [frontend/src/frontend_metadata.cpp:99-104] frontend::request_metadata_nw. As the fetch [u]. *)
Definition request_metadata_nw (store : bool) (u : nat) (pid : Z) (s : metadata_state) : metadata_state :=
  mk_meta (modules s) (mx s) (<[u := remote store]> (underway s)) (ready s) (fetches s) (asked s) (requested s ++ [u])
    (stored s) (served s).

(** [frontend/src/frontend_metadata.cpp:62-81] frontend::request_metadata_nw_cached. [cached]: the module has a path in
    the cache. *)
Definition request_metadata_nw_cached (cached : bool) (u : nat) (pid : Z) (s : metadata_state) : metadata_state :=
  if cached
  then mk_meta (modules s) (mx s) (<[u := reading]> (underway s)) (ready s) (fetches s) (asked s) (requested s) (stored s) (served s)
  else request_metadata_nw false u pid s.

(** [frontend/src/frontend_metadata.cpp:42-60] frontend::request_metadata. The callback is put to the others of the
    module; whose module is there is called at once, and otherwise the first one makes the request. *)
Definition request_metadata (cached : bool) (pid : Z) (s : metadata_state) : result metadata_state :=
  let '((first, h), q) := mx_create pid () (mx s) in
  let calling := bool_decide (pid ∈ ready s ∨ pid ∈ (running (mx s)).*1) in
  let s := mk_meta (modules s) q (underway s) (ready s) (fetches s) (asked s ++ [(pid, calling)]) (requested s) (stored s) (served s) in
  match modules s !! pid with
  | Some d =>
    Ret (mk_meta (modules s) q (underway s) (ready s) (fetches s) (asked s) (requested s) (stored s) (served s ++ [(h, d)]))
  | None =>
    if first then
      let u := length (fetches s) in
      let s := mk_meta (modules s) (mx s) (underway s) (ready s) (fetches s ++ [(pid, h)]) (asked s) (requested s) (stored s) (served s) in
      s ← mx_step (a_underlying pid u) s;
      Ret (request_metadata_nw_cached cached u pid s)
    else Ret s
  end.

(** The record of a module is written and committed: whoever listens to the table comes next. *)
Definition fill_record (u : nat) (pid : Z) (d : D) (store : bool) (s : metadata_state) : metadata_state :=
  mk_meta (<[pid := d]> (modules s)) (mx s) (delete u (underway s)) (pid :: ready s) (fetches s) (asked s) (requested s)
    (if store then stored s ++ [u] else stored s) (served s).

(** [frontend/src/frontend_metadata.cpp:104-114] frontend::request_metadata_nw. The answer of the process, up to
    calling those who wait. *)
Definition on_metadata (u : nat) (d : D) (s : metadata_state) : metadata_state :=
  match underway s !! u, fetches s !! u with
  | Some (remote store), Some (pid, _) => fill_record u pid d store s
  | _, _ => s
  end.

(** [frontend/src/frontend_metadata.cpp:82-96] frontend::request_metadata_nw_cached. The file has been read, or cannot
    be. *)
Definition on_cache_read (u : nat) (m : option D) (s : metadata_state) : metadata_state :=
  match underway s !! u, fetches s !! u with
  | Some reading, Some (pid, _) =>
    match m with
    | Some d => fill_record u pid d false s
    | None => request_metadata_nw true u pid s
    end
  | _, _ => s
  end.

(** [frontend/src/frontend_metadata.cpp:56-58] frontend::request_metadata. Those who wait for the module that came last are
    called, from the first one on. *)
Definition invoke_waiting (s : metadata_state) : result metadata_state :=
  match ready s with
  | [] => Ret s
  | pid :: rest =>
    mx_step (a_invoke pid) (mk_meta (modules s) (mx s) (underway s) rest (fetches s) (asked s) (requested s) (stored s) (served s))
  end.

Inductive metadata_event :=
  | me_request (cached : bool) (pid : Z)
  | me_release (pid : Z) (h : nat)
  | me_file (u : nat) (m : option D)
  | me_answer (u : nat) (d : D)
  | me_invoke
  | me_next.

Definition me_step (s : metadata_state) (e : metadata_event) : result metadata_state :=
  match e with
  | me_request cached pid => request_metadata cached pid s
  | me_release pid h => mx_step (a_release pid h) s
  | me_file u m => Ret (on_cache_read u m s)
  | me_answer u d => Ret (on_metadata u d s)
  | me_invoke => invoke_waiting s
  | me_next => mx_step a_next s
  end.

(** A handle is released once; the last one of a module not by those who hear that its metadata are in the database, as
    its callbacks are about to be called: what would be called is gone then. *)
Definition me_allowed (s : metadata_state) (e : metadata_event) : Prop :=
  match e with
  | me_release pid h => live pid h (mx s) ∧ (pid ∈ ready s → ∃ h', h' ≠ h ∧ live pid h' (mx s))
  | me_next => running (mx s) ≠ []
  | _ => True
  end.

Inductive me_reachable : metadata_state → Prop :=
  | mr_init : me_reachable new_metadata
  | mr_step s e s' : me_reachable s → me_allowed s e → me_step s e = Ret s' → me_reachable s'.

(** ** What is true of every state *)

Definition holds (pid : Z) (q : reqm_state (K := Z) (C := unit)) : option nat := requests q !! pid ≫= underlying.

(** The loop over the callbacks of a module has still to come to a callback. *)
Definition ahead (pid : Z) (h : nat) (q : reqm_state (K := Z) (C := unit)) : Prop :=
  ∃ i m rest, (pid, i) ∈ running q ∧ requests q !! pid = Some m ∧ after i (callbacks m) = Some rest ∧ h ∈ rest.*1.

Definition times (h : nat) (s : metadata_state) : nat := length (filter (λ x, x.1 = h) (served s)).

(** A callback is still to be called: its module has not come yet, or the callbacks of the module are called now and it
    is one of those that are left. *)
Definition due (pid : Z) (h : nat) (s : metadata_state) : Prop :=
  modules s !! pid = None ∨ pid ∈ ready s ∨ ahead pid h (mx s).

Record metadata_ok (s : metadata_state) : Prop := {
  mo_reqm : reqm_ok (mx s);
  mo_asked : length (asked s) = next_handle (mx s);
  mo_owner pid m h : requests (mx s) !! pid = Some m → h ∈ ids m → ∃ nested, asked s !! h = Some (pid, nested);
  mo_nested h pid : asked s !! h = Some (pid, true) → is_Some (modules s !! pid);
  mo_holds pid u : holds pid (mx s) = Some u → u ∉ released (mx s) ∧ ∃ h0, fetches s !! u = Some (pid, h0);
  mo_released u : u ∈ released (mx s) → u < length (fetches s);
  mo_underway u st : underway s !! u = Some st → ∃ pid, holds pid (mx s) = Some u ∧ modules s !! pid = None;
  mo_absent pid m : requests (mx s) !! pid = Some m → modules s !! pid = None → ∃ u st, underlying m = Some u ∧ underway s !! u = Some st;
  mo_present pid : pid ∈ ready s ∨ pid ∈ (running (mx s)).*1 → is_Some (modules s !! pid);
  mo_ready : NoDup (ready s) ∧ ∀ pid, pid ∈ ready s → is_Some (requests (mx s) !! pid) ∧ pid ∉ (running (mx s)).*1;
  mo_data h d : (h, d) ∈ served s → ∃ pid nested, asked s !! h = Some (pid, nested) ∧ modules s !! pid = Some d;
  mo_times h pid nested : asked s !! h = Some (pid, nested) → times h s ≤ 1 + Nat.b2n nested;
  mo_due pid m h nested : requests (mx s) !! pid = Some m → h ∈ ids m → due pid h s → asked s !! h = Some (pid, nested) →
    times h s ≤ Nat.b2n nested;
  mo_called pid h : live pid h (mx s) → 1 ≤ times h s ∨ due pid h s;
  mo_fetches v pid h0 : fetches s !! v = Some (pid, h0) → h0 < next_handle (mx s) ∧ ∀ h, h < h0 → ¬ live pid h (mx s)
}.

Lemma new_metadata_ok : metadata_ok new_metadata.
Proof using Type.
  assert (∀ pid h, ¬ live pid h (mx new_metadata)) as Hl by (intros pid h (m & cb & Hm & _); cbn in Hm; by rewrite lookup_empty in Hm).
  split; cbn; try done; try (by intros; rewrite ?lookup_empty in *).
  - split; cbn; [apply map_Forall_empty|constructor|constructor].
  - intros u Hu. by apply elem_of_nil in Hu.
  - intros pid [Hp|Hp]; by apply elem_of_nil in Hp.
  - split; [constructor|]. intros pid Hp. by apply elem_of_nil in Hp.
  - intros h d Hd. by apply elem_of_nil in Hd.
  - intros pid h Hh. by apply Hl in Hh.
Qed.

(** ** Loops *)

Lemma after_ids i (cs : list (nat * option unit)) r : after i cs = Some r → r.*1 ⊆ cs.*1.
Proof using Type. intros Ha h (c & -> & Hc)%list_elem_of_fmap. apply list_elem_of_fmap_2. by apply (after_elem i cs r). Qed.

Lemma after_keeps i (cs cs' : list (nat * option unit)) r : cs.*1 = cs'.*1 → after i cs = Some r →
  ∃ r', after i cs' = Some r' ∧ r'.*1 = r.*1.
Proof using Type.
  revert cs'. induction cs as [|c cs IH]; intros [|c' cs'] E; [done|done|done|]. injection E as E1 E2. cbn [after].
  rewrite E1. case_decide; [intros [= <-]; eauto|]. by apply IH.
Qed.

Lemma after_app i (cs cs' : list (nat * option unit)) r : after i cs = Some r → after i (cs ++ cs') = Some (r ++ cs').
Proof using Type. induction cs as [|c cs IH]; [done|]. cbn. case_decide; [by intros [= <-]|done]. Qed.

(** Who is ahead of a loop. *)
Definition left_of (pid : Z) (q : reqm_state (K := Z) (C := unit)) (i : nat) : list nat :=
  match requests q !! pid with Some m => (default [] (after i (callbacks m))).*1 | None => [] end.

Lemma ahead_left pid h q : reqm_ok q → ahead pid h q ↔ ∃ i, (pid, i) ∈ running q ∧ h ∈ left_of pid q i.
Proof using Type.
  intros Hq. split.
  - intros (i & m & rest & Hr & Hm & Ha & Hh). exists i. split; [done|]. unfold left_of. by rewrite Hm, Ha.
  - intros (i & Hr & Hh). pose proof (ok_loops _ Hq) as Hl. rewrite Forall_forall in Hl. destruct (Hl _ Hr) as (m & Hm & Hi). cbn in Hm, Hi.
    destruct (after_Some i (callbacks m) Hi) as [rest Ha]. exists i, m, rest. split_and!; [done..|].
    unfold left_of in Hh. rewrite Hm, Ha in Hh. done.
Qed.

Lemma loop_unique (q : reqm_state (K := Z) (C := unit)) pid i j : reqm_ok q → (pid, i) ∈ running q → (pid, j) ∈ running q → i = j.
Proof using Type.
  intros Hq Hi Hj. assert ((pid, i) = (pid, j)) as [= ->]; [|done].
  apply (NoDup_map_elem fst (running q)); [apply Hq|done|done|done].
Qed.

(** ** What a step of the requests does for a key *)

Lemma times_snoc h s l : length (filter (λ x : nat * D, x.1 = h) (s ++ l)) =
  length (filter (λ x, x.1 = h) s) + length (filter (λ x, x.1 = h) l).
Proof using Type. by rewrite filter_app, length_app. Qed.

Lemma live_owner s pid h : metadata_ok s → live pid h (mx s) → ∃ nested, asked s !! h = Some (pid, nested).
Proof using Type. intros Hok (m & Hm & Hin)%live_ids. by apply (mo_owner _ Hok pid m h). Qed.

Lemma fresh_times s : metadata_ok s → times (next_handle (mx s)) s = 0.
Proof using Type.
  intros Hok. unfold times. destruct (filter _ _) as [|[h d] l] eqn:E; [done|].
  assert ((h, d) ∈ filter (λ x, x.1 = next_handle (mx s)) (served s)) as [Hh Hin]%list_elem_of_filter by (rewrite E; by left).
  cbn in Hh. subst h. destruct (mo_data _ Hok _ _ Hin) as (pid & n & Ha & _). apply lookup_lt_Some in Ha.
  rewrite (mo_asked _ Hok) in Ha. lia.
Qed.

(** ** Asking *)

Definition is_calling (pid : Z) (s : metadata_state) : bool := bool_decide (pid ∈ ready s ∨ pid ∈ (running (mx s)).*1).

(** The requests when somebody has asked. *)
Definition joined_mx (pid : Z) (um : option nat) (q : reqm_state (K := Z) (C := unit)) : reqm_state :=
  let m := default new_mx (requests q !! pid) in
  mk_reqm (<[pid := mk_mx (callbacks m ++ [(next_handle q, Some ())]) (in_progress m) (require_cleanup m) um]> (requests q))
    (running q) (called q) (S (next_handle q)) (released q).

Lemma joined_reqm_ok pid um q : reqm_ok q → reqm_ok (joined_mx pid um q).
Proof using Type.
  intros Hq. destruct (set_underlying_ok pid 0 (mx_create pid () q).2) as (q' & _ & _); [by apply mx_create_ok|cbn; rewrite lookup_insert_eq; eauto|].
  pose proof (mx_create_ok pid () q Hq) as Hc. unfold mx_create in Hc. cbn [snd] in Hc.
  set (m := default new_mx (requests q !! pid)) in *. destruct Hc as [He Hl Hn]. split; cbn [joined_mx requests running next_handle] in *.
  - intros k m'. destruct (decide (k = pid)) as [->|Hne].
    + unfold joined_mx. cbn [requests]. rewrite lookup_insert_eq. intros [= <-].
      specialize (He pid). rewrite lookup_insert_eq in He. destruct (He _ eq_refl). by constructor.
    + unfold joined_mx. cbn [requests]. rewrite lookup_insert_ne by done. intros Hm. apply He. by rewrite lookup_insert_ne.
  - rewrite Forall_forall in Hl |- *. intros [k i] Hin. destruct (Hl _ Hin) as (m' & Hm' & Hi). cbn [fst snd] in *.
    destruct (decide (k = pid)) as [->|Hne].
    + rewrite lookup_insert_eq in Hm'. injection Hm' as <-. eexists. unfold joined_mx. cbn [requests]. by rewrite lookup_insert_eq.
    + rewrite lookup_insert_ne in Hm' by done. eexists. unfold joined_mx. cbn [requests]. by rewrite lookup_insert_ne.
  - done.
Qed.

Lemma joined_lookup pid um q p : requests (joined_mx pid um q) !! p =
  if decide (p = pid) then let m := default new_mx (requests q !! pid) in
    Some (mk_mx (callbacks m ++ [(next_handle q, Some ())]) (in_progress m) (require_cleanup m) um)
  else requests q !! p.
Proof using Type. unfold joined_mx. cbn. case_decide as H; [subst; by rewrite lookup_insert_eq|by rewrite lookup_insert_ne]. Qed.

Lemma joined_ids pid um q p m h : requests (joined_mx pid um q) !! p = Some m → h ∈ ids m →
  (p = pid ∧ h = next_handle q) ∨ ∃ m0, requests q !! p = Some m0 ∧ h ∈ ids m0.
Proof using Type.
  rewrite joined_lookup. case_decide as Hp; [|eauto]. intros [= <-]. unfold ids. cbn [callbacks]. rewrite fmap_app.
  intros [Hh|Hh%list_elem_of_singleton]%elem_of_app; [right|by left]. subst p.
  destruct (requests q !! pid) as [m0|]; [eauto|by apply elem_of_nil in Hh].
Qed.

Lemma joined_live pid um q p h : live p h (joined_mx pid um q) ↔ (p = pid ∧ h = next_handle q) ∨ live p h q.
Proof using Type.
  unfold live. split.
  - intros (m & cb & Hm & Hin). rewrite joined_lookup in Hm. case_decide as Hp; [|right; eauto]. injection Hm as <-. cbn [callbacks] in Hin.
    subst p. apply elem_of_app in Hin as [Hin|Hin%list_elem_of_singleton]; [right|left; by injection Hin as ->].
    destruct (requests q !! pid) as [m0|]; [eauto|by apply elem_of_nil in Hin].
  - intros [[-> ->]|(m & cb & Hm & Hin)].
    + rewrite joined_lookup, decide_True by done. do 2 eexists. split; [done|]. cbn. apply elem_of_app. right. by left.
    + rewrite joined_lookup. case_decide as Hp; [subst p|eauto]. do 2 eexists. split; [done|]. cbn. rewrite Hm. apply elem_of_app. by left.
Qed.

Lemma joined_holds pid um q p : holds p (joined_mx pid um q) = if decide (p = pid) then um else holds p q.
Proof using Type. unfold holds. rewrite joined_lookup. by case_decide. Qed.

Lemma joined_ahead pid um q p h : reqm_ok q → ahead p h (joined_mx pid um q) →
  ahead p h q ∨ (p = pid ∧ h = next_handle q ∧ pid ∈ (running q).*1).
Proof using Type.
  intros Hq (i & m & rest & Hr & Hm & Ha & Hh). change (running (joined_mx pid um q)) with (running q) in Hr.
  rewrite joined_lookup in Hm. case_decide as Hp; [|left; by exists i, m, rest]. subst p. injection Hm as <-. cbn [callbacks] in Ha.
  pose proof (ok_loops _ Hq) as Hl. rewrite Forall_forall in Hl. destruct (Hl _ Hr) as (m0 & Hm0 & Hi). cbn in Hm0, Hi. rewrite Hm0 in Ha. cbn in Ha.
  destruct (after_Some i (callbacks m0) Hi) as [r0 Hr0]. rewrite (after_app _ _ _ _ Hr0) in Ha. injection Ha as <-.
  rewrite fmap_app in Hh. apply elem_of_app in Hh as [Hh|Hh%list_elem_of_singleton].
  - left. by exists i, m0, r0.
  - right. split_and!; [done|done|]. apply list_elem_of_fmap. by exists (pid, i).
Qed.

Lemma ahead_joined pid um q p h : reqm_ok q → ahead p h q → ahead p h (joined_mx pid um q).
Proof using Type.
  intros Hq (i & m & rest & Hr & Hm & Ha & Hh). unfold ahead. setoid_rewrite joined_lookup. case_decide as Hp.
  - subst p. rewrite Hm. cbn. exists i. do 2 eexists. split_and!; [exact Hr|done|cbn; by apply after_app|]. rewrite fmap_app. apply elem_of_app. by left.
  - by exists i, m, rest.
Qed.

(** What becomes of the rest: who asks for a module that is there is called; who is not the first for one that is not
    waits; who is the first begins a fetch. *)
Inductive joining (s : metadata_state) (pid : Z) : option nat → gmap nat stage → list (Z * nat) → list (nat * D) → Prop :=
  | joining_there d : modules s !! pid = Some d →
      joining s pid (holds pid (mx s)) (underway s) (fetches s) (served s ++ [(next_handle (mx s), d)])
  | joining_others : modules s !! pid = None → is_Some (requests (mx s) !! pid) →
      joining s pid (holds pid (mx s)) (underway s) (fetches s) (served s)
  | joining_first st : modules s !! pid = None → requests (mx s) !! pid = None →
      joining s pid (Some (length (fetches s))) (<[length (fetches s) := st]> (underway s))
        (fetches s ++ [(pid, next_handle (mx s))]) (served s).

Lemma joining_times s pid um uw f sv h : joining s pid um uw f sv → h ≠ next_handle (mx s) →
  length (filter (λ x : nat * D, x.1 = h) sv) = times h s.
Proof using Type.
  intros Hj Hh. destruct Hj; [|done..]. rewrite times_snoc. unfold times. rewrite filter_cons_False by (cbn; congruence).
  rewrite filter_nil. cbn. lia.
Qed.

Lemma joining_new s pid um uw f sv : metadata_ok s → joining s pid um uw f sv →
  length (filter (λ x : nat * D, x.1 = next_handle (mx s)) sv) = if modules s !! pid then 1 else 0.
Proof using Type.
  intros Hok Hj. pose proof (fresh_times s Hok) as Ht. unfold times in Ht. destruct Hj as [d Hd|Hd _|st Hd _]; rewrite Hd; [|done..].
  rewrite times_snoc, Ht, filter_cons_True by done. done.
Qed.

Lemma not_calling_absent s pid : metadata_ok s → modules s !! pid = None → is_calling pid s = false.
Proof using Type.
  intros Hok Hm. apply bool_decide_eq_false. intros Hc. destruct (mo_present _ Hok pid Hc) as [d Hd]. congruence.
Qed.

Lemma holds_fetch s p u : metadata_ok s → holds p (mx s) = Some u → u < length (fetches s).
Proof using Type. intros Hok [_ [h0 Hf]]%(mo_holds _ Hok). by apply lookup_lt_Some in Hf. Qed.

Lemma joined_ok s pid um uw f sv rq st : metadata_ok s → joining s pid um uw f sv →
  metadata_ok (mk_meta (modules s) (joined_mx pid um (mx s)) uw (ready s) f (asked s ++ [(pid, is_calling pid s)]) rq st sv).
Proof using Type.
  intros Hok Hj. set (q := joined_mx pid um (mx s)).
  pose proof (mo_reqm _ Hok) as Hq. pose proof (mo_asked _ Hok) as Hn.
  assert (∀ h x, asked s !! h = Some x → (asked s ++ [(pid, is_calling pid s)]) !! h = Some x ∧ h ≠ next_handle (mx s)) as Hup.
  { intros h x Hx. split; [by apply lookup_app_l_Some|]. apply lookup_lt_Some in Hx. lia. }
  assert (∀ h x, (asked s ++ [(pid, is_calling pid s)]) !! h = Some x → asked s !! h = Some x ∨ h = next_handle (mx s) ∧ x = (pid, is_calling pid s)) as Hdown.
  { intros h x [Hx|[Hge Hx]]%lookup_app_Some; [by left|right]. apply list_lookup_singleton_Some in Hx as [? <-]. split; [lia|done]. }
  assert (∀ p u, holds p (mx s) = Some u → p ≠ pid ∨ um = Some u) as Hum.
  { intros p u Hu. destruct (decide (p = pid)) as [->|]; [right|by left]. destruct Hj as [d Hd|Hd _|st' Hd Hr]; [done..|].
    unfold holds in Hu. by rewrite Hr in Hu. }
  split; cbn [modules mx underway ready fetches asked requested stored served].
  - by apply joined_reqm_ok.
  - rewrite length_app. cbn. lia.
  - intros p m h Hm [[-> ->]|(m0 & Hm0 & Hh)]%(joined_ids _ _ _ _ _ _ Hm).
    + exists (is_calling pid s). rewrite <- Hn. by apply list_lookup_middle.
    + destruct (mo_owner _ Hok p m0 h Hm0 Hh) as [b Hb]. exists b. by apply Hup.
  - intros h p [Ha|[_ [= -> Hc]]]%Hdown; [by apply (mo_nested _ Hok h)|]. symmetry in Hc. apply bool_decide_eq_true in Hc. by apply (mo_present _ Hok).
  - intros p u. unfold q. rewrite joined_holds. change (released (joined_mx pid um (mx s))) with (released (mx s)).
    assert (holds p (mx s) = Some u → u ∉ released (mx s) ∧ ∃ h0, f !! u = Some (p, h0)) as Hold.
    { intros Hu. destruct (mo_holds _ Hok p u Hu) as [? [h0 Hf]]. split; [done|]. exists h0. destruct Hj; [done..|]. by apply lookup_app_l_Some. }
    case_decide as Hp; [subst p|exact Hold]. destruct Hj as [d Hd|Hd _|st' Hd Hr]; [done..|]. intros [= <-].
    split; [intros Hin%(mo_released _ Hok); lia|]. exists (next_handle (mx s)). by apply list_lookup_middle.
  - intros u Hu%(mo_released _ Hok). destruct Hj; [done..|]. rewrite length_app. cbn. lia.
  - intros u st1. unfold q. setoid_rewrite joined_holds.
    assert (underway s !! u = Some st1 → ∃ p, (if decide (p = pid) then um else holds p (mx s)) = Some u ∧ modules s !! p = None) as Hold.
    { intros (p & Hp & Hm)%(mo_underway _ Hok). exists p. split; [|done]. case_decide; [subst p|done]. by destruct (Hum _ _ Hp). }
    destruct Hj as [d Hd|Hd _|st' Hd Hr]; [done..|]. rewrite lookup_insert. case_decide as Hu; [|done].
    intros _. exists pid. rewrite decide_True by done. by subst u.
  - intros p m Hm Habs. unfold q in Hm. rewrite joined_lookup in Hm. case_decide as Hp.
    + subst p. injection Hm as <-. cbn [underlying]. destruct Hj as [d Hd|Hd [m0 Hr]|st' Hd Hr]; [congruence| |].
      * destruct (mo_absent _ Hok pid m0 Hr Habs) as (u & st1 & Hu & Hst). unfold holds. rewrite Hr. cbn. eauto.
      * exists (length (fetches s)), st'. by rewrite lookup_insert_eq.
    + destruct (mo_absent _ Hok p m Hm Habs) as (u & st1 & Hu & Hst). exists u, st1. split; [done|]. destruct Hj; [done..|].
      rewrite lookup_insert_ne; [done|]. assert (holds p (mx s) = Some u) as Hh by (unfold holds; by rewrite Hm).
      pose proof (holds_fetch _ _ _ Hok Hh). lia.
  - apply (mo_present _ Hok).
  - destruct (mo_ready _ Hok) as [Hnd Hr]. split; [done|]. intros p Hp. destruct (Hr p Hp) as [[m Hm] Hrun]. split; [|done].
    unfold q. rewrite joined_lookup. case_decide; [eauto|by exists m].
  - intros h d Hd. assert ((h, d) ∈ served s → ∃ p b, (asked s ++ [(pid, is_calling pid s)]) !! h = Some (p, b) ∧ modules s !! p = Some d) as Hold.
    { intros (p & b & Ha & Hm)%(mo_data _ Hok). exists p, b. split; [by apply Hup|done]. }
    destruct Hj as [d' Hd'|Hd' _|st' Hd' Hr]; [|by apply Hold..]. apply elem_of_app in Hd as [Hd|Hd%list_elem_of_singleton]; [by apply Hold|].
    injection Hd as -> ->. exists pid, (is_calling pid s). split; [|done]. rewrite <- Hn. by apply list_lookup_middle.
  - intros h p b Ha. unfold times. cbn [served]. destruct (Hdown _ _ Ha) as [Ha'|[-> [= -> ->]]].
    + destruct (Hup _ _ Ha'). erewrite joining_times by done. by apply (mo_times _ Hok h p).
    + erewrite joining_new by done. case_match; lia.
  - intros p m h b Hm Hh Hdue Ha. unfold times. cbn [served].
    destruct (Hdown _ _ Ha) as [Ha'|[-> [= -> ->]]].
    + destruct (Hup _ _ Ha') as [_ Hne]. erewrite joining_times by done.
      destruct (joined_ids _ _ _ _ _ _ Hm Hh) as [[_ ?]|(m0 & Hm0 & Hh0)]; [done|]. apply (mo_due _ Hok p m0); [done|done| |done].
      destruct Hdue as [?|[?|Hah]]; [by left|right; by left|right; right]. apply joined_ahead in Hah as [?|(_ & ? & _)]; [done|done|done].
    + erewrite joining_new by done. destruct (modules s !! pid) as [d|] eqn:Ed; [|lia].
      destruct Hdue as [Hd|[Hd|Hah]]; cbn in Hd || idtac; [congruence| |].
      * unfold is_calling. rewrite bool_decide_true by (by left). done.
      * apply joined_ahead in Hah as [(i & m1 & rest & _ & Hm1 & Haf & Hin)|(_ & _ & Hr)]; [| |done].
        -- pose proof (after_ids _ _ _ Haf _ Hin) as Hi. pose proof (ok_fresh _ _ _ (ok_entries _ Hq _ _ Hm1)) as Hf.
           rewrite Forall_forall in Hf. specialize (Hf _ Hi). lia.
        -- unfold is_calling. rewrite bool_decide_true by (by right). done.
  - intros p h. unfold q. rewrite joined_live. unfold times, due. cbn [served modules ready mx]. intros [[-> ->]|Hl].
    + erewrite joining_new by done. destruct (modules s !! pid); [by left|right; by left].
    + destruct (live_owner _ _ _ Hok Hl) as [b Hb]. destruct (Hup _ _ Hb). erewrite joining_times by done.
      destruct (mo_called _ Hok p h Hl) as [?|[?|[?|?]]]; [by left|right; by left|right; right; by left|right; right; right]. by apply ahead_joined.
  - intros v p h0 Hv. assert (fetches s !! v = Some (p, h0) → h0 < S (next_handle (mx s)) ∧ ∀ h, h < h0 → ¬ live p h q) as Hold.
    { intros [Hlt Hnl]%(mo_fetches _ Hok). split; [lia|]. intros h Hh. unfold q. rewrite joined_live. intros [[-> ->]|Hl]; [lia|by apply (Hnl h)]. }
    destruct Hj as [d Hd|Hd _|st' Hd Hr]; [by apply Hold..|]. apply lookup_app_Some in Hv as [Hv|[Hge Hv]]; [by apply Hold|].
    apply list_lookup_singleton_Some in Hv as [_ [= <- <-]]. split; [cbn; lia|]. intros h Hh. unfold q. rewrite joined_live.
    intros [[_ ->]|(m & cb & Hm & _)]; [lia|congruence].
Qed.

Lemma joined_create pid q : (mx_create pid () q).2 = joined_mx pid (holds pid q) q.
Proof using Type.
  unfold mx_create, joined_mx, holds. cbn [snd]. do 3 f_equal. by destruct (requests q !! pid).
Qed.

Lemma request_joined cached pid s : metadata_ok s → ∃ um uw f sv rq,
  request_metadata cached pid s =
    Ret (mk_meta (modules s) (joined_mx pid um (mx s)) uw (ready s) f (asked s ++ [(pid, is_calling pid s)]) rq (stored s) sv) ∧
  joining s pid um uw f sv.
Proof using Type.
  intros Hok. pose proof (joined_create pid (mx s)) as Hc. unfold request_metadata. unfold mx_create in Hc |- *. cbn [snd] in Hc.
  rewrite Hc. cbn [modules mx underway ready fetches asked requested stored served].
  destruct (modules s !! pid) as [d|] eqn:Hd; [do 5 eexists; split; [done|by apply joining_there]|].
  destruct (requests (mx s) !! pid) as [m|] eqn:Hr; cbn [default].
  - rewrite bool_decide_false by by apply (ok_nonempty _ _ _ (ok_entries _ (mo_reqm _ Hok) _ _ Hr)).
    do 5 eexists. split; [done|by apply joining_others].
  - cbn [callbacks new_mx]. rewrite bool_decide_true by done.
    unfold mx_step. cbn [act_step mx]. unfold set_underlying. rewrite joined_lookup, decide_True by done.
    unfold joined_mx, holds. rewrite Hr. cbn [mbind option_bind result_bind default callbacks new_mx in_progress require_cleanup underlying option_list called
      requests running next_handle released modules underway ready fetches asked requested stored served].
    rewrite drop_all, app_nil_r, insert_insert_eq. cbn [fold_m mbind result_bind]. rewrite app_nil_r.
    assert (filter (λ x : nat * stage, x.1 ∉ released (mx s)) (underway s) = underway s) as ->.
    { apply map_filter_id. intros u st (p & Hp & _)%(mo_underway _ Hok). by apply (mo_holds _ Hok p). }
    unfold request_metadata_nw_cached, request_metadata_nw. cbn [modules mx underway ready fetches asked requested stored served].
    assert (∀ st, joining s pid (Some (length (fetches s))) (<[length (fetches s) := st]> (underway s))
      (fetches s ++ [(pid, next_handle (mx s))]) (served s)) as Hj by (intros; by apply joining_first).
    destruct cached; (do 5 eexists; split; [|apply Hj]); done.
Qed.

(** ** What comes *)

Lemma fill_ok u pid d store st h0 s : metadata_ok s → underway s !! u = Some st → fetches s !! u = Some (pid, h0) →
  metadata_ok (fill_record u pid d store s).
Proof using Type.
  intros Hok Hu Hf. destruct (mo_underway _ Hok _ _ Hu) as (p & Hp & Habs).
  assert (p = pid) as -> by (destruct (mo_holds _ Hok p u Hp) as [_ [h1 Hf']]; congruence).
  destruct (requests (mx s) !! pid) as [mp|] eqn:Hmp; [|by unfold holds in Hp; rewrite Hmp in Hp].
  assert (∀ p v, (holds p (mx s) = Some v) → p ≠ pid → v ≠ u) as Hother.
  { intros p v Hv Hne ->. destruct (mo_holds _ Hok p u Hv) as [_ [h1 Hf']]. congruence. }
  assert (∀ p, is_Some (modules s !! p) → p ≠ pid) as Hne by (intros p [x Hx] ->; congruence).
  split; cbn [fill_record modules mx underway ready fetches asked requested stored served].
  - apply Hok.
  - apply Hok.
  - apply (mo_owner _ Hok).
  - intros h p [x Hx]%(mo_nested _ Hok). rewrite lookup_insert_ne; [eauto|]. intros <-. by apply (Hne pid).
  - apply (mo_holds _ Hok).
  - apply (mo_released _ Hok).
  - intros v st' [Hv Hst]%lookup_delete_Some. destruct (mo_underway _ Hok v st' Hst) as (p & Hpv & Hm). exists p. split; [done|].
    rewrite lookup_insert_ne; [done|]. intros <-. rewrite Hp in Hpv. by injection Hpv.
  - intros p m Hm [Hm' Hpne]%lookup_insert_None. destruct (mo_absent _ Hok p m Hm Hm') as (v & st' & Hv & Hst). exists v, st'. split; [done|].
    rewrite lookup_delete_ne; [done|]. symmetry. apply (Hother p); [by unfold holds; rewrite Hm|done].
  - intros p Hin. destruct (decide (pid = p)) as [->|Hpne]; [by rewrite lookup_insert_eq|]. rewrite lookup_insert_ne by done.
    apply (mo_present _ Hok). set_solver.
  - destruct (mo_ready _ Hok) as [Hnd Hr]. assert (pid ∉ ready s ∧ pid ∉ (running (mx s)).*1) as [Hn1 Hn2].
    { split; intros Hin; by apply (Hne pid); [apply (mo_present _ Hok); auto|]. }
    split; [by constructor|]. intros p [->|Hin]%elem_of_cons; [split; [by exists mp|done]|by apply Hr].
  - intros h d' (p & b & Ha & Hm)%(mo_data _ Hok). exists p, b. split; [done|]. rewrite lookup_insert_ne; [done|]. intros <-. congruence.
  - apply (mo_times _ Hok).
  - intros p m h b Hm Hh Hdue. apply (mo_due _ Hok p m h b Hm Hh).
    unfold due in *. cbn [fill_record modules ready mx] in Hdue.
    destruct Hdue as [[? _]%lookup_insert_None|[[->|?]%elem_of_cons|?]]; [by left|by left|right; by left|right; by right].
  - intros p h [?|Hd]%(mo_called _ Hok); [by left|right]. unfold due in *. cbn [fill_record modules ready mx].
    destruct (decide (p = pid)) as [->|Hpne]; [right; left; by left|]. rewrite lookup_insert_ne by done.
    destruct Hd as [?|[?|?]]; [by left|right; left; by right|right; by right].
  - apply (mo_fetches _ Hok).
Qed.

Lemma remote_ok u pid st s : metadata_ok s → underway s !! u = Some st → metadata_ok (request_metadata_nw true u pid s).
Proof using Type.
  intros Hok Hu. destruct Hok. split; cbn [request_metadata_nw modules mx underway ready fetches asked requested stored served]; try done.
  - intros v st' [[<- _]|[_ ?]]%lookup_insert_Some; eauto.
  - intros p m Hm Habs. destruct (mo_absent0 p m Hm Habs) as (v & st' & Hv & Hst). exists v.
    destruct (decide (u = v)) as [->|Hne]; [rewrite lookup_insert_eq|rewrite lookup_insert_ne by done]; eauto.
Qed.

Lemma on_metadata_ok u d s : metadata_ok s → metadata_ok (on_metadata u d s).
Proof using Type.
  intros Hok. unfold on_metadata. destruct (underway s !! u) as [[|store]|] eqn:Hu; [done| |done].
  destruct (fetches s !! u) as [[pid h0]|] eqn:Hf; [|done]. by eapply fill_ok.
Qed.

Lemma on_cache_read_ok u m s : metadata_ok s → metadata_ok (on_cache_read u m s).
Proof using Type.
  intros Hok. unfold on_cache_read. destruct (underway s !! u) as [[|store]|] eqn:Hu; [|done..].
  destruct (fetches s !! u) as [[pid h0]|] eqn:Hf; [|done]. destruct m; [by eapply fill_ok|by eapply remote_ok].
Qed.

(** ** Releasing, and the end of a loop *)

(** Callbacks are taken out of the requests, and an entry that has none is dropped together with its request. *)
Record shrinks (q q' : reqm_state (K := Z) (C := unit)) : Prop := {
  sh_ok : reqm_ok q';
  sh_next : next_handle q' = next_handle q;
  sh_running : (running q').*1 ⊆ (running q).*1;
  sh_entry p m' : requests q' !! p = Some m' → ∃ m, requests q !! p = Some m ∧ underlying m' = underlying m ∧ ids m' ⊆ ids m;
  sh_live p h : live p h q' → live p h q;
  sh_ahead p h : ahead p h q' → ahead p h q;
  sh_left p h : ahead p h q → live p h q' → ahead p h q';
  sh_dropped p u : holds p q = Some u → holds p q' = Some u ∨ u ∈ released q';
  sh_released u : u ∈ released q' → u ∈ released q ∨ ∃ p, holds p q = Some u ∧ requests q' !! p = None;
}.

Lemma shrunk_ok s q' : metadata_ok s → shrinks (mx s) q' → (∀ p, p ∈ ready s → is_Some (requests q' !! p)) →
  metadata_ok (mk_meta (modules s) q' (filter (λ x, x.1 ∉ released q') (underway s)) (ready s) (fetches s) (asked s) (requested s)
    (stored s) (served s)).
Proof using Type.
  intros Hok Hs Hready.
  assert (∀ p u, holds p q' = Some u → holds p (mx s) = Some u ∧ u ∉ released q') as Hholds.
  { intros p u Hu. unfold holds in Hu. destruct (requests q' !! p) as [m'|] eqn:Hm'; [|done]. cbn in Hu.
    destruct (sh_entry _ _ Hs p m' Hm') as (m & Hm & Hum & _). assert (holds p (mx s) = Some u) as Hp by (unfold holds; rewrite Hm; cbn; congruence).
    split; [done|]. destruct (mo_holds _ Hok p u Hp) as [Hn [h0 Hf]].
    intros [?|(p2 & Hp2 & Hd)]%(sh_released _ _ Hs); [done|]. destruct (mo_holds _ Hok p2 u Hp2) as [_ [h1 Hf']]. congruence. }
  split; cbn [modules mx underway ready fetches asked requested stored served].
  - apply Hs.
  - rewrite (sh_next _ _ Hs). apply Hok.
  - intros p m' h Hm' Hh. destruct (sh_entry _ _ Hs p m' Hm') as (m & Hm & _ & Hsub). apply (mo_owner _ Hok p m h); auto.
  - apply (mo_nested _ Hok).
  - intros p u [Hu Hn]%Hholds. split; [done|]. apply (mo_holds _ Hok p u Hu).
  - intros u [Hu|(p & Hp & _)]%(sh_released _ _ Hs); [by apply (mo_released _ Hok)|by apply (holds_fetch s p)].
  - intros u st [Hst Hn]%map_lookup_filter_Some. destruct (mo_underway _ Hok u st Hst) as (p & Hp & Hm). exists p. split; [|done].
    by destruct (sh_dropped _ _ Hs p u Hp).
  - intros p m' Hm' Habs. destruct (sh_entry _ _ Hs p m' Hm') as (m & Hm & Hum & _).
    destruct (mo_absent _ Hok p m Hm Habs) as (u & st & Hu & Hst). exists u, st. split; [congruence|]. apply map_lookup_filter_Some.
    split; [done|]. apply (Hholds p u). unfold holds. rewrite Hm'. cbn. congruence.
  - intros p [?|?%(sh_running _ _ Hs)]; apply (mo_present _ Hok); auto.
  - destruct (mo_ready _ Hok) as [Hnd Hr]. split; [done|]. intros p Hp. split; [by apply Hready|]. intros ?%(sh_running _ _ Hs). by apply (Hr p).
  - apply (mo_data _ Hok).
  - apply (mo_times _ Hok).
  - intros p m' h b Hm' Hh Hdue. destruct (sh_entry _ _ Hs p m' Hm') as (m & Hm & _ & Hsub). apply (mo_due _ Hok p m h b Hm); [auto|].
    destruct Hdue as [?|[?|?%(sh_ahead _ _ Hs)]]; [by left|right; by left|right; by right].
  - intros p h Hl. destruct (mo_called _ Hok p h (sh_live _ _ Hs p h Hl)) as [?|[?|[?|?]]]; [by left|right; by left|right; right; by left|].
    right; right; right. by apply (sh_left _ _ Hs).
  - intros v p h0 [Hlt Hnl]%(mo_fetches _ Hok). rewrite (sh_next _ _ Hs). split; [done|]. intros h Hh Hl%(sh_live _ _ Hs). by apply (Hnl h).
Qed.

(** ** Calling *)

(** A loop comes to a callback: [c] of [k] was due, and is not any more. *)
Record comes_to (k : Z) (c : nat * option unit) (s : metadata_state) (q' : reqm_state) (ready' : list Z) : Prop := {
  ct_ok : reqm_ok q';
  ct_next : next_handle q' = next_handle (mx s);
  ct_released : released q' = released (mx s);
  ct_entry p : (λ m, (callbacks m, underlying m)) <$> requests q' !! p = (λ m, (callbacks m, underlying m)) <$> requests (mx s) !! p;
  ct_ready : NoDup ready' ∧ ready' ⊆ ready s ∧ k ∉ ready';
  ct_running : (running q').*1 ⊆ k :: (running (mx s)).*1;
  ct_elem : ∃ m, requests (mx s) !! k = Some m ∧ c ∈ callbacks m;
  ct_was : due k c.1 s;
  ct_due p h : p ∈ ready' ∨ ahead p h q' → (p ∈ ready s ∨ ahead p h (mx s)) ∧ (p = k → h ≠ c.1);
  ct_left p h : p ∈ ready s ∨ ahead p h (mx s) → live p h q' → p ∈ ready' ∨ ahead p h q' ∨ (p = k ∧ h = c.1)
}.

(** The callback is called if it has not been released. *)
Definition calls_of (c : nat * option unit) (d : D) : list (nat * D) := match c.2 with Some _ => [(c.1, d)] | None => [] end.

Lemma times_calls c d h : length (filter (λ x : nat * D, x.1 = h) (calls_of c d)) = if decide (h = c.1 ∧ is_Some c.2) then 1 else 0.
Proof using Type.
  unfold calls_of. destruct c as [i [[]|]]; cbn [fst snd].
  - rewrite filter_cons. cbn [fst]. repeat case_decide; try done; subst; destruct_and?; try done; naive_solver.
  - rewrite decide_False; [done|]. intros [_ [x Hx]]. done.
Qed.

Lemma entry_eq (q q' : reqm_state (K := Z) (C := unit)) p m' :
  (∀ p, (λ m, (callbacks m, underlying m)) <$> requests q' !! p = (λ m, (callbacks m, underlying m)) <$> requests q !! p) →
  requests q' !! p = Some m' → ∃ m, requests q !! p = Some m ∧ callbacks m' = callbacks m ∧ underlying m' = underlying m.
Proof using Type.
  intros He Hm'. specialize (He p). rewrite Hm' in He. cbn in He. symmetry in He. apply fmap_Some in He as (m & Hm & E).
  injection E as E1 E2. eauto.
Qed.

Lemma entry_holds (q q' : reqm_state (K := Z) (C := unit)) p :
  (∀ p, (λ m, (callbacks m, underlying m)) <$> requests q' !! p = (λ m, (callbacks m, underlying m)) <$> requests q !! p) →
  holds p q' = holds p q.
Proof using Type.
  intros He. specialize (He p). unfold holds. destruct (requests q' !! p), (requests q !! p); cbn in *; congruence.
Qed.

Lemma entry_live (q q' : reqm_state (K := Z) (C := unit)) p h :
  (∀ p, (λ m, (callbacks m, underlying m)) <$> requests q' !! p = (λ m, (callbacks m, underlying m)) <$> requests q !! p) →
  live p h q' ↔ live p h q.
Proof using Type.
  intros He. split; intros (m & cb & Hm & Hin).
  - destruct (entry_eq _ _ _ _ He Hm) as (m0 & Hm0 & Hc & _). exists m0, cb. by rewrite <- Hc.
  - destruct (entry_eq q' q p m (λ p, eq_sym (He p)) Hm) as (m0 & Hm0 & Hc & _). exists m0, cb. by rewrite <- Hc.
Qed.

Lemma came_ok k c d s q' ready' : metadata_ok s → modules s !! k = Some d → comes_to k c s q' ready' →
  metadata_ok (mk_meta (modules s) q' (underway s) ready' (fetches s) (asked s) (requested s) (stored s) (served s ++ calls_of c d)).
Proof using Type.
  intros Hok Hd Hc. pose proof (ct_entry _ _ _ _ _ Hc) as He. destruct (ct_elem _ _ _ _ _ Hc) as (mk & Hmk & Hck).
  destruct (mo_owner _ Hok k mk c.1 Hmk (ids_elem _ _ Hck)) as [bk Hbk].
  destruct (ct_ready _ _ _ _ _ Hc) as (Hnd & Hsub & Hkr).
  assert (∀ p h, due p h (mk_meta (modules s) q' (underway s) ready' (fetches s) (asked s) (requested s) (stored s) (served s ++ calls_of c d)) →
    due p h s ∧ (p = k → h ≠ c.1)) as Hdue.
  { intros p h [Hn|Hn]; cbn [modules ready mx] in Hn; [split; [by left|intros ->; congruence]|]. apply (ct_due _ _ _ _ _ Hc) in Hn as [Hn ?]. split; [by right|done]. }
  split; cbn [modules mx underway ready fetches asked requested stored served].
  - apply Hc.
  - rewrite (ct_next _ _ _ _ _ Hc). apply Hok.
  - intros p m' h Hm' Hh. destruct (entry_eq _ _ _ _ He Hm') as (m & Hm & E & _). apply (mo_owner _ Hok p m h Hm). unfold ids in *. by rewrite <- E.
  - apply (mo_nested _ Hok).
  - intros p u. rewrite (entry_holds _ _ p He), (ct_released _ _ _ _ _ Hc). apply (mo_holds _ Hok).
  - intros u. rewrite (ct_released _ _ _ _ _ Hc). apply (mo_released _ Hok).
  - intros u st (p & Hp & Hm)%(mo_underway _ Hok). exists p. by rewrite (entry_holds _ _ p He).
  - intros p m' Hm' Habs. destruct (entry_eq _ _ _ _ He Hm') as (m & Hm & _ & E). destruct (mo_absent _ Hok p m Hm Habs) as (u & st & Hu & Hst).
    exists u, st. by rewrite E.
  - intros p [Hin|Hin]; [apply (mo_present _ Hok); auto|]. apply (ct_running _ _ _ _ _ Hc) in Hin.
    apply elem_of_cons in Hin as [->|Hin]; [by exists d|apply (mo_present _ Hok); auto].
  - destruct (mo_ready _ Hok) as [_ Hr]. split; [done|]. intros p Hp. destruct (Hr p (Hsub _ Hp)) as [[m Hm] Hrun]. split.
    + specialize (He p). rewrite Hm in He. cbn in He. apply fmap_Some in He as (m' & Hm' & _). by exists m'.
    + intros Hin. apply (ct_running _ _ _ _ _ Hc) in Hin. apply elem_of_cons in Hin as [->|Hin]; done.
  - intros h d' [Hin|Hin]%elem_of_app; [by apply (mo_data _ Hok)|]. unfold calls_of in Hin. destruct c.2; [|by apply elem_of_nil in Hin].
    apply list_elem_of_singleton in Hin. injection Hin as -> ->. eauto.
  - intros h p b Ha. unfold times. cbn [served]. rewrite times_snoc, times_calls. pose proof (mo_times _ Hok h p b Ha) as Ht. unfold times in Ht.
    case_decide as Hcall; [|lia]. destruct Hcall as [-> _]. rewrite Hbk in Ha. injection Ha as -> ->.
    pose proof (mo_due _ Hok p mk c.1 b Hmk (ids_elem _ _ Hck) (ct_was _ _ _ _ _ Hc) Hbk) as Hlt. unfold times in Hlt. lia.
  - intros p m' h b Hm' Hh [Hd' Hne]%Hdue Ha. destruct (entry_eq _ _ _ _ He Hm') as (m & Hm & E & _).
    unfold times. cbn [served]. rewrite times_snoc, times_calls, decide_False, Nat.add_0_r.
    + apply (mo_due _ Hok p m h b Hm); [|done..]. unfold ids in *. by rewrite <- E.
    + intros [-> _]. rewrite Hbk in Ha. injection Ha as -> ->. by apply Hne.
  - intros p h Hl. unfold times. cbn [served]. rewrite times_snoc, times_calls.
    pose proof (proj1 (entry_live _ _ p h He) Hl) as Hl0. destruct (mo_called _ Hok p h Hl0) as [Ht|[Hn|Hn]].
    + left. unfold times in Ht. lia.
    + right. by left.
    + destruct (ct_left _ _ _ _ _ Hc p h Hn Hl) as [?|[?|[-> ->]]]; [right; right; by left|right; right; by right|left].
      rewrite decide_True; [lia|]. split; [done|]. destruct Hl0 as (m & cb & Hm & Hin). rewrite Hmk in Hm. injection Hm as <-.
      assert (c = (c.1, Some cb)) as ->; [|by eexists]. apply (NoDup_map_elem fst (callbacks mk)); [|done..].
      apply (ok_distinct _ _ _ (ok_entries _ (mo_reqm _ Hok) _ _ Hmk)).
  - intros v p h0 [Hlt Hnl]%(mo_fetches _ Hok). rewrite (ct_next _ _ _ _ _ Hc). split; [done|]. intros h Hh Hl%(entry_live _ _ p h He). by apply (Hnl h).
Qed.

(** ** The steps *)

(** Callbacks are taken out of an entry that no loop is at, or whose loop is over. *)
Lemma cut_shrinks (q : reqm_state (K := Z) (C := unit)) k m cs rc run c :
  let q' := destroy_if_empty k (mk_mx cs false rc (underlying m)) (mk_reqm (requests q) run c (next_handle q) (released q)) in
  requests q !! k = Some m → reqm_ok q' → cs ⊆ callbacks m → run ⊆ running q →
  (∀ p i, (p, i) ∈ running q → p ≠ k → (p, i) ∈ run) → k ∉ run.*1 → (∀ h, ¬ ahead k h q) → shrinks q q'.
Proof using Type.
  intros q' Hm Hq' Hcs Hrun Hrest Hk Hno.
  assert (next_handle q' = next_handle q ∧ running q' = run) as [Hn Hr] by (unfold q', destroy_if_empty; by destruct cs).
  assert (∀ p, p ≠ k → requests q' !! p = requests q !! p) as Hne.
  { intros p Hp. unfold q', destroy_if_empty. destruct cs; cbn; [by rewrite lookup_delete_ne|by rewrite lookup_insert_ne]. }
  assert (∀ m', requests q' !! k = Some m' → cs ≠ [] ∧ m' = mk_mx cs false rc (underlying m)) as Hat.
  { intros m'. unfold q', destroy_if_empty. destruct cs; cbn; [by rewrite lookup_delete_eq|rewrite lookup_insert_eq; by intros [= <-]]. }
  assert (∀ p i, (p, i) ∈ run → p ≠ k) as Hrk by (intros p i Hin ->; apply Hk; by apply list_elem_of_fmap_2' with (k, i)).
  split; [done|done|..].
  - rewrite Hr. intros p ([p' i] & -> & Hin)%list_elem_of_fmap. apply list_elem_of_fmap_2. by apply Hrun.
  - intros p m' Hm'. destruct (decide (p = k)) as [->|Hp]; [|exists m'; rewrite <- Hne by done; done].
    destruct (Hat _ Hm') as [_ ->]. exists m. split_and!; [done|done|]. intros h (x & -> & Hx)%list_elem_of_fmap. apply list_elem_of_fmap_2. by apply Hcs.
  - intros p h (m' & cb & Hm' & Hin). destruct (decide (p = k)) as [->|Hp]; [|exists m', cb; rewrite <- Hne by done; done].
    destruct (Hat _ Hm') as [_ ->]. exists m, cb. split; [done|by apply Hcs].
  - intros p h (i & m' & r & Hin & Hm' & Ha). rewrite Hr in Hin. rewrite Hne in Hm' by by eapply Hrk. exists i, m', r. split; [by apply Hrun|done].
  - intros p h Hah _. destruct (decide (p = k)) as [->|Hp]; [by apply Hno in Hah|]. destruct Hah as (i & m' & r & Hin & Hm' & Ha).
    exists i, m', r. rewrite Hr, Hne by done. split; [by apply Hrest|done].
  - intros p u Hu. destruct (decide (p = k)) as [->|Hp]; [|left; unfold holds; by rewrite Hne].
    unfold holds in *. rewrite Hm in Hu. cbn in Hu. unfold q', destroy_if_empty. destruct cs; cbn.
    + right. rewrite Hu. cbn. apply elem_of_app. right. by left.
    + left. by rewrite lookup_insert_eq.
  - intros u. unfold q', destroy_if_empty. destruct cs; cbn; [|by left]. intros [?|Hin]%elem_of_app; [by left|right]. exists k.
    rewrite lookup_delete_eq. split; [|done]. unfold holds. rewrite Hm. cbn. destruct (underlying m); cbn in Hin; [|by apply elem_of_nil in Hin].
    apply list_elem_of_singleton in Hin. congruence.
Qed.

(** While a loop is at the entry, a released callback is only made empty. *)
Lemma cleared_shrinks (q : reqm_state (K := Z) (C := unit)) k m h q' : reqm_ok q' → requests q !! k = Some m →
  q' = mk_reqm (<[k := mk_mx (map (λ c, if decide (c.1 = h) then (c.1, None) else c) (callbacks m)) true true (underlying m)]> (requests q))
    (running q) (called q) (next_handle q) (released q) → shrinks q q'.
Proof using Type.
  intros Hq' Hm ->. set (f := λ c : nat * option unit, if decide (c.1 = h) then (c.1, None) else c) in *.
  assert ((map f (callbacks m)).*1 = (callbacks m).*1) as Hids by apply clear_ids.
  split; [done|..]; cbn [next_handle running requests released].
  - done.
  - done.
  - intros p m' [[<- <-]|[_ Hm']]%lookup_insert_Some; [|by exists m']. exists m. unfold ids. cbn [callbacks underlying]. by rewrite Hids.
  - intros p h' (m' & cb & Hm' & Hin). cbn in Hm'. apply lookup_insert_Some in Hm' as [[<- <-]|[_ Hm']]; [|by exists m', cb].
    exists m, cb. split; [done|]. cbn in Hin. apply list_elem_of_fmap in Hin as (c & E & Hin). unfold f in E. case_decide; [done|by subst c].
  - intros p h' (i & m' & r & Hin & Hm' & Ha & Hh). cbn in Hin, Hm'. apply lookup_insert_Some in Hm' as [[<- <-]|[_ Hm']]; [|by exists i, m', r].
    cbn in Ha. destruct (after_keeps i _ (callbacks m) r Hids Ha) as (r' & Ha' & E). exists i, m, r'. rewrite E. done.
  - intros p h' (i & m' & r & Hin & Hm' & Ha & Hh) _. destruct (decide (p = k)) as [->|Hp].
    + rewrite Hm in Hm'. injection Hm' as <-. destruct (after_keeps i (callbacks m) (map f (callbacks m)) r (eq_sym Hids) Ha) as (r' & Ha' & E).
      exists i. do 2 eexists. cbn [requests running]. rewrite lookup_insert_eq. split_and!; [done|done|exact Ha'|by rewrite E].
    + exists i, m', r. cbn [requests running]. by rewrite lookup_insert_ne.
  - intros p u Hu. left. unfold holds in *. cbn [requests]. rewrite lookup_insert. case_decide as Hp; [|done]. subst p. by rewrite Hm in Hu.
  - by left.
Qed.

Lemma release_shrinks s pid h : metadata_ok s → live pid h (mx s) → ∃ q', destroy_inner pid h (mx s) = Ret q' ∧ shrinks (mx s) q' ∧
  called q' = called (mx s) ∧
  ((pid ∈ ready s → ∃ h', h' ≠ h ∧ live pid h' (mx s)) → ∀ p, p ∈ ready s → is_Some (requests q' !! p)).
Proof using Type.
  intros Hok Hl. pose proof (mo_reqm _ Hok) as Hq. destruct (destroy_inner_ok pid h (mx s) Hq Hl) as (q' & Hd & Hq'). exists q'. split; [done|].
  destruct (live_ids _ _ _ Hl) as (m & Hm & Hh). pose proof (ok_entries _ Hq _ _ Hm) as Hmx. unfold destroy_inner in Hd.
  rewrite Hm, decide_True in Hd by done. apply Ret_inj in Hd.
  assert (∀ p, p ∈ ready s → is_Some (requests (mx s) !! p)) as Hr by (intros p Hp; by apply (mo_ready _ Hok)).
  destruct (in_progress m) eqn:Hp.
  - split; [by eapply cleared_shrinks|]. subst q'. cbn [called requests]. split; [done|]. intros _ p Hin%Hr.
    rewrite lookup_insert. by case_decide.
  - assert (pid ∉ (running (mx s)).*1) as Hk by (intros ?%(ok_busy _ _ _ Hmx); congruence).
    split; [|split].
    + subst q'. apply (cut_shrinks (mx s) pid m _ _ (running (mx s)) (called (mx s))); [done|done|by intros x [_ ?]%list_elem_of_filter|done..|].
      intros h' (i & _ & _ & Hin & _). apply Hk. by apply list_elem_of_fmap_2' with (pid, i).
    + subst q'. unfold destroy_if_empty. by case_match.
    + intros Hlast p Hin. specialize (Hr p Hin). subst q'. unfold destroy_if_empty. cbn [callbacks requests].
      destruct (decide (p = pid)) as [->|Hne].
      * destruct (Hlast Hin) as (h' & Hh' & (m' & cb & Hm' & Hin')). rewrite Hm in Hm'. injection Hm' as <-.
        destruct (filter _ _) eqn:E; cbn [requests]; [|by rewrite lookup_insert_eq].
        assert ((h', Some cb) ∈ filter (λ c : nat * option unit, c.1 ≠ h) (callbacks m)) as Hf by by apply list_elem_of_filter.
        rewrite E in Hf. by apply elem_of_nil in Hf.
      * destruct (filter _ _); cbn [requests]; [by rewrite lookup_delete_ne|by rewrite lookup_insert_ne].
Qed.

Lemma mx_step_quiet a s q' : act_step (mx s) a = Ret q' → called q' = called (mx s) →
  mx_step a s = Ret (mk_meta (modules s) q' (filter (λ x, x.1 ∉ released q') (underway s)) (ready s) (fetches s) (asked s) (requested s)
    (stored s) (served s)).
Proof using Type. intros Ha Hc. unfold mx_step. rewrite Ha. cbn [mbind result_bind]. rewrite Hc, drop_all. cbn [fold_m mbind result_bind]. by rewrite app_nil_r. Qed.

Lemma mx_step_calls a s q' k c d : act_step (mx s) a = Ret q' → modules s !! k = Some d →
  called q' = called (mx s) ++ (match c.2 with Some _ => [(k, c.1)] | None => [] end) →
  mx_step a s = Ret (mk_meta (modules s) q' (filter (λ x, x.1 ∉ released q') (underway s)) (ready s) (fetches s) (asked s) (requested s)
    (stored s) (served s ++ calls_of c d)).
Proof using Type.
  intros Ha Hd Hc. unfold mx_step. rewrite Ha. cbn [mbind result_bind]. rewrite Hc, drop_app_length. unfold calls_of, told.
  destruct c.2; cbn [fold_m fst snd mbind result_bind]; [rewrite Hd|]; done.
Qed.

Lemma underway_kept s : metadata_ok s → filter (λ x : nat * stage, x.1 ∉ released (mx s)) (underway s) = underway s.
Proof using Type. intros Hok. apply map_filter_id. intros u st (p & Hp & _)%(mo_underway _ Hok). by apply (mo_holds _ Hok p). Qed.

Lemma after_suffix i (cs r : list (nat * option unit)) : after i cs = Some r → ∃ pre cb, cs = pre ++ (i, cb) :: r.
Proof using Type.
  induction cs as [|[j cb] cs IH]; [done|]. cbn. case_decide as Hj; [intros [= <-]; subst j; by exists [], cb|].
  intros (pre & cb' & ->)%IH. by exists ((j, cb) :: pre), cb'.
Qed.

Lemma ahead_loop k i h m r (q : reqm_state (K := Z) (C := unit)) : reqm_ok q → (k, i) ∈ running q → requests q !! k = Some m →
  after i (callbacks m) = Some r → ahead k h q ↔ h ∈ r.*1.
Proof using Type.
  intros Hq Hi Hm Ha. rewrite ahead_left by done. split.
  - intros (j & Hj & Hh). rewrite (loop_unique q k j i Hq Hj Hi) in Hh. unfold left_of in Hh. by rewrite Hm, Ha in Hh.
  - intros Hh. exists i. split; [done|]. unfold left_of. by rewrite Hm, Ha.
Qed.

(** A loop that runs in [q'] for another module than [k] is that of [q]. *)
Lemma ahead_other k p h (q q' : reqm_state (K := Z) (C := unit)) : p ≠ k → requests q' !! p = requests q !! p →
  (∀ i, (p, i) ∈ running q' ↔ (p, i) ∈ running q) → ahead p h q' ↔ ahead p h q.
Proof using Type. intros Hp Hm Hr. unfold ahead. setoid_rewrite Hm. by setoid_rewrite Hr. Qed.

Lemma next_comes k i rest m c r s : metadata_ok s → running (mx s) = (k, i) :: rest → requests (mx s) !! k = Some m →
  after i (callbacks m) = Some (c :: r) → reqm_ok (run_callback k c rest (mx s)) → comes_to k c s (run_callback k c rest (mx s)) (ready s).
Proof using Type.
  intros Hok Hr Hm Ha Hq'. pose proof (mo_reqm _ Hok) as Hq. destruct (after_suffix _ _ _ Ha) as (pre & cb & Hcs).
  pose proof (ok_distinct _ _ _ (ok_entries _ Hq _ _ Hm)) as Hnd. unfold ids in Hnd.
  assert (after c.1 (callbacks m) = Some r) as Ha'.
  { rewrite Hcs, cons_middle, app_assoc in *. destruct c as [j o]. by apply after_split. }
  assert (c.1 ∉ r.*1) as Hc by (rewrite Hcs, fmap_app, !fmap_cons in Hnd; by apply NoDup_app in Hnd as (_ & _ & [_ [? _]%NoDup_cons]%NoDup_cons)).
  assert (∀ h, ahead k h (mx s) ↔ h = c.1 ∨ h ∈ r.*1) as H1.
  { intros h. erewrite ahead_loop; [|done|rewrite Hr; by left|done|done]. rewrite fmap_cons. by rewrite elem_of_cons. }
  assert (∀ h, ahead k h (run_callback k c rest (mx s)) ↔ h ∈ r.*1) as H2.
  { intros h. by eapply ahead_loop; [done|by left|done|]. }
  assert (∀ p h, p ≠ k → ahead p h (run_callback k c rest (mx s)) ↔ ahead p h (mx s)) as Hother.
  { intros p h Hp. apply (ahead_other k); [done|done|]. intros j. rewrite Hr. cbn [running run_callback]. rewrite !elem_of_cons.
    split; (intros [[= ??]|?]; [done|by right]). }
  assert (k ∉ ready s) as Hk by (intros Hin; apply (mo_ready _ Hok) in Hin as [_ Hn]; apply Hn; rewrite Hr; by left).
  split; cbn [next_handle released requests].
  - done.
  - done.
  - done.
  - done.
  - split; [apply (mo_ready _ Hok)|done].
  - cbn. rewrite Hr. intros p [->|Hp]%elem_of_cons; [by left|right]. by right.
  - exists m. split; [done|]. rewrite Hcs. apply elem_of_app. right. right. by left.
  - right. right. apply H1. by left.
  - intros p h Hd. destruct (decide (p = k)) as [->|Hp]; [|rewrite Hother in Hd by done; done].
    destruct Hd as [?|Hd%H2]; [done|]. split; [right; apply H1; by right|]. by intros _ ->.
  - intros p h Hd _. destruct (decide (p = k)) as [->|Hp]; [|rewrite Hother by done; destruct Hd; auto].
    destruct Hd as [?|[->|Hd]%H1]; [done|by right; right|]. right. left. by apply H2.
Qed.

Lemma loop_next_ok s : metadata_ok s → running (mx s) ≠ [] → ∃ s', mx_step a_next s = Ret s' ∧ metadata_ok s'.
Proof using Type.
  intros Hok Hne. pose proof (mo_reqm _ Hok) as Hq. destruct (invoke_next_ok (mx s) Hq Hne) as (q' & Hn & Hq').
  unfold invoke_next in Hn. destruct (running (mx s)) as [|[k i] rest] eqn:Hr; [done|].
  destruct (requests (mx s) !! k) as [m|] eqn:Hm; [|done]. destruct (after i (callbacks m)) as [[|c r]|] eqn:Ha; [..|done]; apply Ret_inj in Hn.
  - exists (mk_meta (modules s) q' (filter (λ x, x.1 ∉ released q') (underway s)) (ready s) (fetches s) (asked s) (requested s)
      (stored s) (served s)). split.
    + apply mx_step_quiet; [|by rewrite <- Hn; apply exit_called]. cbn. unfold invoke_next. by rewrite Hr, Hm, Ha, Hn.
    + pose proof (ok_nested _ Hq) as Hnd. rewrite Hr in Hnd. apply NoDup_cons in Hnd as [Hk _].
      assert (shrinks (mx s) q') as Hs.
      { subst q'. apply (cut_shrinks (mx s) k m); [done|done| |rewrite Hr; by right| |done|].
        - destruct (require_cleanup m); [|done]. by intros x [_ ?]%list_elem_of_filter.
        - intros p j Hin Hp. rewrite Hr in Hin. apply elem_of_cons in Hin as [[= -> ->]|?]; done.
        - intros h Hah. rewrite (ahead_loop k i h m []) in Hah by (rewrite ?Hr; done || by left). by apply elem_of_nil in Hah. }
      apply shrunk_ok; [done|done|]. intros p Hp. destruct (mo_ready _ Hok) as [_ Hrd]. destruct (Hrd p Hp) as [[mp Hmp] Hrun].
      assert (p ≠ k) as Hpk by (intros ->; apply Hrun; rewrite Hr; by left). subst q'. unfold exit_invocation, destroy_if_empty.
      case_match; cbn; [rewrite lookup_delete_ne by done|rewrite lookup_insert_ne by done]; by exists mp.
  - destruct (mo_present _ Hok k) as [d Hd]; [right; rewrite Hr; by left|]. subst q'.
    pose proof (next_comes k i rest m c r s Hok Hr Hm Ha Hq') as Hc. pose proof (came_ok k c d s _ _ Hok Hd Hc) as Hok'.
    eexists. split; [|exact Hok']. rewrite (mx_step_calls a_next s (run_callback k c rest (mx s)) k c d); [|cbn; unfold invoke_next; by rewrite Hr, Hm, Ha|done|].
    + cbn [released run_callback]. by rewrite underway_kept.
    + unfold run_callback. cbn. destruct c.2; [done|by rewrite app_nil_r].
Qed.

Lemma invoke_comes k rest m c cs s q' : metadata_ok s → ready s = k :: rest → requests (mx s) !! k = Some m → callbacks m = c :: cs →
  reqm_ok q' → q' = run_callback k c (running (mx s)) (mk_reqm (<[k := mk_mx (c :: cs) true (require_cleanup m) (underlying m)]> (requests (mx s)))
    (running (mx s)) (called (mx s)) (next_handle (mx s)) (released (mx s))) → comes_to k c s q' rest.
Proof using Type.
  intros Hok Hrd Hm Hcs Hq' E. pose proof (mo_reqm _ Hok) as Hq. destruct (mo_ready _ Hok) as [Hnd Hr]. rewrite Hrd in Hnd.
  apply NoDup_cons in Hnd as [Hk Hnd].
  assert (∀ j, (k, j) ∉ running (mx s)) as Hnot.
  { intros j Hin. apply (Hr k); [rewrite Hrd; by left|]. by apply list_elem_of_fmap_2' with (k, j). }
  pose proof (ok_distinct _ _ _ (ok_entries _ Hq _ _ Hm)) as Hids. unfold ids in Hids. rewrite Hcs, fmap_cons in Hids. apply NoDup_cons in Hids as [Hc _].
  assert (∀ h, ahead k h q' ↔ h ∈ cs.*1) as H1.
  { intros h. eapply (ahead_loop k c.1); [done|subst q'; by left|subst q'; cbn; by rewrite lookup_insert_eq|]. cbn. by rewrite decide_True. }
  assert (∀ p h, p ≠ k → ahead p h q' ↔ ahead p h (mx s)) as Hother.
  { intros p h Hp. apply (ahead_other k); [done|subst q'; cbn; by rewrite lookup_insert_ne|]. intros j. subst q'. cbn [running run_callback].
    rewrite elem_of_cons. split; [intros [[= ??]|?]; done|by right]. }
  assert (∀ h, ¬ ahead k h (mx s)) as Hnone by (intros h (j & _ & _ & Hin & _); by apply (Hnot j)).
  split.
  - done.
  - by subst q'.
  - by subst q'.
  - intros p. subst q'. cbn [requests run_callback]. rewrite lookup_insert. case_decide as Hp; [|done]. subst p. rewrite Hm. cbn. by rewrite Hcs.
  - split_and!; [done|rewrite Hrd; by right|done].
  - by subst q'.
  - exists m. split; [done|]. rewrite Hcs. by left.
  - right. left. rewrite Hrd. by left.
  - intros p h Hd. destruct (decide (p = k)) as [->|Hp].
    + destruct Hd as [?|Hd%H1]; [done|]. split; [left; rewrite Hrd; by left|]. by intros _ ->.
    + rewrite Hother in Hd by done. rewrite Hrd, elem_of_cons. split; [destruct Hd; auto|done].
  - intros p h Hd Hl. destruct (decide (p = k)) as [->|Hp].
    + right. rewrite H1. destruct (live_ids _ _ _ Hl) as (m' & Hm' & Hh). subst q'. cbn in Hm'. rewrite lookup_insert_eq in Hm'.
      injection Hm' as <-. apply elem_of_cons in Hh as [->|Hh]; auto.
    + rewrite Hother by done. rewrite Hrd, elem_of_cons in Hd. destruct Hd as [[?|?]|?]; [done|by left|by right; left].
Qed.

Lemma invoke_waiting_ok s : metadata_ok s → ∃ s', invoke_waiting s = Ret s' ∧ metadata_ok s'.
Proof using Type.
  intros Hok. unfold invoke_waiting. destruct (ready s) as [|k rest] eqn:Hrd; [by exists s|].
  pose proof (mo_reqm _ Hok) as Hq. destruct (mo_ready _ Hok) as [_ Hr]. destruct (Hr k) as [[m Hm] Hk]; [rewrite Hrd; by left|].
  destruct (mo_present _ Hok k) as [d Hd]; [left; rewrite Hrd; by left|].
  destruct (invoke_ok k (mx s) Hq) as (q' & Hi & Hq'); [by exists m|done|]. pose proof Hi as E. unfold invoke in E. rewrite Hm in E. apply Ret_inj in E.
  pose proof (ok_entries _ Hq _ _ Hm) as Hmx. destruct (callbacks m) as [|c cs] eqn:Hcs; [by destruct (ok_nonempty _ _ _ Hmx)|].
  pose proof (invoke_comes k rest m c cs s q' Hok Hrd Hm Hcs Hq' (eq_sym E)) as Hc. pose proof (came_ok k c d s _ _ Hok Hd Hc) as Hok'.
  eexists. split; [|exact Hok'].
  rewrite (mx_step_calls (a_invoke k) _ q' k c d); cbn [mx modules underway ready fetches asked requested stored served]; [| done..|].
  - rewrite (ct_released _ _ _ _ _ Hc). by rewrite underway_kept.
  - rewrite <- E. unfold run_callback. cbn. destruct c.2; [done|by rewrite app_nil_r].
Qed.

(** A step that is allowed is defined, and preserves what is true of every state. *)
Lemma me_step_ok s e : metadata_ok s → me_allowed s e → ∃ s', me_step s e = Ret s' ∧ metadata_ok s'.
Proof using Type.
  intros Hok. destruct e as [cached pid|pid h|u m|u d| |]; cbn [me_step me_allowed]; intros Ha.
  - destruct (request_joined cached pid s Hok) as (um & uw & f & sv & rq & -> & Hj). eexists. split; [done|]. by apply joined_ok.
  - destruct Ha as [Hl Hlast]. destruct (release_shrinks s pid h Hok Hl) as (q' & Hd & Hs & Hc & Hr). eexists. split; [by apply mx_step_quiet|].
    apply shrunk_ok; [done|done|by apply Hr].
  - eexists. split; [done|]. by apply on_cache_read_ok.
  - eexists. split; [done|]. by apply on_metadata_ok.
  - by apply invoke_waiting_ok.
  - by apply loop_next_ok.
Qed.

Lemma me_reachable_ok s : me_reachable s → metadata_ok s.
Proof using Type.
  induction 1 as [|s e s' _ IH Ha Hs]; [apply new_metadata_ok|]. destruct (me_step_ok s e IH Ha) as (s1 & Hs1 & Hok). congruence.
Qed.

(** ** Fetches *)

(** A fetch asks the process once at most, and not while the file is read; what goes to the cache comes from the
    process, and goes there once. *)
Record fetched_ok (s : metadata_state) : Prop := {
  fo_bound u st : underway s !! u = Some st → u < length (fetches s);
  fo_requested : NoDup (requested s) ∧ ∀ u, u ∈ requested s → u < length (fetches s) ∧ underway s !! u ≠ Some reading;
  fo_remote u store : underway s !! u = Some (remote store) → u ∈ requested s;
  fo_stored : NoDup (stored s) ∧ ∀ u, u ∈ stored s → u ∈ requested s ∧ underway s !! u = None
}.

(** Fetches may go, and nothing else changes. *)
Lemma fetched_fewer s s' : fetched_ok s → underway s' ⊆ underway s → length (fetches s) ≤ length (fetches s') →
  requested s' = requested s → stored s' = stored s → fetched_ok s'.
Proof using Type.
  intros [Hb [Hn Hr] Hm [Hs Hst]] Hu Hf Er Es. rewrite map_subseteq_spec in Hu. split; rewrite ?Er, ?Es.
  - intros u st H%Hu%Hb. lia.
  - split; [done|]. intros u [? Hne]%Hr. split; [lia|]. by intros ?%Hu.
  - intros u store H%Hu. by apply (Hm u store).
  - split; [done|]. intros u [? Hne]%Hst. split; [done|]. apply eq_None_not_Some. intros [st Hv%Hu]. congruence.
Qed.

Lemma mx_step_fetches a s s' : mx_step a s = Ret s' →
  underway s' ⊆ underway s ∧ fetches s' = fetches s ∧ requested s' = requested s ∧ stored s' = stored s.
Proof using Type.
  intros Hs. unfold mx_step in Hs. destruct (act_step (mx s) a) as [q| |]; [|done..]. cbn [mbind result_bind] in Hs.
  destruct (fold_m _ _ _) as [calls| |]; [|done..]. apply Ret_inj in Hs as <-. split; [apply map_filter_subseteq|done].
Qed.

Lemma mx_step_fetched a s s' : mx_step a s = Ret s' → fetched_ok s → fetched_ok s'.
Proof using Type.
  intros (Hu & Hf & Hr & Hs)%mx_step_fetches Hok. apply (fetched_fewer s); [done..| |done|done]. by rewrite Hf.
Qed.

(** The process is asked by a fetch that has not asked yet. *)
Lemma remote_fetched store u pid s : fetched_ok s → u < length (fetches s) → u ∉ requested s → fetched_ok (request_metadata_nw store u pid s).
Proof using Type.
  intros [Hb [Hn Hr] Hm [Hs Hst]] Hu Hnew. split; cbn [request_metadata_nw underway fetches requested stored].
  - intros v st. rewrite lookup_insert. case_decide; [by subst|by apply Hb].
  - split; [apply NoDup_app; split_and!; [done| |apply NoDup_singleton]; by intros v Hv ->%list_elem_of_singleton|].
    intros v. rewrite lookup_insert. intros [Hv|Hv%list_elem_of_singleton]%elem_of_app; [|subst v; by rewrite decide_True].
    case_decide; [by subst|by apply Hr].
  - intros v st. rewrite lookup_insert. case_decide as Hv; [subst v; intros _; set_solver|]. intros Hv'%Hm. apply elem_of_app. by left.
  - split; [done|]. intros v [Hv Hnone]%Hst. split; [apply elem_of_app; by left|]. rewrite lookup_insert. case_decide; [by subst|done].
Qed.

(** A fetch begins. *)
Lemma begun_fetched cached u pid s : fetched_ok s → S u = length (fetches s) → underway s !! u = None → u ∉ requested s →
  fetched_ok (request_metadata_nw_cached cached u pid s).
Proof using Type.
  intros Hf Hu Hnone Hnew. unfold request_metadata_nw_cached. destruct cached; [|apply remote_fetched; [done|lia|done]].
  destruct Hf as [Hb [Hn Hr] Hm [Hs Hst]]. split; cbn [underway fetches requested stored].
  - intros v st. rewrite lookup_insert. case_decide; [lia|by apply Hb].
  - split; [done|]. intros v Hv. rewrite lookup_insert. case_decide; [by subst|by apply Hr].
  - intros v st. rewrite lookup_insert. case_decide as Hv; [done|by apply Hm].
  - split; [done|]. intros v [Hv Hno]%Hst. split; [done|]. rewrite lookup_insert. case_decide; [by subst|done].
Qed.

Lemma fill_fetched u pid d store st s : fetched_ok s → underway s !! u = Some st → (store = true → st = remote true) →
  fetched_ok (fill_record u pid d store s).
Proof using Type.
  intros [Hb [Hn Hr] Hm [Hs Hst]] Hu Hstore. split; cbn [fill_record underway fetches requested stored].
  - intros v st' [_ ?]%lookup_delete_Some. by eapply Hb.
  - split; [done|]. intros v [? Hne]%Hr. split; [done|]. rewrite lookup_delete. by case_decide.
  - intros v st' [_ ?]%lookup_delete_Some. by eapply Hm.
  - assert (∀ v, v ∈ stored s → v ∈ requested s ∧ delete u (underway s) !! v = None ∧ v ≠ u) as Hold.
    { intros v [? Hno]%Hst. split_and!; [done| |by intros ->; congruence]. rewrite lookup_delete. by case_decide. }
    destruct store; [|split; [done|]; by intros v Hv; destruct (Hold v Hv) as (? & ? & _)]. specialize (Hstore eq_refl). subst st. split.
    + apply NoDup_app. split_and!; [done| |apply NoDup_singleton]. intros v (_ & _ & ?)%Hold ?%list_elem_of_singleton. done.
    + intros v [(? & ? & _)%Hold|Hv%list_elem_of_singleton]%elem_of_app; [done|]. subst v. rewrite lookup_delete_eq. split; [by eapply Hm|done].
Qed.

Lemma request_fetched cached pid s s' : request_metadata cached pid s = Ret s' → fetched_ok s → fetched_ok s'.
Proof using Type.
  intros Hs Hok. unfold request_metadata in Hs. destruct (mx_create pid () (mx s)) as [[first h] q].
  cbn [modules mx underway ready fetches asked requested stored served] in Hs.
  destruct (modules s !! pid); [apply Ret_inj in Hs as <-; by apply (fetched_fewer s)|].
  destruct first; [|apply Ret_inj in Hs as <-; by apply (fetched_fewer s)].
  destruct (mx_step _ _) as [s1| |] eqn:E; [|done..]. cbn [mbind result_bind] in Hs. apply Ret_inj in Hs as <-.
  apply mx_step_fetches in E as (Hu & Hf & Hr & Hst). cbn [underway fetches requested stored] in *.
  apply begun_fetched.
  - apply (fetched_fewer s); [done..| |done|done]. rewrite Hf, length_app. lia.
  - rewrite Hf, length_app. cbn. lia.
  - apply eq_None_not_Some. intros [st Hv]. rewrite map_subseteq_spec in Hu. apply Hu in Hv. apply (fo_bound _ Hok) in Hv. lia.
  - rewrite Hr. intros [? _]%(fo_requested _ Hok). lia.
Qed.

Lemma me_step_fetched s e s' : me_step s e = Ret s' → fetched_ok s → fetched_ok s'.
Proof using Type.
  intros Hs Hok. destruct e as [cached pid|pid h|u m|u d| |]; cbn [me_step] in Hs.
  - by eapply request_fetched.
  - by eapply mx_step_fetched.
  - apply Ret_inj in Hs as <-. unfold on_cache_read. destruct (underway s !! u) as [[|store]|] eqn:Hu; [|done..].
    destruct (fetches s !! u) as [[pid h0]|] eqn:Hf; [|done]. destruct m; [by eapply fill_fetched|].
    apply remote_fetched; [done|by apply lookup_lt_Some in Hf|]. intros [_ ?]%(fo_requested _ Hok). done.
  - apply Ret_inj in Hs as <-. unfold on_metadata. destruct (underway s !! u) as [[|store]|] eqn:Hu; [done| |done].
    destruct (fetches s !! u) as [[pid h0]|] eqn:Hf; [|done]. eapply fill_fetched; [done|done|]. by intros ->.
  - unfold invoke_waiting in Hs. destruct (ready s); [by apply Ret_inj in Hs as <-|]. eapply mx_step_fetched; [done|]. by apply (fetched_fewer s).
  - by eapply mx_step_fetched.
Qed.

Lemma me_reachable_fetched s : me_reachable s → fetched_ok s.
Proof using Type.
  induction 1 as [|s e s' _ IH _ Hs]; [|by eapply me_step_fetched]. split; cbn.
  - intros u st. by rewrite lookup_empty.
  - split; [constructor|]. by intros u ?%elem_of_nil.
  - intros u st. by rewrite lookup_empty.
  - split; [constructor|]. by intros u ?%elem_of_nil.
Qed.

(** A fetch is made for a module when nobody who asked for it before still has his request. *)
Definition fetched_once (s : metadata_state) : Prop :=
  (∀ v pid h0 h, fetches s !! v = Some (pid, h0) → h < h0 → ¬ live pid h (mx s)) ∧
  (∀ v w pid h1 h2, is_Some (underway s !! v) → is_Some (underway s !! w) → fetches s !! v = Some (pid, h1) →
    fetches s !! w = Some (pid, h2) → v = w ∧ modules s !! pid = None) ∧
  NoDup (requested s) ∧ NoDup (stored s) ∧ stored s ⊆ requested s.

(** C31: The metadata of a module are fetched once for all who ask, and given to each of them.  For any sequence of
    requests, releases (by callbacks that are being called, too), answers of the process and files read, every step is
    defined, and: a fetch is not begun for a module while somebody who asked for it before has not released his request,
    nor for a module that is in the database; it asks the process once at most, and what is written to the cache has
    come from the process, once.  Whoever has not released his request was not called while his module is absent, and a
    fetch of it is under way then; when it is there, he has been called or is among those about to be.  Callbacks are
    given the metadata in the database, and nobody is called more than once, except that who asked while the callbacks
    of the same module were being called may be called twice.  This takes that a handle is released once, and that the
    last one of a module is not released by those who hear of the change in the database, before the callbacks are
    called. *)
Theorem metadata_served s : me_reachable s →
  (∀ e, me_allowed s e → ∃ s', me_step s e = Ret s') ∧ fetched_once s ∧
  (∀ pid h, live pid h (mx s) → ∃ nested, asked s !! h = Some (pid, nested) ∧
    match modules s !! pid with
    | None => times h s = 0 ∧ ∃ u st h0, underway s !! u = Some st ∧ fetches s !! u = Some (pid, h0)
    | Some _ => times h s ≠ 0 ∨ pid ∈ ready s ∨ ahead pid h (mx s)
    end) ∧
  (∀ h d, (h, d) ∈ served s → ∃ pid nested, asked s !! h = Some (pid, nested) ∧ modules s !! pid = Some d) ∧
  (∀ h pid (nested : bool), asked s !! h = Some (pid, nested) → times h s ≤ if nested then 2 else 1).
Proof using Type.
  intros Hr. pose proof (me_reachable_ok s Hr) as Hok. pose proof (me_reachable_fetched s Hr) as Hf. split_and!.
  - intros e He. destruct (me_step_ok s e Hok He) as (s' & Hs & _). eauto.
  - split_and!; [..|apply Hf|apply Hf|by intros u [? _]%(fo_stored _ Hf)].
    + intros v pid h0 h Hv Hh. by apply (mo_fetches _ Hok v pid h0).
    + intros v w pid h1 h2 [st1 Hv] [st2 Hw] Hfv Hfw. destruct (mo_underway _ Hok v st1 Hv) as (p & Hp & Hm).
      destruct (mo_underway _ Hok w st2 Hw) as (p2 & Hp2 & _). destruct (mo_holds _ Hok p v Hp) as [_ [x Hx]].
      destruct (mo_holds _ Hok p2 w Hp2) as [_ [y Hy]]. simplify_eq. done.
  - intros pid h Hl. destruct (live_owner s pid h Hok Hl) as [b Hb]. exists b. split; [done|].
    destruct (live_ids _ _ _ Hl) as (m & Hm & Hh). destruct (modules s !! pid) as [d|] eqn:Hd.
    + destruct (mo_called _ Hok pid h Hl) as [?|[?|?]]; [left; lia|congruence|by right].
    + split.
      * pose proof (mo_due _ Hok pid m h b Hm Hh (or_introl Hd) Hb) as Ht. destruct b; [|cbn in Ht; lia].
        destruct (mo_nested _ Hok h pid Hb) as [x Hx]. congruence.
      * destruct (mo_absent _ Hok pid m Hm Hd) as (u & st & Hu & Hst). destruct (mo_holds _ Hok pid u) as [_ [h0 Hf0]].
        { unfold holds. rewrite Hm. done. }
        eauto.
  - apply (mo_data _ Hok).
  - intros h pid b Ha. pose proof (mo_times _ Hok h pid b Ha). destruct b; cbn in *; lia.
Qed.
End metadata.

(** ** A run: two ask for a module whose file is missing; while the first is called, he releases his request, and a
    third asks *)

Definition me_run (s : metadata_state (D := Z)) (es : list metadata_event) : result metadata_state := fold_m me_step s es.

Definition demo_events : list (metadata_event (D := Z)) :=
  [me_request true 5%Z; me_request true 5%Z; me_file 0 None; me_answer 0 50%Z; me_invoke; me_request true 5%Z; me_release 5%Z 0; me_next].

Definition demo_metadata : metadata_state (D := Z) := match me_run new_metadata demo_events with Ret s => s | _ => new_metadata end.

Example demo_metadata_called : served demo_metadata = [(0, 50%Z); (2, 50%Z); (1, 50%Z)] ∧ fetches demo_metadata = [(5%Z, 0)] ∧
  requested demo_metadata = [0] ∧ stored demo_metadata = [0].
Proof. by vm_compute. Qed.

(** Who asks while the callbacks of the module are being called is called at once, as the module is there, and again by
    the loop, which comes to his callback, too. *)
Lemma nested_request_called_twice : ∃ s : metadata_state (D := Z),
  me_run new_metadata [me_request false 5%Z; me_answer 0 50%Z; me_invoke; me_request false 5%Z; me_next] = Ret s ∧
  served s = [(0, 50%Z); (1, 50%Z); (1, 50%Z)].
Proof. eexists. by vm_compute. Qed.

(** Who hears that the metadata are in the database and releases the last request of the module takes away what is
    called next. *)
Lemma released_by_listener : me_run (new_metadata (D := Z)) [me_request false 5%Z; me_answer 0 50%Z; me_release 5%Z 0; me_invoke] = UB.
Proof. by vm_compute. Qed.

(** Whether an event of a run is allowed can be decided where the handles are numbers of a list. *)
Definition live_b (pid : Z) (h : nat) (s : metadata_state (D := Z)) : bool :=
  match requests (mx s) !! pid with Some m => bool_decide ((h, Some ()) ∈ callbacks m) | None => false end.

Definition allowed_b (s : metadata_state (D := Z)) (e : metadata_event (D := Z)) : bool :=
  match e with
  | me_release pid h => live_b pid h s && (negb (bool_decide (pid ∈ ready s)))
  | me_next => negb (bool_decide (running (mx s) = []))
  | _ => true
  end.

Lemma allowed_b_sound s e : allowed_b s e = true → me_allowed s e.
Proof.
  destruct e as [| pid h| | | |]; cbn; try done.
  - intros [Hl Hn]%andb_prop. unfold live_b in Hl. destruct (requests (mx s) !! pid) as [m|] eqn:Hm; [|done].
    apply bool_decide_eq_true in Hl. apply negb_true_iff, bool_decide_eq_false in Hn. split; [by exists m, ()|done].
  - intros Hn. by apply negb_true_iff, bool_decide_eq_false in Hn.
Qed.

Fixpoint run_allowed (s : metadata_state (D := Z)) (es : list (metadata_event (D := Z))) : bool :=
  match es with
  | [] => true
  | e :: es => allowed_b s e && match me_step s e with Ret s => run_allowed s es | _ => false end
  end.

Lemma run_reachable es : ∀ s s', me_reachable s → run_allowed s es = true → me_run s es = Ret s' → me_reachable s'.
Proof.
  induction es as [|e es IH]; intros s s' Hr Ha Hs; cbn in Ha, Hs; [by injection Hs as <-|].
  apply andb_prop in Ha as [Ha Hes]. destruct (me_step s e) as [s1| |] eqn:E; [|done..]. apply (IH s1); [|done|done].
  eapply mr_step; [done|by apply allowed_b_sound|done].
Qed.

Lemma demo_metadata_reachable : me_reachable demo_metadata.
Proof. apply (run_reachable demo_events new_metadata); [apply mr_init|by vm_compute|by vm_compute]. Qed.

Lemma metadata_served_witness : fetched_once demo_metadata ∧ times 2 demo_metadata ≤ 2.
Proof.
  destruct (metadata_served demo_metadata demo_metadata_reachable) as (_ & Hf & _ & _ & Ht). split; [apply Hf|].
  apply (Ht 2 5%Z true). by vm_compute.
Defined.
