(* ===== verification/Columns.v ===== *)
(** The columns of the windows (frontend/helpers.h, common/path.h, frontend/model_context.h,
    frontend/column_definition.h, frontend/src/columns_layout.cpp).

    A column has a text and may have an order and a value.  The orders are three-way comparisons;
    [Models] sorts a tree by them, which is defined when they are consistent on what is sorted.
    Numbers of floating point, and what is printed of them, are parameters. *)

From S2P Require Import Prelude Statistics Strings Logger Threads Sdb Hierarchy Views Models Symbols.
Local Open Scope Z_scope.

(** * Comparisons *)

(** [frontend/helpers.h:35-37] compare *)
Definition compare_values (lhs rhs : Z) : Z := if lhs =? rhs then 0 else if lhs <? rhs then -1 else 1.

(** [frontend/helpers.h:39-41] compare. Of pointers: whether there is something. *)
Definition compare_pointers {A} (lhs rhs : option A) : Z :=
  match lhs, rhs with
  | None, None | Some _, Some _ => 0
  | None, Some _ => -1
  | Some _, None => 1
  end.

(** [frontend/helpers.h:43-45] compare. Of quotients: a signed numerator is converted to the unsigned type of the
    denominator of the other side, and so are the products. *)
Definition compare_ratios (lhs lhs_denominator rhs rhs_denominator : Z) : Z :=
  if Bool.eqb (lhs_denominator =? 0) (rhs_denominator =? 0)
  then compare_values (u64 (lhs * rhs_denominator)) (u64 (rhs * lhs_denominator))
  else if rhs_denominator =? 0 then -1 else 1.

(** Of texts, by their characters. *)
Fixpoint compare_texts (lhs rhs : list Z) : Z :=
  match lhs, rhs with
  | [], [] => 0
  | [], _ => -1
  | _, [] => 1
  | a :: lhs, b :: rhs => if a =? b then compare_texts lhs rhs else if a <? b then -1 else 1
  end.

(** What the C library does: texts end at their first zero, and a text comes before what continues it. *)
Definition strcmp (lhs rhs : list Z) : Z := compare_texts (c_str lhs) (c_str rhs).

(** ** They are orders *)

Lemma compare_values_laws {T} (valid : T → Prop) (f : T → Z) :
  comparison_laws valid (λ a b, compare_values (f a) (f b)).
Proof.
  unfold compare_values. split; intros *; intros _ _;
    [|intros _]; repeat case_match; lia.
Qed.

Lemma compare_ext_laws {T} (valid : T → Prop) (f g : T → T → Z) :
  (∀ a b, g a b = f a b) → comparison_laws valid f → comparison_laws valid g.
Proof.
  intros E [H1 H2]. split.
  - intros a b. rewrite !E. apply H1.
  - intros a b c. rewrite !E. apply H2.
Qed.

Lemma compare_texts_sign a : ∀ b, compare_texts a b = - compare_texts b a.
Proof.
  induction a as [|x a IH]; intros [|y b]; simpl; [done..|]. rewrite Z.eqb_sym.
  destruct (Z.eqb_spec y x); [by rewrite IH|]. repeat case_match; lia.
Qed.

Lemma compare_texts_transitive a : ∀ b c, compare_texts a b ≤ 0 → compare_texts b c ≤ 0 → compare_texts a c ≤ 0.
Proof.
  induction a as [|x a IH]; intros [|y b] [|z c]; simpl; try lia.
  repeat match goal with
    | |- context [?u =? ?v] => destruct (Z.eqb_spec u v); subst
    | |- context [?u <? ?v] => destruct (Z.ltb_spec u v); subst
    end; try lia; eauto.
Qed.

Lemma compare_texts_laws {T} (valid : T → Prop) (f : T → list Z) :
  comparison_laws valid (λ a b, compare_texts (f a) (f b)).
Proof.
  split; intros *; intros _ _.
  - rewrite (compare_texts_sign (f a)). lia.
  - intros _. apply compare_texts_transitive.
Qed.

(** Two comparisons, the second where the first does not decide. *)
Lemma compare_then_laws {T} (valid : T → Prop) (f g : T → T → Z) :
  comparison_laws valid f → comparison_laws valid g →
  comparison_laws valid (λ a b, if negb (f a b =? 0) then f a b else g a b).
Proof.
  intros Lf Lg. split.
  - intros a b Ha Hb. pose proof (compare_flips (comparison_laws := Lf) a b Ha Hb).
    pose proof (compare_flips (comparison_laws := Lf) b a Hb Ha). pose proof (compare_flips (comparison_laws := Lg) a b Ha Hb).
    destruct (Z.eqb_spec (f a b) 0), (Z.eqb_spec (f b a) 0); simpl; lia.
  - intros a b c Ha Hb Hc.
    pose proof (compare_transitive (comparison_laws := Lf) a b c Ha Hb Hc).
    pose proof (compare_transitive (comparison_laws := Lf) c a b Hc Ha Hb).
    pose proof (compare_transitive (comparison_laws := Lf) b c a Hb Hc Ha).
    pose proof (compare_transitive (comparison_laws := Lg) a b c Ha Hb Hc).
    pose proof (compare_flips (comparison_laws := Lf) a b Ha Hb). pose proof (compare_flips (comparison_laws := Lf) b a Hb Ha).
    pose proof (compare_flips (comparison_laws := Lf) b c Hb Hc). pose proof (compare_flips (comparison_laws := Lf) c b Hc Hb).
    pose proof (compare_flips (comparison_laws := Lf) a c Ha Hc). pose proof (compare_flips (comparison_laws := Lf) c a Hc Ha).
    destruct (Z.eqb_spec (f a b) 0), (Z.eqb_spec (f b c) 0), (Z.eqb_spec (f a c) 0); simpl; lia.
Qed.

Lemma compare_pointers_laws {T A} (valid : T → Prop) (f : T → option A) :
  comparison_laws valid (λ a b, compare_pointers (f a) (f b)).
Proof. split; intros *; intros _ _; [|intros _]; unfold compare_pointers; repeat case_match; lia. Qed.

(** Where nothing wraps, quotients are compared, and what was never called comes last. *)
Definition ratio_order (a n b m : Z) : Z :=
  if (n =? 0) && (m =? 0) then 0 else if m =? 0 then -1 else if n =? 0 then 1 else Z.sgn (a * m - b * n).

Lemma compare_ratios_exact a n b m : 0 ≤ n → 0 ≤ m → 0 ≤ a * m < 2 ^ 64 → 0 ≤ b * n < 2 ^ 64 →
  compare_ratios a n b m = ratio_order a n b m.
Proof.
  intros Hn Hm Ha Hb. unfold compare_ratios, ratio_order, compare_values.
  rewrite !(uw_small 64 ltac:(lia)) by (unfold in_u; lia).
  destruct (Z.eqb_spec n 0) as [->|], (Z.eqb_spec m 0) as [->|]; simpl; [|done|done|].
  - rewrite !Z.mul_0_r. done.
  - destruct (Z.eqb_spec (a * m) (b * n)) as [->|]; [by rewrite Z.sub_diag|].
    destruct (Z.ltb_spec (a * m) (b * n)); [symmetry; apply Z.sgn_neg; lia|symmetry; apply Z.sgn_pos; lia].
Qed.

Lemma ratio_order_flips a n b m : ratio_order a n b m = - ratio_order b m a n.
Proof.
  unfold ratio_order. destruct (n =? 0), (m =? 0); simpl; [done..|]. rewrite <- Z.sgn_opp. f_equal. lia.
Qed.

Lemma ratio_order_transitive a n b m c k : 0 ≤ n → 0 ≤ m → 0 ≤ k →
  ratio_order a n b m ≤ 0 → ratio_order b m c k ≤ 0 → ratio_order a n c k ≤ 0.
Proof.
  unfold ratio_order. intros Hn Hm Hk.
  destruct (Z.eqb_spec n 0) as [->|], (Z.eqb_spec m 0) as [->|], (Z.eqb_spec k 0) as [->|]; simpl; try lia.
  assert (∀ x, Z.sgn x ≤ 0 ↔ x ≤ 0) as Hs by (intros x; destruct x; simpl; lia). rewrite !Hs.
  intros H1 H2. nia.
Qed.

(** * Paths of files *)

Definition is_separator (c : Z) : bool := (c =? 0x5C) || (c =? 0x2F).

(** What [find_last_of] finds: what is before the last separator, and what is behind it. *)
Fixpoint split_last (path : list Z) : option (list Z * list Z) :=
  match path with
  | [] => None
  | c :: path =>
    match split_last path with
    | Some (d, n) => Some (c :: d, n)
    | None => if is_separator c then Some ([], path) else None
    end
  end.

(** [common/path.h:27-35] operator & *)
Definition path_join (lhs rhs : list Z) : list Z :=
  match last lhs with
  | None => rhs
  | Some c => if is_separator c then lhs ++ rhs else lhs ++ [0x2F] ++ rhs
  end.

(** [common/path.h:45-54] operator ~ *)
Definition directory_of (path : list Z) : list Z :=
  match split_last path with Some (d, _) => d | None => [] end.

(** [common/path.h:56-63] operator * *)
Definition file_name (path : list Z) : list Z :=
  match split_last path with Some (_, n) => n | None => path end.

Lemma split_last_spec path :
  match split_last path with
  | Some (d, n) => ∃ c, is_separator c = true ∧ path = d ++ c :: n ∧ Forall (λ c, is_separator c = false) n
  | None => Forall (λ c, is_separator c = false) path
  end.
Proof.
  induction path as [|c path IH]; [constructor|]. simpl. destruct (split_last path) as [[d n]|].
  - destruct IH as (s & Hs & -> & Hn). by exists s.
  - destruct (is_separator c) eqn:E; [by exists c|by constructor].
Qed.

(** A name without separators is found behind what it was joined to. *)
Lemma file_name_join d n : Forall (λ c, is_separator c = false) n → file_name (path_join d n) = n.
Proof.
  intros Hn. assert (split_last n = None) as En.
  { induction Hn as [|x n Hx _ IH]; [done|]. simpl. by rewrite IH, Hx. }
  assert (∀ d c, is_separator c = true → split_last (d ++ c :: n) = Some (d, n)) as H.
  { clear d. intros d c Hc. induction d as [|x d IH]; simpl; [by rewrite En, Hc|by rewrite IH]. }
  unfold path_join, file_name. destruct (last d) as [c|] eqn:El; [|by rewrite En].
  destruct (is_separator c) eqn:Ec.
  - apply last_Some in El as [d' ->]. rewrite <- app_assoc. simpl. by rewrite H.
  - simpl. by rewrite (H d 0x2F).
Qed.

Lemma directory_join d n c : Forall (λ c, is_separator c = false) n → last d = Some c → is_separator c = false →
  directory_of (path_join d n) = d.
Proof.
  intros Hn Hl Hc. unfold path_join. rewrite Hl, Hc. unfold directory_of.
  pose proof (split_last_spec (d ++ [0x2F] ++ n)) as H. simpl in *.
  destruct (split_last (d ++ 0x2F :: n)) as [[d' n']|].
  - destruct H as (s & Hs & Heq & Hn'). clear Hl. revert d' Heq. induction d as [|x d IH]; intros [|y d'] Heq; simpl in *.
    + done.
    + injection Heq as <- Heq. exfalso. rewrite Heq in Hn. apply Forall_app in Hn as [_ Hn].
      apply Forall_cons in Hn as [Hs' _]. congruence.
    + injection Heq as -> Heq. exfalso. rewrite <- Heq in Hn'. apply Forall_app in Hn' as [_ Hn'].
      apply Forall_cons in Hn' as [Hs' _]. done.
    + injection Heq as <- Heq. f_equal. by apply IH.
  - exfalso. apply Forall_app in H as [_ H]. apply Forall_cons in H as [H _]. done.
Qed.

(** * Columns *)

(** Numbers of floating point and what is printed of them: the values that charts show, not what is
    sorted by. *)
Class doubles (D : Type) := {
  of_s64 : Z → D;
  of_u64 : Z → D;
  times : D → D → D;
  over : D → D → D;
  zero_value : D;
  interval_text : D → list Z;
  general_text : D → list Z
}.

Inductive text_alignment := align_near | align_center | align_far.

(** [frontend/column_definition.h:28-39] column_definition. The caption is its text without the styles. *)
Record column (V W D : Type) := mk_layout {
  column_id : string;
  caption : string;
  width : Z;
  alignment : text_alignment;
  definition : column_definition (V := V) (W := W) (D := D) (Text := result (list Z));
  ascending : bool
}.
#[global] Arguments mk_layout {V W D}.
#[global] Arguments column_id {V W D}.
#[global] Arguments caption {V W D}.
#[global] Arguments width {V W D}.
#[global] Arguments alignment {V W D}.
#[global] Arguments definition {V W D}.
#[global] Arguments ascending {V W D}.

Section columns.
Context {D : Type} `{doubles D} (present : Z → option metadata).

(** [frontend/model_context.h:32-39] statistics_model_context. [calls] and [threads_by_id] are what its look-ups find. *)
Record statistics_model_context := mk_context {
  tick_interval : D;
  calls : gmap Z call_statistics;
  threads_by_id : gmap Z thread_info;
  mappings_of : list (Z * Z);
  resolver : symbol_resolver;
  canonical : bool
}.

Abbreviation context := statistics_model_context.
Abbreviation comparison := (context → call_statistics → call_statistics → Z).
Abbreviation value_of := (context → call_statistics → D).
Abbreviation text_ := (context → nat → call_statistics → result (list Z)).

(** The name of an address, as the resolver gives it at last: what it asks for when a name is looked up
    first is answered at once or with a later signal. *)
Definition symbol_name (w : context) (address : Z) : list Z :=
  of_string (symbol_name_by_va present (mappings_of w) address (resolver w)).1.

(** ** Orders *)

(** [frontend/src/columns_layout.cpp:45-47] by_name *)
Definition by_name : comparison := λ w lhs rhs,
  strcmp (symbol_name w (address lhs)) (symbol_name w (address rhs)).

(** [frontend/src/columns_layout.cpp:49-56] by_threadid *)
Definition by_threadid : comparison := λ w lhs_ rhs_,
  let lhs := threads_by_id w !! thread_id lhs_ in
  let rhs := threads_by_id w !! thread_id rhs_ in
  let r := compare_pointers lhs rhs in
  if negb (r =? 0) then r
  else match lhs, rhs with
    | Some l, Some r => compare_values (native_id l) (native_id r)
    | _, _ => 0
    end.

(** [frontend/src/columns_layout.cpp:58-60] by_times_called *)
Definition by_times_called : comparison := λ _ lhs rhs,
  compare_values (times_called (call_stats lhs)) (times_called (call_stats rhs)).

(** [frontend/src/columns_layout.cpp:62-64] by_exclusive_time *)
Definition by_exclusive_time : comparison := λ _ lhs rhs,
  compare_values (exclusive_time (call_stats lhs)) (exclusive_time (call_stats rhs)).

(** [frontend/src/columns_layout.cpp:66-68] by_inclusive_time *)
Definition by_inclusive_time : comparison := λ _ lhs rhs,
  compare_values (inclusive_time (call_stats lhs)) (inclusive_time (call_stats rhs)).

(** [frontend/src/columns_layout.cpp:70-72] by_avg_exclusive_call_time *)
Definition by_avg_exclusive_call_time : comparison := λ _ lhs rhs,
  compare_ratios (exclusive_time (call_stats lhs)) (times_called (call_stats lhs))
    (exclusive_time (call_stats rhs)) (times_called (call_stats rhs)).

(** [frontend/src/columns_layout.cpp:74-76] by_avg_inclusive_call_time *)
Definition by_avg_inclusive_call_time : comparison := λ _ lhs rhs,
  compare_ratios (inclusive_time (call_stats lhs)) (times_called (call_stats lhs))
    (inclusive_time (call_stats rhs)) (times_called (call_stats rhs)).

(** [frontend/src/columns_layout.cpp:78-80] by_max_call_time *)
Definition by_max_call_time : comparison := λ _ lhs rhs,
  compare_values (max_call_time (call_stats lhs)) (max_call_time (call_stats rhs)).

(** ** Texts and values *)

(** [frontend/src/columns_layout.cpp:83-85] row_ *)
Definition row_ : text_ := λ _ row _, itoa 10 false 64 [] (u64 (Z.of_nat row + 1)) 0 0x30.

(** [frontend/src/columns_layout.cpp:40-41] indent_spaces *)
Definition indent_spaces : list Z := of_string "    ".

(** [frontend/src/columns_layout.cpp:87-99] name *)
Definition name_text : text_ := λ w _ item,
  if address item =? 0 then Ret (of_string "<root>")
  else
    let n := (length (call_path (calls w) item) - 1)%nat in
    Ret (concat (replicate n indent_spaces) ++ c_str (symbol_name w (address item))).

(** [frontend/threads_model.h:42-42] threads_model *)
Definition cumulative : Z := u32 (-1).

(** [frontend/src/columns_layout.cpp:101-112] thread_native_id *)
Definition thread_native_id : text_ := λ w _ item,
  if cumulative =? thread_id item then Ret (of_string "[cumulative]")
  else match threads_by_id w !! thread_id item with
    | Some t => itoa 10 false 64 [] (native_id t) 0 0x30
    | None => Ret []
    end.

(** [frontend/src/columns_layout.cpp:114-116] times_called *)
Definition times_called_value : context → call_statistics → Z := λ _ value, times_called (call_stats value).

(** [frontend/src/columns_layout.cpp:118-120] exclusive_time *)
Definition exclusive_time_value : value_of := λ w value,
  times (tick_interval w) (of_s64 (exclusive_time (call_stats value))).

(** [frontend/src/columns_layout.cpp:122-124] inclusive_time *)
Definition inclusive_time_value : value_of := λ w value,
  times (tick_interval w) (of_s64 (inclusive_time (call_stats value))).

(** [frontend/src/columns_layout.cpp:126-128] exclusive_time_avg *)
Definition exclusive_time_avg : value_of := λ w value,
  if times_called (call_stats value) =? 0 then zero_value
  else over (times (tick_interval w) (of_s64 (exclusive_time (call_stats value)))) (of_u64 (times_called (call_stats value))).

(** [frontend/src/columns_layout.cpp:130-132] inclusive_time_avg *)
Definition inclusive_time_avg : value_of := λ w value,
  if times_called (call_stats value) =? 0 then zero_value
  else over (times (tick_interval w) (of_s64 (inclusive_time (call_stats value)))) (of_u64 (times_called (call_stats value))).

(** [frontend/src/columns_layout.cpp:134-136] max_call_time *)
Definition max_call_time_value : value_of := λ w value,
  times (tick_interval w) (of_s64 (max_call_time (call_stats value))).

(** [frontend/src/columns_layout.cpp:138-159] format_interval_ *)
Definition format_interval_ (underlying : value_of) : text_ := λ w _ item,
  Ret ((if canonical w then general_text else interval_text) (underlying w item)).

(** [frontend/src/columns_layout.cpp:161-168] format_integer_ *)
Definition format_integer_ (underlying : context → call_statistics → Z) : text_ := λ w _ item,
  itoa 10 false 64 [] (underlying w item) 0 0x30.

(** ** The columns *)

Abbreviation statistics_column := (column call_statistics context D).

(** A caption is in two lines. *)
Definition lines (first second : string) : string := first ++ String (Ascii.ascii_of_nat 10) second.

Definition function_column (caption : string) : statistics_column :=
  mk_layout "Function" caption 384 align_near (mk_column name_text (Some by_name) None) true.

Definition interval_column (id caption : string) (width : Z) (by_ : comparison) (v : value_of) : statistics_column :=
  mk_layout id caption width align_far (mk_column (format_interval_ v) (Some by_) (Some v)) false.

(** [frontend/src/columns_layout.cpp:206-216] c_statistics_columns *)
Definition c_statistics_columns : list statistics_column := [
  mk_layout "Index" "#" 28 align_far (mk_column row_ None None) false;
  function_column (lines "Function" "qualified name");
  mk_layout "ThreadID" (lines "Thread" "id") 64 align_far (mk_column thread_native_id (Some by_threadid) None) true;
  mk_layout "TimesCalled" (lines "Called" "times") 64 align_far
    (mk_column (format_integer_ times_called_value) (Some by_times_called) (Some (λ w n, of_u64 (times_called_value w n)))) false;
  interval_column "ExclusiveTime" (lines "Exclusive" "total") 48 by_exclusive_time exclusive_time_value;
  interval_column "InclusiveTime" (lines "Inclusive" "total") 48 by_inclusive_time inclusive_time_value;
  interval_column "AvgExclusiveTime" (lines "Exclusive" "average/call") 48 by_avg_exclusive_call_time exclusive_time_avg;
  interval_column "AvgInclusiveTime" (lines "Inclusive" "average/call") 48 by_avg_inclusive_call_time inclusive_time_avg;
  interval_column "MaxCallTime" (lines "Inclusive" "maximum/call") 121 by_max_call_time max_call_time_value].

(** [frontend/src/columns_layout.cpp:218-228] c_caller_statistics_columns *)
Definition c_caller_statistics_columns : list statistics_column :=
  <[1%nat := function_column (lines "Calling Function" "qualified name")]> c_statistics_columns.

(** [frontend/src/columns_layout.cpp:230-240] c_callee_statistics_columns *)
Definition c_callee_statistics_columns : list statistics_column :=
  <[1%nat := function_column (lines "Called Function" "qualified name")]> c_statistics_columns.

(** ** What the tables show *)

(** The calls of the context form a tree, and all of them satisfy [P]. *)
Definition valid_call (P : call_statistics → Prop) (w : context) (n : call_statistics) : Prop :=
  tree_ok (calls w) ∧ (∀ i n, calls w !! i = Some n → P n) ∧ in_table (calls w) n.

#[local] Instance access (w : context) : hierarchy call_statistics := stack_hierarchy_access (calls w).

#[local, refine] Instance access_laws P w : hierarchy_laws (access w) (valid_call P w) := {| node_id := call_id |}.
Proof.
  - intros n (Hok & _ & Hn). exact (path_ends (hierarchy_laws := stack_hierarchy_laws (calls w) Hok) n Hn).
  - intros n i (Hok & HP & Hn) Hi.
    destruct (path_nodes (hierarchy_laws := stack_hierarchy_laws (calls w) Hok) n i Hn Hi) as (m & ? & ? & ?).
    exists m. by split_and!.
  - intros a b (Hok & _ & Ha) (_ & _ & Hb). exact (node_unique (hierarchy_laws := stack_hierarchy_laws (calls w) Hok) a b Ha Hb).
  - intros a b (Hok & _ & Ha) (_ & _ & Hb). exact (siblings (hierarchy_laws := stack_hierarchy_laws (calls w) Hok) a b Ha Hb).
  - intros a (Hok & _ & Ha). exact (less_irreflexive (hierarchy_laws := stack_hierarchy_laws (calls w) Hok) a Ha).
  - intros a b c (Hok & _ & Ha) (_ & _ & Hb) (_ & _ & Hc).
    exact (less_transitive (hierarchy_laws := stack_hierarchy_laws (calls w) Hok) a b c Ha Hb Hc).
  - intros a b (Hok & _ & Ha) (_ & _ & Hb). exact (less_total (hierarchy_laws := stack_hierarchy_laws (calls w) Hok) a b Ha Hb).
Defined.

(** The bounds within which the averages are compared exactly: [longest_time] ticks and [most_calls]. *)
Context (longest_time most_calls : Z).

Definition average_bounded (n : call_statistics) : Prop :=
  0 ≤ exclusive_time (call_stats n) ≤ longest_time ∧ 0 ≤ inclusive_time (call_stats n) ≤ longest_time ∧
  0 ≤ times_called (call_stats n) ≤ most_calls.

Hypothesis product_fits : longest_time * most_calls < 2 ^ 64.

(** The average column that is at an index, with its exact order; the other columns are exact anyway. *)
Definition exact_order (i : nat) (f : comparison) : comparison := λ w a b,
  let ratio t := ratio_order (t (call_stats a)) (times_called (call_stats a)) (t (call_stats b)) (times_called (call_stats b)) in
  match i with 6%nat => ratio exclusive_time | 7%nat => ratio inclusive_time | _ => f w a b end.

Lemma average_exact a b : average_bounded a → average_bounded b → ∀ w,
  by_avg_exclusive_call_time w a b = exact_order 6 by_avg_exclusive_call_time w a b ∧
  by_avg_inclusive_call_time w a b = exact_order 7 by_avg_inclusive_call_time w a b.
Proof using product_fits.
  intros (Ha1 & Ha2 & Ha3) (Hb1 & Hb2 & Hb3) w.
  split; apply compare_ratios_exact; try lia; nia.
Qed.

Lemma ratio_laws P w (f : comparison) (t : function_statistics → Z) :
  (∀ n, P n → average_bounded n) →
  (∀ a b, average_bounded a → average_bounded b →
     f w a b = ratio_order (t (call_stats a)) (times_called (call_stats a)) (t (call_stats b)) (times_called (call_stats b))) →
  comparison_laws (valid_call P w) (f w).
Proof using Type.
  intros HP Hf. assert (∀ n, valid_call P w n → average_bounded n) as Hv by (intros n (_ & Hall & Hn); eauto).
  split.
  - intros a b Ha%Hv Hb%Hv. rewrite !Hf by done. rewrite (ratio_order_flips (t (call_stats a))). lia.
  - intros a b c Ha%Hv Hb%Hv Hc%Hv. rewrite !Hf by done. destruct Ha as (_ & _ & ?), Hb as (_ & _ & ?), Hc as (_ & _ & ?).
    apply ratio_order_transitive; lia.
Qed.

Lemma by_threadid_laws P w : comparison_laws (valid_call P w) (by_threadid w).
Proof using Type.
  set (native n := default 0 (native_id <$> threads_by_id w !! thread_id n)).
  apply (compare_ext_laws _ (λ a b,
    if negb (compare_pointers (threads_by_id w !! thread_id a) (threads_by_id w !! thread_id b) =? 0)
    then compare_pointers (threads_by_id w !! thread_id a) (threads_by_id w !! thread_id b)
    else compare_values (native a) (native b))).
  - intros a b. unfold by_threadid, native. by destruct (threads_by_id w !! _), (threads_by_id w !! _).
  - apply compare_then_laws; [apply (compare_pointers_laws _ (λ n, threads_by_id w !! thread_id n))|].
    apply compare_values_laws.
Qed.

(** Every column is sorted by an order. *)
Lemma statistics_columns_laws P w i c f :
  (i = 6%nat ∨ i = 7%nat → ∀ n, P n → average_bounded n) →
  c_statistics_columns !! i = Some c → compare (definition c) = Some f → comparison_laws (valid_call P w) (f w).
Proof using product_fits.
  intros HP. destruct i as [|[|[|[|[|[|[|[|[|i]]]]]]]]]; intros [= <-]; simpl; intros [= <-].
  - apply (compare_texts_laws _ (λ n, c_str (symbol_name w (address n)))).
  - apply by_threadid_laws.
  - apply (compare_values_laws _ (λ n, times_called (call_stats n))).
  - apply (compare_values_laws _ (λ n, exclusive_time (call_stats n))).
  - apply (compare_values_laws _ (λ n, inclusive_time (call_stats n))).
  - apply (ratio_laws P w _ exclusive_time); [by apply HP; left|]. intros a b Ha Hb. by apply average_exact.
  - apply (ratio_laws P w _ inclusive_time); [by apply HP; right|]. intros a b Ha Hb. by apply average_exact.
  - apply (compare_values_laws _ (λ n, max_call_time (call_stats n))).
Qed.

Lemma exact_order_ok P w i c f a b :
  (i = 6%nat ∨ i = 7%nat → ∀ n, P n → average_bounded n) →
  c_statistics_columns !! i = Some c → compare (definition c) = Some f →
  valid_call P w a → valid_call P w b → exact_order i f w a b = f w a b.
Proof using product_fits.
  intros HP Hc Hf (_ & HP' & Ha) (_ & _ & Hb). unfold in_table in *.
  destruct i as [|[|[|[|[|[|[|[|[|i]]]]]]]]]; try done; injection Hc as <-; injection Hf as <-;
    symmetry; apply average_exact; eauto.
Qed.

Context `{std_sort}.

Abbreviation model := (table_model (V := call_statistics) (W := context) (K := Z) (D := D) (Text := result (list Z))).

(** Siblings are in the order of the column, up or down. *)
Definition siblings_sorted (order : call_statistics → call_statistics → Z) (rows : list call_statistics) : Prop :=
  ∀ i j a b, (i < j)%nat → rows !! i = Some a → rows !! j = Some b → parent_id a = parent_id b → order a b ≤ 0.

Lemma shown_siblings order w rows : StronglySorted (λ a b, row_less access order w a b = Ret true) rows →
  siblings_sorted (order w) rows.
Proof using Type.
  intros Hs i j a b Hij Ha Hb Hp. pose proof (sorted_lookup access order w rows i j a b Hs Hij Ha Hb) as Hless.
  unfold row_less, hierarchical_less in Hless. simpl in Hless. rewrite Hp, Z.eqb_refl in Hless.
  injection Hless as Hless. apply tp_true in Hless. lia.
Qed.

(** C36: A table of calls that is sorted by any of its columns shows the call tree in the order of that column:
    every call is shown, below what it is called from and together with what it calls; siblings are in the
    order of the column, of the averages in that of the exact quotients as long as no product of a time
    and a count leaves 64 bits; and whatever the calls become, the next fetch shows them so. *)
Theorem columns_show_tree P (w : context) t (m : model) i c f asc :
  (i = 6%nat ∨ i = 7%nat → ∀ n, P n → average_bounded n) →
  showable (valid_call P) w t → view_ok t (m_ordered m) → columns m = map definition c_statistics_columns →
  c_statistics_columns !! i = Some c → compare (definition c) = Some f →
  ∃ m', model_set_order call_id access w t (Z.of_nat i) asc m = Ret m' ∧
    tree_shown call_id access (compare_bound f asc) w t m' ∧
    siblings_sorted (compare_bound (exact_order i f) asc w) (shown t (m_ordered m')) ∧
    ∀ w' t', showable (valid_call P) w' t' → ∃ m'', model_fetch call_id w' t' m' = Ret m'' ∧
      tree_shown call_id access (compare_bound f asc) w' t' m'' ∧
      siblings_sorted (compare_bound (exact_order i f) asc w') (shown t' (m_ordered m'')).
Proof using product_fits.
  intros HP Hsh Hv Hcol Hc Hf.
  assert (∀ w t (m' : model), showable (valid_call P) w t → tree_shown call_id access (compare_bound f asc) w t m' →
    siblings_sorted (compare_bound (exact_order i f) asc w) (shown t (m_ordered m'))) as Hsib.
  { intros w' t' m' (_ & _ & Hvalid) [Hall Hord _ _ _] r1 r2 a b Hr Ha Hb Hp.
    pose proof (shown_siblings _ w' _ Hord r1 r2 a b Hr Ha Hb Hp) as Hle.
    apply list_elem_of_lookup_2 in Ha, Hb. rewrite Hall in Ha, Hb.
    unfold compare_bound in *. by destruct asc; rewrite (exact_order_ok P w' i c f) by auto. }
  assert (i < 9)%nat as Hi by by apply lookup_lt_Some in Hc.
  destruct (table_shows_tree call_id access (valid_call P) w t m (Z.of_nat i) (definition c) f asc)
    as (m' & Hm & Hshown & _ & Hfetch); [done|done|unfold npos; vm_compute (u64 (-1)); lia| |done| |].
  - by rewrite Nat2Z.id, Hcol, list_lookup_fmap, Hc.
  - intros w'. by apply (statistics_columns_laws P w' i c f).
  - exists m'. split_and!; [done|done|by apply Hsib|]. intros w' t' Hsh'.
    destruct (Hfetch w' t' Hsh') as (m'' & ? & ? & _). exists m''. split_and!; [done|done|]. by apply Hsib.
Qed.

(** The products of the averages are unsigned and wrap.  A function that had more overhead taken off than it
    took has a negative time, which is the greatest average there is. *)
Lemma negative_average_last w a b : exclusive_time (call_stats a) = -1 → times_called (call_stats a) = 1 →
  exclusive_time (call_stats b) = 5 → times_called (call_stats b) = 1 →
  by_exclusive_time w a b = -1 ∧ by_avg_exclusive_call_time w a b = 1.
Proof using Type.
  intros Ha Hna Hb Hnb. unfold by_exclusive_time, by_avg_exclusive_call_time. by rewrite Ha, Hna, Hb, Hnb.
Qed.

(** After some hours a call of [main] and a million of calls of something else are enough for a
    comparison that goes round in a circle, which [std::sort] has no defined behaviour for. *)
Lemma average_wraps w :
  let n i times time := mk_call i 0 0 (i * 16) (mk_stats times time time time) in
  ¬ strict_weak (row_less access by_avg_exclusive_call_time w)
      [n 1 1 (2 ^ 44); n 2 1 2; n 3 (2 ^ 20) (2 ^ 20)].
Proof using Type.
  intros n [_ _ H3]. specialize (H3 (n 1 1 (2 ^ 44)) (n 2 1 2) (n 3 (2 ^ 20) (2 ^ 20))).
  assert (∀ a b, a = n 1 1 (2 ^ 44) ∧ b = n 2 1 2 ∨ a = n 2 1 2 ∧ b = n 3 (2 ^ 20) (2 ^ 20) →
    row_less access by_avg_exclusive_call_time w a b = Ret false) as Hf
    by (intros a b [[-> ->]|[-> ->]]; vm_compute; reflexivity).
  assert (row_less access by_avg_exclusive_call_time w (n 1 1 (2 ^ 44)) (n 3 (2 ^ 20) (2 ^ 20)) = Ret true) as Ht
    by (vm_compute; reflexivity).
  rewrite H3 in Ht; [done|by repeat constructor..|apply Hf; by left|apply Hf; by right].
Qed.
End columns.

(** * Processes *)

(** [explorer/process.h:31-43] process_info. What the columns use of it. *)
Record process_info := mk_process { pid : Z; parent_pid : Z; path : list Z }.

(** [frontend/src/columns_layout.cpp:179-181] by_process_name *)
Definition by_process_name (lhs rhs : process_info) : Z := strcmp (file_name (path lhs)) (file_name (path rhs)).

(** [frontend/src/columns_layout.cpp:183-185] by_process_pid *)
Definition by_process_pid (lhs rhs : process_info) : Z := compare_values (pid lhs) (pid rhs).

(** [frontend/src/columns_layout.cpp:187-189] by_process_ppid *)
Definition by_process_ppid (lhs rhs : process_info) : Z := compare_values (parent_pid lhs) (parent_pid rhs).

(** [frontend/src/columns_layout.cpp:192-194] process_name *)
Definition process_name (item : process_info) : result (list Z) := Ret (c_str (file_name (path item))).

(** [frontend/src/columns_layout.cpp:196-198] process_pid *)
Definition process_pid (item : process_info) : result (list Z) := itoa 10 false 32 [] (pid item) 0 0x30.

(** [frontend/src/columns_layout.cpp:200-202] process_ppid *)
Definition process_ppid (item : process_info) : result (list Z) := itoa 10 false 32 [] (parent_pid item) 0 0x30.

Definition process_column {D} (id caption : string) (width : Z) (alignment : text_alignment)
    (text : process_info → result (list Z)) (by_ : process_info → process_info → Z) : column process_info unit D :=
  mk_layout id caption width alignment (mk_column (λ _ _, text) (Some (λ _, by_)) None) true.

(** [frontend/src/columns_layout.cpp:243-247] c_processes_columns *)
Definition c_processes_columns {D} : list (column process_info unit D) := [
  process_column "ProcessExe" (lines "Process" "executable") 384 align_near process_name by_process_name;
  process_column "ProcessID" "PID" 50 align_far process_pid by_process_pid;
  process_column "ParentProcessID" (lines "PID" "parent") 50 align_far process_ppid by_process_ppid].

Lemma processes_columns_laws {D} valid i (c : column process_info unit D) f w :
  c_processes_columns !! i = Some c → compare (definition c) = Some f → comparison_laws valid (f w).
Proof.
  destruct i as [|[|[|i]]]; intros [= <-]; simpl; intros [= <-].
  - apply (compare_texts_laws _ (λ n, c_str (file_name (path n)))).
  - apply (compare_values_laws _ pid).
  - apply (compare_values_laws _ parent_pid).
Qed.

(** The names the columns are stored by are different. *)
Lemma column_names_differ {D} `{doubles D} (present : Z → option metadata) :
  NoDup (map column_id (c_statistics_columns present)) ∧ NoDup (map column_id (c_processes_columns (D := D))).
Proof. split; apply (bool_decide_unpack _); by vm_compute. Qed.

(** * An example *)

#[local] Existing Instance insertion_sort.

(** Charts show whole numbers here. *)
#[local] Instance demo_doubles : doubles Z := {|
  of_s64 n := n; of_u64 n := n; times := Z.mul; over := Z.div; zero_value := 0;
  interval_text _ := []; general_text _ := []
|}.

Definition demo_module : gmap Z symbol_info :=
  list_to_map [(50, mk_symbol "g" 50 8 0 0); (100, mk_symbol "main" 100 8 0 0); (200, mk_symbol "f" 200 8 0 0)].

Definition demo_context : statistics_model_context :=
  mk_context 1 demo_tree ∅ [(0, 7)] (mk_resolver {[7 := demo_module]} ∅ ∅ [] 0) false.

Definition demo_window : table_model (K := Z) (D := Z) (Text := result (list Z)) :=
  mk_model (new_ordered demo_table) empty_table (mk_projection empty_table None [])
    (map definition (c_statistics_columns (λ _, None))) [].

Definition demo_ids (i : Z) (asc : bool) : option (list (list Z)) :=
  match model_set_order call_id access demo_context demo_table i asc demo_window with
  | Ret m => Some (map (λ n, default [] (match name_text (λ _, None) demo_context 0 n with Ret t => Some t | _ => None end))
      (shown demo_table (m_ordered m)))
  | _ => None
  end.

Example demo_names :
  demo_ids 1 true = Some (map of_string ["main"; "    f"; "        f"; "    g"]%string) ∧
  demo_ids 5 true = Some (map of_string ["main"; "    g"; "    f"; "        f"]%string).
Proof. vm_compute. done. Qed.

Lemma demo_valid P n : (∀ n, n ∈ demo_calls → P n) → n ∈ demo_calls → valid_call P demo_context n.
Proof.
  intros HP Hn. split_and!; [apply demo_tree_ok| |].
  - intros i m Hi%demo_tree_elem. apply list_elem_of_fmap in Hi as (k & [= -> ->] & Hk). by apply HP.
  - revert n Hn. apply Forall_forall. repeat constructor; vm_compute; reflexivity.
Qed.

Lemma columns_show_tree_witness :
  ∃ m', model_set_order call_id access demo_context demo_table 6 false demo_window = Ret m' ∧
    tree_shown call_id access (compare_bound by_avg_exclusive_call_time false) demo_context demo_table m' ∧
    siblings_sorted (compare_bound (exact_order 6 by_avg_exclusive_call_time) false demo_context)
      (shown demo_table (m_ordered m')) ∧
    ∀ w' t', showable (valid_call (average_bounded 100 10)) w' t' →
      ∃ m'', model_fetch call_id w' t' m' = Ret m'' ∧
        tree_shown call_id access (compare_bound by_avg_exclusive_call_time false) w' t' m'' ∧
        siblings_sorted (compare_bound (exact_order 6 by_avg_exclusive_call_time) false w') (shown t' (m_ordered m'')).
Proof.
  apply (columns_show_tree (λ _, None) 100 10 eq_refl (average_bounded 100 10) demo_context demo_table demo_window 6
    (interval_column "AvgExclusiveTime" (lines "Exclusive" "average/call") 48 by_avg_exclusive_call_time exclusive_time_avg)
    by_avg_exclusive_call_time false); [done| |unfold view_ok; done|done|reflexivity|reflexivity].
  destruct demo_showable as (Ht & Hnd & _). split_and!; [done|done|]. intros a Ha. apply demo_valid; [|done].
  apply Forall_forall. repeat constructor; simpl; lia.
Defined.
