(* ===== verification/Cumulative.v ===== *)
(** The cumulative view (frontend/src/representation.cpp, frontend/keyer.h).

    Calls of different threads, and of functions called along the same stack, are merged into one call tree: a record
    for every stack of addresses.  The key of a record, its stack, is read from the table the record is in,
    and a new record of the merged table finds its parent there, by the stack without its last address. *)

From S2P Require Import Prelude Columns Statistics ShadowStack Sdb Join Hierarchy Derived.
Local Open Scope Z_scope.

(** * The code *)

Section cumulative_view.
Context {EO : equal_order}.

(** [frontend/keyer.h:219-226] callstack::key_append. Up to a call that has no parent; calls in a circle are never
    left: the fuel bounds their number. *)
Fixpoint key_append (ids : gmap Z call_statistics) (fuel : nat) (record : call_statistics) (buffer : path) : result path :=
  match fuel with
  | O => UB
  | S fuel =>
    buffer ← (if parent_id record =? 0 then Ret buffer else
      match ids !! parent_id record with
      | Some parent => key_append ids fuel parent buffer
      | None => Throw invalid_argument
      end);
    Ret (buffer ++ [address record])
  end.

(** [frontend/keyer.h:202-208] callstack::operator () *)
Definition callstack (t : table call_statistics) (record : call_statistics) : result path :=
  key_append (by_ids t) (S (length (records t))) record [].

(** What [group_by] keeps: the calls with the index of their stacks, and the merged calls with theirs. *)
Record cumulative_table := mk_cumulative {
  source : table call_statistics; source_index : index (K := path);
  merged : table call_statistics; merged_index : index (K := path)
}.

(** The statistics of calls along one stack are just added: none of them is nested in another. *)
Definition sum_of (group : list call_statistics) : function_statistics :=
  fold_left (λ s n, add_stats s (call_stats n)) group function_statistics_default.

(** [frontend/src/representation.cpp:49-59] sum_functions *)
Definition sum_functions (aggregated : call_statistics) (group : list call_statistics) : call_statistics :=
  mk_call (call_id aggregated) cumulative (parent_id aggregated) (address aggregated) (sum_of group).

(** [frontend/keyer.h:210-217] callstack::operator (). The key is written to a new record. *)
Definition write_key (g : cumulative_table) (key : path) (record : call_statistics) : result call_statistics :=
  match last key with
  | None => UB
  | Some a =>
    parent ← match removelast key with
      | [] => Ret 0
      | key =>
        match equal_range key (merged_index g) with
        | h :: _ => match find_record h (records (merged g)) with Some p => Ret (call_id p) | None => UB end
        | [] => Throw invalid_argument
        end
      end;
    Ret (mk_call (call_id record) 0 parent a (call_stats record))
  end.

(** The indices are told of a record when it is committed, after its parent and its statistics have been written. *)
(** [sdb/transforms.h:73-80] group_by: [update_record], by [keyer::callstack] *)
Definition update_merged (record : call_statistics) (g : cumulative_table) : result cumulative_table :=
  key ← callstack (source g) record;
  let items := omap (λ h, find_record h (records (source g))) (equal_range key (source_index g)) in
  match equal_range key (merged_index g) with
  | h :: _ =>
    Ret (mk_cumulative (source g) (source_index g) (modify h (λ a, sum_functions a items) (merged g)) (merged_index g))
  | [] =>
    r ← write_key g key (mk_call (u32 (Z.of_nat (next_handle (merged g)) + 1)) 0 0 0 function_statistics_default);
    let '(h, t) := create (sum_functions r items) (merged g) in
    k ← callstack t (sum_functions r items);
    Ret (mk_cumulative (source g) (source_index g) t (index_created k h (merged_index g)))
  end.

(** [frontend/src/representation.cpp:71-80] group_by_callstack *)
Definition group_by_callstack (source : table call_statistics) : result cumulative_table :=
  ix ← fold_m (λ ix '(h, v), k ← callstack source v; Ret (index_created k h ix)) empty_index (records source);
  fold_m (λ g '(_, v), update_merged v g) (mk_cumulative source ix empty_table empty_index) (records source).

(** Changes of the table of calls, which is only added to, updated in place and cleared. *)
(** [sdb/table.h:287-292] table::commit_creation, as [group_by_callstack] hears of it *)
Definition c_create (v : call_statistics) (g : cumulative_table) : result cumulative_table :=
  let '(h, t) := create v (source g) in
  k ← callstack t v;
  update_merged v (mk_cumulative t (index_created k h (source_index g)) (merged g) (merged_index g)).

(** [sdb/table.h:294-299] table::commit_modification, as [group_by_callstack] hears of it *)
Definition c_modify (h : nat) (st : function_statistics) (g : cumulative_table) : result cumulative_table :=
  let t := modify h (λ c, mk_call (call_id c) (thread_id c) (parent_id c) (address c) st) (source g) in
  match find_record h (records t) with
  | None => UB
  | Some v => update_merged v (mk_cumulative t (source_index g) (merged g) (merged_index g))
  end.

(** [sdb/transforms.h:82-82] group_by: the slot for a cleared table *)
Definition c_clear (g : cumulative_table) : cumulative_table :=
  mk_cumulative (clear_records (source g)) (index_cleared (source_index g))
    (clear_records (merged g)) (index_cleared (merged_index g)).

(** [frontend/src/representation.cpp:150-161] create_cumulative *)
Definition representation_cumulative (source : table call_statistics) (selection : table Z) : result representation :=
  g ← group_by_callstack source;
  representation_all true (merged g) selection.

(** * The stacks of a table *)

(** A table of calls: every call is told apart by its identifier and comes after the call it is called from. *)
Inductive ordered : list call_statistics → Prop :=
  | ordered_nil : ordered []
  | ordered_snoc l n : ordered l → call_id n ≠ 0 → call_id n ∉ map call_id l →
      (parent_id n = 0 ∨ parent_id n ∈ map call_id l) → ordered (l ++ [n]).

Definition stacks (l : list call_statistics) : gmap Z path :=
  foldl (λ m n, <[call_id n := default [] (m !! parent_id n) ++ [address n]]> m) ∅ l.
Definition stack_in (l : list call_statistics) (n : call_statistics) : path := default [] (stacks l !! call_id n).

Lemma stacks_snoc l n : stacks (l ++ [n]) = <[call_id n := default [] (stacks l !! parent_id n) ++ [address n]]> (stacks l).
Proof. unfold stacks. by rewrite foldl_app. Qed.

Lemma stacks_dom l i : is_Some (stacks l !! i) ↔ i ∈ map call_id l.
Proof.
  induction l as [|n l IH] using rev_ind.
  - split; [|by intros ?%elem_of_nil]. unfold stacks. simpl. rewrite lookup_empty. by intros [].
  - rewrite stacks_snoc, map_app, elem_of_app, <- IH, lookup_insert_is_Some'. cbn [map]. rewrite list_elem_of_singleton.
    naive_solver.
Qed.

Lemma stacks_fresh l i : i ∉ map call_id l → stacks l !! i = None.
Proof. intros Hi. apply eq_None_not_Some. by rewrite stacks_dom. Qed.

Lemma stack_in_old l n m : call_id n ∉ map call_id l → m ∈ l → stack_in (l ++ [n]) m = stack_in l m.
Proof.
  intros Hn Hm. unfold stack_in. rewrite stacks_snoc, lookup_insert_ne; [done|]. intros E. apply Hn. rewrite E.
  apply list_elem_of_In, in_map. by apply list_elem_of_In.
Qed.

Lemma stack_in_new l n : stack_in (l ++ [n]) n = default [] (stacks l !! parent_id n) ++ [address n].
Proof. unfold stack_in. by rewrite stacks_snoc, lookup_insert_eq. Qed.

Lemma ordered_nonzero l : ordered l → 0 ∉ map call_id l.
Proof.
  induction 1 as [|l n _ IH Hn _ _]; [apply not_elem_of_nil|]. rewrite map_app, elem_of_app. cbn [map].
  rewrite list_elem_of_singleton. naive_solver.
Qed.

Lemma ordered_once l : ordered l → NoDup (map call_id l).
Proof.
  induction 1 as [|l n _ IH _ Hn _]; [constructor|]. rewrite map_app. apply NoDup_app. split_and!; [done| |apply NoDup_singleton].
  intros i Hi ->%list_elem_of_singleton. by apply Hn.
Qed.

Lemma ordered_app l l' : ordered (l ++ l') → ordered l.
Proof.
  induction l' as [|n l' IH] using rev_ind; [by rewrite app_nil_r|]. rewrite app_assoc. intros H. apply IH.
  inversion H as [E|k m Hk ? ? ? E]; [by apply app_cons_not_nil in E|]. by apply app_inj_tail in E as [<- _].
Qed.

(** Its parent is known when a call comes. *)
Lemma ordered_last l n : ordered (l ++ [n]) →
  call_id n ≠ 0 ∧ call_id n ∉ map call_id l ∧ (parent_id n = 0 ∨ parent_id n ∈ map call_id l).
Proof.
  intros H. inversion H as [E|k m Hk H1 H2 H3 E]; [by apply app_cons_not_nil in E|]. by apply app_inj_tail in E as [<- <-].
Qed.

(** The code finds the stacks. *)
Lemma key_append_ok ids l : ordered l → (∀ n, n ∈ l → ids !! call_id n = Some n) →
  ∀ n fuel buffer, n ∈ l → (length l ≤ fuel)%nat → key_append ids fuel n buffer = Ret (buffer ++ stack_in l n).
Proof.
  induction 1 as [|l m Hl IH Hm0 Hm Hp]; intros Hids n fuel buffer Hn Hf; [by apply elem_of_nil in Hn|].
  rewrite length_app in Hf. simpl in Hf. assert (∀ n, n ∈ l → ids !! call_id n = Some n) as Hids'
    by (intros k Hk; apply Hids, elem_of_app; by left).
  apply elem_of_app in Hn as [Hn|Hn%list_elem_of_singleton].
  - rewrite stack_in_old by done. apply IH; [done..|lia].
  - subst m. rewrite stack_in_new. destruct fuel as [|fuel]; [lia|]. cbn [key_append]. rewrite app_assoc.
    destruct Hp as [Hp|Hp].
    + rewrite Hp. simpl. rewrite stacks_fresh by by apply ordered_nonzero. simpl. by rewrite app_nil_r.
    + assert (parent_id n ≠ 0) as H0 by (intros E; rewrite E in Hp; by apply ordered_nonzero in Hp).
      rewrite (proj2 (Z.eqb_neq _ _) H0). apply list_elem_of_In, in_map_iff in Hp as (p & Hp & Hin%list_elem_of_In).
      rewrite <- Hp, (Hids' p Hin), (IH Hids' p fuel buffer Hin) by lia. done.
Qed.

Lemma by_ids_found t n : ordered (values t) → n ∈ values t → by_ids t !! call_id n = Some n.
Proof.
  intros Ho Hn. unfold by_ids. apply elem_of_list_to_map_1.
  - rewrite <- list_fmap_compose. by apply ordered_once.
  - apply list_elem_of_fmap. by exists n.
Qed.

Lemma callstack_ok t n : ordered (values t) → n ∈ values t → callstack t n = Ret (stack_in (values t) n).
Proof.
  intros Ho Hn. unfold callstack. rewrite (key_append_ok (by_ids t) (values t)); [done|done| |done|].
  - intros m Hm. by apply by_ids_found.
  - unfold values. rewrite length_fmap. lia.
Qed.

(** * What is kept *)

Definition items_of (t : table call_statistics) (p : path) : list call_statistics :=
  filter (λ n, stack_in (values t) n = p) (values t).

(** [stale p]: the record of the stack [p] may be out of date; [present p]: there is one. *)
Record merged_ok (stale present : path → Prop) (g : cumulative_table) : Prop := {
  mg_source : table_ok (source g);
  mg_ordered : ordered (values (source g));
  mg_index : index_ok (stack_in (values (source g))) (source g) (source_index g);
  mg_merged : table_ok (merged g);
  mg_tree : ordered (values (merged g));
  mg_stacks : index_ok (stack_in (values (merged g))) (merged g) (merged_index g);
  mg_ids h r : (h, r) ∈ records (merged g) → call_id r = Z.of_nat h + 1;
  mg_once : NoDup (map (stack_in (values (merged g))) (values (merged g)));
  mg_present p : p ∈ map (stack_in (values (merged g))) (values (merged g)) ↔ present p;
  mg_rows r : r ∈ values (merged g) → ¬ stale (stack_in (values (merged g)) r) →
    thread_id r = cumulative ∧ call_stats r = sum_of (items_of (source g) (stack_in (values (merged g)) r))
}.

Lemma index_ok_ext {V K : Type} (key key' : V → K) t ix : (∀ v, v ∈ values t → key v = key' v) →
  index_ok key t ix → index_ok key' t ix.
Proof.
  intros Hk [He Hn Hb Hr]. split; [|done..]. rewrite He. apply map_ext_in. intros [h v] Hin%list_elem_of_In.
  rewrite Hk; [done|]. by apply (list_elem_of_fmap_2 snd) in Hin.
Qed.

Lemma group_items_of t ix p : table_ok t → index_ok (stack_in (values t)) t ix →
  omap (λ h, find_record h (records t)) (equal_range p ix) ≡ₚ items_of t p.
Proof.
  intros Ht Hi. rewrite (equal_range_perm _ _ _ _ Hi). unfold with_key.
  rewrite (find_records_sub (records t)); [|apply Ht|by intros q [_ ?]%list_elem_of_filter].
  apply eq_subrelation; [apply _|]. exact (values_filter (λ n, stack_in (values t) n = p) (records t)).
Qed.

(** Sums do not depend on the order. *)
Lemma sum_functions_perm a l l' : l ≡ₚ l' → sum_functions a l = sum_functions a l'.
Proof.
  intros Hl. unfold sum_functions, sum_of. f_equal. generalize function_statistics_default.
  induction Hl as [|n l l' _ IH|n m l|l1 l2 l3 _ IH1 _ IH2]; intros s; cbn [fold_left]; [done|auto| |by rewrite IH1].
  f_equal. by rewrite <- !add_stats_assoc, (add_stats_comm (call_stats m)).
Qed.

(** Statistics do not matter to the stacks. *)
Definition same_node (n n' : call_statistics) : Prop :=
  call_id n = call_id n' ∧ parent_id n = parent_id n' ∧ address n = address n'.

Lemma stacks_same l l' : Forall2 same_node l l' → stacks l' = stacks l.
Proof.
  unfold stacks. generalize (∅ : gmap Z path). intros m H. revert m.
  induction H as [|n n' l l' (E1 & E2 & E3) _ IH]; intros m; [done|]. cbn [foldl]. by rewrite E1, E2, E3.
Qed.

Lemma stack_in_same l l' n n' : Forall2 same_node l l' → same_node n n' → stack_in l' n' = stack_in l n.
Proof. intros H (E & _ & _). unfold stack_in. by rewrite (stacks_same _ _ H), E. Qed.

Lemma ids_same l l' : Forall2 same_node l l' → map call_id l' = map call_id l.
Proof. induction 1 as [|n n' l l' (E & _ & _) _ IH]; [done|]. simpl. by rewrite IH, E. Qed.

Lemma ordered_same l l' : ordered l → Forall2 same_node l l' → ordered l'.
Proof.
  intros Ho. revert l'. induction Ho as [|l n Hl IH H1 H2 H3]; intros l' H.
  - apply Forall2_nil_inv_l in H as ->. constructor.
  - apply Forall2_app_inv_l in H as (k & k' & Hk & Hn & ->). apply Forall2_cons_inv_l in Hn as (n' & k'' & (E1 & E2 & E3) & Hk' & ->).
    apply Forall2_nil_inv_l in Hk' as ->. constructor; [by apply IH|congruence|..]; rewrite (ids_same _ _ Hk), <- ?E1, <- ?E2; done.
Qed.

(** A modification that keeps the nodes. *)
Lemma modify_same h f (t : table call_statistics) : (∀ n, same_node n (f n)) →
  Forall2 same_node (values t) (values (modify h f t)).
Proof.
  intros Hf. unfold values, modify. cbn [records]. induction (records t) as [|[i n] rs IH]; constructor; [|done].
  simpl. case_decide; [done|by split].
Qed.

Lemma modify_index_ok h f (t : table call_statistics) ix : (∀ n, same_node n (f n)) →
  index_ok (stack_in (values t)) t ix → index_ok (stack_in (values (modify h f t))) (modify h f t) ix.
Proof.
  intros Hf Hi. pose proof (modify_same h f t Hf) as Hs.
  apply (index_ok_ext (stack_in (values t))).
  - intros v _. symmetry. apply (stack_in_same _ _ v v Hs). done.
  - apply index_modify_ok; [|done]. intros v _. unfold stack_in. by destruct (Hf v) as (<- & _ & _).
Qed.

(** A record at the end of a table, with its index. *)
Lemma values_create {V} (v : V) (t : table V) : values (create v t).2 = values t ++ [v].
Proof. unfold values. cbn [create snd records]. by rewrite fmap_app. Qed.

Lemma create_index_ok v (t : table call_statistics) ix : table_ok t → ordered (values (create v t).2) →
  index_ok (stack_in (values t)) t ix →
  index_ok (stack_in (values (create v t).2)) (create v t).2
    (index_created (stack_in (values (create v t).2) v) (next_handle t) ix).
Proof.
  rewrite values_create. intros Ht Ho Hi. destruct (ordered_last _ _ Ho) as (_ & Hfresh & _). apply index_created_ok; [done|].
  apply (index_ok_ext (stack_in (values t))); [|done]. intros m Hm. symmetry. by apply stack_in_old.
Qed.

Lemma map_stacks_same l l' : Forall2 same_node l l' → map (stack_in l') l' = map (stack_in l) l.
Proof.
  intros H. pose proof (stacks_same _ _ H) as E. unfold stack_in. rewrite E. clear E. generalize (stacks l). intros m.
  induction H as [|n n' l l' (E & _ & _) _ IH]; [done|]. simpl. by rewrite IH, E.
Qed.

Lemma map_stacks_snoc l n : ordered (l ++ [n]) →
  map (stack_in (l ++ [n])) (l ++ [n]) = map (stack_in l) l ++ [stack_in (l ++ [n]) n].
Proof.
  intros Ho. destruct (ordered_last _ _ Ho) as (_ & Hf & _). rewrite map_app. f_equal.
  apply map_ext_in. intros m Hm%list_elem_of_In. by apply stack_in_old.
Qed.

Lemma merged_found stale present g h l p : merged_ok stale present g → equal_range p (merged_index g) = h :: l →
  ∃ r, (h, r) ∈ records (merged g) ∧ stack_in (values (merged g)) r = p.
Proof.
  intros Hg He. apply (equal_range_elem _ _ _ _ _ (mg_stacks _ _ _ Hg)). rewrite He. by left.
Qed.

Lemma merged_same stale present g r r' h h' : merged_ok stale present g → (h, r) ∈ records (merged g) →
  (h', r') ∈ records (merged g) → stack_in (values (merged g)) r = stack_in (values (merged g)) r' → h = h' ∧ r = r'.
Proof.
  intros Hg Hr Hr' E. pose proof (mg_once _ _ _ Hg) as Hn. unfold values at 2 in Hn.
  rewrite <- list_fmap_compose in Hn.
  assert ((h, r) = (h', r')) as [= -> ->]; [|done]. by apply (NoDup_map_elem (stack_in (values (merged g)) ∘ snd) (records (merged g))).
Qed.

(** The record that is there is refreshed. *)
Lemma refresh_merged stale present g h r p : merged_ok stale present g →
  (h, r) ∈ records (merged g) → stack_in (values (merged g)) r = p →
  merged_ok (λ q, stale q ∧ q ≠ p) (λ q, present q ∨ q = p)
    (mk_cumulative (source g) (source_index g) (modify h (λ a, sum_functions a (items_of (source g) p)) (merged g)) (merged_index g)).
Proof.
  intros Hg Hr Hp. set (f := λ a, sum_functions a (items_of (source g) p)).
  assert (∀ n, same_node n (f n)) as Hf by (intros n; by repeat split).
  pose proof (modify_same h f (merged g) Hf) as Hs.
  assert (∀ i n, (i, n) ∈ records (modify h f (merged g)) → ∃ m, (i, m) ∈ records (merged g) ∧
    n = (if decide (i = h) then f m else m) ∧ stack_in (values (modify h f (merged g))) n = stack_in (values (merged g)) m) as Hin.
  { intros i n (m & Hm & ->)%modify_elem. exists m. split_and!; [done|done|]. apply (stack_in_same _ _ m _ Hs).
    case_decide; [apply Hf|by repeat split]. }
  split; cbn [source source_index merged merged_index]; try apply Hg.
  - apply modify_ok, Hg.
  - by apply (ordered_same (values (merged g))); [apply Hg|].
  - apply modify_index_ok; [done|apply Hg].
  - intros i n Hn. destruct (Hin i n Hn) as (m & Hm & -> & _). pose proof (mg_ids _ _ _ Hg i m Hm). by case_decide.
  - rewrite (map_stacks_same _ _ Hs). apply Hg.
  - intros q. rewrite (map_stacks_same _ _ Hs), (mg_present _ _ _ Hg). split; [by left|]. intros [?| ->]; [done|].
    apply (mg_present _ _ _ Hg), group_elem. exists r. split; [by apply (list_elem_of_fmap_2 snd) in Hr|done].
  - intros n ([i n'] & -> & Hn)%list_elem_of_fmap Hst. cbn [snd] in *. destruct (Hin i n' Hn) as (m & Hm & -> & E).
    rewrite E in Hst |- *. destruct (decide (i = h)) as [->|Hi].
    + assert ((h, m) = (h, r)) as [= ->] by (apply (NoDup_map_elem fst (records (merged g))); [apply Hg|done..]).
      by rewrite Hp.
    + apply (mg_rows _ _ _ Hg); [by apply (list_elem_of_fmap_2 snd) in Hm|]. intros Hst'. apply Hst. split; [done|].
      intros E'. apply Hi. by destruct (merged_same _ _ _ m r i h Hg Hm Hr ltac:(congruence)).
Qed.

(** A new record finds its parent. *)
Lemma write_key_ok stale present g q a n : merged_ok stale present g → q = [] ∨ present q →
  ∃ parent, write_key g (q ++ [a]) n = Ret (mk_call (call_id n) 0 parent a (call_stats n)) ∧
    (parent = 0 ∨ parent ∈ map call_id (values (merged g))) ∧ default [] (stacks (values (merged g)) !! parent) = q.
Proof.
  intros Hg Hq. unfold write_key. rewrite last_snoc, removelast_last.
  destruct q as [|b q]; [|set (p := b :: q) in *; destruct Hq as [Hq|Hq]; [done|]].
  - exists 0. split_and!; [done|by left|]. by rewrite stacks_fresh by apply ordered_nonzero, Hg.
  - apply (mg_present _ _ _ Hg), group_elem in Hq as (r & ([h r'] & -> & Hr)%list_elem_of_fmap & Hp). cbn [snd] in *.
    assert (h ∈ equal_range p (merged_index g)) as Hh by (apply (equal_range_elem _ _ _ _ _ (mg_stacks _ _ _ Hg)); eauto).
    destruct (equal_range p (merged_index g)) as [|h' l] eqn:E; [by apply elem_of_nil in Hh|].
    destruct (merged_found _ _ _ _ _ _ Hg E) as (r & Hr' & Hp').
    rewrite (proj2 (find_record_elem h' r _ (proj1 (mg_merged _ _ _ Hg))) Hr'). exists (call_id r). split_and!; [done| |done].
    right. apply group_elem. exists r. split; [by apply (list_elem_of_fmap_2 snd) in Hr'|done].
Qed.

(** The record that was not there is made: [k] is its stack again. *)
Lemma create_merged stale present g r p :
  merged_ok stale present g → ¬ present p → ordered (values (merged g) ++ [r]) →
  stack_in (values (merged g) ++ [r]) r = p → call_id r = Z.of_nat (next_handle (merged g)) + 1 →
  thread_id r = cumulative → call_stats r = sum_of (items_of (source g) p) →
  merged_ok (λ q, stale q ∧ q ≠ p) (λ q, present q ∨ q = p)
    (mk_cumulative (source g) (source_index g) (create r (merged g)).2 (index_created p (next_handle (merged g)) (merged_index g))).
Proof.
  intros Hg Hnew Ho Hp Hid Hth Hsum. destruct (ordered_last _ _ Ho) as (_ & Hf & _).
  pose proof (values_create r (merged g)) as Hv.
  split; cbn [source source_index merged merged_index]; try apply Hg.
  - apply (create_ok r), Hg.
  - by rewrite Hv.
  - rewrite <- Hp, <- Hv. apply create_index_ok; [apply Hg|by rewrite Hv|apply Hg].
  - intros h n Hn. cbn [create snd records] in Hn. apply elem_of_app in Hn as [Hn|Hn%list_elem_of_singleton].
    + by apply (mg_ids _ _ _ Hg).
    + by injection Hn as -> ->.
  - rewrite Hv, map_stacks_snoc by done. apply NoDup_app. split_and!; [apply Hg| |apply NoDup_singleton].
    intros q Hq ->%list_elem_of_singleton. apply Hnew. rewrite <- Hp. by apply (mg_present _ _ _ Hg).
  - intros q. rewrite Hv, map_stacks_snoc, elem_of_app, (mg_present _ _ _ Hg), list_elem_of_singleton, Hp by done. done.
  - intros n Hn Hst. rewrite Hv in Hn, Hst |- *. apply elem_of_app in Hn as [Hn|Hn%list_elem_of_singleton].
    + rewrite stack_in_old in Hst |- * by done. apply (mg_rows _ _ _ Hg); [done|]. intros Hst'. apply Hst. split; [done|].
      intros E. apply Hnew. rewrite <- E. apply (mg_present _ _ _ Hg), group_elem. by exists n.
    + subst n. by rewrite Hp.
Qed.

Lemma update_merged_ok stale present g v q a : merged_ok stale present g → v ∈ values (source g) →
  stack_in (values (source g)) v = q ++ [a] → q = [] ∨ present q → Z.of_nat (next_handle (merged g)) + 1 < 2 ^ 32 →
  ∃ g', update_merged v g = Ret g' ∧ source g' = source g ∧ (next_handle (merged g') ≤ S (next_handle (merged g)))%nat ∧
    merged_ok (λ p, stale p ∧ p ≠ q ++ [a]) (λ p, present p ∨ p = q ++ [a]) g'.
Proof.
  intros Hg Hv Hs Hq Hroom. unfold update_merged. rewrite callstack_ok by (done || apply Hg). cbn [mbind result_bind].
  rewrite Hs. pose proof (group_items_of _ _ (q ++ [a]) (mg_source _ _ _ Hg) (mg_index _ _ _ Hg)) as Hitems.
  set (items := omap _ _) in *.
  assert (∀ h t, modify h (λ r, sum_functions r items) t = modify h (λ r, sum_functions r (items_of (source g) (q ++ [a]))) t) as Em
    by (intros h t; unfold modify; f_equal; apply map_ext; intros [i n]; case_decide; [|done]; by rewrite (sum_functions_perm _ _ _ Hitems)).
  destruct (equal_range (q ++ [a]) (merged_index g)) as [|h l] eqn:E.
  - destruct (write_key_ok _ _ g q a (mk_call (u32 (Z.of_nat (next_handle (merged g)) + 1)) 0 0 0 function_statistics_default) Hg Hq)
      as (parent & -> & Hp & Hst). cbn [mbind result_bind call_id call_stats create].
    rewrite uw_small by (unfold in_u; lia). rewrite (sum_functions_perm _ _ _ Hitems). set (r := sum_functions _ _).
    assert (ordered (values (merged g) ++ [r])) as Ho.
    { constructor; [apply Hg|cbn; lia| |done]. rewrite group_elem. intros (n & ([h n'] & -> & Hn)%list_elem_of_fmap & Hid).
      pose proof (mg_ids _ _ _ Hg h n' Hn) as Hid'. cbn [snd] in *. unfold r in Hid. cbn [sum_functions call_id] in Hid.
      destruct (mg_merged _ _ _ Hg) as [_ Hl]. rewrite Forall_forall in Hl. specialize (Hl _ Hn). cbn [fst] in Hl. lia. }
    assert (stack_in (values (merged g) ++ [r]) r = q ++ [a]) as Hr by (rewrite stack_in_new; unfold r; cbn; by rewrite Hst).
    assert (¬ present (q ++ [a])) as Hnew.
    { intros (n & ([h n'] & -> & Hn)%list_elem_of_fmap & Hk)%(mg_present _ _ _ Hg)%group_elem.
      assert (h ∈ equal_range (q ++ [a]) (merged_index g)) as Hh by (apply (equal_range_elem _ _ _ _ _ (mg_stacks _ _ _ Hg)); eauto).
      rewrite E in Hh. by apply elem_of_nil in Hh. }
    rewrite (callstack_ok (create r (merged g)).2);
      [|by rewrite values_create|rewrite values_create; apply elem_of_app; right; by left].
    rewrite values_create, Hr. cbn [mbind result_bind]. eexists. split_and!; [done|done|cbn; lia|].
    by apply create_merged.
  - destruct (merged_found _ _ _ _ _ _ Hg E) as (r & Hr & Hk). eexists. split_and!; [done|done|cbn; lia|].
    rewrite Em. by apply (refresh_merged _ _ g h r).
Qed.

(** * The table that is merged *)

(** There is a record for every stack of the calls, once, in the place of its stack in the merged tree, with the sums over
    the calls along it. *)
Definition stacks_of (t : table call_statistics) : list path := map (stack_in (values t)) (values t).
Definition cumulative_ok (g : cumulative_table) : Prop := merged_ok (λ _, False) (λ p, p ∈ stacks_of (source g)) g.

Lemma merged_ok_weaken (stale stale' present present' : path → Prop) g : (∀ p, stale p → stale' p) →
  (∀ p, present p ↔ present' p) → merged_ok stale present g → merged_ok stale' present' g.
Proof.
  intros Hs Hp Hg. split; try apply Hg.
  - intros p. by rewrite (mg_present _ _ _ Hg).
  - intros r Hr Hst. apply (mg_rows _ _ _ Hg); [done|]. intros H. by apply Hst, Hs.
Qed.

Lemma stack_in_prefix l l' m : ordered (l ++ l') → m ∈ l → stack_in (l ++ l') m = stack_in l m.
Proof.
  intros Ho Hm. induction l' as [|n l' IH] using rev_ind; [by rewrite app_nil_r|]. rewrite app_assoc in Ho |- *.
  rewrite stack_in_old; [apply IH; by apply ordered_app in Ho|apply (ordered_last _ _ Ho)|apply elem_of_app; by left].
Qed.

(** A stack is that of a call that comes before, and an address. *)
Lemma parent_stack l v l' : ordered (l ++ v :: l') →
  ∃ q, stack_in (l ++ v :: l') v = q ++ [address v] ∧ (q = [] ∨ q ∈ map (stack_in (l ++ v :: l')) l).
Proof.
  intros Ho. exists (default [] (stacks l !! parent_id v)). pose proof Ho as Ho'. rewrite cons_middle, app_assoc in Ho'.
  pose proof (ordered_app _ _ Ho') as Hv. destruct (ordered_last _ _ Hv) as (_ & _ & Hp). split.
  - rewrite cons_middle, app_assoc, stack_in_prefix; [apply stack_in_new|done|apply elem_of_app; right; by left].
  - destruct Hp as [->|Hp]; [left; by rewrite stacks_fresh by (apply ordered_nonzero; by apply ordered_app in Hv)|right].
    apply group_elem in Hp as (w & Hw & <-). apply group_elem. exists w. split; [done|]. by apply stack_in_prefix.
Qed.

Lemma parent_stack_elem l v : ordered l → v ∈ l → ∃ q, stack_in l v = q ++ [address v] ∧ (q = [] ∨ q ∈ map (stack_in l) l).
Proof.
  intros Ho (l1 & l2 & ->)%list_elem_of_split. destruct (parent_stack _ _ _ Ho) as (q & Hq & Hp). exists q. split; [done|].
  destruct Hp as [Hp|Hp]; [by left|right]. rewrite map_app, elem_of_app. by left.
Qed.

Lemma index_by_stacks (t : table call_statistics) rs ix : ordered (values t) → (∀ p, p ∈ rs → p ∈ records t) →
  fold_m (λ ix '(h, v), k ← callstack t v; Ret (index_created k h ix)) ix rs =
  Ret (foldl (λ ix '(h, v), index_created (stack_in (values t) v) h ix) ix rs).
Proof.
  intros Ho. revert ix. induction rs as [|[h v] rs IH]; intros ix Hin; [done|]. cbn [fold_m foldl].
  rewrite callstack_ok; [|done|by apply (list_elem_of_fmap_2 snd _ (h, v)), Hin; left]. cbn [mbind result_bind].
  apply IH. intros p Hp. apply Hin. by right.
Qed.

Lemma merge_records t rest : ∀ done_ g, records t = done_ ++ rest → source g = t → len (records t) < 2 ^ 32 →
  (next_handle (merged g) ≤ length done_)%nat →
  merged_ok (λ _, False) (λ p, p ∈ map (stack_in (values t)) done_.*2) g →
  ∃ g', fold_m (λ g '(_, v), update_merged v g) g rest = Ret g' ∧ source g' = t ∧ cumulative_ok g' ∧
    (next_handle (merged g') ≤ length (records t))%nat.
Proof.
  induction rest as [|[h v] rest IH]; intros done_ g Hr Hs Hlen Hn Hg.
  - exists g. rewrite app_nil_r in Hr. unfold cumulative_ok, stacks_of. rewrite Hs. split_and!; [done|done| |by rewrite Hr].
    assert (done_.*2 = values t) as E by (unfold values; by rewrite Hr). by rewrite E in Hg.
  - cbn [fold_m]. assert (values t = done_.*2 ++ v :: rest.*2) as Hv by (unfold values; rewrite Hr; by rewrite fmap_app).
    pose proof (mg_ordered _ _ _ Hg) as Ho. rewrite Hs, Hv in Ho. destruct (parent_stack _ _ _ Ho) as (q & Hq & Hp).
    rewrite <- Hv in Hq, Hp. rewrite Hr, length_app in Hlen. cbn [length] in Hlen.
    destruct (update_merged_ok _ _ g v q (address v) Hg) as (g' & -> & Hs' & Hn' & Hg').
    + rewrite Hs, Hv. apply elem_of_app. right. by left.
    + by rewrite Hs.
    + done.
    + lia.
    + cbn [mbind result_bind]. apply (IH (done_ ++ [(h, v)])).
      * by rewrite Hr, <- app_assoc.
      * congruence.
      * rewrite Hr, length_app. simpl. lia.
      * rewrite length_app. simpl. lia.
      * eapply merged_ok_weaken; [|intros p|exact Hg']; [tauto|]. rewrite fmap_app, map_app, elem_of_app. cbn [fmap list_fmap map snd].
        rewrite list_elem_of_singleton, Hq. done.
Qed.

Lemma group_by_callstack_ok t : table_ok t → ordered (values t) → len (records t) < 2 ^ 32 →
  ∃ g, group_by_callstack t = Ret g ∧ source g = t ∧ cumulative_ok g ∧ (next_handle (merged g) ≤ length (records t))%nat.
Proof.
  intros Ht Ho Hlen. unfold group_by_callstack. rewrite index_by_stacks by done. cbn [mbind result_bind].
  apply (merge_records t (records t) []); [done|done|done|simpl; lia|].
  split; cbn [source source_index merged merged_index]; try done.
  - by apply build_index_ok.
  - exact (clear_ok empty_table).
  - constructor.
  - exact (index_cleared_ok _ empty_table empty_index).
  - by intros h r ?%elem_of_nil.
  - constructor.
  - by intros r ?%elem_of_nil.
Qed.

(** * Any history *)

Lemma filter_ext_elem {A} (P Q : A → Prop) `{∀ x, Decision (P x), ∀ x, Decision (Q x)} (l : list A) :
  (∀ x, x ∈ l → P x ↔ Q x) → filter P l = filter Q l.
Proof.
  induction l as [|x l IH]; intros Hpq; [done|]. assert (filter P l = filter Q l) as E by (apply IH; intros y Hy; apply Hpq; by right).
  pose proof (Hpq x ltac:(by left)). destruct (decide (P x)).
  - rewrite !filter_cons_True by tauto. by rewrite E.
  - rewrite !filter_cons_False by tauto. done.
Qed.

Lemma items_of_create t v p : ordered (values t ++ [v]) →
  items_of (create v t).2 p = items_of t p ++ (if decide (stack_in (values t ++ [v]) v = p) then [v] else []).
Proof.
  intros Ho. unfold items_of. rewrite values_create, filter_app. f_equal.
  apply filter_ext_elem. intros m Hm. rewrite stack_in_old; [done|apply (ordered_last _ _ Ho)|done].
Qed.

Lemma stacks_of_create t v : ordered (values t ++ [v]) →
  stacks_of (create v t).2 = stacks_of t ++ [stack_in (values t ++ [v]) v].
Proof. intros Ho. unfold stacks_of. by rewrite values_create, map_stacks_snoc. Qed.

(** The calls change, and with them what is summed along one stack. *)
Lemma source_changed g t ix p : cumulative_ok g → table_ok t → ordered (values t) → index_ok (stack_in (values t)) t ix →
  (∀ q, q ≠ p → items_of t q = items_of (source g) q) →
  merged_ok (λ q, q = p) (λ q, q ∈ stacks_of (source g)) (mk_cumulative t ix (merged g) (merged_index g)).
Proof.
  intros Hg Ht Ho Hi Hitems. split; cbn [source source_index merged merged_index]; try done; try apply Hg.
  intros r Hr Hst. rewrite Hitems by done. apply (mg_rows _ _ _ Hg); [done|]. by intros [].
Qed.

Lemma c_create_ok v g : cumulative_ok g → ordered (values (source g) ++ [v]) → Z.of_nat (next_handle (merged g)) + 1 < 2 ^ 32 →
  ∃ g', c_create v g = Ret g' ∧ source g' = (create v (source g)).2 ∧ cumulative_ok g' ∧
    (next_handle (merged g') ≤ S (next_handle (merged g)))%nat.
Proof.
  intros Hg Ho Hroom. unfold c_create. cbn [create]. change (mk_table _ _) with (create v (source g)).2.
  pose proof (values_create v (source g)) as Hv.
  rewrite (callstack_ok (create v (source g)).2); [|by rewrite Hv|rewrite Hv; apply elem_of_app; right; by left].
  cbn [mbind result_bind]. set (g1 := mk_cumulative _ _ _ _). set (p := stack_in (values (create v (source g)).2) v).
  assert (merged_ok (λ q, q = p) (λ q, q ∈ stacks_of (source g)) g1) as Hg1.
  { apply source_changed; [done|apply (create_ok v), Hg|by rewrite Hv|apply create_index_ok; [apply Hg|by rewrite Hv|apply Hg]|].
    intros q Hq. rewrite items_of_create, decide_False, app_nil_r by (done || unfold p in Hq; rewrite Hv in Hq; congruence). done. }
  destruct (parent_stack (values (source g)) v [] Ho) as (q & Hq & Hp).
  destruct (update_merged_ok _ _ g1 v q (address v) Hg1) as (g' & Hu & Hs & Hn & Hg').
  - cbn [g1 source]. rewrite Hv. apply elem_of_app. right. by left.
  - cbn [g1 source]. by rewrite Hv.
  - destruct Hp as [?|Hp]; [by left|right]. unfold stacks_of. erewrite map_ext_in; [exact Hp|].
    intros m Hm%list_elem_of_In. symmetry. apply stack_in_old; [apply (ordered_last _ _ Ho)|done].
  - done.
  - exists g'. split_and!; [done|done| |done]. eapply merged_ok_weaken; [|intros q'|exact Hg'].
    + intros q' [-> Hne]. apply Hne. unfold p. by rewrite Hv.
    + rewrite Hs. cbn [g1 source]. rewrite stacks_of_create, elem_of_app, list_elem_of_singleton, Hq by done. done.
Qed.

Lemma items_of_modify h f t v q : (∀ n, same_node n (f n)) → table_ok t → (h, v) ∈ records t → q ≠ stack_in (values t) v →
  items_of (modify h f t) q = items_of t q.
Proof.
  intros Hf [Hnd _] Hv Hq. pose proof (stacks_same _ _ (modify_same h f t Hf)) as Es. unfold items_of, stack_in in *.
  rewrite Es. assert (∀ n, (h, n) ∈ records t → n = v) as Hh.
  { intros n Hn. by assert ((h, n) = (h, v)) as [= ->] by (by apply (NoDup_map_elem fst (records t))). }
  revert Hq. generalize (stacks (values t)). clear Es Hv Hnd. intros m Hq. unfold values, modify. cbn [records].
  induction (records t) as [|[i n] rs IH]; [done|]. rewrite !fmap_cons. cbn [map snd].
  assert (filter (λ n, default [] (m !! call_id n) = q) (map (λ '(h', v), (h', if decide (h' = h) then f v else v)) rs).*2 =
    filter (λ n, default [] (m !! call_id n) = q) rs.*2) as E by (apply IH; intros k Hk; apply Hh; by right).
  case_decide as Hi; cbn [snd].
  - subst i. rewrite (Hh n ltac:(by left)). rewrite !filter_cons_False; [exact E|..]; destruct (Hf v) as [Ev _]; congruence.
  - destruct (decide (default [] (m !! call_id n) = q)).
    + rewrite !(filter_cons_True _ n) by done. f_equal. exact E.
    + rewrite !(filter_cons_False _ n) by done. exact E.
Qed.

Definition with_stats (st : function_statistics) (c : call_statistics) : call_statistics :=
  mk_call (call_id c) (thread_id c) (parent_id c) (address c) st.

Lemma c_modify_ok h st g : cumulative_ok g → h ∈ (records (source g)).*1 → Z.of_nat (next_handle (merged g)) + 1 < 2 ^ 32 →
  ∃ g', c_modify h st g = Ret g' ∧ source g' = modify h (with_stats st) (source g) ∧ cumulative_ok g' ∧
    (next_handle (merged g') ≤ S (next_handle (merged g)))%nat.
Proof.
  intros Hg ([h' v] & -> & Hv)%list_elem_of_fmap Hroom. cbn [fst]. unfold c_modify. fold (with_stats st).
  assert (∀ n, same_node n (with_stats st n)) as Hf by by repeat split.
  set (t := modify h' (with_stats st) (source g)). pose proof (modify_same h' _ (source g) Hf) as Hs. fold t in Hs.
  assert (table_ok t) as Ht by apply modify_ok, Hg. assert (ordered (values t)) as Ho by (eapply ordered_same; [apply (mg_ordered _ _ _ Hg)|done]).
  assert ((h', with_stats st v) ∈ records t) as Hv' by (apply modify_elem; exists v; by rewrite decide_True).
  rewrite (proj2 (find_record_elem _ _ _ (proj1 Ht)) Hv').
  assert (stack_in (values t) (with_stats st v) = stack_in (values (source g)) v) as Ev by (by apply (stack_in_same _ _ v)).
  assert (stacks_of t = stacks_of (source g)) as Es by by apply map_stacks_same.
  set (g1 := mk_cumulative t _ _ _). set (p := stack_in (values (source g)) v) in *.
  assert (merged_ok (λ q, q = p) (λ q, q ∈ stacks_of (source g)) g1) as Hg1.
  { apply source_changed; [done|done|done|apply modify_index_ok; [done|apply Hg]|].
    intros q Hq. apply (items_of_modify h' _ _ v); [done|apply Hg|done|done]. }
  destruct (parent_stack_elem (values t) (with_stats st v) Ho) as (q & Hq & Hp); [by apply (list_elem_of_fmap_2 snd) in Hv'|].
  destruct (update_merged_ok _ _ g1 (with_stats st v) q (address v) Hg1) as (g' & Hu & Hsrc & Hn & Hg').
  - by apply (list_elem_of_fmap_2 snd) in Hv'.
  - exact Hq.
  - rewrite <- Es. exact Hp.
  - done.
  - exists g'. split_and!; [done|done| |done]. eapply merged_ok_weaken; [|intros q'|exact Hg'].
    + intros q' [-> Hne]. apply Hne. rewrite <- Ev. exact Hq.
    + rewrite Hsrc. cbn [g1 source]. rewrite Es. split; [|by left]. intros [?| ->]; [done|]. rewrite <- Es.
      apply group_elem. exists (with_stats st v). split; [by apply (list_elem_of_fmap_2 snd) in Hv'|exact Hq].
Qed.

Lemma c_clear_ok g : cumulative_ok g → cumulative_ok (c_clear g).
Proof.
  intros Hg. split; cbn [c_clear source source_index merged merged_index clear_records records values fmap list_fmap]; try done.
  - apply clear_ok.
  - constructor.
  - apply (index_cleared_ok _ (source g)).
  - apply clear_ok.
  - constructor.
  - apply (index_cleared_ok _ (merged g)).
  - by intros h r ?%elem_of_nil.
  - constructor.
  - by intros r ?%elem_of_nil.
Qed.

Inductive c_op :=
  | c_op_create (v : call_statistics) | c_op_modify (h : nat) (st : function_statistics) | c_op_clear.

Definition c_run (g : cumulative_table) (op : c_op) : result cumulative_table :=
  match op with c_op_create v => c_create v g | c_op_modify h st => c_modify h st g | c_op_clear => Ret (c_clear g) end.

(** The table of calls itself. *)
Definition source_run (t : table call_statistics) (op : c_op) : table call_statistics :=
  match op with
  | c_op_create v => (create v t).2
  | c_op_modify h st => modify h (with_stats st) t
  | c_op_clear => clear_records t
  end.

(** A new call has an identifier of its own and a parent that is there; what is updated is there. *)
Definition op_valid (t : table call_statistics) (op : c_op) : Prop :=
  match op with c_op_create v => ordered (values t ++ [v]) | c_op_modify h _ => h ∈ (records t).*1 | c_op_clear => True end.

Fixpoint ops_valid (t : table call_statistics) (ops : list c_op) : Prop :=
  match ops with [] => True | op :: ops => op_valid t op ∧ ops_valid (source_run t op) ops end.

Lemma c_run_ok g op : cumulative_ok g → op_valid (source g) op → Z.of_nat (next_handle (merged g)) + 1 < 2 ^ 32 →
  ∃ g', c_run g op = Ret g' ∧ source g' = source_run (source g) op ∧ cumulative_ok g' ∧
    (next_handle (merged g') ≤ S (next_handle (merged g)))%nat.
Proof.
  intros Hg Hop Hroom. destruct op as [v|h st|]; [by apply c_create_ok|by apply c_modify_ok|].
  eexists. split_and!; [done|done|by apply c_clear_ok|cbn; lia].
Qed.

Lemma c_runs_ok ops : ∀ g, cumulative_ok g → ops_valid (source g) ops →
  Z.of_nat (next_handle (merged g)) + len ops < 2 ^ 32 →
  ∃ g', fold_m c_run g ops = Ret g' ∧ source g' = foldl source_run (source g) ops ∧ cumulative_ok g'.
Proof.
  induction ops as [|op ops IH]; intros g Hg; [by exists g|]. cbn [ops_valid fold_m length foldl]. intros [Hop Hops] Hroom.
  destruct (c_run_ok g op Hg Hop ltac:(lia)) as (g1 & -> & Hs & Hg1 & Hn). cbn [mbind result_bind]. rewrite <- Hs in Hops |- *.
  apply IH; [done|done|lia].
Qed.

(** C34: The merged tree is never out of date: whatever calls are added, updated and cleared after it was made, it holds one
    record for every stack of addresses that occurs (and none for others), at the place of its stack in the tree, for
    all threads together, with the sum of the statistics of the calls along this stack; and making and
    maintaining it never fails. *)
Theorem cumulative_follows t ops :
  table_ok t → ordered (values t) → ops_valid t ops → len (records t) + len ops < 2 ^ 32 →
  ∃ g g', group_by_callstack t = Ret g ∧ fold_m c_run g ops = Ret g' ∧
    let calls := values (foldl source_run t ops) in
    let rows := values (merged g') in
    ordered rows ∧ NoDup (map (stack_in rows) rows) ∧
    (∀ p, p ∈ map (stack_in rows) rows ↔ p ∈ map (stack_in calls) calls) ∧
    ∀ r, r ∈ rows → thread_id r = cumulative ∧
      call_stats r = sum_of (filter (λ n, stack_in calls n = stack_in rows r) calls).
Proof.
  intros Ht Ho Hops Hroom. destruct (group_by_callstack_ok t Ht Ho ltac:(lia)) as (g & Hb & Hs & Hg & Hn).
  rewrite <- Hs in Hops. destruct (c_runs_ok ops g Hg Hops ltac:(lia)) as (g' & Hr & Hs' & Hg'). rewrite Hs in Hs'.
  exists g, g'. rewrite <- Hs'. cbv zeta. split_and!; [done|done|apply Hg'|apply Hg'| |].
  - apply (mg_present _ _ _ Hg').
  - intros r Hin. apply (mg_rows _ _ _ Hg' r Hin). by intros [].
Qed.

Lemma sum_wf l : ∀ s, Forall (λ n, wf_stats (call_stats n)) l → wf_stats s →
  wf_stats (fold_left (λ s n, add_stats s (call_stats n)) l s).
Proof.
  induction l as [|n l IH]; intros s Hl Hs; [done|]. inversion Hl. cbn [fold_left]. apply IH; [done|]. by apply add_stats_wf.
Qed.

(** The table a view of all the threads together is made of is a table of calls like another. *)
Lemma merged_is_source g : cumulative_ok g → Forall (λ n, wf_stats (call_stats n)) (values (source g)) →
  table_ok (merged g) ∧ Forall (λ n, wf_stats (call_stats n)) (values (merged g)).
Proof.
  intros Hg Hwf. split; [apply Hg|]. apply Forall_forall. intros r Hr.
  destruct (mg_rows _ _ _ Hg r Hr) as [_ ->]; [by intros []|].
  apply sum_wf; [by apply Forall_filter_2|apply default_wf].
Qed.

End cumulative_view.

(** * Two threads in the same functions *)

Definition demo_node (i thread parent a times : Z) : call_statistics := mk_call i thread parent a (mk_stats times 10 5 10).
Definition demo_threads : table call_statistics :=
  table_of [demo_node 1 0 0 100 1; demo_node 2 0 1 200 2; demo_node 3 1 0 100 4; demo_node 4 1 3 200 8; demo_node 5 1 4 100 16].
Definition demo_ops : list c_op := [c_op_create (demo_node 6 0 2 300 1); c_op_modify 1 (mk_stats 32 10 5 10)].

Definition rows_of (g : result cumulative_table) : list (Z * Z * Z * Z) :=
  match g with Ret g => map (λ n, (call_id n, parent_id n, address n, times_called (call_stats n))) (values (merged g)) | _ => [] end.

Example demo_merged :
  rows_of (group_by_callstack demo_threads) = [(1, 0, 100, 5); (2, 1, 200, 10); (3, 2, 100, 16)] ∧
  rows_of (g ← group_by_callstack demo_threads; fold_m c_run g demo_ops) =
    [(1, 0, 100, 5); (2, 1, 200, 40); (3, 2, 100, 16); (4, 2, 300, 1)].
Proof. vm_compute. done. Qed.

Lemma demo_threads_ordered : ordered (values demo_threads).
Proof.
  assert (values demo_threads = [] ++ [demo_node 1 0 0 100 1] ++ [demo_node 2 0 1 200 2] ++ [demo_node 3 1 0 100 4] ++
    [demo_node 4 1 3 200 8] ++ [demo_node 5 1 4 100 16]) as -> by done. rewrite !app_assoc.
  repeat constructor; cbn; rewrite ?elem_of_cons, ?elem_of_nil; lia.
Qed.

Definition demo_followed : Prop :=
  ∃ g g', group_by_callstack demo_threads = Ret g ∧ fold_m c_run g demo_ops = Ret g' ∧
    let calls := values (foldl source_run demo_threads demo_ops) in
    let rows := values (merged g') in
    ordered rows ∧ NoDup (map (stack_in rows) rows) ∧
    (∀ p, p ∈ map (stack_in rows) rows ↔ p ∈ map (stack_in calls) calls) ∧
    ∀ r, r ∈ rows → thread_id r = cumulative ∧
      call_stats r = sum_of (filter (λ n, stack_in calls n = stack_in rows r) calls).

Lemma cumulative_follows_witness : demo_followed.
Proof.
  apply (cumulative_follows demo_threads demo_ops); [apply table_of_ok|apply demo_threads_ordered| |vm_compute; done].
  split; [|split; [cbn; rewrite !elem_of_cons; tauto|done]].
  constructor; [apply demo_threads_ordered|..]; cbn; rewrite ?elem_of_cons, ?elem_of_nil; lia.
Defined.
