(* ===== verification/Headers.v ===== *)
(** The headers of tables (frontend/headers_model.h, frontend/src/headers_model.cpp) and where their
    order and widths are kept between the runs (common/configuration.h).

    A configuration is a tree of hives with numbers in them.  The registry, which implements it, does not
    tell names apart that differ in the case of letters only; what it promises is a class here. *)

From S2P Require Import Prelude Hierarchy Views Models Columns.
Local Open Scope Z_scope.

(** * Configuration *)

(** [common/configuration.h:28-38] hive. A hive is named by the names on the way to it, in a configuration [C]. *)
Class hives (C : Type) := {
  create : list string → C → C;
  open : list string → C → bool;
  store : list string → string → Z → C → C;
  load : list string → string → C → option Z
}.

(** What is stored is loaded, by every name that is taken for the same one, which is at least as long; a hive
    that was created can be opened, and stays. *)
Class hives_laws (C : Type) `{hives C} := {
  same_name : string → string;
  same_name_length a b : same_name a = same_name b → String.length a = String.length b;
  load_store p n v c p' n' : in_s 32 v → load p' n' (store p n v c) =
    if decide (map same_name p' = map same_name p ∧ same_name n' = same_name n) then Some v else load p' n' c;
  load_create p c p' n' : load p' n' (create p c) = load p' n' c;
  open_create p c : open p (create p c) = true;
  open_create_keeps p c p' : open p' c = true → open p' (create p c) = true;
  open_store p n v c p' : open p' c = true → open p' (store p n v c) = true
}.

(** * Headers *)

Section headers.
Context `{CL : hives_laws C}.

(** [frontend/headers_model.h:52-62] headers_model::column *)
Record header := mk_header {
  h_id : string;
  h_caption : string;
  h_width : Z;
  h_alignment : text_alignment;
  h_compare : bool;
  h_ascending : bool
}.

(** [frontend/headers_model.h:72-82] headers_model::column::column *)
Definition header_of {V W D} (from : column V W D) : header :=
  mk_header (column_id from) (caption from) (width from) (alignment from)
    (match compare (definition from) with Some _ => true | None => false end) (ascending from).

(** [frontend/headers_model.h:64-67] headers_model. [sent] are the signals: a column is to be drawn again, or the
    order has changed. *)
Inductive header_signal := hs_invalidate (item : Z) | hs_sort_order_changed (column : Z) (ascending : bool).
Record headers_model := mk_headers {
  headers : list header;
  sort_column : Z;
  sort_ascending : bool;
  sent : list header_signal
}.

(** [frontend/headers_model.h:85-88] headers_model::headers_model *)
Definition new_headers {V W D} (columns : list (column V W D)) (sort_column : Z) (sort_ascending : bool) : headers_model :=
  mk_headers (map header_of columns) sort_column sort_ascending [].

Definition c_order_by : string := "OrderBy".
Definition c_order_direction : string := "OrderDirection".
Definition c_width : string := "Width".

(** [frontend/src/headers_model.cpp:56-63] headers_model::store. The loop. *)
Definition store_widths (p : list string) (hs : list header) (c : C) : C :=
  fold_left (λ c h, store (p ++ [h_id h]) c_width (h_width h) (create (p ++ [h_id h]) c)) hs c.

(** [frontend/src/headers_model.cpp:52-63] headers_model::store *)
Definition store_headers (p : list string) (m : headers_model) (c : C) : C :=
  let c := store p c_order_by (if negb (sort_column m =? npos) then sw 32 (sort_column m) else -1) c in
  let c := store p c_order_direction (if sort_ascending m then 1 else 0) c in
  store_widths p (headers m) c.

(** [frontend/src/headers_model.cpp:36-42] load_int *)
Definition load_int (cast : Z → Z) (p : list string) (n : string) (value : Z) (c : C) : Z :=
  match load p n c with Some stored => cast stored | None => value end.

(** [frontend/src/headers_model.cpp:44-49] load_int *)
Definition load_bool (p : list string) (n : string) (value : bool) (c : C) : bool :=
  match load p n c with Some stored => negb (stored =? 0) | None => value end.

Definition with_width (h : header) (w : Z) : header :=
  mk_header (h_id h) (h_caption h) w (h_alignment h) (h_compare h) (h_ascending h).

(** [frontend/src/headers_model.cpp:72-78] headers_model::update. The body of the loop. *)
Definition load_width (p : list string) (c : C) (h : header) : header :=
  if open (p ++ [h_id h]) c then with_width h (load_int (sw 16) (p ++ [h_id h]) c_width (h_width h) c) else h.

(** [frontend/src/headers_model.cpp:65-79] headers_model::update *)
Definition update_headers (p : list string) (c : C) (m : headers_model) : headers_model :=
  let sort_column := load_int u64 p c_order_by (sort_column m) c in
  let sort_column := if sort_column <? u64 (len (headers m)) then sort_column else npos in
  let sort_ascending := load_bool p c_order_direction (sort_ascending m) c in
  mk_headers (map (load_width p c) (headers m)) sort_column sort_ascending (sent m).

(** [frontend/src/headers_model.cpp:81-82] headers_model::get_count *)
Definition headers_count (m : headers_model) : Z := u64 (len (headers m)).

(** [frontend/src/headers_model.cpp:84-85] headers_model::get_value *)
Definition header_width (index : nat) (m : headers_model) : result Z :=
  match headers m !! index with Some h => Ret (h_width h) | None => UB end.

(** [frontend/src/headers_model.cpp:87-88] headers_model::get_sort_order *)
Definition get_sort_order (m : headers_model) : Z * bool := (sort_column m, sort_ascending m).

(** [frontend/src/headers_model.cpp:90-94] headers_model::set_width *)
Definition set_width (item : nat) (w : Z) (m : headers_model) : result headers_model :=
  match headers m !! item with
  | Some h => Ret (mk_headers (<[item := with_width h w]> (headers m)) (sort_column m) (sort_ascending m)
      (sent m ++ [hs_invalidate (Z.of_nat item)]))
  | None => UB
  end.

(** [frontend/src/headers_model.cpp:96-100] headers_model::get_alignment. [get_header_alignment] differs in the vertical
    part. *)
Definition header_alignment (index : nat) (m : headers_model) : result text_alignment :=
  match headers m !! index with Some h => Ret (h_alignment h) | None => UB end.

(** [frontend/src/headers_model.cpp:102-103] headers_model::get_caption *)
Definition header_caption (index : nat) (m : headers_model) : result string :=
  match headers m !! index with Some h => Ret (h_caption h) | None => UB end.

(** [frontend/src/headers_model.cpp:105-115] headers_model::activate_column *)
Definition activate_column (column_ : nat) (m : headers_model) : result headers_model :=
  match headers m !! column_ with
  | None => UB
  | Some activated =>
    if h_compare activated then
      let asc := if sort_column m =? Z.of_nat column_ then negb (sort_ascending m) else h_ascending activated in
      Ret (mk_headers (headers m) (Z.of_nat column_) asc
        (sent m ++ [hs_sort_order_changed (Z.of_nat column_) asc]))
    else Ret m
  end.

(** ** What is kept *)

(** An order there can be, and widths of their type; fewer columns than an [int] counts. *)
Record headers_ok (m : headers_model) : Prop := {
  ho_count : len (headers m) < 2 ^ 31;
  ho_column : sort_column m = npos ∨ 0 ≤ sort_column m < len (headers m);
  ho_widths : Forall (λ h, in_s 16 (h_width h)) (headers m)
}.

Lemma load_int_range w (cast : Z → Z) p n v c : (∀ x, in_s w (cast x)) → in_s w v → in_s w (load_int cast p n v c).
Proof using Type. intros Hc Hv. unfold load_int. by destruct (load p n c). Qed.

(** Whatever is found in a configuration, the order is by a column there is or by none. *)
Lemma update_headers_ok p c m : headers_ok m → headers_ok (update_headers p c m).
Proof using Type.
  intros [Hn Hs Hw]. unfold update_headers. split; cbn [headers sort_column].
  - by rewrite length_map.
  - rewrite length_map, (uw_small 64 ltac:(lia)) by (unfold in_u; lia).
    set (k := load_int u64 p c_order_by (sort_column m) c).
    assert (0 ≤ k) as Hk.
    { unfold k, load_int. destruct (load p c_order_by c); [apply (uw_range 64 ltac:(lia))|].
      destruct Hs as [->|]; [unfold npos; vm_compute; done|lia]. }
    destruct (Z.ltb_spec k (len (headers m))); [right; lia|by left].
  - apply Forall_map. eapply Forall_impl; [exact Hw|]. intros h Hh. simpl. unfold load_width.
    case_match; [|done]. simpl. apply load_int_range; [|done]. intros x. apply (sw_range 16 ltac:(lia)).
Qed.

Lemma set_width_ok item w m m' : in_s 16 w → headers_ok m → set_width item w m = Ret m' → headers_ok m'.
Proof using Type.
  intros Hw [H1 H2 H3]. unfold set_width. destruct (headers m !! item) as [h|]; [|done]. intros [= <-].
  split; cbn [headers sort_column]; [by rewrite length_insert|by rewrite length_insert|by apply Forall_insert].
Qed.

Lemma activate_column_ok i m : headers_ok m → (i < length (headers m))%nat →
  ∃ m', activate_column i m = Ret m' ∧ headers_ok m' ∧ headers m' = headers m.
Proof using Type.
  intros [H1 H2 H3] [h Hh]%lookup_lt_is_Some. unfold activate_column. rewrite Hh. destruct (h_compare h).
  - eexists. split; [done|]. split; [|done]. split; cbn [headers sort_column]; [done|right|done].
    apply lookup_lt_Some in Hh. lia.
  - exists m. split; [done|]. by split.
Qed.

(** A column is sorted its own way first, and the other way round with every further activation. *)
Lemma activate_toggles i h m : headers m !! i = Some h → h_compare h = true → sort_column m ≠ Z.of_nat i →
  ∀ n, ∃ m', fold_m (λ m _, activate_column i m) m (replicate (S n) tt) = Ret m' ∧
    headers m' = headers m ∧ sort_column m' = Z.of_nat i ∧ sort_ascending m' = (if Nat.even n then h_ascending h else negb (h_ascending h)).
Proof using Type.
  intros Hh Hc Hne n. induction n as [|n IH].
  - simpl. unfold activate_column. rewrite Hh, Hc, (proj2 (Z.eqb_neq _ _) Hne). simpl. by eexists.
  - destruct IH as (m' & Hm & Hhs & Hs & Ha). rewrite replicate_S_end, fold_m_app, Hm. simpl.
    unfold activate_column. rewrite Hhs, Hh, Hc, Hs, Z.eqb_refl. simpl. eexists. split; [done|]. split_and!; [done|done|].
    simpl. rewrite Ha. change (match n with O => false | S n' => Nat.even n' end) with (Nat.even (S n)).
    rewrite Nat.even_succ, <- Nat.negb_even. destruct (Nat.even n); simpl; [done|apply negb_involutive].
Qed.

(** ** There and back *)

Definition at_name (p : list string) : list string := map same_name p.

Lemma at_name_snoc p n q k : at_name (p ++ [n]) = at_name (q ++ [k]) → at_name p = at_name q ∧ same_name n = same_name k.
Proof using Type. unfold at_name. rewrite !map_app. by intros [? [= ?]]%app_inj_tail. Qed.

Lemma at_name_longer p n : at_name p ≠ at_name (p ++ [n]).
Proof using Type. intros E%(f_equal length). unfold at_name in E. rewrite !length_map, length_app in E. simpl in E. lia. Qed.

Lemma store_widths_load p hs p' n' : ∀ c, Forall (λ h, in_s 16 (h_width h)) hs →
  Forall (λ h, at_name p' ≠ at_name (p ++ [h_id h])) hs → load p' n' (store_widths p hs c) = load p' n' c.
Proof using CL.
  unfold store_widths. induction hs as [|h hs IH]; intros c Hw Hp; [done|].
  apply Forall_cons in Hw as [Hw Hws]. apply Forall_cons in Hp as [Hp Hps]. simpl.
  rewrite IH, load_store, decide_False, load_create by (done || unfold in_s in *; lia || by intros [? _]). done.
Qed.

Lemma store_widths_open p hs p' : ∀ c, open p' c = true → open p' (store_widths p hs c) = true.
Proof using CL.
  unfold store_widths. induction hs as [|h hs IH]; intros c Ho; [done|]. simpl.
  by apply IH, open_store, open_create_keeps.
Qed.

Lemma store_widths_found p hs h : ∀ c, Forall (λ h, in_s 16 (h_width h)) hs →
  NoDup (map (λ h, same_name (h_id h)) hs) → h ∈ hs →
  open (p ++ [h_id h]) (store_widths p hs c) = true ∧
  load (p ++ [h_id h]) c_width (store_widths p hs c) = Some (h_width h).
Proof using CL.
  induction hs as [|k hs IH]; intros c Hw Hnd Hh; [by apply elem_of_nil in Hh|].
  apply Forall_cons in Hw as [Hw Hws]. apply NoDup_cons in Hnd as [Hk Hnd].
  apply elem_of_cons in Hh as [->|Hh]; [|by apply IH].
  change (store_widths p (k :: hs) c) with
    (store_widths p hs (store (p ++ [h_id k]) c_width (h_width k) (create (p ++ [h_id k]) c))). split.
  - apply store_widths_open, open_store, open_create.
  - rewrite store_widths_load; [|done|].
    + rewrite load_store by (unfold in_s in *; lia). by rewrite decide_True.
    + apply Forall_forall. intros j Hj [_ E]%at_name_snoc. apply Hk. rewrite E.
      by apply (list_elem_of_fmap_2 (λ h, same_name (h_id h))).
Qed.

(** What the configuration has about the headers of a table. *)
Record kept (p : list string) (m : headers_model) (c : C) : Prop := {
  kept_column : load p c_order_by c = Some (if negb (sort_column m =? npos) then sw 32 (sort_column m) else -1);
  kept_direction : load p c_order_direction c = Some (if sort_ascending m then 1 else 0);
  kept_opens h : h ∈ headers m → open (p ++ [h_id h]) c = true;
  kept_widths h : h ∈ headers m → load (p ++ [h_id h]) c_width c = Some (h_width h)
}.

Lemma stored_column_range m : in_s 32 (if negb (sort_column m =? npos) then sw 32 (sort_column m) else -1).
Proof using Type. case_match; [apply (sw_range 32 ltac:(lia))|unfold in_s; lia]. Qed.

Lemma store_headers_keeps p m c : headers_ok m → NoDup (map (λ h, same_name (h_id h)) (headers m)) →
  kept p m (store_headers p m c).
Proof using CL.
  intros [_ _ Hw] Hnd. pose proof (stored_column_range m) as Hr. unfold store_headers.
  assert (Forall (λ h, at_name p ≠ at_name (p ++ [h_id h])) (headers m)) as Hp
    by (apply Forall_forall; intros h _; apply at_name_longer).
  assert (in_s 32 (if sort_ascending m then 1 else 0)) as Hd by (destruct (sort_ascending m); unfold in_s; lia).
  split.
  - rewrite store_widths_load, load_store by done.
    rewrite decide_False by (by intros [_ E%same_name_length]). by rewrite load_store, decide_True.
  - rewrite store_widths_load, load_store by done. by rewrite decide_True.
  - intros h Hh. by apply store_widths_found.
  - intros h Hh. by apply store_widths_found.
Qed.

(** Storing one table does not touch what is kept of another. *)
Lemma store_headers_apart q m c p' n' : headers_ok m → at_name p' ≠ at_name q →
  (∀ x, at_name p' ≠ at_name (q ++ [x])) → load p' n' (store_headers q m c) = load p' n' c.
Proof using CL.
  intros [_ _ Hw] Hq Hx. pose proof (stored_column_range m). unfold store_headers.
  assert (in_s 32 (if sort_ascending m then 1 else 0)) as Hd by (destruct (sort_ascending m); unfold in_s; lia).
  rewrite store_widths_load by (done || by apply Forall_forall; intros h _).
  by rewrite !load_store, !decide_False by (done || by intros [? _]).
Qed.

Lemma store_headers_open q m c p' : open p' c = true → open p' (store_headers q m c) = true.
Proof using CL. intros Ho. by apply store_widths_open, open_store, open_store. Qed.

Lemma kept_apart p q m m2 c : headers_ok m2 → length p = length q → at_name p ≠ at_name q →
  kept p m c → kept p m (store_headers q m2 c).
Proof using CL.
  intros Hm Hl Hne [H1 H2 H3 H4].
  assert (∀ x, at_name p ≠ at_name (q ++ [x])) as Hx.
  { intros x E%(f_equal length). unfold at_name in E. rewrite !length_map, length_app in E. simpl in E. lia. }
  assert (∀ y, at_name (p ++ [y]) ≠ at_name q) as Hy.
  { intros y E%(f_equal length). unfold at_name in E. rewrite !length_map, length_app in E. simpl in E. lia. }
  split.
  - by rewrite (store_headers_apart q m2).
  - by rewrite (store_headers_apart q m2).
  - intros h Hh. by apply store_headers_open, H3.
  - intros h Hh. rewrite (store_headers_apart q m2); [by apply H4|done|apply Hy|].
    intros x [E _]%at_name_snoc. done.
Qed.

(** The columns without what a user changes. *)
Definition layout (m : headers_model) : list header := map (λ h, with_width h 0) (headers m).

Lemma update_kept p m m' c : headers_ok m → layout m' = layout m → kept p m c →
  update_headers p c m' = mk_headers (headers m) (sort_column m) (sort_ascending m) (sent m').
Proof using Type.
  intros [Hn Hs Hw] Hlay [H1 H2 H3 H4]. unfold update_headers, load_int at 1 2, load_bool. rewrite H1, H2.
  unfold layout in Hlay. pose proof (f_equal length Hlay) as Hl. rewrite !length_map in Hl.
  rewrite Hl, (uw_small 64 ltac:(lia) (len (headers m))) by (unfold in_u; lia). f_equal.
  - clear H1 H2 Hn Hs Hl. revert Hlay Hw H3 H4. generalize (headers m) (headers m').
    induction l as [|h l IH]; intros [|k l'] Hlay Hw H3 H4; [done..|]. simpl in Hlay. injection Hlay as E1 E2 E3 E4 E5 Hlay.
    apply Forall_cons in Hw as [Hw Hws]. simpl. f_equal.
    + unfold load_width, load_int. rewrite E1, (H3 h), (H4 h) by by left. unfold with_width.
      rewrite (sw_small 16 ltac:(lia)) by done. destruct h, k. simpl in *. congruence.
    + apply IH; [done|done|intros j Hj; apply H3; by right|intros j Hj; apply H4; by right].
  - destruct Hs as [->|Hs].
    { rewrite Z.eqb_refl. cbn [negb]. fold npos. by destruct (npos <? _). }
    assert (sort_column m ≠ npos) as Hne by (unfold npos; vm_compute (u64 (-1)); lia).
    rewrite (proj2 (Z.eqb_neq _ _) Hne). cbn [negb]. rewrite (sw_small 32 ltac:(lia)) by (unfold in_s; lia).
    rewrite (uw_small 64 ltac:(lia)) by (unfold in_u; lia). by rewrite (proj2 (Z.ltb_lt _ _) (proj2 Hs)).
  - by destruct (sort_ascending m).
Qed.

(** The windows keep the headers of their tables under different names. *)
(** [frontend/src/untested/tables_ui.cpp:112-117] tables_ui::save *)
Definition save_tables (tables : list (string * headers_model)) (c : C) : C :=
  fold_left (λ c t, store_headers [t.1] t.2 (create [t.1] c)) tables c.

Lemma kept_create p q m c : kept p m c → kept p m (create q c).
Proof using CL.
  intros [H1 H2 H3 H4]. split; rewrite ?load_create; [done|done|intros h Hh; by apply open_create_keeps, H3|].
  intros h Hh. rewrite load_create. by apply H4.
Qed.

Lemma kept_tables k n tables : ∀ c, Forall (λ t, headers_ok t.2) tables →
  same_name k ∉ map (λ t, same_name t.1) tables → kept [k] n c → kept [k] n (save_tables tables c).
Proof using CL.
  unfold save_tables. induction tables as [|[j l] tables IH]; intros c Hok Hk Hc; [done|].
  apply Forall_cons in Hok as [Hl Hok]. simpl in Hk. apply not_elem_of_cons in Hk as [Hjk Hk].
  simpl. apply IH; [done|done|]. apply kept_apart; [done|done| |by apply kept_create]. by intros [= E].
Qed.

(** The headers of the tables survive their configuration: when all the tables of a window were saved, the
    update of a new model of the same columns gives every one of them its order, its direction and the
    widths of its columns back, whatever was in the configuration before. *)
Theorem headers_kept tables c :
  Forall (λ t, headers_ok t.2 ∧ NoDup (map (λ h, same_name (h_id h)) (headers t.2))) tables →
  NoDup (map (λ t, same_name t.1) tables) →
  ∀ name m m', (name, m) ∈ tables → layout m' = layout m →
  update_headers [name] (save_tables tables c) m' = mk_headers (headers m) (sort_column m) (sort_ascending m) (sent m').
Proof using CL.
  intros Hok Hnd name m m' Hin Hlay. assert (headers_ok m) as Hm by (rewrite Forall_forall in Hok; by apply (Hok _ Hin)).
  apply update_kept; [done|done|]. clear m' Hlay. revert c. induction tables as [|[k n] tables IH]; intros c; [by apply elem_of_nil in Hin|].
  apply Forall_cons in Hok as [[Hn Hndn] Hok]. simpl in Hn, Hndn. apply NoDup_cons in Hnd as [Hk Hnd].
  unfold save_tables. simpl. apply elem_of_cons in Hin as [[= -> ->]|Hin]; [|by apply IH].
  apply (kept_tables k n); [|done|by apply store_headers_keeps].
  eapply Forall_impl; [exact Hok|]. by intros t [? _].
Qed.
End headers.

(** * The tables of calls *)

(** A configuration that does not tell capital letters from small ones. *)
Definition lower (c : Ascii.ascii) : Ascii.ascii :=
  let n := Ascii.nat_of_ascii c in if ((65 <=? n) && (n <=? 90))%nat then Ascii.ascii_of_nat (n + 32) else c.
Fixpoint lower_case (s : string) : string :=
  match s with EmptyString => EmptyString | String c s => String (lower c) (lower_case s) end.

Definition demo_name (p : list string) : list string := map lower_case p.

Record demo_hives := mk_hives { demo_keys : gset (list string); demo_values : gmap (list string * string) Z }.

#[local] Instance demo_configuration : hives demo_hives := {|
  create p c := mk_hives ({[demo_name p]} ∪ demo_keys c) (demo_values c);
  open p c := bool_decide (demo_name p ∈ demo_keys c);
  store p n v c := mk_hives (demo_keys c) (<[(demo_name p, lower_case n) := v]> (demo_values c));
  load p n c := demo_values c !! (demo_name p, lower_case n)
|}.

#[local, refine] Instance demo_configuration_laws : hives_laws demo_hives := {| same_name := lower_case |}.
Proof.
  - intros a. induction a as [|x a IH]; intros [|y b]; simpl; intros E; [done..|]. injection E as _ E. f_equal. by apply IH.
  - intros p n v c p' n' _. simpl. destruct (decide _) as [[Hp Hn]|Hne].
    + unfold demo_name. by rewrite Hp, Hn, lookup_insert_eq.
    + apply lookup_insert_ne. unfold demo_name. naive_solver.
  - done.
  - intros p c. simpl. apply bool_decide_eq_true. set_solver.
  - intros p c p'. simpl. rewrite !bool_decide_eq_true. set_solver.
  - done.
Defined.

#[local] Existing Instance demo_doubles.

Definition demo_columns : list (column call_statistics (statistics_model_context (D := Z)) Z) :=
  c_statistics_columns (λ _, None).

(** [frontend/src/untested/tables_ui.cpp:81-83] tables_ui::tables_ui *)
Definition default_headers : headers_model := new_headers demo_columns 3 false.

(** A column is made wider, and the table sorted by the averages, the other way round. *)
Definition changed_headers : headers_model :=
  match (m ← set_width 1 500 default_headers; m ← activate_column 6 m; activate_column 6 m) with
  | Ret m => m
  | _ => default_headers
  end.

Lemma headers_kept_witness :
  update_headers ["MainColumns"%string]
    (save_tables [("ParentsColumns"%string, default_headers); ("MainColumns"%string, changed_headers)] (mk_hives ∅ ∅))
    default_headers = mk_headers (headers changed_headers) 6 true [].
Proof.
  apply (headers_kept [("ParentsColumns"%string, default_headers); ("MainColumns"%string, changed_headers)] (mk_hives ∅ ∅)).
  - repeat constructor; try (simpl; right; lia); try (unfold in_s; simpl; lia);
      apply (bool_decide_unpack _); by vm_compute.
  - apply (bool_decide_unpack _). by vm_compute.
  - right. left.
  - reflexivity.
Defined.
