(* ===== verification/ImagePatch.v ===== *)
(** The list of the functions that can be patched (frontend/image_patch_model.h,
    frontend/src/image_patch_model.cpp).

    The symbols of all the modules that are known, filtered and sorted, with the states of their patches.
    Modules become known when they are asked for, which the model does for every one that is mapped.
    It composes [flatten], [filter], [ordered] and the trackables of [Views]; patches are those of
    [FrontendPatcher], symbols those of [Symbols]. *)

From S2P Require Import Prelude Strings Logger Sdb Hierarchy Views Models Columns Symbols FrontendPatcher.

(** * Texts and states *)

Local Open Scope Z_scope.

(** [frontend/src/image_patch_model.cpp:47-48] nocase_compare::toupper. Of a signed character. *)
Definition toupper (c : Z) : Z := let c := s8 c in if (97 <=? c) && (c <=? 122) then c - 32 else c.

(** [frontend/src/image_patch_model.cpp:45-52] nocase_compare *)
Definition nocase_compare (lhs rhs : Z) : bool := toupper lhs <? toupper rhs.

(** What the standard library does with it. *)
Fixpoint lexicographical_compare (less : Z → Z → bool) (lhs rhs : list Z) : bool :=
  match lhs, rhs with
  | _, [] => false
  | [], _ => true
  | a :: lhs, b :: rhs =>
    if less a b then true else if less b a then false else lexicographical_compare less lhs rhs
  end.

(** [frontend/src/image_patch_model.cpp:54-55] encode_state *)
Definition encode_state (p : patch) : Z :=
  Z.shiftl (Z.b2z (error p)) 2 + Z.shiftl (Z.b2z (patch_is_active p)) 1 + Z.b2z (requested p).

(** [frontend/src/image_patch_model.cpp:57-59] c_patch_states *)
Definition c_patch_states : list string :=
  ["inactive"; "applying"; "active"; "removing"; "error"; "error"; "error"; "error"]%string.

Lemma encode_state_range p : 0 ≤ encode_state p < 8.
Proof. by destruct p as [? [] [] []]. Qed.

(** A state is told by its text, but an error hides what else there is. *)
Lemma states_told p q : error p = false → error q = false →
  c_patch_states !! Z.to_nat (encode_state p) = c_patch_states !! Z.to_nat (encode_state q) →
  requested p = requested q ∧ patch_is_active p = patch_is_active q.
Proof. destruct p as [? [] ? []], q as [? [] ? []]; by simpl; intros -> ->. Qed.

(** ** Strict weak orders *)

(** Sorting by a key, which is compared three ways. *)
Lemma strict_by_key {T} (compare : T → T → Z) (l : list T) : comparison_laws (λ _, True) compare →
  strict_weak (λ a b, Ret (compare a b <? 0)) l.
Proof.
  intros L. split.
  - eauto.
  - intros a b _ _ [= H1%Z.ltb_lt]. f_equal. apply Z.ltb_ge.
    pose proof (compare_flips (comparison_laws := L) a b I I). lia.
  - intros a b c _ _ _ [= H1%Z.ltb_ge] [= H2%Z.ltb_ge]. f_equal. apply Z.ltb_ge.
    pose proof (compare_flips (comparison_laws := L) c a I I). pose proof (compare_flips (comparison_laws := L) a c I I).
    pose proof (compare_flips (comparison_laws := L) b a I I). pose proof (compare_flips (comparison_laws := L) c b I I).
    pose proof (compare_flips (comparison_laws := L) a b I I). pose proof (compare_flips (comparison_laws := L) b c I I).
    pose proof (compare_transitive (comparison_laws := L) c b a I I I). lia.
Qed.

Lemma strict_weak_flip {T} (p : T → T → result bool) l : strict_weak p l → strict_weak (λ a b, p b a) l.
Proof.
  intros [H1 H2 H3]. split; [auto|intros a b Ha Hb; by apply H2|].
  intros a b c Ha Hb Hc Hba Hcb. by apply (H3 c b a).
Qed.

Lemma strict_weak_ext {T} (p q : T → T → result bool) l : (∀ a b, q a b = p a b) → strict_weak p l → strict_weak q l.
Proof.
  intros E [H1 H2 H3]. split.
  - intros a b. rewrite E. apply H1.
  - intros a b. rewrite !E. apply H2.
  - intros a b c. rewrite !E. apply H3.
Qed.

Lemma lexicographical_keys lhs : ∀ rhs,
  lexicographical_compare nocase_compare lhs rhs = (compare_texts (map toupper lhs) (map toupper rhs) <? 0).
Proof.
  induction lhs as [|a lhs IH]; intros [|b rhs]; [done..|]. simpl. unfold nocase_compare.
  destruct (Z.ltb_spec (toupper a) (toupper b)), (Z.ltb_spec (toupper b) (toupper a)),
    (Z.eqb_spec (toupper a) (toupper b)); lia || apply IH.
Qed.

(** * The list *)

(** What the model reads: the tables of the session. *)
Record session := mk_session {
  s_modules : list (Z * list symbol_info);
  s_patches : gmap symbol patch;
  s_mappings : list (Z * list Z)
}.

(** [frontend/image_patch_model.h:46-50] record_type *)
Record record_type := mk_record { first : symbol; symbol_of : symbol_info }.

Abbreviation paths := (gmap Z (list Z)).

(** What the predicates look into when they are called: the paths the model keeps, and the patches. *)
Abbreviation predicate := (paths * gmap symbol patch → record_type → record_type → result bool).

(** [frontend/src/image_patch_model.cpp:63-65] flattener::equal_range *)
Definition module_symbols (from : Z * list symbol_info) : list symbol_info := from.2.

(** [frontend/src/image_patch_model.cpp:67-71] flattener::get *)
Definition row_of (x : (Z * list symbol_info) * symbol_info) : record_type := mk_record (x.1.1, s_rva x.2) x.2.

(** What going through the nested range sees. *)
Definition flat_rows (modules : list (Z * list symbol_info)) : result (list record_type) :=
  match flatten_loop module_symbols (length (flattened module_symbols modules)) (mk_flat [] []) (flatten_begin module_symbols modules) with
  | Some (Ret l) => Ret (map row_of l)
  | Some (Throw e) => Throw e
  | _ => UB
  end.

(** What going through the filter above it sees. *)
Definition filtered_rows (f : option (record_type → bool)) (modules : list (Z * list symbol_info)) : result (list record_type) :=
  l ← flat_rows modules;
  i ← filter_begin f l;
  match filter_loop (length l) f i with Some r => r | None => UB end.

(** The rows there are: the symbols that match, module by module. *)
Definition matching (f : option (record_type → bool)) (modules : list (Z * list symbol_info)) : list record_type :=
  List.filter (filter_match f) (map row_of (flattened module_symbols modules)).

Lemma filtered_rows_eq f modules : filtered_rows f modules = Ret (matching f modules).
Proof.
  unfold filtered_rows, flat_rows. rewrite (flatten_iterates module_symbols modules []). simpl.
  destruct (filter_iterates f (map row_of (flattened module_symbols modules))) as (i & -> & Hl). simpl.
  rewrite Hl. done.
Qed.

(** [frontend/src/image_patch_model.cpp:100-103] image_patch_model::set_order. By offset. *)
Definition by_rva : predicate := λ _ lhs rhs, Ret ((first lhs).2 <? (first rhs).2).

(** [frontend/src/image_patch_model.cpp:106-113] image_patch_model::set_order. By name. *)
Definition by_symbol_name : predicate := λ _ lhs rhs,
  Ret (lexicographical_compare nocase_compare (of_string (s_name (symbol_of lhs))) (of_string (s_name (symbol_of rhs)))).

(** [frontend/src/image_patch_model.cpp:115-122] image_patch_model::set_order. By state. *)
Definition by_state : predicate := λ w lhs_ rhs_,
  Ret match w.2 !! first lhs_, w.2 !! first rhs_ with
    | None, None => false
    | None, _ => true
    | _, None => false
    | Some lhs, Some rhs => encode_state lhs <? encode_state rhs
    end.

(** [frontend/src/image_patch_model.cpp:124-128] image_patch_model::set_order. By size. *)
Definition by_size : predicate := λ _ lhs rhs, Ret (s_size (symbol_of lhs) <? s_size (symbol_of rhs)).

(** [frontend/src/image_patch_model.cpp:130-172] image_patch_model::set_order. By what is taken of the path of a module:
    its name in one column, all of it in the other. *)
Definition by_path (part : list Z → list Z) : predicate := λ w lhs_ rhs_,
  Ret match w.1 !! (first lhs_).1, w.1 !! (first rhs_).1 with
    | None, None => false
    | None, _ => true
    | _, None => false
    | Some lhs, Some rhs => lexicographical_compare nocase_compare (part lhs) (part rhs)
    end.

(** [frontend/src/image_patch_model.cpp:98-173] image_patch_model::set_order. The order of a column. *)
Definition order_of (column : Z) : option predicate :=
  if column =? 0 then Some by_rva else if column =? 1 then Some by_symbol_name else
  if column =? 2 then Some by_state else if column =? 3 then Some by_size else
  if column =? 4 then Some (by_path file_name) else if column =? 5 then Some (by_path id) else None.

(** Every one is a strict weak order of whatever there is. *)
Lemma order_of_weak column p w asc l : order_of column = Some p → strict_weak (value_less w (p, asc)) l.
Proof.
  intros Hp. assert (strict_weak (p w) l) as H; [|destruct asc; [exact H|by apply (strict_weak_flip (p w))]].
  assert (∀ (f : record_type → option (list Z)), strict_weak (λ a b, Ret match f a, f b with
      | None, None => false | None, _ => true | _, None => false
      | Some x, Some y => lexicographical_compare nocase_compare x y end) l) as Htext.
  { intros f. set (key a := default [] (map toupper <$> f a)).
    apply (strict_weak_ext (λ a b, Ret ((if negb (compare_pointers (f a) (f b) =? 0) then compare_pointers (f a) (f b)
      else compare_texts (key a) (key b)) <? 0))).
    - intros a b. unfold key. destruct (f a), (f b); simpl; rewrite ?lexicographical_keys; done.
    - apply strict_by_key, compare_then_laws; [apply (compare_pointers_laws _ f)|apply (compare_texts_laws _ key)]. }
  assert (∀ (f : record_type → Z), strict_weak (λ a b, Ret (f a <? f b)) l) as Hnum.
  { intros f. apply (strict_weak_ext (λ a b, Ret (compare_values (f a) (f b) <? 0))).
    - intros a b. unfold compare_values. destruct (Z.eqb_spec (f a) (f b)), (Z.ltb_spec (f a) (f b)); simpl; done || lia.
    - apply strict_by_key, (compare_values_laws _ f). }
  unfold order_of in Hp. repeat (case_match; [injection Hp as <-|]); [..|done].
  - apply (Hnum (λ r, (first r).2)).
  - apply (Htext (λ r, Some (of_string (s_name (symbol_of r))))).
  - apply (strict_weak_ext (λ a b, Ret (default (-1) (encode_state <$> w.2 !! first a) <? default (-1) (encode_state <$> w.2 !! first b)))).
    + intros a b. unfold by_state. destruct (w.2 !! first a) as [x|], (w.2 !! first b) as [y|];
        [reflexivity|pose proof (encode_state_range x)|pose proof (encode_state_range y)|reflexivity]; f_equal.
      * change (false = (encode_state x <? -1)). lia.
      * change (true = (-1 <? encode_state y)). lia.
    + apply (Hnum (λ r, default (-1) (encode_state <$> w.2 !! first r))).
  - apply (Hnum (λ r, s_size (symbol_of r))).
  - apply (strict_weak_ext (λ a b, Ret match file_name <$> w.1 !! (first a).1, file_name <$> w.1 !! (first b).1 with
      | None, None => false | None, _ => true | _, None => false
      | Some x, Some y => lexicographical_compare nocase_compare x y end)).
    + intros a b. unfold by_path. by destruct (w.1 !! (first a).1), (w.1 !! (first b).1).
    + apply (Htext (λ r, file_name <$> w.1 !! (first r).1)).
  - apply (Htext (λ r, w.1 !! (first r).1)).
Qed.

Section model.
Context `{std_sort}.

(** [frontend/image_patch_model.h:92-101] image_patch_model. The iterators of the ordered view point to symbols that do not
    move as long as their module is known: [range] are the records they point to. [asked] are the requests that
    were made, [invalidated] the signals. *)
Record image_patch_model := mk_list {
  module_paths : paths;
  filter_view : option (record_type → bool);
  range : table record_type;
  ordered : ordered_view record_type (paths * gmap symbol patch);
  row_trackables : table (trackable (K := symbol));
  requested_modules : gset Z;
  asked_modules : list Z;
  signals : list Z
}.

(** What the predicates see. *)
Definition closure (w : session) (m : image_patch_model) : paths * gmap symbol patch := (module_paths m, s_patches w).

Definition range_of (rows : list record_type) : table record_type := mk_table (zip (seq 0 (length rows)) rows) (length rows).

(** [views/ordered.h:72-80] ordered::fetch. Of the range that is there now. *)
Definition fetch_range (w : session) (m : image_patch_model) : result image_patch_model :=
  rows ← filtered_rows (filter_view m) (s_modules w);
  o ← ordered_fetch (closure w m) (range_of rows) (ordered m);
  Ret (mk_list (module_paths m) (filter_view m) (range_of rows) o (row_trackables m) (requested_modules m)
    (asked_modules m) (signals m)).

(** [frontend/src/image_patch_model.cpp:221-225] image_patch_model::fetch *)
Definition list_fetch (m : image_patch_model) : result image_patch_model :=
  ts ← trackables_fetch first (ordered_size (ordered m)) (ordered_at (range m) (ordered m)) (row_trackables m);
  Ret (mk_list (module_paths m) (filter_view m) (range m) (ordered m) ts (requested_modules m) (asked_modules m)
    (signals m ++ [npos])).

(** [frontend/src/image_patch_model.cpp:79-82] image_patch_model::image_patch_model. [invalidate_me]; what becomes of the
    metadata of a module does the same, lines 215 and 216. *)
Definition invalidate_me (w : session) (m : image_patch_model) : result image_patch_model :=
  m ← fetch_range w m;
  list_fetch m.

(** A module that is known is reported at once, otherwise when its metadata come. *)
Definition known (w : session) (id : Z) : bool := existsb (λ k, k.1 =? id) (s_modules w).

(** [frontend/src/image_patch_model.cpp:208-217] image_patch_model::request_missing. The body of the loop. *)
Definition request_module (w : session) (m : image_patch_model) (i : Z * list Z) : result image_patch_model :=
  if decide (i.1 ∈ requested_modules m) then Ret m
  else
    let m := mk_list (module_paths m) (filter_view m) (range m) (ordered m) (row_trackables m)
      ({[i.1]} ∪ requested_modules m) (asked_modules m ++ [i.1]) (signals m) in
    if known w i.1 then invalidate_me w m else Ret m.

(** [frontend/src/image_patch_model.cpp:204-219] image_patch_model::request_missing *)
Definition request_missing (w : session) (m : image_patch_model) : result image_patch_model :=
  fold_m (request_module w) m (s_mappings w).

Definition with_paths (w : session) (m : image_patch_model) : image_patch_model :=
  mk_list (fold_left (λ ps i, <[i.1 := i.2]> ps) (s_mappings w) (module_paths m)) (filter_view m) (range m) (ordered m)
    (row_trackables m) (requested_modules m) (asked_modules m) (signals m).

(** [frontend/src/image_patch_model.cpp:83-88] image_patch_model::image_patch_model. [refresh] *)
Definition refresh (w : session) (m : image_patch_model) : result image_patch_model :=
  m ← request_missing w (with_paths w m);
  invalidate_me w m.

(** [frontend/src/image_patch_model.cpp:74-94] image_patch_model::image_patch_model *)
Definition new_list (w : session) : result image_patch_model :=
  rows ← filtered_rows None (s_modules w);
  refresh w (mk_list ∅ None (range_of rows) (new_ordered (range_of rows)) empty_table ∅ [] []).

(** [frontend/image_patch_model.h:106-119] image_patch_model::set_filter *)
Definition set_filter (w : session) (f : option (record_type → bool)) (m : image_patch_model) : result image_patch_model :=
  invalidate_me w (mk_list (module_paths m) f (range m) (ordered m) (row_trackables m) (requested_modules m)
    (asked_modules m) (signals m)).

(** [frontend/src/image_patch_model.cpp:96-175] image_patch_model::set_order *)
Definition set_order (w : session) (column : Z) (asc : bool) (m : image_patch_model) : result image_patch_model :=
  o ← match order_of column with
    | Some p => ordered_set_order (closure w m) (range m) p asc (ordered m)
    | None => Ret (ordered m)
    end;
  list_fetch (mk_list (module_paths m) (filter_view m) (range m) o (row_trackables m) (requested_modules m)
    (asked_modules m) (signals m)).

(** [frontend/src/image_patch_model.cpp:183-184] image_patch_model::get_count *)
Definition list_count (m : image_patch_model) : nat := ordered_size (ordered m).

(** [frontend/src/image_patch_model.cpp:186-187] image_patch_model::track *)
Definition list_track (row : nat) (m : image_patch_model) : result (nat * image_patch_model) :=
  '(h, ts) ← track_row first (ordered_at (range m) (ordered m)) row (row_trackables m);
  Ret (h, mk_list (module_paths m) (filter_view m) (range m) (ordered m) ts (requested_modules m) (asked_modules m) (signals m)).

(** [frontend/src/image_patch_model.cpp:227-232] image_patch_model::format_state *)
Definition format_state (w : session) (key : symbol) : list Z :=
  match s_patches w !! key with
  | Some p => of_string (default EmptyString (c_patch_states !! Z.to_nat (encode_state p)))
  | None => []
  end.

(** [frontend/src/image_patch_model.cpp:234-240] image_patch_model::format_module_name *)
Definition format_module_name (persistent_id : Z) (m : image_patch_model) : list Z :=
  match module_paths m !! persistent_id with Some p => c_str (file_name p) | None => [] end.

(** [frontend/src/image_patch_model.cpp:242-248] image_patch_model::format_module_path *)
Definition format_module_path (persistent_id : Z) (m : image_patch_model) : list Z :=
  match module_paths m !! persistent_id with Some p => c_str p | None => [] end.

(** [frontend/src/image_patch_model.cpp:189-202] image_patch_model::get_text *)
Definition list_text (w : session) (row : nat) (column : Z) (m : image_patch_model) : result (list Z) :=
  record ← ordered_at (range m) (ordered m) row;
  if column =? 0 then itoa 16 false 32 [] (s_rva (symbol_of record)) 8 0x30 else
  if column =? 1 then Ret (of_string (s_name (symbol_of record))) else
  if column =? 2 then Ret (format_state w (first record)) else
  if column =? 3 then itoa 10 false 32 [] (s_size (symbol_of record)) 0 0x30 else
  if column =? 4 then Ret (format_module_name (first record).1 m) else
  if column =? 5 then Ret (format_module_path (first record).1 m) else Ret [].

(** ** What is shown *)

(** The model is consistent: with the filter [f], the order [o], and requests for the modules [ids]. *)
Record list_ok (f : option (record_type → bool)) (o : option (predicate * bool)) (ids : gset Z) (m : image_patch_model) : Prop := {
  lo_table : table_ok (range m);
  lo_view : view_ok (range m) (ordered m);
  lo_filter : filter_view m = f;
  lo_order : sort_order (ordered m) = o;
  lo_column p asc : o = Some (p, asc) → ∃ column, order_of column = Some p;
  lo_requests : requested_modules m = ids;
  lo_asked id : id ∈ asked_modules m ↔ id ∈ ids;
  lo_once : NoDup (asked_modules m)
}.

Definition list_rows (m : image_patch_model) : list record_type := shown (range m) (ordered m).

(** What is shown of a session: the symbols that match, of the modules that were known when the range was fetched
    last, sorted; and what is followed is found. *)
Record listed (f : option (record_type → bool)) (o : option (predicate * bool)) (modules : list (Z * list symbol_info))
    (w : session) (m : image_patch_model) : Prop := {
  li_rows : list_rows m ≡ₚ matching f modules;
  li_sorted order : o = Some order → sorted_by (value_less (closure w m) order) (list_rows m);
  li_followed : Forall (follows first (list_rows m)) (records (row_trackables m)).*2
}.

Lemma range_of_ok rows : table_ok (range_of rows) ∧ values (range_of rows) = rows.
Proof using Type.
  assert ((zip (seq 0 (length rows)) rows).*1 = seq 0 (length rows)) as E1
    by (apply fst_zip; rewrite length_seq; lia).
  assert ((zip (seq 0 (length rows)) rows).*2 = rows) as E2 by (apply snd_zip; rewrite length_seq; lia).
  split; [|exact E2]. split; simpl; [rewrite E1; apply NoDup_seq|].
  apply Forall_forall. intros [h v] Hin. assert (h ∈ seq 0 (length rows)) as Hh.
  { rewrite <- E1. apply list_elem_of_fmap. by exists (h, v). }
  apply elem_of_seq in Hh. simpl. lia.
Qed.

Lemma fetch_range_ok f o ids w m : list_ok f o ids m → ∃ m', fetch_range w m = Ret m' ∧ list_ok f o ids m' ∧
  list_rows m' ≡ₚ matching f (s_modules w) ∧
  (∀ order, o = Some order → sorted_by (value_less (closure w m') order) (list_rows m')).
Proof using Type.
  intros [Ht Hv Hf Ho Hc Hr Ha Hn]. unfold fetch_range. rewrite filtered_rows_eq, Hf. simpl.
  destruct (range_of_ok (matching f (s_modules w))) as [Ht' Hvals].
  unfold ordered_fetch. rewrite Ho. destruct o as [[p asc]|].
  - destruct (Hc p asc eq_refl) as [column Hp].
    destruct (sort_view_ok (closure w m) (range_of (matching f (s_modules w)))
      (mk_ordered (records (range_of (matching f (s_modules w)))).*1 (Some (p, asc))) (p, asc))
      as (o' & -> & Hv' & Ho' & Hperm & Hs); [done|unfold view_ok; done|done|by eapply order_of_weak|].
    simpl. eexists. split; [done|]. split_and!; [by split|by rewrite Hvals in Hperm|by intros ? [= <-]].
  - simpl. eexists. split; [done|]. split_and!; [split; try done; unfold view_ok; done| |done].
    unfold list_rows, shown. simpl. by rewrite (shown_values _ _ Ht'), Hvals.
Qed.

Lemma list_fetch_ok f o ids m : list_ok f o ids m → ∃ m', list_fetch m = Ret m' ∧ list_ok f o ids m' ∧
  list_rows m' = list_rows m ∧ module_paths m' = module_paths m ∧
  Forall (follows first (list_rows m')) (records (row_trackables m')).*2.
Proof using Type.
  intros [Ht Hv Hf Ho Hc Hr Ha Hn]. unfold list_fetch. rewrite <- (shown_size (range m)) by done.
  destruct (trackables_follow first (ordered_at (range m) (ordered m)) (list_rows m) (row_trackables m))
    as (ts & Hts & Hfol & _).
  { intros i [v Hi]%lookup_lt_is_Some. rewrite Hi. by apply shown_lookup. }
  unfold list_rows in Hts. rewrite Hts. simpl. eexists. split; [done|]. split_and!; [by split|done|done|done].
Qed.

Lemma invalidate_me_ok f o ids w m : list_ok f o ids m → ∃ m', invalidate_me w m = Ret m' ∧ list_ok f o ids m' ∧
  listed f o (s_modules w) w m'.
Proof using Type.
  intros Hm. unfold invalidate_me. destruct (fetch_range_ok f o ids w m Hm) as (m1 & -> & Hm1 & Hp & Hs).
  cbn [mbind result_bind].
  destruct (list_fetch_ok f o ids m1 Hm1) as (m2 & -> & Hm2 & Hr & Hpaths & Hfol). exists m2. split_and!; [done|done|].
  split; [by rewrite Hr| |done]. intros order Ho. rewrite Hr. unfold closure. rewrite Hpaths. by apply Hs.
Qed.

Lemma request_module_ok f o ids w m i : list_ok f o ids m →
  ∃ m', request_module w m i = Ret m' ∧ list_ok f o ({[i.1]} ∪ ids) m'.
Proof using Type.
  intros Hm. pose proof Hm as [Ht Hv Hf Ho Hc Hr Ha Hn]. unfold request_module. rewrite Hr.
  destruct (decide (i.1 ∈ ids)) as [Hin|Hin].
  - exists m. split; [done|]. assert ({[i.1]} ∪ ids = ids) as -> by set_solver. done.
  - match goal with |- context [known w i.1] => destruct (known w i.1) end; [|eexists; split; [done|]].
    + match goal with |- context [invalidate_me w ?k] =>
        destruct (invalidate_me_ok f o ({[i.1]} ∪ ids) w k) as (m' & ? & ? & _) end; [|by exists m'].
      split; simpl; try done; [intros id; rewrite elem_of_app, Ha; set_solver|].
      apply NoDup_app. split_and!; [done|set_solver|apply NoDup_singleton].
    + split; simpl; try done; [intros id; rewrite elem_of_app, Ha; set_solver|].
      apply NoDup_app. split_and!; [done|set_solver|apply NoDup_singleton].
Qed.

(** The modules that are mapped. *)
Definition mapped (w : session) : gset Z := list_to_set (s_mappings w).*1.

Lemma request_missing_ok f o ids w m : list_ok f o ids m →
  ∃ m', request_missing w m = Ret m' ∧ list_ok f o (mapped w ∪ ids) m'.
Proof using Type.
  unfold request_missing, mapped. intros Hm. revert ids m Hm. induction (s_mappings w) as [|i l IH]; intros ids m Hm.
  - exists m. split; [done|]. simpl. by rewrite union_empty_l_L.
  - cbn [fold_m]. destruct (request_module_ok f o ids w m i Hm) as (m1 & -> & Hm1).
    destruct (IH _ m1 Hm1) as (m2 & H2 & Hm2). exists m2. split; [done|].
    assert ((list_to_set (i :: l).*1 : gset Z) ∪ ids = list_to_set l.*1 ∪ ({[i.1]} ∪ ids)) as E
      by (rewrite fmap_cons, list_to_set_cons; set_solver).
    by rewrite E.
Qed.

Lemma list_refresh_ok f o ids w m : list_ok f o ids m → ∃ m', refresh w m = Ret m' ∧ list_ok f o (mapped w ∪ ids) m' ∧
  listed f o (s_modules w) w m'.
Proof using Type.
  intros [Ht Hv Hf Ho Hc Hr Ha Hn]. unfold refresh.
  destruct (request_missing_ok f o ids w (with_paths w m)) as (m1 & -> & Hm1); [by split|].
  apply (invalidate_me_ok f o (mapped w ∪ ids) w m1 Hm1).
Qed.

(** ** Histories *)

(** What the model is told and asked. *)
Inductive list_event :=
  | le_mappings | le_patches | le_metadata
  | le_filter (f : option (record_type → bool)) | le_order (column : Z) (asc : bool).

Definition list_step (m : image_patch_model) (e : session * list_event) : result image_patch_model :=
  match e.2 with
  | le_mappings => refresh e.1 m
  | le_patches | le_metadata => invalidate_me e.1 m
  | le_filter f => set_filter e.1 f m
  | le_order column asc => set_order e.1 column asc m
  end.

(** The filter and the order that were set last, the modules there were when the range was fetched last, and the
    modules that were mapped. *)
Record wishes := mk_wishes {
  wi_filter : option (record_type → bool);
  wi_order : option (predicate * bool);
  wi_modules : list (Z * list symbol_info);
  wi_mapped : gset Z
}.

Definition wish (x : wishes) (e : session * list_event) : wishes :=
  match e.2 with
  | le_mappings => mk_wishes (wi_filter x) (wi_order x) (s_modules e.1) (mapped e.1 ∪ wi_mapped x)
  | le_patches | le_metadata => mk_wishes (wi_filter x) (wi_order x) (s_modules e.1) (wi_mapped x)
  | le_filter f => mk_wishes f (wi_order x) (s_modules e.1) (wi_mapped x)
  | le_order column asc =>
    mk_wishes (wi_filter x) (match order_of column with Some p => Some (p, asc) | None => wi_order x end)
      (wi_modules x) (wi_mapped x)
  end.

Definition shows (x : wishes) (w : session) (m : image_patch_model) : Prop :=
  list_ok (wi_filter x) (wi_order x) (wi_mapped x) m ∧ listed (wi_filter x) (wi_order x) (wi_modules x) w m.

Lemma set_order_ok x w w' m column asc : 0 ≤ column < 6 → shows x w m →
  ∃ m', set_order w' column asc m = Ret m' ∧ shows (wish x (w', le_order column asc)) w' m'.
Proof using Type.
  intros Hcol [[Ht Hv Hf Ho Hc Hr Ha Hn] [Hrows _ _]].
  assert (∃ p, order_of column = Some p) as [p Hp].
  { unfold order_of. repeat (case_match; [by eexists|]). lia. }
  unfold set_order. rewrite Hp. unfold ordered_set_order.
  destruct (sort_view_ok (closure w' m) (range m) (mk_ordered (ordered_data (ordered m)) (Some (p, asc))) (p, asc))
    as (o & -> & Hv' & Ho' & Hperm & Hs); [done|done|done|by eapply order_of_weak|].
  cbn [mbind result_bind].
  destruct (list_fetch_ok (filter_view m) (Some (p, asc)) (requested_modules m)
    (mk_list (module_paths m) (filter_view m) (range m) o (row_trackables m) (requested_modules m) (asked_modules m) (signals m)))
    as (m' & -> & Hm' & Hrows' & Hpaths & Hfol).
  { split; try done; [intros p' asc' [= <- <-]; by exists column|intros id; by rewrite Ha, Hr]. }
  exists m'. split; [done|]. unfold shows, wish. cbn [fst snd]. rewrite Hp. cbn [wi_filter wi_order wi_modules wi_mapped].
  rewrite <- Hf, <- Hr. split; [done|]. split; [| |done].
  - rewrite Hrows', <- Hf in *. unfold list_rows at 1. simpl. rewrite Hperm, <- Hrows. unfold list_rows.
    symmetry. by apply shown_values.
  - intros order [= <-]. rewrite Hrows'. unfold closure. rewrite Hpaths. exact Hs.
Qed.

(** An order is set by one of the columns there are. *)
Definition event_ok (e : session * list_event) : Prop :=
  match e.2 with le_order column _ => 0 ≤ column < 6 | _ => True end.

Lemma shows_step x w m e : event_ok e → shows x w m → ∃ m', list_step m e = Ret m' ∧ shows (wish x e) e.1 m'.
Proof using Type.
  intros He Hs. destruct e as [w' [| | |f|column asc]]; [..|by apply (set_order_ok x w)];
    destruct Hs as [Hm _]; unfold list_step, wish, shows; cbn [fst snd wi_filter wi_order wi_modules wi_mapped].
  - by apply list_refresh_ok.
  - by apply invalidate_me_ok.
  - by apply invalidate_me_ok.
  - destruct Hm as [Ht Hv Hf Ho Hc Hr Ha Hn]. apply invalidate_me_ok. by split.
Qed.

Lemma new_list_ok w : ∃ m, new_list w = Ret m ∧ shows (mk_wishes None None (s_modules w) (mapped w)) w m.
Proof using Type.
  unfold new_list. rewrite filtered_rows_eq. cbn [mbind result_bind].
  destruct (range_of_ok (matching None (s_modules w))) as [Ht _].
  match goal with |- context [refresh w ?m] => destruct (list_refresh_ok None None ∅ w m) as (m' & H1 & H2 & H3) end.
  - split; try done; [unfold view_ok; done|intros id; simpl; set_solver|constructor].
  - exists m'. split; [done|]. unfold shows. simpl. by rewrite union_empty_r_L in H2.
Qed.

Lemma shows_run es : ∀ x w m, Forall event_ok es → shows x w m →
  ∃ m', fold_m list_step m es = Ret m' ∧ shows (fold_left wish es x) (default w (fst <$> last es)) m'.
Proof using Type.
  induction es as [|e es IH]; intros x w m Hes Hs; [by exists m|]. apply Forall_cons in Hes as [He Hes].
  cbn [fold_m fold_left]. destruct (shows_step x w m e He Hs) as (m1 & -> & Hs1).
  destruct (IH _ _ m1 Hes Hs1) as (m2 & ? & ?). exists m2. split; [done|]. rewrite last_cons. by destruct (last es).
Qed.

(** C37: The list of patches is complete and in order whatever happens to the session: after any history of mappings,
    metadata and patches that change, of filters and of orders, its rows are the symbols of the modules that are
    known that match the last filter, each in its place of the last order as patches and paths are now; the rows
    that are followed are found; and every module that was ever mapped has been asked for, once. *)
Theorem patches_listed w es : Forall event_ok es →
  ∃ m, (m ← new_list w; fold_m list_step m es) = Ret m ∧
    shows (fold_left wish es (mk_wishes None None (s_modules w) (mapped w))) (default w (fst <$> last es)) m.
Proof using Type.
  intros Hes. destruct (new_list_ok w) as (m & -> & Hm). cbn [mbind result_bind]. by apply shows_run.
Qed.
End model.

(** * An example *)

#[local] Existing Instance insertion_sort.

Definition demo_symbols : list symbol_info := [mk_symbol "Beta" 0x30 8 0 0; mk_symbol "alpha" 0x10 24 0 0].
Definition demo_session (ps : gmap symbol patch) (ms : list (Z * list symbol_info)) : session :=
  mk_session ms ps [(1, of_string "/bin/one"); (2, of_string "/lib/two")].

(** The symbols of one module, then those of another; sorted by names, then by states when a patch is active. *)
Definition demo_history : list (session * list_event) :=
  let two := [(1, demo_symbols); (2, [mk_symbol "gamma" 0x20 4 0 0])] in
  [(demo_session ∅ two, le_metadata); (demo_session ∅ two, le_order 1 true);
   (demo_session ∅ two, le_filter (Some (λ r, s_size (symbol_of r) <? 20)));
   (demo_session {[(2, 0x20) := mk_patch 0 false false true]} two, le_patches);
   (demo_session {[(2, 0x20) := mk_patch 0 false false true]} two, le_order 2 false)].

Definition demo_rows (n : nat) : option (list (list (option (list Z)))) :=
  match (m ← new_list (demo_session ∅ [(1, demo_symbols)]); fold_m list_step m (take n demo_history)) with
  | Ret m => Some (map (λ row, map (λ c,
      match list_text (default (demo_session ∅ []) (fst <$> last (take n demo_history))) row c m with Ret t => Some t | _ => None end)
      [1; 2; 4]) (seq 0 (list_count m)))
  | _ => None
  end.

Example demo_listed :
  let row (n s p : string) := map (λ x, Some (of_string x)) [n; s; p] in
  demo_rows 2 = Some [row "alpha" "" "one"; row "Beta" "" "one"; row "gamma" "" "two"]%string ∧
  demo_rows 5 = Some [row "gamma" "active" "two"; row "Beta" "" "one"]%string.
Proof. vm_compute. done. Qed.

Lemma patches_listed_witness :
  ∃ m, (m ← new_list (demo_session ∅ [(1, demo_symbols)]); fold_m list_step m demo_history) = Ret m ∧
    shows (fold_left wish demo_history (mk_wishes None None [(1, demo_symbols)] {[1; 2]}))
      (default (demo_session ∅ [(1, demo_symbols)]) (fst <$> last demo_history)) m.
Proof.
  apply (patches_listed (demo_session ∅ [(1, demo_symbols)]) demo_history).
  repeat constructor; simpl; lia.
Defined.
