(* ===== verification/Manager.v ===== *)
(** The manager of the front-ends (frontend/src/frontend_manager.cpp, frontend/frontend_manager.h).

    Every session with a collector, and every session that is loaded from a file, is an instance in a list
    that is shared by the manager and the deleters of the sessions.  An instance goes when neither a
    session nor a window needs it any more.  Nodes of the list are named by the handles of a table, the
    end of a session, which is its deleter, may come in the middle of the call that asks for it. *)

From S2P Require Import Prelude Sdb.

(** The connections of an instance are among the slots of the windows below. *)
(** [frontend/frontend_manager.h:70-77] frontend_manager::instance_impl. *)
Record instance := mk_instance {
  title : string;
  ui : option nat;
  frontend : option nat;
}.

(** [sessions] are the sessions that live, with the instances their deleters hold; [asked] those that
    were asked to disconnect; [slots] are the windows whose signals are connected, with the instances the slots hold.
    The list and the active instance outlive the manager itself. *)
(** [frontend/frontend_manager.h:90-94] frontend_manager. *)
Record frontend_manager := mk_manager {
  instances : table instance;
  active_instance : option nat;
  sessions : gmap nat nat;
  slots : list (nat * nat);
  asked : list nat;
  alive : bool;
}.

Definition new_manager : frontend_manager := mk_manager empty_table None ∅ [] [] true.

Definition with_instances (t : table instance) (s : frontend_manager) : frontend_manager :=
  mk_manager t (active_instance s) (sessions s) (slots s) (asked s) (alive s).
Definition with_active (a : option nat) (s : frontend_manager) : frontend_manager :=
  mk_manager (instances s) a (sessions s) (slots s) (asked s) (alive s).
Definition with_sessions (m : gmap nat nat) (s : frontend_manager) : frontend_manager :=
  mk_manager (instances s) (active_instance s) m (slots s) (asked s) (alive s).
Definition with_slots (l : list (nat * nat)) (s : frontend_manager) : frontend_manager :=
  mk_manager (instances s) (active_instance s) (sessions s) l (asked s) (alive s).

Definition at_ (h : nat) (s : frontend_manager) : option instance := find_record h (records (instances s)).

(** An iterator of an instance that was erased must not be used, and no member of a manager that is
    destroyed. *)
Definition instance_at (h : nat) (s : frontend_manager) : result instance :=
  match at_ h s with Some x => Ret x | None => UB end.
Definition this (s : frontend_manager) : result unit := if alive s then Ret tt else UB.

Definition change (h : nat) (f : instance → instance) (s : frontend_manager) : frontend_manager :=
  with_instances (modify h f (instances s)) s.
(** The connections of an instance are reset; they are its members, and go with it. *)
Definition reset_connections (h : nat) (s : frontend_manager) : frontend_manager :=
  with_slots (filter (λ p, p.2 ≠ h) (slots s)) s.

Definition remove (h : nat) (s : frontend_manager) : frontend_manager :=
  reset_connections h (with_instances (erase h (instances s)) s).

(** [frontend/src/frontend_manager.cpp:52-53] frontend_manager::instances_count. *)
Definition instances_count (s : frontend_manager) : nat := length (records (instances s)).

(** [frontend/src/frontend_manager.cpp:55-62] frontend_manager::get_instance. *)
Definition get_instance (index : nat) (s : frontend_manager) : option nat := (records (instances s)).*1 !! index.

(** [frontend/src/frontend_manager.cpp:64-65] frontend_manager::get_active. *)
Definition get_active (s : frontend_manager) : option nat := active_instance s.

(** [frontend/src/frontend_manager.cpp:70-75] frontend_manager::attach. *)
Definition attach (session : nat) (s : frontend_manager) : frontend_manager :=
  let '(h, t) := create (mk_instance "" None (Some session)) (instances s) in
  with_sessions (<[session := h]> (sessions s)) (with_instances t s).

(** The deleter of a session. *)
(** [frontend/src/frontend_manager.cpp:77-87] frontend_manager::attach. *)
Definition release_session (session : nat) (s : frontend_manager) : result frontend_manager :=
  match sessions s !! session with
  | None => UB
  | Some h =>
    let s := if decide (active_instance s = Some h) then with_active None s else s in
    let s := with_sessions (delete session (sessions s)) s in
    x ← instance_at h s;
    let s := change h (λ x, mk_instance (title x) (ui x) None) s in
    Ret (match ui x with None => remove h s | Some _ => s end)
  end.

(** A session that is asked to disconnect may be gone when the call returns. *)
Definition disconnect_session (sync : nat → bool) (session : nat) (s : frontend_manager) : result frontend_manager :=
  let s := mk_manager (instances s) (active_instance s) (sessions s) (slots s) (asked s ++ [session]) (alive s) in
  if sync session then release_session session s else Ret s.

(** [frontend/src/frontend_manager.cpp:108-117] frontend_manager::reset_entry. *)
Definition reset_entry (sync : nat → bool) (h : nat) (s : frontend_manager) : result frontend_manager :=
  x ← instance_at h s;
  let s := change h (λ x, mk_instance (title x) None (frontend x)) (reset_connections h s) in
  match frontend x with
  | Some session => disconnect_session sync session s
  | None => Ret (remove h s)
  end.

(** The iterator goes on before the instance is reset. *)
Definition reset_all (sync : nat → bool) (s : frontend_manager) : result frontend_manager :=
  fold_m (λ s h, reset_entry sync h s) s (records (instances s)).*1.

(** [frontend/src/frontend_manager.cpp:44-50] frontend_manager::close_all. *)
Definition close_all (sync : nat → bool) (s : frontend_manager) : result frontend_manager :=
  _ ← this s;
  s ← reset_all sync s;
  Ret (with_active None s).

(** [frontend/src/frontend_manager.cpp:37-42] frontend_manager::~frontend_manager. *)
Definition destroy_manager (sync : nat → bool) (s : frontend_manager) : result frontend_manager :=
  _ ← this s;
  s ← reset_all sync s;
  Ret (mk_manager (instances s) (active_instance s) (sessions s) (slots s) (asked s) false).

(** [frontend/src/frontend_manager.cpp:90-96] frontend_manager::set_ui. *)
Definition set_ui (h u : nat) (s : frontend_manager) : result frontend_manager :=
  _ ← this s; _ ← instance_at h s;
  let s := reset_connections h s in
  let s := with_slots (slots s ++ [(u, h)]) s in
  Ret (with_active (Some h) (change h (λ x, mk_instance (title x) (Some u) (frontend x)) s)).

(** [u] is the window that is made, if any. *)
(** [frontend/frontend_manager.h:107-111] frontend_manager::frontend_manager. *)
Definition prepare_ui (h : nat) (text : string) (u : option nat) (s : frontend_manager) : result frontend_manager :=
  _ ← instance_at h s;
  let s := change h (λ x, mk_instance text (ui x) (frontend x)) s in
  match u with Some u => set_ui h u s | None => Ret s end.

(** [frontend/src/frontend_manager.cpp:98-99] frontend_manager::on_ui_activated. *)
Definition on_ui_activated (h : nat) (s : frontend_manager) : result frontend_manager :=
  _ ← this s; _ ← instance_at h s; Ret (with_active (Some h) s).

(** [frontend/src/frontend_manager.cpp:101-106] frontend_manager::on_ui_closed. *)
Definition on_ui_closed (sync : nat → bool) (h : nat) (s : frontend_manager) : result frontend_manager :=
  _ ← this s;
  reset_entry sync h (if decide (active_instance s = Some h) then with_active None s else s).

(** [frontend/frontend_manager.h:123-126] frontend_manager::frontend_manager. *)
Definition load_session (text : string) (u : option nat) (s : frontend_manager) : result frontend_manager :=
  _ ← this s;
  let '(h, t) := create (mk_instance "" None None) (instances s) in
  prepare_ui h text u (with_instances t s).

(** ** What happens to a manager *)

(** Windows are named by numbers; that a window is activated or closed is told by it, whoever listens. *)
Inductive event :=
  | e_connected (session : nat)
  | e_initialized (session : nat) (text : string) (u : option nat)
  | e_activated (u : nat)
  | e_closed (sync : nat → bool) (u : nat)
  | e_released (session : nat)
  | e_loaded (text : string) (u : option nat)
  | e_close_all (sync : nat → bool)
  | e_destroyed (sync : nat → bool).

(** A signal of a window: the slots that are connected to it are called. *)
Definition signal (slot : nat → frontend_manager → result frontend_manager) (u : nat) (s : frontend_manager) : result frontend_manager :=
  fold_m (λ s h, slot h s) s (filter (λ p, p.1 = u) (slots s)).*2.

(** A session is initialised in the instance it was attached to. *)
(** [frontend/frontend_manager.h:113-121] frontend_manager::frontend_manager. *)
Definition happen (e : event) (s : frontend_manager) : result frontend_manager :=
  match e with
  | e_connected session => _ ← this s; Ret (attach session s)
  | e_initialized session text u =>
    match sessions s !! session with Some h => prepare_ui h text u s | None => UB end
  | e_activated u => signal on_ui_activated u s
  | e_closed sync u => signal (on_ui_closed sync) u s
  | e_released session => release_session session s
  | e_loaded text u => load_session text u s
  | e_close_all sync => close_all sync s
  | e_destroyed sync => destroy_manager sync s
  end.

(** What can happen: the methods of the manager are called while it lives, a new session is none of those that live,
    and only a session that lives is initialised or released. *)
Definition possible (s : frontend_manager) (e : event) : Prop :=
  match e with
  | e_connected session => alive s = true ∧ sessions s !! session = None
  | e_initialized session _ _ | e_released session => is_Some (sessions s !! session)
  | e_activated _ | e_closed _ _ => True
  | e_loaded _ _ | e_close_all _ | e_destroyed _ => alive s = true
  end.

(** A session is initialised after the manager was destroyed, and gets a window. *)
Definition late (s : frontend_manager) (e : event) : Prop :=
  match e with e_initialized _ _ (Some _) => alive s = false | _ => False end.

(** ** What the manager promises *)

(** The windows that instances were given and that were not closed since; [None] for an instance that was loaded without
    a window. *)
Definition given_after (e : event) (s : frontend_manager) (w : gmap nat (option nat)) : gmap nat (option nat) :=
  match e with
  | e_initialized session _ (Some u) => match sessions s !! session with Some h => <[h := Some u]> w | None => w end
  | e_closed _ u => filter (λ p, p.2 ≠ Some u) w
  | e_loaded _ u => <[next_handle (instances s) := u]> w
  | e_close_all _ | e_destroyed _ => ∅
  | _ => w
  end.

Inductive reached : frontend_manager → gmap nat (option nat) → Prop :=
  | r_new : reached new_manager ∅
  | r_step s w e s' : reached s w → possible s e → happen e s = Ret s' → reached s' (given_after e s w).

(** ** The instances *)

Section find.
Context {V : Type}.
Implicit Types (t : table V) (v : V).

Lemma find_modify h h' f t : find_record h' (records (modify h f t)) =
  if decide (h' = h) then f <$> find_record h' (records t) else find_record h' (records t).
Proof.
  unfold modify. simpl. induction (records t) as [|[g v] rs IH]; simpl; [by case_decide|].
  destruct (decide (g = h')) as [->|]; [|done]. by case_decide.
Qed.

Lemma find_erase h h' t : find_record h' (records (erase h t)) =
  if decide (h' = h) then None else find_record h' (records t).
Proof.
  unfold erase. simpl. induction (records t) as [|[g v] rs IH]; [by case_decide|].
  destruct (decide (g = h)) as [->|Hne].
  - rewrite filter_cons_False by (simpl; congruence). rewrite IH. simpl.
    destruct (decide (h' = h)); [done|]. by rewrite decide_False.
  - rewrite filter_cons_True by done. simpl. rewrite IH. destruct (decide (g = h')) as [->|]; [|done].
    by rewrite decide_False.
Qed.

Lemma find_create v t h : table_ok t → find_record h (records (create v t).2) =
  if decide (h = next_handle t) then Some v else find_record h (records t).
Proof.
  intros [_ Hl]. simpl. induction (records t) as [|[g w] rs IH]; simpl.
  - destruct (decide (h = next_handle t)) as [->|]; [by rewrite decide_True|by rewrite decide_False].
  - apply Forall_cons in Hl as [Hg Hl]. simpl in Hg. rewrite IH by done.
    destruct (decide (g = h)) as [->|]; [|done]. rewrite decide_False; [done|lia].
Qed.

Lemma find_handle h t : is_Some (find_record h (records t)) ↔ h ∈ (records t).*1.
Proof.
  induction (records t) as [|[g v] rs IH]; simpl.
  - split; [by intros [? ?]|by intros ?%elem_of_nil].
  - rewrite elem_of_cons. destruct (decide (g = h)) as [->|].
    + split; [by left|by eexists].
    + rewrite IH. split; [by right|by intros [->|]].
Qed.
End find.

(** A session that lives is that of one instance, and every instance with a session is that of a session
    that lives; an instance is heard of by its window, and no instance is when there is no manager. *)
Record base_ok (s : frontend_manager) : Prop := {
  bo_table : table_ok (instances s);
  bo_session session h : sessions s !! session = Some h ↔ ∃ x, at_ h s = Some x ∧ frontend x = Some session;
  bo_slots u h : (u, h) ∈ slots s ↔ ∃ x, at_ h s = Some x ∧ ui x = Some u;
  bo_once : NoDup (slots s).*2;
  bo_alive p : p ∈ slots s → alive s = true;
}.

(** The active instance is there, with a window. *)
Definition active_ok (s : frontend_manager) : Prop :=
  ∀ h, active_instance s = Some h → ∃ x, at_ h s = Some x ∧ is_Some (ui x).

(** What is done to one instance leaves the others alone. *)
Definition others (h : nat) (s s' : frontend_manager) : Prop :=
  alive s' = alive s ∧ ∀ g, g ≠ h → at_ g s' = at_ g s.

Lemma new_manager_ok : base_ok new_manager.
Proof.
  split; simpl; [apply (clear_ok empty_table)|intros ? ?; split; [done|by intros (? & ? & ?)]| |constructor|by intros p ?%elem_of_nil].
  intros u h. split; [by intros ?%elem_of_nil|by intros (? & ? & ?)].
Qed.

(** What is known of an instance when only it was touched. *)
Lemma base_ok_touched h s s' : base_ok s → others h s s' → table_ok (instances s') →
  (∀ session g, sessions s' !! session = Some g ↔
    if decide (g = h) then ∃ x, at_ h s' = Some x ∧ frontend x = Some session
    else sessions s !! session = Some g) →
  (∀ u g, (u, g) ∈ slots s' ↔ if decide (g = h) then ∃ x, at_ h s' = Some x ∧ ui x = Some u else (u, g) ∈ slots s) →
  NoDup (slots s').*2 → (∀ p, p ∈ slots s' → alive s = true) → base_ok s'.
Proof.
  intros Hs [Ha Ho] Ht Hse Hsl Hnd Hal. split; [done| | |done|by intros p ?%Hal; rewrite Ha].
  - intros session g. rewrite Hse. case_decide as Hd; [by subst|]. rewrite Ho by done. apply (bo_session _ Hs).
  - intros u g. rewrite Hsl. case_decide as Hd; [by subst|]. rewrite Ho by done. apply (bo_slots _ Hs).
Qed.

(** The connections that are left when those of an instance are reset. *)
Lemma cut_slots h s : base_ok s →
  (∀ u g, (u, g) ∈ filter (λ p, p.2 ≠ h) (slots s) ↔ if decide (g = h) then False else (u, g) ∈ slots s) ∧
  NoDup (filter (λ p, p.2 ≠ h) (slots s)).*2 ∧ (∀ p, p ∈ filter (λ p, p.2 ≠ h) (slots s) → alive s = true).
Proof.
  intros Hs. split_and!.
  - intros u g. rewrite list_elem_of_filter. cbn. case_decide; naive_solver.
  - apply (sublist_NoDup _ (slots s).*2); [apply Hs|]. apply (fmap_sublist snd), sublist_filter.
  - intros p [_ ?]%list_elem_of_filter. by apply (bo_alive _ Hs p).
Qed.

(** The connections stay where the window of the instance does. *)
Lemma same_slots h s s' : base_ok s → others h s s' → slots s' = slots s →
  (∀ u, (∃ x, at_ h s' = Some x ∧ ui x = Some u) ↔ ∃ x, at_ h s = Some x ∧ ui x = Some u) →
  (∀ u g, (u, g) ∈ slots s' ↔ if decide (g = h) then ∃ x, at_ h s' = Some x ∧ ui x = Some u else (u, g) ∈ slots s) ∧
  NoDup (slots s').*2 ∧ (∀ p, p ∈ slots s' → alive s = true).
Proof.
  intros Hs _ -> Hu. split_and!; [|apply Hs|apply Hs]. intros u g. case_decide as Hg; [subst g|done]. by rewrite Hu, (bo_slots _ Hs).
Qed.

Lemma release_session_ok session h x s : base_ok s → sessions s !! session = Some h → at_ h s = Some x →
  ∃ s', release_session session s = Ret s' ∧ base_ok s' ∧ others h s s' ∧
    at_ h s' = (if ui x is Some _ then Some (mk_instance (title x) (ui x) None) else None) ∧
    active_instance s' = (if decide (active_instance s = Some h) then None else active_instance s) ∧
    sessions s' = delete session (sessions s).
Proof.
  intros Hs Hh Hx. unfold release_session, instance_at. rewrite Hh.
  set (s1 := if decide (active_instance s = Some h) then with_active None s else s).
  assert (instances s1 = instances s ∧ sessions s1 = sessions s ∧ slots s1 = slots s ∧ alive s1 = alive s ∧ active_instance s1 =
    if decide (active_instance s = Some h) then None else active_instance s) as (Hi & Hse & Hsl & Ha & Hact)
    by (unfold s1; by case_decide).
  clearbody s1. unfold at_ at 1. simpl. rewrite Hi. fold (at_ h s). rewrite Hx. simpl.
  set (f := λ x, mk_instance (title x) (ui x) None).
  set (s2 := match ui x with None => _ | Some _ => _ end).
  assert (∀ g, at_ g s2 = if decide (g = h) then if ui x is Some _ then Some (f x) else None else at_ g s) as Hat.
  { intros g. unfold s2. destruct (ui x); unfold at_, remove, reset_connections, change; cbn [instances with_instances with_sessions with_slots];
      rewrite ?find_erase, find_modify, Hi.
    - unfold at_ in Hx. destruct (decide (g = h)) as [->|]; [by rewrite Hx|done].
    - by destruct (decide (g = h)). }
  assert (table_ok (instances s2)) as Ht.
  { unfold s2. destruct (ui x); simpl; rewrite Hi; [|apply erase_ok]; apply modify_ok, (bo_table _ Hs). }
  assert (sessions s2 = delete session (sessions s)) as Hd by (unfold s2; destruct (ui x); simpl; by rewrite Hse).
  assert (others h s s2) as Ho.
  { split; [unfold s2; destruct (ui x); simpl; done|]. intros g Hg. by rewrite Hat, decide_False. }
  exists s2. split; [done|]. assert (at_ h s2 = if ui x is Some _ then Some (f x) else None) as Hath
    by (by rewrite Hat, decide_True).
  split; [|split; [exact Ho|split; [done|split; [unfold s2; by destruct (ui x)|done]]]].
  assert (frontend x = Some session) as Hf.
  { destruct (proj1 (bo_session _ Hs session h) Hh) as (y & Hy & Hfy). congruence. }
  assert ((∀ u g, (u, g) ∈ slots s2 ↔ if decide (g = h) then ∃ y, at_ h s2 = Some y ∧ ui y = Some u else (u, g) ∈ slots s) ∧
    NoDup (slots s2).*2 ∧ (∀ p, p ∈ slots s2 → alive s = true)) as (H1 & H2 & H3).
  { destruct (ui x) as [u0|] eqn:Eu.
    - apply (same_slots h s s2 Hs Ho Hsl). intros u. rewrite Hath, Hx.
      split; intros (y & [= <-] & Hy); eexists; (split; [done|]); cbn in *; congruence.
    - assert (slots s2 = filter (λ p, p.2 ≠ h) (slots s)) as -> by (by rewrite <- Hsl). destruct (cut_slots h s Hs) as (H1 & H2 & H3).
      split_and!; [|done..]. intros u g. rewrite H1, Hath. destruct (decide (g = h)); [|done]. split; [done|]. by intros (y & ? & _). }
  apply (base_ok_touched h s s2 Hs Ho Ht); [|done..].
  intros session' g. rewrite Hd, lookup_delete_Some. destruct (decide (g = h)) as [->|Hg].
  - rewrite Hath. split.
    + intros [Hne Hs']. destruct (proj1 (bo_session _ Hs session' h) Hs') as (y & Hy & Hfy). congruence.
    + intros (y & Hy & Hfy). destruct (ui x); [|done]. by injection Hy as <-.
  - split; [by intros []|]. intros Hs'. split; [congruence|done].
Qed.

Lemma reset_entry_ok sync h x s : base_ok s → at_ h s = Some x →
  ∃ s', reset_entry sync h s = Ret s' ∧ base_ok s' ∧ others h s s' ∧
    (∀ y, at_ h s' = Some y → ui y = None ∧ frontend y = frontend x ∧ is_Some (frontend x)) ∧
    (active_instance s' = active_instance s ∨ active_instance s = Some h ∧ active_instance s' = None).
Proof.
  intros Hs Hx. unfold reset_entry, instance_at. rewrite Hx. simpl.
  set (x0 := mk_instance (title x) None (frontend x)).
  set (s1 := change h _ _).
  assert (∀ g, at_ g s1 = if decide (g = h) then Some x0 else at_ g s) as Hat.
  { intros g. unfold s1, at_, change, reset_connections. cbn [instances with_instances with_slots]. rewrite find_modify. unfold at_ in Hx.
    destruct (decide (g = h)) as [->|]; [by rewrite Hx|done]. }
  assert (others h s s1) as Ho by (split; [done|]; intros g Hg; by rewrite Hat, decide_False).
  assert (at_ h s1 = Some x0) as Hath by (by rewrite Hat, decide_True).
  assert (base_ok s1) as Hs1.
  { destruct (cut_slots h s Hs) as (H1 & H2 & H3). apply (base_ok_touched h s s1 Hs Ho); [apply modify_ok, (bo_table _ Hs)| | |done..].
    - intros session g. rewrite Hath. destruct (decide (g = h)) as [->|]; [|done]. change (sessions s1) with (sessions s).
      rewrite (bo_session _ Hs), Hx. simpl. naive_solver.
    - intros u g. change (slots s1) with (filter (λ p, p.2 ≠ h) (slots s)). rewrite H1, Hath. case_decide; [|done].
      split; [done|]. by intros (y & [= <-] & ?). }
  destruct (frontend x) as [session|] eqn:Ef.
  - unfold disconnect_session. set (s2 := mk_manager _ _ _ _ (asked s1 ++ [session]) _).
    assert (base_ok s2) as Hs2 by (by destruct Hs1).
    destruct (sync session).
    + assert (sessions s2 !! session = Some h) as Hse by (apply (bo_session _ Hs); eauto).
      destruct (release_session_ok session h x0 s2 Hs2 Hse) as (s3 & Hr & Hs3 & [Ha3 Ho3] & Hat3 & Hact & _);
        [change (at_ h s1 = Some x0); by rewrite Hat, decide_True|].
      exists s3. split; [done|]. split; [done|]. split_and!.
      * split; [by rewrite Ha3|]. intros g Hg. rewrite Ho3 by done. by apply Ho.
      * intros y. by rewrite Hat3.
      * rewrite Hact. change (active_instance s2) with (active_instance s).
        destruct (decide (active_instance s = Some h)); [by right|by left].
    + exists s2. split; [done|]. split; [done|]. split; [apply Ho|]. split; [|by left].
      intros y. change (at_ h s2) with (at_ h s1). rewrite Hat, decide_True by done. intros [= <-]. simpl. eauto.
  - exists (remove h s1).
    assert (∀ g, at_ g (remove h s1) = if decide (g = h) then None else at_ g s) as Hat'.
    { intros g. unfold at_ at 1, remove, reset_connections. cbn [instances with_instances with_slots]. rewrite find_erase. case_decide as Hg; [done|]. fold (at_ g s1).
      by rewrite Hat, decide_False. }
    assert (at_ h (remove h s1) = None) as Hath' by (by rewrite Hat', decide_True).
    assert (∀ g, g ≠ h → at_ g (remove h s1) = at_ g s) as Ho' by (intros g Hg; by rewrite Hat', decide_False).
    split; [done|]. split; [|split; [by split|split; [by rewrite Hath'|by left]]].
    destruct (cut_slots h s1 Hs1) as (H1 & H2 & H3).
    apply (base_ok_touched h s1 _ Hs1); [split; [done|]; intros g Hg|apply erase_ok, (bo_table _ Hs1)| | |done..].
    + by rewrite Ho', Hat, decide_False.
    + intros session g. rewrite Hath'. change (sessions (remove h s1)) with (sessions s1).
      destruct (decide (g = h)) as [->|]; [|done]. split; [|by intros (? & ? & _)].
      intros (y & Hy & Hfy)%(bo_session _ Hs1). rewrite Hath in Hy. by injection Hy as <-.
    + intros u g. change (slots (remove h s1)) with (filter (λ p, p.2 ≠ h) (slots s1)). rewrite H1, Hath'. case_decide; [|done].
      split; [done|]. by intros (y & ? & _).
Qed.

(** All of the instances, one after another. *)
Lemma reset_all_ok sync hs : ∀ s, base_ok s → NoDup hs → (∀ h, h ∈ hs → is_Some (at_ h s)) →
  ∃ s', fold_m (λ s h, reset_entry sync h s) s hs = Ret s' ∧ base_ok s' ∧ alive s' = alive s ∧
    (∀ g, g ∉ hs → at_ g s' = at_ g s) ∧
    (∀ h y, h ∈ hs → at_ h s' = Some y → ui y = None ∧ is_Some (frontend y)).
Proof.
  induction hs as [|h hs IH]; intros s Hs Hnd Hin.
  { exists s. split_and!; try done. by intros h y ?%elem_of_nil. }
  apply NoDup_cons in Hnd as [Hh Hnd]. destruct (Hin h) as [x Hx]; [by left|].
  destruct (reset_entry_ok sync h x s Hs Hx) as (s1 & Hr & Hs1 & [Ha1 Ho1] & Hy1 & _).
  assert (∀ g, g ∈ hs → at_ g s1 = at_ g s) as Hsame by (intros g Hg; apply Ho1; by intros ->).
  destruct (IH s1 Hs1 Hnd) as (s2 & Hf & Hs2 & Ha2 & Ho2 & Hy2).
  { intros g Hg. rewrite Hsame by done. apply Hin. by right. }
  exists s2. cbn [fold_m]. rewrite Hr. split; [done|]. split; [done|]. split; [congruence|]. split.
  - intros g [Hg Hg']%not_elem_of_cons. rewrite Ho2 by done. by apply Ho1.
  - intros g y [->|Hg]%elem_of_cons Hy; [|by apply (Hy2 g)]. rewrite Ho2 in Hy by done.
    destruct (Hy1 y Hy) as (? & -> & ?). done.
Qed.

Lemma reset_all_returns sync s : base_ok s → ∃ s', reset_all sync s = Ret s' ∧ base_ok s' ∧ alive s' = alive s ∧
  ∀ h y, at_ h s' = Some y → ui y = None ∧ is_Some (frontend y).
Proof.
  intros Hs. destruct (reset_all_ok sync (records (instances s)).*1 s Hs (proj1 (bo_table _ Hs)))
    as (s' & Hf & Hs' & Ha & Ho & Hy); [intros h; by rewrite <- find_handle|].
  exists s'. split_and!; try done. intros h y Hh. apply (Hy h); [|done]. apply dec_stable. intros Hn.
  rewrite Ho in Hh by done. destruct Hn. apply find_handle. by exists y.
Qed.

(** ** What holds whatever happens *)

Definition manager_ok (s : frontend_manager) : Prop := base_ok s ∧ (alive s = true → active_ok s).

(** A new instance, with a session or without one. *)
Definition insert_instance (f : option nat) (s : frontend_manager) : frontend_manager :=
  let '(h, t) := create (mk_instance "" None f) (instances s) in
  with_sessions (if f is Some session then <[session := h]> (sessions s) else sessions s) (with_instances t s).

Lemma insert_instance_ok f s : base_ok s → (∀ session, f = Some session → sessions s !! session = None) →
  let h := next_handle (instances s) in let s' := insert_instance f s in
  base_ok s' ∧ others h s s' ∧ at_ h s = None ∧ at_ h s' = Some (mk_instance "" None f).
Proof.
  intros Hs Hn h s'. set (x := mk_instance "" None f).
  assert (∀ g, at_ g s' = if decide (g = h) then Some x else at_ g s) as Hat.
  { intros g. unfold at_. apply (find_create x). apply (bo_table _ Hs). }
  assert (at_ h s' = Some x) as Hath by (by rewrite Hat, decide_True).
  assert (at_ h s = None) as Hnone.
  { apply eq_None_not_Some. intros Hh%find_handle. destruct (bo_table _ Hs) as [_ Hl].
    apply list_elem_of_fmap in Hh as (p & Hp & Hin). rewrite Forall_forall in Hl. specialize (Hl _ Hin). unfold h in Hp. lia. }
  assert (others h s s') as Ho by (split; [done|]; intros g Hg; by rewrite Hat, decide_False).
  split; [|done]. destruct (same_slots h s s' Hs Ho eq_refl) as (H1 & H2 & H3).
  { intros u. rewrite Hath, Hnone. split; [by intros (y & [= <-] & ?)|by intros (y & ? & _)]. }
  apply (base_ok_touched h s _ Hs Ho); [by apply create_ok, (bo_table _ Hs)| |done..].
  - intros session g. rewrite Hath.
    change (sessions s') with (if f is Some session then <[session := h]> (sessions s) else sessions s).
    assert (∀ session, sessions s !! session = Some h → False) as Hno
      by (intros session0 (y & Hy & _)%(bo_session _ Hs); congruence).
    destruct f as [session0|], (decide (g = h)) as [->|Hg]; rewrite ?lookup_insert_Some.
    + split; [intros [[-> _]|[_ ?%Hno]]; [by exists x|done]|]. intros (y & [= <-] & [= ->]). by left.
    + split; [intros [[_ ?]|[_ ?]]; congruence|]. intros Hse. right. split; [|done].
      intros ->. rewrite Hn in Hse by done. done.
    + split; [by intros ?%Hno|]. by intros (y & [= <-] & ?).
    + done.
Qed.

Lemma attach_insert session s : attach session s = insert_instance (Some session) s.
Proof. done. Qed.

Lemma change_at h x f s : at_ h s = Some x →
  others h s (change h f s) ∧ at_ h (change h f s) = Some (f x).
Proof.
  intros Hx.
  assert (∀ g, at_ g (change h f s) = if decide (g = h) then Some (f x) else at_ g s) as Hat.
  { intros g. unfold at_, change. cbn [instances with_instances]. rewrite find_modify. unfold at_ in Hx.
    destruct (decide (g = h)) as [->|]; [by rewrite Hx|done]. }
  split; [split; [done|]; intros g Hg; by rewrite Hat, decide_False|by rewrite Hat, decide_True].
Qed.

(** Titles and windows are changed, sessions are not. *)
Lemma change_sessions h x y s s' : base_ok s → at_ h s = Some x → at_ h s' = Some y → frontend y = frontend x → sessions s' = sessions s →
  ∀ session g, sessions s' !! session = Some g ↔
    if decide (g = h) then ∃ x, at_ h s' = Some x ∧ frontend x = Some session else sessions s !! session = Some g.
Proof.
  intros Hs Hx Hy Hf -> session g. case_decide as Hg; [subst g|done]. rewrite (bo_session _ Hs), Hx, Hy.
  split; intros (z & [= <-] & Hz); eexists; (split; [done|congruence]).
Qed.

Lemma retitle_ok h x text s : base_ok s → at_ h s = Some x → let s' := change h (λ x, mk_instance text (ui x) (frontend x)) s in
  base_ok s' ∧ others h s s' ∧ at_ h s' = Some (mk_instance text (ui x) (frontend x)).
Proof.
  intros Hs Hx s'. destruct (change_at h x (λ x, mk_instance text (ui x) (frontend x)) s Hx) as [Ho Hx']. fold s' in Ho, Hx'. split; [|done].
  destruct (same_slots h s s' Hs Ho eq_refl) as (H1 & H2 & H3).
  { intros u. rewrite Hx, Hx'. split; intros (z & [= <-] & Hz); eexists; (split; [done|]); cbn in *; congruence. }
  apply (base_ok_touched h s s' Hs Ho); [apply modify_ok, (bo_table _ Hs)| |done..]. by eapply change_sessions.
Qed.

Lemma set_ui_ok h x u s : base_ok s → alive s = true → at_ h s = Some x →
  ∃ s', set_ui h u s = Ret s' ∧ base_ok s' ∧ others h s s' ∧ active_instance s' = Some h ∧
    at_ h s' = Some (mk_instance (title x) (Some u) (frontend x)).
Proof.
  intros Hs Ha Hx. unfold set_ui, this, instance_at. rewrite Ha, Hx. cbn [mbind result_bind].
  set (s1 := with_slots _ _). destruct (change_at h x (λ x, mk_instance (title x) (Some u) (frontend x)) s1 Hx) as [[Ha' Ho] Hx'].
  set (s2 := change h _ s1) in *. eexists. split; [done|]. split; [|done]. destruct (cut_slots h s Hs) as (H1 & H2 & H3).
  apply (base_ok_touched h s _ Hs); [split; [done|]; intros g Hg; by apply (Ho g)|apply modify_ok, (bo_table _ Hs)| | | |].
  - by eapply change_sessions.
  - change (slots (with_active (Some h) s2)) with (filter (λ p, p.2 ≠ h) (slots s) ++ [(u, h)]). intros v g. rewrite elem_of_app, H1, list_elem_of_singleton.
    change (at_ h (with_active (Some h) s2)) with (at_ h s2). rewrite Hx'. case_decide as Hg; [subst g|].
    + split; [intros [[]|[= ->]]; by eexists|]. intros (y & [= <-] & [= ->]). by right.
    + split; [intros [?|[= ??]]; done|by left].
  - change (slots (with_active (Some h) s2)) with (filter (λ p, p.2 ≠ h) (slots s) ++ [(u, h)]). rewrite fmap_app. apply NoDup_app. split_and!; [done| |apply NoDup_singleton].
    intros g ([v g'] & E & Hin)%list_elem_of_fmap Hg. cbn in E, Hg. apply list_elem_of_singleton in Hg. apply list_elem_of_filter in Hin as [Hne _].
    cbn in Hne. congruence.
  - done.
Qed.

Lemma prepare_ui_ok h x text u s : base_ok s → at_ h s = Some x → (u = None ∨ alive s = true) →
  ∃ s', prepare_ui h text u s = Ret s' ∧ base_ok s' ∧ others h s s' ∧
    active_instance s' = (if u is Some _ then Some h else active_instance s) ∧
    ∃ y, at_ h s' = Some y ∧ frontend y = frontend x ∧ ui y = (if u is Some _ then u else ui x).
Proof.
  intros Hs Hx Hu. unfold prepare_ui, instance_at. rewrite Hx. simpl. destruct (retitle_ok h x text s Hs Hx) as (Hs1 & [Ha1 Ho1] & Hx1).
  set (s1 := change h _ s) in *. destruct u as [u|]; [|by exists s1; split_and!; try done; eexists].
  destruct Hu as [?|Ha]; [done|]. destruct (set_ui_ok h _ u s1 Hs1 ltac:(congruence) Hx1) as (s2 & -> & Hs2 & [Ha2 Ho2] & Hac & Hx2).
  exists s2. split_and!; [done|done| |done|by eexists]. split; [congruence|]. intros g Hg. by rewrite Ho2, Ho1.
Qed.

(** Who is active is so as long as its window is. *)
Lemma active_touched h s s' : active_ok s → others h s s' →
  (active_instance s' = Some h → ∃ y, at_ h s' = Some y ∧ is_Some (ui y)) →
  (∀ g, g ≠ h → active_instance s' = Some g → active_instance s = Some g) → active_ok s'.
Proof.
  intros Hs [_ Ho] Hh Hg g Hact. destruct (decide (g = h)) as [->|Hne]; [by apply Hh|].
  rewrite Ho by done. by apply Hs, Hg.
Qed.

Lemma on_ui_closed_ok sync h x s : manager_ok s → alive s = true → at_ h s = Some x →
  ∃ s', on_ui_closed sync h s = Ret s' ∧ manager_ok s' ∧ others h s s' ∧
    (∀ y, at_ h s' = Some y → ui y = None ∧ is_Some (frontend y)).
Proof.
  intros [Hs Hact] Ha Hx. unfold on_ui_closed, this.
  rewrite Ha. simpl. set (s0 := if decide (active_instance s = Some h) then with_active None s else s).
  assert (base_ok s0 ∧ (∀ g, at_ g s0 = at_ g s) ∧ alive s0 = true ∧ active_instance s0 ≠ Some h ∧ active_ok s0)
    as (Hs0 & Hat0 & Ha0 & Hne & Hact0).
  { unfold s0. case_decide; [|by split_and!; auto]. split_and!; try done; by destruct Hs. }
  destruct (reset_entry_ok sync h x s0 Hs0) as (s' & Hr & Hs' & Ho & Hy & Hac); [by rewrite Hat0|].
  exists s'. split; [done|]. split; [|split].
  - split; [done|]. intros _. apply (active_touched h s0 _ Hact0 Ho).
    + destruct Hac as [->|[? ->]]; done.
    + intros g _. destruct Hac as [->|[_ ->]]; done.
  - split; [rewrite (proj1 Ho); congruence|]. intros g Hg. by rewrite (proj2 Ho), Hat0.
  - intros y Hy'. by destruct (Hy y Hy') as (? & -> & ?).
Qed.

(** The instances a window is connected to. *)
Lemma connected_instances u s : base_ok s → NoDup (filter (λ p, p.1 = u) (slots s)).*2 ∧
  (∀ h, h ∈ (filter (λ p, p.1 = u) (slots s)).*2 ↔ ∃ x, at_ h s = Some x ∧ ui x = Some u) ∧
  ((filter (λ p, p.1 = u) (slots s)).*2 ≠ [] → alive s = true).
Proof.
  intros Hs. assert (∀ h, h ∈ (filter (λ p, p.1 = u) (slots s)).*2 ↔ (u, h) ∈ slots s) as Hin.
  { intros h. rewrite list_elem_of_fmap. split; [intros ([v g] & -> & [Hv ?]%list_elem_of_filter); cbn in *; by subst v|].
    intros Hh. exists (u, h). split; [done|]. by apply list_elem_of_filter. }
  split_and!.
  - apply (sublist_NoDup _ (slots s).*2); [apply Hs|]. apply (fmap_sublist snd), sublist_filter.
  - intros h. by rewrite Hin, (bo_slots _ Hs).
  - destruct (filter _ _).*2 as [|h hs] eqn:E; [done|]. intros _. apply (bo_alive _ Hs (u, h)), Hin. by left.
Qed.

Lemma signal_activated hs : ∀ s, manager_ok s → (hs ≠ [] → alive s = true) →
  (∀ h, h ∈ hs → ∃ x, at_ h s = Some x ∧ is_Some (ui x)) →
  ∃ s', fold_m (λ s h, on_ui_activated h s) s hs = Ret s' ∧ manager_ok s' ∧ ∀ g, at_ g s' = at_ g s.
Proof.
  induction hs as [|h hs IH]; intros s Hok Ha Hin; [by exists s|]. destruct (Hin h) as (x & Hx & Hu); [by left|].
  assert (on_ui_activated h s = Ret (with_active (Some h) s)) as E.
  { unfold on_ui_activated, this, instance_at. by rewrite Ha, Hx by done. }
  cbn [fold_m]. rewrite E. cbn [mbind result_bind].
  destruct (IH (with_active (Some h) s)) as (s' & Hf & Hok' & Hat).
  - destruct Hok as [Hs _]. split; [by destruct Hs|]. intros _ g [= <-]. by exists x.
  - intros _. by apply Ha.
  - intros g Hg. apply Hin. by right.
  - by exists s'.
Qed.

Lemma signal_closed sync hs : ∀ s, manager_ok s → NoDup hs → (hs ≠ [] → alive s = true) → (∀ h, h ∈ hs → is_Some (at_ h s)) →
  ∃ s', fold_m (λ s h, on_ui_closed sync h s) s hs = Ret s' ∧ manager_ok s' ∧ (∀ g, g ∉ hs → at_ g s' = at_ g s) ∧
    ∀ h y, h ∈ hs → at_ h s' = Some y → ui y = None ∧ is_Some (frontend y).
Proof.
  induction hs as [|h hs IH]; intros s Hok Hnd Ha Hin.
  { exists s. split_and!; try done; [by destruct Hok..|]. by intros h y ?%elem_of_nil. }
  apply NoDup_cons in Hnd as [Hh Hnd]. destruct (Hin h) as [x Hx]; [by left|]. specialize (Ha ltac:(done)).
  destruct (on_ui_closed_ok sync h x s Hok Ha Hx) as (s1 & Hr & Hok1 & [Ha1 Ho1] & Hy1).
  assert (∀ g, g ∈ hs → at_ g s1 = at_ g s) as Hsame by (intros g Hg; apply Ho1; by intros ->).
  destruct (IH s1 Hok1 Hnd) as (s2 & Hf & Hok2 & Ho2 & Hy2); [congruence| |].
  { intros g Hg. rewrite Hsame by done. apply Hin. by right. }
  exists s2. cbn [fold_m]. rewrite Hr. split_and!; [done|by destruct Hok2..| |].
  - intros g [Hg Hg']%not_elem_of_cons. rewrite Ho2 by done. by apply Ho1.
  - intros g y [->|Hg]%elem_of_cons Hy; [|by apply (Hy2 g)]. rewrite Ho2 in Hy by done. by apply Hy1.
Qed.

(** ** An instance lives as long as somebody needs it *)

(** An instance, and what it was given. *)
Definition agrees_at (x : option instance) (w : option (option nat)) : Prop :=
  match x, w with
  | None, None => True
  | None, Some _ => False
  | Some x, None => ui x = None ∧ is_Some (frontend x)
  | Some x, Some None => ui x = None ∧ frontend x = None
  | Some x, Some (Some u) => ui x = Some u
  end.

Definition agrees (s : frontend_manager) (w : gmap nat (option nat)) : Prop := ∀ h, agrees_at (at_ h s) (w !! h).

Lemma agrees_touched h s s' w w' : agrees s w → others h s s' → (∀ g, g ≠ h → w' !! g = w !! g) →
  agrees_at (at_ h s') (w' !! h) → agrees s' w'.
Proof. intros Hag [_ Ho] Hw Hh g. destruct (decide (g = h)) as [->|Hne]; [done|]. rewrite Ho, Hw by done. apply Hag. Qed.

(** Nothing has a window any more, and what is left has a session. *)
Lemma agrees_empty s : (∀ h y, at_ h s = Some y → ui y = None ∧ is_Some (frontend y)) → agrees s ∅.
Proof. intros Hy h. rewrite lookup_empty. destruct (at_ h s) eqn:E; [by apply (Hy h)|done]. Qed.

(** A step that is defined. *)
Definition goes (e : event) (s : frontend_manager) (w : gmap nat (option nat)) : Prop :=
  ∃ s', happen e s = Ret s' ∧ manager_ok s' ∧ agrees s' (given_after e s w).

Lemma connected_goes s w session : manager_ok s → agrees s w → alive s = true → sessions s !! session = None →
  goes (e_connected session) s w.
Proof.
  intros [Hs Hact] Hag Ha Hn. unfold goes. simpl. unfold this. rewrite Ha. simpl. exists (attach session s). split; [done|].
  rewrite attach_insert. destruct (insert_instance_ok (Some session) s Hs ltac:(congruence)) as (Hs' & Ho & Hnone & Hath). split.
  - split; [done|]. intros _. apply (active_touched _ s _ (Hact Ha) Ho); [|done].
    intros Hh. destruct (Hact Ha _ Hh) as (y & Hy & _). congruence.
  - apply (agrees_touched _ s _ w w Hag Ho); [done|]. pose proof (Hag (next_handle (instances s))) as Hw. rewrite Hnone in Hw.
    rewrite Hath. destruct (w !! _); [done|]. by split; [|eexists].
Qed.

Lemma released_goes s w session : manager_ok s → agrees s w → is_Some (sessions s !! session) → goes (e_released session) s w.
Proof.
  intros [Hs Hact] Hag [h Hh]. destruct (proj1 (bo_session _ Hs session h) Hh) as (x & Hx & Hf).
  destruct (release_session_ok session h x s Hs Hh Hx) as (s' & Hr & Hs' & Ho & Hath & Hac & _).
  exists s'. split; [done|]. split.
  - split; [done|]. rewrite (proj1 Ho). intros Ha. apply (active_touched h s _ (Hact Ha) Ho).
    + rewrite Hac. case_decide; [done|]. congruence.
    + intros g _. rewrite Hac. by case_decide.
  - apply (agrees_touched h s _ w w Hag Ho); [done|]. pose proof (Hag h) as Hw. rewrite Hx in Hw. rewrite Hath.
    destruct (w !! h) as [[u|]|]; cbn in Hw; destruct_and?; try congruence; [by rewrite Hw|].
    by replace (ui x) with (@None nat) by done.
Qed.

(** An instance is given a window, or none, when what it shows is known. *)
Lemma prepared_goes h x text u s w : manager_ok s → agrees s w → at_ h s = Some x → (u = None ∨ alive s = true) →
  ∃ s', prepare_ui h text u s = Ret s' ∧ manager_ok s' ∧ agrees s' (match u with Some u => <[h := Some u]> w | None => w end).
Proof.
  intros [Hs Hact] Hag Hx Hu0. destruct (prepare_ui_ok h x text u s Hs Hx Hu0) as (s' & Hp & Hs' & Ho & Hac & y & Hy & Hf & Hu).
  exists s'. split; [done|]. split; [split; [done|]|].
  - rewrite (proj1 Ho). intros Ha. apply (active_touched h s _ (Hact Ha) Ho).
    + intros Hh. exists y. split; [done|]. rewrite Hu. destruct u as [u|]; [by eexists|]. rewrite Hac in Hh.
      destruct (Hact Ha _ Hh) as (z & Hz & ?). congruence.
    + rewrite Hac. destruct u; [congruence|done].
  - apply (agrees_touched h s _ w _ Hag Ho); [intros g Hg; destruct u; [by rewrite lookup_insert_ne|done]|].
    rewrite Hy. destruct u as [u|]; [by rewrite lookup_insert_eq|]. pose proof (Hag h) as Hw. rewrite Hx in Hw. cbn in *. by rewrite Hu, Hf.
Qed.

Lemma loaded_goes s w text u : manager_ok s → agrees s w → alive s = true → goes (e_loaded text u) s w.
Proof.
  intros [Hs Hact] Hag Ha. unfold goes. simpl. unfold load_session, this. rewrite Ha. simpl.
  destruct (insert_instance_ok None s Hs ltac:(done)) as (Hs' & Ho & Hnone & Hath).
  set (h := next_handle (instances s)) in *. set (s1 := insert_instance None s) in *.
  assert (manager_ok s1) as Hok1.
  { split; [done|]. intros _. apply (active_touched h s _ (Hact Ha) Ho); [|done].
    intros Hh. destruct (Hact Ha _ Hh) as (y & Hy & _). congruence. }
  assert (agrees s1 (<[h := None]> w)) as Hag1.
  { apply (agrees_touched h s _ w _ Hag Ho); [intros g Hg; by rewrite lookup_insert_ne|]. by rewrite Hath, lookup_insert_eq. }
  destruct (prepared_goes h _ text u s1 _ Hok1 Hag1 Hath) as (s' & Hr & Hok' & Hag'); [by right|]. exists s'.
  split; [rewrite <- Hr; by destruct s|]. split; [done|]. destruct u; [by rewrite insert_insert_eq in Hag'|done].
Qed.

Lemma closed_goes s w sync u : manager_ok s → agrees s w → goes (e_closed sync u) s w.
Proof.
  intros Hok Hag. unfold goes. simpl. unfold signal. destruct (connected_instances u s (proj1 Hok)) as (Hnd & Hin & Ha).
  set (hs := (filter _ _).*2) in *.
  destruct (signal_closed sync hs s Hok Hnd Ha) as (s' & Hf & Hok' & Ho & Hy); [intros h (x & Hx & _)%Hin; by eexists|].
  exists s'. split; [done|]. split; [done|]. intros h. pose proof (Hag h) as Hw. rewrite map_lookup_filter.
  destruct (decide (h ∈ hs)) as [Hh|Hh].
  - pose proof (proj1 (Hin h) Hh) as (x & Hx & Hu). rewrite Hx in Hw.
    assert (w !! h = Some (Some u)) as -> by (destruct (w !! h) as [[v|]|]; cbn in Hw; destruct_and?; congruence).
    cbn. rewrite option_guard_False by naive_solver. destruct (at_ h s') eqn:E; [by apply (Hy h)|done].
  - rewrite Ho by done. destruct (w !! h) as [v|] eqn:E; cbn; [|done]. rewrite option_guard_True; [done|]. cbn. intros ->.
    apply Hh, Hin. cbn in Hw. destruct (at_ h s) as [x|]; [by exists x|done].
Qed.

Lemma happen_goes s w e : manager_ok s → agrees s w → possible s e → ¬ late s e → goes e s w.
Proof.
  intros Hok Hag Hp Hl. destruct e as [session|session text u|u|sync u|session|text u|sync|sync]; simpl in Hp.
  - destruct Hp. by apply connected_goes.
  - destruct Hp as [h Hh]. unfold goes. simpl. rewrite Hh. destruct (proj1 (bo_session _ (proj1 Hok) session h) Hh) as (x & Hx & _).
    apply (prepared_goes h x text u s w Hok Hag Hx). destruct u; [right; by apply not_false_is_true|by left].
  - unfold goes. simpl. unfold signal. destruct (connected_instances u s (proj1 Hok)) as (_ & Hin & Ha).
    destruct (signal_activated _ s Hok Ha) as (s' & Hf & Hok' & Hat); [intros h (x & Hx & Hu)%Hin; exists x; by rewrite Hu|].
    exists s'. split; [done|]. split; [done|]. intros h. rewrite Hat. apply Hag.
  - by apply closed_goes.
  - by apply released_goes.
  - by apply loaded_goes.
  - unfold goes. simpl. unfold close_all, this. rewrite Hp. simpl.
    destruct (reset_all_returns sync s (proj1 Hok)) as (s' & Hr & Hs' & Ha & Hy). rewrite Hr. simpl.
    eexists. split; [done|]. split; [|by apply agrees_empty]. split; [by destruct Hs'|]. by intros _ g.
  - unfold goes. simpl. unfold destroy_manager, this. rewrite Hp. simpl.
    destruct (reset_all_returns sync s (proj1 Hok)) as (s' & Hr & Hs' & Ha & Hy). rewrite Hr. simpl.
    eexists. split; [done|]. split; [|by apply agrees_empty]. split; [|done]. destruct Hs' as [H1 H2 H3 H4 H5]. split; [done..|].
    intros [u h] (x & Hx & Hu)%H3. destruct (Hy _ _ Hx) as [Hn _]. congruence.
Qed.

(** The slots and the functions of a session hold the manager itself, unlike the deleters: a session that
    is initialised when the manager is gone is handled by an object that is not there. *)
Lemma late_initialization_undefined s e : manager_ok s → possible s e → late s e → happen e s = UB.
Proof.
  intros Hok Hp Hl. destruct e as [|session text [u|]| | | | | |]; try done. destruct Hp as [h Hh]. cbn in Hl |- *. rewrite Hh.
  destruct (proj1 (bo_session _ (proj1 Hok) session h) Hh) as (x & Hx & _).
  unfold prepare_ui, instance_at. rewrite Hx. cbn [mbind result_bind]. unfold set_ui, this. cbn [alive change with_instances]. by rewrite Hl.
Qed.

Lemma reached_ok s w : reached s w → manager_ok s ∧ agrees s w.
Proof.
  induction 1 as [|s w e s' _ [Hok Hag] Hp Hh]; [split; [split; [apply new_manager_ok|done]|intros h; by rewrite lookup_empty]|].
  assert (¬ late s e) as Hl by (intros Hl; by rewrite late_initialization_undefined in Hh).
  destruct (happen_goes s w e Hok Hag Hp Hl) as (s1 & Hh' & Hok' & Hag'). rewrite Hh in Hh'. by apply Ret_inj in Hh' as <-.
Qed.

(** C40: Whatever happens to the sessions, the windows and the manager, in whatever order, and whether a
    session ends in the call that asks for it or later: no instance is used after it was erased, not by
    the deleter of a session that outlives the manager and not by a slot of a window either; while there is a manager,
    the active instance is one that is in the list and has a window; and an instance is in the list exactly as long as
    its session lives, or the window it was given last was not closed since, by itself or together with all of them (an
    instance that is loaded without a window stays until all are closed).  There is one exception: a session that is
    initialised after the manager was destroyed, and gets a window, uses the manager that is gone. *)
Theorem manager_safe s w e :
  reached s w → possible s e →
  (late s e → happen e s = UB) ∧
  (¬ late s e → ∃ s', happen e s = Ret s' ∧
    (alive s' = true → ∀ h, get_active s' = Some h → ∃ x, at_ h s' = Some x ∧ is_Some (ui x)) ∧
    let w' := given_after e s w in
    ∀ h, (is_Some (at_ h s') ↔ (∃ session, sessions s' !! session = Some h) ∨ is_Some (w' !! h)) ∧
      ∀ x, at_ h s' = Some x → ui x = mjoin (w' !! h)).
Proof.
  intros Hr Hp. destruct (reached_ok _ _ Hr) as [Hok Hag]. split; [by apply late_initialization_undefined|]. intros Hl.
  destruct (happen_goes s w e Hok Hag Hp Hl) as (s' & Hh & [Hs' Hact'] & Hag'). exists s'. split; [done|]. split; [apply Hact'|].
  intros w' h. pose proof (Hag' h) as Hw. fold w' in Hw. split.
  - setoid_rewrite (bo_session _ Hs'). destruct (at_ h s') as [x|], (w' !! h) as [[u|]|]; cbn in Hw; try done.
    + split; [by right; eexists|by eexists].
    + split; [by right; eexists|by eexists].
    + destruct Hw as [_ [session Hf]]. split; [left; by exists session, x|by eexists].
    + split; [by intros []|by intros [(? & ? & ? & _)|[]]].
  - intros x Hx. rewrite Hx in Hw. destruct (w' !! h) as [[u|]|]; cbn in *; by destruct_and?.
Qed.

(** The sessions that are left, released one by one. *)
Lemma release_rest ls : ∀ s, base_ok s → (∀ h y, at_ h s = Some y → ui y = None ∧ is_Some (frontend y)) →
  NoDup ls → (∀ session, session ∈ ls ↔ is_Some (sessions s !! session)) →
  ∃ s', fold_m (λ s session, release_session session s) s ls = Ret s' ∧ (∀ h, at_ h s' = None) ∧
    (active_instance s = None → active_instance s' = None).
Proof.
  induction ls as [|session ls IH]; intros s Hs Hy Hnd Hin.
  { exists s. split_and!; try done. intros h. apply eq_None_not_Some. intros [y Hh].
    destruct (Hy h y Hh) as [_ [session Hf]]. apply (not_elem_of_nil session), Hin.
    exists h. apply (bo_session _ Hs). by exists y. }
  apply NoDup_cons in Hnd as [Hn Hnd]. destruct (proj1 (Hin session) ltac:(by left)) as [h Hh].
  destruct (proj1 (bo_session _ Hs session h) Hh) as (x & Hx & _).
  destruct (release_session_ok session h x s Hs Hh Hx) as (s1 & Hr & Hs1 & [_ Ho] & Hath & Hac & Hse).
  destruct (Hy h x Hx) as [Hux _]. rewrite Hux in Hath.
  destruct (IH s1 Hs1) as (s2 & Hf & Hat & Hact); [|done| |].
  - intros g y Hg. destruct (decide (g = h)) as [->|]; [congruence|]. rewrite Ho in Hg by done. by apply (Hy g).
  - intros session'. rewrite Hse. destruct (decide (session' = session)) as [->|Hne].
    + rewrite lookup_delete_eq. split; [done|by intros []].
    + rewrite lookup_delete_ne by done. rewrite <- Hin, elem_of_cons. naive_solver.
  - exists s2. cbn [fold_m]. rewrite Hr. split_and!; [done..|]. intros Ha. apply Hact. rewrite Hac, Ha. by case_decide.
Qed.

(** Closing all ends all: once the sessions that were asked to disconnect are gone, in whatever
    order, there are no instances left. *)
Theorem close_all_ends sync s w ls :
  reached s w → alive s = true →
  ∃ s', close_all sync s = Ret s' ∧
    (Permutation ls (map_to_list (sessions s')).*1 →
     ∃ s'', fold_m (λ s session, release_session session s) s' ls = Ret s'' ∧ instances_count s'' = 0%nat ∧
       get_active s'' = None).
Proof.
  intros Hr Ha. destruct (reached_ok _ _ Hr) as [[Hs _] _]. unfold close_all, this. rewrite Ha. simpl.
  destruct (reset_all_returns sync s Hs) as (s1 & -> & Hs1 & _ & Hy). simpl. eexists. split; [done|]. intros Hp.
  destruct (release_rest ls (with_active None s1)) as (s2 & Hf & Hat & Hac); [by destruct Hs1|done|..].
  - rewrite Hp. apply NoDup_fst_map_to_list.
  - intros session. rewrite Hp, list_elem_of_fmap. split.
    + intros ([k h] & -> & Hin%elem_of_map_to_list). by exists h.
    + intros [h Hh]. exists (session, h). split; [done|]. by apply elem_of_map_to_list.
  - exists s2. split; [done|]. split; [|by apply Hac]. unfold instances_count.
    destruct (records (instances s2)) as [|[h x] rs] eqn:E; [done|]. exfalso. specialize (Hat h). unfold at_ in Hat.
    rewrite E in Hat. simpl in Hat. by rewrite decide_True in Hat.
Qed.

(** ** Two sessions, one of them loaded *)

(** The second session ends as soon as it is asked to, the first later. *)
Definition demo_sync (session : nat) : bool := (session =? 8)%nat.
Definition demo_events : list event :=
  [e_connected 7; e_initialized 7 "a" (Some 1); e_loaded "b" (Some 2); e_connected 8; e_initialized 8 "c" (Some 3);
   e_activated 1; e_closed demo_sync 3; e_closed demo_sync 1]%nat.
Definition demo_manager : frontend_manager :=
  match fold_m (λ s e, happen e s) new_manager demo_events with Ret s => s | _ => new_manager end.

Lemma demo_manager_eq :
  map (λ p, (p.1, title p.2, ui p.2, frontend p.2)) (records (instances demo_manager)) =
    [(0, "a", None, Some 7); (1, "b", Some 2, None)]%nat ∧
  get_active demo_manager = None ∧ asked demo_manager = [8; 7]%nat.
Proof. vm_compute. done. Qed.

#[export] Instance possible_dec s e : Decision (possible s e).
Proof. destruct e; cbn; apply _. Defined.

Fixpoint run_possible (es : list event) (s : frontend_manager) : bool :=
  match es with
  | [] => true
  | e :: es => bool_decide (possible s e) && match happen e s with Ret s' => run_possible es s' | _ => false end
  end.

Lemma run_reached es : ∀ s w s' w', reached s w → run_possible es s = true →
  fold_m (λ p e, s ← happen e p.1; Ret (s, given_after e p.1 p.2)) (s, w) es = Ret (s', w') → reached s' w'.
Proof.
  induction es as [|e es IH]; intros s w s' w' Hs; [by intros _ [= <- <-]|]. cbn [run_possible fold_m fst snd].
  intros [Hp%bool_decide_eq_true Hgo]%andb_prop. destruct (happen e s) as [s1| |] eqn:E; cbn [mbind result_bind]; [|done..].
  apply IH; [|done]. by eapply r_step.
Qed.

Lemma demo_reached : reached demo_manager {[1 := Some 2]}%nat.
Proof. apply (run_reached demo_events new_manager ∅); [constructor|by vm_compute|by vm_compute]. Qed.

Lemma manager_safe_witness : ∃ s', happen (e_released 7) demo_manager = Ret s' ∧
    (alive s' = true → ∀ h, get_active s' = Some h → ∃ x, at_ h s' = Some x ∧ is_Some (ui x)) ∧
    ∀ h, (is_Some (at_ h s') ↔ (∃ session, sessions s' !! session = Some h) ∨
        is_Some (({[1 := Some 2]} : gmap nat (option nat)) !! h)) ∧
      ∀ x, at_ h s' = Some x → ui x = mjoin (({[1 := Some 2]} : gmap nat (option nat)) !! h).
Proof.
  refine (proj2 (manager_safe demo_manager {[1 := Some 2]} (e_released 7) demo_reached _) _)%nat.
  - by exists 0%nat.
  - by intros [].
Defined.

Lemma close_all_ends_witness : ∃ s', close_all demo_sync demo_manager = Ret s' ∧
    (Permutation [7]%nat (map_to_list (sessions s')).*1 →
     ∃ s'', fold_m (λ s session, release_session session s) s' [7]%nat = Ret s'' ∧ instances_count s'' = 0%nat ∧
       get_active s'' = None).
Proof. by apply (close_all_ends demo_sync demo_manager _ _ demo_reached). Defined.
