(* ===== verification/Allocators.v ===== *)
(** The allocators (common/allocator.h, common/pool_allocator.h, common/src/pool_allocator.cpp,
    common/src/memory.cpp, common/src/memory_unix.cpp).

    [allocator] is the contract of an allocator: the blocks it has handed out lie apart.
    [pool_allocator] keeps the released blocks of an underlying allocator, by their lengths, and is
    an allocator itself; [executable_memory_allocator] cuts its blocks from shared regions of
    pages, and keeps the contract too.  The system's own allocation functions (malloc, mmap) are
    parameters. *)

From S2P Require Import Prelude.

Local Open Scope Z_scope.

(** * The contract *)

(** An allocator with its state [A]: what it hands out is a handle [H] with the [address] of the
    block.  [allocate] keeps a state when it throws as well. *)
(** [common/allocator.h:27-31] allocator. *)
Class allocator (A H : Type) := {
  allocate : Z → A → result H * A;
  deallocate : H → A → result A;
  address : H → Z;
}.

(** What a client relies on: [owns a m], the blocks that are handed out are those of [m], by their
    handles, with the lengths that were asked for.  A block is handed out once, apart from all the
    others; to give one back never fails. *)
Class allocator_laws {A H} `{Countable H} (ops : allocator A H) (owns : A → gmap H Z → Prop)
    (limit : Z) : Prop := {
  al_allocate a m n : owns a m → 0 < n ≤ limit →
    match allocate n a with
    | (Ret h, a') => m !! h = None ∧ owns a' (<[h := n]> m)
    | (Throw _, a') => owns a' m
    | (UB, _) => False
    end;
  al_deallocate a m h n : owns a m → m !! h = Some n →
    ∃ a', deallocate h a = Ret a' ∧ owns a' (delete h m);
  al_apart a m h n k j : owns a m → m !! h = Some n → m !! k = Some j → h ≠ k →
    address h + n ≤ address k ∨ address k + j ≤ address h;
  al_range a m h n : owns a m → m !! h = Some n → 0 < address h ∧ address h + n ≤ 2 ^ 64;
}.

(** The number of entries of a map with a property. *)
Section count.
Context {K V : Type} `{Countable K} (P : K * V → Prop) `{∀ x, Decision (P x)}.

Definition count (m : gmap K V) : nat := size (filter P m).

Lemma count_empty : count ∅ = 0%nat.
Proof. unfold count. by rewrite map_filter_empty, map_size_empty. Qed.

Lemma count_insert m k v : m !! k = None →
  count (<[k := v]> m) = ((if decide (P (k, v)) then 1 else 0) + count m)%nat.
Proof.
  intros Hk. unfold count. destruct (decide (P (k, v))).
  - rewrite map_filter_insert_True by done. rewrite map_size_insert_None; [done|].
    apply map_lookup_filter_None. by left.
  - rewrite map_filter_insert_not' by (done || naive_solver congruence). done.
Qed.

Lemma count_delete m k v : m !! k = Some v →
  count m = ((if decide (P (k, v)) then 1 else 0) + count (delete k m))%nat.
Proof.
  intros Hk. rewrite <- (insert_delete_id m k v Hk) at 1.
  apply count_insert, lookup_delete_eq.
Qed.
End count.

(** * [pool_allocator] *)

(** A bin of free blocks: a vector, [back] last, and the number of elements it has room for. *)
(** [common/pool_allocator.h:50-50] free_bin_t. *)
Record bin := mk_bin {
  capacity : Z;
  blocks : list Z;
}.

Section pool.
Context {U : Type} {underlying : allocator U Z}.

(** [std::vector::reserve]: the capacity a vector of some capacity has after it made room for so
    many elements, or the lack of memory. *)
Context (reserve : Z → Z → result Z).

(** The words of [entry::size] are in [sizes], by the addresses of the entries. *)
(** [common/pool_allocator.h:31-59] pool_allocator. *)
Record pool := mk_pool {
  free : gmap Z bin;
  sizes : gmap Z Z;
  source : U;
}.

(** [common/pool_allocator.h:34-40] overhead. *)
Definition pool_overhead : Z := 8.

(** [common/src/pool_allocator.cpp:27-29] pool_allocator::pool_allocator. *)
Definition new_pool (u : U) : pool := mk_pool ∅ ∅ u.

(** [common/src/pool_allocator.cpp:65-76] pool_allocator::allocate_slow. *)
Definition allocate_slow (found : option bin) (n : Z) (s : pool) : result Z * pool :=
  let b := default (mk_bin 0 []) found in
  let s := match found with
    | Some _ => s
    | None => mk_pool (<[n := b]> (free s)) (sizes s) (source s)
    end in
  match reserve (capacity b) (capacity b + 1) with
  | Ret c =>
    let s := mk_pool (<[n := mk_bin c (blocks b)]> (free s)) (sizes s) (source s) in
    let (r, u) := allocate (u64 (pool_overhead + n)) (source s) in
    match r with
    | Ret e => (Ret (u64 (e + pool_overhead)), mk_pool (free s) (<[e := n]> (sizes s)) u)
    | Throw x => (Throw x, mk_pool (free s) (sizes s) u)
    | UB => (UB, s)
    end
  | Throw x => (Throw x, s)
  | UB => (UB, s)
  end.

(** [common/src/pool_allocator.cpp:43-55] pool_allocator::allocate. *)
Definition pool_allocate (n : Z) (s : pool) : result Z * pool :=
  match free s !! n with
  | Some b =>
    match last (blocks b) with
    | Some e =>
      let s := mk_pool (<[n := mk_bin (capacity b) (removelast (blocks b))]> (free s))
        (sizes s) (source s) in
      (Ret (u64 (e + pool_overhead)), s)
    | None => allocate_slow (Some b) n s
    end
  | None => allocate_slow None n s
  end.

(** [push_back] makes room when there is none, which fails when there is no memory: an exception
    that would leave a [throw()] function. *)
(** [common/src/pool_allocator.cpp:57-63] pool_allocator::deallocate. *)
Definition pool_deallocate (p : Z) (s : pool) : result pool :=
  let e := u64 (p - pool_overhead) in
  n ← match sizes s !! e with Some n => Ret n | None => UB end;
  b ← match free s !! n with Some b => Ret b | None => UB end;
  c ← (if len (blocks b) <? capacity b then Ret (capacity b)
       else reserve (capacity b) (len (blocks b) + 1));
  Ret (mk_pool (<[n := mk_bin c (blocks b ++ [e])]> (free s)) (sizes s) (source s)).

(** The destructor empties the bins, each from its back. *)
(** [common/src/pool_allocator.cpp:31-41] pool_allocator::~pool_allocator. *)
Definition pool_destroy (s : pool) : result U :=
  fold_m (λ u nb, fold_m (λ u e, deallocate e u) u (reverse (blocks nb.2)))
    (source s) (map_to_list (free s)).

#[export] Instance pool_allocator : allocator pool Z := {|
  allocate := pool_allocate;
  deallocate := pool_deallocate;
  address p := p;
|}.

(** ** The pool keeps the contract *)

Context (owns : U → gmap Z Z → Prop) (limit : Z).
Context (laws : allocator_laws underlying owns limit).
Context (address_id : ∀ e : Z, address (allocator := underlying) e = e).
Context (reserve_room : ∀ c n c', reserve c n = Ret c' → n ≤ c').
Context (reserve_defined : ∀ c n, reserve c n ≠ UB).

(** [mu] are the blocks the pool has of the underlying allocator: those it has handed out (of [m]),
    with their entries before them, and those of its bins.  There is room in a bin for each block
    of its length. *)
Record pool_wf (s : pool) (m mu : gmap Z Z) : Prop := {
  pw_source : owns (source s) mu;
  pw_positive p n : m !! p = Some n → 0 < n;
  pw_live p n : m !! p = Some n → mu !! (p - pool_overhead) = Some (n + pool_overhead);
  pw_binned n b e : free s !! n = Some b → e ∈ blocks b → mu !! e = Some (n + pool_overhead);
  pw_all e k : mu !! e = Some k → is_Some (m !! (e + pool_overhead)) ∨
    ∃ n b, free s !! n = Some b ∧ e ∈ blocks b;
  pw_free n b e : free s !! n = Some b → e ∈ blocks b → m !! (e + pool_overhead) = None;
  pw_nodup n b : free s !! n = Some b → NoDup (blocks b);
  pw_sizes e k : mu !! e = Some k → sizes s !! e = Some (k - pool_overhead);
  pw_bin p n : m !! p = Some n → is_Some (free s !! n);
  pw_room n b : free s !! n = Some b →
    len (blocks b) + Z.of_nat (count (λ pn, pn.2 = n) m) ≤ capacity b;
}.

Definition pool_owns (s : pool) (m : gmap Z Z) : Prop := ∃ mu, pool_wf s m mu.

Lemma pool_bins_apart s m mu n n' b b' e : pool_wf s m mu →
  free s !! n = Some b → free s !! n' = Some b' → e ∈ blocks b → e ∈ blocks b' → n = n'.
Proof.
  intros Hwf Hn Hn' He He'.
  pose proof (pw_binned _ _ _ Hwf _ _ _ Hn He). pose proof (pw_binned _ _ _ Hwf _ _ _ Hn' He').
  simplify_eq. lia.
Qed.

Lemma count_no_bin s m mu n : pool_wf s m mu → free s !! n = None →
  count (λ pn, pn.2 = n) m = 0%nat.
Proof.
  intros Hwf Hn. apply map_size_empty_iff, map_empty_filter. intros p k Hp <-.
  destruct (pw_bin _ _ _ Hwf _ _ Hp) as [b Hb]. simpl in *. congruence.
Qed.

(** More room in a bin, or a new empty one, changes nothing. *)
Lemma pool_wf_room s m mu n c : pool_wf s m mu →
  (match free s !! n with Some b => capacity b | None => 0 end) ≤ c →
  pool_wf (mk_pool (<[n := mk_bin c (blocks (default (mk_bin 0 []) (free s !! n)))]> (free s))
    (sizes s) (source s)) m mu.
Proof.
  intros Hwf Hc.
  assert (∀ n' b e, <[n := mk_bin c (blocks (default (mk_bin 0 []) (free s !! n)))]> (free s) !! n'
      = Some b → e ∈ blocks b → ∃ b', free s !! n' = Some b' ∧ e ∈ blocks b') as Hold.
  { intros n' b e [[<- <-]|[? ?]]%lookup_insert_Some He; [|eauto].
    destruct (free s !! n) as [b'|]; [by exists b'|by apply elem_of_nil in He]. }
  split; simpl; try apply Hwf.
  - intros n' b e Hb He. destruct (Hold _ _ _ Hb He) as (b' & ? & ?). by eapply Hwf.
  - intros e k [?|(n' & b & Hb & He)]%(pw_all _ _ _ Hwf); [by left|right].
    destruct (decide (n' = n)) as [->|Hne]; [|exists n', b; by rewrite lookup_insert_ne].
    exists n. rewrite lookup_insert_eq, Hb. eauto.
  - intros n' b e Hb He. destruct (Hold _ _ _ Hb He) as (b' & ? & ?). by eapply Hwf.
  - intros n' b [[<- <-]|[? ?]]%lookup_insert_Some; [|by eapply Hwf]. simpl.
    destruct (free s !! n) eqn:Hb; [by eapply Hwf|constructor].
  - intros p k (b & Hb)%(pw_bin _ _ _ Hwf).
    destruct (decide (k = n)) as [->|Hne]; [rewrite lookup_insert_eq|rewrite lookup_insert_ne by done];
      eauto.
  - intros n' b [[<- <-]|[? ?]]%lookup_insert_Some; [|by eapply Hwf]. simpl.
    destruct (free s !! n) as [b|] eqn:Hb; simpl; [pose proof (pw_room _ _ _ Hwf _ _ Hb); lia|].
    rewrite (count_no_bin _ _ _ _ Hwf Hb). simpl. lia.
Qed.

(** A block of the bin is handed out. *)
Lemma pool_wf_pop s m mu n b e : pool_wf s m mu → 0 < n →
  free s !! n = Some b → last (blocks b) = Some e →
  m !! (e + pool_overhead) = None ∧
  pool_wf (mk_pool (<[n := mk_bin (capacity b) (removelast (blocks b))]> (free s)) (sizes s)
    (source s)) (<[e + pool_overhead := n]> m) mu.
Proof.
  intros Hwf Hpos Hb He. apply last_Some in He as [l Hl].
  assert (e ∈ blocks b) as Hin by (rewrite Hl; apply elem_of_app; right; by left).
  pose proof (pw_free _ _ _ Hwf _ _ _ Hb Hin) as Hm.
  pose proof (pw_nodup _ _ _ Hwf _ _ Hb) as Hnd. rewrite Hl in Hnd.
  apply NoDup_app in Hnd as (Hnd & Hne & _).
  split; [done|]. rewrite Hl, removelast_last.
  assert (∀ n' b' e', <[n := mk_bin (capacity b) l]> (free s) !! n' = Some b' → e' ∈ blocks b' →
    e' ≠ e ∧ ∃ b'', free s !! n' = Some b'' ∧ e' ∈ blocks b'') as Hold.
  { intros n' b' e' [[<- <-]|[? ?]]%lookup_insert_Some He'; simpl in *.
    - split; [intros ->; by apply (Hne e He'); left|].
      exists b. split; [done|]. rewrite Hl. apply elem_of_app. by left.
    - split; [intros ->|by exists b'].
      by pose proof (pool_bins_apart _ _ _ _ _ _ _ _ Hwf Hb H0 Hin He'). }
  split; simpl; try apply Hwf.
  - intros p k [[<- <-]|[? ?]]%lookup_insert_Some; [done|by eapply Hwf].
  - intros p k [[<- <-]|[? ?]]%lookup_insert_Some; [|by apply Hwf].
    replace (e + pool_overhead - pool_overhead) with e by lia. by eapply Hwf.
  - intros n' b' e' Hb' He'. destruct (Hold _ _ _ Hb' He') as (_ & b'' & ? & ?). by eapply Hwf.
  - intros e' k Hk. destruct (decide (e' = e)) as [->|Hne'].
    { left. rewrite lookup_insert_eq. eauto. }
    apply (pw_all _ _ _ Hwf) in Hk as [?|(n' & b' & Hb' & He')].
    + left. rewrite lookup_insert_ne by lia. done.
    + right. destruct (decide (n' = n)) as [->|]; [|exists n', b'; by rewrite lookup_insert_ne].
      exists n. rewrite lookup_insert_eq. simplify_eq. eexists. split; [done|]. simpl. rewrite Hl in He'.
      by apply elem_of_app in He' as [? | ->%list_elem_of_singleton].
  - intros n' b' e' Hb' He'. destruct (Hold _ _ _ Hb' He') as (? & b'' & ? & ?).
    rewrite lookup_insert_ne by lia. by eapply Hwf.
  - intros n' b' [[<- <-]|[? ?]]%lookup_insert_Some; [done|by eapply Hwf].
  - intros p k Hk. destruct (decide (k = n)) as [->|]; [rewrite lookup_insert_eq; eauto|].
    rewrite lookup_insert_ne by done. apply lookup_insert_Some in Hk as [[_ <-]|[? ?]]; [done|].
    by eapply (pw_bin _ _ _ Hwf).
  - intros n' b' [[<- <-]|[? ?]]%lookup_insert_Some; rewrite (count_insert _ _ _ _ Hm).
    + pose proof (pw_room _ _ _ Hwf _ _ Hb) as Hroom. rewrite Hl, length_app in Hroom. simpl in *.
      rewrite decide_True by done. lia.
    + rewrite decide_False by done. simpl. by eapply Hwf.
Qed.

(** A new block of the underlying allocator, for which a bin has room, is handed out. *)
Lemma pool_wf_take s m mu mu' u n b e : pool_wf s m mu → 0 < n →
  free s !! n = Some b → len (blocks b) + Z.of_nat (count (λ pn, pn.2 = n) m) + 1 ≤ capacity b →
  mu !! e = None → mu' = <[e := n + pool_overhead]> mu → owns u mu' →
  m !! (e + pool_overhead) = None ∧
  pool_wf (mk_pool (free s) (<[e := n]> (sizes s)) u) (<[e + pool_overhead := n]> m) mu'.
Proof.
  intros Hwf Hpos Hb Hroom He -> Hu.
  assert (m !! (e + pool_overhead) = None) as Hm.
  { destruct (m !! (e + pool_overhead)) as [k|] eqn:Hk; [|done].
    apply (pw_live _ _ _ Hwf) in Hk. replace (e + pool_overhead - pool_overhead) with e in Hk by lia. congruence. }
  assert (∀ n' b' e', free s !! n' = Some b' → e' ∈ blocks b' → e' ≠ e) as Hfresh.
  { intros n' b' e' Hb' He' ->. by rewrite (pw_binned _ _ _ Hwf _ _ _ Hb' He') in He. }
  split; [done|]. split; simpl; try apply Hwf; try done.
  - intros p k [[<- <-]|[? ?]]%lookup_insert_Some; [done|by eapply Hwf].
  - intros p k [[<- <-]|[? ?]]%lookup_insert_Some.
    + replace (e + pool_overhead - pool_overhead) with e by lia. by rewrite lookup_insert_eq.
    + rewrite lookup_insert_ne by lia. by apply Hwf.
  - intros n' b' e' Hb' He'. pose proof (Hfresh _ _ _ Hb' He').
    rewrite lookup_insert_ne by congruence. by eapply Hwf.
  - intros e' k [[<- <-]|[? Hk]]%lookup_insert_Some; [left; rewrite lookup_insert_eq; eauto|].
    apply (pw_all _ _ _ Hwf) in Hk as [?|?]; [left|by right]. by rewrite lookup_insert_ne by lia.
  - intros n' b' e' Hb' He'. pose proof (Hfresh _ _ _ Hb' He').
    rewrite lookup_insert_ne by lia. by eapply Hwf.
  - intros e' k [[<- <-]|[? Hk]]%lookup_insert_Some.
    + rewrite lookup_insert_eq. f_equal. lia.
    + rewrite lookup_insert_ne by done. by apply Hwf.
  - intros p k [[<- <-]|[? ?]]%lookup_insert_Some; [done|]. by eapply (pw_bin _ _ _ Hwf).
  - intros n' b' Hb'. rewrite (count_insert _ _ _ _ Hm). simpl.
    case_decide; [subst; simplify_eq; lia|]. by eapply Hwf.
Qed.

(** A block comes back to its bin. *)
Lemma pool_wf_push s m mu p n b : pool_wf s m mu → m !! p = Some n → free s !! n = Some b →
  len (blocks b) < capacity b ∧
  pool_wf (mk_pool (<[n := mk_bin (capacity b) (blocks b ++ [p - pool_overhead])]> (free s)) (sizes s)
    (source s)) (delete p m) mu.
Proof.
  intros Hwf Hp Hb. pose proof (pw_room _ _ _ Hwf _ _ Hb) as Hroom.
  rewrite (count_delete _ _ _ _ Hp), decide_True in Hroom by done.
  assert (p - pool_overhead + pool_overhead = p) as Hpo by lia.
  assert (∀ n' b' e, <[n := mk_bin (capacity b) (blocks b ++ [p - pool_overhead])]> (free s) !! n' = Some b' →
    e ∈ blocks b' → n' = n ∧ e = p - pool_overhead ∨
      e ≠ p - pool_overhead ∧ ∃ b'', free s !! n' = Some b'' ∧ e ∈ blocks b'') as Hold.
  { assert (∀ n' b' e, free s !! n' = Some b' → e ∈ blocks b' → e ≠ p - pool_overhead) as Hne.
    { intros n' b' e Hb' He ->. pose proof (pw_free _ _ _ Hwf _ _ _ Hb' He). congruence. }
    intros n' b' e [[<- <-]|[? ?]]%lookup_insert_Some He; [|by eauto 6].
    apply elem_of_app in He as [?|He%list_elem_of_singleton]; [by eauto 6|by left]. }
  split; [lia|]. split; simpl; try apply Hwf.
  - intros q k [? ?]%lookup_delete_Some. by eapply Hwf.
  - intros q k [? ?]%lookup_delete_Some. by apply Hwf.
  - intros n' b' e Hb' He. destruct (Hold _ _ _ Hb' He) as [[-> ->]|(_ & b'' & ? & ?)];
      by eapply Hwf.
  - intros e k [Hm|(n' & b' & Hb' & He)]%(pw_all _ _ _ Hwf).
    + destruct (decide (e = p - pool_overhead)) as [->|]; [|left; by rewrite lookup_delete_ne by lia].
      right. exists n. rewrite lookup_insert_eq. eexists. split; [done|]. apply elem_of_app. right. by left.
    + right. exists n'. destruct (decide (n' = n)) as [->|]; [|rewrite lookup_insert_ne by done; eauto].
      rewrite lookup_insert_eq. simplify_eq. eexists. split; [done|]. apply elem_of_app. by left.
  - intros n' b' e Hb' He. destruct (Hold _ _ _ Hb' He) as [[-> ->]|(? & b'' & ? & ?)].
    + rewrite Hpo. apply lookup_delete_eq.
    + rewrite lookup_delete_ne by lia. by eapply Hwf.
  - intros n' b' [[<- <-]|[? ?]]%lookup_insert_Some; [|by eapply Hwf]. simpl. apply NoDup_app.
    split; [by eapply Hwf|]. split; [|apply NoDup_singleton].
    intros e He ->%list_elem_of_singleton. pose proof (pw_free _ _ _ Hwf _ _ _ Hb He). congruence.
  - intros q k [? Hq]%lookup_delete_Some. apply (pw_bin _ _ _ Hwf) in Hq.
    destruct (decide (k = n)) as [->|]; [by rewrite lookup_insert_eq|by rewrite lookup_insert_ne].
  - intros n' b' [[<- <-]|[? Hb']]%lookup_insert_Some; simpl; [rewrite length_app; simpl; lia|].
    pose proof (pw_room _ _ _ Hwf _ _ Hb') as Hr.
    rewrite (count_delete _ _ _ _ Hp), decide_False in Hr by done. lia.
Qed.

Context (limit_fits : limit < 2 ^ 64).

(** The second half of [allocate_slow]: the bin has room for one more block. *)
Lemma pool_take_ok s m mu n c : pool_wf s m mu → 0 < n ≤ limit - pool_overhead →
  capacity (default (mk_bin 0 []) (free s !! n)) + 1 ≤ c →
  let s' := mk_pool (<[n := mk_bin c (blocks (default (mk_bin 0 []) (free s !! n)))]> (free s))
    (sizes s) (source s) in
  match allocate (u64 (pool_overhead + n)) (source s) with
  | (Ret e, u) => let p := u64 (e + pool_overhead) in
    m !! p = None ∧ pool_owns (mk_pool (free s') (<[e := n]> (sizes s')) u) (<[p := n]> m)
  | (Throw _, u) => pool_owns (mk_pool (free s') (sizes s') u) m
  | (UB, _) => False
  end.
Proof using laws address_id limit_fits.
  clear reserve_room reserve_defined.
  intros Hwf Hn Hc s'. unfold pool_overhead in *.
  rewrite (uw_small 64 ltac:(lia)) by (unfold in_u; lia).
  assert (pool_wf s' m mu) as Hwf' by (apply pool_wf_room; [done|destruct (free s !! n); simpl in *; lia]).
  pose proof (al_allocate _ _ (8 + n) (pw_source _ _ _ Hwf)) as Hal.
  specialize (Hal ltac:(lia)).
  destruct (allocate (8 + n) (source s)) as [[e|x|] u]; [destruct Hal as [He Hu]| |done].
  - pose proof (al_range _ _ _ _ Hu (lookup_insert_eq _ _ _)) as Hr. rewrite address_id in Hr.
    cbv zeta. rewrite (uw_small 64 ltac:(lia)) by (unfold in_u; lia).
    edestruct (pool_wf_take s' m mu (<[e := n + 8]> mu) u n
      (mk_bin c (blocks (default (mk_bin 0 []) (free s !! n)))) e Hwf' ltac:(lia)) as [Hm Hw];
      [apply lookup_insert_eq| |done..| |split; [exact Hm|by exists (<[e := n + 8]> mu)]].
    + simpl. destruct (free s !! n) as [b|] eqn:Hb; simpl in *.
      * pose proof (pw_room _ _ _ Hwf _ _ Hb). lia.
      * rewrite (count_no_bin _ _ _ _ Hwf Hb). lia.
    + by rewrite (Z.add_comm n).
  - exists mu. destruct Hwf'. by split.
Qed.

Lemma allocate_slow_ok s m mu n : pool_wf s m mu → 0 < n ≤ limit - pool_overhead →
  match allocate_slow (free s !! n) n s with
  | (Ret p, s') => m !! p = None ∧ pool_owns s' (<[p := n]> m)
  | (Throw _, s') => pool_owns s' m
  | (UB, _) => False
  end.
Proof using laws address_id limit_fits reserve_room reserve_defined.
  intros Hwf Hn. unfold allocate_slow. set (b := default _ _).
  pose proof (pool_take_ok s m mu n) as Htake. fold b in Htake.
  destruct (reserve (capacity b) (capacity b + 1)) as [c|x|] eqn:Hr; [| |by apply reserve_defined in Hr].
  - apply reserve_room in Hr. specialize (Htake c Hwf Hn Hr). clear reserve_room reserve_defined.
    destruct (free s !! n) as [b'|] eqn:Hb; simpl in *; rewrite ?insert_insert_eq;
      destruct (allocate (u64 (pool_overhead + n)) (source s)) as [[e|x|] u]; done.
  - clear Htake reserve_room reserve_defined. destruct (free s !! n) as [b'|] eqn:Hb; [by exists mu|].
    exists mu. pose proof (pool_wf_room s m mu n 0 Hwf) as Hroom. rewrite Hb in Hroom. by apply Hroom.
Qed.

Lemma pool_allocate_ok s m n : pool_owns s m → 0 < n ≤ limit - pool_overhead →
  match pool_allocate n s with
  | (Ret p, s') => m !! p = None ∧ pool_owns s' (<[p := n]> m)
  | (Throw _, s') => pool_owns s' m
  | (UB, _) => False
  end.
Proof using laws address_id limit_fits reserve_room reserve_defined.
  intros [mu Hwf] Hn. pose proof (allocate_slow_ok s m mu n Hwf Hn) as Hslow.
  clear reserve_room reserve_defined.
  unfold pool_allocate. destruct (free s !! n) as [b|] eqn:Hb; [|done].
  destruct (last (blocks b)) as [e|] eqn:He; [|done].
  edestruct (pool_wf_pop s m mu n b e Hwf ltac:(lia)) as [Hm Hw]; [done..|].
  assert (e ∈ blocks b) as Hin.
  { apply last_Some in He as [l ->]. apply elem_of_app. right. by left. }
  pose proof (al_range _ _ _ _ (pw_source _ _ _ Hwf) (pw_binned _ _ _ Hwf _ _ _ Hb Hin)) as Hr.
  rewrite address_id in Hr. unfold pool_overhead in *.
  rewrite (uw_small 64 ltac:(lia)) by (unfold in_u; lia). split; [done|by exists mu].
Qed.

Lemma pool_deallocate_ok s m p n : pool_owns s m → m !! p = Some n →
  ∃ s', pool_deallocate p s = Ret s' ∧ pool_owns s' (delete p m).
Proof using laws address_id.
  clear limit_fits reserve_room reserve_defined.
  intros [mu Hwf] Hp. pose proof (pw_live _ _ _ Hwf _ _ Hp) as Hmu.
  destruct (pw_bin _ _ _ Hwf _ _ Hp) as [b Hb].
  pose proof (al_range _ _ _ _ (pw_source _ _ _ Hwf) Hmu) as Hr. rewrite address_id in Hr.
  edestruct (pool_wf_push s m mu p n b) as [Hroom Hw]; [done..|].
  apply (pw_sizes _ _ _ Hwf) in Hmu. replace (n + pool_overhead - pool_overhead) with n in Hmu by lia.
  pose proof (pw_positive _ _ _ Hwf _ _ Hp).
  unfold pool_deallocate. rewrite (uw_small 64 ltac:(lia)) by (unfold in_u, pool_overhead in *; lia).
  rewrite Hmu. simpl. rewrite Hb. simpl. rewrite (proj2 (Z.ltb_lt _ _) Hroom). simpl.
  eexists. split; [done|by exists mu].
Qed.

(** The pool is an allocator itself, of blocks smaller by an entry: what its clients are promised
    is what it relies on.  To give a block back never needs memory, for [allocate_slow] made room. *)
Lemma pool_allocator_laws : allocator_laws pool_allocator pool_owns (limit - pool_overhead).
Proof using laws address_id limit_fits reserve_room reserve_defined.
  split; simpl.
  - intros s m n. apply pool_allocate_ok.
  - intros s m p n. apply pool_deallocate_ok.
  - clear limit_fits reserve_room reserve_defined. intros s m p n q k [mu Hwf] Hp Hq Hne.
    apply (pw_live _ _ _ Hwf) in Hp, Hq.
    pose proof (al_apart _ _ _ _ _ _ (pw_source _ _ _ Hwf) Hp Hq ltac:(lia)) as Hap.
    rewrite !address_id in Hap. unfold pool_overhead in *. lia.
  - clear limit_fits reserve_room reserve_defined. intros s m p n [mu Hwf] Hp.
    apply (pw_live _ _ _ Hwf) in Hp.
    pose proof (al_range _ _ _ _ (pw_source _ _ _ Hwf) Hp) as Hr.
    rewrite address_id in Hr. unfold pool_overhead in *. lia.
Qed.

Lemma deallocate_list u mu l : owns u mu → NoDup l → (∀ e, e ∈ l → is_Some (mu !! e)) →
  ∃ u' mu', fold_m (λ u e, deallocate e u) u l = Ret u' ∧ owns u' mu' ∧
    ∀ e, mu' !! e = if decide (e ∈ l) then None else mu !! e.
Proof using laws.
  clear limit_fits address_id reserve_room reserve_defined reserve.
  revert u mu. induction l as [|e l IH]; intros u mu Hu Hnd Hl; [exists u, mu|].
  { split; [done|]. split; [done|]. intros e. rewrite decide_False; [done|by apply not_elem_of_nil]. }
  apply NoDup_cons in Hnd as [He Hnd]. destruct (Hl e ltac:(by left)) as [n Hn].
  destruct (al_deallocate _ _ _ _ Hu Hn) as (u1 & Hde & Hu1). cbn [fold_m]. rewrite Hde. simpl.
  destruct (IH _ _ Hu1 Hnd) as (u2 & mu2 & -> & Hu2 & Hmu2).
  { intros e' He'. rewrite lookup_delete_ne by congruence. apply Hl. by right. }
  exists u2, mu2. split; [done|]. split; [done|]. intros e'. rewrite Hmu2.
  destruct (decide (e' = e)) as [->|Hne].
  - rewrite lookup_delete_eq, (decide_True _ _ (list_elem_of_here e l)). by case_decide.
  - rewrite lookup_delete_ne by done. pose proof (elem_of_cons l e' e). repeat case_decide; naive_solver.
Qed.

(** The destructor gives back all it has but the blocks its clients still hold: nothing of the
    underlying allocator is lost when they hold none. *)
Lemma pool_returns_all s m : pool_owns s m →
  ∃ u mu, pool_destroy s = Ret u ∧ owns u mu ∧
    ∀ e k, mu !! e = Some k → m !! (e + pool_overhead) = Some (k - pool_overhead).
Proof using laws.
  clear limit_fits address_id reserve_room reserve_defined.
  intros [mu Hwf]. unfold pool_destroy. rewrite fold_m_nested. set (l := _ ≫= _).
  assert (∀ e, e ∈ l ↔ ∃ n b, free s !! n = Some b ∧ e ∈ blocks b) as Hl.
  { intros e. unfold l. rewrite list_elem_of_bind. split.
    - intros ([n b] & He & Hb%elem_of_map_to_list). rewrite elem_of_reverse in He. eauto.
    - intros (n & b & Hb & He). exists (n, b). by rewrite elem_of_reverse, elem_of_map_to_list. }
  destruct (deallocate_list (source s) mu l) as (u & mu' & -> & Hu & Hmu').
  - apply Hwf.
  - apply NoDup_bind; [| |apply NoDup_map_to_list].
    + intros [n b] [n' b'] e Hb%elem_of_map_to_list Hb'%elem_of_map_to_list.
      rewrite !elem_of_reverse. simpl. intros He He'.
      by pose proof (pool_bins_apart _ _ _ _ _ _ _ _ Hwf Hb Hb' He He'); simplify_eq.
    + intros [n b] Hb%elem_of_map_to_list. rewrite reverse_Permutation. by eapply Hwf.
  - intros e (n & b & Hb & He)%Hl. exists (n + pool_overhead). by eapply Hwf.
  - exists u, mu'. split; [done|]. split; [done|]. intros e k. rewrite Hmu'.
    case_decide as Hin; [done|]. rewrite Hl in Hin. intros Hk.
    destruct (pw_all _ _ _ Hwf _ _ Hk) as [[n Hn]|?]; [|done].
    pose proof (pw_live _ _ _ Hwf _ _ Hn) as Hn'.
    replace (e + pool_overhead - pool_overhead) with e in Hn' by lia. rewrite Hn. f_equal.
    simplify_eq. lia.
Qed.
End pool.

(** * The system's memory *)

(** [malloc]/[free] and [mmap]/[munmap]: a request for memory returns its address, or a value that
    says that there is none; what is given out lies apart, in the address space. *)
Record system_laws {O} (get : Z → O → Z * O) (put : Z → Z → O → O) (failed : Z)
    (has : O → gmap Z Z → Prop) : Prop := {
  sl_get o m n : has o m → 0 < n →
    (get n o).1 = failed ∧ has (get n o).2 m ∨
    (get n o).1 ≠ failed ∧ m !! (get n o).1 = None ∧ has (get n o).2 (<[(get n o).1 := n]> m);
  sl_put o m p n : has o m → m !! p = Some n → has (put p n o) (delete p m);
  sl_apart o m p n q k : has o m → m !! p = Some n → m !! q = Some k → p ≠ q →
    p + n ≤ q ∨ q + k ≤ p;
  sl_range o m p n : has o m → m !! p = Some n → 0 < p ∧ p + n < 2 ^ 64;
}.

Section default.
Context {O : Type} (malloc : Z → O → Z * O) (free : Z → Z → O → O) (has : O → gmap Z Z → Prop).
Context (laws : system_laws malloc free 0 has).

(** [free] takes no length; which block it is, and of what length, is the system's own state. *)
Context (length_of : Z → O → Z).
Context (length_known : ∀ o m p n, has o m → m !! p = Some n → length_of p o = n).

(** [common/src/allocator.cpp:30-35] default_allocator::allocate. *)
Definition default_allocate (n : Z) (o : O) : result Z * O :=
  let (p, o) := malloc n o in
  if p =? 0 then (Throw bad_alloc, o) else (Ret p, o).

(** [common/src/allocator.cpp:37-38] default_allocator::deallocate. *)
Definition default_deallocate (p : Z) (o : O) : result O := Ret (free p (length_of p o) o).

#[export] Instance default_allocator : allocator O Z := {|
  allocate := default_allocate;
  deallocate := default_deallocate;
  address p := p;
|}.

Lemma default_allocator_laws : allocator_laws default_allocator has (2 ^ 64 - 1).
Proof using laws length_known.
  split; simpl.
  - intros o m n Ho Hn. unfold default_allocate.
    pose proof (sl_get _ _ _ _ laws o m n Ho ltac:(lia)) as Hget.
    destruct (malloc n o) as [p o']; simpl in Hget.
    destruct (Z.eqb_spec p 0) as [->|Hp]; destruct Hget as [[? ?]|(? & ? & ?)]; done.
  - intros o m p n Ho Hp. eexists. split; [done|]. rewrite (length_known _ _ _ _ Ho Hp).
    by eapply sl_put.
  - intros o m p n q k. apply (sl_apart _ _ _ _ laws).
  - intros o m p n Ho Hp. pose proof (sl_range _ _ _ _ laws _ _ _ _ Ho Hp). lia.
Qed.
End default.

(** * [executable_memory_allocator] *)

Section executable.
Context {O : Type} (mmap : Z → O → Z * O) (munmap : Z → Z → O → O).

(** [common/memory.h:29-29] executable_memory_allocator::block_size. *)
Definition block_size : Z := 65536.

(** The blocks that live, by the starts of their regions, with the numbers of [shared_ptr]s that
    hold them; the current block with what is taken of it.  Only the current block is asked for
    [_occupied]. *)
(** [common/memory.h:26-54] executable_memory_allocator. *)
Record executable := mk_executable {
  pages : O;
  refs : gmap Z nat;
  current : Z;
  occupied : Z;
}.

(** The last [shared_ptr] that lets a block go unmaps it. *)
(** [common/src/memory_unix.cpp:52-53] executable_memory_allocator::block::~block. *)
Definition drop_block (b : Z) (s : executable) : result executable :=
  match refs s !! b with
  | Some (S (S c)) => Ret (mk_executable (pages s) (<[b := S c]> (refs s)) (current s) (occupied s))
  | Some 1%nat =>
    Ret (mk_executable (munmap b block_size (pages s)) (delete b (refs s)) (current s) (occupied s))
  | _ => UB
  end.

(** [common/src/memory_unix.cpp:44-50] executable_memory_allocator::block::block. *)
Definition new_block (size : Z) (o : O) : result Z * O :=
  let (p, o) := mmap size o in
  if p =? 0 then (Throw bad_alloc, o) else (Ret p, o).

(** [common/src/memory.cpp:45-55] executable_memory_allocator::block::allocate. *)
Definition block_allocate (n : Z) (s : executable) : option (Z * executable) :=
  if n <=? u64 (block_size - occupied s)
  then Some (u64 (current s + occupied s),
    mk_executable (pages s) (refs s) (current s) (u64 (occupied s + n)))
  else None.

(** [_block.reset(new block(block_size))]. *)
(** [common/src/memory.cpp:69-70] executable_memory_allocator::allocate. *)
Definition next_block (s : executable) : result executable :=
  match new_block block_size (pages s) with
  | (Ret b, o) =>
    drop_block (current s) (mk_executable o (<[b := 1%nat]> (refs s)) (current s) (occupied s))
      ≫= λ s, Ret (mk_executable (pages s) (refs s) b 0)
  | (Throw x, o) => Throw x
  | (UB, o) => UB
  end.

(** The pointer that is returned holds its block. *)
(** [common/src/memory.cpp:72-74] executable_memory_allocator::allocate. *)
Definition hold (p : Z) (s : executable) : result (Z * Z) * executable :=
  match refs s !! current s with
  | Some c =>
    (Ret (p, current s), mk_executable (pages s) (<[current s := S c]> (refs s)) (current s) (occupied s))
  | None => (UB, s)
  end.

(** [common/src/memory.cpp:62-75] executable_memory_allocator::allocate. *)
Definition executable_allocate (n : Z) (s : executable) : result (Z * Z) * executable :=
  if block_size <? n then (Throw bad_alloc, s) else
  match block_allocate n s with
  | Some (p, s) => hold p s
  | None =>
    match next_block s with
    | Ret s =>
      match block_allocate n s with
      | Some (p, s) => hold p s
      | None => hold 0 s
      end
    | Throw x => (Throw x, mk_executable (new_block block_size (pages s)).2 (refs s) (current s) (occupied s))
    | UB => (UB, s)
    end
  end.

(** [common/src/memory.cpp:58-60] executable_memory_allocator::executable_memory_allocator. *)
Definition new_executable (o : O) : result executable * O :=
  match new_block block_size o with
  | (Ret b, o) => (Ret (mk_executable o {[b := 1%nat]} b 0), o)
  | (Throw x, o) => (Throw x, o)
  | (UB, o) => (UB, o)
  end.

(** The handle of a block is the pointer with the block its deleter holds. *)
#[export] Instance executable_memory_allocator : allocator executable (Z * Z) := {|
  allocate := executable_allocate;
  deallocate h s := drop_block h.2 s;
  address h := h.1;
|}.

(** ** The blocks lie apart *)

(** What the system returns when there is no memory: null on Windows, [MAP_FAILED] elsewhere. *)
Context (failed : Z) (has : O → gmap Z Z → Prop) (laws : system_laws mmap munmap failed has).

(** [owned b s] is the number of [shared_ptr]s the allocator has itself of a block. *)
Definition owned (b : Z) (s : executable) : nat := if decide (b = current s) then 1 else 0.

Record executable_wf (s : executable) (m : gmap (Z * Z) Z) (mm : gmap Z Z) : Prop := {
  ew_pages : has (pages s) mm;
  ew_blocks b : mm !! b = (λ _, block_size) <$> refs s !! b;
  ew_refs b c : refs s !! b = Some c → c = (owned b s + count (λ hn, hn.1.2 = b) m)%nat;
  ew_current : is_Some (refs s !! current s);
  ew_occupied : 0 ≤ occupied s ≤ block_size;
  ew_live h n : m !! h = Some n → 0 < n ∧ is_Some (refs s !! h.2) ∧
    h.2 ≤ h.1 ∧ h.1 + n ≤ h.2 + (if decide (h.2 = current s) then occupied s else block_size);
  ew_apart h n k j : m !! h = Some n → m !! k = Some j → h ≠ k → h.2 = k.2 →
    h.1 + n ≤ k.1 ∨ k.1 + j ≤ h.1;
}.

Definition executable_owns (s : executable) (m : gmap (Z * Z) Z) : Prop :=
  ∃ mm, executable_wf s m mm.

Lemma executable_region s m mm b c : executable_wf s m mm → refs s !! b = Some c →
  0 < b ∧ b + block_size < 2 ^ 64.
Proof using laws.
  intros Hwf Hb. eapply (sl_range _ _ _ _ laws); [apply Hwf|].
  by rewrite (ew_blocks _ _ _ Hwf), Hb.
Qed.

Lemma executable_inside s m mm h n : executable_wf s m mm → m !! h = Some n →
  h.2 ≤ h.1 ∧ h.1 + n ≤ h.2 + block_size.
Proof.
  intros Hwf Hh. pose proof (ew_occupied _ _ _ Hwf). destruct (ew_live _ _ _ Hwf _ _ Hh) as (_ & _ & ? & ?).
  case_decide; lia.
Qed.

(** A block that is left out of the count is not that of a handle that is left. *)
Lemma count_zero (m : gmap (Z * Z) Z) b h n :
  count (λ hn, hn.1.2 = b) m = 0%nat → m !! h = Some n → h.2 ≠ b.
Proof.
  intros Hc Hh. apply map_size_empty_iff, map_empty_filter in Hc. by apply (Hc _ _ Hh).
Qed.

(** [drop_block] when the holders are those that [executable_wf] counts, but for the one that lets
    the block go, of the allocator itself or of the client. *)
Lemma drop_block_ok (s : executable) (m : gmap (Z * Z) Z) (mm : gmap Z Z) (b : Z) (own : Z → nat) :
  has (pages s) mm → (∀ b, mm !! b = (λ _, block_size) <$> refs s !! b) →
  (∀ b' c, refs s !! b' = Some c →
    c = ((if decide (b' = b) then 1 else 0) + (own b' + count (λ hn, hn.1.2 = b') m))%nat) →
  is_Some (refs s !! b) →
  ∃ s' mm', drop_block b s = Ret s' ∧ has (pages s') mm' ∧
    (∀ b, mm' !! b = (λ _, block_size) <$> refs s' !! b) ∧
    (∀ b' c, refs s' !! b' = Some c → c = (own b' + count (λ hn, hn.1.2 = b') m)%nat) ∧
    current s' = current s ∧ occupied s' = occupied s ∧
    (∀ b', b' ≠ b ∨ (0 < own b' + count (λ hn, hn.1.2 = b') m)%nat → refs s' !! b' = None → refs s !! b' = None).
Proof using laws.
  intros Hhas Hmm Hrefs [c Hc]. pose proof (Hrefs _ _ Hc) as Hn.
  rewrite decide_True in Hn by done. unfold drop_block. rewrite Hc.
  destruct c as [|[|c]]; [lia| |].
  - eexists _, (delete b mm). split; [done|]. simpl. split.
    { eapply sl_put; [done..|]. by rewrite Hmm, Hc. }
    split_and!; [|..|done|done|].
    + intros b'. destruct (decide (b' = b)) as [->|]; [by rewrite !lookup_delete_eq|].
      by rewrite !lookup_delete_ne by done.
    + intros b' c' [? Hb']%lookup_delete_Some. rewrite (Hrefs _ _ Hb'), decide_False by done. done.
    + intros b' [?|?]; [by rewrite lookup_delete_ne|]. destruct (decide (b' = b)) as [->|]; [lia|].
      by rewrite lookup_delete_ne.
  - eexists _, mm. split; [done|]. simpl. split; [done|]. split_and!; [|..|done|done|].
    + intros b'. rewrite Hmm. destruct (decide (b' = b)) as [->|]; [by rewrite lookup_insert_eq, Hc|].
      by rewrite lookup_insert_ne by done.
    + intros b' c' [[<- <-]|[? Hb']]%lookup_insert_Some; [lia|].
      rewrite (Hrefs _ _ Hb'), decide_False by done. done.
    + intros b' _ [? ?]%lookup_insert_None. done.
Qed.

Lemma live_counted (m : gmap (Z * Z) Z) h n : m !! h = Some n →
  (0 < count (λ hn, hn.1.2 = h.2) m)%nat.
Proof. intros Hh. rewrite (count_delete _ _ _ _ Hh), decide_True by done. lia. Qed.

Lemma next_block_ok s m mm : executable_wf s m mm → (mmap block_size (pages s)).1 ≠ failed →
  ∃ s', next_block s = Ret s' ∧ executable_owns s' m ∧ occupied s' = 0.
Proof using laws.
  intros Hwf Hnf. unfold next_block, new_block.
  pose proof (sl_get _ _ _ _ laws (pages s) mm block_size (ew_pages _ _ _ Hwf) ltac:(done)) as Hget.
  destruct (mmap block_size (pages s)) as [b o]; simpl in *.
  destruct Hget as [[? _]|(_ & Hb & Ho)]; [done|].
  pose proof (sl_range _ _ _ _ laws _ _ _ _ Ho (lookup_insert_eq _ _ _)).
  rewrite (proj2 (Z.eqb_neq b 0)) by lia.
  pose proof (ew_blocks _ _ _ Hwf b) as Hrb. rewrite Hb in Hrb. symmetry in Hrb.
  apply fmap_None in Hrb. destruct (ew_current _ _ _ Hwf) as [c Hc].
  assert (b ≠ current s) as Hbc by congruence.
  assert (∀ h n, m !! h = Some n → h.2 ≠ b) as Hlive.
  { intros h n Hh Heq. destruct (ew_live _ _ _ Hwf _ _ Hh) as (_ & [? Hs] & _). congruence. }
  destruct (drop_block_ok (mk_executable o (<[b:=1%nat]> (refs s)) (current s) (occupied s)) m
    (<[b := block_size]> mm) (current s) (λ b', if decide (b' = b) then 1%nat else 0%nat))
    as (s' & mm' & -> & Hhas & Hmm & Hrefs & _ & _ & Hkeep); simpl in *.
  - done.
  - intros b'. destruct (decide (b' = b)) as [->|]; [by rewrite !lookup_insert_eq|].
    rewrite !lookup_insert_ne by done. apply Hwf.
  - intros b' c' [[<- <-]|[? Hb']]%lookup_insert_Some.
    + rewrite decide_False, decide_True by done. simpl. f_equal. symmetry.
      apply map_size_empty_iff, map_empty_filter. intros h n Hh. by apply (Hlive _ n).
    + rewrite (decide_False (P := b' = b)) by done. by apply (ew_refs _ _ _ Hwf) in Hb'.
  - rewrite lookup_insert_ne by done. eauto.
  - eexists. split; [done|]. split; [|done]. exists mm'. split; simpl; try done.
    + destruct (refs s' !! b) eqn:E; [done|]. apply Hkeep in E; [|by left].
      by rewrite lookup_insert_eq in E.
    + intros h n Hh. destruct (ew_live _ _ _ Hwf _ _ Hh) as (? & [? Hs] & _).
      pose proof (executable_inside _ _ _ _ _ Hwf Hh). pose proof (Hlive _ _ Hh).
      rewrite decide_False by done. split; [done|]. split; [|done].
      destruct (refs s' !! h.2) eqn:E; [done|]. pose proof (live_counted _ _ _ Hh).
      apply Hkeep in E; [|right; lia]. by rewrite lookup_insert_ne, Hs in E.
    + apply Hwf.
Qed.

(** What the current block still has is apart from all that was cut from it. *)
Lemma hold_ok s m mm n : executable_wf s m mm → 0 < n → occupied s + n ≤ block_size →
  ∃ h s', (block_allocate n s ≫= λ ps, Some (hold ps.1 ps.2)) = Some (Ret h, s') ∧
    m !! h = None ∧ executable_owns s' (<[h := n]> m).
Proof using laws.
  intros Hwf Hn Hroom. destruct (ew_current _ _ _ Hwf) as [c Hc].
  pose proof (executable_region _ _ _ _ _ Hwf Hc) as Hr. pose proof (ew_occupied _ _ _ Hwf) as Hocc.
  unfold block_allocate, block_size in *.
  rewrite !(uw_small 64 ltac:(lia)) by (unfold in_u; lia).
  rewrite (proj2 (Z.leb_le _ _)) by lia. simpl. unfold hold. simpl. rewrite Hc.
  eexists (current s + occupied s, current s), _. split; [done|].
  assert (m !! (current s + occupied s, current s) = None) as Hm.
  { destruct (m !! (current s + occupied s, current s)) as [k|] eqn:Hk; [|done].
    destruct (ew_live _ _ _ Hwf _ _ Hk) as (? & _ & _ & Hle). simpl in Hle.
    rewrite decide_True in Hle by done. lia. }
  split; [done|]. exists mm. split; simpl; try apply Hwf; try lia.
  - intros b. rewrite (ew_blocks _ _ _ Hwf).
    destruct (decide (b = current s)) as [->|]; [by rewrite lookup_insert_eq, Hc|by rewrite lookup_insert_ne].
  - intros b c' Hb. rewrite (count_insert _ _ _ _ Hm). unfold owned. simpl.
    apply lookup_insert_Some in Hb as [[<- <-]|[? Hb]]; apply (ew_refs _ _ _ Hwf) in Hc.
    + rewrite Hc. unfold owned. by rewrite !decide_True by done.
    + apply (ew_refs _ _ _ Hwf) in Hb. rewrite Hb. unfold owned. by rewrite !decide_False by congruence.
  - rewrite lookup_insert_eq. eauto.
  - unfold block_size. lia.
  - intros h k Hh. apply lookup_insert_Some in Hh as [[<- <-]|[? Hh]]; simpl.
    + rewrite lookup_insert_eq, decide_True by done. split_and!; eauto; lia.
    + destruct (ew_live _ _ _ Hwf _ _ Hh) as (? & ? & ? & Hle).
      split_and!; [done| |done|case_decide; lia].
      destruct (decide (h.2 = current s)) as [->|]; [by rewrite lookup_insert_eq|by rewrite lookup_insert_ne].
  - assert (∀ k j, m !! k = Some j → current s = k.2 → k.1 + j ≤ current s + occupied s) as Hbelow.
    { intros k j Hk Heq. destruct (ew_live _ _ _ Hwf _ _ Hk) as (_ & _ & _ & Hle).
      rewrite decide_True in Hle by done. lia. }
    intros h n' k j Hh Hk Hne Heq. apply lookup_insert_Some in Hh as [[<- <-]|[? Hh]];
      apply lookup_insert_Some in Hk as [[<- <-]|[? Hk]]; simpl in *; [done|right; by eapply Hbelow|..].
    + left. by eapply Hbelow.
    + by eapply (ew_apart _ _ _ Hwf).
Qed.

Lemma executable_allocate_ok s m n : executable_owns s m → 0 < n ≤ block_size →
  (mmap block_size (pages s)).1 ≠ failed →
  ∃ h s', executable_allocate n s = (Ret h, s') ∧ m !! h = None ∧ executable_owns s' (<[h := n]> m).
Proof using laws.
  intros [mm Hwf] Hn Hnf. unfold executable_allocate.
  rewrite (proj2 (Z.ltb_ge _ _)) by lia. pose proof (ew_occupied _ _ _ Hwf) as Hocc.
  destruct (decide (occupied s + n ≤ block_size)) as [Hroom|Hroom].
  - destruct (hold_ok s m mm n) as (h & s' & Hh & Hm & Ho); [done|lia..|].
    destruct (block_allocate n s) as [[p s1]|]; [|done].
    simpl in Hh. apply (inj Some) in Hh. rewrite Hh. eauto.
  - assert (block_allocate n s = None) as ->.
    { unfold block_allocate, block_size in *. rewrite (uw_small 64 ltac:(lia)) by (unfold in_u; lia).
      by rewrite (proj2 (Z.leb_gt _ _)) by lia. }
    destruct (next_block_ok s m mm Hwf Hnf) as (s1 & -> & [mm1 Hwf1] & Hocc1).
    destruct (hold_ok s1 m mm1 n) as (h & s' & Hh & Hm & Ho); [done|lia..|].
    destruct (block_allocate n s1) as [[p s2]|]; [|done].
    simpl in Hh. apply (inj Some) in Hh. rewrite Hh. eauto.
Qed.

Lemma executable_deallocate_ok s m h n : executable_owns s m → m !! h = Some n →
  ∃ s', drop_block h.2 s = Ret s' ∧ executable_owns s' (delete h m).
Proof using laws.
  intros [mm Hwf] Hh.
  destruct (drop_block_ok s (delete h m) mm h.2 (λ b, owned b s))
    as (s' & mm' & Hd & Hhas & Hmm & Hrefs & Hcur & Hocc & Hkeep); [apply Hwf|apply Hwf| | |].
  - intros b c Hb. rewrite (ew_refs _ _ _ Hwf _ _ Hb), (count_delete _ _ _ _ Hh). simpl.
    destruct (decide (h.2 = b)), (decide (b = h.2)); congruence || lia.
  - by destruct (ew_live _ _ _ Hwf _ _ Hh) as (_ & ? & _).
  - exists s'. split; [done|]. exists mm'. split; unfold owned in *; rewrite ?Hcur, ?Hocc; try done.
    + destruct (refs s' !! current s) eqn:E; [done|]. apply Hkeep in E.
      * by destruct (ew_current _ _ _ Hwf) as [? Hs]; rewrite Hs in E.
      * right. rewrite decide_True by done. lia.
    + apply Hwf.
    + intros k j Hk. pose proof (live_counted _ _ _ Hk). apply lookup_delete_Some in Hk as [Hne Hk].
      destruct (ew_live _ _ _ Hwf _ _ Hk) as (? & [? Hs] & ?). split_and!; [done| |naive_solver..].
      destruct (refs s' !! k.2) eqn:E; [done|]. apply Hkeep in E; [congruence|right; lia].
    + intros k j k' j' [? ?]%lookup_delete_Some [? ?]%lookup_delete_Some. by apply Hwf.
Qed.

(** Null is a lack of memory that is reported; what was handed out is not touched. *)
Lemma executable_allocate_null s m n : executable_owns s m → 0 < n ≤ block_size →
  failed = 0 → (mmap block_size (pages s)).1 = failed →
  match executable_allocate n s with
  | (Ret h, s') => m !! h = None ∧ executable_owns s' (<[h := n]> m)
  | (Throw x, s') => x = bad_alloc ∧ executable_owns s' m
  | (UB, _) => False
  end.
Proof using laws.
  intros [mm Hwf] Hn Hnull Hf. unfold executable_allocate.
  rewrite (proj2 (Z.ltb_ge _ _)) by lia.
  destruct (decide (occupied s + n ≤ block_size)) as [Hroom|Hroom].
  - destruct (hold_ok s m mm n) as (h & s' & Hh & Hm & Ho); [done|lia..|].
    destruct (block_allocate n s) as [[p s1]|]; [|done].
    simpl in Hh. apply (inj Some) in Hh. by rewrite Hh.
  - pose proof (ew_occupied _ _ _ Hwf).
    assert (block_allocate n s = None) as ->.
    { unfold block_allocate, block_size in *. rewrite (uw_small 64 ltac:(lia)) by (unfold in_u; lia).
      by rewrite (proj2 (Z.leb_gt _ _)) by lia. }
    unfold next_block, new_block.
    pose proof (sl_get _ _ _ _ laws (pages s) mm block_size (ew_pages _ _ _ Hwf) ltac:(done)) as Hget.
    destruct (mmap block_size (pages s)) as [p o]; simpl in *. subst p.
    destruct Hget as [[_ Ho]|[? _]]; [|done]. rewrite Hnull. simpl.
    split; [done|]. exists mm. destruct Hwf. by split.
Qed.

(** The allocator of executable memory keeps the contract where the system says with null that there
    are no pages: blocks that are cut from one region are apart, and the region is there while any
    is held. *)
Lemma executable_allocator_laws : failed = 0 →
  allocator_laws executable_memory_allocator executable_owns block_size.
Proof using laws.
  intros Hnull. split; simpl.
  - intros s m n Hs Hn. destruct (decide ((mmap block_size (pages s)).1 = failed)) as [Hf|Hf].
    + pose proof (executable_allocate_null s m n Hs Hn Hnull Hf) as Ha.
      destruct (executable_allocate n s) as [[h|x|] s']; naive_solver.
    + by destruct (executable_allocate_ok s m n Hs Hn Hf) as (h & s' & -> & ?).
  - intros s m h n. apply executable_deallocate_ok.
  - intros s m h n k j [mm Hwf] Hh Hk Hne.
    destruct (decide (h.2 = k.2)) as [Heq|Hb]; [by eapply (ew_apart _ _ _ Hwf)|].
    pose proof (executable_inside _ _ _ _ _ Hwf Hh). pose proof (executable_inside _ _ _ _ _ Hwf Hk).
    destruct (ew_live _ _ _ Hwf _ _ Hh) as (_ & [c Hc] & _).
    destruct (ew_live _ _ _ Hwf _ _ Hk) as (_ & [d Hd] & _).
    pose proof (ew_blocks _ _ _ Hwf h.2) as Hmh. pose proof (ew_blocks _ _ _ Hwf k.2) as Hmk.
    rewrite Hc in Hmh. rewrite Hd in Hmk.
    pose proof (sl_apart _ _ _ _ laws _ _ _ _ _ _ (ew_pages _ _ _ Hwf) Hmh Hmk Hb). lia.
  - intros s m h n [mm Hwf] Hh.
    pose proof (executable_inside _ _ _ _ _ Hwf Hh).
    destruct (ew_live _ _ _ Hwf _ _ Hh) as (_ & [c Hc] & _).
    pose proof (executable_region _ _ _ _ _ Hwf Hc). lia.
Qed.

End executable.

Definition map_failed : Z := 2 ^ 64 - 1.

(** A refused [mmap] returns the last address, which the constructor of a block takes for a region:
    what is then handed out is no memory. *)
Lemma map_failure_unseen {O} (mmap : Z → O → Z * O) o : mmap block_size o = (map_failed, o) →
  new_executable mmap o = (Ret (mk_executable o {[map_failed := 1%nat]} map_failed 0), o).
Proof. intros Hm. unfold new_executable, new_block. by rewrite Hm. Qed.

(** * A system *)

(** Memory that is given out in increasing order, never twice, as far as it goes. *)
Record demo_memory := mk_demo_memory { next_address : Z; given : gmap Z Z }.

Definition demo_get (n : Z) (o : demo_memory) : Z * demo_memory :=
  if (0 <? n) && (next_address o + n <? 2 ^ 64)
  then (next_address o, mk_demo_memory (next_address o + n) (<[next_address o := n]> (given o)))
  else (0, o).
Definition demo_put (p n : Z) (o : demo_memory) : demo_memory :=
  mk_demo_memory (next_address o) (delete p (given o)).
Definition demo_has (o : demo_memory) (m : gmap Z Z) : Prop :=
  given o = m ∧ 0 < next_address o < 2 ^ 64 ∧
  (∀ p n, m !! p = Some n → 0 < p ∧ 0 < n ∧ p + n ≤ next_address o) ∧
  ∀ p n q k, m !! p = Some n → m !! q = Some k → p ≠ q → p + n ≤ q ∨ q + k ≤ p.

Lemma demo_system : system_laws demo_get demo_put 0 demo_has.
Proof.
  split.
  - intros [a g] m n (Hg & Ha & Hm & Hap) Hn; simpl in *; subst g. unfold demo_get. simpl.
    rewrite (proj2 (Z.ltb_lt 0 n) Hn). destruct (Z.ltb_spec (a + n) (2 ^ 64)) as [Hfit|Hfit]; simpl; [right|by left].
    assert (m !! a = None) as Hma.
    { destruct (m !! a) as [k|] eqn:Hk; [|done]. apply Hm in Hk. lia. }
    split; [lia|]. split; [done|]. split; [done|]. simpl. split; [lia|]. split.
    + intros p k [[<- <-]|[? Hp]]%lookup_insert_Some; [lia|]. apply Hm in Hp. lia.
    + intros p k q j [[<- <-]|[? Hp]]%lookup_insert_Some [[<- <-]|[? Hq]]%lookup_insert_Some Hne;
        [done|apply Hm in Hq; lia|apply Hm in Hp; lia|by apply Hap].
  - intros [a g] m p n (Hg & Ha & Hm & Hap) Hp; simpl in *; subst g. split; [done|]. split; [done|].
    split; [intros q k [? Hq]%lookup_delete_Some; by apply Hm|].
    intros q k r j [? ?]%lookup_delete_Some [? ?]%lookup_delete_Some. by apply Hap.
  - intros o m p n q k (_ & _ & _ & Hap). by apply Hap.
  - intros o m p n (_ & Ha & Hm & _) Hp. apply Hm in Hp. lia.
Qed.

Definition demo_length (p : Z) (o : demo_memory) : Z := default 0 (given o !! p).

Lemma demo_length_known o m p n : demo_has o m → m !! p = Some n → demo_length p o = n.
Proof. intros [<- _] Hp. unfold demo_length. by rewrite Hp. Qed.

#[local] Instance demo_allocator : allocator demo_memory Z :=
  default_allocator demo_get demo_put demo_length.
Definition demo_reserve (c n : Z) : result Z := Ret (c `max` n).
Definition demo_pool : allocator (pool (U := demo_memory)) Z := pool_allocator demo_reserve.

Lemma pool_allocator_laws_witness :
  allocator_laws demo_pool (pool_owns demo_has) (2 ^ 64 - 1 - pool_overhead).
Proof.
  apply (pool_allocator_laws demo_reserve demo_has (2 ^ 64 - 1)).
  - apply default_allocator_laws; [apply demo_system|apply demo_length_known].
  - done.
  - intros c n c' Hc. apply Ret_inj in Hc. lia.
  - done.
  - lia.
Defined.

(** A block that came back is the next of its length to be handed out; one of another length is cut
    from the system. *)
Lemma demo_pool_reuses :
  let (r1, s1) := pool_allocate demo_reserve 16 (new_pool (mk_demo_memory 4096 ∅)) in
  let s2 := pool_deallocate demo_reserve 4104 s1 in
  r1 = Ret 4104 ∧
  ((s2 ≫= λ s, (pool_allocate demo_reserve 16 s).1) = Ret 4104) ∧
  ((s2 ≫= λ s, (pool_allocate demo_reserve 32 s).1) = Ret 4128).
Proof. vm_compute. done. Qed.

Lemma pool_returns_all_witness : ∃ u mu,
  pool_destroy (new_pool (mk_demo_memory 4096 ∅)) = Ret u ∧ demo_has u mu ∧
  ∀ e k, mu !! e = Some k → (∅ : gmap Z Z) !! (e + pool_overhead) = Some (k - pool_overhead).
Proof.
  apply (pool_returns_all demo_has (2 ^ 64 - 1)).
  - apply default_allocator_laws; [apply demo_system|apply demo_length_known].
  - exists ∅. split; simpl; try done.
Defined.

Lemma executable_allocator_laws_witness :
  allocator_laws (executable_memory_allocator demo_get demo_put) (executable_owns demo_has) block_size.
Proof. apply (executable_allocator_laws _ _ 0); [apply demo_system|done]. Defined.

(** Five blocks of 30000 bytes take three regions; the first is unmapped when both its blocks are let
    go. *)
Definition demo_five : result (executable (O := demo_memory)) :=
  s ← (new_executable demo_get (mk_demo_memory 4096 ∅)).1;
  fold_m (λ s n, (executable_allocate demo_get demo_put n s).1 ≫= λ _,
    Ret (executable_allocate demo_get demo_put n s).2) s (repeat 30000 5).

Lemma demo_five_regions :
  (s ← demo_five; Ret (map_to_list (given (pages s)), occupied s)) =
    Ret ([(135168, 65536); (69632, 65536); (4096, 65536)], 30000) ∧
  (s ← demo_five; s ← drop_block demo_put 4096 s; s ← drop_block demo_put 4096 s;
    Ret (map_to_list (given (pages s)))) = Ret [(135168, 65536); (69632, 65536)].
Proof. vm_compute. done. Qed.
