(* ===== verification/CallsTable.v ===== *)
(** The table of calls (frontend/serialization.h, frontend/serialization_context.h,
    frontend/keyer.h, frontend/constructors.h, sdb/index.h, collector/serialization.h).

    The collector sends the call graphs of threads as trees; the front-end keeps all the calls in one
    table whose records know the thread and the record they are called from.  Reading a tree finds
    the record of each of its nodes, or makes one, adds the statistics to it, and goes on with the
    callees.  How a tree is written as bytes is up to the archive. *)

From S2P Require Import Prelude Statistics ShadowStack Sdb Hierarchy.
Local Open Scope Z_scope.

(** * Graphs as they are sent *)

#[local] Unset Elimination Schemes.
(** [collector/serialization.h:36-41] serialize. A node: its address, its statistics and its callees. *)
Inductive graph := node (a : Z) (st : function_statistics) (callees : list graph).
#[local] Set Elimination Schemes.

Section graph_ind.
Context (P : graph → Prop) (P_node : ∀ a st cs, Forall P cs → P (node a st cs)).

Fixpoint graph_ind (g : graph) : P g :=
  match g with
  | node a st cs => P_node a st cs
      ((fix go (l : list graph) : Forall P l :=
        match l with
        | [] => Forall_nil_2 P
        | g :: l => Forall_cons_2 P g l (graph_ind g) (go l)
        end) cs)
  end.
End graph_ind.

(** The nodes of a graph, by their paths, in the order they are sent. *)
Fixpoint nodes_of (p : path) (g : graph) : list (path * function_statistics) :=
  match g with
  | node a st cs => (p ++ [a], st) :: concat (map (nodes_of (p ++ [a])) cs)
  end.
Definition forest_nodes (p : path) (gs : list graph) : list (path * function_statistics) :=
  concat (map (nodes_of p) gs).

(** What [gs] sends: every node of a call graph, once. *)
Definition sends (gs : list graph) (m : nodes_map) : Prop :=
  NoDup (forest_nodes [] gs).*1 ∧ list_to_map (forest_nodes [] gs) = m.

(** * The table *)

(** [frontend/keyer.h:55-55] call_node_key. *)
Definition call_node_key : Type := Z * Z * Z.

#[export] Instance call_node_key_eq_dec : EqDecision call_node_key.
Proof. unfold call_node_key. apply _. Defined.

(** The record constructor is in the table; the index is that of the call nodes. *)
(** [frontend/keyer.h:56-56] calls_statistics_table. *)
Record calls_table := mk_calls {
  calls : table call_statistics;
  by_node : index (K := call_node_key);
  next_id : Z;
  invalidated : nat;
}.

Definition empty_calls : calls_table := mk_calls empty_table empty_index 1 0.

(** [frontend/keyer.h:80-98] combine3. The keyer [callnode] of the thread, the parent and the address. *)
Definition key_of (c : call_statistics) : call_node_key := (thread_id c, parent_id c, address c).

(** [frontend/constructors.h:35-41] auto_increment_constructor::operator (). *)
Definition construct (key : call_node_key) (id : Z) : call_statistics * Z :=
  (mk_call id key.1.1 key.1.2 key.2 function_statistics_default, u32 (id + 1)).

(** A new record is in the table at once, the index is told of it when it is committed. *)
(** [sdb/index.h:118-136] immutable_unique_index::operator []. *)
Definition callnode (key : call_node_key) (s : calls_table) : bool * nat * calls_table :=
  match equal_range key (by_node s) with
  | h :: _ => (false, h, s)
  | [] =>
    let '(c, n) := construct key (next_id s) in
    let '(h, t) := create c (calls s) in
    (true, h, mk_calls t (by_node s) n (invalidated s))
  end.

(** [sdb/table.h:175-176] table::transacted_record::commit. *)
Definition commit (new_ : bool) (key : call_node_key) (h : nat) (s : calls_table) : calls_table :=
  mk_calls (calls s) (if new_ then index_created key h (by_node s) else by_node s) (next_id s) (invalidated s).

(** [frontend/serialization.h:117-124] serialize. The statistics are added to what is there. *)
Definition add_to (st : function_statistics) (c : call_statistics) : call_statistics :=
  mk_call (call_id c) (thread_id c) (parent_id c) (address c) (add_stats (call_stats c) st).

(** [frontend/serialization.h:88-94] call_nodes_reader::read_item. Up to the callees: the identifier they
    are called from. *)
Definition touch (key : call_node_key) (st : function_statistics) (s : calls_table) : result (Z * calls_table) :=
  let '(new_, h, s) := callnode key s in
  let s := commit new_ key h s in
  let '(new_, h, s) := callnode key s in
  let s := mk_calls (modify h (add_to st) (calls s)) (by_node s) (next_id s) (invalidated s) in
  match find_record h (records (calls s)) with
  | Some c => Ret (call_id c, commit new_ key h s)
  | None => UB
  end.

(** [frontend/serialization.h:84-95] call_nodes_reader::read_item, [serialize] of the record in it: the
    callees are read with the identifier of the record for their parent. *)
Fixpoint read_node (tid parent : Z) (g : graph) (s : calls_table) : result calls_table :=
  match g with
  | node a st cs =>
    '(id, s) ← touch (tid, parent, a) st s;
    fold_m (λ s g, read_node tid id g s) s cs
  end.

(** The threads of a message are kept for the request of their information: the first one clears those
    of the last message. *)
(** [frontend/serialization.h:71-82] call_nodes_reader::read_item. A thread. *)
Definition read_thread (x : calls_table * list Z * bool) (item : Z * list graph) :
    result (calls_table * list Z * bool) :=
  let '(s, threads, first_) := x in
  s ← fold_m (λ s g, read_node item.1 0 g s) s item.2;
  Ret (s, (if first_ then [] else threads) ++ [item.1], false).

(** [frontend/serialization.h:162-169] serialize. A message of statistics. *)
Definition read_statistics (message : list (Z * list graph)) (s : calls_table) (threads : list Z) :
    result (calls_table * list Z) :=
  '(s, threads, _) ← fold_m read_thread (s, threads, true) message;
  Ret (mk_calls (calls s) (by_node s) (next_id s) (S (invalidated s)), threads).

(** * Walking down the table *)

(** The call graph a table stands for: [find] gives the record of a key. *)
Section walk.
Context (find : call_node_key → option call_statistics).

Definition walk (tid : Z) (p : path) : option Z :=
  foldl (λ o a, i ← o; call_id <$> find (tid, i, a)) (Some 0) p.

Definition stats_at (tid : Z) (p : path) (a : Z) : option function_statistics :=
  i ← walk tid p; call_stats <$> find (tid, i, a).

Lemma walk_snoc tid p a : walk tid (p ++ [a]) = (i ← walk tid p; call_id <$> find (tid, i, a)).
Proof. unfold walk. by rewrite foldl_app. Qed.

(** Records are told apart by their identifiers, below [n], and know their keys. *)
Record forest (n : Z) : Prop := {
  fo_key k c : find k = Some c → key_of c = k;
  fo_once k c k' c' : find k = Some c → find k' = Some c' → call_id c = call_id c' → k = k';
  fo_below k c : find k = Some c → 0 < call_id c < n ∧ parent_id c < n;
}.

Lemma walk_zero n tid p : forest n → walk tid p = Some 0 → p = [].
Proof.
  intros Hf. destruct p as [|a p] using rev_ind; [done|]. rewrite walk_snoc.
  destruct (walk tid p) as [i|]; simpl; [|done]. destruct (find (tid, i, a)) as [c|] eqn:E; simpl; [|done].
  intros [= Hc]. pose proof (fo_below _ Hf _ _ E). lia.
Qed.

(** A record is reached by one path of one thread. *)
Lemma walk_inj n tid p tid' p' i : forest n → i ≠ 0 → walk tid p = Some i → walk tid' p' = Some i →
  tid = tid' ∧ p = p'.
Proof.
  intros Hf. revert p' i. induction p as [|a p IH] using rev_ind; intros p' i Hi.
  { intros [= <-]. done. }
  destruct p' as [|a' p' _] using rev_ind; [by intros _ [= <-]|].
  rewrite !walk_snoc. destruct (walk tid p) as [j|] eqn:Ej; simpl; [|done].
  destruct (walk tid' p') as [j'|] eqn:Ej'; simpl; [|done].
  destruct (find (tid, j, a)) as [c|] eqn:Ec; simpl; [|done].
  destruct (find (tid', j', a')) as [c'|] eqn:Ec'; simpl; [|done].
  intros [= Hc] [= Hc'].
  pose proof (fo_once _ Hf _ _ _ _ Ec Ec' ltac:(congruence)) as [= -> -> ->].
  split; [done|]. destruct (decide (j' = 0)) as [->|Hj].
  - by rewrite (walk_zero _ _ _ Hf Ej), (walk_zero _ _ _ Hf Ej').
  - by destruct (IH p' j' Hj eq_refl Ej') as [_ ->].
Qed.

Lemma walk_below n tid p i : forest n → 0 < n → walk tid p = Some i → 0 ≤ i < n.
Proof.
  intros Hf Hn. destruct p as [|a p _] using rev_ind; [intros [= <-]; lia|]. rewrite walk_snoc.
  destruct (walk tid p) as [j|]; simpl; [|done]. destruct (find (tid, j, a)) as [c|] eqn:E; simpl; [|done].
  intros [= <-]. pose proof (fo_below _ Hf _ _ E). lia.
Qed.
End walk.

(** What finding a record or making one, and adding to it, does to the paths: [k] is the key of a
    record behind a path of a thread. *)
Section touched.
Context (find find' : call_node_key → option call_statistics) (n : Z).
Context (k : call_node_key) (st : function_statistics) (c' : call_statistics).
Context (Hfind : forest find n) (Hn : 0 < n).
Context (Hsame : ∀ k', k' ≠ k → find' k' = find k') (Hk : find' k = Some c').
Context (Hc' : match find k with
  | Some c => c' = add_to st c
  | None => c' = add_to st (mk_call n k.1.1 k.1.2 k.2 function_statistics_default)
  end).

Lemma touched_id : call_id c' = match find k with Some c => call_id c | None => n end.
Proof using Hc'. clear Hk Hsame. destruct (find k); by subst c'. Qed.

Lemma touched_forest : k.1.2 < n →
  forest find' (match find k with Some _ => n | None => n + 1 end).
Proof using All.
  intros Hp. pose proof touched_id as Hid. split.
  - intros k' c E. destruct (decide (k' = k)) as [->|Hne].
    + rewrite Hk in E. injection E as <-. destruct (find k) as [c|] eqn:Ec; subst c'.
      * apply (fo_key _ _ Hfind _ _ Ec).
      * by destruct k as [[]].
    + rewrite Hsame in E by done. by apply (fo_key _ _ Hfind).
  - assert (∀ k' c, k' ≠ k → find k' = Some c → call_id c' ≠ call_id c) as Hdiff.
    { intros k' c Hne E Heq. rewrite Hid in Heq. destruct (find k) as [d|] eqn:Ed.
      - by pose proof (fo_once _ _ Hfind _ _ _ _ Ed E Heq).
      - pose proof (fo_below _ _ Hfind _ _ E). lia. }
    intros k1 c1 k2 c2 E1 E2 Heq. destruct (decide (k1 = k)) as [->|H1], (decide (k2 = k)) as [->|H2].
    + done.
    + rewrite Hk in E1. rewrite Hsame in E2 by done. simplify_eq. by destruct (Hdiff _ _ H2 E2).
    + rewrite Hk in E2. rewrite Hsame in E1 by done. simplify_eq. by destruct (Hdiff _ _ H1 E1).
    + rewrite Hsame in E1, E2 by done. by apply (fo_once _ _ Hfind _ _ _ _ E1 E2).
  - intros k' c E. destruct (decide (k' = k)) as [->|Hne].
    + rewrite Hk in E. injection E as <-. destruct (find k) as [c|] eqn:Ec; subst c'; simpl in *.
      * pose proof (fo_below _ _ Hfind _ _ Ec). lia.
      * lia.
    + rewrite Hsame in E by done. pose proof (fo_below _ _ Hfind _ _ E). destruct (find k); lia.
Qed.

(** Paths stay what they were, and there is at most the new one of the record. *)
Lemma touched_keeps tid p i : walk find tid p = Some i → walk find' tid p = Some i.
Proof using Hsame Hk Hc'.
  pose proof touched_id as Hid.
  revert i. induction p as [|a p IH] using rev_ind; intros i; [done|]. rewrite !walk_snoc.
  destruct (walk find tid p) as [j|]; simpl; [|done]. rewrite (IH j eq_refl). simpl.
  destruct (decide ((tid, j, a) = k)) as [<-|Hne]; [|by rewrite Hsame].
  rewrite Hk. simpl. destruct (find (tid, j, a)); simpl; [by rewrite Hid|done].
Qed.

Lemma touched_walk tid p i : walk find' tid p = Some i →
  walk find tid p = Some i ∨ i = n ∧ find k = None ∧
    ∃ q, p = q ++ [k.2] ∧ tid = k.1.1 ∧ walk find tid q = Some k.1.2.
Proof using All.
  pose proof touched_id as Hid.
  revert i. induction p as [|a p IH] using rev_ind; intros i; [by left|]. rewrite !walk_snoc.
  destruct (walk find' tid p) as [j|]; simpl; [|done].
  destruct (IH j eq_refl) as [Hj|(-> & Hkn & q & -> & -> & Hq)].
  - rewrite Hj. simpl. destruct (decide ((tid, j, a) = k)) as [<-|Hne].
    + rewrite Hk. simpl. intros [= <-]. rewrite Hid. destruct (find (tid, j, a)) as [c|] eqn:E; [by left|].
      right. split; [done|]. split; [done|]. by exists p.
    + rewrite Hsame by done. by left.
  - destruct (find' (k.1.1, n, a)) as [c|] eqn:E; simpl; [|done]. exfalso.
    destruct (decide ((k.1.1, n, a) = k)) as [Heq|Hne].
    + pose proof (walk_below _ _ _ _ _ Hfind Hn Hq). rewrite <- Heq in *. simpl in *. lia.
    + rewrite Hsame in E by done. pose proof (fo_key _ _ Hfind _ _ E) as Hkey.
      pose proof (fo_below _ _ Hfind _ _ E) as Hb. unfold key_of in Hkey. simplify_eq. lia.
Qed.

Lemma touched_stats p tid q a : walk find k.1.1 p = Some k.1.2 →
  stats_at find' tid q a =
    if decide ((tid, q, a) = (k.1.1, p, k.2))
    then Some (add_stats (default function_statistics_default (stats_at find tid q a)) st)
    else stats_at find tid q a.
Proof using All.
  intros Hp. unfold stats_at. pose proof touched_id as Hid. case_decide as Hd.
  - injection Hd as -> -> ->. rewrite (touched_keeps _ _ _ Hp), Hp. simpl.
    rewrite <- !surjective_pairing. rewrite Hk. simpl. by destruct (find k); subst c'.
  - destruct (walk find' tid q) as [i|] eqn:Ei; simpl.
    + destruct (touched_walk _ _ _ Ei) as [Hi|(-> & Hkn & q' & -> & -> & Hq')].
      * rewrite Hi. simpl. rewrite Hsame; [done|]. intros <-. simpl in *. apply Hd.
        destruct (decide (i = 0)) as [->|Hne].
        -- by rewrite (walk_zero _ _ _ _ Hfind Hp), (walk_zero _ _ _ _ Hfind Hi).
        -- by destruct (walk_inj _ _ _ _ _ _ _ Hfind Hne Hi Hp) as [_ ->].
      * rewrite walk_snoc, Hq'. simpl. rewrite <- !surjective_pairing, Hkn. simpl.
        rewrite Hsame.
        -- destruct (find (k.1.1, n, a)) as [c|] eqn:E; [|done]. pose proof (fo_key _ _ Hfind _ _ E) as Hkey.
           pose proof (fo_below _ _ Hfind _ _ E). unfold key_of in Hkey. simplify_eq. lia.
        -- intros Heq. pose proof (walk_below _ _ _ _ _ Hfind Hn Hq'). rewrite <- Heq in *. simpl in *. lia.
    + destruct (walk find tid q) as [i|] eqn:E; [|done]. by rewrite (touched_keeps _ _ _ E) in Ei.
Qed.
End touched.

(** ** The records behind the index *)

Definition find_call (s : calls_table) (key : call_node_key) : option call_statistics :=
  match equal_range key (by_node s) with
  | h :: _ => find_record h (records (calls s))
  | [] => None
  end.

Record calls_ok (s : calls_table) : Prop := {
  co_table : table_ok (calls s);
  co_index : index_ok key_of (calls s) (by_node s);
  co_keys : NoDup (map (λ p, key_of p.2) (records (calls s)));
  co_forest : forest (find_call s) (next_id s);
  co_id : 0 < next_id s < 2 ^ 32;
}.

Section found.
Context (s : calls_table) (Ht : table_ok (calls s)) (Hi : index_ok key_of (calls s) (by_node s)).
Context (Hk : NoDup (map (λ p, key_of p.2) (records (calls s)))).

Lemma range_cases key :
  equal_range key (by_node s) = [] ∧ (∀ h c, (h, c) ∈ records (calls s) → key_of c ≠ key) ∨
  ∃ h l c, equal_range key (by_node s) = h :: l ∧ (h, c) ∈ records (calls s) ∧ key_of c = key.
Proof using Hi.
  rewrite (equal_range_spec _ _ _ _ Hi). unfold with_key.
  destruct (filter _ (records (calls s))) as [|[h c] l] eqn:E; [left|right].
  - split; [done|]. intros h c Hin Hc.
    assert ((h, c) ∈ filter (λ p, key_of p.2 = key) (records (calls s))) as Hx by (apply list_elem_of_filter; done).
    rewrite E in Hx. by apply elem_of_nil in Hx.
  - exists h, (l.*1), c. split; [done|].
    assert ((h, c) ∈ filter (λ p, key_of p.2 = key) (records (calls s))) as Hx by (rewrite E; by left).
    apply list_elem_of_filter in Hx as [? ?]. done.
Qed.

Lemma find_call_spec key c :
  find_call s key = Some c ↔ ∃ h, (h, c) ∈ records (calls s) ∧ key_of c = key.
Proof using All.
  unfold find_call. destruct (range_cases key) as [[-> Hnone]|(h & l & c0 & -> & Hin & Hc0)].
  - split; [done|]. intros (h & Hin & Hc). by destruct (Hnone h c).
  - rewrite find_record_elem by apply Ht. split; [|intros (h' & Hin' & Hc)].
    + intros Hin'. exists h. split; [done|]. by assert ((h, c) = (h, c0)) as [= ->]
        by (eapply (NoDup_map_elem fst); [apply Ht|done..]).
    + by assert ((h', c) = (h, c0)) as [= -> ->] by
        (eapply (NoDup_map_elem (λ p, key_of p.2)); [exact Hk|done|done|simpl; congruence]).
Qed.
End found.

(** What is ready for a record to be added to. *)
Definition indexed (s : calls_table) : Prop :=
  table_ok (calls s) ∧ index_ok key_of (calls s) (by_node s) ∧
  NoDup (map (λ p, key_of p.2) (records (calls s))).

Lemma callnode_found key s : indexed s → is_Some (find_call s key) →
  ∃ h c, callnode key s = (false, h, s) ∧ find_call s key = Some c ∧ (h, c) ∈ records (calls s).
Proof.
  intros (Ht & Hi & Hk) [c Hc]. pose proof Hc as Hc'. unfold find_call in Hc'. unfold callnode.
  destruct (equal_range key (by_node s)) as [|h l]; [done|].
  exists h, c. apply find_record_elem in Hc'; [done|apply Ht].
Qed.

Lemma construct_key key id : key_of (construct key id).1 = key.
Proof. by destruct key as [[]]. Qed.

(** The first half: there is a record of the key. *)
Lemma ensure_ok key s : indexed s → next_id s + 1 < 2 ^ 32 → 0 < next_id s →
  let '(new_, h, s1) := callnode key s in
  let s2 := commit new_ key h s1 in
  indexed s2 ∧ (∀ k', k' ≠ key → find_call s2 k' = find_call s k') ∧
  find_call s2 key = Some (default (construct key (next_id s)).1 (find_call s key)) ∧
  next_id s2 = match find_call s key with Some _ => next_id s | None => next_id s + 1 end.
Proof.
  intros (Ht & Hi & Hk) Hn Hn0. pose proof (find_call_spec s Ht Hi Hk) as Hspec.
  destruct (range_cases s Hi key) as [[E Hnone]|(h & l & c & E & Hin & Hc)].
  2:{ assert (find_call s key = Some c) as Hf by (apply Hspec; eauto).
      unfold callnode. rewrite E, Hf. destruct s. by split_and!. }
  assert (find_call s key = None) as Hf by (unfold find_call; by rewrite E).
  unfold callnode. rewrite E, Hf. set (c := (construct key (next_id s)).1).
  pose proof (construct_key key (next_id s)) as Hkey. fold c in Hkey.
  set (s2 := mk_calls (create c (calls s)).2 (index_created key (next_handle (calls s)) (by_node s))
    (next_id s + 1) (invalidated s)).
  assert (indexed s2) as Hs2.
  { split_and!; simpl.
    - by apply create_ok.
    - rewrite <- Hkey at 1. by apply index_created_ok.
    - rewrite map_app. simpl. apply NoDup_app. split_and!; [done| |by apply NoDup_singleton].
      intros k' ([h' c'] & -> & Hin)%list_elem_of_fmap Heq%list_elem_of_singleton.
      apply (Hnone _ _ Hin). by rewrite <- Hkey. }
  destruct Hs2 as (Ht2 & Hi2 & Hk2). pose proof (find_call_spec s2 Ht2 Hi2 Hk2) as Hspec2.
  cut (indexed s2 ∧ (∀ k', k' ≠ key → find_call s2 k' = find_call s k') ∧ find_call s2 key = Some c ∧
    next_id s2 = next_id s + 1).
  { unfold s2, commit, c, construct. simpl. rewrite (uw_small 32 ltac:(lia)) by (unfold in_u; lia). done. }
  split_and!; [done| |apply Hspec2; exists (next_handle (calls s)); split; [|done]|done].
  - intros k' Hne. apply option_eq. intros d. rewrite Hspec, Hspec2. simpl. split.
    + intros (h & [Hin|[= -> ->]%list_elem_of_singleton]%elem_of_app & Hd); [eauto|congruence].
    + intros (h & Hin & Hd). exists h. split; [|done]. apply elem_of_app. by left.
  - simpl. apply elem_of_app. right. by left.
Qed.

Lemma touch_calls_ok key st s : calls_ok s → key.1.2 < next_id s → next_id s + 1 < 2 ^ 32 →
  ∃ c' s', touch key st s = Ret (call_id c', s') ∧ calls_ok s' ∧
    next_id s ≤ next_id s' ≤ next_id s + 1 ∧
    (∀ k', k' ≠ key → find_call s' k' = find_call s k') ∧ find_call s' key = Some c' ∧
    c' = add_to st (default (construct key (next_id s)).1 (find_call s key)).
Proof.
  intros [Ht Hi Hk Hf Hid] Hp Hn.
  pose proof (ensure_ok key s ltac:(done) ltac:(lia) ltac:(lia)) as Hen. unfold touch.
  destruct (callnode key s) as [[new_ h0] s1]. set (s2 := commit new_ key h0 s1) in *.
  destruct Hen as (Hs2 & Hsame & Hfind & Hnext).
  destruct (callnode_found key s2 Hs2 ltac:(eauto)) as (h & c & -> & Hc & Hin).
  rewrite Hfind in Hc. apply (inj Some) in Hc.
  set (t := modify h (add_to st) (calls s2)).
  destruct Hs2 as (Ht2 & Hi2 & Hk2). pose proof (find_call_spec s2 Ht2 Hi2 Hk2) as Hspec2.
  set (s3 := mk_calls t (by_node s2) (next_id s2) (invalidated s2)).
  assert ((h, add_to st c) ∈ records t) as Hin3.
  { apply modify_elem. exists c. by rewrite decide_True. }
  assert (indexed s3) as (Ht3 & Hi3 & Hk3).
  { split_and!; cbn [s3 calls by_node]; [by apply modify_ok|by apply index_modify_ok|].
    unfold t. by rewrite (modify_keys key_of). }
  rewrite (proj2 (find_record_elem h (add_to st c) (records (calls s3)) (proj1 Ht3))) by done.
  pose proof (find_call_spec s3 Ht3 Hi3 Hk3) as Hspec3.
  assert (key_of c = key) as Hkc.
  { rewrite Hc in Hfind. by apply Hspec2 in Hfind as (? & _ & ?). }
  assert (∀ k', k' ≠ key → find_call s3 k' = find_call s2 k') as Hsame3.
  { intros k' Hne. apply option_eq. intros d. rewrite Hspec2, Hspec3. split.
    - intros (h' & (d0 & Hin0 & ->)%modify_elem & Hd). exists h'. case_decide; [|done]. subst h'.
      assert ((h, d0) = (h, c)) as [= ->] by (eapply (NoDup_map_elem fst); [apply Ht2|done..]). destruct Hne. by rewrite <- Hkc.
    - intros (h' & Hin0 & Hd). exists h'. split; [|done]. apply modify_elem. exists d. split; [done|].
      rewrite decide_False; [done|]. intros <-.
      assert ((h', d) = (h', c)) as [= ->] by (eapply (NoDup_map_elem fst); [apply Ht2|done..]). congruence. }
  assert (find_call s3 key = Some (add_to st c)) as Hfind3 by (apply Hspec3; exists h; done).
  exists (add_to st c), s3. split; [done|].
  assert (next_id s ≤ next_id s3 ≤ next_id s + 1) as Hle
    by (change (next_id s3) with (next_id s2); rewrite Hnext; destruct (find_call s key); lia).
  split_and!; [|apply Hle|apply Hle|intros k' Hne; rewrite Hsame3, Hsame by done; done|done|by rewrite Hc].
  split; [done..| |change (next_id (commit false key h s3)) with (next_id s3); lia].
  change (next_id s3) with (next_id s2). rewrite Hnext.
  eapply (touched_forest (find_call s) (find_call s3) (next_id s) key st (add_to st c) Hf);
    [lia|intros k' Hne; by rewrite Hsame3, Hsame|done| |done].
  rewrite <- Hc. by destruct (find_call s key).
Qed.

(** ** Reading adds the nodes of a graph *)

(** What is behind a path when some nodes were added. *)
Definition added (p : path) (l : list (path * function_statistics)) (o : option function_statistics) :
    option function_statistics :=
  foldl (λ o e, if decide (e.1 = p) then Some (add_stats (default function_statistics_default o) e.2) else o) o l.

Record effect (tid : Z) (l : list (path * function_statistics)) (s s' : calls_table) : Prop := {
  ef_ok : calls_ok s';
  ef_id : next_id s ≤ next_id s' ≤ next_id s + len l;
  ef_walk t p i : walk (find_call s) t p = Some i → walk (find_call s') t p = Some i;
  ef_stats t q a : stats_at (find_call s') t q a =
    if decide (t = tid) then added (q ++ [a]) l (stats_at (find_call s) t q a)
    else stats_at (find_call s) t q a;
}.

Lemma effect_nil tid s : calls_ok s → effect tid [] s s.
Proof. intros. split; [done|simpl; lia|done|]. intros t q a. by case_decide. Qed.

Lemma effect_app tid l1 l2 s s1 s2 : effect tid l1 s s1 → effect tid l2 s1 s2 → effect tid (l1 ++ l2) s s2.
Proof.
  intros [H1 H2 H3 H4] [G1 G2 G3 G4]. split; [done|rewrite length_app; lia|auto|].
  intros t q a. rewrite G4, H4. unfold added. case_decide; [|done]. by rewrite foldl_app.
Qed.

Lemma touch_effect tid q parent a st s : calls_ok s → walk (find_call s) tid q = Some parent →
  next_id s + 1 < 2 ^ 32 →
  ∃ id s', touch (tid, parent, a) st s = Ret (id, s') ∧ effect tid [(q ++ [a], st)] s s' ∧
    walk (find_call s') tid (q ++ [a]) = Some id.
Proof.
  intros Hs Hw Hn. pose proof (co_forest _ Hs) as Hf. pose proof (co_id _ Hs) as Hid.
  pose proof (walk_below _ _ _ _ _ Hf ltac:(lia) Hw) as Hb.
  destruct (touch_calls_ok (tid, parent, a) st s Hs ltac:(simpl; lia) Hn)
    as (c' & s' & Ht & Hs' & Hle & Hsame & Hfind & Hc').
  assert (match find_call s (tid, parent, a) with
    | Some c => c' = add_to st c
    | None => c' = add_to st (mk_call (next_id s) tid parent a function_statistics_default)
    end) as Hc by (rewrite Hc'; by destruct (find_call s (tid, parent, a))).
  pose proof (touched_keeps (find_call s) (find_call s') (next_id s) (tid, parent, a) st c' Hsame Hfind Hc) as Hkeep.
  exists (call_id c'), s'. split; [done|]. split.
  - split; [done|simpl; lia|apply Hkeep|]. intros t q' a'.
    rewrite (touched_stats (find_call s) (find_call s') (next_id s) (tid, parent, a) st c' Hf ltac:(lia)
      Hsame Hfind Hc q t q' a' Hw). simpl. unfold added. simpl.
    destruct (decide (t = tid)) as [->|Ht']; [|by rewrite decide_False by congruence].
    destruct (decide (q ++ [a] = q' ++ [a'])) as [[-> [= ->]]%app_inj_tail|Hne].
    + by rewrite decide_True.
    + rewrite decide_False; [done|]. congruence.
  - by rewrite walk_snoc, (Hkeep _ _ _ Hw); simpl; rewrite Hfind.
Qed.

Lemma forest_nodes_cons p g gs : forest_nodes p (g :: gs) = nodes_of p g ++ forest_nodes p gs.
Proof. done. Qed.

Definition node_reads (g : graph) : Prop := ∀ tid q parent s,
  calls_ok s → walk (find_call s) tid q = Some parent → next_id s + len (nodes_of q g) < 2 ^ 32 →
  ∃ s', read_node tid parent g s = Ret s' ∧ effect tid (nodes_of q g) s s'.

Lemma forest_reads gs : Forall node_reads gs → ∀ tid q parent s,
  calls_ok s → walk (find_call s) tid q = Some parent → next_id s + len (forest_nodes q gs) < 2 ^ 32 →
  ∃ s', fold_m (λ s g, read_node tid parent g s) s gs = Ret s' ∧ effect tid (forest_nodes q gs) s s'.
Proof.
  induction 1 as [|g gs Hg _ IH]; intros tid q parent s Hs Hw; [exists s; by split; [|apply effect_nil]|].
  rewrite forest_nodes_cons, length_app. intros Hn.
  destruct (Hg tid q parent s Hs Hw ltac:(lia)) as (s1 & Hr & He). simpl. rewrite Hr. simpl.
  pose proof (ef_id _ _ _ _ He).
  destruct (IH tid q parent s1 (ef_ok _ _ _ _ He) (ef_walk _ _ _ _ He _ _ _ Hw) ltac:(lia)) as (s2 & Hr2 & He2).
  exists s2. split; [done|]. by eapply effect_app.
Qed.

Lemma read_node_ok g : node_reads g.
Proof.
  induction g as [a st cs IH] using graph_ind. intros tid q parent s Hs Hw Hn.
  change (nodes_of q (node a st cs)) with ([(q ++ [a], st)] ++ forest_nodes (q ++ [a]) cs) in *.
  rewrite length_app in Hn. simpl length in Hn.
  destruct (touch_effect tid q parent a st s Hs Hw ltac:(lia)) as (id & s1 & Ht & He & Hid).
  pose proof (ef_id _ _ _ _ He) as Hle. simpl in Hle.
  destruct (forest_reads cs IH tid (q ++ [a]) id s1 (ef_ok _ _ _ _ He) Hid ltac:(lia)) as (s2 & Hr & He2).
  exists s2. split; [|by eapply effect_app]. cbn [read_node]. rewrite Ht. exact Hr.
Qed.

Lemma read_forest_ok gs tid s : calls_ok s → next_id s + len (forest_nodes [] gs) < 2 ^ 32 →
  ∃ s', fold_m (λ s g, read_node tid 0 g s) s gs = Ret s' ∧ effect tid (forest_nodes [] gs) s s'.
Proof.
  intros Hs Hn. apply forest_reads; [|done..]. apply Forall_forall. intros g _. apply read_node_ok.
Qed.

Lemma added_other p l : p ∉ l.*1 → ∀ o, added p l o = o.
Proof.
  unfold added. induction l as [|[q st] l IH]; intros Hp o; [done|]. simpl in *.
  apply not_elem_of_cons in Hp as [Hq Hp]. rewrite decide_False by done. by apply IH.
Qed.

(** A graph has every node once. *)
Lemma added_once p l o : NoDup l.*1 →
  added p l o = match (list_to_map l : nodes_map) !! p with
    | Some st => Some (add_stats (default function_statistics_default o) st)
    | None => o
    end.
Proof.
  revert o. induction l as [|[q st] l IH]; intros o Hl; [done|]. simpl in Hl.
  apply NoDup_cons in Hl as [Hq Hl]. simpl list_to_map. unfold added. simpl.
  destruct (decide (q = p)) as [->|Hne].
  - rewrite lookup_insert_eq. by apply added_other.
  - rewrite lookup_insert_ne by done. by apply IH.
Qed.

(** ** The statistics of all threads *)

(** What the table says of every thread. *)
Definition holds (s : calls_table) (M : Z → nodes_map) : Prop :=
  ∀ tid q a, stats_at (find_call s) tid q a = M tid !! (q ++ [a]).

(** [w] is what is sent of the graphs of some threads: of each of them once. *)
Record carries (w : list (Z * list graph)) (nodes : gmap Z nodes_map) : Prop := {
  ca_once : NoDup w.*1;
  ca_all tid : tid ∈ w.*1 ↔ is_Some (nodes !! tid);
  ca_sends tid gs m : (tid, gs) ∈ w → nodes !! tid = Some m → sends gs m;
}.

(** The nodes that are sent. *)
Definition message_size (w : list (Z * list graph)) : Z :=
  len (concat (map (λ item, forest_nodes [] item.2) w)).

Lemma message_size_cons item w : message_size (item :: w) = len (forest_nodes [] item.2) + message_size w.
Proof. unfold message_size. simpl. rewrite length_app. lia. Qed.

Definition with_thread (tid : Z) (m : nodes_map) (M : Z → nodes_map) (t : Z) : nodes_map :=
  if decide (t = tid) then merge_nodes (M t) m else M t.

Lemma add_stats_default_l a : wf_stats a → add_stats function_statistics_default a = a.
Proof. intros. rewrite add_stats_comm. by apply add_stats_default_r. Qed.

Lemma effect_holds tid gs m s s' M : sends gs m → wf_nodes m → holds s M →
  effect tid (forest_nodes [] gs) s s' → holds s' (with_thread tid m M).
Proof.
  intros [Hn Hm] Hwf Hs He t q a. rewrite (ef_stats _ _ _ _ He). unfold with_thread.
  case_decide; [|apply Hs]. rewrite Hs, added_once by done. rewrite Hm, lookup_merge.
  destruct (M t !! (q ++ [a])), (m !! (q ++ [a])) as [st|] eqn:E; simpl; try done.
  f_equal. apply add_stats_default_l. by apply (Hwf (q ++ [a])).
Qed.

(** Reading the threads one by one. *)
Lemma read_threads_ok w : ∀ s M threads first_ (graphs : Z → nodes_map),
  calls_ok s → holds s M → next_id s + message_size w < 2 ^ 32 →
  Forall (λ item, sends item.2 (graphs item.1) ∧ wf_nodes (graphs item.1)) w →
  ∃ s' first', fold_m read_thread (s, threads, first_) w =
      Ret (s', (if first_ then if w is [] then threads else [] else threads) ++ w.*1, first') ∧
    calls_ok s' ∧ holds s' (foldl (λ M t, with_thread t (graphs t) M) M w.*1) ∧
    next_id s ≤ next_id s' ≤ next_id s + message_size w.
Proof.
  induction w as [|[tid gs] w IH]; intros s M threads first_ graphs Hs Hh Hn Hw.
  { exists s, first_. simpl. rewrite app_nil_r. change (message_size []) with 0.
    split_and!; [by destruct first_|done|done|lia..]. }
  apply Forall_cons in Hw as [[Hsend Hwf] Hw]. rewrite message_size_cons in Hn |- *. simpl in Hsend, Hwf, Hn |- *.
  assert (0 ≤ message_size w) by (unfold message_size; lia).
  destruct (read_forest_ok gs tid s Hs ltac:(lia)) as (s1 & Hr & He). rewrite Hr. simpl.
  pose proof (ef_id _ _ _ _ He).
  destruct (IH s1 (with_thread tid (graphs tid) M) ((if first_ then [] else threads) ++ [tid]) false graphs
    (ef_ok _ _ _ _ He) (effect_holds _ _ _ _ _ _ Hsend Hwf Hh He) ltac:(lia) Hw)
    as (s2 & f2 & Hr2 & Hs2 & Hh2 & Hn2).
  exists s2, f2. rewrite Hr2. split_and!; [|done|done|lia..]. do 3 f_equal. by rewrite <- app_assoc.
Qed.

Lemma with_threads (graphs : Z → nodes_map) l t : NoDup l → ∀ M : Z → nodes_map,
  foldl (λ M t, with_thread t (graphs t) M) M l t =
    if decide (t ∈ l) then merge_nodes (M t) (graphs t) else M t.
Proof.
  induction 1 as [|x l Hx _ IH]; intros M; cbn [foldl].
  { case_decide as Hc; [|done]. by apply elem_of_nil in Hc. }
  rewrite IH. unfold with_thread. destruct (decide (t = x)) as [->|Hne].
  - rewrite decide_False by done. destruct (decide (x ∈ x :: l)) as [|Hc]; [done|]. destruct Hc. by left.
  - destruct (decide (t ∈ l)) as [Hl|Hl], (decide (t ∈ x :: l)) as [Hc|Hc]; try done.
    + destruct Hc. by right.
    + by apply elem_of_cons in Hc as [|].
Qed.

Lemma holds_ext s M M' : (∀ t, M t = M' t) → holds s M → holds s M'.
Proof. intros H Hs t q a. by rewrite Hs, H. Qed.


(** A message of statistics is added, graph by graph, to what the table holds. *)
Lemma read_statistics_ok w nodes s M threads :
  calls_ok s → holds s M → next_id s + message_size w < 2 ^ 32 → carries w nodes →
  map_Forall (λ _, wf_nodes) nodes →
  ∃ s', read_statistics w s threads = Ret (s', if w is [] then threads else w.*1) ∧
    calls_ok s' ∧ holds s' (λ t, merge_nodes (M t) (default ∅ (nodes !! t))) ∧
    next_id s ≤ next_id s' ≤ next_id s + message_size w.
Proof.
  intros Hs Hh Hn [Honce Hall Hsend] Hwf. set (graphs t := default ∅ (nodes !! t) : nodes_map).
  destruct (read_threads_ok w s M threads true graphs Hs Hh Hn) as (s1 & f1 & Hr & Hs1 & Hh1 & Hn1).
  { apply Forall_forall. intros [t gs] Hin. simpl.
    assert (is_Some (nodes !! t)) as [m Hm] by (apply Hall, list_elem_of_fmap; by exists (t, gs)).
    unfold graphs. rewrite Hm. split; [by apply (Hsend t)|by apply (Hwf t)]. }
  exists (mk_calls (calls s1) (by_node s1) (next_id s1) (S (invalidated s1))). unfold read_statistics.
  rewrite Hr. split_and!; [by destruct w; rewrite ?app_nil_r|by destruct Hs1| |apply Hn1..].
  eapply holds_ext, Hh1. intros t. rewrite (with_threads graphs) by done.
  case_decide as Ht; [done|]. rewrite Hall in Ht. apply eq_None_not_Some in Ht. rewrite Ht. simpl.
  by rewrite merge_empty_r.
Qed.

(** * Sending *)

(** A graph from the nodes of a thread; [n] bounds the depth. *)
(** The nodes below a path, as its iterators give them. *)
Fixpoint graphs_of (n : nat) (m : nodes_map) (p : path) : list graph :=
  match n with
  | O => []
  | S n => map (λ e, node (default 0 (last e.1)) e.2 (graphs_of n m e.1))
      (filter (λ e, e.1 ≠ [] ∧ parent_path e.1 = p) (map_to_list m))
  end.

Section sending.
Context (m : nodes_map) (Hm : rooted m).

Definition below (n : nat) (p : path) : list (path * function_statistics) := forest_nodes p (graphs_of n m p).

Lemma concat_bind {A B} (f : A → list B) (l : list A) : concat (map f l) = l ≫= f.
Proof. induction l; simpl; [done|]. by f_equal. Qed.

Lemma bind_ext_elem {A B} (f g : A → list B) (l : list A) : (∀ x, x ∈ l → f x = g x) → l ≫= f = l ≫= g.
Proof.
  induction l as [|x l IH]; intros H; [done|]. cbn. rewrite (H x) by (by left). f_equal.
  apply IH. intros. apply H. by right.
Qed.

(** The callees of a node, with what is below them. *)
Lemma below_S n p :
  below (S n) p = filter (λ e, e.1 ≠ [] ∧ parent_path e.1 = p) (map_to_list m) ≫= λ e, e :: below n e.1.
Proof.
  unfold below. simpl. unfold forest_nodes at 1. rewrite map_map, concat_bind. apply bind_ext_elem.
  assert (∀ e, e ∈ filter (λ e, e.1 ≠ [] ∧ parent_path e.1 = p) (map_to_list m) →
    p ++ [default 0 (last e.1)] = e.1) as He.
  { intros [q st] [[Hq <-] _]%list_elem_of_filter. simpl in *.
    destruct q as [|a q _] using rev_ind; [done|]. rewrite last_snoc. unfold parent_path.
    rewrite length_app. simpl. by rewrite Nat.add_sub, take_app_length. }
  intros e Hin. simpl. rewrite (He e Hin). by destruct e.
Qed.

Lemma rooted_prefix p r : p ≠ [] → is_Some (m !! (p ++ r)) → is_Some (m !! p).
Proof using Hm.
  intros Hp. induction r as [|a r IH] using rev_ind; [by rewrite app_nil_r|]. rewrite app_assoc.
  intros H. apply Hm in H as [H|H]; [|by apply IH]. by destruct p.
Qed.

Lemma below_elem n : ∀ p q st, (q, st) ∈ below n p ↔
  m !! q = Some st ∧ ∃ r, q = p ++ r ∧ (0 < length r ≤ n)%nat.
Proof using Hm.
  induction n as [|n IH]; intros p q st.
  { split; [by intros ?%elem_of_nil|]. intros (_ & r & _ & ?). lia. }
  rewrite below_S, list_elem_of_bind. split.
  - intros ([q1 st1] & Hin & [[Hq <-] Hl]%list_elem_of_filter). simpl in *. apply elem_of_map_to_list in Hl.
    destruct q1 as [|a q1 _] using rev_ind; [done|]. unfold parent_path.
    rewrite length_app. simpl. rewrite Nat.add_sub, take_app_length.
    apply elem_of_cons in Hin as [[= -> ->]|(Hq1 & r & -> & Hr)%IH].
    + split; [done|]. exists [a]. split; [done|]. simpl. lia.
    + split; [done|]. exists (a :: r). rewrite <- app_assoc. split; [done|]. simpl. lia.
  - intros (Hl & [|a r] & -> & Hr); simpl in Hr; [lia|].
    assert (is_Some (m !! (p ++ [a]))) as [st1 H1].
    { apply (rooted_prefix _ r); [by destruct p|]. rewrite <- app_assoc. by eexists. }
    exists (p ++ [a], st1). split.
    + apply elem_of_cons. simpl. destruct r as [|b r]; [left; congruence|right]. apply IH. split; [done|].
      exists (b :: r). rewrite <- app_assoc. split; [done|]. simpl in *. lia.
    + apply list_elem_of_filter. simpl. split; [|by apply elem_of_map_to_list]. split; [by destruct p|].
      unfold parent_path. rewrite length_app. simpl. by rewrite Nat.add_sub, take_app_length.
Qed.

Lemma below_once n : ∀ p, NoDup (below n p).
Proof using Hm.
  induction n as [|n IH]; intros p; [by apply NoDup_nil|]. rewrite below_S. apply NoDup_bind.
  - intros [q1 s1] [q2 s2] [q st] [[Hn1 Hp1] Hl1]%list_elem_of_filter [[Hn2 Hp2] Hl2]%list_elem_of_filter H1 H2.
    simpl in *. apply elem_of_map_to_list in Hl1, Hl2.
    assert (∀ q0 s0, (q, st) ∈ (q0, s0) :: below n q0 → ∃ r, q = q0 ++ r) as Hpre.
    { intros q0 s0 [[= -> _]|(_ & r & -> & _)%below_elem]%elem_of_cons; [|by exists r].
      exists []. by rewrite app_nil_r. }
    apply Hpre in H1 as [r1 ->], H2 as [r2 Hq]. unfold parent_path in *.
    destruct q1 as [|a1 q1 _] using rev_ind; [done|]. destruct q2 as [|a2 q2 _] using rev_ind; [done|].
    rewrite !length_app in *. simpl in *. rewrite !Nat.add_sub, !take_app_length in *. subst q2 q1.
    rewrite <- !app_assoc in Hq. apply app_inv_head in Hq. injection Hq as -> _. congruence.
  - intros [q st] _. apply NoDup_cons. split; [|apply IH].
    intros (_ & r & Hr & Hl)%below_elem. simpl in Hr. apply (f_equal length) in Hr. rewrite length_app in Hr. lia.
  - apply NoDup_filter, NoDup_map_to_list.
Qed.

(** Deep enough, all of a graph is sent. *)
Lemma graphs_of_sends n : map_Forall (λ q _, (length q ≤ n)%nat) m → sends (graphs_of n m []) m.
Proof using Hm.
  intros Hd. assert (NoDup (below n []).*1) as Hn.
  { apply NoDup_fmap_2_strong; [|apply below_once].
    intros [q s1] [q' s2] [H1 _]%below_elem [H2 _]%below_elem Hq. simpl in Hq. congruence. }
  split; [done|]. apply map_eq. intros q. apply option_eq. intros st.
  rewrite <- elem_of_list_to_map by done. change (forest_nodes [] (graphs_of n m [])) with (below n []).
  rewrite below_elem. split; [by intros [? _]|]. intros Hq. split; [done|]. exists q. split; [done|].
  split; [|by apply (Hd q st)]. destruct q; [|simpl; lia]. destruct Hm as [Hr _]. congruence.
Qed.
End sending.
