(* ===== verification/CollectorApp.v ===== *)
(** The application of the collector (collector/src/collector_app.cpp,
    collector/src/active_server_app.cpp): the thread that serves the front-end in the profiled
    process.

    [collector_app] puts the parts of the collector together: what the calls collector has read goes
    to the analyzer (Analyzer), the requests of the front-end are answered from the analyzer, the
    module tracker (ModuleTracker), the thread monitor and the patch manager (Threads,
    PatchManager).  [active_server_app] runs all of it as tasks of one queue (Scheduler) on one
    thread, until the process asks it to stop and the front-end has gone. *)

From S2P Require Import Prelude Intel Jumper Statistics ShadowStack Analyzer ModuleTracker Threads PatchManager.
Local Open Scope Z_scope.

(** * The requests of the front-end *)

Section collector_app.
Context (junk : stack_record).
Context {F : Type} `{HCF : Countable F} (file_id : string → F) (file : string → list Z).
Context (accessor : Z → thread_info → thread_info).
Context {W P : Type} {po : patch_ops W P}.

(** What [load_image_info] finds in a file: its functions and its source files, in the order they
    are enumerated. *)
Context {Sym : Type} (load_image_info : string → result (list Sym * list (Z * string))).

(** [common/protocol.h:70-76] module_info_metadata. *)
Record module_metadata := mk_module_metadata {
  md_path : string;
  md_hash : Z;
  md_symbols : list Sym;
  md_files : gmap Z string;
}.

(** [common/protocol.h:33-53] messages_id. The requests that have a handler; a [patch_request] is an
    image and the offsets of functions. *)
Inductive app_request :=
  | q_update
  | q_metadata (persistent_id : Z)
  | q_threads (ids : list Z)
  | q_apply (image : Z) (functions : list Z)
  | q_revert (image : Z) (functions : list Z).

(** What is sent in response: of the analyzer, the statistics of every thread. *)
(** [common/protocol.h:33-53] messages_id. The responses. *)
Inductive app_response :=
  | a_loaded (modules : list (Z * mapped_module_ex))
  | a_statistics (nodes : gmap Z nodes_map)
  | a_unloaded (instances : list Z)
  | a_metadata (md : module_metadata)
  | a_threads (infos : list (Z * thread_info))
  | a_patched (results : list (Z * patch_apply))
  | a_reverted (results : list (Z * patch_result)).

(** The trackers live with the handlers of the session, the monitor and the manager with the
    process. *)
(** [collector/collector_app.h:33-52] collector_app. *)
Record app := mk_app {
  tracker : module_tracker (F := F);
  analysis : analyzer;
  monitor : thread_monitor;
  patches : manager (W := W) (P := P) (L := Z * mapped_module_ex);
}.

(** [insert] keeps what is there. *)
(** [collector/src/collector_app.cpp:86-88] collector_app::initialize_session. *)
Definition add_files (files : list (Z * string)) : gmap Z string :=
  foldl (λ m f, match m !! f.1 with Some _ => m | None => <[f.1 := f.2]> m end) ∅ files.

(** [collector/src/collector_app.cpp:62-70] collector_app::initialize_session. *)
Definition handle_update (snapshot : list mapped_module) (a : app) : result (app * list app_response) :=
  '(loaded, unloaded, t) ← get_changes file_id file snapshot (tracker a);
  Ret (mk_app t (clear (analysis a)) (monitor a) (patches a),
    (if loaded is [] then [] else [a_loaded loaded]) ++
    [a_statistics (statistics <$> threads (analysis a))] ++
    (if unloaded is [] then [] else [a_unloaded unloaded])).

(** A module that is not registered has no metadata; its mapping is looked up first, which throws. *)
(** [collector/src/collector_app.cpp:72-90] collector_app::initialize_session. *)
Definition handle_metadata (id : Z) (a : app) : result (app * list app_response) :=
  l ← lock_mapping id (tracker a);
  path ← match get_metadata id (tracker a) with Some path => Ret path | None => UB end;
  '(functions, files) ← load_image_info path;
  Ret (a, [a_metadata (mk_module_metadata (path_ l.2) (hash_ l.2) functions (add_files files))]).

(** [collector/src/collector_app.cpp:92-98] collector_app::initialize_session. *)
Definition handle_threads (ids : list Z) (a : app) : result (app * list app_response) :=
  infos ← get_info accessor ids (monitor a);
  Ret (a, [a_threads infos]).

Definition with_patches (a : app) (m : manager (W := W) (P := P)) : app :=
  mk_app (tracker a) (analysis a) (monitor a) m.

(** [collector/src/collector_app.cpp:100-110] collector_app::initialize_session. *)
Definition handle_apply (image : Z) (functions : list Z) (a : app) : result (app * list app_response) :=
  l ← lock_mapping image (tracker a);
  let '(m, results, r) := apply image (base_ l.2) l functions (patches a) in
  _ ← r;
  Ret (with_patches a m, [a_patched results]).

(** [collector/src/collector_app.cpp:112-119] collector_app::initialize_session. *)
Definition handle_revert (image : Z) (functions : list Z) (a : app) : result (app * list app_response) :=
  let '(m, results, r) := revert_patches image functions (patches a) in
  _ ← r;
  Ret (with_patches a m, [a_reverted results]).

(** The handlers of a session; [snapshot] is what the system says is mapped when one is called. *)
(** [collector/src/collector_app.cpp:50-119] collector_app::initialize_session. *)
Definition handle (snapshot : list mapped_module) (q : app_request) (a : app) :
    result (app * list app_response) :=
  match q with
  | q_update => handle_update snapshot a
  | q_metadata id => handle_metadata id a
  | q_threads ids => handle_threads ids a
  | q_apply image functions => handle_apply image functions a
  | q_revert image functions => handle_revert image functions a
  end.

(** What the collector has read, by threads, goes to the analyzer. *)
(** [collector/src/collector_app.cpp:144-144] collector_app::collect_and_reschedule. *)
Definition collect_calls (reads : list (Z * list call_record)) (a : app) : result app :=
  an ← fold_m (λ an r, accept_calls junk r.1 r.2 an) (analysis a) reads;
  Ret (mk_app (tracker a) an (monitor a) (patches a)).

(** * The thread that serves *)

(** [collector/src/collector_app.cpp:122-130] collector_app::initialize_session. The messages that no
    request asks for. *)
Inductive app_message := m_init | m_response (r : app_response) | m_exiting.

(** [session] says that there is a session still; [deferred] are the delays of the collections that
    were scheduled. *)
(** [collector/active_server_app.h:55-60] active_server_app. *)
Record app_server := mk_app_server {
  app_ : app;
  session : bool;
  exit_requested : bool;
  exit_confirmed : bool;
  deferred : list Z;
  sent : list app_message;
}.

(** A task of the queue, with what it finds when it is run: what the collector has read, what the
    system says is mapped. *)
Inductive app_task :=
  | t_collect (reads : list (Z * list call_record))
  | t_request (snapshot : list mapped_module) (q : app_request)
  | t_disconnected
  | t_exit (reads : list (Z * list call_record)).

(** The session is made before the first task is run. *)
(** [collector/src/active_server_app.cpp:91-98] active_server_app::worker. *)
Definition start (a : app) : app_server := mk_app_server a true false false [10] [m_init].

(** [collector/src/collector_app.cpp:142-146] collector_app::collect_and_reschedule. *)
Definition collect_and_reschedule (reads : list (Z * list call_record)) (s : app_server) :
    result app_server :=
  a ← collect_calls reads (app_ s);
  Ret (mk_app_server a (session s) (exit_requested s) (exit_confirmed s) (deferred s ++ [10]) (sent s)).

(** [collector/src/collector_app.cpp:135-140] collector_app::finalize_session. *)
Definition finalize_session (reads : list (Z * list call_record)) (s : app_server) :
    result (bool * app_server) :=
  a ← collect_calls reads (app_ s);
  Ret (true, mk_app_server a (session s) (exit_requested s) (exit_confirmed s) (deferred s)
    (sent s ++ [m_exiting])).

(** [collector/src/active_server_app.cpp:64-68] active_server_app::~active_server_app. The task. *)
Definition exit_task (reads : list (Z * list call_record)) (s : app_server) : result app_server :=
  '(requested, s) ← (if session s then finalize_session reads s else Ret (false, s));
  Ret (if (requested : bool)
    then mk_app_server (app_ s) (session s) true (exit_confirmed s) (deferred s) (sent s)
    else mk_app_server (app_ s) (session s) (exit_requested s) true (deferred s) (sent s)).

(** [collector/src/active_server_app.cpp:80-89] active_server_app::worker. *)
Definition frontend_disconnected (s : app_server) : result app_server :=
  Ret (mk_app_server (app_ s) false (exit_requested s)
    (if exit_requested s then true else exit_confirmed s) (deferred s) (sent s)).

(** A session that is gone gets no messages. *)
Definition request_task (snapshot : list mapped_module) (q : app_request) (s : app_server) :
    result app_server :=
  if session s then
    '(a, rs) ← handle snapshot q (app_ s);
    Ret (mk_app_server a (session s) (exit_requested s) (exit_confirmed s) (deferred s)
      (sent s ++ map m_response rs))
  else Ret s.

(** Nobody catches what a task throws: it ends the process. *)
Definition serve_task (s : app_server) (t : app_task) : result app_server :=
  match t with
  | t_collect reads => collect_and_reschedule reads s
  | t_request snapshot q => request_task snapshot q s
  | t_disconnected => frontend_disconnected s
  | t_exit reads => exit_task reads s
  end.

(** The tasks come in the batches of [execute_ready]; [None] when it is waiting for more. *)
(** [collector/src/active_server_app.cpp:101-105] active_server_app::worker. *)
Fixpoint worker (batches : list (list app_task)) (s : app_server) : result (option app_server) :=
  match batches with
  | [] => Ret None
  | b :: batches =>
    s ← fold_m serve_task s b;
    if exit_confirmed s then Ret (Some s) else worker batches s
  end.

(** ** Nothing that was collected is lost *)

(** What the tasks did with the calls of a thread: the batches that were read of it, and where the
    statistics went to the front-end. [here] says that the session is there still. *)
Fixpoint thread_ops (tid : Z) (here : bool) (tasks : list app_task) : list thread_op :=
  let reads_of reads := map (λ r, Batch r.2) (filter (λ r, r.1 = tid) reads) in
  match tasks with
  | [] => []
  | t_collect reads :: tasks => reads_of reads ++ thread_ops tid here tasks
  | t_exit reads :: tasks => (if here then reads_of reads else []) ++ thread_ops tid here tasks
  | t_request _ q_update :: tasks => (if here then [Read] else []) ++ thread_ops tid here tasks
  | t_request _ _ :: tasks => thread_ops tid here tasks
  | t_disconnected :: tasks => thread_ops tid false tasks
  end.

(** The statistics of a thread that the front-end was sent, added up. *)
Definition received (tid : Z) (ms : list app_message) : nodes_map :=
  foldl (λ m x, match x with
    | m_response (a_statistics nodes) => merge_nodes m (default ∅ (nodes !! tid))
    | _ => m
    end) ∅ ms.

Definition thread_of (tid : Z) (an : analyzer) : thread_analyzer :=
  default (new_thread_analyzer junk (overhead_ an)) (threads an !! tid).

Lemma received_app tid ms r :
  received tid (ms ++ [r]) = match r with
    | m_response (a_statistics nodes) => merge_nodes (received tid ms) (default ∅ (nodes !! tid))
    | _ => received tid ms
    end.
Proof. unfold received. by rewrite foldl_app. Qed.

Lemma received_other tid ms rs : (∀ nodes, a_statistics nodes ∉ rs) →
  received tid (ms ++ map m_response rs) = received tid ms.
Proof.
  revert ms. induction rs as [|r rs IH]; intros ms Hr; [by rewrite app_nil_r|].
  cbn [map]. rewrite cons_middle, app_assoc, IH by (intros n Hn; apply (Hr n); by right).
  rewrite received_app. destruct r; try done. destruct (Hr nodes). by left.
Qed.

Lemma accept_thread tid t calls an an' : accept_calls junk t calls an = Ret an' →
  overhead_ an' = overhead_ an ∧
  (if decide (t = tid) then thread_accept_calls calls (thread_of tid an) = Ret (thread_of tid an')
   else thread_of tid an' = thread_of tid an).
Proof.
  unfold accept_calls, thread_of. destruct (thread_accept_calls _ _) as [x| |] eqn:E; simpl; [|done..].
  intros [= <-]. split; [done|]. simpl. case_decide; subst; [by rewrite lookup_insert_eq|].
  by rewrite lookup_insert_ne.
Qed.

Lemma collect_thread tid reads : ∀ an an' c,
  fold_m (λ an r, accept_calls junk r.1 r.2 an) an reads = Ret an' →
  overhead_ an' = overhead_ an ∧
  fold_m run_op (thread_of tid an, c) (map (λ r, Batch r.2) (filter (λ r, r.1 = tid) reads)) =
    Ret (thread_of tid an', c).
Proof.
  induction reads as [|[t calls] reads IH]; intros an an' c; cbn [fold_m fst snd]; [by intros [= <-]|].
  destruct (accept_calls junk t calls an) as [an1| |] eqn:E; simpl; [|done..].
  intros [Hov Hr]%(IH _ _ c). destruct (accept_thread tid _ _ _ _ E) as [Hov1 Ht].
  split; [congruence|]. case_decide as Hd.
  - rewrite filter_cons_True by done. simpl. by rewrite Ht.
  - rewrite filter_cons_False by done. by rewrite <- Ht.
Qed.

Definition view (tid : Z) (s : app_server) : thread_analyzer * nodes_map :=
  (thread_of tid (analysis (app_ s)), received tid (sent s)).

Lemma read_collected_thread tid reads a a' c : collect_calls reads a = Ret a' →
  overhead_ (analysis a') = overhead_ (analysis a) ∧ tracker a' = tracker a ∧
  fold_m run_op (thread_of tid (analysis a), c) (map (λ r, Batch r.2) (filter (λ r, r.1 = tid) reads)) =
    Ret (thread_of tid (analysis a'), c).
Proof.
  unfold collect_calls. destruct (fold_m _ _ reads) as [an| |] eqn:E; simpl; [|done..].
  intros [= <-]. destruct (collect_thread tid _ _ _ c E). done.
Qed.

(** Only an update touches the analyzer and sends statistics. *)
Lemma handle_other snapshot q a a' rs : q ≠ q_update → handle snapshot q a = Ret (a', rs) →
  analysis a' = analysis a ∧ tracker a' = tracker a ∧ Forall (λ r, match r with
    a_statistics _ | a_loaded _ | a_unloaded _ => False | _ => True end) rs.
Proof.
  intros Hq. destruct q as [|id|ids|image fs|image fs]; [done|..]; simpl.
  - unfold handle_metadata. destruct (lock_mapping _ _); simpl; [|done..].
    destruct (get_metadata _ _); simpl; [|done..]. destruct (load_image_info _) as [[fs files]| |]; simpl; [|done..].
    intros [= <- <-]. by repeat constructor.
  - unfold handle_threads. destruct (get_info _ _ _); simpl; [|done..].
    intros [= <- <-]. by repeat constructor.
  - unfold handle_apply. destruct (lock_mapping _ _) as [l| |]; simpl; [|done..].
    destruct (apply _ _ _ _ _) as [[m results] r]. destruct r; simpl; [|done..].
    intros [= <- <-]. by repeat constructor.
  - unfold handle_revert. destruct (revert_patches _ _ _) as [[m results] r]. destruct r; simpl; [|done..].
    intros [= <- <-]. by repeat constructor.
Qed.

Lemma thread_of_clear tid an : thread_of tid (clear an) = thread_clear (thread_of tid an).
Proof. unfold thread_of, clear. simpl. rewrite lookup_fmap. by destruct (threads an !! tid). Qed.

Lemma statistics_of tid an :
  default ∅ ((statistics <$> threads an) !! tid) = statistics (thread_of tid an).
Proof. unfold thread_of. rewrite lookup_fmap. by destruct (threads an !! tid). Qed.

Lemma received_update tid ms loaded unloaded nodes :
  received tid (ms ++ map m_response ((if loaded is [] then [] else [a_loaded loaded]) ++
    a_statistics nodes :: (if unloaded is [] then [] else [a_unloaded unloaded]))) =
  merge_nodes (received tid ms) (default ∅ (nodes !! tid)).
Proof. unfold received. rewrite foldl_app. by destruct loaded, unloaded. Qed.

Lemma request_ops tid snapshot q s s' tasks : request_task snapshot q s = Ret s' →
  fold_m run_op (view tid s) (thread_ops tid (session s) (t_request snapshot q :: tasks)) =
    fold_m run_op (view tid s') (thread_ops tid (session s') tasks) ∧
  overhead_ (analysis (app_ s')) = overhead_ (analysis (app_ s)).
Proof.
  unfold request_task. destruct (session s) eqn:Hs; [|intros [= <-]; rewrite Hs; by destruct q].
  destruct (handle snapshot q (app_ s)) as [[a rs]| |] eqn:Hh; simpl; [|done..]. intros [= <-].
  unfold view. cbn [app_ session sent].
  assert (q = q_update ∨ q ≠ q_update) as [->|Hq] by (destruct q; [by left|by right..]).
  - simpl in Hh. unfold handle_update in Hh.
    destruct (get_changes _ _ _ _) as [[[loaded unloaded] t]| |]; simpl in Hh; [|done..].
    apply Ret_inj in Hh. injection Hh as <- <-. cbn [analysis].
    rewrite received_update, statistics_of, thread_of_clear. done.
  - destruct (handle_other _ _ _ _ _ Hq Hh) as (-> & _ & Hrs). rewrite received_other.
    + by destruct q.
    + intros nodes Hn. rewrite Forall_forall in Hrs. by apply Hrs in Hn.
Qed.

Lemma task_ops tid s t s' tasks : serve_task s t = Ret s' →
  fold_m run_op (view tid s) (thread_ops tid (session s) (t :: tasks)) =
    fold_m run_op (view tid s') (thread_ops tid (session s') tasks) ∧
  overhead_ (analysis (app_ s')) = overhead_ (analysis (app_ s)).
Proof.
  destruct t as [reads|snapshot q| |reads]; [|apply request_ops|by intros [= <-]|]; simpl.
  - unfold collect_and_reschedule. destruct (collect_calls reads (app_ s)) as [a| |] eqn:E; simpl; [|done..].
    intros [= <-]. destruct (read_collected_thread tid _ _ _ (received tid (sent s)) E) as (? & _ & Hf).
    split; [|done]. unfold view at 1. by rewrite fold_m_app, Hf.
  - unfold exit_task. destruct (session s) eqn:Hs; [|intros [= <-]; by rewrite Hs].
    unfold finalize_session. destruct (collect_calls reads (app_ s)) as [a| |] eqn:E; simpl; [|done..].
    intros [= <-]. destruct (read_collected_thread tid _ _ _ (received tid (sent s)) E) as (? & _ & Hf).
    split; [|done]. unfold view at 1. rewrite fold_m_app, Hf. unfold view. cbn [app_ session sent].
    by rewrite received_app, Hs.
Qed.

Lemma tasks_ops tid s tasks : ∀ s0, fold_m serve_task s0 tasks = Ret s →
  fold_m run_op (view tid s0) (thread_ops tid (session s0) tasks) = Ret (view tid s).
Proof.
  induction tasks as [|t tasks IH]; intros s0; [by intros [= ->]|]. cbn [fold_m].
  destruct (serve_task s0 t) as [s1| |] eqn:E; simpl; [|done..]. intros Hs.
  destruct (task_ops tid _ _ _ tasks E) as [Ht _]. simpl in Ht. rewrite Ht. by apply IH.
Qed.

Lemma start_ops o a tasks s tid :
  analysis a = new_analyzer o → fold_m serve_task (start a) tasks = Ret s →
  fold_m run_op (new_thread_analyzer junk o, ∅) (thread_ops tid true tasks) = Ret (view tid s).
Proof.
  intros Ha Hrun. apply (tasks_ops tid) in Hrun. unfold view, start in Hrun. simpl in Hrun.
  unfold thread_of at 1 in Hrun. by rewrite Ha in Hrun.
Qed.

(** C2: Whatever requests come between the collections, and whenever the front-end goes away: the
    statistics it was sent of a thread, added up with those that were not sent, are the statistics of
    analyzing at once all the calls that were collected of the thread. *)
Theorem updates_lossless o a tasks s tid :
  analysis a = new_analyzer o → fold_m serve_task (start a) tasks = Ret s →
  ∃ ss, update (shadow_stack_new o junk) (batches (thread_ops tid true tasks)) ∅ =
    Ret (ss, merge_nodes (received tid (sent s)) (statistics (thread_of tid (analysis (app_ s))))).
Proof.
  intros Ha Hrun. pose proof (start_ops o a tasks s tid Ha Hrun) as Hops.
  by apply (reads_merge junk o) in Hops.
Qed.

(** ** The front-end can follow the modules *)

(** What is mapped, as a front-end sees it that does what it is told, in the order it is told. *)
Definition follow (known : gmap Z mapped_module_ex) (m : app_message) : gmap Z mapped_module_ex :=
  match m with
  | m_response (a_loaded modules) => foldl (λ k x, <[x.1 := x.2]> k) known modules
  | m_response (a_unloaded instances) => foldl (λ k i, delete i k) known instances
  | _ => known
  end.

Definition followed (known : gmap Z mapped_module_ex) (t : module_tracker (F := F)) : Prop :=
  ∀ i m, known !! i = Some m ↔ ∃ id, mapped t id (i, m).

Lemma insert_all_lookup (l : list (Z * mapped_module_ex)) : ∀ (k : gmap Z mapped_module_ex) i,
  let r := foldl (λ k x, <[x.1 := x.2]> k) k l in
  (∀ m, r !! i = Some m → (i, m) ∈ l ∨ k !! i = Some m) ∧
  ((∃ m, (i, m) ∈ l) ∨ is_Some (k !! i) → is_Some (r !! i)).
Proof.
  induction l as [|[j x] l IH]; intros k i; simpl.
  - split; [by right|]. by intros [[m ?%elem_of_nil]|].
  - destruct (IH (<[j := x]> k) i) as [IH1 IH2]. split.
    + intros m [?|[[<- <-]|[? ?]]%lookup_insert_Some]%IH1; [left; by right|left; by left|by right].
    + intros Hor. apply IH2. destruct (decide (i = j)) as [->|]; [right; by rewrite lookup_insert_eq|].
      rewrite lookup_insert_ne by done. destruct Hor as [[m [[= ? ?]|?]%elem_of_cons]|?]; [done|left; eauto|by right].
Qed.

Lemma delete_all_lookup (l : list Z) : ∀ (k : gmap Z mapped_module_ex) i m,
  foldl (λ k i, delete i k) k l !! i = Some m ↔ k !! i = Some m ∧ i ∉ l.
Proof.
  induction l as [|j l IH]; intros k i m; simpl; [split; [|by intros [? _]]; split; [done|apply not_elem_of_nil]|].
  rewrite IH, lookup_delete_Some, not_elem_of_cons. split; [intros [[? ?] ?]|intros [? [? ?]]]; auto.
Qed.

(** The responses to one update, and the others, keep the picture exact. *)
Lemma follow_changes known t t' loaded unloaded :
  followed known t → tracker_ok file_id file t' →
  (∀ i m, (∃ id, mapped t' id (i, m)) ↔ ((∃ id, mapped t id (i, m)) ∨ (i, m) ∈ loaded) ∧ i ∉ unloaded) →
  followed (foldl (λ k i, delete i k) (foldl (λ k x, <[x.1 := x.2]> k) known loaded) unloaded) t'.
Proof.
  intros Hk Ht Hex i m. rewrite delete_all_lookup, Hex.
  destruct (insert_all_lookup loaded known i) as [H1 H2]. split.
  - intros [Hm Hi]. split; [|done]. apply H1 in Hm as [?|?%Hk]; auto.
  - intros [Hor Hi]. split; [|done].
    destruct H2 as [m' Hm'].
    { destruct Hor as [Hm%Hk|?]; [right; by exists m|left; by exists m]. }
    rewrite Hm'. f_equal.
    assert (∃ id, mapped t' id (i, m)) as [id Hid] by by apply Hex.
    assert (∃ id, mapped t' id (i, m')) as [id' Hid'].
    { apply Hex. split; [|done]. apply H1 in Hm' as [?|?%Hk]; auto. }
    pose proof (mapping_unique _ _ _ Ht _ _ _ _ _ Hid Hid') as <-.
    destruct Hid as (mi & Hmi & Hx), Hid' as (mi' & Hmi' & Hx'). congruence.
Qed.

Lemma follow_update known loaded unloaded nodes :
  foldl follow known (map m_response ((if loaded is [] then [] else [a_loaded loaded]) ++
    a_statistics nodes :: (if unloaded is [] then [] else [a_unloaded unloaded]))) =
  foldl (λ k i, delete i k) (foldl (λ k x, <[x.1 := x.2]> k) known loaded) unloaded.
Proof. by destruct loaded, unloaded. Qed.

Lemma follow_other rs known : Forall (λ r, match r with
    a_statistics _ | a_loaded _ | a_unloaded _ => False | _ => True end) rs →
  foldl follow known (map m_response rs) = known.
Proof. induction 1 as [|r rs Hr _ IH]; [done|]. simpl. by destruct r. Qed.

(** The modules that the tasks enumerate: what the identifiers must have room for. *)
Definition enumerated (tasks : list app_task) : Z :=
  foldr (λ t n, match t with t_request snapshot _ => len snapshot + n | _ => n end) 0 tasks.

Record modules_ok (room : Z) (s : app_server) : Prop := {
  mo_tracker : tracker_ok file_id file (tracker (app_ s));
  mo_followed : followed (foldl follow ∅ (sent s)) (tracker (app_ s));
  mo_instance : 0 ≤ next_instance_id (tracker (app_ s)) ∧
    next_instance_id (tracker (app_ s)) + room < 2 ^ 32 - 1;
  mo_persistent : 0 ≤ next_persistent_id (tracker (app_ s)) ∧
    next_persistent_id (tracker (app_ s)) + room < 2 ^ 32 - 1;
}.

Lemma modules_ok_sent room s s' m : modules_ok room s → tracker (app_ s') = tracker (app_ s) →
  (sent s' = sent s ∨ sent s' = sent s ++ [m]) → (∀ known, follow known m = known) → modules_ok room s'.
Proof.
  intros [] Ht Hs Hm. split; rewrite ?Ht; try done.
  destruct Hs as [->| ->]; [done|]. by rewrite foldl_app; simpl; rewrite Hm.
Qed.

Lemma request_modules_ok room snapshot q s s' : 0 ≤ room → modules_ok (len snapshot + room) s →
  request_task snapshot q s = Ret s' → modules_ok room s'.
Proof.
  intros Hroom Hok. unfold request_task. destruct (session s).
  2:{ intros [= <-]. destruct Hok. split; [done..|lia|lia]. }
  destruct (handle snapshot q (app_ s)) as [[a rs]| |] eqn:Hh; simpl; [|done..]. intros [= <-].
  assert (q = q_update ∨ q ≠ q_update) as [->|Hq] by (destruct q; [by left|by right..]).
  - simpl in Hh. unfold handle_update in Hh. destruct Hok as [Ht Hf Hi Hp].
    destruct (get_changes_ok file_id file snapshot (tracker (app_ s)) Ht)
      as (loaded & unloaded & t' & Hg & Ht' & Hex & _ & Hi' & Hp'); [lia..|].
    rewrite Hg in Hh. simpl in Hh. apply Ret_inj in Hh. injection Hh as <- <-.
    split; simpl; [done| |lia|lia]. rewrite foldl_app, follow_update. by eapply follow_changes.
  - destruct (handle_other _ _ _ _ _ Hq Hh) as (_ & Ht & Hrs). destruct Hok.
    split; simpl; rewrite ?Ht; [done| |lia|lia]. by rewrite foldl_app, follow_other.
Qed.

Lemma task_modules_ok room t tasks s s' : room = enumerated (t :: tasks) → modules_ok room s →
  serve_task s t = Ret s' → modules_ok (enumerated tasks) s'.
Proof.
  assert (0 ≤ enumerated tasks) as Hn.
  { clear. unfold enumerated. induction tasks as [|[] tasks IH]; simpl; lia. }
  intros -> Hok. destruct t as [reads|snapshot q| |reads]; simpl in *.
  - unfold collect_and_reschedule. destruct (collect_calls reads (app_ s)) as [a| |] eqn:E; simpl; [|done..].
    intros [= <-]. destruct (read_collected_thread 0 _ _ _ ∅ E) as (_ & Ht & _).
    apply (modules_ok_sent _ s _ m_init Hok); simpl; auto.
  - intros Hr. by eapply request_modules_ok.
  - intros [= <-]. apply (modules_ok_sent _ s _ m_init Hok); simpl; auto.
  - unfold exit_task. destruct (session s); [|intros [= <-]; apply (modules_ok_sent _ s _ m_init Hok); simpl; auto].
    unfold finalize_session. destruct (collect_calls reads (app_ s)) as [a| |] eqn:E; simpl; [|done..].
    intros [= <-]. destruct (read_collected_thread 0 _ _ _ ∅ E) as (_ & Ht & _).
    apply (modules_ok_sent _ s _ m_exiting Hok); simpl; auto.
Qed.

Lemma modules_run tasks : ∀ s s', modules_ok (enumerated tasks) s → fold_m serve_task s tasks = Ret s' → modules_ok 0 s'.
Proof.
  induction tasks as [|t tasks IH]; intros s s' Hok; [by intros [= <-]|]. cbn [fold_m].
  destruct (serve_task s t) as [s1| |] eqn:E; simpl; [|done..]. apply IH. by eapply task_modules_ok.
Qed.

Lemma start_modules_ok a tasks : tracker a = new_tracker → enumerated tasks < 2 ^ 32 - 2 → modules_ok (enumerated tasks) (start a).
Proof.
  intros Ha Hroom. split; simpl; rewrite ?Ha; [apply new_tracker_ok| |simpl; lia..].
  intros j x. rewrite lookup_empty. split; [done|]. by intros (id & mi & Hmi & _).
Qed.

(** C13: A front-end that adds the modules it is told are loaded and drops those it is told are unloaded
    has, after any number of updates, exactly the instances that the tracker has mapped. *)
Theorem modules_followed a tasks s i m :
  tracker a = new_tracker → enumerated tasks < 2 ^ 32 - 2 → fold_m serve_task (start a) tasks = Ret s →
  foldl follow ∅ (sent s) !! i = Some m ↔ ∃ id, mapped (tracker (app_ s)) id (i, m).
Proof. intros Ha Hroom Hrun. apply (modules_run tasks (start a) s); [by apply start_modules_ok|done]. Qed.

(** A module that the front-end was told of is answered for: with its path and its hash, as they were told, and what the
    image of its file has; so that a request by a front-end that has read all that was sent does not end the process. *)
Theorem followed_answered a tasks s snapshot i m functions files :
  tracker a = new_tracker → enumerated tasks < 2 ^ 32 - 2 → fold_m serve_task (start a) tasks = Ret s → session s = true →
  foldl follow ∅ (sent s) !! i = Some m →
  (∀ path, load_image_info path = Ret (functions path, files path)) →
  ∃ path, file_id path = file_id (path_ m) ∧
  serve_task s (t_request snapshot (q_metadata (persistent_id m))) =
    Ret (mk_app_server (app_ s) true (exit_requested s) (exit_confirmed s) (deferred s)
      (sent s ++ [m_response (a_metadata (mk_module_metadata (path_ m) (hash_ m) (functions path) (add_files (files path))))])).
Proof.
  intros Ha Hroom Hrun Hs Hm Hload.
  destruct (modules_run tasks (start a) s) as [Ht Hf _ _]; [by apply start_modules_ok|done|].
  apply Hf in Hm as (id & mi & Hmi & Hmap). destruct (mapping_instance _ _ _ Ht id i m) as (_ & <- & Hfile); [by exists mi|].
  exists (info_path mi). split; [by destruct (file_module _ _ _ Ht _ _ Hfile) as (mi' & Hmi' & <- & _); simplify_eq|]. cbn [serve_task]. unfold request_task. rewrite Hs. cbn [handle].
  unfold handle_metadata, lock_mapping, get_metadata. rewrite Hmi, Hmap. cbn [mbind result_bind fmap option_fmap option_map].
  rewrite Hload. done.
Qed.

(** ** The thread ends when it is asked to and the front-end has gone *)

Definition is_exit (t : app_task) : bool := if t is t_exit _ then true else false.
Definition is_disconnection (t : app_task) : bool := if t is t_disconnected then true else false.
Definition over (tasks : list app_task) : bool :=
  existsb is_exit tasks && existsb is_disconnection tasks.

(** What the flags say after some tasks. *)
Record flags_ok (tasks : list app_task) (s : app_server) : Prop := {
  fo_session : session s = negb (existsb is_disconnection tasks);
  fo_confirmed : exit_confirmed s = over tasks;
  fo_requested : exit_requested s = true → existsb is_exit tasks = true;
  fo_waiting : session s = true → existsb is_exit tasks = true → exit_requested s = true;
}.

Lemma flags_step tasks s t s' : flags_ok tasks s → serve_task s t = Ret s' → flags_ok (tasks ++ [t]) s'.
Proof.
  intros [Hs Hc Hr Hw] Hrun. unfold over in *.
  destruct t as [reads|snapshot q| |reads]; simpl in Hrun.
  - unfold collect_and_reschedule in Hrun. destruct (collect_calls _ _); simpl in Hrun; [|done..].
    apply Ret_inj in Hrun as <-. split; unfold over; rewrite !existsb_app; simpl; rewrite ?orb_false_r; done.
  - assert (session s' = session s ∧ exit_confirmed s' = exit_confirmed s ∧
      exit_requested s' = exit_requested s) as (Es & Ec & Er).
    { unfold request_task in Hrun. destruct (session s) eqn:E; [|by apply Ret_inj in Hrun as <-].
      destruct (handle _ _ _) as [[a rs]| |]; simpl in Hrun; [|done..]. by apply Ret_inj in Hrun as <-. }
    split; unfold over; rewrite !existsb_app; simpl; rewrite ?orb_false_r, ?Es, ?Ec, ?Er; done.
  - apply Ret_inj in Hrun as <-. split; unfold over; rewrite !existsb_app; simpl; rewrite ?orb_true_r, ?orb_false_r;
      [done| |done|done].
    destruct (exit_requested s) eqn:E; [by rewrite Hr|]. rewrite Hc.
    destruct (existsb is_exit tasks); [|done]. destruct (existsb is_disconnection tasks); [done|].
    by specialize (Hw Hs eq_refl).
  - unfold exit_task in Hrun. destruct (session s) eqn:E.
    + unfold finalize_session in Hrun. destruct (collect_calls _ _); simpl in Hrun; [|done..].
      apply Ret_inj in Hrun as <-. destruct (existsb is_disconnection tasks) eqn:Ed; [done|].
      split; unfold over; rewrite !existsb_app; simpl; rewrite ?E, ?Ed, ?orb_true_r, ?andb_false_r in *; done.
    + simpl in Hrun. apply Ret_inj in Hrun as <-. destruct (existsb is_disconnection tasks) eqn:Ed; [|done].
      split; unfold over; rewrite !existsb_app; simpl; rewrite ?E, ?Ed, ?orb_true_r; done.
Qed.

Lemma flags_run tasks : ∀ pre s s', flags_ok pre s → fold_m serve_task s tasks = Ret s' →
  flags_ok (pre ++ tasks) s'.
Proof.
  induction tasks as [|t tasks IH]; intros pre s s' Hf; cbn [fold_m]; [intros [= <-]; by rewrite app_nil_r|].
  destruct (serve_task s t) as [s1| |] eqn:E; simpl; [|done..]. intros Hr.
  rewrite cons_middle, app_assoc. eapply IH; [|exact Hr]. by eapply flags_step.
Qed.

Lemma over_app pre tasks : over pre = true → over (pre ++ tasks) = true.
Proof.
  unfold over. rewrite !existsb_app, !andb_true_iff, !orb_true_iff. intros [? ?]. auto.
Qed.

Lemma worker_runs batches : ∀ pre s0 s, flags_ok pre s0 → over pre = false →
  fold_m serve_task s0 (concat batches) = Ret s →
  if over (pre ++ concat batches)
  then ∃ s', worker batches s0 = Ret (Some s') ∧ session s' = false
  else worker batches s0 = Ret None.
Proof.
  induction batches as [|b batches IH]; intros pre s0 s Hf Ho; cbn [concat worker].
  { intros _. by rewrite app_nil_r, Ho. }
  rewrite fold_m_app. destruct (fold_m serve_task s0 b) as [s1| |] eqn:E; simpl; [|done..]. intros Hr.
  pose proof (flags_run _ _ _ _ Hf E) as Hf1. rewrite app_assoc, (fo_confirmed _ _ Hf1).
  destruct (over (pre ++ b)) eqn:Eo; [|by eapply IH].
  rewrite over_app by done. exists s1. split; [done|]. rewrite (fo_session _ _ Hf1).
  unfold over in Eo. by apply andb_true_iff in Eo as [_ ->].
Qed.

(** C14: The worker, and with it the destructor that waits for it, returns if the exit was asked for and
    the front-end has disconnected, in whatever order and among whatever other tasks; it returns for
    no less, so that a front-end that is there is waited for. *)
Theorem worker_exits a batches s : fold_m serve_task (start a) (concat batches) = Ret s →
  if over (concat batches)
  then ∃ s', worker batches (start a) = Ret (Some s') ∧ session s' = false
  else worker batches (start a) = Ret None.
Proof. intros Hr. apply (worker_runs batches [] (start a) s); [by split|done|done]. Qed.

(** A front-end that is there when the exit is asked for is told so, behind all it was sent before. *)
Lemma exit_is_told a tasks reads s : fold_m serve_task (start a) (tasks ++ [t_exit reads]) = Ret s →
  existsb is_disconnection tasks = false → last (sent s) = Some m_exiting.
Proof.
  rewrite fold_m_app. destruct (fold_m serve_task (start a) tasks) as [s1| |] eqn:E; simpl; [|done..].
  intros Hr Hd. assert (flags_ok tasks s1) as Hf by (apply (flags_run tasks [] (start a)); [by split|done]).
  pose proof (fo_session _ _ Hf) as Hs. rewrite Hd in Hs. simpl in Hs. unfold exit_task in Hr.
  rewrite Hs in Hr. unfold finalize_session in Hr. destruct (collect_calls _ _); simpl in Hr; [|done..].
  apply Ret_inj in Hr as <-. simpl. by rewrite last_snoc.
Qed.

(** A request that names what is not known throws out of the thread, which ends the process that is
    profiled. *)
Lemma unknown_module_terminates a snapshot id batches :
  modules_registry (tracker a) !! id = None →
  worker ([t_request snapshot (q_metadata id)] :: batches) (start a) = Throw invalid_argument.
Proof. intros Hid. simpl. unfold request_task. simpl. unfold handle_metadata, lock_mapping. by rewrite Hid. Qed.
End collector_app.

(** * A session *)

Definition demo_app : app (F := string) (W := mem) (P := jumper) :=
  mk_app new_tracker demo_analyzer demo_monitor (mk_manager ∅ demo_image).

Definition demo_function_patches : patch_ops mem jumper :=
  function_patches 15 false (λ _ _, true) jumper_proto_x86 [0xC3] 0x10 0x20 0x30 (λ t, t + 0x4000).

Definition demo_image_info (path : string) : result (list Z * list (Z * string)) :=
  Ret ([1; 2], [(7, "a.cpp"); (7, "b.cpp")]%string).

(** What is asked while it is unloaded is not: the request crosses the update that tells that the module has gone. *)
Lemma crossing_request_undefined :
  fold_m (serve_task (F := string) (po := demo_function_patches) demo_junk (λ p : string, p) demo_file demo_accessor demo_image_info)
    (start demo_app) [t_request demo_snapshot q_update; t_request [] q_update; t_request [] (q_metadata 2)] = UB.
Proof. vm_compute. reflexivity. Qed.

(** Two threads; an update in the middle of a call, patches, another update, the exit, and the front-end
    that goes. *)
Definition demo_batches : list (list (app_task)) :=
  [[t_collect [(1, [mk_record 10 7; mk_record 20 8]); (2, [mk_record 11 9])];
    t_request demo_snapshot q_update];
   [t_collect [(1, [mk_record 30 0])]; t_request demo_snapshot (q_apply 1 [0; 0x100]);
    t_request [mk_mapped "b.so" 8192] q_update; t_request [] (q_metadata 2)];
   [t_exit [(1, [mk_record 50 0])]; t_request [] (q_threads [1])];
   [t_disconnected]].

Abbreviation demo_run :=
  (serve_task (po := demo_function_patches) demo_junk (λ p : string, p) demo_file demo_accessor demo_image_info).
Abbreviation demo_worker :=
  (worker (po := demo_function_patches) demo_junk (λ p : string, p) demo_file demo_accessor demo_image_info).

Definition demo_end : app_server :=
  match fold_m demo_run (start demo_app) (concat demo_batches) with
  | Ret s => s
  | _ => start demo_app
  end.

Lemma demo_run_eq : fold_m demo_run (start demo_app) (concat demo_batches) = Ret demo_end.
Proof.
  assert (returns (fold_m demo_run (start demo_app) (concat demo_batches))) as Hr by (vm_compute; exact I).
  unfold demo_end. by destruct (fold_m _ _ _).
Qed.

Lemma updates_lossless_witness :
  ∃ ss, update (shadow_stack_new (mk_overhead 1 2) demo_junk)
      (batches (thread_ops 1 true (concat demo_batches))) ∅ =
    Ret (ss, merge_nodes (received 1 (sent demo_end))
      (statistics (thread_of demo_junk 1 (analysis (app_ demo_end))))).
Proof.
  apply (updates_lossless (po := demo_function_patches) demo_junk (λ p : string, p) demo_file demo_accessor demo_image_info
    (mk_overhead 1 2) demo_app (concat demo_batches) demo_end 1); [reflexivity|exact demo_run_eq].
Defined.

(** The outer call of the first thread ended by the time of the exit: what was sent does not count it,
    what is left does. *)
Lemma demo_parts :
  (map_to_list (times_called <$> received 1 (sent demo_end)),
   map_to_list (times_called <$> statistics (thread_of demo_junk 1 (analysis (app_ demo_end))))) =
  ([([7], 0); ([7; 8], 1)], [([7], 1)]).
Proof. vm_compute. reflexivity. Qed.

(** What is mapped in the end is the second module. *)
Lemma modules_followed_witness :
  foldl follow ∅ (sent demo_end) !! 1 = Some (mk_mapped_ex 2 "b.so" 8192 3955281596) ↔
    ∃ id, mapped (tracker (app_ demo_end)) id (1, mk_mapped_ex 2 "b.so" 8192 3955281596).
Proof.
  apply (modules_followed (po := demo_function_patches) demo_junk (λ p : string, p) demo_file demo_accessor
    demo_image_info demo_app (concat demo_batches)); [reflexivity|vm_compute; reflexivity|exact demo_run_eq].
Defined.

Lemma demo_followed :
  foldl follow ∅ (sent demo_end) !! 1 = Some (mk_mapped_ex 2 "b.so" 8192 3955281596) ∧
  foldl follow ∅ (sent demo_end) !! 0 = None.
Proof. vm_compute. done. Qed.

Lemma worker_exits_witness :
  ∃ s', demo_worker demo_batches (start demo_app) = Ret (Some s') ∧ session s' = false.
Proof.
  exact (worker_exits (po := demo_function_patches) demo_junk (λ p : string, p) demo_file demo_accessor demo_image_info
    demo_app demo_batches demo_end demo_run_eq).
Defined.
