(* ===== verification/Archive.v ===== *)
(** The archive that messages and files are written with.

    The library (strmd) is not in the repository: a class states what the program uses of it, another one what it
    relies on, that what is put is read back.  At the end an archive of one token per value keeps to it. *)

From S2P Require Import Prelude.
Local Open Scope Z_scope.

(** Numbers are written by their types, structures behind their version, containers behind the number of their items.
    The reader of a container calls, for every item, what the program gives it; those of vectors and maps are of
    the archive. *)
Class strmd (tok : Type) := {
  put_u : Z → list tok;
  get_u : list tok → result (Z * list tok);
  put_s : Z → list tok;
  get_s : list tok → result (Z * list tok);
  put_text : string → list tok;
  get_text : list tok → result (string * list tok);
  put_pair : list tok → list tok → list tok;
  put_versioned : Z → list tok → list tok;
  get_versioned {T : Type} : (Z → list tok → result (T * list tok)) → list tok → result (T * list tok);
  put_items : list (list tok) → list tok;
  get_items {S : Type} : (S → list tok → result (S * list tok)) → S → list tok → result (S * list tok);
  get_vector {T : Type} : (list tok → result (T * list tok)) → list tok → result (list T * list tok);
  get_map {T : Type} : (list tok → result (Z * T * list tok)) → list tok → result (gmap Z T * list tok)
}.

(** [step] reads the items one after another. *)
Fixpoint reads_items {tok S : Type} (step : S → list tok → result (S * list tok)) (s : S) (items : list (list tok)) (s' : S) : Prop :=
  match items with
  | [] => s' = s
  | item :: items => ∃ s1, (∀ rest, step s (item ++ rest) = Ret (s1, rest)) ∧ reads_items step s1 items s'
  end.

Class strmd_laws (tok : Type) `{AR : strmd tok} : Prop := {
  u_roundtrip z rest : in_u 64 z → get_u (put_u z ++ rest) = Ret (z, rest);
  s_roundtrip z rest : in_s 64 z → get_s (put_s z ++ rest) = Ret (z, rest);
  text_roundtrip s rest : get_text (put_text s ++ rest) = Ret (s, rest);
  pair_parts x y : put_pair x y = x ++ y;
  versioned_roundtrip {T : Type} (rd : Z → list tok → result (T * list tok)) v body x rest :
    (∀ rest, rd v (body ++ rest) = Ret (x, rest)) → get_versioned rd (put_versioned v body ++ rest) = Ret (x, rest);
  items_roundtrip {S : Type} (step : S → list tok → result (S * list tok)) s items s' rest :
    reads_items step s items s' → get_items step s (put_items items ++ rest) = Ret (s', rest);
  vector_roundtrip {T : Type} (rd : list tok → result (T * list tok)) (w : T → list tok) l rest :
    (∀ x rest, x ∈ l → rd (w x ++ rest) = Ret (x, rest)) → get_vector rd (put_items (map w l) ++ rest) = Ret (l, rest);
  map_roundtrip {T : Type} (rd : list tok → result (Z * T * list tok)) (w : Z * T → list tok) l rest :
    NoDup l.*1 → (∀ x rest, x ∈ l → rd (w x ++ rest) = Ret (x, rest)) →
    get_map rd (put_items (map w l) ++ rest) = Ret (list_to_map l, rest)
}.

(** A reader goes through its stream from the beginning: what it has read it would have read with more behind it, too, and
    the stream of the files throws where it ends ([read_bytes_streams] in [AsyncFiles]), so that a part of what can be
    read is read, or an error. *)
Class streams {tok T : Type} (rd : list tok → result (T * list tok)) : Prop := {
  streams_more a b x r : rd a = Ret (x, r) → rd (a ++ b) = Ret (x, r ++ b);
  streams_cut a b y : rd (a ++ b) = Ret y → rd a ≠ UB
}.

Class strmd_streams (tok : Type) `{AR : strmd tok} : Prop := {
  #[global] u_streams :: streams get_u;
  #[global] s_streams :: streams get_s;
  #[global] text_streams :: streams get_text;
  #[global] versioned_streams {T : Type} (rd : Z → list tok → result (T * list tok)) ::
    (∀ v, streams (rd v)) → streams (get_versioned rd);
  #[global] items_streams {S : Type} (step : S → list tok → result (S * list tok)) s ::
    (∀ s, streams (step s)) → streams (get_items step s);
  #[global] vector_streams {T : Type} (rd : list tok → result (T * list tok)) :: streams rd → streams (get_vector rd);
  #[global] map_streams {T : Type} (rd : list tok → result (Z * T * list tok)) :: streams rd → streams (get_map rd)
}.

#[export] Instance ret_streams {tok T : Type} (x : T) : streams (λ a : list tok, Ret (x, a)).
Proof. split; [by intros a b y r [= <- <-]|done]. Qed.

(** One reader after another. *)
#[export] Instance bind_streams {tok T U : Type} (rd : list tok → result (T * list tok)) (f : T → list tok → result (U * list tok)) :
  streams rd → (∀ x, streams (f x)) → streams (λ a, '(x, a) ← rd a; f x a).
Proof.
  intros [M1 C1] Hf. split.
  - intros a b y r. destruct (rd a) as [[x a']| |] eqn:E; [|by intros [=]..]. rewrite (M1 _ _ _ _ E). cbn. apply (Hf x).
  - intros a b y H. pose proof (C1 a b) as Hc. destruct (rd a) as [[x a']| |] eqn:E; cbn; [| |].
    + rewrite (M1 _ _ _ _ E) in H. cbn in H. by apply (streams_cut _ _ _ H).
    + done.
    + destruct (rd (a ++ b)) as [z| |]; [by destruct (Hc z eq_refl)|done..].
Qed.

#[export] Instance if_streams {tok T : Type} (b : bool) (rd rd' : list tok → result (T * list tok)) :
  streams rd → streams rd' → streams (λ a, if b then rd a else rd' a).
Proof. by destruct b. Qed.

(** A part of what was written is not read as something else. *)
Lemma streams_part {tok T : Type} (rd : list tok → result (T * list tok)) whole n x y r : streams rd →
  rd whole = Ret (x, []) → rd (take n whole) = Ret (y, r) → y = x ∧ (length whole ≤ n)%nat.
Proof.
  intros Hs Hw Hn. pose proof (streams_more _ (drop n whole) _ _ Hn) as H. rewrite take_drop, Hw in H. apply Ret_inj in H.
  injection H as -> H. symmetry in H. apply app_eq_nil in H as [_ H]. split; [done|].
  assert (length (drop n whole) = 0)%nat as Hl by by rewrite H. rewrite length_drop in Hl. lia.
Qed.

Lemma reads_items_fold {tok S T : Type} (step : S → list tok → result (S * list tok)) (w : T → list tok) (f : S → T → S) l : ∀ s,
  (∀ s x rest, x ∈ l → step s (w x ++ rest) = Ret (f s x, rest)) → reads_items step s (map w l) (foldl f s l).
Proof.
  induction l as [|x l IH]; intros s Hs; [done|]. exists (f s x). split; [intros rest; apply Hs; by left|].
  apply IH. intros s' y rest Hy. apply Hs. by right.
Qed.

(** Reading with what may fail: [f] says what the items do. *)
Lemma reads_items_fold_m {tok S T : Type} (step : S → list tok → result (S * list tok)) (w : T → list tok) (f : S → T → result S) l : ∀ s s',
  (∀ s x s' rest, x ∈ l → f s x = Ret s' → step s (w x ++ rest) = Ret (s', rest)) → fold_m f s l = Ret s' →
  reads_items step s (map w l) s'.
Proof.
  induction l as [|x l IH]; intros s s' Hs; cbn [fold_m]; [by intros [= ->]|].
  destruct (f s x) as [s1| |] eqn:E; [|by intros [=]..]. cbn [mbind result_bind]. intros Hf. exists s1.
  split; [intros rest; apply Hs; [by left|done]|]. apply IH; [|done]. intros s2 y s3 rest Hy. apply Hs. by right.
Qed.

(** * Archives of this kind *)

(** Made of any way to put numbers and texts: a structure is its version and what is in it, a container the number of
    its items and the items. *)
Section plain.
Context {tok : Type} (put_num : Z → list tok) (get_num : list tok → result (Z * list tok)).
Context (put_str : string → list tok) (get_str : list tok → result (string * list tok)).

Fixpoint iterate {S : Type} (step : S → list tok → result (S * list tok)) (n : nat) (s : S) (a : list tok) : result (S * list tok) :=
  match n with
  | O => Ret (s, a)
  | Datatypes.S n => '(s, a) ← step s a; iterate step n s a
  end.

Definition plain_items {S : Type} (step : S → list tok → result (S * list tok)) (s : S) (a : list tok) : result (S * list tok) :=
  '(n, a) ← get_num a; iterate step (Z.to_nat n) s a.
Definition plain_vector {T : Type} (rd : list tok → result (T * list tok)) (a : list tok) : result (list T * list tok) :=
  plain_items (λ l a, '(x, a) ← rd a; Ret (l ++ [x], a)) [] a.

Definition plain_strmd : strmd tok := {|
  put_u := put_num; get_u := get_num; put_s := put_num; get_s := get_num;
  put_text := put_str; get_text := get_str; put_pair x y := x ++ y;
  put_versioned v body := put_num v ++ body; get_versioned T rd a := '(v, a) ← get_num a; rd v a;
  put_items items := put_num (len items) ++ concat items; get_items S := plain_items;
  get_vector T := plain_vector; get_map T rd a := '(l, a) ← plain_vector rd a; Ret (list_to_map l, a)
|}.

Context (Hnum : ∀ z rest, get_num (put_num z ++ rest) = Ret (z, rest)) (Hstr : ∀ s rest, get_str (put_str s ++ rest) = Ret (s, rest)).

Lemma iterate_reads {S : Type} (step : S → list tok → result (S * list tok)) items : ∀ s s' rest,
  reads_items step s items s' → iterate step (length items) s (concat items ++ rest) = Ret (s', rest).
Proof using Type.
  induction items as [|item items IH]; intros s s' rest; cbn [reads_items]; [by intros ->|].
  intros (s1 & Hs & Hr). cbn [length iterate concat]. rewrite <- app_assoc, Hs. cbn [mbind result_bind]. by apply IH.
Qed.

Lemma plain_items_reads {S : Type} (step : S → list tok → result (S * list tok)) items s s' rest :
  reads_items step s items s' → plain_items step s ((put_num (len items) ++ concat items) ++ rest) = Ret (s', rest).
Proof using Hnum. intros Hr. unfold plain_items. rewrite <- app_assoc, Hnum. cbn [mbind result_bind]. rewrite Nat2Z.id. by apply iterate_reads. Qed.

Lemma foldl_collect {T} (l : list T) : ∀ l', foldl (λ l x, l ++ [x]) l' l = l' ++ l.
Proof using Type. induction l as [|x l IH]; intros l'; cbn [foldl]; [by rewrite app_nil_r|]. by rewrite IH, <- app_assoc. Qed.

Lemma plain_vector_reads {T : Type} (rd : list tok → result (T * list tok)) (w : T → list tok) l rest :
  (∀ x rest, x ∈ l → rd (w x ++ rest) = Ret (x, rest)) →
  plain_vector rd ((put_num (len (map w l)) ++ concat (map w l)) ++ rest) = Ret (l, rest).
Proof using Hnum.
  intros Hrd. unfold plain_vector. rewrite (plain_items_reads _ (map w l) [] (foldl (λ l x, l ++ [x]) [] l)).
  - by rewrite foldl_collect.
  - apply reads_items_fold. intros s x rest' Hx. by rewrite Hrd.
Qed.

Lemma plain_laws : strmd_laws tok (AR := plain_strmd).
Proof using Hnum Hstr.
  split; try done.
  - intros T rd v body x rest Hrd. cbn. rewrite <- app_assoc, Hnum. by apply Hrd.
  - intros S step s items s' rest Hr. by apply plain_items_reads.
  - intros T rd w l rest Hrd. by apply plain_vector_reads.
  - intros T rd w l rest _ Hrd. unfold get_map, put_items, plain_strmd. by rewrite (plain_vector_reads rd w l rest Hrd).
Qed.

Context (Hnum_streams : streams get_num) (Hstr_streams : streams get_str).

Lemma iterate_streams {S : Type} (step : S → list tok → result (S * list tok)) n : (∀ s, streams (step s)) →
  ∀ s, streams (iterate step n s).
Proof using Type. intros Hs. induction n as [|n IH]; intros s; cbn [iterate]; apply _. Qed.

Lemma plain_items_streams {S : Type} (step : S → list tok → result (S * list tok)) s : (∀ s, streams (step s)) → streams (plain_items step s).
Proof using Hnum_streams. intros Hs. apply bind_streams; [done|]. intros n. by apply iterate_streams. Qed.

Lemma plain_vector_streams {T : Type} (rd : list tok → result (T * list tok)) : streams rd → streams (plain_vector rd).
Proof using Hnum_streams. intros Hrd. apply plain_items_streams. intros l. apply _. Qed.

Lemma plain_streams : strmd_streams tok (AR := plain_strmd).
Proof using Hnum_streams Hstr_streams.
  split; try done.
  - intros T rd Hrd. by apply bind_streams.
  - intros S step s Hs. by apply plain_items_streams.
  - intros T rd Hrd. by apply plain_vector_streams.
  - intros T rd Hrd. apply (bind_streams (plain_vector rd) (λ l a, Ret (list_to_map l, a))); [by apply plain_vector_streams|]. apply _.
Qed.
End plain.

(** Of one token for each value. *)
Inductive token := t_num (z : Z) | t_text (s : string).

Definition token_num (a : list token) : result (Z * list token) :=
  match a with t_num z :: a => Ret (z, a) | _ => Throw runtime_error end.
Definition token_text (a : list token) : result (string * list token) :=
  match a with t_text s :: a => Ret (s, a) | _ => Throw runtime_error end.

#[export] Instance token_archive : strmd token := plain_strmd (λ z, [t_num z]) token_num (λ s, [t_text s]) token_text.

#[export] Instance token_laws : strmd_laws token.
Proof. by apply plain_laws. Qed.

#[export] Instance token_streams : strmd_streams token.
Proof.
  apply plain_streams; (split; [by intros [|[] a] b x r; cbn; intros [=]; simplify_eq|by intros [|[] a] b y]).
Qed.
