(* ===== verification/Messages.v ===== *)
(** The call graphs on their way (collector/serialization.h, common/serialization.h, frontend/serialization.h,
    frontend/serialization_context.h).

    What the analyzer holds is written as it is, a container of threads that are containers of nodes; the front-end
    reads it into its table of calls, node by node.  [CallsTable] says what reading does to the table; here it is read
    from the archive.  Files of older versions have the calls in two levels. *)

From S2P Require Import Prelude Statistics ShadowStack Sdb Hierarchy CallsTable Archive.
Local Open Scope Z_scope.

Section messages.
Context {tok : Type} `{AR : strmd tok}.
Abbreviation A := (list tok).

(** * What the collector writes *)

(** [common/serialization.h:59-70] serialize. Of [function_statistics]. *)
Definition save_stats (d : function_statistics) : A :=
  put_versioned 5 (put_u (times_called d) ++ put_s (inclusive_time d) ++ put_s (exclusive_time d) ++ put_s (max_call_time d)).

(** [collector/serialization.h:36-42] serialize. Of a node of a call graph, behind its address. *)
Fixpoint save_node (g : graph) : A :=
  match g with
  | node a st cs => put_pair (put_u a) (put_versioned 5 (save_stats st ++ put_items (map save_node cs)))
  end.

(** [collector/serialization.h:29-30] strmd::type_traits. The analyzer is a container of threads, a thread one of nodes. *)
Definition save_message (message : list (Z * list graph)) : A :=
  put_items (map (λ item, put_pair (put_u item.1) (put_items (map save_node item.2))) message).

(** * What the front-end reads *)

(** The longest chain of calls was counted once. *)
Definition load_stats_at (ver : Z) (a : A) : result (function_statistics * A) :=
  '(times, a) ← get_u a;
  '(_, a) ← (if ver <? 5 then get_u a else Ret (0, a));
  '(inclusive, a) ← get_s a; '(exclusive, a) ← get_s a; '(longest_, a) ← get_s a;
  Ret (mk_stats times inclusive exclusive longest_, a).

(** What is read is added by [touch]. *)
(** [frontend/serialization.h:117-124] serialize. Of [function_statistics], with a context. *)
Definition load_stats (a : A) : result (function_statistics * A) := get_versioned load_stats_at a.

(** The context says if threads come with the addresses; if they do not, the thread of the context is taken. *)
(** [frontend/serialization.h:44-60] serialize. Of [call_node_key]. *)
Definition load_key (pairs : bool) (tid : Z) (a : A) : result (Z * Z * A) :=
  '(address_, a) ← get_u a;
  '(t, a) ← (if pairs then get_u a else Ret (tid, a));
  Ret (address_, t, a).

(** [flat] is the static level 1, the leaves of older files. The fuel bounds the depth of the file. *)
(** [frontend/serialization.h:126-140] serialize. Of [call_statistics] with a context, and lines 84 to 95,
    [call_nodes_reader::read_item]. *)
Fixpoint load_node (fuel : nat) (pairs flat : bool) (tid parent : Z) (s : calls_table) (a : A) : result (calls_table * A) :=
  match fuel with
  | O => UB
  | S fuel =>
    '(address_, t, a) ← load_key pairs tid a;
    get_versioned (λ ver a,
      '(st, a) ← (if flat then load_stats_at ver a else load_stats a);
      '(id, s) ← touch (t, parent, address_) st s;
      if flat then Ret (s, a) else get_items (load_node fuel pairs (ver <? 5) tid id) s a) a
  end.

(** [frontend/serialization.h:71-82] call_nodes_reader::read_item. A thread. *)
Definition load_thread (fuel : nat) (x : calls_table * list Z * bool) (a : A) : result (calls_table * list Z * bool * A) :=
  let '(s, threads, first_) := x in
  '(tid, a) ← get_u a;
  '(s, a) ← get_items (load_node fuel false false tid 0) s a;
  Ret (s, (if first_ then [] else threads) ++ [tid], false, a).

(** [frontend/serialization.h:162-169] serialize. A message of statistics. *)
Definition load_message (fuel : nat) (s : calls_table) (threads : list Z) (a : A) : result (calls_table * list Z * A) :=
  '(s, threads, _, a) ← get_items (load_thread fuel) (s, threads, true) a;
  Ret (mk_calls (calls s) (by_node s) (next_id s) (S (invalidated s)), threads, a).

(** [frontend/persistence.h:37-44] serialize. The calls of a file of version 3 or 4. *)
Definition load_legacy_calls (fuel : nat) (address_and_thread : bool) (s : calls_table) (a : A) : result (calls_table * A) :=
  get_items (load_node fuel address_and_thread false 0 0) s a.

(** * Reading what was written *)

(** The longest call is a time too. *)
Definition stats_fit (d : function_statistics) : Prop := wf_stats d ∧ max_call_time d < 2 ^ 63.

Inductive fits : graph → Prop :=
  | fits_node a st cs : in_u 64 a → stats_fit st → Forall fits cs → fits (node a st cs).

Fixpoint height (g : graph) : nat := match g with node _ _ cs => S (max_list (map height cs)) end.

Lemma height_callee g cs : g ∈ cs → (height g ≤ max_list (map height cs))%nat.
Proof. intros Hg. apply max_list_elem_of_le, list_elem_of_In, in_map. by apply list_elem_of_In. Qed.

Context {LAWS : strmd_laws tok}.

(** Statistics as a version has them. *)
Definition stats_body (ver reentrance : Z) (d : function_statistics) : A :=
  put_u (times_called d) ++ (if ver <? 5 then put_u reentrance else []) ++
  put_s (inclusive_time d) ++ put_s (exclusive_time d) ++ put_s (max_call_time d).

Lemma stats_read ver reentrance d rest : stats_fit d → in_u 32 reentrance →
  load_stats_at ver (stats_body ver reentrance d ++ rest) = Ret (d, rest).
Proof using LAWS.
  intros [(Ht & Hi & He & Hm) Hl] Hr. unfold load_stats_at, stats_body. rewrite <- !app_assoc, u_roundtrip by done.
  cbn [mbind result_bind]. assert ((if ver <? 5 then get_u ((if ver <? 5 then put_u reentrance else []) ++
      put_s (inclusive_time d) ++ put_s (exclusive_time d) ++ put_s (max_call_time d) ++ rest)
    else Ret (0, (if ver <? 5 then put_u reentrance else []) ++
      put_s (inclusive_time d) ++ put_s (exclusive_time d) ++ put_s (max_call_time d) ++ rest)) =
    Ret (if ver <? 5 then reentrance else 0, put_s (inclusive_time d) ++ put_s (exclusive_time d) ++ put_s (max_call_time d) ++ rest)) as ->.
  { destruct (ver <? 5); [|done]. rewrite u_roundtrip; [done|]. unfold in_u in *; lia. }
  cbn [mbind result_bind]. rewrite s_roundtrip by done. cbn [mbind result_bind]. rewrite s_roundtrip by done. cbn [mbind result_bind].
  rewrite s_roundtrip by (unfold in_s; lia). cbn [mbind result_bind]. by destruct d.
Qed.

Lemma save_stats_read d rest : stats_fit d → load_stats (save_stats d ++ rest) = Ret (d, rest).
Proof using LAWS.
  intros Hd. unfold load_stats, save_stats. apply versioned_roundtrip. intros rest'.
  pose proof (stats_read 5 0 d rest' Hd) as H. unfold stats_body in H. cbn in H. apply H. unfold in_u. lia.
Qed.

Lemma key_read tid a rest : in_u 64 a → load_key false tid (put_u a ++ rest) = Ret (a, tid, rest).
Proof using LAWS. intros Ha. unfold load_key. by rewrite u_roundtrip. Qed.

Lemma save_node_read g : ∀ fuel tid parent s s' rest, fits g → (height g ≤ fuel)%nat → read_node tid parent g s = Ret s' →
  load_node fuel false false tid parent s (save_node g ++ rest) = Ret (s', rest).
Proof using LAWS.
  induction g as [a st cs IH] using graph_ind. intros fuel tid parent s s' rest Hg Hh. inversion Hg as [? ? ? Ha Hst Hcs]; subst.
  cbn [height] in Hh. destruct fuel as [|fuel]; [lia|]. cbn [read_node save_node load_node].
  destruct (touch (tid, parent, a) st s) as [[id s1]| |] eqn:Et; [|by intros [=]..]. cbn [mbind result_bind]. intros Hr.
  rewrite pair_parts, <- app_assoc, key_read by done. cbn [mbind result_bind]. apply versioned_roundtrip. intros rest'.
  rewrite <- app_assoc, save_stats_read by done. cbn [mbind result_bind]. rewrite Et. cbn [mbind result_bind].
  apply items_roundtrip. eapply reads_items_fold_m; [|exact Hr]. intros s2 g s3 rest2 Hin Hg2.
  rewrite Forall_forall in IH, Hcs. apply IH; [done|by apply Hcs| |done]. pose proof (height_callee g cs Hin). lia.
Qed.

Lemma save_forest_read fuel tid gs s s' rest : Forall fits gs → Forall (λ g, (height g ≤ fuel)%nat) gs →
  fold_m (λ s g, read_node tid 0 g s) s gs = Ret s' →
  get_items (load_node fuel false false tid 0) s (put_items (map save_node gs) ++ rest) = Ret (s', rest).
Proof using LAWS.
  intros Hf Hh Hr. apply items_roundtrip. eapply reads_items_fold_m; [|exact Hr]. intros s1 g s2 rest1 Hin Hg.
  rewrite Forall_forall in Hf, Hh. by apply save_node_read; auto.
Qed.

Definition message_fits (fuel : nat) (message : list (Z * list graph)) : Prop :=
  Forall (λ item, in_u 32 item.1 ∧ Forall fits item.2 ∧ Forall (λ g, (height g ≤ fuel)%nat) item.2) message.

(** A message of statistics arrives: what the front-end reads from the bytes that the collector writes is the graphs of
    all the threads, node by node, into its table, and nothing of what comes behind; whatever the depth of the graphs. *)
Theorem message_roundtrip fuel message s threads s' threads' rest : message_fits fuel message →
  read_statistics message s threads = Ret (s', threads') →
  load_message fuel s threads (save_message message ++ rest) = Ret (s', threads', rest).
Proof using LAWS.
  intros Hm Hr. unfold read_statistics in Hr. unfold load_message, save_message.
  destruct (fold_m read_thread (s, threads, true) message) as [[[s1 th] b]| |] eqn:E; [|done..]. injection Hr as <- <-.
  rewrite (items_roundtrip (load_thread fuel) _ _ (s1, th, b)); [done|]. eapply reads_items_fold_m; [|exact E].
  intros [[s2 th2] b2] [tid gs] s3 rest3 Hin Hread. unfold message_fits in Hm. rewrite Forall_forall in Hm.
  destruct (Hm _ Hin) as (Ht & Hf & Hh). cbn [fst snd] in *. unfold load_thread. rewrite pair_parts, <- app_assoc, u_roundtrip by (unfold in_u in *; lia).
  cbn [mbind result_bind]. cbn [read_thread] in Hread. cbn [fst snd] in Hread.
  destruct (fold_m _ s2 gs) as [s4| |] eqn:E4; [|done..]. injection Hread as <-.
  rewrite (save_forest_read fuel tid gs s2 s4) by done. done.
Qed.

(** ** Older files *)

(** A function with its statistics and the depth that was counted, and what it calls, in one thread. *)
Record legacy_function := mk_legacy {
  lf_thread : Z; lf_address : Z; lf_reentrance : Z; lf_stats : function_statistics;
  lf_callees : list (Z * Z * function_statistics)
}.

(** What these versions wrote. *)
Definition legacy_key (pairs : bool) (a tid : Z) : A := put_u a ++ (if pairs then put_u tid else []).
Definition legacy_leaf (ver : Z) (pairs : bool) (tid : Z) (leaf : Z * Z * function_statistics) : A :=
  legacy_key pairs leaf.1.1 tid ++ put_versioned ver (stats_body ver leaf.1.2 leaf.2).
Definition legacy_item (ver : Z) (pairs : bool) (f : legacy_function) : A :=
  legacy_key pairs (lf_address f) (lf_thread f) ++
  put_versioned ver (put_versioned ver (stats_body ver (lf_reentrance f) (lf_stats f)) ++
    put_items (map (legacy_leaf ver pairs (lf_thread f)) (lf_callees f))).

Definition legacy_graph (f : legacy_function) : graph :=
  node (lf_address f) (lf_stats f) (map (λ leaf, node leaf.1.1 leaf.2 []) (lf_callees f)).

Definition legacy_fits (f : legacy_function) : Prop :=
  in_u 32 (lf_thread f) ∧ in_u 64 (lf_address f) ∧ in_u 32 (lf_reentrance f) ∧ stats_fit (lf_stats f) ∧
  Forall (λ leaf, in_u 64 leaf.1.1 ∧ in_u 32 leaf.1.2 ∧ stats_fit leaf.2) (lf_callees f).

Lemma legacy_key_read pairs tid t a rest : in_u 64 a → in_u 32 t →
  load_key pairs tid (legacy_key pairs a t ++ rest) = Ret (a, if pairs then t else tid, rest).
Proof using LAWS.
  intros Ha Ht. unfold load_key, legacy_key. rewrite <- app_assoc, u_roundtrip by done. cbn [mbind result_bind].
  destruct pairs; [|done]. rewrite u_roundtrip; [done|]. unfold in_u in *; lia.
Qed.

Lemma legacy_item_read ver (pairs : bool) f fuel s s' rest : ver < 5 → legacy_fits f →
  read_node (if pairs then lf_thread f else 0) 0 (legacy_graph f) s = Ret s' →
  load_node (S (S fuel)) pairs false 0 0 s (legacy_item ver pairs f ++ rest) = Ret (s', rest).
Proof using LAWS.
  intros Hv (Ht & Ha & Hr & Hst & Hl) Hread. cbn [load_node legacy_item]. unfold legacy_item.
  rewrite <- app_assoc, legacy_key_read by done. cbn [mbind result_bind]. apply versioned_roundtrip. intros rest1.
  cbn [legacy_graph read_node] in Hread. set (tid := if pairs then lf_thread f else 0) in *.
  destruct (touch (tid, 0, lf_address f) (lf_stats f) s) as [[id s1]| |] eqn:Et; [|done..]. cbn [mbind result_bind] in Hread.
  unfold load_stats. rewrite <- app_assoc, (versioned_roundtrip _ _ _ (lf_stats f)) by (intros; by apply stats_read).
  cbn [mbind result_bind]. rewrite Et. cbn [mbind result_bind]. apply items_roundtrip.
  rewrite (proj2 (Z.ltb_lt _ _) Hv). rewrite Forall_forall in Hl.
  apply (reads_items_fold_m _ _ (λ s leaf, read_node tid id (node leaf.1.1 leaf.2 []) s)).
  - intros s2 leaf s3 rest3 Hin Hleaf. destruct (Hl _ Hin) as (Hla & Hlr & Hls). unfold legacy_leaf.
    rewrite <- app_assoc. cbn [load_node]. rewrite legacy_key_read by done. cbn [mbind result_bind].
    apply versioned_roundtrip. intros rest4. rewrite stats_read by done. cbn [mbind result_bind]. cbn [read_node] in Hleaf. fold tid.
    destruct (touch (tid, id, leaf.1.1) leaf.2 s2) as [[i s4]| |]; [|done..]. cbn [mbind result_bind fold_m] in *. by injection Hleaf as ->.
  - clear -Hread. revert s1 Hread. induction (lf_callees f) as [|leaf l IH]; intros s1; [done|]. cbn [map fold_m].
    destruct (read_node tid id (node leaf.1.1 leaf.2 []) s1) as [s2| |]; [|by intros [=]..]. apply IH.
Qed.

(** The calls of an older file are read as the same graphs, of two levels. *)
Theorem legacy_calls_read ver (pairs : bool) fs fuel s s' rest : ver < 5 → Forall legacy_fits fs →
  fold_m (λ s f, read_node (if pairs then lf_thread f else 0) 0 (legacy_graph f) s) s fs = Ret s' →
  load_legacy_calls (S (S fuel)) pairs s (put_items (map (legacy_item ver pairs) fs) ++ rest) = Ret (s', rest).
Proof using LAWS.
  intros Hv Hf Hr. unfold load_legacy_calls. apply items_roundtrip. eapply reads_items_fold_m; [|exact Hr].
  intros s1 f s2 rest1 Hin Hread. rewrite Forall_forall in Hf. by apply legacy_item_read; auto.
Qed.
End messages.

(** * A message of two threads, in tokens *)

Definition demo_graphs : list (Z * list graph) :=
  [(2, [node 9 (mk_stats 1 10 10 10) []]); (1, [node 7 (mk_stats 2 30 20 20) [node 8 (mk_stats 1 10 10 10) []]])].

Example demo_message_tokens : save_message [(2, [node 9 (mk_stats 1 10 5 3) []])] =
  map t_num [1; 2; 1; 9; 5; 5; 1; 10; 5; 3; 0].
Proof. reflexivity. Qed.

Definition demo_read : calls_table * list Z :=
  match read_statistics demo_graphs empty_calls [] with Ret x => x | _ => (empty_calls, []) end.

Lemma demo_graphs_fit : message_fits 2 demo_graphs.
Proof.
  unfold message_fits, demo_graphs. repeat (constructor || split); cbn; unfold in_u, in_s; try lia.
Qed.

Lemma message_roundtrip_witness : ∀ rest,
  load_message 2 empty_calls [] (save_message demo_graphs ++ rest) = Ret (demo_read.1, demo_read.2, rest).
Proof.
  intros rest. apply (message_roundtrip 2 demo_graphs empty_calls [] demo_read.1 demo_read.2 rest); [apply demo_graphs_fit|].
  vm_compute. reflexivity.
Defined.

Example demo_legacy :
  match load_legacy_calls 2 true empty_calls (put_items [legacy_item 4 true
    (mk_legacy 3 7 1 (mk_stats 2 30 20 20) [(8, 0, mk_stats 1 10 10 10)])]) with
  | Ret (s, a) => (map (λ r, (call_id r.2, thread_id r.2, parent_id r.2, address r.2, times_called (call_stats r.2))) (records (calls s)), a)
  | _ => ([], [])
  end = ([(1, 3, 0, 7, 2); (2, 3, 1, 8, 1)], []).
Proof. vm_compute. reflexivity. Qed.
