(* ===== verification/EndToEnd.v ===== *)
(** From the calls that were made to the table that is shown (collector/src/collector_app.cpp,
    collector/serialization.h, frontend/src/frontend.cpp, frontend/serialization.h).

    The thread that serves the front-end (CollectorApp) sends the call graphs of all threads whenever it
    is asked for an update, and clears them; the front-end adds what comes to its table of calls
    (CallsTable).  Here the two are put together: what the table says of a path of a thread is what the
    shadow stack (ShadowStack) makes of the calls of the thread, but for those that were not sent. *)

From S2P Require Import Prelude Statistics ShadowStack Analyzer ModuleTracker Threads Jumper PatchManager CollectorApp.
From S2P Require Import Sdb Hierarchy CallsTable.
Local Open Scope Z_scope.

(** * What the collector sends can be sent *)

(** The graph of a thread between two batches. *)
Record graph_ok (x : thread_analyzer) : Prop := {
  go_wf : wf_nodes (statistics x);
  go_rooted : rooted (statistics x);
  go_stack : stack (shadow x) ≠ [];
}.

Definition nodes_ok (nodes : gmap Z nodes_map) : Prop := map_Forall (λ _ m, wf_nodes m ∧ rooted m) nodes.

Section end_to_end.
Context (junk : stack_record).
Context {F : Type} `{HCF : Countable F} (file_id : string → F) (file : string → list Z).
Context (accessor : Z → thread_info → thread_info).
Context {W P : Type} {po : patch_ops W P}.
Context {Sym : Type} (load_image_info : string → result (list Sym * list (Z * string))).

Abbreviation server := (app_server (F := F) (W := W) (P := P) (Sym := Sym)).
Abbreviation run := (serve_task (F := F) junk file_id file accessor load_image_info).

(** The statistics that were sent, one message after another. *)
Definition statistics_sent (ms : list (app_message (Sym := Sym))) : list (gmap Z nodes_map) :=
  omap (λ m, match m with m_response (a_statistics nodes) => Some nodes | _ => None end) ms.

Lemma statistics_sent_app ms m : statistics_sent (ms ++ [m]) =
  statistics_sent ms ++ match m with m_response (a_statistics nodes) => [nodes] | _ => [] end.
Proof. unfold statistics_sent. rewrite omap_app. by destruct m as [|[]|]. Qed.

Lemma received_sent tid ms :
  received tid ms = foldl (λ m nodes, merge_nodes m (default ∅ (nodes !! tid))) ∅ (statistics_sent ms).
Proof.
  induction ms as [|m ms IH] using rev_ind; [done|].
  rewrite received_app, statistics_sent_app, foldl_app, IH. by destruct m as [|[]|].
Qed.

Lemma thread_accept_graph_ok calls x x' : graph_ok x → thread_accept_calls calls x = Ret x' → graph_ok x'.
Proof.
  intros [Hw Hr Hs]. unfold thread_accept_calls.
  destruct (update (shadow x) calls (statistics x)) as [[ss m]| |] eqn:E; simpl; [|done..]. intros [= <-].
  split; simpl.
  - by eapply update_wf.
  - by eapply update_rooted.
  - apply update_ok in E as (Hok & _); [|done]. by eapply frames_ok_nonempty.
Qed.

Definition threads_ok (an : analyzer) : Prop := map_Forall (λ _, graph_ok) (threads an).

Lemma accept_threads_ok t calls an an' : threads_ok an → accept_calls junk t calls an = Ret an' → threads_ok an'.
Proof.
  intros Ht. unfold accept_calls. destruct (thread_accept_calls _ _) as [x| |] eqn:E; simpl; [|done..].
  intros [= <-]. apply map_Forall_insert_2; [|done]. eapply thread_accept_graph_ok, E.
  destruct (threads an !! t) as [y|] eqn:Ey; simpl; [by apply (Ht t)|].
  split; simpl; [apply map_Forall_empty|apply rooted_empty|done].
Qed.

Lemma clear_threads_ok an : threads_ok an → threads_ok (clear an).
Proof.
  intros Ht t x. simpl. rewrite lookup_fmap_Some. intros (y & <- & Hy). destruct (Ht t y Hy).
  split; simpl; [apply map_Forall_empty|apply rooted_empty|done].
Qed.

Lemma threads_nodes_ok an : threads_ok an → nodes_ok (statistics <$> threads an).
Proof. intros Ht t m. rewrite lookup_fmap_Some. intros (x & <- & Hx). by destruct (Ht t x Hx). Qed.

(** What the thread that serves keeps, and what it sent. *)
Definition server_ok (s : server) : Prop :=
  threads_ok (analysis (app_ s)) ∧ Forall nodes_ok (statistics_sent (sent s)).

Lemma collect_threads_ok reads (a a' : app (F := F) (W := W) (P := P)) : threads_ok (analysis a) →
  collect_calls junk reads a = Ret a' → threads_ok (analysis a').
Proof.
  intros Ht. unfold collect_calls. destruct (fold_m _ _ reads) as [an| |] eqn:E; simpl; [|done..].
  intros [= <-]. simpl. revert E. apply fold_m_invariant; [|done]. intros an0 r an1 H0. by apply accept_threads_ok.
Qed.

Lemma statistics_sent_responses ms rs :
  statistics_sent (ms ++ map m_response rs) =
  statistics_sent ms ++ omap (λ r, match r with a_statistics nodes => Some nodes | _ => None end) rs.
Proof.
  revert ms. induction rs as [|r rs IH]; intros ms; [by rewrite !app_nil_r|].
  cbn [map]. rewrite cons_middle, app_assoc, IH, statistics_sent_app, <- app_assoc. by destruct r.
Qed.

Lemma request_server_ok snapshot q s s' : server_ok s →
  request_task (F := F) file_id file accessor load_image_info snapshot q s = Ret s' → server_ok s'.
Proof.
  intros [Ht Hs]. unfold request_task. destruct (session s); [|by intros [= <-]].
  destruct (handle _ _ _ _ snapshot q (app_ s)) as [[a rs]| |] eqn:Hh; simpl; [|done..]. intros [= <-].
  unfold server_ok. simpl. rewrite statistics_sent_responses.
  assert (q = q_update ∨ q ≠ q_update) as [->|Hq] by (destruct q; [by left|by right..]).
  - simpl in Hh. unfold handle_update in Hh.
    destruct (get_changes _ _ _ _) as [[[loaded unloaded] t]| |]; simpl in Hh; [|done..].
    apply Ret_inj in Hh. injection Hh as <- <-. split; [by apply clear_threads_ok|].
    apply Forall_app. split; [done|]. destruct loaded, unloaded; (constructor; [by apply threads_nodes_ok|constructor]).
  - destruct (handle_other _ _ _ _ _ _ _ _ _ Hq Hh) as (-> & _ & Hrs). split; [done|].
    apply Forall_app. split; [done|]. clear -Hrs. induction Hrs as [|r rs Hr _ IH]; [done|]. by destruct r.
Qed.

Lemma task_server_ok s t s' : server_ok s → run s t = Ret s' → server_ok s'.
Proof.
  intros Hok. destruct t as [reads|snapshot q| |reads]; simpl; [|by apply request_server_ok|by intros [= <-]|].
  - unfold collect_and_reschedule. destruct (collect_calls _ reads (app_ s)) as [a| |] eqn:E; simpl; [|done..].
    intros [= <-]. destruct Hok as [Ht Hs]. split; [by eapply collect_threads_ok|done].
  - unfold exit_task. destruct (session s); [|by intros [= <-]].
    unfold finalize_session. destruct (collect_calls _ reads (app_ s)) as [a| |] eqn:E; simpl; [|done..].
    intros [= <-]. destruct Hok as [Ht Hs]. split; [by eapply collect_threads_ok|]. simpl.
    by rewrite statistics_sent_app, app_nil_r.
Qed.

(** * Reading it *)

(** The front-end reads the messages as they come. *)
Definition read_messages (ws : list (list (Z * list graph))) (s : calls_table) (threads : list Z) :
    result (calls_table * list Z) :=
  fold_m (λ x w, read_statistics w x.1 x.2) (s, threads) ws.

Definition messages_size (ws : list (list (Z * list graph))) : Z := foldr (λ w n, message_size w + n) 0 ws.

Lemma read_messages_ok ws nodes : Forall2 carries ws nodes → Forall nodes_ok nodes → ∀ s M threads,
  calls_ok s → holds s M → next_id s + messages_size ws < 2 ^ 32 →
  ∃ s' threads', read_messages ws s threads = Ret (s', threads') ∧ calls_ok s' ∧
    holds s' (λ t, foldl (λ m nodes, merge_nodes m (default ∅ (nodes !! t))) (M t) nodes).
Proof.
  induction 1 as [|w n ws nodes Hw _ IH]; intros Hn s M threads Hs Hh Hsize; [by exists s, threads|].
  apply Forall_cons in Hn as [Hn0 Hn]. simpl in Hsize.
  assert (0 ≤ messages_size ws) by (clear; induction ws; simpl; unfold message_size in *; lia).
  destruct (read_statistics_ok w n s M threads Hs Hh ltac:(lia) Hw) as (s1 & Hr & Hs1 & Hh1 & Hid).
  { intros t m Hm. by apply (Hn0 t m). }
  destruct (IH Hn s1 _ (if w is [] then threads else w.*1) Hs1 Hh1 ltac:(lia)) as (s2 & th & Hr2 & Hs2 & Hh2).
  exists s2, th. unfold read_messages. simpl. rewrite Hr. by split_and!.
Qed.

Lemma empty_calls_ok : calls_ok empty_calls.
Proof.
  split; simpl; [apply (clear_ok empty_table)|apply (index_cleared_ok key_of empty_table empty_index)|apply NoDup_nil_2| |lia].
  split; done.
Qed.

Lemma empty_holds : holds empty_calls (λ _, ∅).
Proof. intros t q a. unfold stats_at. by destruct (walk _ t q). Qed.

(** What is sent can be written: the graphs of the threads, each as deep as it is. *)
Definition depth (m : nodes_map) : nat := max_list (length <$> (map_to_list m).*1).
Definition write_statistics (nodes : gmap Z nodes_map) : list (Z * list graph) :=
  map (λ x, (x.1, graphs_of (depth x.2) x.2 [])) (map_to_list nodes).

Lemma depth_bound m : map_Forall (λ q _, (length q ≤ depth m)%nat) m.
Proof.
  intros q st Hq. apply max_list_elem_of_le, list_elem_of_fmap. exists q. split; [done|].
  apply list_elem_of_fmap. exists (q, st). split; [done|]. by apply elem_of_map_to_list.
Qed.

Lemma write_carries nodes : nodes_ok nodes → carries (write_statistics nodes) nodes.
Proof.
  intros Hok. assert ((write_statistics nodes).*1 = (map_to_list nodes).*1) as Hk.
  { unfold write_statistics. induction (map_to_list nodes) as [|x l IH]; [done|]. simpl. by f_equal. }
  split; rewrite ?Hk.
  - apply NoDup_fst_map_to_list.
  - intros t. rewrite list_elem_of_fmap. split.
    + intros ([t' m] & -> & Hin%elem_of_map_to_list). by exists m.
    + intros [m Hm]. exists (t, m). split; [done|]. by apply elem_of_map_to_list.
  - intros t gs m ([t' m'] & [= -> ->] & Hin%elem_of_map_to_list)%list_elem_of_fmap Hm. simpl in *.
    rewrite Hm in Hin. injection Hin as ->.
    apply graphs_of_sends; [by destruct (Hok t' m' Hm)|apply depth_bound].
Qed.

Lemma sent_server_ok o a tasks s : analysis a = new_analyzer o → fold_m run (start a) tasks = Ret s → server_ok s.
Proof.
  intros Ha. apply (fold_m_invariant run server_ok); [intros ? ? ?; by apply task_server_ok|].
  split; simpl; [rewrite Ha; apply map_Forall_empty|constructor].
Qed.

(** The front-end that reads, in the order they come, the call graphs it was sent — the nodes of a
    graph in any order that has callers before callees — has a table which, followed from the root of a
    thread along any path, holds the statistics of the node on that path: those that analyzing at once
    all the calls collected of the thread gives, less what is not sent yet.  Reading never fails while
    the identifiers of the records last. *)
Theorem table_of_calls o a tasks s ws :
  analysis a = new_analyzer o → fold_m run (start a) tasks = Ret s →
  Forall2 carries ws (statistics_sent (sent s)) → messages_size ws < 2 ^ 32 - 1 →
  ∃ t threads, read_messages ws empty_calls [] = Ret (t, threads) ∧
    ∀ tid, ∃ shown ss,
      (∀ p x, stats_at (find_call t) tid p x = shown !! (p ++ [x])) ∧
      update (shadow_stack_new o junk) (batches (thread_ops tid true tasks)) ∅ =
        Ret (ss, merge_nodes shown (statistics (thread_of junk tid (analysis (app_ s))))).
Proof.
  intros Ha Hrun Hws Hsize. destruct (sent_server_ok o a tasks s Ha Hrun) as [_ Hsent].
  destruct (read_messages_ok ws _ Hws Hsent empty_calls (λ _, ∅) [] empty_calls_ok empty_holds)
    as (t & threads & Hr & _ & Hh); [simpl; lia|].
  exists t, threads. split; [done|]. intros tid.
  pose proof (start_ops _ _ _ _ _ o a tasks s tid Ha Hrun) as Hops. apply (reads_merge junk o) in Hops as [ss Hss].
  exists (received tid (sent s)), ss. split; [|done]. intros p x. by rewrite received_sent, Hh.
Qed.

(** The collector can write all it sends so that it is read like that. *)
Lemma sent_carried o a tasks s : analysis a = new_analyzer o → fold_m run (start a) tasks = Ret s →
  Forall2 carries (write_statistics <$> statistics_sent (sent s)) (statistics_sent (sent s)).
Proof.
  intros Ha Hrun. destruct (sent_server_ok o a tasks s Ha Hrun) as [_ Hsent].
  induction Hsent as [|n l Hn _ IH]; simpl; constructor; [by apply write_carries|done].
Qed.
End end_to_end.

(** * A session *)

Definition demo_sent : list (gmap Z nodes_map) := statistics_sent (sent demo_end).
Definition demo_messages : list (list (Z * list graph)) := write_statistics <$> demo_sent.

Definition demo_table : calls_table :=
  match read_messages demo_messages empty_calls [] with Ret x => x.1 | _ => empty_calls end.

(** The calls of the two threads in the table, by identifiers: the node of the second, and both nodes
    of the path of the first. *)
Lemma demo_table_records :
  map (λ x, (call_id x.2, thread_id x.2, parent_id x.2, address x.2, times_called (call_stats x.2)))
    (records (calls demo_table)) =
  [(1, 2, 0, 9, 0); (2, 1, 0, 7, 0); (3, 1, 2, 8, 1)].
Proof. vm_compute. reflexivity. Qed.

Lemma table_of_calls_witness :
  ∃ t threads, read_messages demo_messages empty_calls [] = Ret (t, threads) ∧
    ∀ tid, ∃ shown ss,
      (∀ p x, stats_at (find_call t) tid p x = shown !! (p ++ [x])) ∧
      update (shadow_stack_new (mk_overhead 1 2) demo_junk)
        (batches (thread_ops tid true (concat demo_batches))) ∅ =
        Ret (ss, merge_nodes shown (statistics (thread_of demo_junk tid (analysis (app_ demo_end))))).
Proof.
  apply (table_of_calls (po := demo_function_patches) demo_junk (λ p : string, p) demo_file demo_accessor
    demo_image_info (mk_overhead 1 2) demo_app (concat demo_batches) demo_end demo_messages);
    [reflexivity|exact demo_run_eq| |vm_compute; reflexivity].
  apply (sent_carried (po := demo_function_patches) demo_junk (λ p : string, p) demo_file demo_accessor
    demo_image_info (mk_overhead 1 2) demo_app (concat demo_batches)); [reflexivity|exact demo_run_eq].
Defined.
