(* ===== verification/Merged.v ===== *)
(** From the calls of all threads to the cumulative view (frontend/serialization.h, frontend/src/representation.cpp).

    The table of calls that is read from what the collector sends (CallsTable, EndToEnd) is merged over the threads
    (Cumulative).  The table that is read is a tree in which parents come first, which is what merging needs; the stack
    of a call in it is the path along which it is found; so the merged tree shows, along every path, the sum of what
    the analysis of the calls of each thread gives.  The messages come as bytes ([Archive], [Messages]). *)

From S2P Require Import Prelude Statistics ShadowStack Analyzer ModuleTracker Threads Jumper PatchManager CollectorApp.
From S2P Require Import Sdb Join Hierarchy CallsTable EndToEnd Derived Cumulative Archive Messages.
Local Open Scope Z_scope.

(** * The table that is read is in order *)

Definition calls_of (s : calls_table) : list call_statistics := values (calls s).

(** There is a call with this identifier in this thread, or it is the root. *)
Definition known (l : list call_statistics) (tid i : Z) : Prop :=
  i = 0 ∨ ∃ m, m ∈ l ∧ call_id m = i ∧ thread_id m = tid.

Record tree_calls (s : calls_table) : Prop := {
  tc_ok : calls_ok s;
  tc_ordered : ordered (calls_of s);
  tc_threads n : n ∈ calls_of s → known (calls_of s) (thread_id n) (parent_id n);
  tc_length : len (calls_of s) < next_id s
}.

Definition keeps (l l' : list call_statistics) : Prop := ∀ tid i, known l tid i → known l' tid i.

Definition same_call (n n' : call_statistics) : Prop := same_node n n' ∧ thread_id n = thread_id n'.

Lemma same_calls_known l l' tid i : Forall2 same_call l l' → known l tid i ↔ known l' tid i.
Proof.
  intros H. unfold known. split; (intros [?|(m & Hm & <- & <-)]; [by left|right]); apply list_elem_of_lookup in Hm as [k Hk].
  - destruct (Forall2_lookup_l _ _ _ _ _ H Hk) as (m' & Hm' & (E & _ & _) & Et). exists m'.
    split_and!; [by eapply list_elem_of_lookup_2|done..].
  - destruct (Forall2_lookup_r _ _ _ _ _ H Hk) as (m' & Hm' & (E & _ & _) & Et). exists m'.
    split_and!; [by eapply list_elem_of_lookup_2|done..].
Qed.

Lemma same_calls_threads l l' : Forall2 same_call l l' →
  (∀ n, n ∈ l → known l (thread_id n) (parent_id n)) → ∀ n, n ∈ l' → known l' (thread_id n) (parent_id n).
Proof.
  intros H Hl n Hn. apply (same_calls_known _ _ _ _ H). apply list_elem_of_lookup in Hn as [k Hk].
  destruct (Forall2_lookup_r _ _ _ _ _ H Hk) as (m & Hm & (_ & E & _) & Et). rewrite <- E, <- Et. apply Hl.
  by eapply list_elem_of_lookup_2.
Qed.

Lemma same_calls_nodes l l' : Forall2 same_call l l' → Forall2 same_node l l'.
Proof. intros H. eapply Forall2_impl; [exact H|]. by intros ? ? []. Qed.

Lemma fresh_call s : calls_ok s → next_id s ∉ map call_id (calls_of s).
Proof.
  intros [Ht Hi Hk Hf Hid] Hin. apply group_elem in Hin as (c & ([h c'] & -> & Hc)%list_elem_of_fmap & E). cbn [snd] in *.
  assert (find_call s (key_of c') = Some c') as Hfind by (apply (find_call_spec s Ht Hi Hk); eauto).
  pose proof (fo_below _ _ Hf _ _ Hfind). lia.
Qed.

(** What finding a record or making one leaves, with the number of the next. *)
Definition ensured (key : call_node_key) (s : calls_table) (l : list call_statistics) (n : Z) : Prop :=
  l = calls_of s ∧ n = next_id s ∨ l = calls_of s ++ [(construct key (next_id s)).1] ∧ n = next_id s + 1.

Lemma touch_values key st s : calls_ok s → next_id s + 1 < 2 ^ 32 → ∀ id s', touch key st s = Ret (id, s') →
  ∃ l, ensured key s l (next_id s') ∧ Forall2 same_call l (calls_of s').
Proof.
  intros [Ht Hi Hk Hf Hid] Hn id s' Htouch.
  pose proof (ensure_ok key s ltac:(done) ltac:(lia) ltac:(lia)) as Hen. unfold touch in Htouch.
  destruct (callnode key s) as [[new_ h0] s1] eqn:E1. set (s2 := commit new_ key h0 s1) in *.
  destruct Hen as (Hs2 & _ & Hfind & Hnext).
  destruct (callnode_found key s2 Hs2 ltac:(eauto)) as (h & c & E2 & _ & Hin). rewrite E2 in Htouch.
  destruct (find_record _ _) as [c'|]; [|done]. injection Htouch as _ <-. exists (calls_of s2). split.
  - match goal with |- ensured _ _ _ ?n => change n with (next_id s2) end. rewrite Hnext. unfold callnode in E1. unfold ensured, calls_of, s2, commit. cbn [calls].
    destruct (equal_range key (by_node s)) as [|h1 l1] eqn:Er.
    + right. injection E1 as <- <- <-. split; [exact (values_create (construct key (next_id s)).1 (calls s))|].
      unfold find_call. by rewrite Er.
    + left. injection E1 as <- <- <-. split; [done|]. unfold find_call in *. rewrite Er in *.
      destruct (range_cases s Hi key) as [[E _]|(h2 & l2 & c2 & E & Hc2 & _)]; [congruence|].
      rewrite Er in E. injection E as <- <-. by rewrite (proj2 (find_record_elem h1 c2 _ (proj1 Ht)) Hc2).
  - unfold calls_of, s2, commit. cbn [calls]. unfold values, modify. cbn [records]. clear.
    generalize (records (calls s1)). intros rs. induction rs as [|[i n] rs IH]; [constructor|].
    simpl. constructor; [|exact IH]. case_decide; by repeat split.
Qed.

Lemma keeps_trans l1 l2 l3 : keeps l1 l2 → keeps l2 l3 → keeps l1 l3.
Proof. unfold keeps. auto. Qed.

Lemma keeps_app l n : keeps l (l ++ [n]).
Proof. intros tid i [?|(m & Hm & Hi)]; [by left|right]. exists m. split; [|done]. apply elem_of_app. by left. Qed.

Lemma ensured_tree key s l n : tree_calls s → known (calls_of s) key.1.1 key.1.2 → ensured key s l n →
  ordered l ∧ (∀ m, m ∈ l → known l (thread_id m) (parent_id m)) ∧ len l < n ∧ keeps (calls_of s) l.
Proof.
  intros [Hs Ho Hth Hl] Hp [[-> ->]|[-> ->]]; [by split_and!; [..|intros tid i]|]. split_and!.
  - constructor; [done|cbn; pose proof (co_id _ Hs); lia|by apply fresh_call|]. destruct Hp as [Hp|(m & Hm & Hi & _)]; [by left|right].
    apply group_elem. by exists m.
  - intros m [Hm|Hm%list_elem_of_singleton]%elem_of_app; apply keeps_app; [by apply Hth|by subst m].
  - rewrite length_app. simpl. lia.
  - apply keeps_app.
Qed.

Lemma touch_tree key st s : tree_calls s → known (calls_of s) key.1.1 key.1.2 → next_id s + 1 < 2 ^ 32 →
  ∃ id s', touch key st s = Ret (id, s') ∧ tree_calls s' ∧ next_id s ≤ next_id s' ≤ next_id s + 1 ∧
    keeps (calls_of s) (calls_of s') ∧ known (calls_of s') key.1.1 id.
Proof.
  intros Hs Hp Hn. pose proof (tc_ok _ Hs) as Hok. pose proof (co_id _ Hok) as Hid.
  assert (key.1.2 < next_id s) as Hlt.
  { destruct Hp as [->|(m & ([h m'] & -> & Hm)%list_elem_of_fmap & <- & _)]; [lia|]. cbn [snd].
    assert (find_call s (key_of m') = Some m') as Hf by (apply (find_call_spec s); [apply Hok..|eauto]).
    pose proof (fo_below _ _ (co_forest _ Hok) _ _ Hf). lia. }
  destruct (touch_calls_ok key st s Hok Hlt Hn) as (c & s' & Ht & Hok' & Hle & _ & Hf & _).
  destruct (touch_values key st s Hok Hn _ _ Ht) as (l & Hl & Hsame).
  destruct (ensured_tree key s l _ Hs Hp Hl) as (Ho & Hth & Hlen & Hk). exists (call_id c), s'. split_and!; [done| |lia..| |].
  - split; [done|eapply ordered_same; [exact Ho|by apply same_calls_nodes]|by apply (same_calls_threads l)|].
    by rewrite <- (Forall2_length _ _ _ Hsame).
  - intros tid i H. apply (same_calls_known _ _ _ _ Hsame). by apply Hk.
  - right. exists c. apply (find_call_spec s') in Hf as (h & Hin & <-); [|apply Hok'..].
    split_and!; [by apply (list_elem_of_fmap_2 snd) in Hin|done|done].
Qed.

Definition reads_tree (s : calls_table) (n : Z) (r : result calls_table) : Prop :=
  ∃ s', r = Ret s' ∧ tree_calls s' ∧ next_id s ≤ next_id s' ≤ next_id s + n ∧ keeps (calls_of s) (calls_of s').

Definition node_tree (g : graph) : Prop := ∀ q tid parent s, tree_calls s → known (calls_of s) tid parent →
  next_id s + len (nodes_of q g) < 2 ^ 32 → reads_tree s (len (nodes_of q g)) (read_node tid parent g s).

Lemma forest_tree gs : Forall node_tree gs → ∀ q tid parent s, tree_calls s → known (calls_of s) tid parent →
  next_id s + len (forest_nodes q gs) < 2 ^ 32 →
  reads_tree s (len (forest_nodes q gs)) (fold_m (λ s g, read_node tid parent g s) s gs).
Proof.
  induction 1 as [|g gs Hg _ IH]; intros q tid parent s Hs Hp; [intros _; exists s; split_and!; [done|done|lia|simpl; lia|by intros t i]|].
  rewrite forest_nodes_cons, length_app. intros Hn. cbn [fold_m].
  destruct (Hg q tid parent s Hs Hp ltac:(lia)) as (s1 & -> & Hs1 & Hn1 & Hk1). cbn [mbind result_bind].
  destruct (IH q tid parent s1 Hs1 (Hk1 _ _ Hp) ltac:(lia)) as (s2 & -> & Hs2 & Hn2 & Hk2).
  exists s2. split_and!; [done|done|lia|lia|by eapply keeps_trans].
Qed.

Lemma node_trees g : node_tree g.
Proof.
  induction g as [a st cs IH] using graph_ind. intros q tid parent s Hs Hp Hn.
  change (nodes_of q (node a st cs)) with ([(q ++ [a], st)] ++ forest_nodes (q ++ [a]) cs) in *.
  rewrite length_app in *. simpl length in *.
  destruct (touch_tree (tid, parent, a) st s Hs Hp ltac:(lia)) as (id & s1 & Ht & Hs1 & Hn1 & Hk1 & Hid).
  destruct (forest_tree cs IH (q ++ [a]) tid id s1 Hs1 Hid ltac:(lia)) as (s2 & Hr & Hs2 & Hn2 & Hk2).
  exists s2. cbn [read_node]. rewrite Ht. split_and!; [exact Hr|done|lia|lia|by eapply keeps_trans].
Qed.

Lemma read_threads_tree w : ∀ s threads first_, tree_calls s → next_id s + message_size w < 2 ^ 32 →
  ∃ x, fold_m read_thread (s, threads, first_) w = Ret x ∧ tree_calls x.1.1 ∧
    next_id s ≤ next_id x.1.1 ≤ next_id s + message_size w.
Proof.
  induction w as [|[tid gs] w IH]; intros s threads first_ Hs.
  { intros _. eexists. split_and!; [done|done|cbn; lia|change (message_size []) with 0; cbn; lia]. }
  rewrite message_size_cons. cbn [snd]. intros Hn. assert (0 ≤ message_size w) by (unfold message_size; lia). cbn [fold_m read_thread].
  destruct (forest_tree gs (Forall_true _ gs node_trees) [] tid 0 s Hs (or_introl eq_refl) ltac:(lia))
    as (s1 & Hr & Hs1 & Hn1 & _). cbn [fst snd] in *. rewrite Hr. cbn [mbind result_bind].
  destruct (IH s1 ((if first_ then [] else threads) ++ [tid]) false Hs1 ltac:(lia)) as (x & Hx & Htx & Hnx).
  exists x. split_and!; [done|done|lia|lia].
Qed.

Lemma read_messages_tree ws : ∀ s threads, tree_calls s → next_id s + messages_size ws < 2 ^ 32 →
  ∃ s' threads', read_messages ws s threads = Ret (s', threads') ∧ tree_calls s' ∧ next_id s' ≤ next_id s + messages_size ws.
Proof.
  induction ws as [|w ws IH]; intros s threads Hs Hn; [exists s, threads; split_and!; [done..|cbn; lia]|].
  cbn [messages_size foldr] in Hn. change (foldr _ 0 ws) with (messages_size ws) in Hn.
  assert (0 ≤ messages_size ws) by (clear; induction ws; simpl; unfold message_size in *; lia).
  destruct (read_threads_tree w s threads true Hs ltac:(lia)) as ([[s1 th] b] & Hr & Hs1 & Hn1). cbn [fst] in *.
  set (s2 := mk_calls (calls s1) (by_node s1) (next_id s1) (S (invalidated s1))).
  assert (tree_calls s2) as Hs2 by (destruct Hs1 as [[] ? ? ?]; split; [by split|done..]).
  destruct (IH s2 th Hs2 ltac:(cbn; lia)) as (s3 & th3 & Hr3 & Hs3 & Hn3). exists s3, th3. split_and!; [|done|].
  - unfold read_messages. cbn [fold_m fst snd]. unfold read_statistics. rewrite Hr. exact Hr3.
  - cbn in Hn3. cbn [messages_size foldr]. change (foldr _ 0 ws) with (messages_size ws). lia.
Qed.

(** * Paths are stacks *)

Lemma stack_split l n : ordered l → n ∈ l → ∃ l1 l2, l = l1 ++ n :: l2 ∧
  stack_in l n = default [] (stacks l1 !! parent_id n) ++ [address n] ∧ (∀ m, m ∈ l1 → stack_in l m = stack_in l1 m) ∧
  ordered l1 ∧ (parent_id n = 0 ∨ parent_id n ∈ map call_id l1).
Proof.
  intros Ho (l1 & l2 & ->)%list_elem_of_split. exists l1, l2. pose proof Ho as Ho'. rewrite cons_middle, app_assoc in Ho'.
  pose proof (ordered_app _ _ Ho') as Hn. split_and!; [done| | |by apply ordered_app in Hn|apply (ordered_last _ _ Hn)].
  - rewrite cons_middle, app_assoc, stack_in_prefix; [apply stack_in_new|done|apply elem_of_app; right; by left].
  - intros m Hm. by apply stack_in_prefix.
Qed.

Lemma stack_root l n : ordered l → n ∈ l → parent_id n = 0 → stack_in l n = [address n].
Proof.
  intros Ho Hn Hp. destruct (stack_split l n Ho Hn) as (l1 & l2 & _ & -> & _ & Ho1 & _). rewrite Hp.
  by rewrite stacks_fresh by by apply ordered_nonzero.
Qed.

Lemma stack_child l n m : ordered l → n ∈ l → m ∈ l → call_id m = parent_id n →
  stack_in l n = stack_in l m ++ [address n].
Proof.
  intros Ho Hn Hm Hp. destruct (stack_split l n Ho Hn) as (l1 & l2 & Hl & -> & Hs & Ho1 & Hin). f_equal.
  destruct Hin as [Hz|(k & Hk & Hkp)%group_elem].
  { destruct (ordered_nonzero l Ho). rewrite <- Hz, <- Hp. apply group_elem. by exists m. }
  assert (k = m) as ->.
  { apply (NoDup_map_elem call_id l); [by apply ordered_once|rewrite Hl; apply elem_of_app; by left|done|congruence]. }
  rewrite (Hs m Hk). unfold stack_in. by rewrite Hp.
Qed.

Section walks.
Context (s : calls_table) (Hs : tree_calls s).

Lemma found c : c ∈ calls_of s → find_call s (key_of c) = Some c.
Proof using Hs.
  intros ([h c'] & -> & Hc)%list_elem_of_fmap. apply (find_call_spec s); [apply (tc_ok _ Hs)..|eauto].
Qed.

Lemma found_elem k c : find_call s k = Some c → c ∈ calls_of s ∧ key_of c = k.
Proof using Hs.
  intros (h & Hc & <-)%(find_call_spec s); [|apply (tc_ok _ Hs)..]. split; [|done]. by apply (list_elem_of_fmap_2 snd) in Hc.
Qed.

Lemma same_id c d : c ∈ calls_of s → d ∈ calls_of s → call_id c = call_id d → c = d.
Proof using Hs. intros Hc Hd. apply (NoDup_map_elem call_id (calls_of s)); [apply ordered_once, Hs|done|done]. Qed.

(** A call is found along its stack. *)
Lemma walk_stack n : ∀ c, length (stack_in (calls_of s) c) = n → c ∈ calls_of s →
  walk (find_call s) (thread_id c) (stack_in (calls_of s) c) = Some (call_id c).
Proof using Hs.
  induction (lt_wf n) as [n _ IH]. intros c Hn Hc.
  assert (∀ i, parent_id c = i → find_call s (thread_id c, i, address c) = Some c) as Hf by (intros i <-; by apply found).
  destruct (tc_threads _ Hs c Hc) as [Hp|(m & Hm & Hp & Ht)].
  - rewrite (stack_root _ _ (tc_ordered _ Hs) Hc Hp). unfold walk. simpl. by rewrite (Hf 0 Hp).
  - pose proof (stack_child _ _ _ (tc_ordered _ Hs) Hc Hm Hp) as E. rewrite E, walk_snoc, <- Ht.
    rewrite (IH (length (stack_in (calls_of s) m))); [|rewrite <- Hn, E, length_app; simpl; lia|done|done]. simpl.
    rewrite Ht. by rewrite (Hf (call_id m)) by done.
Qed.

(** What is found along a path is that of the call with this stack. *)
Lemma stats_at_stack tid p a st : stats_at (find_call s) tid p a = Some st ↔
  ∃ c, c ∈ calls_of s ∧ thread_id c = tid ∧ stack_in (calls_of s) c = p ++ [a] ∧ call_stats c = st.
Proof using Hs.
  pose proof (tc_ok _ Hs) as Hok. pose proof (co_forest _ Hok) as Hforest. unfold stats_at. split.
  - destruct (walk (find_call s) tid p) as [i|] eqn:Hw; [|done]. cbn [mbind option_bind].
    destruct (find_call s (tid, i, a)) as [c|] eqn:Hf; [|done]. intros [= <-]. destruct (found_elem _ _ Hf) as [Hc Hk].
    injection Hk as Ht Hp Ha. exists c. split_and!; [done|done| |done].
    pose proof (walk_stack _ c eq_refl Hc) as Hw'. rewrite Ht in Hw'.
    assert (walk (find_call s) tid (p ++ [a]) = Some (call_id c)) as Hw2 by (rewrite walk_snoc, Hw; simpl; by rewrite Hf).
    destruct (walk_inj _ _ _ _ _ _ (call_id c) Hforest ltac:(pose proof (fo_below _ _ Hforest _ _ Hf); lia) Hw' Hw2). done.
  - intros (c & Hc & <- & Hst & <-). pose proof (walk_stack _ c eq_refl Hc) as Hw. rewrite Hst, walk_snoc in Hw.
    destruct (walk (find_call s) (thread_id c) p) as [i|]; [|done]. cbn [mbind option_bind] in Hw |- *.
    destruct (find_call s (thread_id c, i, a)) as [d|] eqn:Hf; [|done]. injection Hw as Hid.
    by rewrite (same_id d c (proj1 (found_elem _ _ Hf)) Hc Hid).
Qed.

(** Calls of one stack are of different threads. *)
Lemma stack_threads p : NoDup (map thread_id (items_of (calls s) p)).
Proof using Hs.
  apply NoDup_fmap_2_strong.
  - intros c d [Hp Hc]%list_elem_of_filter [Hq Hd]%list_elem_of_filter E.
    pose proof (walk_stack _ c eq_refl Hc) as Hw. pose proof (walk_stack _ d eq_refl Hd) as Hw'.
    unfold calls_of in *. rewrite Hp in Hw. rewrite Hq, <- E, Hw in Hw'. injection Hw' as Hid. by apply same_id.
  - apply NoDup_filter. apply (NoDup_fmap_1 call_id). by apply (ordered_once (calls_of s)), Hs.
Qed.
End walks.

(** * Sums over threads *)

Definition total_stats (l : list function_statistics) : function_statistics :=
  foldr add_stats function_statistics_default l.

Lemma total_stats_perm l l' : l ≡ₚ l' → total_stats l = total_stats l'.
Proof.
  induction 1 as [|x l l' _ IH|x y l|l1 l2 l3 _ IH1 _ IH2]; cbn; [done|by f_equal| |congruence].
  by rewrite !add_stats_assoc, (add_stats_comm x y).
Qed.

Lemma sum_of_total l : sum_of l = total_stats (map call_stats l).
Proof.
  unfold sum_of. induction l as [|n l IH] using rev_ind; [done|]. rewrite fold_left_app. cbn [fold_left]. rewrite IH.
  rewrite (total_stats_perm (map call_stats (l ++ [n])) (call_stats n :: map call_stats l)).
  - cbn [total_stats foldr]. by rewrite add_stats_comm.
  - rewrite map_app. cbn [map]. by rewrite Permutation_app_comm.
Qed.

Lemma by_threads (l : list call_statistics) (f : Z → option function_statistics) tids : NoDup (map thread_id l) → NoDup tids →
  (∀ tid st, f tid = Some st ↔ ∃ c, c ∈ l ∧ thread_id c = tid ∧ call_stats c = st) → (∀ tid, is_Some (f tid) → tid ∈ tids) →
  map call_stats l ≡ₚ omap f tids.
Proof.
  intros Hl Ht Hf Hin. assert (map call_stats l = omap f (map thread_id l)) as ->.
  { assert (∀ c, c ∈ l → f (thread_id c) = Some (call_stats c)) as Hc by (intros c Hc; apply Hf; eauto).
    clear -Hc. induction l as [|c l IH]; [done|]. simpl. rewrite (Hc c ltac:(by left)). f_equal. apply IH.
    intros d Hd. apply Hc. by right. }
  assert (omap f tids = omap f (filter (λ t, is_Some (f t)) tids)) as ->.
  { clear. induction tids as [|t tids IH]; [done|]. simpl. destruct (f t) as [st|] eqn:E.
    - rewrite filter_cons_True by by rewrite E. simpl. rewrite E. by f_equal.
    - rewrite filter_cons_False by (rewrite E; by intros []). done. }
  apply omap_Permutation, NoDup_Permutation; [done|by apply NoDup_filter|]. intros t.
  rewrite group_elem, list_elem_of_filter. split.
  - intros (c & Hc & <-). assert (is_Some (f (thread_id c))) as H by (exists (call_stats c); apply Hf; eauto). auto.
  - intros [[st Hst] _]. apply Hf in Hst as (c & Hc & <- & _). by exists c.
Qed.

(** What is merged of a table that holds the statistics [M] of threads. *)
Lemma merged_stacks s M g p a : tree_calls s → holds s M → cumulative_ok g → source g = calls s →
  p ++ [a] ∈ stacks_of (merged g) ↔ ∃ tid, is_Some (M tid !! (p ++ [a])).
Proof.
  intros Hs HM Hg Hsrc. unfold stacks_of at 1. rewrite (mg_present _ _ _ Hg), Hsrc. unfold stacks_of. rewrite group_elem. split.
  - intros (c & Hc & E). exists (thread_id c), (call_stats c). rewrite <- HM. apply (stats_at_stack s Hs). by exists c.
  - intros (tid & st & Hst). rewrite <- HM in Hst. apply (stats_at_stack s Hs) in Hst as (c & Hc & _ & E & _). by exists c.
Qed.

Lemma merged_sums s M g tids r : tree_calls s → holds s M → cumulative_ok g → source g = calls s →
  NoDup tids → (∀ tid p, is_Some (M tid !! p) → tid ∈ tids) → r ∈ values (merged g) →
  call_stats r = total_stats (omap (λ tid, M tid !! stack_in (values (merged g)) r) tids).
Proof.
  intros Hs HM Hg Hsrc Hnd Htids Hr. destruct (mg_rows _ _ _ Hg r Hr) as [_ ->]; [by intros []|]. rewrite Hsrc, sum_of_total.
  destruct (parent_stack_elem _ r (mg_tree _ _ _ Hg) Hr) as (p & E & _).
  rewrite E. apply total_stats_perm, by_threads; [by apply stack_threads|done| |by intros tid [st ?]; apply (Htids tid (p ++ [address r]))].
  intros tid st. rewrite <- HM. rewrite (stats_at_stack s Hs). unfold items_of. setoid_rewrite list_elem_of_filter.
  unfold calls_of. naive_solver.
Qed.

(** * The cumulative view *)

Lemma empty_tree : tree_calls empty_calls.
Proof. split; [apply empty_calls_ok|constructor|by intros n ?%elem_of_nil|cbn; lia]. Qed.

(** ** The messages *)

Section messages_read.
Context {EO : equal_order} {tok : Type} `{AR : strmd tok} {LAWS : strmd_laws tok}.

(** The messages are read from archives, one each, as they come. *)
Definition load_messages (fuel : nat) (ms : list (list tok)) (s : calls_table) (threads : list Z) : result (calls_table * list Z) :=
  fold_m (λ x a, '(s, threads, _) ← load_message fuel x.1 x.2 a; Ret (s, threads)) (s, threads) ms.

Lemma messages_roundtrip fuel ws : Forall (message_fits fuel) ws → ∀ s threads x,
  read_messages ws s threads = Ret x → load_messages fuel (map save_message ws) s threads = Ret x.
Proof using LAWS.
  induction 1 as [|w ws Hw _ IH]; intros s threads x; [done|]. unfold read_messages, load_messages. cbn [map fold_m fst snd].
  destruct (read_statistics w s threads) as [[s1 th]| |] eqn:E; [|by intros [=]..]. cbn [mbind result_bind]. intros Hr.
  pose proof (message_roundtrip fuel w s threads s1 th [] Hw E) as Hm. rewrite app_nil_r in Hm. rewrite Hm. by apply IH.
Qed.
End messages_read.

Section end_to_end.
Context {EO : equal_order} {tok : Type} `{AR : strmd tok} {LAWS : strmd_laws tok}.
Context (junk : stack_record).
Context {F : Type} `{HCF : Countable F} (file_id : string → F) (file : string → list Z).
Context (accessor : Z → thread_info → thread_info).
Context {W P : Type} {po : patch_ops W P}.
Context {Sym : Type} (load_image_info : string → result (list Sym * list (Z * string))).

Abbreviation run := (serve_task (F := F) junk file_id file accessor load_image_info).

(** C4: A cumulative view of what the collector sent: reading the messages from the bytes that are written, and merging the
    threads, never fails while the identifiers last and the values are in the ranges of their types, and the merged tree has a row for every path of any thread, once, with the sum over the threads
    of the statistics of the node on this path, that is, of what analyzing all the calls collected of each
    thread gives, less what is not sent yet. *)
Theorem cumulative_view fuel o a tasks s ws :
  analysis a = new_analyzer o → fold_m run (start a) tasks = Ret s →
  Forall2 carries ws (statistics_sent (sent s)) → messages_size ws < 2 ^ 32 - 1 →
  Forall (message_fits fuel) ws →
  ∃ t threads g (shown : Z → nodes_map),
    load_messages fuel (map save_message ws) empty_calls [] = Ret (t, threads) ∧ group_by_callstack (calls t) = Ret g ∧
    (∀ tid, ∃ ss, update (shadow_stack_new o junk) (batches (thread_ops tid true tasks)) ∅ =
      Ret (ss, merge_nodes (shown tid) (statistics (thread_of junk tid (analysis (app_ s)))))) ∧
    let rows := values (merged g) in
    ordered rows ∧ NoDup (map (stack_in rows) rows) ∧
    (∀ p x, p ++ [x] ∈ map (stack_in rows) rows ↔ ∃ tid, is_Some (shown tid !! (p ++ [x]))) ∧
    ∀ r tids, r ∈ rows → NoDup tids → (∀ tid p, is_Some (shown tid !! p) → tid ∈ tids) →
      call_stats r = total_stats (omap (λ tid, shown tid !! stack_in rows r) tids).
Proof using All.
  intros Ha Hrun Hws Hsize Hfit. destruct (sent_server_ok _ _ _ _ _ o a tasks s Ha Hrun) as [_ Hsent].
  destruct (read_messages_ok ws _ Hws Hsent empty_calls (λ _, ∅) [] empty_calls_ok empty_holds)
    as (t & threads & Hr & _ & Hh); [simpl; lia|].
  destruct (read_messages_tree ws empty_calls [] empty_tree) as (t' & threads' & Hr' & Ht & _); [simpl; lia|].
  assert (t' = t) as -> by congruence. assert (holds t (λ tid, received tid (sent s))) as Hh'.
  { eapply holds_ext, Hh. intros tid. by rewrite received_sent. }
  pose proof (tc_length _ Ht) as Hlen. pose proof (co_id _ (tc_ok _ Ht)) as Hid.
  unfold calls_of, values in Hlen. rewrite length_fmap in Hlen.
  destruct (group_by_callstack_ok (calls t) (co_table _ (tc_ok _ Ht)) (tc_ordered _ Ht) ltac:(lia)) as (g & Hg & Hsrc & Hok & _).
  exists t, threads, g, (λ tid, received tid (sent s)). split_and!; [by apply messages_roundtrip|done| |].
  - intros tid. pose proof (start_ops _ _ _ _ _ o a tasks s tid Ha Hrun) as Hops. by apply (reads_merge junk o) in Hops.
  - intros rows. split_and!; [apply Hok|apply Hok| |].
    + intros p x. by apply (merged_stacks t).
    + intros r tids Hin Hnd Htids. by apply (merged_sums t).
Qed.
End end_to_end.

(** * A session *)

(** The nodes of both threads, in one tree. *)
Example demo_cumulative :
  rows_of (group_by_callstack (calls demo_table)) = [(1, 0, 9, 0); (2, 0, 7, 0); (3, 2, 8, 1)].
Proof. vm_compute. reflexivity. Qed.

Definition demo_cumulative_view : Prop :=
  ∃ t threads g (shown : Z → nodes_map),
    load_messages 2 (map save_message demo_messages) empty_calls [] = Ret (t, threads) ∧ group_by_callstack (calls t) = Ret g ∧
    (∀ tid, ∃ ss, update (shadow_stack_new (mk_overhead 1 2) demo_junk)
        (batches (thread_ops tid true (concat demo_batches))) ∅ =
      Ret (ss, merge_nodes (shown tid) (statistics (thread_of demo_junk tid (analysis (app_ demo_end)))))) ∧
    let rows := values (merged g) in
    ordered rows ∧ NoDup (map (stack_in rows) rows) ∧
    (∀ p x, p ++ [x] ∈ map (stack_in rows) rows ↔ ∃ tid, is_Some (shown tid !! (p ++ [x]))) ∧
    ∀ r tids, r ∈ rows → NoDup tids → (∀ tid p, is_Some (shown tid !! p) → tid ∈ tids) →
      call_stats r = total_stats (omap (λ tid, shown tid !! stack_in rows r) tids).

Lemma demo_messages_fit : Forall (message_fits 2) demo_messages.
Proof.
  match goal with |- Forall _ ?l => let x := eval vm_compute in l in change l with x end.
  unfold message_fits. repeat (constructor || split); cbn; unfold in_u, in_s; lia.
Qed.

Lemma cumulative_view_witness : demo_cumulative_view.
Proof.
  apply (cumulative_view (tok := token) (po := demo_function_patches) demo_junk (λ p : string, p) demo_file demo_accessor
    demo_image_info 2 (mk_overhead 1 2) demo_app (concat demo_batches) demo_end demo_messages);
    [reflexivity|exact demo_run_eq| |vm_compute; reflexivity|exact demo_messages_fit].
  apply (sent_carried (po := demo_function_patches) demo_junk (λ p : string, p) demo_file demo_accessor
    demo_image_info (mk_overhead 1 2) demo_app (concat demo_batches)); [reflexivity|exact demo_run_eq].
Defined.
