(* ===== verification/Persistence.v ===== *)
(** Sessions in files (frontend/persistence.h, frontend/serialization.h, common/serialization.h, sdb/serialization.h,
    sdb/indexed_serialization.h).

    What was profiled is saved and opened again: what the process was, the mappings, the modules with their
    symbols, the calls and the threads.  Older files have less of some structures, some tables as maps, and the calls
    as trees ([Messages]). *)

From S2P Require Import Prelude Symbols Statistics ShadowStack Analyzer ModuleTracker Threads Jumper PatchManager CollectorApp.
From S2P Require Import Sdb Join Hierarchy CallsTable EndToEnd Derived Archive Messages.
Local Open Scope Z_scope.

(** [common/types.h:56-61] initialization_data *)
Record initialization_data := mk_initialization { executable : string; ticks_per_second : Z; injected : Z }.

Abbreviation module_info_metadata := (module_metadata (Sym := symbol_info)).

(** The files of a module are in an unordered map: in which order they are written depends on what was done to it, and is
    not known of one that was read. *)
Class file_order := {
  ordered_files : module_info_metadata → list (Z * string);
  ordered_files_perm d : ordered_files d ≡ₚ map_to_list (md_files d)
}.

#[export] Instance listed_files : file_order | 100 :=
  {| ordered_files d := map_to_list (md_files d); ordered_files_perm d := Permutation_refl _ |}.
#[export] Instance reversed_files : file_order | 200 :=
  {| ordered_files d := reverse (map_to_list (md_files d)); ordered_files_perm d := reverse_Permutation _ |}.

(** [frontend/database.h:77-85] profiling_session. Records with their identifiers; the patches are not saved. *)
Record profiling_session := mk_session {
  process_info : initialization_data;
  statistics_ : calls_table;
  mappings : table (Z * mapped_module_ex);
  modules : table (Z * module_info_metadata);
  threads_ : table (Z * thread_info)
}.

Section archives.
Context {tok : Type} `{AR : strmd tok} `{FO : file_order}.
Abbreviation A := (list tok).

(** * What is written *)

(** [common/serialization.h:49-57] serialize. Of [initialization_data]. *)
Definition save_init (d : initialization_data) : A :=
  put_versioned 6 (put_s (ticks_per_second d) ++ put_text (executable d) ++ put_u (injected d)).

(** [common/serialization.h:76-88] serialize. Of [mapped_module_ex]. *)
Definition save_mapping (d : mapped_module_ex) : A :=
  put_versioned 6 (put_u (persistent_id d) ++ put_u (base_ d) ++ put_text (path_ d) ++ put_u (hash_ d)).

(** [common/serialization.h:90-101] serialize. Of [symbol_info]: an identifier that is not used any more is zero. *)
Definition save_symbol (d : symbol_info) : A :=
  put_versioned 4 (put_u 0 ++ put_text (s_name d) ++ put_u (s_rva d) ++ put_u (s_size d) ++ put_u (s_file d) ++ put_u (s_line d)).

(** [common/serialization.h:103-112] serialize. Of [module_info_metadata]. *)
Definition save_metadata (d : module_info_metadata) : A :=
  put_versioned 6 (put_items (map save_symbol (md_symbols d)) ++
    put_items (map (λ f, put_pair (put_u f.1) (put_text f.2)) (ordered_files d)) ++ put_text (md_path d) ++ put_u (md_hash d)).

(** [common/serialization.h:114-123] serialize. Of [thread_info]. *)
Definition save_thread (d : thread_info) : A :=
  put_versioned 4 (put_u (native_id d) ++ put_text (description d) ++ put_s (start_time d) ++ put_s (end_time d) ++
    put_s (cpu_time d) ++ put_u (if complete d then 1 else 0)).

(** [frontend/serialization.h:107-115] serialize. Of [call_statistics]. *)
Definition save_call (d : call_statistics) : A :=
  put_versioned 5 (put_u (call_id d) ++ put_u (thread_id d) ++ put_u (parent_id d) ++ put_u (address d) ++ save_stats (call_stats d)).

(** [frontend/serialization.h:147-152] serialize. Of a record: its identifier, and what it is of. *)
Definition save_record {T} (w : T → A) (r : Z * T) : A := put_versioned 1 (put_u r.1 ++ w r.2).

(** [sdb/serialization.h:81-88] serialize. A table: its records, and what makes new ones. *)
Definition save_table {T} (w : T → A) (constructor : A) (t : table T) : A := put_items (map w (values t)) ++ constructor.

(** [frontend/serialization.h:103-105] serialize. Of [auto_increment_constructor]. *)
Definition save_statistics (s : calls_table) : A := save_table save_call (put_versioned 0 (put_u (next_id s))) (calls s).

(** [frontend/persistence.h:47-74] serialize. Of [profiling_session]. *)
Definition save_session (s : profiling_session) : A :=
  put_versioned 7 (save_init (process_info s) ++ save_table (save_record save_mapping) [] (mappings s) ++
    save_table (save_record save_metadata) [] (modules s) ++ save_statistics (statistics_ s) ++
    save_table (save_record save_thread) [] (threads_ s)).

(** * What is read *)

(** [common/serialization.h:49-57] serialize. Of [initialization_data], read: what is not in the file stays as it is. *)
Definition load_init (old : initialization_data) (a : A) : result (initialization_data * A) :=
  get_versioned (λ ver a,
    '(ticks, a) ← get_s a;
    '(exe, a) ← (if 5 <=? ver then get_text a else Ret (executable old, a));
    '(inj, a) ← (if 6 <=? ver then get_u a else Ret (injected old, a));
    Ret (mk_initialization exe ticks inj, a)) a.

(** [common/serialization.h:76-88] serialize. Of [mapped_module_ex], read. *)
Definition load_mapping_at (ver : Z) (old : mapped_module_ex) (a : A) : result (mapped_module_ex * A) :=
  '(_, a) ← (if ver <? 5 then get_u a else Ret (0, a));
  '(pid, a) ← get_u a; '(b, a) ← get_u a; '(p, a) ← get_text a;
  '(hash, a) ← (if 6 <=? ver then get_u a else Ret (hash_ old, a));
  Ret (mk_mapped_ex pid p b hash, a).

(** [common/serialization.h:90-101] serialize. Of [symbol_info], read. *)
Definition load_symbol (a : A) : result (symbol_info * A) :=
  get_versioned (λ _ a,
    '(_, a) ← get_u a; '(name, a) ← get_text a; '(rva, a) ← get_u a; '(size, a) ← get_u a;
    '(file, a) ← get_u a; '(line, a) ← get_u a;
    Ret (mk_symbol name rva size file line, a)) a.

Definition load_file (a : A) : result (Z * string * A) := '(i, a) ← get_u a; '(p, a) ← get_text a; Ret (i, p, a).

(** [common/serialization.h:103-112] serialize. Of [module_info_metadata], read. *)
Definition load_metadata_at (ver : Z) (old : module_info_metadata) (a : A) : result (module_info_metadata * A) :=
  '(syms, a) ← get_vector load_symbol a; '(files, a) ← get_map load_file a;
  '(p, a) ← (if 5 <=? ver then get_text a else Ret (md_path old, a));
  '(hash, a) ← (if 6 <=? ver then get_u a else Ret (md_hash old, a));
  Ret (mk_module_metadata p hash syms files, a).

(** [common/serialization.h:114-123] serialize. Of [thread_info], read. *)
Definition load_thread_at (ver : Z) (old : thread_info) (a : A) : result (thread_info * A) :=
  '(n, a) ← get_u a; '(d, a) ← get_text a; '(s, a) ← get_s a; '(e, a) ← get_s a; '(c, a) ← get_s a; '(b, a) ← get_u a;
  Ret (mk_info n d s e c (negb (b =? 0)), a).

(** [frontend/serialization.h:107-115] serialize. Of [call_statistics], read. *)
Definition load_call (a : A) : result (call_statistics * A) :=
  get_versioned (λ _ a,
    '(i, a) ← get_u a; '(t, a) ← get_u a; '(p, a) ← get_u a; '(x, a) ← get_u a; '(st, a) ← load_stats a;
    Ret (mk_call i t p x st, a)) a.

(** What is new is read over: the identifier and the fields of a record that was just made. *)
(** [frontend/serialization.h:147-152] serialize. Of a record, read. *)
Definition load_record {T} (rd : Z → T → A → result (T * A)) (fresh : T) (a : A) : result (Z * T * A) :=
  get_versioned (λ _ a, '(i, a) ← get_u a; '(x, a) ← get_versioned (λ ver, rd ver fresh) a; Ret (i, x, a)) a.

(** [sdb/serialization.h:48-66] table_items_reader. The constructor of these tables has nothing to read. A record is made, read and committed, for each item. *)
Definition load_table {T} (rd : A → result (T * A)) (t : table T) (a : A) : result (table T * A) :=
  get_items (λ t a, '(x, a) ← rd a; Ret ((create x t).2, a)) t a.

(** The constructor gives the new record an identifier before it is read; the index is told of it with what was read. *)
(** [frontend/serialization.h:158-160] serialize. Of the table of calls. *)
Definition load_statistics (s : calls_table) (a : A) : result (calls_table * A) :=
  '(s, a) ← get_items (λ s a,
    '(c, a) ← load_call a;
    let '(h, t) := create c (calls s) in
    Ret (mk_calls t (index_created (key_of c) h (by_node s)) (u32 (next_id s + 1)) (invalidated s), a)) s a;
  '(n, a) ← get_versioned (λ _, get_u) a;
  Ret (mk_calls (calls s) (by_node s) n (invalidated s), a).

(** In older files a record is found by its identifier, or made; an item has the version of what the record is of. *)
(** [sdb/indexed_serialization.h:48-76] indexed_items_reader *)
Definition load_indexed {T} (rd : Z → T → A → result (T * A)) (fresh : T) (t : table (Z * T)) (a : A) :
    result (table (Z * T) * A) :=
  get_items (λ t a,
    '(key, a) ← get_u a;
    match List.find (λ r, r.2.1 =? key) (records t) with
    | Some (h, old) =>
      '(x, a) ← get_versioned (λ ver, rd ver old.2) a;
      Ret (modify h (λ _, (key, x)) t, a)
    | None =>
      '(x, a) ← get_versioned (λ ver, rd ver fresh) a;
      Ret ((create (key, x) t).2, a)
    end) t a.

Definition fresh_init : initialization_data := mk_initialization "" 0 0.
Definition fresh_mapping : mapped_module_ex := mk_mapped_ex 0 "" 0 0.
Definition fresh_metadata : module_info_metadata := mk_module_metadata "" 0 [] ∅.
Definition fresh_thread : thread_info := mk_info 0 "" 0 0 0 false.
Definition fresh_session : profiling_session :=
  mk_session fresh_init empty_calls empty_table empty_table empty_table.

(** The calls are what they are, or graphs: a file of version 3 has one thread, older ones have none. *)
(** [frontend/persistence.h:64-69] serialize. The calls of a file of a version. *)
Definition load_calls (fuel : nat) (ver : Z) (s : calls_table) (a : A) : result (calls_table * A) :=
  if 5 <=? ver then load_statistics s a else if 4 <=? ver then load_legacy_calls fuel true s a
  else if 3 <=? ver then load_legacy_calls fuel false s a else Ret (s, a).

(** [frontend/persistence.h:47-74] serialize. What a file of a version has. *)
Definition load_session_at (fuel : nat) (s : profiling_session) (ver : Z) (a : A) : result (profiling_session * A) :=
  '(i, a) ← load_init (process_info s) a;
  '(mp, a) ← (if 6 <=? ver then load_table (load_record load_mapping_at fresh_mapping) (mappings s) a
    else if 3 <=? ver then load_indexed load_mapping_at fresh_mapping (mappings s) a else Ret (mappings s, a));
  '(md, a) ← (if 7 <=? ver then load_table (load_record load_metadata_at fresh_metadata) (modules s) a
    else load_indexed load_metadata_at fresh_metadata (modules s) a);
  '(st, a) ← load_calls fuel ver (statistics_ s) a;
  '(th, a) ← (if 6 <=? ver then load_table (load_record load_thread_at fresh_thread) (threads_ s) a
    else if 4 <=? ver then load_indexed load_thread_at fresh_thread (threads_ s) a else Ret (threads_ s, a));
  Ret (mk_session i st mp md th, a).

(** The version comes first. *)
Definition load_session (fuel : nat) (s : profiling_session) (a : A) : result (profiling_session * A) :=
  get_versioned (load_session_at fuel s) a.
End archives.

(** * Reading what was written *)

(** What was put is read, value by value. *)
Ltac read_step :=
  rewrite <- ?app_assoc; cbn [Datatypes.app];
  first [rewrite u_roundtrip by (unfold in_u in *; lia) | rewrite s_roundtrip by tauto | rewrite text_roundtrip];
  cbn [mbind result_bind].
Ltac read_all := cbn [mbind result_bind]; repeat read_step.

Section reading.
Context {tok : Type} `{AR : strmd tok} {LAWS : strmd_laws tok} `{FO : file_order}.
Abbreviation A := (list tok).

(** Values are in the ranges of their types. *)
Definition init_fits (d : initialization_data) : Prop := in_s 64 (ticks_per_second d) ∧ in_u 32 (injected d).
Definition mapping_fits (d : mapped_module_ex) : Prop := in_u 32 (persistent_id d) ∧ in_u 64 (base_ d) ∧ in_u 32 (hash_ d).
Definition symbol_fits (d : symbol_info) : Prop :=
  in_u 32 (s_rva d) ∧ in_u 32 (s_size d) ∧ in_u 32 (s_file d) ∧ in_u 32 (s_line d).
Definition metadata_fits (d : module_info_metadata) : Prop :=
  Forall symbol_fits (md_symbols d) ∧ map_Forall (λ i _, in_u 32 i) (md_files d) ∧ in_u 32 (md_hash d).
Definition thread_fits (d : thread_info) : Prop :=
  in_u 64 (native_id d) ∧ in_s 64 (start_time d) ∧ in_s 64 (end_time d) ∧ in_s 64 (cpu_time d).
Definition call_fits (d : call_statistics) : Prop :=
  in_u 32 (call_id d) ∧ in_u 32 (thread_id d) ∧ in_u 32 (parent_id d) ∧ in_u 64 (address d) ∧ stats_fit (call_stats d).

(** What the versions of the structures have. *)
Definition init_body (v : Z) (d : initialization_data) : A :=
  put_s (ticks_per_second d) ++ (if 5 <=? v then put_text (executable d) else []) ++ (if 6 <=? v then put_u (injected d) else []).
Definition mapping_body (v : Z) (d : mapped_module_ex) : A :=
  (if v <? 5 then put_u 0 else []) ++ put_u (persistent_id d) ++ put_u (base_ d) ++ put_text (path_ d) ++
  (if 6 <=? v then put_u (hash_ d) else []).
Definition metadata_body (v : Z) (d : module_info_metadata) : A :=
  put_items (map save_symbol (md_symbols d)) ++
  put_items (map (λ f, put_pair (put_u f.1) (put_text f.2)) (ordered_files d)) ++
  (if 5 <=? v then put_text (md_path d) else []) ++ (if 6 <=? v then put_u (md_hash d) else []).
Definition thread_body (v : Z) (d : thread_info) : A :=
  put_u (native_id d) ++ put_text (description d) ++ put_s (start_time d) ++ put_s (end_time d) ++
    put_s (cpu_time d) ++ put_u (if complete d then 1 else 0).

(** What is known of what they had; the rest is what a new object has. *)
Definition known_init (v : Z) (d : initialization_data) : initialization_data :=
  mk_initialization (if 5 <=? v then executable d else "") (ticks_per_second d) (if 6 <=? v then injected d else 0).
Definition known_mapping (v : Z) (d : mapped_module_ex) : mapped_module_ex :=
  mk_mapped_ex (persistent_id d) (path_ d) (base_ d) (if 6 <=? v then hash_ d else 0).
Definition known_metadata (v : Z) (d : module_info_metadata) : module_info_metadata :=
  mk_module_metadata (if 5 <=? v then md_path d else "") (if 6 <=? v then md_hash d else 0) (md_symbols d) (md_files d).

Lemma init_read v d rest : init_fits d → load_init fresh_init (put_versioned v (init_body v d) ++ rest) = Ret (known_init v d, rest).
Proof using LAWS.
  intros [Ht Hi]. apply versioned_roundtrip. intros rest'. unfold init_body, known_init.
  destruct (5 <=? v), (6 <=? v); read_all; done.
Qed.

Lemma mapping_read v d rest : mapping_fits d →
  load_mapping_at v fresh_mapping (mapping_body v d ++ rest) = Ret (known_mapping v d, rest).
Proof using LAWS.
  intros (Hp & Hb & Hh). unfold load_mapping_at, mapping_body, known_mapping. destruct (v <? 5), (6 <=? v); read_all; done.
Qed.

Lemma thread_read v d rest : thread_fits d → load_thread_at v fresh_thread (thread_body v d ++ rest) = Ret (d, rest).
Proof using LAWS.
  intros (Hn & Hs & He & Hc). unfold load_thread_at, thread_body. destruct d as [n x s e c []]; cbn [complete native_id description start_time end_time cpu_time] in *; read_all; done.
Qed.

Lemma symbol_read d rest : symbol_fits d → load_symbol (save_symbol d ++ rest) = Ret (d, rest).
Proof using LAWS.
  intros (H1 & H2 & H3 & H4). apply versioned_roundtrip. intros rest'. destruct d. cbn in *. read_all. done.
Qed.

Lemma metadata_read v d rest : metadata_fits d →
  load_metadata_at v fresh_metadata (metadata_body v d ++ rest) = Ret (known_metadata v d, rest).
Proof using LAWS.
  intros (Hs & Hf & Hh). rewrite Forall_forall in Hs. unfold load_metadata_at, metadata_body, known_metadata.
  rewrite <- !app_assoc, vector_roundtrip by (intros x r Hx; apply symbol_read; auto). cbn [mbind result_bind].
  rewrite map_roundtrip.
  - cbn [mbind result_bind]. rewrite (list_to_map_proper _ (map_to_list (md_files d))), list_to_map_to_list.
    + destruct (5 <=? v), (6 <=? v); read_all; done.
    + rewrite ordered_files_perm. apply NoDup_fst_map_to_list.
    + apply ordered_files_perm.
  - rewrite ordered_files_perm. apply NoDup_fst_map_to_list.
  - intros [i p] r Hx. rewrite ordered_files_perm in Hx. apply elem_of_map_to_list in Hx. specialize (Hf _ _ Hx). cbn [fst snd] in *. unfold load_file. rewrite pair_parts. read_all. done.
Qed.

Lemma call_read d rest : call_fits d → load_call (save_call d ++ rest) = Ret (d, rest).
Proof using LAWS.
  intros (H1 & H2 & H3 & H4 & H5). apply versioned_roundtrip. intros rest'. destruct d. cbn in *. read_all.
  rewrite save_stats_read by done. done.
Qed.

(** ** Tables *)

Lemma values_snoc {V} (v : V) (t : table V) : values (create v t).2 = values t ++ [v].
Proof using Type. unfold values. cbn [create snd records]. by rewrite fmap_app. Qed.

(** Records that are put behind those of a table. *)
Definition appended {V} (t : table V) (l : list V) : table V := foldl (λ t v, (create v t).2) t l.

Lemma appended_ok {V} (l : list V) : ∀ t, table_ok t → table_ok (appended t l) ∧ values (appended t l) = values t ++ l.
Proof using Type.
  induction l as [|v l IH]; intros t Ht; [by rewrite app_nil_r|]. cbn [appended foldl].
  destruct (IH (create v t).2) as [H1 H2]; [by apply create_ok|]. split; [done|]. unfold appended in H2.
  rewrite H2, values_snoc, <- app_assoc. done.
Qed.

Lemma appended_map {V W} (f : V → W) (l : list V) : ∀ t, foldl (λ t x, (create (f x) t).2) t l = appended t (map f l).
Proof using Type. induction l as [|x l IH]; intros t; [done|]. cbn [foldl map]. by rewrite IH. Qed.

Lemma table_read {T U : Type} (rd : A → result (T * A)) (w : U → A) (known : U → T) t (l : list U) rest :
  (∀ x rest, x ∈ l → rd (w x ++ rest) = Ret (known x, rest)) →
  load_table rd t (put_items (map w l) ++ rest) = Ret (appended t (map known l), rest).
Proof using LAWS.
  intros Hrd. unfold load_table. apply items_roundtrip. rewrite <- appended_map. apply reads_items_fold.
  intros s x rest' Hx. by rewrite Hrd.
Qed.

(** A record and an item of a map, of some version. *)
Definition record_file {T} (v : Z) (body : Z → T → A) (r : Z * T) : A := put_versioned 1 (put_u r.1 ++ put_versioned v (body v r.2)).
Definition item_file {T} (v : Z) (body : Z → T → A) (r : Z * T) : A := put_pair (put_u r.1) (put_versioned v (body v r.2)).

Lemma record_read {T : Type} (rd : Z → T → A → result (T * A)) (fresh : T) v (body : Z → T → A) (known : Z → T → T) r rest :
  in_u 32 r.1 → (∀ rest, rd v fresh (body v r.2 ++ rest) = Ret (known v r.2, rest)) →
  load_record rd fresh (record_file v body r ++ rest) = Ret ((r.1, known v r.2), rest).
Proof using LAWS.
  intros Hi Hrd. apply versioned_roundtrip. intros rest'. rewrite <- app_assoc, u_roundtrip by (unfold in_u in *; lia). cbn [mbind result_bind].
  by rewrite (versioned_roundtrip _ v (body v r.2) (known v r.2)).
Qed.

Lemma indexed_reads {T : Type} (rd : Z → T → A → result (T * A)) (fresh : T) v (body : Z → T → A) (known : Z → T → T) (l : list (Z * T)) :
  (∀ r rest, r ∈ l → in_u 32 r.1 ∧ rd v fresh (body v r.2 ++ rest) = Ret (known v r.2, rest)) → ∀ t,
  NoDup ((values t).*1 ++ l.*1) →
  reads_items (λ t a,
    '(key, a) ← get_u a;
    match List.find (λ r, r.2.1 =? key) (records t) with
    | Some (h, old) => '(x, a) ← get_versioned (λ ver, rd ver old.2) a; Ret (modify h (λ _, (key, x)) t, a)
    | None => '(x, a) ← get_versioned (λ ver, rd ver fresh) a; Ret ((create (key, x) t).2, a)
    end) t (map (item_file v body) l) (appended t (map (λ r, (r.1, known v r.2)) l)).
Proof using LAWS.
  induction l as [|r l IH]; intros Hl t Hnd; [done|]. exists (create (r.1, known v r.2) t).2. split.
  - intros rest. destruct (Hl r rest ltac:(by left)) as [Hi _]. unfold item_file.
    rewrite pair_parts, <- app_assoc, u_roundtrip by (unfold in_u in *; lia). cbn [mbind result_bind].
    assert (List.find (λ q : nat * (Z * T), q.2.1 =? r.1) (records t) = None) as ->.
    { destruct (List.find _ (records t)) as [[h q]|] eqn:E; [|done]. apply List.find_some in E as [Hin Hq%Z.eqb_eq].
      apply NoDup_app in Hnd as (_ & Hd & _). destruct (Hd r.1); [|by left]. cbn [snd fst] in Hq. rewrite <- Hq.
      apply (list_elem_of_fmap_2 fst _ q). apply (list_elem_of_fmap_2 snd _ (h, q)). by apply list_elem_of_In. }
    rewrite (versioned_roundtrip _ v (body v r.2) (known v r.2)); [done|]. intros rest'. by apply Hl; left.
  - cbn [map appended foldl]. apply IH; [intros q rest Hq; apply Hl; by right|].
    rewrite values_snoc, fmap_app, <- app_assoc. cbn [fmap list_fmap fst]. done.
Qed.

Lemma indexed_read {T : Type} (rd : Z → T → A → result (T * A)) (fresh : T) v (body : Z → T → A) (known : Z → T → T) (l : list (Z * T)) rest :
  (∀ r rest, r ∈ l → in_u 32 r.1 ∧ rd v fresh (body v r.2 ++ rest) = Ret (known v r.2, rest)) → NoDup l.*1 →
  load_indexed rd fresh empty_table (put_items (map (item_file v body) l) ++ rest) =
    Ret (appended empty_table (map (λ r, (r.1, known v r.2)) l), rest).
Proof using LAWS. intros Hl Hnd. unfold load_indexed. apply items_roundtrip. by apply indexed_reads. Qed.

(** ** The calls *)

(** What reading a call does to the table. *)
Definition add_call (s : calls_table) (c : call_statistics) : calls_table :=
  let '(h, t) := create c (calls s) in
  mk_calls t (index_created (key_of c) h (by_node s)) (u32 (next_id s + 1)) (invalidated s).

Lemma add_calls_ok l : ∀ s, table_ok (calls s) → index_ok key_of (calls s) (by_node s) →
  let s' := foldl add_call s l in
  table_ok (calls s') ∧ index_ok key_of (calls s') (by_node s') ∧ values (calls s') = values (calls s) ++ l.
Proof using Type.
  induction l as [|c l IH]; intros s Ht Hi; cbv zeta; [by rewrite app_nil_r|]. cbn [foldl].
  destruct (IH (add_call s c)) as (H1 & H2 & H3); [by apply create_ok|by apply index_created_ok|].
  split; [done|]. split; [done|]. rewrite H3. change (calls (add_call s c)) with (create c (calls s)).2.
  rewrite values_snoc, <- app_assoc. done.
Qed.

(** A table of the same records finds the same calls. *)
Lemma same_calls s s' : calls_ok s → table_ok (calls s') → index_ok key_of (calls s') (by_node s') →
  values (calls s') = values (calls s) → next_id s' = next_id s → calls_ok s' ∧ ∀ k, find_call s' k = find_call s k.
Proof using Type.
  intros [Ht Hi Hk Hf Hid] Ht' Hi' Hv Hn.
  assert (∀ s, map (λ p : nat * call_statistics, key_of p.2) (records (calls s)) = map key_of (values (calls s))) as Hkeys
    by (intros s0; unfold values; by rewrite map_map).
  assert (NoDup (map (λ p, key_of p.2) (records (calls s')))) as Hk' by (rewrite Hkeys, Hv, <- Hkeys; exact Hk).
  assert (∀ s c, (∃ h, (h, c) ∈ records (calls s)) ↔ c ∈ values (calls s)) as Hin.
  { intros s0 c. unfold values. rewrite list_elem_of_fmap. split; [intros [h Hh]; by exists (h, c)|].
    intros ([h c'] & -> & Hh). by exists h. }
  assert (∀ k, find_call s' k = find_call s k) as Hfind.
  { intros k. apply option_eq. intros c. rewrite (find_call_spec s' Ht' Hi' Hk'), (find_call_spec s Ht Hi Hk).
    pose proof (Hin s c). pose proof (Hin s' c) as Hx. rewrite Hv in Hx. naive_solver. }
  split; [|done]. split; [done..| |by rewrite Hn]. rewrite Hn. destruct Hf as [F1 F2 F3].
  split; intros *; rewrite ?Hfind; eauto.
Qed.

(** The calls of two tables are the same, found by the same keys and numbered on the same way. *)
Definition same_statistics (s s' : calls_table) : Prop :=
  calls_ok s' ∧ values (calls s') = values (calls s) ∧ next_id s' = next_id s ∧ ∀ k, find_call s' k = find_call s k.

Lemma statistics_read s : calls_ok s → Forall call_fits (values (calls s)) → ∃ s',
  (∀ rest, load_statistics empty_calls (save_statistics s ++ rest) = Ret (s', rest)) ∧ same_statistics s s'.
Proof using LAWS.
  intros Hs Hfit. rewrite Forall_forall in Hfit. set (s1 := foldl add_call empty_calls (values (calls s))).
  exists (mk_calls (calls s1) (by_node s1) (next_id s) (invalidated s1)).
  destruct (add_calls_ok (values (calls s)) empty_calls) as (Ht & Hi & Hv);
    [exact (clear_ok empty_table)|exact (index_cleared_ok key_of empty_table empty_index)|]. fold s1 in Ht, Hi, Hv. split.
  - intros rest. unfold load_statistics, save_statistics, save_table. rewrite <- app_assoc, (items_roundtrip _ _ _ s1).
    + cbn [mbind result_bind]. rewrite (versioned_roundtrip _ _ _ (next_id s)); [done|]. intros rest'. apply u_roundtrip.
      pose proof (co_id _ Hs). unfold in_u. lia.
    + apply reads_items_fold. intros s2 c rest' Hc. by rewrite call_read by auto.
  - edestruct (same_calls s (mk_calls (calls s1) (by_node s1) (next_id s) (invalidated s1)) Hs) as [H1 H2]; done.
Qed.

(** ** Sessions *)

(** What makes a session fit for a file. *)
Record session_fits (s : profiling_session) : Prop := {
  sf_init : init_fits (process_info s);
  sf_calls : calls_ok (statistics_ s);
  sf_call : Forall call_fits (values (calls (statistics_ s)));
  sf_mapping : Forall (λ r, in_u 32 r.1 ∧ mapping_fits r.2) (values (mappings s));
  sf_module : Forall (λ r, in_u 32 r.1 ∧ metadata_fits r.2) (values (modules s));
  sf_thread : Forall (λ r, in_u 32 r.1 ∧ thread_fits r.2) (values (threads_ s))
}.

(** The versions of the structures in a file of a version. *)
Record versions := mk_versions { v_session : Z; v_init : Z; v_mapping : Z; v_metadata : Z; v_thread : Z }.

(** A table in a file that has records or a map. *)
Definition table_file {T} (as_table as_map : bool) (v : Z) (body : Z → T → A) (t : table (Z * T)) : A :=
  if as_table then put_items (map (record_file v body) (values t))
  else if as_map then put_items (map (item_file v body) (values t)) else [].

Definition session_file (v : versions) (calls_part : A) (s : profiling_session) : A :=
  put_versioned (v_session v) (put_versioned (v_init v) (init_body (v_init v) (process_info s)) ++
    table_file (6 <=? v_session v) (3 <=? v_session v) (v_mapping v) mapping_body (mappings s) ++
    table_file (7 <=? v_session v) true (v_metadata v) metadata_body (modules s) ++ calls_part ++
    table_file (6 <=? v_session v) (4 <=? v_session v) (v_thread v) thread_body (threads_ s)).

(** Its identifiers are those of records: a map has them once. *)
Definition ids_once {T} (t : table (Z * T)) : Prop := NoDup (values t).*1.

(** Tables that have the records, as the version knows them, if it has them. *)
Definition holds_known {T} (present : bool) (known : T → T) (t t' : table (Z * T)) : Prop :=
  table_ok t' ∧ values t' = if present then map (λ r, (r.1, known r.2)) (values t) else [].

Lemma appended_empty {T} (l : list T) : table_ok (appended empty_table l) ∧ values (appended empty_table l) = l.
Proof using Type. apply (appended_ok l empty_table). exact (clear_ok empty_table). Qed.

Lemma table_file_read {T : Type} (rd : Z → T → A → result (T * A)) (fresh : T) v (body : Z → T → A) (known : Z → T → T)
    (t : table (Z * T)) (as_table as_map : bool) :
  (∀ r rest, r ∈ values t → in_u 32 r.1 ∧ rd v fresh (body v r.2 ++ rest) = Ret (known v r.2, rest)) →
  (as_table = false → ids_once t) → ∃ t',
  (∀ rest, (if as_table then load_table (load_record rd fresh) empty_table (table_file as_table as_map v body t ++ rest)
     else if as_map then load_indexed rd fresh empty_table (table_file as_table as_map v body t ++ rest)
     else Ret (empty_table, table_file as_table as_map v body t ++ rest)) = Ret (t', rest)) ∧
  holds_known (as_table || as_map) (known v) t t'.
Proof using LAWS.
  intros Hrd Hnd. exists (appended empty_table (if as_table || as_map then map (λ r, (r.1, known v r.2)) (values t) else [])).
  split; [|apply appended_empty]. intros rest. destruct as_table; [|destruct as_map; [|done]]; cbn [table_file orb].
  - apply table_read. intros r rest' Hr. destruct (Hrd r rest' Hr). apply (record_read _ _ _ _ known); [done|].
    intros rest2. by apply Hrd.
  - apply indexed_read; [done|by apply Hnd].
Qed.

(** A file of a version, whatever it has the calls as. *)
Lemma session_read fuel v s calls_part st rest : session_fits s →
  (v_session v < 6 → ids_once (mappings s) ∧ ids_once (threads_ s)) → (v_session v < 7 → ids_once (modules s)) →
  (∀ rest, load_calls fuel (v_session v) empty_calls (calls_part ++ rest) = Ret (st, rest)) →
  ∃ s', load_session fuel fresh_session (session_file v calls_part s ++ rest) = Ret (s', rest) ∧
    process_info s' = known_init (v_init v) (process_info s) ∧ statistics_ s' = st ∧
    holds_known (3 <=? v_session v) (known_mapping (v_mapping v)) (mappings s) (mappings s') ∧
    holds_known true (known_metadata (v_metadata v)) (modules s) (modules s') ∧
    holds_known (4 <=? v_session v) (λ d, d) (threads_ s) (threads_ s').
Proof using LAWS.
  intros [Hi _ _ Hmap Hmod Hthr] N6 N7 Hcalls. rewrite Forall_forall in Hmap. rewrite Forall_forall in Hmod. rewrite Forall_forall in Hthr.
  destruct (table_file_read load_mapping_at fresh_mapping (v_mapping v) mapping_body known_mapping (mappings s)
    (6 <=? v_session v) (3 <=? v_session v)) as (t1 & R1 & H1); [|by intros ?%Z.leb_gt; apply N6|].
  { intros r rest' Hr. destruct (Hmap r Hr). split; [done|by apply mapping_read]. }
  destruct (table_file_read load_metadata_at fresh_metadata (v_metadata v) metadata_body known_metadata (modules s)
    (7 <=? v_session v) true) as (t2 & R2 & H2); [|by intros ?%Z.leb_gt; apply N7|].
  { intros r rest' Hr. destruct (Hmod r Hr). split; [done|by apply metadata_read]. }
  destruct (table_file_read load_thread_at fresh_thread (v_thread v) thread_body (λ _ d, d) (threads_ s)
    (6 <=? v_session v) (4 <=? v_session v)) as (t3 & R3 & H3); [|by intros ?%Z.leb_gt; apply N6|].
  { intros r rest' Hr. destruct (Hthr r Hr). split; [done|by apply thread_read]. }
  exists (mk_session (known_init (v_init v) (process_info s)) st t1 t2 t3). split.
  - unfold load_session, session_file. apply versioned_roundtrip. intros rest'. unfold load_session_at.
    cbn [fresh_session process_info mappings modules statistics_ threads_]. rewrite <- !app_assoc, init_read by done.
    cbn [mbind result_bind]. rewrite R1. cbn [mbind result_bind]. rewrite R2. cbn [mbind result_bind]. rewrite Hcalls.
    cbn [mbind result_bind]. rewrite R3. done.
  - assert (∀ n m, m <= n → (n <=? v_session v) || (m <=? v_session v) = (m <=? v_session v)) as Hor.
    { intros n m Hnm. destruct (Z.leb_spec n (v_session v)), (Z.leb_spec m (v_session v)); [done|lia|done..]. }
    rewrite Hor in H1, H3 by lia. by rewrite orb_true_r in H2.
Qed.

(** What this version writes. *)
Lemma save_session_file s : save_session s = session_file (mk_versions 7 6 6 6 4) (save_statistics (statistics_ s)) s.
Proof using Type. unfold save_session, save_table, session_file. by rewrite !app_nil_r. Qed.

(** Versions 5 and 6: the calls are as they are now, modules are a map, in version 5 everything is. *)
Theorem older_sessions fuel v s rest : session_fits s → 5 <= v_session v →
  (v_session v < 6 → ids_once (mappings s) ∧ ids_once (threads_ s)) → (v_session v < 7 → ids_once (modules s)) →
  ∃ s', load_session fuel fresh_session (session_file v (save_statistics (statistics_ s)) s ++ rest) = Ret (s', rest) ∧
    process_info s' = known_init (v_init v) (process_info s) ∧ same_statistics (statistics_ s) (statistics_ s') ∧
    values (mappings s') = map (λ r, (r.1, known_mapping (v_mapping v) r.2)) (values (mappings s)) ∧
    values (modules s') = map (λ r, (r.1, known_metadata (v_metadata v) r.2)) (values (modules s)) ∧
    values (threads_ s') = values (threads_ s).
Proof using LAWS.
  intros Hs Hv N6 N7. destruct (statistics_read (statistics_ s) (sf_calls s Hs) (sf_call s Hs)) as (st & Hst & Hsame).
  destruct (session_read fuel v s (save_statistics (statistics_ s)) st rest Hs N6 N7) as (s' & Hr & H1 & H2 & [_ H3] & [_ H4] & [_ H5]).
  { intros rest'. unfold load_calls. by rewrite (proj2 (Z.leb_le 5 (v_session v))). }
  rewrite !(proj2 (Z.leb_le _ (v_session v))) in H3 by lia. rewrite !(proj2 (Z.leb_le _ (v_session v))) in H5 by lia.
  exists s'. subst st. split; [done|]. split; [done|]. split; [done|]. split; [done|]. split; [done|].
  rewrite H5. transitivity (map id (values (threads_ s))); [|by rewrite map_id]. apply map_ext. by intros [].
Qed.

(** Versions 3 and 4: the calls are functions with what they call. *)
Theorem legacy_sessions fuel v ver fs st s rest : session_fits s → 3 <= v_session v < 5 → ver < 5 →
  ids_once (mappings s) → ids_once (modules s) → ids_once (threads_ s) → Forall legacy_fits fs →
  fold_m (λ s f, read_node (if 4 <=? v_session v then lf_thread f else 0) 0 (legacy_graph f) s) empty_calls fs = Ret st →
  ∃ s', load_session (S (S fuel)) fresh_session
      (session_file v (put_items (map (legacy_item ver (4 <=? v_session v)) fs)) s ++ rest) = Ret (s', rest) ∧
    process_info s' = known_init (v_init v) (process_info s) ∧ statistics_ s' = st ∧
    holds_known true (known_mapping (v_mapping v)) (mappings s) (mappings s') ∧
    holds_known true (known_metadata (v_metadata v)) (modules s) (modules s') ∧
    holds_known (4 <=? v_session v) (λ d, d) (threads_ s) (threads_ s').
Proof using LAWS.
  intros Hs Hv Hver N1 N2 N3 Hf Hst.
  destruct (session_read (S (S fuel)) v s (put_items (map (legacy_item ver (4 <=? v_session v)) fs)) st rest Hs) as (s' & Hs'); [done..| |].
  { intros rest'. unfold load_calls. rewrite (proj2 (Z.leb_gt 5 (v_session v))), (proj2 (Z.leb_le 3 (v_session v))) by lia.
    destruct (4 <=? v_session v); by apply legacy_calls_read. }
  rewrite (proj2 (Z.leb_le 3 (v_session v))) in Hs' by lia. by exists s'.
Qed.

(** C38: A session that is saved and opened again is the session: the process, every mapping, module with its symbols and its files,
    thread and call is there under its identifier, in order, calls are found by the same keys, and new ones get
    the identifiers they would have got, whatever the order in which the files of the modules, which are in unordered maps,
    were written.  It fits a file again, and saving it gives a file that the session that was saved first could have been
    saved to: the same one, but for that order. *)
Theorem session_roundtrip fuel s rest : session_fits s →
  ∃ s', load_session fuel fresh_session (save_session s ++ rest) = Ret (s', rest) ∧
    process_info s' = process_info s ∧ same_statistics (statistics_ s) (statistics_ s') ∧
    values (mappings s') = values (mappings s) ∧ values (modules s') = values (modules s) ∧
    values (threads_ s') = values (threads_ s) ∧ session_fits s' ∧
    ∀ order : file_order, save_session (FO := order) s' = save_session (FO := order) s.
Proof using LAWS.
  intros Hs. rewrite save_session_file. destruct (statistics_read (statistics_ s) (sf_calls s Hs) (sf_call s Hs)) as (st & Hst & Hsame).
  destruct (session_read fuel (mk_versions 7 6 6 6 4) s (save_statistics (statistics_ s)) st rest Hs)
    as (s' & Hr & H1 & H2 & [_ H3] & [_ H4] & [_ H5]); [cbn; lia..|done|].
  assert (∀ {T} (known : T → T) (l : list (Z * T)), (∀ d, known d = d) → map (λ r, (r.1, known r.2)) l = l) as Hid.
  { intros T known l Hk. rewrite <- (map_id l) at 2. apply map_ext. intros []. cbn [fst snd]. by rewrite Hk. }
  cbn [v_session v_init v_mapping v_metadata Z.leb] in *. cbn in H1, H3, H4, H5.
  rewrite Hid in H3, H4 by by intros []. rewrite (Hid _ (λ d, d)) in H5 by done.
  assert (process_info s' = process_info s) as Hp by (rewrite H1; by destruct (process_info s)). subst st.
  exists s'. split; [done|]. do 5 (split; [done|]). destruct Hsame as (Hok & Hv & Hn & _). split.
  - destruct Hs. split; rewrite ?Hp, ?Hv, ?H3, ?H4, ?H5; done.
  - intros order. unfold save_session, save_statistics, save_table. by rewrite Hp, H3, H4, H5, Hv, Hn.
Qed.
End reading.

(** * A session in tokens *)

Definition demo_forest : list graph := [node 7 (mk_stats 2 30 20 20) [node 8 (mk_stats 1 10 10 10) []]].
Definition demo_calls : calls_table :=
  match fold_m (λ s g, read_node 5 0 g s) empty_calls demo_forest with Ret s => s | _ => empty_calls end.

Definition demo_session : profiling_session := mk_session (mk_initialization "app" 1000 0) demo_calls
  (mk_table [(4%nat, (3, mk_mapped_ex 1 "/bin/app" 4096 77))] 5)
  (mk_table [(1%nat, (1, mk_module_metadata "/bin/app" 77 [mk_symbol "main" 16 32 2 10] {[2 := "main.cpp"%string; 3 := "a.h"%string]}))] 2)
  (mk_table [(0%nat, (1, mk_info 100 "main" (-5) 0 250 false)); (1%nat, (2, mk_info 101 "" 5 10 15 true))] 2).

Lemma demo_calls_ok : calls_ok demo_calls.
Proof.
  unfold demo_calls. destruct (read_forest_ok demo_forest 5 empty_calls empty_calls_ok) as (s & -> & He); [by vm_compute|].
  exact (ef_ok _ _ _ _ He).
Qed.

Lemma demo_calls_values : values (calls demo_calls) =
  [mk_call 1 5 0 7 (mk_stats 2 30 20 20); mk_call 2 5 1 8 (mk_stats 1 10 10 10)].
Proof. vm_compute. reflexivity. Qed.

Lemma demo_session_fits : session_fits demo_session.
Proof.
  split; cbn [demo_session process_info statistics_ mappings modules threads_ values records].
  - split; cbn; unfold in_s, in_u; lia.
  - apply demo_calls_ok.
  - rewrite demo_calls_values. repeat (constructor || split); cbn; unfold in_u, in_s; lia.
  - repeat (constructor || split); cbn; unfold in_u, in_s; lia.
  - apply Forall_singleton. split; [cbn; unfold in_u; lia|]. split; [repeat (constructor || split); cbn; unfold in_u; lia|].
    split; [|cbn; unfold in_u; lia]. cbn. intros i x [[<- _]|[_ [<- _]%lookup_singleton_Some]]%lookup_insert_Some; unfold in_u; lia.
  - repeat (constructor || split); cbn; unfold in_u, in_s; lia.
Qed.

Lemma session_roundtrip_witness : ∃ s', load_session 0 fresh_session (save_session demo_session) = Ret (s', []) ∧
  process_info s' = process_info demo_session ∧ same_statistics (statistics_ demo_session) (statistics_ s') ∧
  values (mappings s') = values (mappings demo_session) ∧ values (modules s') = values (modules demo_session) ∧
  values (threads_ s') = values (threads_ demo_session) ∧ session_fits s' ∧
  ∀ order : file_order, save_session (FO := order) s' = save_session (FO := order) demo_session.
Proof.
  pose proof (session_roundtrip (tok := token) 0 demo_session [] demo_session_fits) as H. rewrite app_nil_r in H. exact H.
Defined.
