(* ===== verification/AsyncFiles.v ===== *)
(** Files that are read and written aside (scheduler/src/private_queue.cpp, frontend/async_file.h,
    common/src/file_stream.cpp, frontend/src/frontend_metadata.cpp).

    The front-end keeps the metadata of modules in files.  They are read and written by a worker thread, through a
    queue that belongs to the request: when the request is let go, what it had scheduled does not run, what runs is
    waited for, and what was delivered is dropped. *)

From S2P Require Import Prelude Symbols Strings Statistics ShadowStack Analyzer ModuleTracker Threads Jumper PatchManager CollectorApp.
From S2P Require Import Logger Sdb Join Columns Archive Persistence.
Local Open Scope Z_scope.

Lemma Forall_behind {A} (P : A → Prop) l x : Forall P l → P x → Forall P (l ++ [x]).
Proof. intros Hl Hx. apply Forall_app. by split; [|constructor]. Qed.

(** * Streams over files *)

Section streams.
Context {K tok : Type} `{CK : Countable K}.

(** [common/file_stream.h:35-47] read_file_stream. What the file has, and the position of the C stream. *)
Record read_stream := mk_read_stream { content : list tok; position : nat }.

(** A disk: its files, and the room that it has. *)
Record disk := mk_disk { files : gmap K (list tok); room : nat }.

(** [common/src/file_stream.cpp:47-52] read_file_stream::read_file_stream. *)
Definition open_read (path : K) (d : disk) : result read_stream :=
  match files d !! path with Some bytes => Ret (mk_read_stream bytes 0) | None => Throw runtime_error end.

(** [common/src/file_stream.cpp:57-58] read_file_stream::read_l. *)
Definition read_l (n : nat) (s : read_stream) : list tok * read_stream :=
  let piece := take n (drop (position s) (content s)) in (piece, mk_read_stream (content s) (position s + length piece)).

(** [common/src/file_stream.cpp:60-64] read_file_stream::read. *)
Definition read_bytes (n : nat) (s : read_stream) : result (list tok * read_stream) :=
  let '(piece, s) := read_l n s in if (length piece <? n)%nat then Throw runtime_error else Ret (piece, s).

(** Behind the end is fine, reading there gives nothing; before the beginning is an error, which nobody is told. *)
(** [common/src/file_stream.cpp:66-67] read_file_stream::skip. *)
Definition skip_bytes (n : Z) (s : read_stream) : read_stream :=
  let p := Z.of_nat (position s) + s32 n in if p <? 0 then s else mk_read_stream (content s) (Z.to_nat p).

(** [common/src/file_stream.cpp:70-75] write_file_stream::write_file_stream. The file is made empty. *)
Definition open_write (writable : bool) (path : K) (d : disk) : result disk :=
  if writable then Ret (mk_disk (<[path := []]> (files d)) (room d + length (default [] (files d !! path))))
  else Throw runtime_error.

(** What does not fit is not written, and nobody is told. *)
(** [common/src/file_stream.cpp:80-81] write_file_stream::write. *)
Definition write_bytes (path : K) (bytes : list tok) (d : disk) : disk :=
  let fit := take (room d) bytes in
  mk_disk (<[path := default [] (files d !! path) ++ fit]> (files d)) (room d - length fit).

(** What a file has after some pieces were written to it: the beginning, as far as there was room. *)
Lemma write_pieces path pieces : ∀ d acc, files d !! path = Some acc →
  files (foldl (λ d piece, write_bytes path piece d) d pieces) !! path = Some (acc ++ take (room d) (concat pieces)).
Proof.
  induction pieces as [|piece pieces IH]; intros d acc Hd; cbn [foldl concat]; [by rewrite take_nil, app_nil_r|].
  rewrite (IH _ (acc ++ take (room d) piece)); [|cbn [write_bytes files]; rewrite Hd; by rewrite lookup_insert_eq].
  cbn [write_bytes room]. rewrite <- app_assoc, take_app, length_take.
  by replace (room d - room d `min` length piece)%nat with (room d - length piece)%nat by lia.
Qed.

(** A short write is no error, not even with no room at all. *)
Lemma short_write_silent path (a b : tok) : ∃ d,
  (d ← open_write true path (mk_disk ∅ 1); Ret (write_bytes path [a; b] d)) = Ret d ∧ files d !! path = Some [a].
Proof.
  eexists. split; [done|]. cbn. by rewrite lookup_empty, !lookup_insert_eq.
Qed.

(** Pieces that are read are those of the content, and what is not there is an error. *)
Lemma read_pieces pieces tail_ : ∀ rest n, drop n rest = concat pieces ++ tail_ →
  fold_m (λ '(l, s) k, '(piece, s) ← read_bytes k s; Ret (l ++ piece, s)) ([], mk_read_stream rest n) (map length pieces) =
    Ret (concat pieces, mk_read_stream rest (n + length (concat pieces))).
Proof.
  intros rest n. change (concat pieces) with ([] ++ concat pieces) at 2. generalize (@nil tok). intros l. revert n l.
  induction pieces as [|piece pieces IH]; intros n l Hd; cbn [map fold_m concat]; [by rewrite app_nil_r, Nat.add_0_r|].
  unfold read_bytes, read_l. cbn [position content]. rewrite Hd. cbn [concat]. rewrite <- app_assoc, take_app_length, Nat.ltb_irrefl.
  cbn [mbind result_bind]. rewrite IH by (rewrite <- drop_drop, Hd; cbn [concat]; by rewrite <- app_assoc, drop_app_length).
  by rewrite <- app_assoc, length_app, Nat.add_assoc.
Qed.

Lemma read_behind s n : (length (content s) < position s + n)%nat → (0 < n)%nat → read_bytes n s = Throw runtime_error.
Proof.
  intros H Hn. unfold read_bytes, read_l. rewrite length_take, length_drop. by rewrite (proj2 (Nat.ltb_lt _ _)) by lia.
Qed.
End streams.

(** What is read through [read] goes through the file from the beginning, and throws at its end: the readers of an archive
    over a file are of this kind. *)
Lemma read_bytes_streams {tok T : Type} n (f : list tok → T) :
  streams (λ a : list tok, '(piece, s) ← read_bytes n (mk_read_stream a 0); Ret (f piece, drop (position s) (content s))).
Proof.
  unfold read_bytes, read_l. cbn [position content]. split.
  - intros a b x r. rewrite !drop_0, !length_take. destruct (Nat.ltb_spec (n `min` length a) n) as [H|H]; [by intros [=]|].
    cbn [mbind result_bind position content]. intros [= <- <-]. rewrite length_app, (proj2 (Nat.ltb_ge _ _)) by lia. cbn [mbind result_bind position content].
    rewrite take_app_le by lia. f_equal. f_equal. rewrite !Nat.min_l by lia. cbn. by rewrite drop_app_le by lia.
  - intros a b y _. by case_match.
Qed.

(** * Queues for workers *)

Section private_worker_queue.
Context {J P : Type}.

(** Control blocks are named by numbers: those whose owner is there, and those whose mutex a worker holds.  The tasks in
    the queue of the workers, and the progress in the queue of the apartment, belong to control blocks. *)
(** [scheduler/src/private_queue.cpp:41-49] private_worker_queue::control_block *)
Record workers := mk_workers { live : gset nat; held : gset nat; jobs : list (nat * J); progress : list (nat * P) }.

(** [scheduler/src/private_queue.cpp:77-79] private_worker_queue::private_worker_queue *)
Definition new_worker_queue (cb : nat) (w : workers) : workers := mk_workers ({[cb]} ∪ live w) (held w) (jobs w) (progress w).

(** It waits for the mutex. *)
(** [scheduler/src/private_queue.cpp:81-86] private_worker_queue::~private_worker_queue *)
Definition destroy_worker_queue (cb : nat) (w : workers) : option workers :=
  if decide (cb ∈ held w) then None else Some (mk_workers (live w ∖ {[cb]}) (held w) (jobs w) (progress w)).

(** [scheduler/src/private_queue.cpp:88-103] private_worker_queue::schedule *)
Definition worker_schedule (cb : nat) (j : J) (w : workers) : workers :=
  mk_workers (live w) (held w) (jobs w ++ [(cb, j)]) (progress w).

(** A worker takes the next task: it waits for the mutex, and goes on with it if the owner is there. *)
(** [scheduler/src/private_queue.cpp:91-99] private_worker_queue::schedule *)
Definition start_job (w : workers) : option (option (nat * J) * workers) :=
  match jobs w with
  | [] => None
  | (cb, j) :: rest =>
    if decide (cb ∈ held w) then None
    else if decide (cb ∈ live w) then Some (Some (cb, j), mk_workers (live w) ({[cb]} ∪ held w) rest (progress w))
    else Some (None, mk_workers (live w) (held w) rest (progress w))
  end.

(** The mutex is released when the task has returned. *)
(** [scheduler/src/private_queue.cpp:91-100] private_worker_queue::schedule *)
Definition end_job (cb : nat) (w : workers) : workers := mk_workers (live w) (held w ∖ {[cb]}) (jobs w) (progress w).

(** [scheduler/src/private_queue.cpp:105-114] private_worker_queue::deliver *)
Definition deliver (cb : nat) (p : P) (w : workers) : workers :=
  mk_workers (live w) (held w) (jobs w) (progress w ++ [(cb, p)]).

(** The apartment takes the next progress: its owner is looked for without the mutex. *)
(** [scheduler/src/private_queue.cpp:108-111] private_worker_queue::deliver *)
Definition run_progress (w : workers) : option (option (nat * P) * workers) :=
  match progress w with
  | [] => None
  | (cb, p) :: rest => Some (if decide (cb ∈ live w) then Some (cb, p) else None, mk_workers (live w) (held w) (jobs w) rest)
  end.
End private_worker_queue.
Arguments workers : clear implicits.

(** * Requests for files *)

Section async_files.
Context {K tok D : Type} `{CK : Countable K}.

(** What is read and what is written; what became of it. *)
Inductive file_job := j_read (path : K) | j_write (path : K) (bytes : list tok).
Inductive file_done := p_read (d : option D) | p_written (success : bool).

(** Requests are named by their control blocks, which are new.  A job that a worker is inside of has delivered or has not. *)
(** [frontend/async_file.h:28-38] async_file_request *)
Record async_state := mk_async {
  queue : workers file_job file_done;
  used : gset nat;
  inside : gmap nat (file_job * bool);
  on_disk : gmap K (list tok);
  ready : list (nat * file_done)
}.

Definition new_async (d : gmap K (list tok)) : async_state := mk_async (mk_workers ∅ ∅ [] []) ∅ ∅ d [].

Context (reader : list tok → result (D * list tok)).

(** How a file fares: it is not opened, or it is read or written up to some place only, of which a reader is told by an
    exception and a writer is not told. *)
Inductive luck := all_well | not_opened | cut_at (n : nat).

Definition seen (l : luck) (bytes : list tok) : list tok := match l with cut_at n => take n bytes | _ => bytes end.

(** [catch (...)]: what was read is forgotten. *)
Definition caught {X} (r : result X) : result (option X) :=
  match r with Ret x => Ret (Some x) | Throw _ => Ret None | UB => UB end.

(** [frontend/async_file.h:61-72] async_file_read. The task, up to what it delivers. *)
Definition read_job (l : luck) (path : K) (d : gmap K (list tok)) : result (option D) :=
  x ← caught (match l, d !! path with
    | not_opened, _ | _, None => Throw runtime_error
    | _, Some bytes => reader (seen l bytes)
    end);
  Ret (match x with Some (m, _) => Some m | None => None end).

(** [frontend/async_file.h:89-100] async_file_write. The task, up to what it delivers. *)
Definition write_job (l : luck) (path : K) (bytes : list tok) (d : gmap K (list tok)) : bool * gmap K (list tok) :=
  match l with not_opened => (false, d) | _ => (true, <[path := seen l bytes]> d) end.

Definition async_file (r : nat) (j : file_job) (s : async_state) : async_state :=
  mk_async (worker_schedule r j (new_worker_queue r (queue s))) ({[r]} ∪ used s) (inside s) (on_disk s) (ready s).

(** [frontend/async_file.h:49-75] async_file_read *)
Definition async_file_read (r : nat) (path : K) (s : async_state) : async_state := async_file r (j_read path) s.

(** [frontend/async_file.h:77-103] async_file_write *)
Definition async_file_write (r : nat) (path : K) (bytes : list tok) (s : async_state) : async_state :=
  async_file r (j_write path bytes) s.

(** ** Threads *)

(** The apartment asks and lets go, and runs what was delivered; workers take jobs, do them, and return from them. *)
Inductive async_action :=
  | a_read (r : nat) (path : K) | a_write (r : nat) (path : K) (bytes : list tok) | a_drop (r : nat)
  | a_start | a_work (r : nat) (l : luck) | a_return (r : nat) | a_progress.

Definition with_queue (w : workers file_job file_done) (s : async_state) : async_state :=
  mk_async w (used s) (inside s) (on_disk s) (ready s).

(** The task of [r], which delivers what came of it. *)
Definition work (r : nat) (l : luck) (j : file_job) (s : async_state) : result async_state :=
  '(p, d) ← (match j with
    | j_read path => m ← read_job l path (on_disk s); Ret (p_read m, on_disk s)
    | j_write path bytes => let '(b, d) := write_job l path bytes (on_disk s) in Ret (p_written b, d)
    end);
  Ret (mk_async (deliver r p (queue s)) (used s) (<[r := (j, true)]> (inside s)) d (ready s)).

(** What a thread waits for is not done yet: the state is the same. *)
Definition async_step (s : async_state) (a : async_action) : result async_state :=
  match a with
  | a_read r path => Ret (if decide (r ∈ used s) then s else async_file_read r path s)
  | a_write r path bytes => Ret (if decide (r ∈ used s) then s else async_file_write r path bytes s)
  | a_drop r => Ret (match destroy_worker_queue r (queue s) with Some w => with_queue w s | None => s end)
  | a_start => Ret (match start_job (queue s) with
    | Some (Some (r, j), w) => mk_async w (used s) (<[r := (j, false)]> (inside s)) (on_disk s) (ready s)
    | Some (None, w) => with_queue w s
    | None => s
    end)
  | a_work r l => match inside s !! r with Some (j, false) => work r l j s | _ => Ret s end
  | a_return r => Ret (match inside s !! r with
    | Some (_, true) => mk_async (end_job r (queue s)) (used s) (delete r (inside s)) (on_disk s) (ready s)
    | _ => s
    end)
  | a_progress => Ret (match run_progress (queue s) with
    | Some (Some (r, p), w) => mk_async w (used s) (inside s) (on_disk s) (ready s ++ [(r, p)])
    | Some (None, w) => with_queue w s
    | None => s
    end)
  end.

(** ** Where a request is *)

(** Its task waits, or has delivered, or the client was called. *)
Definition stages (s : async_state) : list nat := (jobs (queue s)).*1 ++ (progress (queue s)).*1 ++ (ready s).*1.

(** A worker is doing its task. *)
Definition working (s : async_state) (r : nat) : Prop := ∃ j, inside s !! r = Some (j, false).

(** A request is at one place, once; while a worker is inside of its task it is there. *)
Record async_ok (s : async_state) : Prop := {
  as_once : NoDup (stages s);
  as_working r : working s r → r ∉ stages s;
  as_place r : r ∈ live (queue s) → r ∈ stages s ∨ working s r;
  as_used r : r ∈ stages s ∨ r ∈ live (queue s) → r ∈ used s;
  as_held r : r ∈ held (queue s) ↔ is_Some (inside s !! r);
  as_inside r : is_Some (inside s !! r) → r ∈ live (queue s)
}.

Lemma new_async_ok d : async_ok (new_async d).
Proof using Type.
  split; cbn; [constructor|intros r [j [=]]|set_solver|set_solver| |by intros r [x [=]]].
  intros r. split; [set_solver|by intros [x [=]]].
Qed.

Lemma async_file_ok r j s : async_ok s → r ∉ used s → async_ok (async_file r j s).
Proof using Type.
  intros [Ho Hw Hp Hu Hh Hi] Hr. assert (r ∉ stages s) as Hns by (intros H; apply Hr, Hu; auto).
  assert (stages (async_file r j s) ≡ₚ r :: stages s) as Hs.
  { unfold stages. cbn. rewrite fmap_app, <- app_assoc. cbn. by rewrite <- Permutation_middle. }
  split.
  - rewrite Hs. by constructor.
  - intros r' Hr'. rewrite Hs. apply not_elem_of_cons. split; [|by apply Hw]. intros ->. destruct Hr' as [j' Hr'].
    apply Hr, Hu. right. apply Hi. by eexists.
  - intros r'. rewrite Hs, elem_of_cons. cbn. rewrite elem_of_union, elem_of_singleton. intros [->|H]; [auto|].
    destruct (Hp r' H); [auto|]. by right.
  - intros r'. rewrite Hs, elem_of_cons. cbn. rewrite !elem_of_union, !elem_of_singleton. intros [[->|H]|[->|H]]; auto.
  - exact Hh.
  - intros r' H. cbn. apply elem_of_union. right. by apply Hi.
Qed.

Lemma drop_ok r s w : async_ok s → destroy_worker_queue r (queue s) = Some w → async_ok (with_queue w s).
Proof using Type.
  intros [Ho Hw Hp Hu Hh Hi] E. unfold destroy_worker_queue in E. case_decide as Hr; [done|]. injection E as <-.
  split; cbn; [exact Ho|exact Hw| | |exact Hh|].
  - intros r' [H _]%elem_of_difference. by apply Hp.
  - intros r' [H|[H _]%elem_of_difference]; apply Hu; auto.
  - intros r' H. apply elem_of_difference. split; [by apply Hi|]. intros ->%elem_of_singleton. by apply Hr, Hh.
Qed.

(** A task that leaves the queue, to be done or to be skipped. *)
Lemma start_ok s x w : async_ok s → start_job (queue s) = Some (x, w) →
  async_ok match x with
    | Some (r, j) => mk_async w (used s) (<[r := (j, false)]> (inside s)) (on_disk s) (ready s)
    | None => with_queue w s
    end.
Proof using Type.
  intros [Ho Hw Hp Hu Hh Hi] E. unfold start_job in E. destruct (jobs (queue s)) as [|[r j] rest] eqn:Ej; [done|].
  case_decide as Hr; [done|]. assert (stages s = r :: rest.*1 ++ (progress (queue s)).*1 ++ (ready s).*1) as Es
    by (unfold stages; by rewrite Ej).
  rewrite Es in Ho. apply NoDup_cons in Ho as [Hnot Ho].
  assert (∀ r', r' ∈ stages s ↔ r' = r ∨ r' ∈ rest.*1 ++ (progress (queue s)).*1 ++ (ready s).*1) as Hs
    by (intros r'; by rewrite Es, elem_of_cons).
  case_decide as Hl; injection E as <- <-; (split; [exact Ho|..]; unfold stages, working; cbn [queue jobs progress ready inside held live with_queue used]).
  - intros r' [j' Hj]. destruct (decide (r' = r)) as [->|Hne]; [done|]. rewrite lookup_insert_ne in Hj by done.
    intros H. apply (Hw r'); [by exists j'|]. apply Hs. by right.
  - intros r' H. destruct (decide (r' = r)) as [->|Hne]; [right; exists j; by rewrite lookup_insert_eq|].
    destruct (Hp r' H) as [H1|[j' H1]]; [left; apply Hs in H1 as [|]; done|right; exists j'; by rewrite lookup_insert_ne].
  - intros r' [H|H]; apply Hu; [left; apply Hs|]; auto.
  - intros r'. rewrite elem_of_union, elem_of_singleton, lookup_insert_is_Some', Hh. naive_solver.
  - intros r' [->|[_ H]]%lookup_insert_is_Some; [done|by apply Hi].
  - intros r' Hj H. apply (Hw r'); [done|]. apply Hs. by right.
  - intros r' H. destruct (Hp r' H) as [[->|H1]%Hs|H1]; auto. done.
  - intros r' [H|H]; apply Hu; [left; apply Hs|]; auto.
  - exact Hh.
  - exact Hi.
Qed.

Lemma work_ok r l j s s' : async_ok s → inside s !! r = Some (j, false) → work r l j s = Ret s' → async_ok s'.
Proof using Type.
  intros [Ho Hw Hp Hu Hh Hi] Hj E. unfold work in E. destruct (match j with j_read _ => _ | _ => _ end) as [[p d]| |]; [|done..].
  injection E as <-. pose proof (Hw r (ex_intro _ j Hj)) as Hns.
  set (s' := mk_async _ _ _ _ _). assert (stages s' ≡ₚ r :: stages s) as Hs.
  { unfold stages. cbn. rewrite fmap_app, <- !app_assoc. cbn. by rewrite app_assoc, <- Permutation_middle, <- app_assoc. }
  assert (∀ r', working s' r' ↔ r' ≠ r ∧ working s r') as Hwork.
  { intros r'. unfold working. cbn. destruct (decide (r' = r)) as [->|Hne].
    - rewrite lookup_insert_eq. split; [by intros [j' [=]]|by intros [[] _]].
    - rewrite lookup_insert_ne by done. naive_solver. }
  assert (r ∈ live (queue s)) as Hl by (apply Hi; by eexists). split.
  - rewrite Hs. by constructor.
  - intros r'. rewrite Hwork, Hs. intros [Hne H]. apply not_elem_of_cons. split; [done|by apply Hw].
  - intros r' H. rewrite Hwork, Hs, elem_of_cons. destruct (decide (r' = r)) as [->|Hne]; [auto|].
    destruct (Hp r' H); auto.
  - intros r'. rewrite Hs, elem_of_cons. intros [[->|H]|H]; apply Hu; auto.
  - intros r'. cbn. rewrite Hh, lookup_insert_is_Some'. split; [auto|]. intros [->|H]; [by eexists|done].
  - cbn. intros r' [->|[_ H]]%lookup_insert_is_Some; [done|by apply Hi].
Qed.

Lemma return_ok r j s : async_ok s → inside s !! r = Some (j, true) →
  async_ok (mk_async (end_job r (queue s)) (used s) (delete r (inside s)) (on_disk s) (ready s)).
Proof using Type.
  intros [Ho Hw Hp Hu Hh Hi] Hj. split; [exact Ho|..].
  - intros r' [j' H]. cbn in H. apply lookup_delete_Some in H as [_ H]. apply Hw. by exists j'.
  - intros r' H. destruct (Hp r' H) as [|[j' H1]]; [by left|right]. exists j'. cbn. rewrite lookup_delete_ne; [done|congruence].
  - exact Hu.
  - intros r'. cbn. rewrite elem_of_difference, elem_of_singleton, Hh, lookup_delete_is_Some. naive_solver.
  - cbn. intros r' [_ H]%lookup_delete_is_Some. by apply Hi.
Qed.

Lemma progress_ok s x w : async_ok s → run_progress (queue s) = Some (x, w) →
  async_ok match x with
    | Some (r, p) => mk_async w (used s) (inside s) (on_disk s) (ready s ++ [(r, p)])
    | None => with_queue w s
    end.
Proof using Type.
  intros [Ho Hw Hp Hu Hh Hi] E. unfold run_progress in E. destruct (progress (queue s)) as [|[r p] rest] eqn:Ep; [done|].
  injection E as <- <-. assert (stages s ≡ₚ r :: (jobs (queue s)).*1 ++ rest.*1 ++ (ready s).*1) as Es.
  { unfold stages. rewrite Ep. cbn. by rewrite <- Permutation_middle. }
  case_decide as Hl.
  - set (s' := mk_async _ _ _ _ _). assert (stages s' ≡ₚ stages s) as Hs.
    { rewrite Es. unfold stages. cbn. rewrite fmap_app. cbn. rewrite !app_assoc. symmetry. apply Permutation_cons_append. }
    split; try done; [by rewrite Hs|intros r'; rewrite Hs; apply Hw|intros r'; rewrite Hs; apply Hp|intros r'; rewrite Hs; apply Hu].
  - rewrite Es in Ho. apply NoDup_cons in Ho as [_ Ho]. split; try done.
    + intros r' Hr H. apply (Hw r' Hr). rewrite Es. by right.
    + intros r' H. destruct (Hp r' H) as [H1|]; [left|by right]. rewrite Es in H1. apply elem_of_cons in H1 as [->|]; done.
    + intros r' [H|H]; apply Hu; [left; rewrite Es; by right|auto].
Qed.

Lemma async_step_ok s a s' : async_ok s → async_step s a = Ret s' → async_ok s'.
Proof using Type.
  intros Hs. destruct a as [r path|r path bytes|r| |r l|r|]; cbn [async_step].
  - intros [= <-]. case_decide; [done|by apply async_file_ok].
  - intros [= <-]. case_decide; [done|by apply async_file_ok].
  - intros [= <-]. destruct (destroy_worker_queue r (queue s)) as [w|] eqn:E; [by eapply drop_ok|done].
  - intros [= <-]. destruct (start_job (queue s)) as [[[[r j]|] w]|] eqn:E; [..|done]; apply (start_ok s _ _ Hs E).
  - destruct (inside s !! r) as [[j []]|] eqn:E; [by intros [= <-]| |by intros [= <-]]. by apply work_ok.
  - intros [= <-]. destruct (inside s !! r) as [[j []]|] eqn:E; [by eapply return_ok|done..].
  - intros [= <-]. destruct (run_progress (queue s)) as [[[[r p]|] w]|] eqn:E; [..|done]; apply (progress_ok s _ _ Hs E).
Qed.

Lemma async_run_ok d actions s : fold_m async_step (new_async d) actions = Ret s → async_ok s.
Proof using Type. apply (fold_m_invariant async_step async_ok); [intros ? ? ?; apply async_step_ok|apply new_async_ok]. Qed.

(** A request that is gone. *)
Definition gone (r : nat) (s : async_state) : Prop := r ∈ used s ∧ r ∉ live (queue s).

Lemma let_go_step r s a s' : gone r s → async_step s a = Ret s' → gone r s' ∧ ∀ p, (r, p) ∈ ready s' → (r, p) ∈ ready s.
Proof using Type.
  intros [Hu Hl] E. assert (∀ r' j, r' ∉ used s → gone r (async_file r' j s)) as Hfile.
  { intros r' j Hr'. split; cbn; [set_solver|]. apply not_elem_of_union. split; [|done]. intros ->%elem_of_singleton. done. }
  destruct a as [r' path|r' path bytes|r'| |r' l|r'|]; cbn [async_step] in E.
  - injection E as <-. case_decide; [done|]. split; [by apply Hfile|done].
  - injection E as <-. case_decide; [done|]. split; [by apply Hfile|done].
  - injection E as <-. unfold destroy_worker_queue. case_decide; [done|]. split; [split; cbn; [done|set_solver]|done].
  - injection E as <-. unfold start_job. destruct (jobs (queue s)) as [|[r' j] rest]; [done|]. repeat case_decide; done.
  - destruct (inside s !! r') as [[j []]|]; [by injection E as <-| |by injection E as <-].
    unfold work in E. destruct (match j with j_read _ => _ | _ => _ end) as [[p d]| |]; [|done..]. by injection E as <-.
  - injection E as <-. by destruct (inside s !! r') as [[j []]|].
  - injection E as <-. unfold run_progress. destruct (progress (queue s)) as [|[r' p'] rest]; [done|].
    case_decide as Hr; [|done]. split; [done|]. intros p [|[= -> ->]%list_elem_of_singleton]%elem_of_app; done.
Qed.

Lemma let_go_run r more : ∀ s s', gone r s → fold_m async_step s more = Ret s' →
  gone r s' ∧ ∀ p, (r, p) ∈ ready s' → (r, p) ∈ ready s.
Proof using Type.
  induction more as [|a more IH]; intros s s' Hg; cbn [fold_m]; [by intros [= ->]|].
  destruct (async_step s a) as [s1| |] eqn:E; [|by intros [=]..]. cbn [mbind result_bind]. intros Hr.
  destruct (let_go_step r s a s1 Hg E) as [Hg1 H1]. destruct (IH s1 s' Hg1 Hr) as [Hg2 H2]. split; [done|]. intros p Hp. auto.
Qed.

(** C22: However the threads interleave, a client is called at most once for a request; a worker uses a request only while it is
    there, and nothing that was let go is started, finished or told of any more. *)
Theorem async_files_safe d actions s : fold_m async_step (new_async d) actions = Ret s →
  NoDup (ready s).*1 ∧ (∀ r, is_Some (inside s !! r) → r ∈ live (queue s)) ∧
  ∀ r more s', r ∈ used s → r ∉ live (queue s) → fold_m async_step s more = Ret s' →
    inside s' !! r = None ∧ ∀ p, (r, p) ∈ ready s' → (r, p) ∈ ready s.
Proof using Type.
  intros Hrun. pose proof (async_run_ok d actions s Hrun) as Hs. split; [|split; [apply Hs|]].
  - pose proof (as_once s Hs) as H. unfold stages in H. apply NoDup_app in H as (_ & _ & H). by apply NoDup_app in H as (_ & _ & H).
  - intros r more s' Hu Hl Hmore. destruct (let_go_run r more s s' (conj Hu Hl) Hmore) as [[_ Hg] Hr]. split; [|done].
    assert (async_ok s') as Hs' by (eapply (fold_m_invariant async_step async_ok); [intros ? ? ?; apply async_step_ok|exact Hs|exact Hmore]).
    apply eq_None_not_Some. intros H. by apply Hg, Hs'.
Qed.

(** ** Every request is answered *)

(** What is left to do. *)
Definition weight (x : file_job * bool) : nat := if x.2 then 1 else 3.
Definition weights (m : gmap nat (file_job * bool)) : nat := map_fold (λ _ x n, weight x + n)%nat 0%nat m.
Definition left_over (s : async_state) : nat := 4 * length (jobs (queue s)) + weights (inside s) + length (progress (queue s)).

Lemma weights_delete r x m : m !! r = Some x → weights m = (weight x + weights (delete r m))%nat.
Proof using Type. intros Hr. apply (map_fold_delete_L (λ _ x n, weight x + n)%nat 0%nat r x m); [intros; lia|done]. Qed.

Lemma weights_insert r x m : weights (<[r := x]> m) = (weight x + weights (delete r m))%nat.
Proof using Type. rewrite (weights_delete r x) by apply lookup_insert_eq. by rewrite delete_insert_eq. Qed.

Definition at_rest (s : async_state) : Prop := jobs (queue s) = [] ∧ inside s = ∅ ∧ progress (queue s) = [].

(** What the threads do without the client. *)
Definition on_its_own (a : async_action) : Prop :=
  match a with a_start | a_work _ _ | a_return _ | a_progress => True | _ => False end.

Lemma goes_on s : (∀ bytes, reader bytes ≠ UB) → async_ok s → ¬ at_rest s →
  ∃ a s', on_its_own a ∧ async_step s a = Ret s' ∧ (left_over s' < left_over s)%nat ∧ live (queue s') = live (queue s).
Proof using Type.
  intros Hrd Hs Hnot. unfold left_over. destruct (progress (queue s)) as [|[r p] rest] eqn:Ep.
  2:{ exists a_progress. eexists. split; [done|]. split; [done|]. unfold run_progress. rewrite Ep.
      case_decide; cbn; rewrite ?Ep; cbn; split; done || lia. }
  destruct (decide (inside s = ∅)) as [Ei|Ei].
  - destruct (jobs (queue s)) as [|[r j] rest] eqn:Ej; [by destruct Hnot|].
    exists a_start. eexists. split; [done|]. split; [done|]. unfold start_job. rewrite Ej.
    rewrite decide_False by (rewrite (as_held s Hs), Ei, lookup_empty; by intros []).
    case_decide; cbn; rewrite ?Ej, ?Ep; cbn; (split; [|done]); [|lia].
    rewrite weights_insert, Ei, delete_empty. unfold weights. rewrite map_fold_empty. cbn. lia.
  - apply map_choose in Ei as (r & [j []] & Hr).
    + exists (a_return r). eexists. split; [done|]. split; [done|]. cbn. rewrite Hr, ?Ep. cbn. rewrite ?Ep, (weights_delete r _ _ Hr). cbn.
      split; [lia|done].
    + exists (a_work r all_well). cbn [async_step]. rewrite Hr.
      assert (∃ s' p, work r all_well j s = Ret s' ∧ queue s' = deliver r p (queue s) ∧ inside s' = <[r := (j, true)]> (inside s))
        as (s' & p & -> & Hq & Hi).
      { unfold work, read_job. destruct j as [path|path bytes]; [|by do 2 eexists].
        destruct (on_disk s !! path) as [bytes|]; [|by do 2 eexists].
        cbn [seen]. pose proof (Hrd bytes). destruct (reader bytes) as [[]| |]; [by do 2 eexists..|done]. }
      exists s'. split; [done|]. split; [done|]. rewrite Hi, Hq, weights_insert, (weights_delete r _ _ Hr). cbn.
      rewrite Ep. cbn. split; [lia|done].
Qed.

Lemma own_step s a s' : on_its_own a → async_step s a = Ret s' → s' = s ∨ (left_over s' < left_over s)%nat.
Proof using Type.
  unfold left_over. destruct a as [| | | |r l|r|]; try done; intros _; cbn [async_step].
  - intros [= <-]. unfold start_job. destruct (jobs (queue s)) as [|[r j] rest] eqn:Ej; [by left|]. case_decide; [by left|].
    right. case_decide; cbn; [|lia]. rewrite weights_insert. cbn.
    assert (weights (delete r (inside s)) ≤ weights (inside s))%nat; [|lia].
    destruct (inside s !! r) as [x|] eqn:E; [rewrite (weights_delete r _ _ E); lia|by rewrite delete_id].
  - destruct (inside s !! r) as [[j []]|] eqn:E; [intros [= <-]; by left| |intros [= <-]; by left]. intros Hw. right.
    unfold work in Hw. destruct (match j with j_read _ => _ | _ => _ end) as [[p d]| |]; [|done..]. injection Hw as <-. cbn.
    rewrite weights_insert, (weights_delete r _ _ E), length_app. cbn. lia.
  - intros [= <-]. destruct (inside s !! r) as [[j []]|] eqn:E; [right|by left..]. cbn. rewrite (weights_delete r _ _ E). cbn. lia.
  - intros [= <-]. unfold run_progress. destruct (progress (queue s)) as [|[r p] rest] eqn:Ep; [by left|]. right.
    case_decide; cbn; lia.
Qed.

(** A client that waits is called: what the threads do on their own comes to an end, and when nothing is left to do
    everybody who has not let the request go has been called. *)
Theorem async_files_answer d actions s : (∀ bytes, reader bytes ≠ UB) → fold_m async_step (new_async d) actions = Ret s →
  (∀ a s', on_its_own a → async_step s a = Ret s' → s' = s ∨ (left_over s' < left_over s)%nat) ∧
  ((∀ a s', on_its_own a → async_step s a = Ret s' → s' = s) → ∀ r, r ∈ live (queue s) → ∃ p, (r, p) ∈ ready s).
Proof using Type.
  intros Hrd Hrun. pose proof (async_run_ok d actions s Hrun) as Hs. split; [intros a s'; apply own_step|].
  intros Hstuck r Hr. assert (at_rest s) as (Hj & Hi & Hp).
  { destruct (decide (jobs (queue s) = [] ∧ inside s = ∅ ∧ progress (queue s) = [])) as [|Hn]; [done|].
    destruct (goes_on s Hrd Hs Hn) as (a & s' & Ha & E & Hlt & _). rewrite (Hstuck a s' Ha E) in Hlt. lia. }
  destruct (as_place s Hs r Hr) as [H|[j H]]; [|by rewrite Hi, lookup_empty in H].
  unfold stages in H. rewrite Hj, Hp in H. cbn in H. apply list_elem_of_fmap in H as ([r' p] & -> & H). by exists p.
Qed.

(** ** What the files have *)

(** [stored] are the values that are kept under a path, with what is written for them; readers know a cut file from a
    whole one. *)
Section exact.
Context (stored : K → D → list tok → Prop).
Context (reader_exact : ∀ path v whole n m rest, stored path v whole → reader (take n whole) = Ret (m, rest) → m = v).
Context (reader_defined : ∀ path v whole n, stored path v whole → reader (take n whole) ≠ UB).

Definition job_exact (asked : nat → K → Prop) (x : nat * file_job) : Prop :=
  match x.2 with j_read path => asked x.1 path | j_write path bytes => ∃ v, stored path v bytes end.
Definition done_exact (asked : nat → K → Prop) (x : nat * file_done) : Prop :=
  match x.2 with p_read (Some m) => ∃ path whole, asked x.1 path ∧ stored path m whole | _ => True end.
Definition files_exact (d : gmap K (list tok)) : Prop :=
  ∀ path bytes, d !! path = Some bytes → ∃ v whole n, stored path v whole ∧ bytes = take n whole.

Record exact (asked : nat → K → Prop) (s : async_state) : Prop := {
  ex_disk : files_exact (on_disk s);
  ex_jobs : Forall (job_exact asked) (jobs (queue s));
  ex_inside r x : inside s !! r = Some x → job_exact asked (r, x.1);
  ex_progress : Forall (done_exact asked) (progress (queue s));
  ex_ready : Forall (done_exact asked) (ready s)
}.

Definition action_exact (asked : nat → K → Prop) (a : async_action) : Prop :=
  match a with a_read r path => asked r path | a_write r path bytes => ∃ v, stored path v bytes | _ => True end.

Lemma seen_take l n (whole : list tok) : ∃ n', seen l (take n whole) = take n' whole.
Proof using Type. destruct l as [| |k]; cbn; [by exists n..|]. exists (k `min` n)%nat. by rewrite take_take. Qed.

(** What a reader of a file is given. *)
Lemma read_exact l path d : files_exact d → ∃ m, read_job l path d = Ret m ∧
  match m with Some v => ∃ whole, stored path v whole | None => True end.
Proof using reader_exact reader_defined.
  intros Hd. unfold read_job. destruct (d !! path) as [bytes|] eqn:Eb; [|exists None; by destruct l].
  destruct (Hd path bytes Eb) as (v & whole & n & Hst & ->). destruct (seen_take l n whole) as [n' Hn'].
  pose proof (reader_defined path v whole n' Hst) as Hdef. rewrite Hn'.
  destruct (reader (take n' whole)) as [[m rest]| |] eqn:Er; [|destruct l; by exists None|done].
  rewrite (reader_exact path v whole n' m rest Hst Er). destruct l; [exists (Some v)|by exists None|exists (Some v)]; eauto.
Qed.

Lemma work_exact asked r l j s : exact asked s → job_exact asked (r, j) → ∃ s', work r l j s = Ret s' ∧ exact asked s'.
Proof using reader_exact reader_defined.
  intros [Hd Hj Hi Hp Hr] Hjob. unfold work.
  assert (∃ p d, (match j with
      | j_read path => m ← read_job l path (on_disk s); Ret (p_read m, on_disk s)
      | j_write path bytes => let '(b, d) := write_job l path bytes (on_disk s) in Ret (p_written b, d)
      end) = Ret (p, d) ∧ files_exact d ∧ done_exact asked (r, p)) as (p & d & -> & Hd' & Hdone).
  { destruct j as [path|path bytes]; cbn in Hjob.
    - destruct (read_exact l path _ Hd) as (m & -> & Hm). do 2 eexists. split; [done|]. split; [done|]. destruct m as [m|]; [|done].
      destruct Hm as [whole Hm]. by exists path, whole.
    - destruct Hjob as [v Hv]. assert (∀ n, files_exact (<[path := take n bytes]> (on_disk s))) as Hf.
      { intros n path' bytes'. destruct (decide (path' = path)) as [->|Hne]; [rewrite lookup_insert_eq; intros [= <-]; eauto|].
        rewrite lookup_insert_ne by done. apply Hd. }
      destruct l as [| |k]; (do 2 eexists; split; [done|]; split; [|done]); [|done|by apply Hf].
      specialize (Hf (length bytes)). by rewrite firstn_all in Hf. }
  eexists. split; [done|]. split; cbn; [done|done| |by apply Forall_behind|done].
  intros r' x. destruct (decide (r' = r)) as [->|Hne]; [rewrite lookup_insert_eq; by intros [= <-]|].
  rewrite lookup_insert_ne by done. apply Hi.
Qed.

Lemma exact_step asked s a : exact asked s → action_exact asked a → ∃ s', async_step s a = Ret s' ∧ exact asked s'.
Proof using reader_exact reader_defined.
  intros Hs Ha. pose proof Hs as [Hd Hj Hi Hp Hr]. destruct a as [r path|r path bytes|r| |r l|r|]; cbn [async_step].
  - eexists. split; [done|]. case_decide; [done|]. split; cbn; try done. by apply Forall_behind.
  - eexists. split; [done|]. case_decide; [done|]. split; cbn; try done. by apply Forall_behind.
  - eexists. split; [done|]. unfold destroy_worker_queue. by case_decide.
  - eexists. split; [done|]. unfold start_job. destruct (jobs (queue s)) as [|[r j] rest] eqn:Ej; [done|]. apply Forall_cons in Hj as [Hj Hrest].
    repeat case_decide; [done| |by split]. split; cbn; try done. intros r' x.
    destruct (decide (r' = r)) as [->|Hne]; [rewrite lookup_insert_eq; by intros [= <-]|]. rewrite lookup_insert_ne by done. apply Hi.
  - destruct (inside s !! r) as [[j []]|] eqn:E; [by exists s| |by exists s]. apply work_exact; [done|]. exact (Hi r (j, false) E).
  - eexists. split; [done|]. destruct (inside s !! r) as [[j []]|] eqn:E; [|done..]. split; cbn; try done.
    intros r' x [_ H]%lookup_delete_Some. by apply Hi.
  - eexists. split; [done|]. unfold run_progress. destruct (progress (queue s)) as [|[r p] rest] eqn:Ep; [done|]. apply Forall_cons in Hp as [Hp Hrest].
    case_decide; split; cbn; try done. by apply Forall_behind.
Qed.

Lemma exact_run asked d actions : files_exact d → Forall (action_exact asked) actions →
  ∃ s, fold_m async_step (new_async d) actions = Ret s ∧ exact asked s.
Proof using reader_exact reader_defined.
  intros Hd Ha. assert (exact asked (new_async d)) as H0 by (split; cbn; [done|constructor|done|constructor..]). revert H0.
  generalize (new_async d). clear Hd. induction Ha as [|a actions Ha _ IH]; intros s0 H0; cbn [fold_m]; [by exists s0|].
  destruct (exact_step asked s0 a H0 Ha) as (s1 & -> & H1). by apply IH.
Qed.
End exact.
End async_files.

(** * The cache of metadata *)

(** [frontend/src/frontend_metadata.cpp:131-139] frontend::construct_cache_path *)
Definition construct_cache_path (cache_directory : list Z) (mapping : mapped_module_ex) : result (list Z) :=
  let cache_path := path_join cache_directory (file_name (of_string (path_ mapping))) in
  let cache_path := cache_path ++ [0x2D] in
  cache_path ← itoa 16 false 32 cache_path (hash_ mapping) 8 0x30;
  Ret (cache_path ++ of_string ".symcache").

Lemma path_join_prefix dir : ∃ pre, ∀ x, path_join dir x = pre ++ x.
Proof.
  unfold path_join. destruct (last dir) as [c|]; [|by exists []]. destruct (is_separator c); [by exists dir|].
  exists (dir ++ [0x2F]). intros x. by rewrite <- app_assoc.
Qed.

(** What is behind the last of some character. *)
Lemma behind_last (c : Z) l : ∀ l' k k', c ∉ k → c ∉ k' → l ++ c :: k = l' ++ c :: k' → l = l' ∧ k = k'.
Proof.
  induction l as [|x l IH]; intros [|x' l'] k k' Hk Hk' E; cbn in E; [by injection E as ->|injection E as Hx E..].
  - destruct Hk. rewrite E. apply elem_of_app. right. by left.
  - destruct Hk'. rewrite <- E. apply elem_of_app. right. by left.
  - destruct (IH _ _ _ Hk Hk' E). by subst.
Qed.

Lemma of_digits_padded n ds : of_digits 16 (replicate n 0x30 ++ ds) = of_digits 16 ds.
Proof. induction n as [|n IH]; [done|]. cbn [replicate Datatypes.app]. by rewrite of_digits_cons, IH. Qed.

(** The hash in a path: a text without the dash that tells it back. *)
Lemma cache_path_text dir m : in_u 32 (hash_ m) → ∃ pre text, (∀ x, path_join dir x = pre ++ x) ∧
  construct_cache_path dir m = Ret (pre ++ file_name (of_string (path_ m)) ++ 0x2D :: text ++ of_string ".symcache") ∧
  of_digits 16 text = hash_ m ∧ 0x2D ∉ text.
Proof.
  intros Hh. destruct (path_join_prefix dir) as [pre Hpre]. unfold construct_cache_path. rewrite Hpre.
  destruct (itoa_prints 16 false 32 ((pre ++ file_name (of_string (path_ m))) ++ [0x2D]) (hash_ m) 8 0x30)
    as (ds & pads & -> & Hval & _ & _ & Hds); [lia|lia|done|done|lia|]. cbn [mbind result_bind andb].
  exists pre, (replicate pads 0x30 ++ ds). split; [done|]. split; [by rewrite <- !app_assoc|]. split.
  - rewrite of_digits_padded, Hval. unfold in_u in Hh. lia.
  - intros [[H _]%elem_of_replicate|H]%elem_of_app; [done|]. rewrite Forall_forall in Hds. destruct (Hds _ H) as (d & Hd & E).
    unfold digit in E. case_match; lia.
Qed.

(** Modules share a file when they have the same name and the same hash, and only then. *)
Theorem cache_paths_apart dir m m' : in_u 32 (hash_ m) → in_u 32 (hash_ m') →
  construct_cache_path dir m = construct_cache_path dir m' ↔
  file_name (of_string (path_ m)) = file_name (of_string (path_ m')) ∧ hash_ m = hash_ m'.
Proof.
  intros Hm Hm'. split; [|by intros [E1 E2]; unfold construct_cache_path; rewrite E1, E2].
  destruct (cache_path_text dir m Hm) as (pre & t & Hpre & -> & Ht & Hn).
  destruct (cache_path_text dir m' Hm') as (pre' & t' & Hpre' & -> & Ht' & Hn').
  assert (pre' = pre) as -> by (pose proof (Hpre []) as H1; pose proof (Hpre' []) as H2; rewrite app_nil_r in H1, H2; congruence).
  intros E%Ret_inj%app_inv_head. rewrite !app_comm_cons, !app_assoc in E. apply app_inv_tail in E.
  apply behind_last in E as [-> ->]; [|done..]. by rewrite Ht in Ht'.
Qed.

Section cache.
Context {tok : Type} `{AR : strmd tok}.

(** [frontend/src/frontend_metadata.cpp:79-82] frontend::request_metadata_nw_cached. What the reader does. *)
Definition load_metadata (a : list tok) : result (module_info_metadata * list tok) :=
  get_versioned (λ ver, load_metadata_at ver fresh_metadata) a.

(** The record that is written is in the table of modules, where it does not change once it is there. *)
(** [frontend/src/frontend_metadata.cpp:117-129] frontend::store_metadata *)
Definition store_metadata `{FO : file_order} (r : nat) (cache_path : list Z) (m : module_info_metadata)
    (s : async_state (K := list Z) (tok := tok) (D := module_info_metadata)) : async_state :=
  async_file_write r cache_path (save_metadata m) s.

Context {LAWS : strmd_laws tok} {STREAMS : strmd_streams tok}.

(** [kept path m]: the metadata of [m] are kept under the path; modules with the same name and hash share it.  Each time
    they are written, the files of the module may come in another order. *)
Context (kept : list Z → module_info_metadata → Prop).

Definition cache_file (path : list Z) (m : module_info_metadata) (whole : list tok) : Prop :=
  kept path m ∧ metadata_fits m ∧ ∃ order : file_order, whole = save_metadata (FO := order) m.

Lemma load_stored path m whole rest : cache_file path m whole → load_metadata (whole ++ rest) = Ret (m, rest).
Proof using LAWS.
  intros (_ & Hm & order & ->). apply versioned_roundtrip. intros rest'. etransitivity; [exact (metadata_read 6 m rest' Hm)|].
  unfold known_metadata. by destruct m.
Qed.

#[local] Instance load_symbol_streams : streams load_symbol.
Proof using STREAMS. apply versioned_streams. intros v. apply _. Qed.

#[local] Instance load_file_streams : streams load_file.
Proof using STREAMS. apply _. Qed.

#[local] Instance load_metadata_streams : streams load_metadata.
Proof using STREAMS. apply versioned_streams. intros v. unfold load_metadata_at. apply _. Qed.

Lemma load_exact path v whole n m rest : cache_file path v whole → load_metadata (take n whole) = Ret (m, rest) → m = v.
Proof using LAWS STREAMS.
  intros Hv E. pose proof (load_stored path v whole [] Hv) as Hl. rewrite app_nil_r in Hl. by apply (streams_part load_metadata whole n v m rest _ Hl).
Qed.

Lemma load_defined path v whole n : cache_file path v whole → load_metadata (take n whole) ≠ UB.
Proof using LAWS STREAMS.
  intros Hv. pose proof (load_stored path v whole [] Hv) as Hl. rewrite app_nil_r, <- (take_drop n whole) in Hl. by eapply streams_cut.
Qed.

(** C39: Metadata in the cache are those that were stored, or none: however requests, workers and failures of the disk
    interleave, a reader is given nothing, or all the metadata of a module that are kept under its path, never a part of
    them, and nothing is undefined; what is written well is all there, and a reader who finds it and whom the disk does not
    fail is given it.  That a file that was cut off is noticed comes from the stream, which throws at the end of the file,
    and from the archive, which goes through it from the beginning.  The path is made of the name and the hash of a module:
    modules that have the same ones are not told apart. *)
Theorem cache_whole d actions : files_exact cache_file d →
  (∀ r path bytes, a_write r path bytes ∈ actions → ∃ m, cache_file path m bytes) →
  ∃ s, fold_m (async_step load_metadata) (new_async d) actions = Ret s ∧
  (∀ r m, (r, p_read (Some m)) ∈ ready s → ∃ path, a_read r path ∈ actions ∧ kept path m) ∧
  (∀ r path bytes, inside s !! r = Some (j_write path bytes, false) → ∃ s' m,
    async_step load_metadata s (a_work r all_well) = Ret s' ∧ on_disk s' !! path = Some bytes ∧ cache_file path m bytes) ∧
  (∀ r path m bytes, inside s !! r = Some (j_read path, false) → on_disk s !! path = Some bytes → cache_file path m bytes → ∃ s',
    async_step load_metadata s (a_work r all_well) = Ret s' ∧ progress (queue s') = progress (queue s) ++ [(r, p_read (Some m))]).
Proof using LAWS STREAMS.
  intros Hd Hw.
  destruct (exact_run load_metadata cache_file load_exact load_defined (λ r path, a_read r path ∈ actions) d actions Hd) as (s & Hrun & Hs).
  { apply Forall_forall. intros [] Ha; cbn; [done|by eapply Hw|done..]. }
  exists s. split; [done|]. split; [|split].
  - intros r m Hin. pose proof (ex_ready _ _ _ Hs) as Hr. rewrite Forall_forall in Hr.
    destruct (Hr _ Hin) as (path & whole & Ha & Hk & _). by exists path.
  - intros r path bytes E. destruct (ex_inside _ _ _ Hs r _ E) as [m Hm]. cbn [async_step]. rewrite E. eexists _, m.
    split; [done|]. cbn. by rewrite lookup_insert_eq.
  - intros r path m bytes E Hp Hm. cbn [async_step]. rewrite E. unfold work, read_job. rewrite Hp. cbn [seen].
    pose proof (load_stored path m bytes [] Hm) as Hl. rewrite app_nil_r in Hl. rewrite Hl. by eexists.
Qed.
End cache.

(** * Two requests *)

Definition demo_metadata : module_info_metadata := mk_module_metadata "/bin/app" 77 [mk_symbol "main" 16 32 2 10] {[2 := "main.cpp"%string]}.

(** The file is written, while another request for it is let go; then it is read, and the disk fails once. *)
Definition demo_cache_actions : list (async_action (K := list Z) (tok := token)) :=
  [a_write 0 [7] (save_metadata demo_metadata); a_read 1 [7]; a_start; a_drop 0; a_drop 1; a_work 0 (cut_at 5); a_return 0; a_progress;
   a_start; a_read 2 [7]; a_start; a_work 2 all_well; a_progress; a_return 2;
   a_write 3 [7] (save_metadata demo_metadata); a_start; a_work 3 all_well; a_return 3; a_progress; a_read 4 [7]; a_start; a_drop 4;
   a_work 4 all_well; a_progress; a_return 4].

Definition demo_cache : async_state (K := list Z) (tok := token) (D := module_info_metadata) :=
  match fold_m (async_step load_metadata) (new_async ∅) demo_cache_actions with Ret s => s | _ => new_async ∅ end.

Example demo_cache_ready : ready demo_cache =
  [(0%nat, p_written true); (2%nat, p_read None); (3%nat, p_written true); (4%nat, p_read (Some demo_metadata))].
Proof. vm_compute. reflexivity. Qed.

Lemma demo_cache_run : fold_m (async_step load_metadata) (new_async ∅) demo_cache_actions = Ret demo_cache.
Proof. vm_compute. reflexivity. Qed.

Lemma async_files_safe_witness :
  NoDup (ready demo_cache).*1 ∧ (∀ r, is_Some (inside demo_cache !! r) → r ∈ live (queue demo_cache)) ∧
  ∀ r more s', r ∈ used demo_cache → r ∉ live (queue demo_cache) → fold_m (async_step load_metadata) demo_cache more = Ret s' →
    inside s' !! r = None ∧ ∀ p, (r, p) ∈ ready s' → (r, p) ∈ ready demo_cache.
Proof. exact (async_files_safe load_metadata ∅ demo_cache_actions demo_cache demo_cache_run). Defined.

Lemma demo_metadata_fits : metadata_fits demo_metadata.
Proof.
  split; [repeat (constructor || split); cbn; unfold in_u; lia|]. split; [|cbn; unfold in_u; lia].
  apply map_Forall_singleton. unfold in_u. lia.
Qed.

(** The module that is stored, and the order of its files. *)
Definition demo_kept (path : list Z) (m : module_info_metadata) : Prop := path = [7] ∧ m = demo_metadata.

Lemma demo_cache_writes : Forall (action_exact (cache_file demo_kept) (λ _ _, True)) demo_cache_actions.
Proof.
  assert (cache_file demo_kept [7] demo_metadata (save_metadata demo_metadata)) as H
    by (split; [done|split; [exact demo_metadata_fits|by eexists]]).
  repeat (constructor; [done || (by eexists)|]). constructor.
Qed.

Lemma cache_whole_witness : ∃ s, fold_m (async_step load_metadata) (new_async ∅) demo_cache_actions = Ret s ∧
  (∀ r m, (r, p_read (Some m)) ∈ ready s → ∃ path, a_read r path ∈ demo_cache_actions ∧ demo_kept path m) ∧
  (∀ r path bytes, inside s !! r = Some (j_write path bytes, false) → ∃ s' m,
    async_step load_metadata s (a_work r all_well) = Ret s' ∧ on_disk s' !! path = Some bytes ∧ cache_file demo_kept path m bytes) ∧
  (∀ r path m bytes, inside s !! r = Some (j_read path, false) → on_disk s !! path = Some bytes → cache_file demo_kept path m bytes →
    ∃ s', async_step load_metadata s (a_work r all_well) = Ret s' ∧ progress (queue s') = progress (queue s) ++ [(r, p_read (Some m))]).
Proof.
  apply (cache_whole demo_kept ∅ demo_cache_actions).
  - intros path bytes H. by rewrite lookup_empty in H.
  - intros r path bytes Hin. pose proof demo_cache_writes as Ha. rewrite Forall_forall in Ha. exact (Ha _ Hin).
Defined.
