(* ===== verification/Wire.v ===== *)
(** The messages between the processes as bytes (common/serialization.h, frontend/src/frontend.cpp,
    frontend/src/frontend_metadata.cpp, collector/src/collector_app.cpp).

    What the handlers of the collector take and send ([CollectorApp]) is written and read through the archive, and
    the front-end puts what it reads into its tables.  At the end both ends are put together. *)

From S2P Require Import Prelude Symbols Statistics ShadowStack Analyzer ModuleTracker Threads Jumper PatchManager CollectorApp.
From S2P Require Import Sdb Join Hierarchy CallsTable EndToEnd Derived Archive Messages Persistence.
Local Open Scope Z_scope.

(** [common/protocol.h:33-53] messages_id. The numbers of the requests. *)
Definition request_id (q : app_request) : Z :=
  match q with q_update => 0x100 | q_metadata _ => 5 | q_threads _ => 7 | q_apply _ _ => 10 | q_revert _ _ => 15 end.

(** [common/protocol.h:33-53] messages_id. The numbers of the responses. *)
Definition response_id (r : app_response (Sym := symbol_info)) : Z :=
  match r with
  | a_loaded _ => 1 | a_statistics _ => 6 | a_unloaded _ => 3 | a_metadata _ => 4 | a_threads _ => 8 | a_patched _ => 11
  | a_reverted _ => 16
  end.

(** [patcher/interface.h:31-31] patch_result::errors. As integers. *)
Definition patch_result_code (r : patch_result) : Z := match r with pr_ok => 0 | pr_error => 1 | pr_unchanged => 2 end.
Definition patch_result_of (z : Z) : result patch_result :=
  if z =? 0 then Ret pr_ok else if z =? 1 then Ret pr_error else if z =? 2 then Ret pr_unchanged else UB.

Section wire.
Context {tok : Type} `{AR : strmd tok} `{FO : file_order}.
Abbreviation A := (list tok).

(** * Requests *)

(** [common/serialization.h:125-130] serialize. Of [patch_request]. *)
Definition save_patch_request (image : Z) (functions : list Z) : A :=
  put_versioned 4 (put_u image ++ put_items (map put_u functions)).
(** [common/serialization.h:125-130] serialize. Of [patch_request], read. *)
Definition load_patch_request (a : A) : result (Z * list Z * A) :=
  get_versioned (λ _ a, '(image, a) ← get_u a; '(functions, a) ← get_vector get_u a; Ret (image, functions, a)) a.

(** An update is asked for with a number that nobody reads. *)
Definition save_request (q : app_request) : A :=
  match q with
  | q_update => put_s 0
  | q_metadata id => put_u id
  | q_threads ids => put_items (map put_u ids)
  | q_apply image functions | q_revert image functions => save_patch_request image functions
  end.

(** What the handler of a request reads. *)
Definition load_request (id : Z) (a : A) : result app_request :=
  if id =? 0x100 then Ret q_update
  else if id =? 5 then '(i, _) ← get_u a; Ret (q_metadata i)
  else if id =? 7 then '(ids, _) ← get_vector get_u a; Ret (q_threads ids)
  else if id =? 10 then '(image, functions, _) ← load_patch_request a; Ret (q_apply image functions)
  else if id =? 15 then '(image, functions, _) ← load_patch_request a; Ret (q_revert image functions)
  else Throw invalid_argument.

(** * Responses *)

(** [common/serialization.h:136-141] serialize. Of [patch_apply]. *)
Definition save_apply (p : patch_apply) : A := put_versioned 4 (put_s (patch_result_code (pa_result p)) ++ put_u (pa_id p)).
(** [common/serialization.h:136-141] serialize. Of [patch_apply], read. *)
Definition load_apply (a : A) : result (patch_apply * A) :=
  get_versioned (λ _ a, '(z, a) ← get_s a; r ← patch_result_of z; '(i, a) ← get_u a; Ret (mk_apply r i, a)) a.

(** Pairs are in containers of all these. *)
Definition save_pairs {T} (w : T → A) (l : list (Z * T)) : A := put_items (map (λ x, put_pair (put_u x.1) (w x.2)) l).
Definition load_pair {T} (rd : A → result (T * A)) (a : A) : result (Z * T * A) := '(i, a) ← get_u a; '(x, a) ← rd a; Ret (i, x, a).

(** [common/serialization.h:132-134] serialize. Of [patch_result::errors]. *)
Definition save_result (r : patch_result) : A := put_s (patch_result_code r).
(** [common/serialization.h:132-134] serialize. Of [patch_result::errors], read. *)
Definition load_result (a : A) : result (patch_result * A) := '(z, a) ← get_s a; r ← patch_result_of z; Ret (r, a).

(** What is sent; statistics are the graphs that a map of nodes gives in some order. *)
Inductive payload := p_statistics (w : list (Z * list graph)) | p_other (r : app_response (Sym := symbol_info)).

Definition payload_id (p : payload) : Z := match p with p_statistics _ => 6 | p_other r => response_id r end.

Definition save_payload (p : payload) : A :=
  match p with
  | p_statistics w => save_message w
  | p_other r =>
    match r with
    | a_loaded modules => save_pairs save_mapping modules
    | a_statistics _ => []
    | a_unloaded instances => put_items (map put_u instances)
    | a_metadata md => save_metadata md
    | a_threads infos => save_pairs save_thread infos
    | a_patched results => save_pairs save_apply results
    | a_reverted results => save_pairs save_result results
    end
  end.

(** * The tables of the front-end *)

(** [frontend/database.h:77-85] profiling_session. The tables that are read from messages, and the threads of the context of
    the serialization. *)
Record fe_tables := mk_fe {
  fe_mappings : table (Z * mapped_module_ex);
  fe_calls : calls_table;
  fe_context : list Z;
  fe_modules : table (Z * module_info_metadata);
  fe_threads : table (Z * thread_info);
  fe_patched : list (Z * patch_apply);
  fe_reverted : list (Z * patch_result)
}.

Definition empty_fe : fe_tables := mk_fe empty_table empty_calls [] empty_table empty_table [] [].

(** The record of a module that was asked for: found or made, and read over. *)
(** [frontend/src/frontend_metadata.cpp:106-110] frontend::request_metadata_nw *)
Definition load_module (pid : Z) (t : table (Z * module_info_metadata)) (a : A) : result (table (Z * module_info_metadata) * A) :=
  match List.find (λ r, r.2.1 =? pid) (records t) with
  | Some (h, old) =>
    '(x, a) ← get_versioned (λ ver, load_metadata_at ver old.2) a;
    Ret (modify h (λ _, (pid, x)) t, a)
  | None =>
    '(x, a) ← get_versioned (λ ver, load_metadata_at ver fresh_metadata) a;
    Ret ((create (pid, x) t).2, a)
  end.

(** [frontend/src/frontend.cpp:114-118] frontend::request_full_update. The callback for the modules. *)
Definition on_loaded (a : A) (s : fe_tables) : result fe_tables :=
  '(m, _) ← load_indexed load_mapping_at fresh_mapping (fe_mappings s) a;
  Ret (mk_fe m (fe_calls s) (fe_context s) (fe_modules s) (fe_threads s) (fe_patched s) (fe_reverted s)).

Definition running (x : thread_info) : thread_info :=
  mk_info (native_id x) (description x) (start_time x) (end_time x) (cpu_time x) false.

(** [frontend/src/frontend.cpp:137-143] frontend::update_threads. The record of a thread that was told of. *)
Definition mark_thread (t : table (Z * thread_info)) (id : Z) : table (Z * thread_info) :=
  match List.find (λ r, r.2.1 =? id) (records t) with
  | Some (h, (_, x)) => modify h (λ _, (id, running x)) t
  | None => (create (id, running fresh_thread) t).2
  end.

(** [frontend/src/frontend.cpp:132-151] frontend::update_threads. The table, and the threads that are asked for: they are
    left in the context of the serialization. *)
Definition ask_threads (thread_ids : list Z) (t : table (Z * thread_info)) : table (Z * thread_info) * list Z :=
  let t := foldl mark_thread t thread_ids in
  (t, (filter (λ r, complete r.2 = false) (values t)).*1).

(** [frontend/src/frontend.cpp:119-123] frontend::request_full_update. The callback for the statistics. *)
Definition on_update (fuel : nat) (a : A) (s : fe_tables) : result fe_tables :=
  '(c, ids, _) ← load_message fuel (fe_calls s) (fe_context s) a;
  let '(t, asked) := ask_threads ids (fe_threads s) in
  Ret (mk_fe (fe_mappings s) c asked (fe_modules s) t (fe_patched s) (fe_reverted s)).

(** [frontend/src/frontend_metadata.cpp:104-114] frontend::request_metadata_nw. The callback, up to those who wait. *)
Definition on_module (pid : Z) (a : A) (s : fe_tables) : result fe_tables :=
  '(m, _) ← load_module pid (fe_modules s) a;
  Ret (mk_fe (fe_mappings s) (fe_calls s) (fe_context s) m (fe_threads s) (fe_patched s) (fe_reverted s)).

(** [frontend/src/frontend.cpp:151-156] frontend::update_threads. The callback. *)
Definition on_threads (a : A) (s : fe_tables) : result fe_tables :=
  '(t, _) ← load_indexed load_thread_at fresh_thread (fe_threads s) a;
  Ret (mk_fe (fe_mappings s) (fe_calls s) (fe_context s) (fe_modules s) t (fe_patched s) (fe_reverted s)).

(** [frontend/src/frontend_patcher.cpp:80-80] apply. The buffer that the callback goes through. *)
Definition read_patched (a : A) (s : fe_tables) : result fe_tables :=
  '(l, _) ← get_vector (load_pair load_apply) a;
  Ret (mk_fe (fe_mappings s) (fe_calls s) (fe_context s) (fe_modules s) (fe_threads s) l (fe_reverted s)).

(** [frontend/src/frontend_patcher.cpp:121-121] revert. The buffer that the callback goes through. *)
Definition read_reverted (a : A) (s : fe_tables) : result fe_tables :=
  '(l, _) ← get_vector (load_pair load_result) a;
  Ret (mk_fe (fe_mappings s) (fe_calls s) (fe_context s) (fe_modules s) (fe_threads s) (fe_patched s) l).

(** The callback of a response; [pid] is the module that metadata were asked for.  Nobody waits for what was unloaded. *)
Definition load_payload (fuel : nat) (pid id : Z) (a : A) (s : fe_tables) : result fe_tables :=
  if id =? 1 then on_loaded a s else if id =? 6 then on_update fuel a s else if id =? 4 then on_module pid a s
  else if id =? 8 then on_threads a s else if id =? 11 then read_patched a s else if id =? 16 then read_reverted a s
  else Ret s.

(** What a message does to the tables. *)
Definition put_record {T} (t : table (Z * T)) (r : Z * T) : table (Z * T) :=
  match List.find (λ x, x.2.1 =? r.1) (records t) with
  | Some (h, _) => modify h (λ _, r) t
  | None => (create r t).2
  end.

Definition receive (pid : Z) (p : payload) (s : fe_tables) : result fe_tables :=
  match p with
  | p_statistics w =>
    '(c, ids) ← read_statistics w (fe_calls s) (fe_context s);
    let '(t, asked) := ask_threads ids (fe_threads s) in
    Ret (mk_fe (fe_mappings s) c asked (fe_modules s) t (fe_patched s) (fe_reverted s))
  | p_other r => Ret match r with
    | a_loaded l =>
      mk_fe (foldl put_record (fe_mappings s) l) (fe_calls s) (fe_context s) (fe_modules s) (fe_threads s) (fe_patched s) (fe_reverted s)
    | a_metadata md =>
      mk_fe (fe_mappings s) (fe_calls s) (fe_context s) (put_record (fe_modules s) (pid, md)) (fe_threads s) (fe_patched s) (fe_reverted s)
    | a_threads l =>
      mk_fe (fe_mappings s) (fe_calls s) (fe_context s) (fe_modules s) (foldl put_record (fe_threads s) l) (fe_patched s) (fe_reverted s)
    | a_patched l => mk_fe (fe_mappings s) (fe_calls s) (fe_context s) (fe_modules s) (fe_threads s) l (fe_reverted s)
    | a_reverted l => mk_fe (fe_mappings s) (fe_calls s) (fe_context s) (fe_modules s) (fe_threads s) (fe_patched s) l
    | a_unloaded _ | a_statistics _ => s
    end
  end.

(** * Reading what was written *)

Context {LAWS : strmd_laws tok}.

Definition request_fits (q : app_request) : Prop :=
  match q with
  | q_update => True
  | q_metadata i => in_u 32 i
  | q_threads ids => Forall (in_u 32) ids
  | q_apply i l | q_revert i l => in_u 32 i ∧ Forall (in_u 32) l
  end.

Lemma u32_read z rest : in_u 32 z → get_u (put_u z ++ rest) = Ret (z, rest).
Proof using LAWS. intros Hz. apply u_roundtrip. unfold in_u in *. lia. Qed.

Lemma u32s_read l rest : Forall (in_u 32) l → get_vector get_u (put_items (map put_u l) ++ rest) = Ret (l, rest).
Proof using LAWS. intros Hl. rewrite Forall_forall in Hl. apply vector_roundtrip. intros x r Hx. apply u32_read; auto. Qed.

Lemma patch_request_read i l rest : in_u 32 i → Forall (in_u 32) l → load_patch_request (save_patch_request i l ++ rest) = Ret (i, l, rest).
Proof using LAWS.
  intros Hi Hl. apply versioned_roundtrip. intros r. by rewrite <- app_assoc, u32_read; [cbn [mbind result_bind]; rewrite u32s_read|].
Qed.

(** The handler of a request is given what was asked. *)
Theorem request_roundtrip q rest : request_fits q → load_request (request_id q) (save_request q ++ rest) = Ret q.
Proof using LAWS.
  destruct q as [|i|ids|i l|i l]; cbn [request_fits request_id save_request]; unfold load_request; cbn [Z.eqb Pos.eqb].
  - done.
  - intros Hi. by rewrite u32_read.
  - intros Hl. by rewrite u32s_read.
  - intros [Hi Hl]. by rewrite patch_request_read.
  - intros [Hi Hl]. by rewrite patch_request_read.
Qed.

(** Records that are read over others, when every field is read. *)
Lemma over_read {T : Type} (rd : Z → T → A → result (T * A)) (fresh : T) v (body : Z → T → A) (l : list (Z * T)) t rest :
  (∀ r old rest, r ∈ l → in_u 32 r.1 ∧ rd v old (body v r.2 ++ rest) = Ret (r.2, rest)) →
  load_indexed rd fresh t (put_items (map (item_file v body) l) ++ rest) = Ret (foldl put_record t l, rest).
Proof using LAWS.
  intros Hl. unfold load_indexed. apply items_roundtrip. apply reads_items_fold. intros s r rest' Hr.
  destruct (Hl r fresh rest' Hr) as [Hi _]. unfold item_file, put_record.
  rewrite pair_parts, <- app_assoc, u32_read by done. cbn [mbind result_bind].
  destruct (List.find _ (records s)) as [[h old]|];
    rewrite (versioned_roundtrip _ v (body v r.2) r.2) by (intros; by apply Hl); by destruct r.
Qed.

Lemma mapping_over old d rest : mapping_fits d → load_mapping_at 6 old (mapping_body 6 d ++ rest) = Ret (d, rest).
Proof using LAWS. intros (Hp & Hb & Hh). unfold load_mapping_at, mapping_body. destruct d. cbn in *. read_all. done. Qed.

Lemma thread_over old d rest : thread_fits d → load_thread_at 4 old (thread_body 4 d ++ rest) = Ret (d, rest).
Proof using LAWS. exact (thread_read 4 d rest). Qed.

Lemma metadata_over old d rest : metadata_fits d → load_metadata_at 6 old (metadata_body 6 d ++ rest) = Ret (d, rest).
Proof using LAWS.
  intros Hd. pose proof (metadata_read 6 d rest Hd) as H. destruct d. exact H.
Qed.

(** What fits the types; the fuel is that of the graphs. *)
Definition payload_fits (fuel : nat) (p : payload) : Prop :=
  match p with
  | p_statistics w => message_fits fuel w
  | p_other r =>
    match r with
    | a_loaded l => Forall (λ x, in_u 32 x.1 ∧ mapping_fits x.2) l
    | a_statistics _ => False
    | a_unloaded _ => True
    | a_metadata md => metadata_fits md
    | a_threads l => Forall (λ x, in_u 32 x.1 ∧ thread_fits x.2) l
    | a_patched l => Forall (λ x, in_u 32 x.1 ∧ in_u 32 (pa_id x.2)) l
    | a_reverted l => Forall (λ x, in_u 32 x.1) l
    end
  end.

Lemma code_of_result r : patch_result_of (patch_result_code r) = Ret r ∧ in_s 64 (patch_result_code r).
Proof using Type. by destruct r. Qed.

Lemma pairs_read {T : Type} (rd : A → result (T * A)) (w : T → A) (l : list (Z * T)) rest :
  (∀ x rest, x ∈ l → in_u 32 x.1 ∧ rd (w x.2 ++ rest) = Ret (x.2, rest)) → get_vector (load_pair rd) (save_pairs w l ++ rest) = Ret (l, rest).
Proof using LAWS.
  intros Hl. apply (vector_roundtrip _ (λ x, put_pair (put_u x.1) (w x.2))). intros x rest' Hx. destruct (Hl x rest' Hx) as [Hi Hw].
  unfold load_pair. rewrite pair_parts, <- app_assoc, u32_read by done. cbn [mbind result_bind]. rewrite Hw. by destruct x.
Qed.

Lemma apply_read p rest : in_u 32 (pa_id p) → load_apply (save_apply p ++ rest) = Ret (p, rest).
Proof using LAWS.
  intros Hi. destruct (code_of_result (pa_result p)) as [Hr Hs]. apply versioned_roundtrip. intros r.
  rewrite <- app_assoc, s_roundtrip by done. cbn [mbind result_bind]. rewrite Hr. cbn [mbind result_bind]. rewrite u32_read by done.
  by destruct p.
Qed.

Lemma result_read r rest : load_result (save_result r ++ rest) = Ret (r, rest).
Proof using LAWS.
  destruct (code_of_result r) as [Hr Hs]. unfold load_result, save_result. rewrite s_roundtrip by done. cbn [mbind result_bind].
  by rewrite Hr.
Qed.

(** A message does to the tables, from its bytes, what it says. *)
Theorem payload_roundtrip fuel pid p s s' rest : payload_fits fuel p → receive pid p s = Ret s' →
  load_payload fuel pid (payload_id p) (save_payload p ++ rest) s = Ret s'.
Proof using LAWS.
  intros Hf. destruct p as [w|[l|nodes|l|md|l|l|l]]; cbn [payload_fits receive payload_id response_id save_payload] in *;
    unfold load_payload; cbn [Z.eqb Pos.eqb]; try done; try rewrite Forall_forall in Hf.
  - destruct (read_statistics w (fe_calls s) (fe_context s)) as [[c ids]| |] eqn:E; [|by intros [=]..]. cbn [mbind result_bind].
    intros Hr. unfold on_update. rewrite (message_roundtrip fuel w _ _ c ids rest Hf E). exact Hr.
  - intros <-%Ret_inj. unfold on_loaded. change (save_pairs save_mapping l) with (put_items (map (item_file 6 mapping_body) l)).
    rewrite over_read; [done|]. intros r old rest' Hr. destruct (Hf r Hr). split; [done|by apply mapping_over].
  - intros <-%Ret_inj. unfold on_module, load_module, put_record. change (save_metadata md) with (put_versioned 6 (metadata_body 6 md)).
    destruct (List.find _ (records (fe_modules s))) as [[h old]|];
      by rewrite (versioned_roundtrip _ 6 (metadata_body 6 md) md) by (intros; by apply metadata_over).
  - intros <-%Ret_inj. unfold on_threads. change (save_pairs save_thread l) with (put_items (map (item_file 4 thread_body) l)).
    rewrite over_read; [done|]. intros r old rest' Hr. destruct (Hf r Hr). split; [done|by apply thread_over].
  - intros <-%Ret_inj. unfold read_patched. rewrite pairs_read; [done|]. intros x rest' Hx. destruct (Hf x Hx).
    split; [done|by apply apply_read].
  - intros <-%Ret_inj. unfold read_reverted. rewrite pairs_read; [done|]. intros x rest' Hx. split; [by apply Hf|apply result_read].
Qed.
End wire.

(** * From the process to the tables *)

(** The record of an identifier. *)
Definition record_of {T} (i : Z) (t : table (Z * T)) : option T := snd ∘ snd <$> List.find (λ x, x.2.1 =? i) (records t).

Lemma find_modified {T} (r : Z * T) h old (rs : list (nat * (Z * T))) i : NoDup rs.*1 →
  List.find (λ x, x.2.1 =? r.1) rs = Some (h, old) →
  snd ∘ snd <$> List.find (λ x, x.2.1 =? i) (map (λ '(h', v), (h', if decide (h' = h) then r else v)) rs) =
  if i =? r.1 then Some r.2 else snd ∘ snd <$> List.find (λ x, x.2.1 =? i) rs.
Proof.
  induction rs as [|[g v] rs IH]; [done|]. intros [Hg Hnd]%NoDup_cons. cbn [List.find map snd fst].
  destruct (Z.eqb_spec v.1 r.1) as [E|E].
  - intros [= -> ->]. rewrite decide_True by done. assert (map (λ '(h', v0), (h', if decide (h' = h) then r else v0)) rs = rs) as ->.
    { rewrite <- (map_id rs) at 2. apply map_ext_in. intros [g w] Hin%list_elem_of_In. rewrite decide_False; [done|]. intros ->.
      apply Hg. by apply (list_elem_of_fmap_2 fst _ (h, w)). }
    rewrite E, (Z.eqb_sym r.1 i). by destruct (i =? r.1).
  - intros Hf. assert (g ≠ h) as Hne.
    { intros ->. apply Hg. apply List.find_some in Hf as [Hin _]. by apply (list_elem_of_fmap_2 fst _ (h, old)), list_elem_of_In. }
    rewrite decide_False by done. specialize (IH Hnd Hf). destruct (Z.eqb_spec v.1 i) as [<-|]; [|done].
    by destruct (Z.eqb_spec v.1 r.1).
Qed.

Lemma find_behind {T} (r : Z * T) h (rs : list (nat * (Z * T))) i : List.find (λ x, x.2.1 =? r.1) rs = None →
  snd ∘ snd <$> List.find (λ x, x.2.1 =? i) (rs ++ [(h, r)]) = if i =? r.1 then Some r.2 else snd ∘ snd <$> List.find (λ x, x.2.1 =? i) rs.
Proof.
  induction rs as [|[g v] rs IH]; cbn [List.find Datatypes.app snd fst]; [intros _; rewrite (Z.eqb_sym r.1 i); by destruct (i =? r.1)|].
  destruct (Z.eqb_spec v.1 r.1) as [|E]; [done|]. intros Hf. destruct (Z.eqb_spec v.1 i) as [<-|]; [|by apply IH].
  by destruct (Z.eqb_spec v.1 r.1).
Qed.

Lemma put_record_ok {T} (t : table (Z * T)) r : table_ok t →
  table_ok (put_record t r) ∧ ∀ i, record_of i (put_record t r) = if i =? r.1 then Some r.2 else record_of i t.
Proof.
  intros Ht. unfold put_record. destruct (List.find _ (records t)) as [[h old]|] eqn:E.
  - split; [by apply modify_ok|]. intros i. by apply (find_modified r h old _ i (proj1 Ht)).
  - split; [by apply create_ok|]. intros i. by apply find_behind.
Qed.

Lemma put_records_ok {T} (l : list (Z * T)) : ∀ t (k : gmap Z T), table_ok t → (∀ i, record_of i t = k !! i) →
  table_ok (foldl put_record t l) ∧ ∀ i, record_of i (foldl put_record t l) = foldl (λ k x, <[x.1 := x.2]> k) k l !! i.
Proof.
  induction l as [|r l IH]; intros t k Ht Hk; [done|]. cbn [foldl]. destruct (put_record_ok t r Ht) as [Ht' Hr].
  apply IH; [done|]. intros i. rewrite Hr. destruct (Z.eqb_spec i r.1) as [->|Hne]; [by rewrite lookup_insert_eq|].
  by rewrite lookup_insert_ne.
Qed.

Definition responses (ms : list (app_message (Sym := symbol_info))) : list (app_response (Sym := symbol_info)) :=
  omap (λ m, match m with m_response r => Some r | _ => None end) ms.

(** What is written for a response. *)
Definition carried (r : app_response (Sym := symbol_info)) (p : payload) : Prop :=
  match r, p with
  | a_statistics nodes, p_statistics w => carries w nodes
  | a_statistics _, _ | _, p_statistics _ => False
  | r, p_other r' => r' = r
  end.

(** What the payloads have: call graphs, and mappings. *)
Definition graphs_in (xs : list (Z * payload)) : list (list (Z * list graph)) :=
  omap (λ x, match x.2 with p_statistics w => Some w | _ => None end) xs.
Definition loaded_in (xs : list (Z * payload)) : list (Z * mapped_module_ex) :=
  xs ≫= λ x, match x.2 with p_other (a_loaded l) => l | _ => [] end.

(** The table of calls does not depend on the threads of the context; those of a message are all in it. *)
Lemma read_threads_context w : ∀ s th f s' ids f', fold_m read_thread (s, th, f) w = Ret (s', ids, f') →
  ids = match w with [] => th | _ => (if f then [] else th) ++ w.*1 end ∧
  ∀ th', ∃ ids', fold_m read_thread (s, th', f) w = Ret (s', ids', f').
Proof.
  induction w as [|item w IH]; intros s th f s' ids f'; [intros [= -> -> ->]; split; [done|]; intros th'; by exists th'|].
  cbn [fold_m read_thread]. destruct (fold_m _ s item.2) as [s1| |]; [|by intros [=]..]. cbn [mbind result_bind]. intros Hr.
  destruct (IH _ _ _ _ _ _ Hr) as [-> Hany]. split; [|intros th'; apply Hany].
  destruct w as [|item' w]; [done|]. by rewrite fmap_cons, <- app_assoc.
Qed.

Lemma statistics_context w s th s' ids : read_statistics w s th = Ret (s', ids) →
  w.*1 ⊆ ids ∧ ∀ th', ∃ ids', read_statistics w s th' = Ret (s', ids').
Proof.
  unfold read_statistics. destruct (fold_m read_thread _ w) as [[[s1 ids1] f1]| |] eqn:E; [|by intros [=]..].
  cbn [mbind result_bind]. intros [= <- <-]. destruct (read_threads_context w _ _ _ _ _ _ E) as [-> Hany]. split; [destruct w; [by intros ? ?%elem_of_nil|done]|].
  intros th'. destruct (Hany th') as [ids' ->]. by exists ids'.
Qed.

(** Threads that were told of stay in their table. *)
Definition thread_known (tid : Z) (t : table (Z * thread_info)) : Prop := is_Some (record_of tid t).

Lemma put_known {T} (t : table (Z * T)) r tid : table_ok t →
  table_ok (put_record t r) ∧ (tid = r.1 ∨ is_Some (record_of tid t) → is_Some (record_of tid (put_record t r))).
Proof.
  intros Ht. destruct (put_record_ok t r Ht) as [Ht' Hr]. split; [done|]. rewrite Hr.
  destruct (Z.eqb_spec tid r.1); [intros _; by eexists|by intros [?|?]].
Qed.

Lemma puts_known {T} (l : list (Z * T)) tid : ∀ t, table_ok t →
  table_ok (foldl put_record t l) ∧ (is_Some (record_of tid t) → is_Some (record_of tid (foldl put_record t l))).
Proof.
  induction l as [|r l IH]; intros t Ht; [done|]. cbn [foldl]. destruct (put_known t r tid Ht) as [Ht' Hk].
  destruct (IH _ Ht') as [H1 H2]. split; [done|]. auto.
Qed.

Lemma mark_thread_put t id : ∃ x, mark_thread t id = put_record t (id, x).
Proof.
  unfold mark_thread, put_record. cbn [fst]. destruct (List.find _ (records t)) as [[h [i x]]|]; by eexists.
Qed.

Lemma marks_known ids tid : ∀ t, table_ok t → table_ok (foldl mark_thread t ids) ∧
  (tid ∈ ids ∨ thread_known tid t → thread_known tid (foldl mark_thread t ids)).
Proof.
  induction ids as [|id ids IH]; intros t Ht; [split; [done|]; intros [?%elem_of_nil|]; done|]. cbn [foldl].
  destruct (mark_thread_put t id) as [x E]. destruct (put_known t (id, x) tid Ht) as [Ht' Hk]. rewrite <- E in *.
  destruct (IH _ Ht') as [H1 H2]. split; [done|]. intros [[->|Hin]%elem_of_cons|Hin]; apply H2;
    [right; apply Hk; by left|by left|right; apply Hk; by right].
Qed.

Lemma receive_threads tid pid p s s' : receive pid p s = Ret s' → table_ok (fe_threads s) → table_ok (fe_threads s') ∧
  (thread_known tid (fe_threads s) ∨ (∃ w, p = p_statistics w ∧ tid ∈ w.*1) → thread_known tid (fe_threads s')).
Proof.
  intros Hr Ht. destruct p as [w|r]; cbn [receive] in Hr.
  - destruct (read_statistics w _ _) as [[c ids]| |] eqn:E; [|done..]. apply Ret_inj in Hr as <-. cbn [fe_threads ask_threads].
    destruct (statistics_context _ _ _ _ _ E) as [Hsub _]. destruct (marks_known ids tid _ Ht) as [H1 H2]. split; [done|].
    intros [?|(w' & [= <-] & Hin)]; apply H2; [by right|left; by apply Hsub].
  - apply Ret_inj in Hr as <-. destruct r as [| | | |l| |]; cbn [fe_threads]; (split; [|intros [Hk|(w & ? & _)]; [|done]]); try done.
    + by apply puts_known.
    + by apply (puts_known l tid _ Ht).
Qed.

Lemma receive_all_threads tid xs : ∀ s s', fold_m (λ s x, receive x.1 x.2 s) s xs = Ret s' → table_ok (fe_threads s) →
  thread_known tid (fe_threads s) ∨ (∃ w, w ∈ graphs_in xs ∧ tid ∈ w.*1) → thread_known tid (fe_threads s').
Proof.
  induction xs as [|[pid p] xs IH]; intros s s'; [intros [= <-] _ [|(w & ?%elem_of_nil & _)]; done|]. cbn [fold_m fst snd].
  destruct (receive pid p s) as [s1| |] eqn:E; [|by intros [=]..]. cbn [mbind result_bind]. intros Hr Ht Hk.
  destruct (receive_threads tid _ _ _ _ E Ht) as [Ht1 Hk1]. apply (IH s1 s' Hr Ht1). destruct Hk as [|(w & Hw & Hin)]; [by left; auto|].
  unfold graphs_in in *. destruct p as [w'|r]; cbn [omap list_omap snd] in Hw; [|by right; exists w].
  apply elem_of_cons in Hw as [->|]; [|by right; exists w]. left. apply Hk1. right. by exists w'.
Qed.

(** Reading goes well when reading the graphs does. *)
Lemma receive_all_ok xs : Forall (λ x, ∀ nodes, x.2 ≠ p_other (a_statistics nodes)) xs → ∀ s th c ids,
  read_messages (graphs_in xs) (fe_calls s) th = Ret (c, ids) →
  ∃ s', fold_m (λ s x, receive x.1 x.2 s) s xs = Ret s' ∧ fe_calls s' = c ∧ fe_mappings s' = foldl put_record (fe_mappings s) (loaded_in xs).
Proof.
  induction 1 as [|[pid p] xs Hx _ IH]; intros s th c ids; [intros [= <- _]; by exists s|]. cbn [fold_m fst snd]. destruct p as [w|r].
  - unfold graphs_in. cbn [omap list_omap snd]. unfold read_messages. cbn [fold_m fst snd receive].
    destruct (read_statistics w (fe_calls s) th) as [[c1 ids1]| |] eqn:E; [|by intros [=]..]. cbn [mbind result_bind]. intros Hr.
    destruct (proj2 (statistics_context _ _ _ _ _ E) (fe_context s)) as [ids2 ->]. cbn [mbind result_bind ask_threads].
    set (s1 := mk_fe _ _ _ _ _ _ _). exact (IH s1 ids1 c ids Hr).
  - intros Hr. cbn [receive mbind result_bind]. destruct r as [l| | | | | |]; set (s1 := mk_fe _ _ _ _ _ _ _) || set (s1 := s);
      destruct (IH s1 th c ids Hr) as (s' & H1 & H2 & H3); exists s'; (split; [done|]); (split; [done|]); try done.
    cbn [loaded_in mbind list_bind snd] in *. by rewrite foldl_app.
Qed.

Lemma load_all_ok {tok} `{AR : strmd tok} {LAWS : strmd_laws tok} `{FO : file_order} fuel xs : Forall (λ x, payload_fits fuel x.2) xs → ∀ s s',
  fold_m (λ s x, receive x.1 x.2 s) s xs = Ret s' →
  fold_m (λ s x, load_payload fuel x.1 (payload_id x.2) (save_payload x.2) s) s xs = Ret s'.
Proof.
  induction 1 as [|x xs Hx _ IH]; intros s s'; [done|]. cbn [fold_m].
  destruct (receive x.1 x.2 s) as [s1| |] eqn:E; [|by intros [=]..]. cbn [mbind result_bind]. intros Hr.
  pose proof (payload_roundtrip fuel x.1 x.2 s s1 [] Hx E) as H1. rewrite app_nil_r in H1. rewrite H1. by apply IH.
Qed.

Lemma carried_parts rs xs : Forall2 (λ r x, carried r x.2) rs xs →
  Forall2 carries (graphs_in xs) (omap (λ r, match r with a_statistics nodes => Some nodes | _ => None end) rs) ∧
  loaded_in xs = (rs ≫= λ r, match r with a_loaded l => l | _ => [] end) ∧
  Forall (λ x, ∀ nodes, x.2 ≠ p_other (a_statistics nodes)) xs.
Proof.
  induction 1 as [|r [pid p] rs xs Hr _ (H1 & H2 & H3)]; [split; [constructor|by split]|].
  cbn [snd] in Hr. unfold graphs_in, loaded_in in *. cbn [omap list_omap mbind list_bind snd]. rewrite H2.
  destruct r, p; cbn in Hr; try done; subst; (split; [|split; [done|constructor; [done|exact H3]]]); try exact H1.
  by constructor.
Qed.

(** What is followed was told. *)
Lemma follow_told ms : ∀ k k' : gmap Z mapped_module_ex, k ⊆ k' →
  foldl follow k ms ⊆ foldl (λ k x, <[x.1 := x.2]> k) k' (responses ms ≫= λ r, match r with a_loaded l => l | _ => [] end).
Proof.
  assert (∀ (l : list (Z * mapped_module_ex)) (k k' : gmap Z mapped_module_ex), k ⊆ k' →
    foldl (λ k x, <[x.1 := x.2]> k) k l ⊆ foldl (λ k x, <[x.1 := x.2]> k) k' l) as Hins.
  { induction l as [|x l IH]; intros k k' Hk; [done|]. by apply IH, insert_mono. }
  assert (∀ l (k : gmap Z mapped_module_ex), foldl (λ k i, delete i k) k l ⊆ k) as Hdel.
  { induction l as [|i l IH]; intros k; [done|]. cbn [foldl]. etransitivity; [apply IH|apply delete_subseteq]. }
  induction ms as [|m ms IH]; intros k k' Hk; [done|]. unfold responses. cbn [foldl omap list_omap].
  destruct m as [|[l|nodes|l|md|l|l|l]|]; cbn [follow mbind list_bind]; rewrite ?foldl_app; apply IH; try done; [by apply Hins|].
  etransitivity; [apply Hdel|done].
Qed.

Section both_ends.
Context {tok : Type} `{AR : strmd tok} {LAWS : strmd_laws tok} `{FO : file_order}.
Context (junk : stack_record).
Context {F : Type} `{HCF : Countable F} (file_id : string → F) (file : string → list Z).
Context (accessor : Z → thread_info → thread_info).
Context {W P : Type} {po : patch_ops W P}.
Context (load_image_info : string → result (list symbol_info * list (Z * string))).

Abbreviation run := (serve_task (F := F) junk file_id file accessor load_image_info).

(** What the tables are when the graphs and the mappings that were sent are read, with whatever else. *)
Lemma mirrored o a tasks s xs t :
  analysis a = new_analyzer o → tracker a = new_tracker → enumerated tasks < 2 ^ 32 - 2 → fold_m run (start a) tasks = Ret s →
  Forall2 carries (graphs_in xs) (statistics_sent (sent s)) → messages_size (graphs_in xs) < 2 ^ 32 - 1 →
  loaded_in xs = (responses (sent s) ≫= λ r, match r with a_loaded l => l | _ => [] end) →
  Forall (λ x, ∀ nodes, x.2 ≠ p_other (a_statistics nodes)) xs → fold_m (λ t x, receive x.1 x.2 t) empty_fe xs = Ret t →
  (∀ id i m, mapped (tracker (app_ s)) id (i, m) → record_of i (fe_mappings t) = Some m) ∧
  (∀ nodes tid, nodes ∈ statistics_sent (sent s) → is_Some (nodes !! tid) → thread_known tid (fe_threads t)) ∧
  ∀ tid, ∃ shown ss,
    (∀ p x, stats_at (find_call (fe_calls t)) tid p x = shown !! (p ++ [x])) ∧
    update (shadow_stack_new o junk) (batches (thread_ops tid true tasks)) ∅ =
      Ret (ss, merge_nodes shown (statistics (thread_of junk tid (analysis (app_ s))))).
Proof using Type.
  intros Ha Ht Hroom Hrun Hws Hsize Hl Hp Hrec.
  destruct (table_of_calls junk file_id file accessor load_image_info o a tasks s (graphs_in xs) Ha Hrun Hws Hsize) as (c & ids & Hr & Hc).
  destruct (receive_all_ok xs Hp empty_fe [] c ids Hr) as (t' & Hrec' & Hcalls & Hmap).
  rewrite Hrec in Hrec'. apply Ret_inj in Hrec' as <-. rewrite Hcalls. split; [|split; [|done]]; last first.
  { intros nodes tid [k Hk]%list_elem_of_lookup Hn. destruct (Forall2_lookup_r _ _ _ _ _ Hws Hk) as (w & Hwk & [_ Hall _]).
    apply (receive_all_threads tid xs _ t Hrec); [exact (clear_ok empty_table)|]. right. exists w.
    split; [by apply list_elem_of_lookup_2 in Hwk|by apply Hall]. }
  intros id i m Hm.
  destruct (put_records_ok (loaded_in xs) empty_table ∅) as [_ Hrow]; [exact (clear_ok empty_table)|done|].
  rewrite Hmap. change (fe_mappings empty_fe) with (@empty_table (Z * mapped_module_ex)). rewrite Hrow, Hl.
  destruct (modules_run junk file_id file accessor load_image_info tasks (start a) s) as [_ Hf _ _]; [by apply start_modules_ok|done|].
  pose proof (follow_told (sent s) ∅ ∅ ltac:(done)) as Htold. rewrite map_subseteq_spec in Htold. apply Htold, Hf. by exists id.
Qed.

(** From the process to the tables of the front-end, through the bytes that are sent: whatever it profiles, is asked for and
    answers, a front-end that reads the answers in their order never fails while identifiers last and values are in
    range; every module that the process is known to have is in its table of mappings, with its path, its base and
    its hash; every thread that statistics were sent of is in its table of threads; and the calls of every thread,
    along every path, are in its table of calls with the statistics that analyzing all of them at once gives, less
    what is not sent yet. *)
Theorem tables_mirror fuel o a tasks s xs :
  analysis a = new_analyzer o → tracker a = new_tracker → enumerated tasks < 2 ^ 32 - 2 → fold_m run (start a) tasks = Ret s →
  Forall2 (λ r x, carried r x.2) (responses (sent s)) xs → Forall (λ x, payload_fits fuel x.2) xs →
  messages_size (graphs_in xs) < 2 ^ 32 - 1 → ∃ t,
    fold_m (λ t x, load_payload fuel x.1 (payload_id x.2) (save_payload x.2) t) empty_fe xs = Ret t ∧
    (∀ id i m, mapped (tracker (app_ s)) id (i, m) → record_of i (fe_mappings t) = Some m) ∧
    (∀ nodes tid, nodes ∈ statistics_sent (sent s) → is_Some (nodes !! tid) → thread_known tid (fe_threads t)) ∧
    ∀ tid, ∃ shown ss,
      (∀ p x, stats_at (find_call (fe_calls t)) tid p x = shown !! (p ++ [x])) ∧
      update (shadow_stack_new o junk) (batches (thread_ops tid true tasks)) ∅ =
        Ret (ss, merge_nodes shown (statistics (thread_of junk tid (analysis (app_ s))))).
Proof using All.
  intros Ha Ht Hroom Hrun Hxs Hfit Hsize. destruct (carried_parts _ _ Hxs) as (Hw & Hl & Hp).
  assert (Forall2 carries (graphs_in xs) (statistics_sent (sent s))) as Hws.
  { assert (statistics_sent (sent s) = omap (λ r, match r with a_statistics nodes => Some nodes | _ => None end) (responses (sent s))) as ->;
      [|done]. unfold statistics_sent, responses. clear. induction (sent s) as [|[|[]|] ms IH]; cbn; f_equal; done. }
  destruct (table_of_calls junk file_id file accessor load_image_info o a tasks s (graphs_in xs) Ha Hrun Hws Hsize) as (c & ids & Hr & _).
  destruct (receive_all_ok xs Hp empty_fe [] c ids Hr) as (t & Hrec & _). exists t.
  split; [by apply load_all_ok|]. by apply (mirrored o a tasks s xs).
Qed.
End both_ends.

(** What the collector can write of its responses. *)
Definition written (pid : Z) (r : app_response (Sym := symbol_info)) : Z * payload :=
  (pid, match r with a_statistics nodes => p_statistics (write_statistics nodes) | r => p_other r end).

Lemma written_carried pid ms : Forall nodes_ok (statistics_sent ms) →
  Forall2 (λ r x, carried r x.2) (responses ms) (map (written pid) (responses ms)).
Proof.
  induction ms as [|m ms IH]; [constructor|]. intros Hn. destruct m as [|r|]; [by apply IH| |by apply IH].
  destruct r; cbn in *; try (constructor; [done|by apply IH]).
  apply Forall_cons in Hn as [Hn0 Hn]. constructor; [by apply write_carries|by apply IH].
Qed.

(** * A session over the wire *)

Definition demo_symbols (path : string) : result (list symbol_info * list (Z * string)) :=
  Ret ([mk_symbol "f" 0 16 7 1; mk_symbol "g" 16 16 7 5], [(7, "a.cpp"); (7, "b.cpp")]%string).

Abbreviation demo_wire_run :=
  (serve_task (po := demo_function_patches) demo_junk (λ p : string, p) demo_file demo_accessor demo_symbols).

Definition demo_wire_end : app_server :=
  match fold_m demo_wire_run (start demo_app) (concat demo_batches) with Ret s => s | _ => start demo_app end.

Lemma demo_wire_run_eq : fold_m demo_wire_run (start demo_app) (concat demo_batches) = Ret demo_wire_end.
Proof.
  assert (returns (fold_m demo_wire_run (start demo_app) (concat demo_batches))) as Hr by (vm_compute; exact I).
  unfold demo_wire_end. by destruct (fold_m _ _ _).
Qed.

Definition demo_payloads : list (Z * payload) := map (written 2) (responses (sent demo_wire_end)).

Lemma demo_payloads_carried : Forall2 (λ r x, carried r x.2) (responses (sent demo_wire_end)) demo_payloads.
Proof.
  apply written_carried. eapply proj2, (sent_server_ok demo_junk _ _ _ _ _ demo_app); [|exact demo_wire_run_eq]. reflexivity.
Qed.

Lemma demo_payloads_fit : Forall (λ x, payload_fits 2 x.2) demo_payloads.
Proof.
  match goal with |- Forall _ ?l => let x := eval vm_compute in l in change l with x end.
  repeat (apply Forall_cons; split); try apply Forall_nil_2; cbn [payload_fits snd].
  all: unfold metadata_fits, message_fits; repeat (constructor || split); cbn; unfold in_u, in_s; try lia.
  all: match goal with H : _ !! _ = Some _ |- _ => apply elem_of_map_to_list in H; revert H end.
  all: match goal with |- _ ∈ ?l → _ => let x := eval vm_compute in l in change l with x end.
  all: intros [= -> _]%list_elem_of_singleton; lia.
Qed.

Definition demo_mirror : Prop := ∃ t,
  fold_m (λ t x, load_payload 2 x.1 (payload_id x.2) (save_payload (tok := token) x.2) t) empty_fe demo_payloads = Ret t ∧
  (∀ id i m, mapped (tracker (app_ demo_wire_end)) id (i, m) → record_of i (fe_mappings t) = Some m) ∧
  (∀ nodes tid, nodes ∈ statistics_sent (sent demo_wire_end) → is_Some (nodes !! tid) → thread_known tid (fe_threads t)) ∧
  ∀ tid, ∃ shown ss,
    (∀ p x, stats_at (find_call (fe_calls t)) tid p x = shown !! (p ++ [x])) ∧
    update (shadow_stack_new (mk_overhead 1 2) demo_junk) (batches (thread_ops tid true (concat demo_batches))) ∅ =
      Ret (ss, merge_nodes shown (statistics (thread_of demo_junk tid (analysis (app_ demo_wire_end))))).

Lemma tables_mirror_witness : demo_mirror.
Proof.
  apply (tables_mirror (tok := token) (po := demo_function_patches) demo_junk (λ p : string, p) demo_file demo_accessor demo_symbols
    2 (mk_overhead 1 2) demo_app (concat demo_batches) demo_wire_end demo_payloads);
    [reflexivity|reflexivity|vm_compute; reflexivity|exact demo_wire_run_eq|exact demo_payloads_carried|exact demo_payloads_fit|
     vm_compute; reflexivity].
Defined.

(** The rows of the tables: the modules with the one that is not mapped any more, the calls, the threads that were told of. *)
Example demo_mirror_tables :
  match fold_m (λ t x, load_payload 2 x.1 (payload_id x.2) (save_payload (tok := token) x.2) t) empty_fe demo_payloads with
  | Ret t => (map (λ r, (r.1, path_ r.2)) (values (fe_mappings t)), (values (fe_modules t)).*1,
      map (λ c, (thread_id c, address c, times_called (call_stats c))) (values (calls (fe_calls t))), (values (fe_threads t)).*1)
  | _ => ([], [], [], [])
  end = ([(0, "a.so"); (1, "b.so")]%string, [2], [(2, 9, 0); (1, 7, 0); (1, 8, 1)], [2; 1]).
Proof. vm_compute. reflexivity. Qed.
