(* ===== verification/Exchange.v ===== *)
(** Both processes at work: the session of the front-end, the session of the collector and what is under way between
    them (frontend/src/frontend.cpp, collector/src/collector_app.cpp, over ipc/client_session.h, ipc/server_session.h).

    The messages are bytes; a connection hands them over whole and in order, as those of [Channels] do.  What the
    front-end asks, when the collector serves and when the front-end is told are events in any order. *)

From S2P Require Import Prelude Symbols Statistics ShadowStack Analyzer ModuleTracker Threads Jumper PatchManager CollectorApp.
From S2P Require Import Sdb Join Hierarchy CallsTable EndToEnd Derived Archive Messages Persistence Sessions Wire.
Local Open Scope Z_scope.

(** What the callbacks of the front-end are; a number is the token of the request whose handle it lets go. *)
Inductive reader := r_init | r_init_v1 | r_exiting | r_loaded | r_update (final : bool) | r_module (pid : Z) | r_threads (tok : Z)
  | r_patched (tok : Z) | r_reverted (tok : Z).

(** What was sent, for the statements: the messages that nobody asks for, and the responses under their tokens. *)
Inductive told_message := o_init | o_response (tok : Z) (r : app_response (Sym := symbol_info)) (p : payload) | o_exiting.

Section exchange.
Context `{AR : strmd Z} {LAWS : strmd_laws Z} `{FO : file_order}.
Abbreviation A := (list Z).

(** The sessions write with the same archive. *)
#[local, refine] Instance session_archive : archive := {|
  put_id := put_s; get_id := get_s; put_token := put_u; get_token := get_u |}.
Proof using LAWS.
  - intros i rest Hi. apply s_roundtrip. unfold in_s in *. lia.
  - intros t rest Ht. by apply u_roundtrip.
Defined.

Abbreviation client_session := (Sessions.client_session (C := reader)).
Abbreviation server_session := (Sessions.server_session (H := Z) (K := Empty_set)).

(** * The front-end *)

(** [asks_] are the requests that were made, with their tokens, for the statements. *)
(** [frontend/frontend.h:81-91] frontend. [update_slot] is what the handle of the update keeps. *)
Record front := mk_front {
  client : client_session;
  initialized_ : option initialization_data;
  update_slot : list entry;
  fe_ : fe_tables;
  disconnected_ : bool;
  outgoing_ : list A;
  asks_ : list (Z * app_request)
}.

Definition send_request (q : app_request) (rid : Z) (cb : reader) (f : front) : front :=
  let '(bytes, _, c) := request (request_id q) (save_request q) rid cb (client f) in
  mk_front c (initialized_ f) (update_slot f) (fe_ f) (disconnected_ f) (outgoing_ f ++ [bytes])
    (asks_ f ++ [(Sessions.token (client f), q)]).

(** The handle is the slot of the views, or one of its own when everything ends. *)
(** [frontend/src/frontend.cpp:108-130] frontend::request_full_update *)
Definition ask_update (final : bool) (f : front) : front :=
  match (if final then [] else update_slot f) with
  | _ :: _ => f
  | [] =>
    let '(bytes, es, c) := request_multi (request_id q_update) (save_request q_update) [(1, r_loaded); (6, r_update final)] (client f) in
    mk_front c (initialized_ f) (if final then update_slot f else es) (fe_ f) (disconnected_ f) (outgoing_ f ++ [bytes])
      (asks_ f ++ [(Sessions.token (client f), q_update)])
  end.

(** [frontend/src/frontend.cpp:151-156] frontend::update_threads. The request; it keeps its handle until it is answered. *)
Definition ask_infos (ids : list Z) (f : front) : front := send_request (q_threads ids) 8 (r_threads (Sessions.token (client f))) f.

(** [frontend/src/frontend_metadata.cpp:99-104] frontend::request_metadata_nw. The request; whoever asks has the handle. *)
Definition ask_metadata (id : Z) (f : front) : front := send_request (q_metadata id) 4 (r_module id) f.

(** [frontend/src/frontend_patcher.cpp:77-78] frontend::apply. The request. *)
Definition ask_apply (image : Z) (functions : list Z) (f : front) : front :=
  send_request (q_apply image functions) 11 (r_patched (Sessions.token (client f))) f.

(** [frontend/src/frontend_patcher.cpp:118-119] frontend::revert. The request. *)
Definition ask_revert (image : Z) (functions : list Z) (f : front) : front :=
  send_request (q_revert image functions) 16 (r_reverted (Sessions.token (client f))) f.

Definition ask_request (q : app_request) (f : front) : front :=
  match q with
  | q_update => ask_update false f
  | q_metadata id => ask_metadata id f
  | q_threads ids => ask_infos ids f
  | q_apply image functions => ask_apply image functions f
  | q_revert image functions => ask_revert image functions f
  end.

Definition with_tables (t : fe_tables) (f : front) : front :=
  mk_front (client f) (initialized_ f) (update_slot f) t (disconnected_ f) (outgoing_ f) (asks_ f).

(** A handle of these entries, the last one on top, is let go. *)
Definition let_go (es : list entry) (f : front) : result front :=
  c ← fold_m (λ c e, release e c) (client f) (rev es);
  Ret (mk_front c (initialized_ f) (update_slot f) (fe_ f) (disconnected_ f) (outgoing_ f) (asks_ f)).

(** [frontend/src/frontend.cpp:49-51] frontend::frontend. The handle of the update is reset. *)
Definition reset_slot (f : front) : result front :=
  f ← let_go (update_slot f) f;
  Ret (mk_front (client f) (initialized_ f) [] (fe_ f) (disconnected_ f) (outgoing_ f) (asks_ f)).

(** [frontend/src/frontend.cpp:64-79] frontend::frontend. The message [init]. *)
Definition on_initialized (body : A) (f : front) : result front :=
  match initialized_ f with
  | Some _ => Ret f
  | None =>
    '(d, _) ← load_init fresh_init body;
    let f := ask_update false f in
    Ret (mk_front (client f) (Some d) (update_slot f) (fe_ f) (disconnected_ f) (outgoing_ f) (asks_ f))
  end.

(** A callback is run. *)
Definition run_reader (fuel : nat) (cb : reader) (body : A) (f : front) : result front :=
  match cb with
  | r_init => on_initialized body f
  | r_init_v1 => Ret (mk_front (client f) (initialized_ f) (update_slot f) (fe_ f) true (outgoing_ f) (asks_ f))
  | r_exiting => Ret (ask_update true f)
  | r_loaded => t ← on_loaded body (fe_ f); Ret (with_tables t f)
  | r_update final =>
    t ← on_update fuel body (fe_ f);
    let f := ask_infos (fe_context t) (with_tables t f) in
    if final then Ret f else reset_slot f
  | r_module pid => t ← on_module pid body (fe_ f); Ret (with_tables t f)
  | r_threads tok => t ← on_threads body (fe_ f); let_go [e_response 8 tok] (with_tables t f)
  | r_patched tok => t ← read_patched body (fe_ f); let_go [e_response 11 tok] (with_tables t f)
  | r_reverted tok => t ← read_reverted body (fe_ f); let_go [e_response 16 tok] (with_tables t f)
  end.

(** [ipc/src/client_session.cpp:46-72] client_session::message. With the callbacks of the front-end. *)
Definition tell (fuel : nat) (bytes : A) (f : front) : result front :=
  x ← message bytes (client f);
  match x with Some (cb, body) => run_reader fuel cb body f | None => Ret f end.

(** [frontend/src/frontend.cpp:43-83] frontend::frontend. What it subscribes to: [init_v1], [init], [exiting]. *)
Definition subscribed : client_session :=
  let c := (subscribe 0 r_init_v1 new_client).2 in
  let c := (subscribe 0x101 r_init c).2 in
  (subscribe 0x102 r_exiting c).2.

Definition new_front : front := mk_front subscribed None [] empty_fe false [] [].

(** * The collector *)

Context (init_data : initialization_data).
Context (junk : stack_record).
Context {F : Type} `{HCF : Countable F} (file_id : string → F) (file : string → list Z).
Context (accessor : Z → thread_info → thread_info).
Context {W P : Type} {po : patch_ops W P}.
Context (load_image_info : string → result (list symbol_info * list (Z * string))).

Abbreviation run := (serve_task (F := F) junk file_id file accessor load_image_info).
Abbreviation app := (CollectorApp.app (F := F) (W := W) (P := P)).
Abbreviation app_server := (CollectorApp.app_server (F := F) (Sym := symbol_info) (W := W) (P := P)).

(** [collector/src/collector_app.cpp:62-119] collector_app::initialize_session. What the session answers to. *)
Definition collector_session : server_session :=
  foldl (λ s id, add_handler id id s) (new_server false) [0x100; 5; 7; 10; 15].

(** [collector/src/collector_app.cpp:122-130] collector_app::initialize_session. The message. *)
Definition send_init (s : server_session) : server_session := send 0x101 (save_init init_data) s.

(** [collector/src/collector_app.cpp:138-138] collector_app::finalize_session. The message. *)
Definition send_exiting (s : server_session) : server_session := send 0x102 [] s.

(** Statistics are written in the order that [write] gives them. *)
Definition payload_of (write : gmap Z nodes_map → list (Z * list graph)) (r : app_response (Sym := symbol_info)) : payload :=
  match r with a_statistics nodes => p_statistics (write nodes) | r => p_other r end.

(** [told] and [heard] are how many messages each side was given. *)
Record exchange := mk_exchange {
  process_ : app_server;
  server_ : server_session;
  front_ : front;
  heard : nat;
  told : nat;
  log_ : list told_message
}.

(** Both sides are there. *)
Definition meet (a : app) : exchange := mk_exchange (start a) (send_init collector_session) new_front 0 0 [o_init].

(** [ipc/src/server_session.cpp:42-62] server_session::message. With the handlers of the collector. *)
Definition hear (snapshot : list mapped_module) (write : gmap Z nodes_map → list (Z * list graph)) (bytes : A) (x : exchange) : result exchange :=
  '(id, rest) ← get_id bytes;
  '(tok, body) ← get_token rest;
  match handlers (server_ x) !! id with
  | None => Ret (mk_exchange (process_ x) (server_ x) (front_ x) (S (heard x)) (told x) (log_ x))
  | Some h =>
    q ← load_request h body;
    p ← run (process_ x) (t_request snapshot q);
    let rs := responses (drop (length (sent (process_ x))) (sent p)) in
    s ← serve (λ _ _, (map (λ r, (response_id r, save_payload (payload_of write r))) rs, None)) bytes (server_ x);
    Ret (mk_exchange p s (front_ x) (S (heard x)) (told x) (log_ x ++ map (λ r, o_response tok r (payload_of write r)) rs))
  end.

(** Calls are collected; the process ends; the front-end asks, or lets go of metadata; the connection is lost, at whichever
    end, with what is under way; a message is taken by the collector, which finds its modules, or by the front-end. *)
Inductive exchange_event :=
  | x_collect (reads : list (Z * list call_record))
  | x_exit (reads : list (Z * list call_record))
  | x_ask (q : app_request)
  | x_forget (tok : Z)
  | x_lose
  | x_hear (snapshot : list mapped_module) (write : gmap Z nodes_map → list (Z * list graph))
  | x_tell.

Definition with_front (f : front) (x : exchange) : exchange :=
  mk_exchange (process_ x) (server_ x) f (heard x) (told x) (log_ x).

Definition exchange_step (fuel : nat) (x : exchange) (e : exchange_event) : result exchange :=
  match e with
  | x_collect reads =>
    p ← run (process_ x) (t_collect reads);
    Ret (mk_exchange p (server_ x) (front_ x) (heard x) (told x) (log_ x))
  | x_exit reads =>
    p ← run (process_ x) (t_exit reads);
    Ret (if session (process_ x)
      then mk_exchange p (send_exiting (server_ x)) (front_ x) (heard x) (told x) (log_ x ++ [o_exiting])
      else mk_exchange p (server_ x) (front_ x) (heard x) (told x) (log_ x))
  | x_ask q => Ret (with_front (ask_request q (front_ x)) x)
  | x_forget tok =>
    match callbacks (client (front_ x)) !! (4, tok) with
    | Some _ => f ← let_go [e_response 4 tok] (front_ x); Ret (with_front f x)
    | None => Ret x
    end
  | x_lose =>
    p ← run (process_ x) t_disconnected;
    Ret (mk_exchange p (server_ x) (front_ x) (heard x) (told x) (log_ x))
  | x_hear snapshot write =>
    match (if session (process_ x) then outgoing_ (front_ x) !! heard x else None) with
    | Some bytes => hear snapshot write bytes x
    | None => Ret x
    end
  | x_tell =>
    match (if session (process_ x) then outbound (server_ x) !! told x else None) with
    | Some bytes => f ← tell fuel bytes (front_ x); Ret (mk_exchange (process_ x) (server_ x) f (heard x) (S (told x)) (log_ x))
    | None => Ret x
    end
  end.

(** * What holds at any time *)

(** The message of a request, and what is sent of each kind. *)
Definition ask_bytes (y : Z * app_request) : A := put_id (request_id y.2) ++ put_token y.1 ++ save_request y.2.

Definition told_bytes (m : told_message) : A :=
  match m with
  | o_init => put_id 0x101 ++ save_init init_data
  | o_response tok _ p => reply tok (payload_id p, save_payload p)
  | o_exiting => put_id 0x102 ++ []
  end.

Definition message_of (m : told_message) : app_message (Sym := symbol_info) :=
  match m with o_init => m_init | o_response _ r _ => m_response r | o_exiting => m_exiting end.

(** The callback of an entry is that of its response. *)
Definition entry_ok (slot : list entry) (id t : Z) (cb : reader) : Prop :=
  match cb with
  | r_loaded => id = 1
  | r_update final => id = 6 ∧ (final = false → slot = [e_response 1 t; e_response 6 t])
  | r_module _ => id = 4
  | r_threads t' => id = 8 ∧ t' = t
  | r_patched t' => id = 11 ∧ t' = t
  | r_reverted t' => id = 16 ∧ t' = t
  | r_init | r_init_v1 | r_exiting => False
  end.

(** The slot of the views keeps the entries of an update that is under way. *)
Definition slot_ok (f : front) : Prop :=
  update_slot f = [] ∨ ∃ t, update_slot f = [e_response 1 t; e_response 6 t] ∧
    is_Some (callbacks (client f) !! (1, t)) ∧ callbacks (client f) !! (6, t) = Some (r_update false).

Record front_ok (n : Z) (f : front) : Prop := {
  fo_client : client_ok (client f);
  fo_token : 1 ≤ Sessions.token (client f) ≤ 1 + n;
  fo_messages : message_callbacks (client f) = message_callbacks subscribed;
  fo_entries id t cb : callbacks (client f) !! (id, t) = Some cb → entry_ok (update_slot f) id t cb;
  fo_slot : slot_ok f
}.

(** What the front-end must not have let go of, for the messages and the requests that are under way. *)
Definition needed_by_message (m : told_message) : list (Z * Z) :=
  match m with
  | o_response t (a_loaded _) _ => [(1, t)]
  | o_response t (a_statistics _) _ => [(6, t)]
  | _ => []
  end.
Definition needed_by_request (y : Z * app_request) : list (Z * Z) :=
  match y.2 with q_update => [(1, y.1); (6, y.1)] | _ => [] end.
Definition needed (ms : list told_message) (qs : list (Z * app_request)) : list (Z * Z) :=
  (ms ≫= needed_by_message) ++ (qs ≫= needed_by_request).

(** Nothing of an update is needed behind its statistics. *)
Fixpoint settled (ms : list told_message) (qs : list (Z * app_request)) : Prop :=
  match ms with
  | [] => True
  | m :: ms =>
    match m with o_response t (a_statistics _) _ => (1, t) ∉ needed ms qs ∧ (6, t) ∉ needed ms qs | _ => True end ∧ settled ms qs
  end.

Lemma request_adds n q rid cb f : front_ok n f → n < 2 ^ 64 - 2 →
  send_request q rid cb f =
    mk_front (mk_client (Sessions.token (client f) + 1) (<[(rid, Sessions.token (client f)) := cb]> (callbacks (client f))) (message_callbacks (client f)))
      (initialized_ f) (update_slot f) (fe_ f) (disconnected_ f) (outgoing_ f ++ [ask_bytes (Sessions.token (client f), q)])
      (asks_ f ++ [(Sessions.token (client f), q)]).
Proof using Type.
  intros [[Ht Hc] Htok _ _ _] Hn. unfold send_request, request, request_internal, add_callback. cbn [fst snd Sessions.token callbacks message_callbacks].
  destruct (callbacks (client f) !! (rid, Sessions.token (client f))) as [x|] eqn:E; [specialize (Hc _ _ _ E); lia|].
  by rewrite uw_small by (unfold in_u; lia).
Qed.

Lemma update_adds n final f : front_ok n f → n < 2 ^ 64 - 2 → (final = true ∨ update_slot f = []) →
  ask_update final f =
    let t := Sessions.token (client f) in
    mk_front (mk_client (t + 1) (<[(6, t) := r_update final]> (<[(1, t) := r_loaded]> (callbacks (client f)))) (message_callbacks (client f)))
      (initialized_ f) (if final then update_slot f else [e_response 1 t; e_response 6 t]) (fe_ f) (disconnected_ f)
      (outgoing_ f ++ [ask_bytes (t, q_update)]) (asks_ f ++ [(t, q_update)]).
Proof using Type.
  intros [[Ht Hc] Htok _ _ _] Hn Hs. unfold ask_update.
  assert ((if final then [] else update_slot f) = []) as -> by (destruct final, Hs; done).
  unfold request_multi, request_internal, add_callback. cbn [fst snd foldl map Sessions.token callbacks message_callbacks].
  destruct (callbacks (client f) !! (1, Sessions.token (client f))) as [x|] eqn:E1; [specialize (Hc _ _ _ E1); lia|].
  rewrite lookup_insert_ne by done.
  destruct (callbacks (client f) !! (6, Sessions.token (client f))) as [x|] eqn:E6; [specialize (Hc _ _ _ E6); lia|].
  by rewrite uw_small by (unfold in_u; lia).
Qed.

Lemma client_ok_insert c k cb : client_ok c → k.2 < Sessions.token c + 1 → 0 ≤ k.2 → Sessions.token c + 1 < 2 ^ 64 →
  client_ok (C := reader) (mk_client (Sessions.token c + 1) (<[k := cb]> (callbacks c)) (message_callbacks c)).
Proof using Type.
  intros [Ht Hc] Hk H0 Hn. split; cbn [Sessions.token callbacks]; [unfold in_u in *; lia|]. intros id t x.
  destruct (decide ((id, t) = k)) as [<-|Hne]; [intros _; cbn in *; lia|]. rewrite lookup_insert_ne by done. intros Hl.
  specialize (Hc _ _ _ Hl). lia.
Qed.

(** A request was sent. *)
Record asked (n : Z) (f : front) (y : Z * app_request) (f' : front) : Prop := {
  as_ok : front_ok (n + 1) f';
  as_token : y.1 = Sessions.token (client f);
  as_next : Sessions.token (client f') = Sessions.token (client f) + 1;
  as_keeps : callbacks (client f) ⊆ callbacks (client f');
  as_sent : outgoing_ f' = outgoing_ f ++ [ask_bytes y];
  as_asked : asks_ f' = asks_ f ++ [y];
  as_tables : fe_ f' = fe_ f;
  as_needed k : k ∈ needed_by_request y → is_Some (callbacks (client f') !! k)
}.

Lemma front_fresh n f id : front_ok n f → callbacks (client f) !! (id, Sessions.token (client f)) = None.
Proof using Type.
  intros [[_ Hc] _ _ _ _]. destruct (callbacks (client f) !! _) eqn:E; [|done]. specialize (Hc _ _ _ E). lia.
Qed.

Lemma slot_kept f f' : slot_ok f → update_slot f' = update_slot f → callbacks (client f) ⊆ callbacks (client f') → slot_ok f'.
Proof using Type.
  intros [Hs|(t & Hs & [x H1] & H6)] E Hsub; unfold slot_ok; rewrite E; [by left|right]. exists t.
  rewrite map_subseteq_spec in Hsub. split; [done|]. split; [exists x|]; by apply Hsub.
Qed.

Lemma send_request_asked n q rid cb f : front_ok n f → n < 2 ^ 64 - 2 → q ≠ q_update →
  entry_ok (update_slot f) rid (Sessions.token (client f)) cb → asked n f (Sessions.token (client f), q) (send_request q rid cb f).
Proof using Type.
  intros Hf Hn Hq He. pose proof (front_fresh n f rid Hf) as Hfresh.
  assert (callbacks (client f) ⊆ <[(rid, Sessions.token (client f)) := cb]> (callbacks (client f))) as Hsub by by apply insert_subseteq.
  rewrite (request_adds n) by done. destruct Hf as [Hc Ht Hm He0 Hs]. split; try done; [|by destruct q; [|intros k ?%elem_of_nil..]].
  split; cbn [client Sessions.token callbacks message_callbacks update_slot]; [|lia|done| |].
  - apply client_ok_insert; cbn; (done || lia).
  - intros id t x [[[= <- <-] <-]|[_ Hl]]%lookup_insert_Some; [done|by apply He0].
  - by apply (slot_kept f).
Qed.

Lemma ask_update_asked n final f : front_ok n f → n < 2 ^ 64 - 2 → final = true ∨ update_slot f = [] →
  asked n f (Sessions.token (client f), q_update) (ask_update final f).
Proof using Type.
  intros Hf Hn Hs. pose proof (front_fresh n f 1 Hf) as H1. pose proof (front_fresh n f 6 Hf) as H6.
  rewrite (update_adds n) by done. set (t := Sessions.token (client f)) in *. cbn [client].
  assert (callbacks (client f) ⊆ <[(6, t) := r_update final]> (<[(1, t) := r_loaded]> (callbacks (client f)))) as Hsub.
  { etransitivity; [by apply (insert_subseteq _ (1, t) r_loaded)|]. apply insert_subseteq. by rewrite lookup_insert_ne. }
  destruct Hf as [Hc Ht Hm He Hs0]. split; try done; cbn [client callbacks].
  - split; cbn [client Sessions.token callbacks message_callbacks update_slot]; [|lia|done| |].
    + pose proof (client_ok_insert (client f) (1, t) r_loaded Hc ltac:(cbn; lia) ltac:(cbn; lia) ltac:(lia)) as [Ha Hb].
      split; [done|]. intros i t' x. destruct (decide ((i, t') = (6, t))) as [[= -> ->]|]; [intros _; cbn; lia|].
      cbn [callbacks]. rewrite lookup_insert_ne by done. apply Hb.
    + intros id t' x [[[= <- <-] <-]|[_ [[[= <- <-] <-]|[_ Hl]]%lookup_insert_Some]]%lookup_insert_Some;
        [split; [done|by intros ->]|done|]. specialize (He _ _ _ Hl). destruct x; try done. cbn in He |- *.
      destruct He as [-> He]. split; [done|]. intros ->. specialize (He eq_refl). destruct final; [done|]. destruct Hs; congruence.
    + destruct final; [by apply (slot_kept f)|]. right. exists t. cbn [client callbacks update_slot]. rewrite lookup_insert_ne, !lookup_insert_eq by done.
      split; [done|]. split; [by eexists|done].
  - intros k Hk. cbn in Hk. apply elem_of_cons in Hk as [->|Hk]; [rewrite lookup_insert_ne, lookup_insert_eq by done; by eexists|].
    apply list_elem_of_singleton in Hk as ->. rewrite lookup_insert_eq. by eexists.
Qed.

Lemma ask_request_asked n q f : front_ok n f → n < 2 ^ 64 - 2 →
  ask_request q f = f ∨ asked n f (Sessions.token (client f), q) (ask_request q f).
Proof using Type.
  intros Hf Hn. destruct q as [|id|ids|image fs|image fs]; [|right; apply send_request_asked; done..].
  cbn [ask_request]. destruct (update_slot f) as [|e es] eqn:E; [right; by apply ask_update_asked; [..|right]|].
  left. unfold ask_update. by rewrite E.
Qed.

(** Handles are let go of. *)
Definition without (k : Z * Z) (f : front) : front :=
  mk_front (mk_client (Sessions.token (client f)) (delete k (callbacks (client f))) (message_callbacks (client f))) (initialized_ f)
    (update_slot f) (fe_ f) (disconnected_ f) (outgoing_ f) (asks_ f).

Lemma client_without c k : client_ok c → client_ok (C := reader) (mk_client (Sessions.token c) (delete k (callbacks c)) (message_callbacks c)).
Proof using Type. intros [Ht Hc]. split; [done|]. cbn [callbacks]. intros id t x [_ Hl]%lookup_delete_Some. by apply (Hc _ _ _ Hl). Qed.

Lemma let_go_entry n id t f : front_ok n f → is_Some (callbacks (client f) !! (id, t)) → id ≠ 1 → id ≠ 6 →
  let_go [e_response id t] f = Ret (without (id, t) f) ∧ front_ok n (without (id, t) f).
Proof using Type.
  intros [Hc Ht Hm He Hs] [x Hx] H1 H6. unfold let_go. cbn [rev Datatypes.app fold_m release]. rewrite Hx. cbn [mbind result_bind].
  split; [done|]. split; cbn [client Sessions.token callbacks message_callbacks update_slot without]; try done; [by apply client_without| |].
  - intros id' t' y [_ Hl]%lookup_delete_Some. by apply He.
  - destruct Hs as [Hs|(t' & Hs & Ha & Hb)]; [by left|right]. exists t'. cbn [client without callbacks update_slot].
    rewrite !lookup_delete_ne by congruence. done.
Qed.

Lemma reset_slot_ok n f t : front_ok n f → callbacks (client f) !! (6, t) = Some (r_update false) →
  ∃ f', reset_slot f = Ret f' ∧ front_ok n f' ∧ callbacks (client f') = delete (1, t) (delete (6, t) (callbacks (client f))) ∧
    Sessions.token (client f') = Sessions.token (client f) ∧ fe_ f' = fe_ f ∧ outgoing_ f' = outgoing_ f ∧ asks_ f' = asks_ f.
Proof using Type.
  intros [Hc Ht Hm He Hs] Hl. pose proof (He _ _ _ Hl) as [_ Hslot]. specialize (Hslot eq_refl).
  destruct Hs as [Hs|(t' & Hs & [x Ha] & Hb)]; [congruence|]. rewrite Hslot in Hs. injection Hs as <-.
  unfold reset_slot, let_go. rewrite Hslot. cbn [rev Datatypes.app fold_m release]. rewrite Hb. cbn [mbind result_bind callbacks].
  rewrite lookup_delete_ne, Ha by done. cbn [mbind result_bind client initialized_ fe_ disconnected_ outgoing_ message_callbacks callbacks Sessions.token].
  eexists. split; [done|]. cbn [client callbacks Sessions.token fe_ outgoing_]. split; [|done].
  split; cbn [client Sessions.token callbacks message_callbacks update_slot]; [|lia|done| |by left].
  - by apply (client_without (mk_client _ _ _) (1, t)), client_without.
  - intros id' t' y [Hne1 [Hne6 Hl']%lookup_delete_Some]%lookup_delete_Some. specialize (He _ _ _ Hl').
    destruct y; try done. destruct He as [-> Hy]. split; [done|]. intros ->. specialize (Hy eq_refl). rewrite Hslot in Hy.
    injection Hy as ->. done.
Qed.

(** * What the tables of the front-end have *)

Context (fuel : nat).

Definition graphs_of_log (ms : list told_message) : list (list (Z * list graph)) :=
  omap (λ m, match m with o_response _ _ (p_statistics w) => Some w | _ => None end) ms.
Definition loaded_of_log (ms : list told_message) : list (Z * mapped_module_ex) :=
  ms ≫= λ m, match m with o_response _ (a_loaded l) _ => l | _ => [] end.

(** What is sent is what the process answers. *)
Definition logged (m : told_message) : Prop :=
  match m with
  | o_response _ (a_statistics nodes) p => nodes_ok nodes ∧ ∃ w, p = p_statistics w ∧ carries w nodes
  | o_response _ r p => p = p_other r
  | _ => True
  end.

(** The values are in the ranges of their types. *)
Definition told_fits (m : told_message) : Prop :=
  match m with o_response _ _ p => payload_fits fuel p | _ => True end.

Definition threads_fit (t : fe_tables) : Prop :=
  Forall (λ r, in_u 32 r.2.1) (records (fe_threads t)) ∧ Forall (in_u 32) (fe_context t).

(** The tables are made of what was told, in its order. *)
Definition tables_ok (ms : list told_message) (t : fe_tables) : Prop :=
  ∃ xs, fold_m (λ t x, receive x.1 x.2 t) empty_fe xs = Ret t ∧ Forall (λ x, ∀ nodes, x.2 ≠ p_other (a_statistics nodes)) xs ∧
    graphs_in xs = graphs_of_log ms ∧ loaded_in xs = loaded_of_log ms.

Lemma log_graphs ms : Forall logged ms → ∃ nodes, Forall2 carries (graphs_of_log ms) nodes ∧ Forall nodes_ok nodes ∧
  statistics_sent (map message_of ms) = nodes.
Proof using Type.
  induction 1 as [|m ms Hm _ (nodes & H1 & H2 & <-)]; [by exists []|]. unfold graphs_of_log, statistics_sent in *. cbn [omap list_omap map].
  destruct m as [|t r p|]; [by eexists| |by eexists]. destruct r; cbn in Hm; try (subst; by eexists).
  destruct Hm as [Hn (w & -> & Hw)]. eexists. split; [by constructor|]. split; [by constructor|done].
Qed.

Lemma messages_size_app a b : messages_size (a ++ b) = messages_size a + messages_size b.
Proof using Type. induction a as [|w a IH]; [done|]. unfold messages_size in *. cbn [Datatypes.app foldr]. lia. Qed.

Lemma messages_size_pos a : 0 ≤ messages_size a.
Proof using Type. induction a as [|w a IH]; [done|]. unfold messages_size, message_size in *. cbn [foldr]. lia. Qed.

(** What is not statistics and not modules leaves no trace in what is compared. *)
Lemma tables_skip ms m t : tables_ok ms t → needed_by_message m = [] → logged m → tables_ok (ms ++ [m]) t.
Proof using Type.
  intros (xs & H1 & H2 & H3 & H4) Hm Hl. exists xs. split; [done|]. split; [done|]. unfold graphs_of_log, loaded_of_log in *.
  rewrite omap_app, bind_app, <- H3, <- H4. destruct m as [|t' r p|]; try by rewrite !app_nil_r.
  destruct r; try done; cbn in Hl; subst; by rewrite !app_nil_r.
Qed.

Lemma tables_next ms tok r p pid t : tables_ok ms t → Forall logged (ms ++ [o_response tok r p]) →
  messages_size (graphs_of_log (ms ++ [o_response tok r p])) < 2 ^ 32 - 1 →
  ∃ t', receive pid p t = Ret t' ∧ tables_ok (ms ++ [o_response tok r p]) t'.
Proof using Type.
  intros (xs & H1 & H2 & H3 & H4) Hlog Hsize. set (m := o_response tok r p) in *.
  assert (logged m) as Hm by (apply Forall_app in Hlog as [_ Hm]; by inversion Hm).
  assert (Forall (λ x, ∀ nodes, x.2 ≠ p_other (a_statistics nodes)) (xs ++ [(pid, p)])) as Hp.
  { apply Forall_app. split; [done|]. constructor; [|done]. cbn. intros nodes ->. destruct r; cbn in Hm; try done.
    by destruct Hm as [_ (w & ? & _)]. }
  assert (graphs_in (xs ++ [(pid, p)]) = graphs_of_log (ms ++ [m])) as Hg.
  { unfold graphs_in, graphs_of_log in *. rewrite !omap_app, H3. by destruct p. }
  assert (loaded_in (xs ++ [(pid, p)]) = loaded_of_log (ms ++ [m])) as Hl.
  { unfold loaded_in, loaded_of_log in *. rewrite !bind_app, H4. f_equal. unfold m in *. destruct r; cbn in Hm; subst; try done.
    destruct Hm as [_ (w & -> & _)]. done. }
  destruct (log_graphs _ Hlog) as (nodes & Hc & Hn & _).
  destruct (read_messages_ok _ _ Hc Hn empty_calls (λ _, ∅) [] empty_calls_ok empty_holds) as (c & ids & Hr & _); [cbn; lia|].
  rewrite <- Hg in Hr. destruct (receive_all_ok _ Hp empty_fe [] c ids Hr) as (t' & Hrec & _).
  exists t'. split; [|by exists (xs ++ [(pid, p)])]. rewrite fold_m_app, H1 in Hrec. cbn [mbind result_bind fold_m fst snd] in Hrec.
  by destruct (receive pid p t).
Qed.

(** The threads that are asked for have identifiers. *)
Lemma put_record_all {T} (Q : Z → Prop) (t : table (Z * T)) r : Forall (λ x, Q x.2.1) (records t) → Q r.1 →
  Forall (λ x, Q x.2.1) (records (put_record t r)).
Proof using Type.
  intros Ht Hr. unfold put_record. destruct (List.find _ (records t)) as [[h old]|]; cbn [modify create records snd].
  - apply Forall_map. eapply Forall_impl; [exact Ht|]. intros [h' v] Hv. cbn in *. by case_decide.
  - apply Forall_app. split; [done|]. by constructor.
Qed.

Lemma put_records_all {T} (Q : Z → Prop) (l : list (Z * T)) : ∀ t, Forall (λ x, Q x.2.1) (records t) → Forall (λ r, Q r.1) l →
  Forall (λ x, Q x.2.1) (records (foldl put_record t l)).
Proof using Type.
  induction l as [|r l IH]; intros t Ht Hl; [done|]. apply Forall_cons in Hl as [Hr Hl]. cbn [foldl]. by apply IH, Hl; apply put_record_all.
Qed.

Lemma ask_threads_all (Q : Z → Prop) ids t : Forall (λ x, Q x.2.1) (records t) → Forall Q ids →
  Forall (λ x, Q x.2.1) (records (ask_threads ids t).1) ∧ Forall Q (ask_threads ids t).2.
Proof using Type.
  intros Ht Hids. assert (Forall (λ x, Q x.2.1) (records (foldl mark_thread t ids))) as Hall.
  { revert t Ht. induction Hids as [|id ids Hid _ IH]; intros t Ht; [done|]. cbn [foldl]. apply IH.
    destruct (mark_thread_put t id) as [x ->]. by apply put_record_all. }
  split; [done|]. cbn [ask_threads snd]. apply Forall_map, Forall_forall. intros [i x] [_ Hin]%list_elem_of_filter.
  unfold values in Hin. apply list_elem_of_fmap in Hin as ([h v] & -> & Hin). rewrite Forall_forall in Hall. by apply (Hall (h, v)).
Qed.

Lemma threads_fit_next pid p t t' : payload_fits fuel p → receive pid p t = Ret t' → threads_fit t → threads_fit t'.
Proof using Type.
  intros Hp Hr [Ht Hc]. destruct p as [w|r]; cbn [receive] in Hr.
  - destruct (read_statistics w (fe_calls t) (fe_context t)) as [[c ids]| |] eqn:E; [|done..]. apply Ret_inj in Hr as <-.
    assert (Forall (in_u 32) ids) as Hids.
    { revert E. unfold read_statistics. destruct (fold_m read_thread _ w) as [[[s1 ids1] f1]| |] eqn:E; [|by intros [=]..].
      cbn [mbind result_bind]. intros [= _ <-]. destruct (read_threads_context w _ _ _ _ _ _ E) as [-> _].
      destruct w as [|item w]; [done|]. apply Forall_map. eapply Forall_impl; [exact Hp|]. intros x Hx. apply Hx. }
    destruct (ask_threads_all (in_u 32) ids (fe_threads t) Ht Hids). done.
  - apply Ret_inj in Hr as <-. destruct r as [| | | |l| |]; try done. split; [|done]. cbn [fe_threads]. apply put_records_all; [done|].
    cbn in Hp. eapply Forall_impl; [exact Hp|]. intros x Hx. apply Hx.
Qed.

(** * The front-end is told *)

(** What the front-end asked: nothing, or something under a new token. *)
Definition asks (f f' : front) : Prop :=
  outgoing_ f' = outgoing_ f ∧ asks_ f' = asks_ f ∧ Sessions.token (client f') = Sessions.token (client f) ∨
  ∃ q, request_fits q ∧ outgoing_ f' = outgoing_ f ++ [ask_bytes (Sessions.token (client f), q)] ∧
    asks_ f' = asks_ f ++ [(Sessions.token (client f), q)] ∧
    Sessions.token (client f') = Sessions.token (client f) + 1 ∧
    ∀ k, k ∈ needed_by_request (Sessions.token (client f), q) → is_Some (callbacks (client f') !! k).

(** What telling does: the front-end asks at most once, and keeps what is needed behind the message. *)
Record progress (n : Z) (f : front) (ms : list told_message) (m : told_message) (f' : front) : Prop := {
  pr_front : front_ok (n + 1) f';
  pr_tables : tables_ok (ms ++ [m]) (fe_ f');
  pr_threads : threads_fit (fe_ f');
  pr_sent : asks f f';
  pr_keeps k : is_Some (callbacks (client f) !! k) → k.1 = 1 ∨ k.1 = 6 →
    (∀ t nodes p, m = o_response t (a_statistics nodes) p → k.2 ≠ t) → is_Some (callbacks (client f') !! k)
}.

Lemma front_ok_tables n n' f t : front_ok n f → n ≤ n' → front_ok n' (with_tables t f).
Proof using Type. intros [] Hn. split; try done. cbn. lia. Qed.

(** Nothing is asked, at most an entry that is not needed is let go. *)
Lemma progress_quiet n f ms m f' t : front_ok n f → front_ok n (with_tables t f') → tables_ok (ms ++ [m]) t → threads_fit t →
  outgoing_ f' = outgoing_ f → asks_ f' = asks_ f → Sessions.token (client f') = Sessions.token (client f) →
  (∀ k, k.1 = 1 ∨ k.1 = 6 → callbacks (client f') !! k = callbacks (client f) !! k) → progress n f ms m (with_tables t f').
Proof using Type.
  intros Hf Hf' Ht Hfit Ho Has Htok Hk. split; [|done|done|by left|].
  - destruct Hf'. split; try done. lia.
  - intros k [x Hx] H16 _. cbn. rewrite Hk by done. by eexists.
Qed.

Lemma progress_asked n f ms m t q f' : asked n (with_tables t f) (Sessions.token (client f), q) f' → tables_ok (ms ++ [m]) t →
  threads_fit t → request_fits q → progress n f ms m f'.
Proof using Type.
  intros [H1 H2 H3 H4 H5 H5' H6 H7] Ht Hfit Hq. split; rewrite ?H6; try done; [right; by exists q|].
  intros k [x Hx] _ _. rewrite map_subseteq_spec in H4. exists x. by apply H4.
Qed.

Lemma told_subscribed n id rest f : front_ok n f → in_s 32 id →
  message (put_id id ++ rest) (client f) = match message_callbacks subscribed !! id with
    | Some cb => Ret (Some (cb, rest)) | None => message (put_id id ++ rest) (client f) end.
Proof using Type.
  intros [_ _ Hm _ _] Hi. unfold message. rewrite id_roundtrip by done. cbn [mbind result_bind]. rewrite Hm.
  by destruct (message_callbacks subscribed !! id).
Qed.

Lemma with_own_tables f : with_tables (fe_ f) f = f.
Proof using Type. by destruct f. Qed.

Lemma tell_init n f ms : front_ok n f → n < 2 ^ 64 - 2 → tables_ok ms (fe_ f) → threads_fit (fe_ f) → init_fits init_data →
  ∃ f', tell fuel (told_bytes o_init) f = Ret f' ∧ progress n f ms o_init f'.
Proof using Type.
  intros Hf Hn Ht Hfit Hi. assert (tables_ok (ms ++ [o_init]) (fe_ f)) as Ht' by by apply tables_skip.
  unfold tell, told_bytes. rewrite (told_subscribed n) by (done || unfold in_s; lia). cbn [mbind result_bind].
  change (message_callbacks subscribed !! 0x101) with (Some r_init). cbn [mbind result_bind run_reader]. unfold on_initialized.
  assert (progress n f ms o_init f) as Hsame.
  { rewrite <- (with_own_tables f) at 2. apply progress_quiet; rewrite ?with_own_tables; done. }
  destruct (initialized_ f) as [d|] eqn:E; [by exists f|].
  pose proof (init_read 6 init_data [] Hi) as Hr. rewrite app_nil_r in Hr.
  change (put_versioned 6 (init_body 6 init_data)) with (save_init init_data) in Hr. rewrite Hr. cbn [mbind result_bind].
  eexists. split; [done|].
  destruct (ask_request_asked n q_update f Hf Hn) as [Hs|Ha]; cbn [ask_request] in *.
  - rewrite Hs. destruct Hsame. split; try done. by destruct pr_front0.
  - assert (asked n (with_tables (fe_ f) f) (Sessions.token (client f), q_update)
      (mk_front (client (ask_update false f)) (Some (known_init 6 init_data)) (update_slot (ask_update false f)) (fe_ (ask_update false f))
        (disconnected_ (ask_update false f)) (outgoing_ (ask_update false f)) (asks_ (ask_update false f)))) as Ha'; [|by apply (progress_asked _ _ _ _ _ _ _ Ha')].
    rewrite with_own_tables. destruct Ha as [[] ? ? ? ? ? ? ?]. by split.
Qed.

Lemma tell_exiting n f ms : front_ok n f → n < 2 ^ 64 - 2 → tables_ok ms (fe_ f) → threads_fit (fe_ f) →
  ∃ f', tell fuel (told_bytes o_exiting) f = Ret f' ∧ progress n f ms o_exiting f'.
Proof using Type.
  intros Hf Hn Ht Hfit. assert (tables_ok (ms ++ [o_exiting]) (fe_ f)) as Ht' by by apply tables_skip.
  unfold tell, told_bytes. rewrite (told_subscribed n) by (done || unfold in_s; lia). cbn [mbind result_bind].
  change (message_callbacks subscribed !! 0x102) with (Some r_exiting). cbn [mbind result_bind run_reader]. eexists. split; [done|].
  pose proof (ask_update_asked n true f Hf Hn (or_introl eq_refl)) as Ha. rewrite <- (with_own_tables f) in Ha at 1.
  by apply (progress_asked _ _ _ _ _ _ _ Ha).
Qed.

Lemma load_next ms tok r p pid f : tables_ok ms (fe_ f) → threads_fit (fe_ f) → Forall logged (ms ++ [o_response tok r p]) →
  messages_size (graphs_of_log (ms ++ [o_response tok r p])) < 2 ^ 32 - 1 → payload_fits fuel p →
  ∃ t, load_payload fuel pid (payload_id p) (save_payload p) (fe_ f) = Ret t ∧ tables_ok (ms ++ [o_response tok r p]) t ∧ threads_fit t.
Proof using LAWS.
  intros Ht Hfit Hlog Hsize Hp. destruct (tables_next ms tok r p pid _ Ht Hlog Hsize) as (t & Hr & Ht'). exists t.
  pose proof (payload_roundtrip fuel pid p _ t [] Hp Hr) as Hl. rewrite app_nil_r in Hl. split; [done|]. split; [done|].
  by apply (threads_fit_next pid p (fe_ f)).
Qed.

Lemma reply_found n tok p f : front_ok n f → in_u 64 tok →
  message (reply tok (payload_id p, save_payload p)) (client f) =
    Ret (match callbacks (client f) !! (payload_id p, tok) with Some cb => Some (cb, save_payload p) | None => None end).
Proof using LAWS.
  intros [_ _ Hm _ _] Ht. apply message_reply; [|done|rewrite Hm]; by destruct p as [|[]]; (reflexivity || (cbn; unfold in_s; lia)).
Qed.

(** The statistics: the threads are asked for, and the slot of the views is free again. *)
Lemma tell_statistics n f ms tok nodes w final t : let m := o_response tok (a_statistics nodes) (p_statistics w) in
  front_ok n f → n < 2 ^ 64 - 2 → tables_ok (ms ++ [m]) t → threads_fit t →
  callbacks (client f) !! (6, tok) = Some (r_update final) →
  ∃ f', (let f := ask_infos (fe_context t) (with_tables t f) in if final then Ret f else reset_slot f) = Ret f' ∧ progress n f ms m f'.
Proof using LAWS.
  intros m Hf Hn Ht Hfit Hcb.
  assert (asked n (with_tables t f) (Sessions.token (client f), q_threads (fe_context t)) (ask_infos (fe_context t) (with_tables t f))) as Ha.
  { apply (send_request_asked n (q_threads _) 8 (r_threads _) (with_tables t f)); [apply (front_ok_tables n); [done|lia]|done|done|split; done]. }
  destruct final; [eexists; split; [done|]; exact (progress_asked _ _ _ _ _ _ _ Ha Ht Hfit (proj2 Hfit))|].
  assert (callbacks (client (ask_infos (fe_context t) (with_tables t f))) !! (6, tok) = Some (r_update false)) as Hcb'.
  { pose proof (as_keeps _ _ _ _ Ha) as Hk. rewrite map_subseteq_spec in Hk. by apply Hk. }
  destruct (reset_slot_ok (n + 1) _ tok (as_ok _ _ _ _ Ha) Hcb') as (f' & Hr & Hf' & Hd & Htok & Htab & Hout & Hasks).
  exists f'. split; [done|]. destruct Ha as [Hok H2 H3 H4 H5 H5' H6 H7]. split; rewrite ?Htab, ?H6; try done.
  - right. exists (q_threads (fe_context t)). rewrite Hout, Htok, Hasks. split; [exact (proj2 Hfit)|]. split; [done|]. split; [done|]. split; [done|]. by intros k ?%elem_of_nil.
  - intros [i t'] [x Hx] _ Hne. specialize (Hne tok nodes (p_statistics w) eq_refl). cbn in Hne. rewrite map_subseteq_spec in H4. exists x.
    rewrite Hd, !lookup_delete_ne by congruence. by apply H4.
Qed.

(** A response that lets its own handle go, or none. *)
Lemma tell_own n f ms m t id tok : front_ok n f → tables_ok (ms ++ [m]) t → threads_fit t → is_Some (callbacks (client f) !! (id, tok)) →
  id ≠ 1 → id ≠ 6 → ∃ f', let_go [e_response id tok] (with_tables t f) = Ret f' ∧ progress n f ms m f'.
Proof using LAWS.
  intros Hf Ht Hfit Hcb H1 H6. assert (front_ok n (with_tables t f)) as Hf' by (apply (front_ok_tables n); [done|lia]).
  destruct (let_go_entry n id tok (with_tables t f) Hf' Hcb H1 H6) as [Hl Hok]. eexists. split; [exact Hl|].
  change (without (id, tok) (with_tables t f)) with (with_tables t (without (id, tok) f)) in *. apply progress_quiet; try done.
  intros [i t'] [E|E]; cbn in E |- *; by rewrite lookup_delete_ne by congruence.
Qed.

Lemma tell_plain n f ms m t : front_ok n f → tables_ok (ms ++ [m]) t → threads_fit t → progress n f ms m (with_tables t f).
Proof using LAWS. intros Hf Ht Hfit. apply progress_quiet; try done. apply (front_ok_tables n); [done|lia]. Qed.

Ltac read_as Hload pid rd :=
  let t := fresh "t" in let Hl := fresh "Hl" in destruct (Hload pid) as (t & Hl & Ht' & Hfit'); change (rd = Ret t) in Hl;
  unfold run_reader; rewrite Hl; cbn [mbind result_bind]; clear Hl.

(** A response: it is read by whom it is for, or by nobody. *)
Lemma tell_response n f ms tok r p : let m := o_response tok r p in
  front_ok n f → n < 2 ^ 64 - 2 → tables_ok ms (fe_ f) → threads_fit (fe_ f) → Forall logged (ms ++ [m]) →
  messages_size (graphs_of_log (ms ++ [m])) < 2 ^ 32 - 1 → payload_fits fuel p → in_u 64 tok →
  (∀ k, k ∈ needed_by_message m → is_Some (callbacks (client f) !! k)) →
  ∃ f', tell fuel (told_bytes m) f = Ret f' ∧ progress n f ms m f'.
Proof using LAWS.
  intros m. subst m. intros Hf Hn Ht Hfit Hlog Hsize Hp Htok Hneed. unfold tell, told_bytes. rewrite (reply_found n) by done. cbn [mbind result_bind].
  assert (logged (o_response tok r p)) as Hm by (apply Forall_app in Hlog as [_ Hm]; by inversion Hm).
  pose proof (λ pid, load_next ms tok r p pid f Ht Hfit Hlog Hsize Hp) as Hload.
  destruct (callbacks (client f) !! (payload_id p, tok)) as [cb|] eqn:Hcb; last first.
  { assert (needed_by_message (o_response tok r p) = []) as Hnone.
    { destruct r; try done; cbn in Hm; [subst p|destruct Hm as [_ (w & -> & _)]];
        destruct (Hneed _ ltac:(cbn; by left)) as [x Hx]; cbn in Hcb; congruence. }
    exists f. split; [done|]. rewrite <- (with_own_tables f) at 2. apply progress_quiet; rewrite ?with_own_tables; try done. by apply tables_skip. }
  pose proof (fo_entries _ _ Hf _ _ _ Hcb) as He. cbn [run_reader].
  destruct r as [l|nodes|l|md|l|l|l]; cbn [logged] in Hm; [subst p|destruct Hm as [_ (w & -> & _)]|subst p..];
    cbn [payload_id response_id] in *; destruct cb; cbn in He; try lia.
  - read_as Hload 0 (on_loaded (save_payload (p_other (a_loaded l))) (fe_ f)).
    eexists. split; [done|by apply tell_plain].
  - read_as Hload 0 (on_update fuel (save_payload (p_statistics w)) (fe_ f)).
    by apply (tell_statistics n f ms tok nodes w).
  - read_as Hload pid (on_module pid (save_payload (p_other (a_metadata md))) (fe_ f)). eexists. split; [done|by apply tell_plain].
  - read_as Hload 0 (on_threads (save_payload (p_other (a_threads l))) (fe_ f)).
    destruct He as [_ ->]. by apply (tell_own n f ms _ t 8 tok); [..|by eexists|done|done].
  - read_as Hload 0 (read_patched (save_payload (p_other (a_patched l))) (fe_ f)).
    destruct He as [_ ->]. by apply (tell_own n f ms _ t 11 tok); [..|by eexists|done|done].
  - read_as Hload 0 (read_reverted (save_payload (p_other (a_reverted l))) (fe_ f)).
    destruct He as [_ ->]. by apply (tell_own n f ms _ t 16 tok); [..|by eexists|done|done].
Qed.

(** * Any order of events *)

(** The calls that were read of a thread, at the end only if the front-end is there still; the modules that were
    enumerated. *)
Fixpoint collected (tid : Z) (here : bool) (es : list exchange_event) : list call_record :=
  let reads_of reads := concat (map snd (filter (λ r, r.1 = tid) reads)) in
  match es with
  | [] => []
  | x_collect reads :: es => reads_of reads ++ collected tid here es
  | x_exit reads :: es => (if here then reads_of reads else []) ++ collected tid here es
  | x_lose :: es => collected tid false es
  | _ :: es => collected tid here es
  end.
Definition collected_of (tid : Z) (es : list exchange_event) : list call_record := collected tid true es.
Definition is_loss (e : exchange_event) : bool := if e is x_lose then true else false.
Definition lasts (es : list exchange_event) : bool := forallb (λ e, negb (is_loss e)) es.
Definition enumerated_in (es : list exchange_event) : Z :=
  foldr (λ e n, match e with x_hear snapshot _ => len snapshot + n | _ => n end) 0 es.

(** Requests are made of values of their types, and graphs are written with callers before callees. *)
Definition event_fits (e : exchange_event) : Prop :=
  match e with
  | x_ask q => request_fits q
  | x_hear _ write => ∀ nodes, nodes_ok nodes → carries (write nodes) nodes
  | _ => True
  end.

Definition works (a : app) (es : list exchange_event) (p : app_server) : Prop :=
  ∃ tasks, fold_m run (start a) tasks = Ret p ∧ forallb (λ t, negb (is_disconnection t)) tasks = lasts es ∧
    (∀ tid, batches (thread_ops tid true tasks) = collected_of tid es) ∧ enumerated tasks ≤ enumerated_in es.

(** What is under way to the collector. *)
Record under_way (x : exchange) (qs : list (Z * app_request)) : Prop := {
  uw_sent : drop (heard x) (asks_ (front_ x)) = qs;
  uw_once : NoDup qs.*1;
  uw_fits : Forall (λ y, in_u 64 y.1 ∧ y.1 < Sessions.token (client (front_ x)) ∧ request_fits y.2) qs;
  uw_needed k : k ∈ needed (drop (told x) (log_ x)) qs → is_Some (callbacks (client (front_ x)) !! k);
  uw_settled : settled (drop (told x) (log_ x)) qs
}.

Definition token_below (c : client_session) (m : told_message) : Prop :=
  match m with o_response t _ _ => in_u 64 t ∧ t < Sessions.token c | _ => True end.

Record linked (a : app) (es : list exchange_event) (x : exchange) : Prop := {
  li_works : works a es (process_ x);
  li_here : session (process_ x) = lasts es;
  li_handlers : handlers (server_ x) = handlers collector_session;
  li_outbound : outbound (server_ x) = map told_bytes (log_ x);
  li_sent : sent (process_ x) = map message_of (log_ x);
  li_logged : Forall logged (log_ x);
  li_told : (told x ≤ length (log_ x))%nat;
  li_heard : (heard x ≤ length (outgoing_ (front_ x)))%nat;
  li_requests : outgoing_ (front_ x) = map ask_bytes (asks_ (front_ x));
  li_tokens : Forall (token_below (client (front_ x))) (log_ x);
  li_front : front_ok (len es) (front_ x);
  li_tables : tables_ok (take (told x) (log_ x)) (fe_ (front_ x));
  li_threads : threads_fit (fe_ (front_ x));
  li_asked : ∃ qs, under_way x qs
}.

Lemma thread_ops_app tid (ts us : list (app_task)) : ∀ here,
  thread_ops tid here (ts ++ us) = thread_ops tid here ts ++ thread_ops tid (here && forallb (λ t, negb (is_disconnection t)) ts) us.
Proof using Type.
  induction ts as [|t ts IH]; intros here; [by rewrite andb_true_r|]. cbn [Datatypes.app thread_ops forallb].
  destruct t as [reads|snapshot q| |reads]; cbn [is_disconnection negb andb]; [| |by rewrite IH, !andb_false_r|]; rewrite ?IH, ?app_assoc; [done| |done].
  by destruct q; rewrite ?app_assoc.
Qed.

Lemma collected_app tid es es' : ∀ here, collected tid here (es ++ es') = collected tid here es ++ collected tid (here && lasts es) es'.
Proof using Type.
  induction es as [|e es IH]; intros here; [by rewrite andb_true_r|]. unfold lasts in *. cbn [Datatypes.app collected forallb].
  destruct e; cbn [is_loss negb andb]; rewrite IH, ?app_assoc; try done. by rewrite !andb_false_r.
Qed.

Lemma lasts_snoc es e : lasts (es ++ [e]) = lasts es && negb (is_loss e).
Proof using Type. unfold lasts. rewrite forallb_app. cbn [forallb]. by rewrite andb_true_r. Qed.

Lemma batches_app a b : batches (a ++ b) = batches a ++ batches b.
Proof using Type. unfold batches. by rewrite map_app, concat_app. Qed.

Lemma batches_reads (l : list (list call_record)) : batches (map Batch l) = concat l.
Proof using Type. unfold batches. by rewrite map_map, map_id. Qed.

Lemma foldr_from {T} (g : T → Z → Z) l : (∀ t n, g t n = g t 0 + n) → ∀ n, foldr g n l = foldr g 0 l + n.
Proof using Type. intros Hg. induction l as [|t l IH]; intros n; cbn [foldr]; [done|]. rewrite Hg, IH, (Hg t (foldr g 0 l)). lia. Qed.

Lemma enumerated_app (ts us : list (app_task)) : enumerated (ts ++ us) = enumerated ts + enumerated us.
Proof using Type. unfold enumerated. rewrite foldr_app. apply foldr_from. intros [] n; lia. Qed.

Lemma enumerated_in_app ts us : enumerated_in (ts ++ us) = enumerated_in ts + enumerated_in us.
Proof using Type. unfold enumerated_in. rewrite foldr_app. apply foldr_from. intros [] n; lia. Qed.

(** One more task of the process, or none. *)
Lemma works_more a es p t p' e : works a es p → run p t = Ret p' → is_disconnection t = is_loss e →
  (∀ tid here, batches (thread_ops tid here [t]) = collected tid here [e]) → enumerated [t] ≤ enumerated_in [e] → works a (es ++ [e]) p'.
Proof using Type.
  intros (tasks & H1 & H2 & H3 & H4) Ht Hd He Hn. exists (tasks ++ [t]).
  split; [by rewrite fold_m_app, H1; cbn [mbind result_bind fold_m]; rewrite Ht|].
  split; [|split; [|rewrite enumerated_app, enumerated_in_app; lia]].
  - rewrite forallb_app, lasts_snoc, H2. cbn [forallb]. by rewrite andb_true_r, Hd.
  - intros tid. unfold collected_of in *. by rewrite thread_ops_app, batches_app, H3, He, H2, collected_app.
Qed.

Lemma works_idle a es p e : works a es p → is_loss e = false → (∀ tid here, collected tid here [e] = []) → works a (es ++ [e]) p.
Proof using Type.
  intros (tasks & H1 & H2 & H3 & H4) Hl He. exists tasks. split; [done|]. split; [|split].
  - by rewrite lasts_snoc, Hl, andb_true_r.
  - intros tid. unfold collected_of in *. by rewrite H3, collected_app, He, app_nil_r.
  - rewrite enumerated_in_app. assert (0 ≤ enumerated_in [e]); [|lia]. unfold enumerated_in. destruct e; cbn; lia.
Qed.

(** What is answered to a request. *)
Definition answers (q : app_request) (rs : list (app_response (Sym := symbol_info))) : Prop :=
  match q with
  | q_update => ∃ loaded nodes unloaded,
      rs = (if loaded is [] then [] else [a_loaded loaded]) ++ [a_statistics nodes] ++ (if unloaded is [] then [] else [a_unloaded unloaded])
  | _ => Forall (λ r, match r with a_statistics _ | a_loaded _ | a_unloaded _ => False | _ => True end) rs
  end.

Lemma request_sends snapshot q p p' : session p = true → run p (t_request snapshot q) = Ret p' →
  ∃ rs, sent p' = sent p ++ map m_response rs ∧ session p' = true ∧ answers q rs.
Proof using Type.
  intros Hp. cbn [serve_task]. unfold request_task. rewrite Hp.
  destruct (handle _ _ _ _ snapshot q (app_ p)) as [[a' rs]| |] eqn:E; [|done..]. cbn [mbind result_bind]. intros [= <-].
  exists rs. split; [done|]. split; [done|]. assert (q = q_update ∨ q ≠ q_update) as [->|Hq] by (by destruct q; [left|right..]).
  - cbn [handle] in E. unfold handle_update in E. destruct (get_changes _ _ _ _) as [[[l u] t]| |]; [|done..]. cbn [mbind result_bind] in E.
    injection E as _ <-. by exists l, (statistics <$> threads (analysis (app_ p))), u.
  - apply handle_other in E as (_ & _ & E); [|done]. by destruct q.
Qed.

Lemma responses_sent (ms : list (app_message (Sym := symbol_info))) rs : responses (drop (length ms) (ms ++ map m_response rs)) = rs.
Proof using Type. rewrite drop_app_length. unfold responses. induction rs as [|r rs IH]; [done|]. cbn. by f_equal. Qed.

(** The session of the collector answers under the token of the request. *)
Lemma serve_answers y rs (s : server_session) : in_u 64 y.1 → is_Some (handlers s !! request_id y.2) →
  serve (λ _ _, (rs, None)) (ask_bytes y) s =
    Ret (mk_server (handlers s) (has_queue s) (queued s) (outbound s ++ map (reply y.1) rs)).
Proof using LAWS.
  intros Ht [h Hh]. unfold serve, ask_bytes. rewrite id_roundtrip by (destruct y.2; cbn; unfold in_s; lia). cbn [mbind result_bind].
  rewrite token_roundtrip by done. cbn [mbind result_bind]. rewrite Hh. by rewrite respond_all.
Qed.

Lemma collector_answers q : handlers collector_session !! request_id q = Some (request_id q).
Proof using Type. by destruct q. Qed.

Lemma hear_ok snapshot write y x : handlers (server_ x) = handlers collector_session → in_u 64 y.1 → request_fits y.2 →
  hear snapshot write (ask_bytes y) x =
    (p ← run (process_ x) (t_request snapshot y.2);
     let rs := responses (drop (length (sent (process_ x))) (sent p)) in
     Ret (mk_exchange p
       (mk_server (handlers (server_ x)) (has_queue (server_ x)) (queued (server_ x))
         (outbound (server_ x) ++ map (reply y.1) (map (λ r, (response_id r, save_payload (payload_of write r))) rs)))
       (front_ x) (S (heard x)) (told x) (log_ x ++ map (λ r, o_response y.1 r (payload_of write r)) rs))).
Proof using LAWS.
  intros Hh Ht Hq. unfold hear.
  assert (get_id (ask_bytes y) = Ret (request_id y.2, put_token y.1 ++ save_request y.2)) as ->
    by (apply id_roundtrip; destruct y.2; cbn; unfold in_s; lia). cbn [mbind result_bind].
  rewrite token_roundtrip by done. cbn [mbind result_bind]. rewrite Hh, collector_answers.
  pose proof (request_roundtrip y.2 [] Hq) as Hr. rewrite app_nil_r in Hr. rewrite Hr. cbn [mbind result_bind].
  destruct (run (process_ x) (t_request snapshot y.2)) as [p| |]; [|done..]. cbn [mbind result_bind].
  rewrite serve_answers; [by rewrite Hh|done|rewrite Hh, collector_answers; by eexists].
Qed.

Lemma elem_of_needed k ms qs : k ∈ needed ms qs ↔ (∃ m, m ∈ ms ∧ k ∈ needed_by_message m) ∨ (∃ y, y ∈ qs ∧ k ∈ needed_by_request y).
Proof using Type. unfold needed. rewrite elem_of_app, !list_elem_of_bind. naive_solver. Qed.

Lemma needed_request_key k y : k ∈ needed_by_request y → (k.1 = 1 ∨ k.1 = 6) ∧ k.2 = y.1.
Proof using Type.
  destruct y as [t []]; cbn; try (by intros ?%elem_of_nil). intros [->|[->|?%elem_of_nil]%elem_of_cons]%elem_of_cons; cbn; auto. done.
Qed.

Lemma needed_message_key k t r p : k ∈ needed_by_message (o_response t r p) → (k.1 = 1 ∨ k.1 = 6) ∧ k.2 = t.
Proof using Type. destruct r; cbn; try (by intros ?%elem_of_nil); intros ->%list_elem_of_singleton; cbn; auto. Qed.

Lemma needed_key k ms qs : k ∈ needed ms qs → k.1 = 1 ∨ k.1 = 6.
Proof using Type.
  intros [(m & _ & Hk)|(y & _ & Hk)]%elem_of_needed; [|by apply needed_request_key in Hk as [Hk _]].
  destruct m as [|t r p|]; [by apply elem_of_nil in Hk| |by apply elem_of_nil in Hk]. by apply needed_message_key in Hk as [Hk _].
Qed.

Lemma settled_more ms new qs qs' : settled ms qs → (∀ k, k ∈ needed new qs' → k ∈ needed [] qs) → settled new qs' → settled (ms ++ new) qs'.
Proof using Type.
  intros Hms Hsub Hnew. assert (∀ k ms, k ∈ needed (ms ++ new) qs' → k ∈ needed ms qs) as Hall.
  { intros k ms' Hk. apply elem_of_needed in Hk. apply elem_of_needed. destruct Hk as [(m & [Hm|Hm]%elem_of_app & Hk)|(y & Hy & Hk)];
      [left; by exists m|right..];
      (assert (k ∈ needed [] qs) as Hk' by (apply Hsub, elem_of_needed; eauto);
       apply elem_of_needed in Hk' as [(? & ?%elem_of_nil & _)|?]; done). }
  induction ms as [|m ms IH]; [done|]. destruct Hms as [Hm Hms]. cbn [Datatypes.app settled]. split; [|by apply IH].
  destruct m as [|t [] p|]; try done. split; intros Hk; [apply (proj1 Hm)|apply (proj2 Hm)]; by apply Hall.
Qed.

(** A request that is heard makes way for what is answered. *)
Lemma heard_needs write y rs qs : answers y.2 rs → y.1 ∉ qs.*1 →
  let new := map (λ r, o_response y.1 r (payload_of write r)) rs in
  (∀ k, k ∈ needed new qs → k ∈ needed [] (y :: qs)) ∧ settled new qs.
Proof using Type.
  intros Hrs Hy. cbn zeta.
  assert (∀ i, (i, y.1) ∉ needed [] qs) as Hno.
  { intros i [(? & ?%elem_of_nil & _)|(y' & Hy' & [_ Hk]%needed_request_key)]%elem_of_needed; [done|]. cbn in Hk. apply Hy. rewrite Hk.
    by apply list_elem_of_fmap_2. }
  assert (∀ k r, r ∈ rs → k ∈ needed_by_message (o_response y.1 r (payload_of write r)) → k ∈ needed_by_request y) as Hone.
  { intros k r Hr Hk. destruct y as [t q]. cbn [fst snd] in *. destruct q; cbn [answers] in Hrs;
      try (rewrite Forall_forall in Hrs; specialize (Hrs _ Hr); destruct r; cbn in Hk; try done; by apply elem_of_nil in Hk).
    cbn [needed_by_request snd fst]. destruct r; cbn in Hk; try (by apply elem_of_nil in Hk); apply list_elem_of_singleton in Hk as ->; [by left|by right; left]. }
  split.
  - intros k [(m & (r & -> & Hr)%list_elem_of_fmap & Hk)|(y' & Hy' & Hk)]%elem_of_needed; apply elem_of_needed; right.
    + exists y. split; [by left|]. by apply (Hone k r).
    + exists y'. split; [by right|done].
  - destruct y as [t q]. cbn [fst snd] in *. destruct q; cbn [answers] in Hrs;
      try (clear Hone; induction Hrs as [|r rs Hr _ IH]; [done|]; split; [by destruct r|exact IH]).
    destruct Hrs as (l & n & u & ->). rewrite !map_app. cbn [map payload_of].
    destruct l, u; cbn [map Datatypes.app settled payload_of]; repeat split; try done; try (apply Hno);
      intros Hk%elem_of_needed; (destruct Hk as [(m & ->%list_elem_of_singleton & ?%elem_of_nil)|Hk]; [done|]);
      (eapply Hno; apply elem_of_needed; by right).
Qed.

(** * One event after another *)

Lemma len_snoc {T} (l : list T) x : len (l ++ [x]) = len l + 1.
Proof using Type. rewrite length_app. cbn [length]. lia. Qed.

Lemma front_ok_snoc (es : list exchange_event) e f : front_ok (len es) f → front_ok (len (es ++ [e])) f.
Proof using Type. intros []. split; try done. rewrite len_snoc. lia. Qed.

Lemma meet_linked a : linked a [] (meet a).
Proof using LAWS.
  split; try done.
  - by exists [].
  - cbn. by constructor.
  - cbn. lia.
  - cbn. by constructor.
  - split; [split; [done|]; by intros id t cb|done|done|by intros id t cb|by left].
  - exists []. by repeat split.
  - exists []. split; [done|constructor|done|by intros k ?%elem_of_nil|by split].
Qed.

(** The process works without the front-end. *)
Lemma linked_works a es x e p : linked a es x → works a (es ++ [e]) p → session p = session (process_ x) && negb (is_loss e) →
  sent p = sent (process_ x) → linked a (es ++ [e]) (mk_exchange p (server_ x) (front_ x) (heard x) (told x) (log_ x)).
Proof using LAWS.
  intros [] Hw Hs Hsent. split; cbn [process_ server_ front_ heard told log_]; try done; [by rewrite lasts_snoc, <- li_here0|by rewrite Hsent| |].
  - by apply front_ok_snoc.
  - destruct li_asked0 as [qs []]. by exists qs.
Qed.

Lemma linked_collect a es x reads x' : linked a es x → exchange_step fuel x (x_collect reads) = Ret x' → linked a (es ++ [x_collect reads]) x'.
Proof using LAWS.
  intros Hx. cbn [exchange_step]. destruct (run (process_ x) (t_collect reads)) as [p| |] eqn:E; [|done..]. cbn [mbind result_bind]. intros [= <-].
  pose proof E as E'. cbn [serve_task] in E'. unfold collect_and_reschedule in E'.
  destruct (collect_calls _ _ _) as [a'| |]; [|done..]. injection E' as E'.
  apply linked_works; [done| |rewrite <- E'; cbn; by rewrite andb_true_r|by rewrite <- E'].
  apply (works_more a es _ _ p _ (li_works _ _ _ Hx) E); [done| |done]. intros tid here. cbn [thread_ops collected]. rewrite !app_nil_r.
  unfold batches. by rewrite map_map.
Qed.

Lemma linked_lose a es x x' : linked a es x → exchange_step fuel x x_lose = Ret x' → linked a (es ++ [x_lose]) x'.
Proof using LAWS.
  intros Hx. cbn [exchange_step]. destruct (run (process_ x) t_disconnected) as [p| |] eqn:E; [|done..]. cbn [mbind result_bind]. intros [= <-].
  pose proof E as E'. cbn [serve_task] in E'. unfold frontend_disconnected in E'. injection E' as E'.
  apply linked_works; [done| |rewrite <- E'; cbn; by rewrite andb_false_r|by rewrite <- E'].
  by apply (works_more a es _ _ p _ (li_works _ _ _ Hx) E).
Qed.

(** A message of the process is sent, that nothing is needed for. *)
Lemma linked_exit a es x reads x' : linked a es x → exchange_step fuel x (x_exit reads) = Ret x' → linked a (es ++ [x_exit reads]) x'.
Proof using LAWS.
  intros Hx. cbn [exchange_step]. destruct (run (process_ x) (t_exit reads)) as [p| |] eqn:E; [|done..]. cbn [mbind result_bind].
  assert (works a (es ++ [x_exit reads]) p) as Hw.
  { apply (works_more a es _ _ p _ (li_works _ _ _ Hx) E); [done| |done]. intros tid here. cbn [thread_ops collected]. rewrite !app_nil_r.
    destruct here; [|done]. unfold batches. by rewrite map_map. }
  pose proof E as E'. cbn [serve_task] in E'. unfold exit_task in E'.
  destruct (session (process_ x)) eqn:Hhere; intros [= <-]; last first.
  { cbn [mbind result_bind] in E'. apply Ret_inj in E'. apply linked_works; [done..| |]; rewrite <- E'; cbn; [|done]. by rewrite Hhere. }
  unfold finalize_session in E'. destruct (collect_calls _ _ _) as [a'| |]; [|done..]. cbn [mbind result_bind] in E'. apply Ret_inj in E'.
  destruct Hx. split; cbn [process_ server_ front_ heard told log_]; try done.
  - rewrite <- E', lasts_snoc, <- li_here0. cbn. by rewrite Hhere.
  - unfold send_exiting, send. cbn [outbound]. by rewrite li_outbound0, map_app.
  - rewrite <- E'. cbn [sent]. by rewrite li_sent0, map_app.
  - apply Forall_app. split; [done|]. by constructor.
  - rewrite length_app. lia.
  - apply Forall_app. split; [done|]. by constructor.
  - by apply front_ok_snoc.
  - by rewrite take_app_le.
  - destruct li_asked0 as [qs [H1 H2 H3 H4 H5]]. exists qs. split; cbn [heard front_ told log_]; try done; rewrite drop_app_le by done.
    + intros k [(m & [Hm| ->%list_elem_of_singleton]%elem_of_app & Hk)|Hk]%elem_of_needed; [|by apply elem_of_nil in Hk|].
      * apply H4, elem_of_needed. left. by exists m.
      * apply H4, elem_of_needed. by right.
    + apply (settled_more _ _ qs qs); [done| |done]. intros k [(m & ->%list_elem_of_singleton & ?%elem_of_nil)|Hk]%elem_of_needed; [done|].
      apply elem_of_needed. by right.
Qed.

Lemma settled_ask c ms qs q : settled ms qs → Forall (token_below c) ms → settled ms (qs ++ [(Sessions.token c, q)]).
Proof using LAWS.
  intros Hms Hc. induction Hc as [|m ms Hm Hc IH]; [done|]. destruct Hms as [Hm' Hms]. split; [|by apply IH].
  assert (∀ i t, t < Sessions.token c → (i, t) ∉ needed ms qs → (i, t) ∉ needed ms (qs ++ [(Sessions.token c, q)])) as Hno.
  { intros i t Ht Hn [Hk|(y & [Hy| ->%list_elem_of_singleton]%elem_of_app & Hk)]%elem_of_needed;
      [apply Hn, elem_of_needed; by left|apply Hn, elem_of_needed; right; by exists y|]. apply needed_request_key in Hk as [_ Hk]. cbn in Hk. lia. }
  destruct m as [|t [] p|]; try done. destruct Hm as [_ Ht]. split; apply Hno; (done || apply Hm').
Qed.

Lemma asks_token f f' : asks f f' → Sessions.token (client f) ≤ Sessions.token (client f').
Proof using LAWS. intros [(_ & _ & ->)|(q & _ & _ & _ & -> & _)]; lia. Qed.

Lemma tokens_more (c c' : client_session) ms : Sessions.token c ≤ Sessions.token c' → Forall (token_below c) ms → Forall (token_below c') ms.
Proof using LAWS. intros Hc Hms. eapply Forall_impl; [exact Hms|]. intros [|t r p|]; cbn; [done| |done]. intros [? ?]. split; [done|lia]. Qed.

(** The front-end does something: it has been told all of [skipped] since. *)
Lemma under_way_front x qs skipped x' : under_way x qs → (heard x ≤ length (asks_ (front_ x)))%nat → client_ok (client (front_ x)) →
  heard x' = heard x → asks (front_ x) (front_ x') → Forall (token_below (client (front_ x))) (log_ x') →
  drop (told x) (log_ x) = skipped ++ drop (told x') (log_ x') →
  (∀ k, is_Some (callbacks (client (front_ x)) !! k) → k ∈ needed (drop (told x') (log_ x')) qs → is_Some (callbacks (client (front_ x')) !! k)) →
  ∃ qs', under_way x' qs'.
Proof using LAWS.
  intros [H1 H2 H3 H4 H5] Hheard [Htok _] Hh Ha Hlog Hskip Hkeep. set (ms := drop (told x') (log_ x')) in *.
  assert (settled ms qs) as Hset.
  { rewrite Hskip in H5. clear -H5. induction skipped as [|m l IH]; [done|]. apply IH, H5. }
  assert (∀ k, k ∈ needed ms qs → is_Some (callbacks (client (front_ x')) !! k)) as Hneed.
  { intros k Hk. apply Hkeep; [|done]. apply H4. rewrite Hskip. apply elem_of_needed. apply elem_of_needed in Hk as [(m & Hm & Hk)|?]; [left|by right].
    exists m. split; [|done]. apply elem_of_app. by right. }
  pose proof (asks_token _ _ Ha) as Hle.
  assert (Forall (λ y, in_u 64 y.1 ∧ y.1 < Sessions.token (client (front_ x')) ∧ request_fits y.2) qs) as Hfits.
  { eapply Forall_impl; [exact H3|]. intros y (? & ? & ?). split; [done|]. split; [lia|done]. }
  destruct Ha as [(_ & Ho & _)|(q & Hq & _ & Ho & Ht & Hn)].
  - exists qs. by split; rewrite ?Hh, ?Ho.
  - exists (qs ++ [(Sessions.token (client (front_ x)), q)]). split.
    + by rewrite Hh, Ho, drop_app_le, H1 by done.
    + rewrite fmap_app. apply NoDup_app. split; [done|]. split; [|apply NoDup_singleton].
      intros t (y & -> & Hy)%list_elem_of_fmap E%list_elem_of_singleton. rewrite Forall_forall in H3. destruct (H3 _ Hy) as (_ & ? & _). cbn in E. lia.
    + apply Forall_app. split; [done|]. constructor; [|done]. cbn. split; [done|]. split; [lia|done].
    + intros k [Hk|(y & [Hy| ->%list_elem_of_singleton]%elem_of_app & Hk)]%elem_of_needed;
        [apply Hneed, elem_of_needed; by left|apply Hneed, elem_of_needed; right; by exists y|by apply Hn].
    + apply settled_ask; [done|]. unfold ms. by apply Forall_drop.
Qed.

(** The front-end asks on its own, or lets something go that is not needed. *)
Lemma linked_front a es x e f : linked a es x → is_loss e = false → (∀ tid here, collected tid here [e] = []) → front_ok (len es + 1) f → fe_ f = fe_ (front_ x) →
  asks (front_ x) f → (∀ k, k.1 = 1 ∨ k.1 = 6 → is_Some (callbacks (client (front_ x)) !! k) → is_Some (callbacks (client f) !! k)) →
  linked a (es ++ [e]) (with_front f x).
Proof using LAWS.
  intros [] Hloss He Hf Htab Ha Hk. pose proof (asks_token _ _ Ha) as Hle. destruct li_asked0 as [qs Hqs].
  assert (Forall (token_below (client f)) (log_ x)) as Htok by by apply (tokens_more (client (front_ x))).
  split; cbn [process_ server_ front_ heard told log_ with_front]; rewrite ?Htab; try done.
  - by apply works_idle.
  - by rewrite lasts_snoc, Hloss, andb_true_r.
  - destruct Ha as [[-> _]|(q & _ & -> & _)]; [done|]. rewrite length_app. lia.
  - destruct Ha as [(-> & -> & _)|(q & _ & -> & -> & _)]; [done|]. by rewrite map_app, li_requests0.
  - by rewrite len_snoc.
  - apply (under_way_front x qs [] (with_front f x)); try done; [by rewrite li_requests0, length_map in li_heard0|apply li_front0|]. intros k Hs Hn. apply Hk; [|done]. by apply needed_key in Hn.
Qed.

Lemma linked_ask a es x q x' : linked a es x → len es < 2 ^ 64 - 2 → request_fits q → exchange_step fuel x (x_ask q) = Ret x' →
  linked a (es ++ [x_ask q]) x'.
Proof using LAWS.
  intros Hx Hn Hq [= <-]. pose proof (li_front _ _ _ Hx) as Hf.
  destruct (ask_request_asked (len es) q (front_ x) Hf Hn) as [->|Ha]; apply linked_front; try done.
  - destruct Hf. split; try done. lia.
  - by left.
  - apply Ha.
  - apply Ha.
  - destruct Ha. right. exists q. done.
  - intros k _ [y Hy]. pose proof (as_keeps _ _ _ _ Ha) as Hk. rewrite map_subseteq_spec in Hk. exists y. by apply Hk.
Qed.

Lemma linked_forget a es x tok x' : linked a es x → exchange_step fuel x (x_forget tok) = Ret x' → linked a (es ++ [x_forget tok]) x'.
Proof using LAWS.
  intros Hx. pose proof (li_front _ _ _ Hx) as Hf. cbn [exchange_step].
  assert (front_ok (len es + 1) (front_ x)) as Hf' by (destruct Hf; split; try done; lia).
  destruct (callbacks (client (front_ x)) !! (4, tok)) as [cb|] eqn:E.
  - destruct (let_go_entry _ 4 tok _ Hf' ltac:(by eexists) ltac:(done) ltac:(done)) as [Hl Hok]. rewrite Hl. cbn [mbind result_bind].
    intros [= <-]. apply linked_front; try done; [by left|]. intros [i t] [Hi|Hi]; cbn in Hi |- *; by rewrite lookup_delete_ne by congruence.
  - intros [= <-]. replace x with (with_front (front_ x) x) at 1 by by destruct x. apply linked_front; try done. by left.
Qed.

(** The answers are what was sent of them. *)
Lemma answers_logged write tok (p p' : app_server) rs : Forall nodes_ok (statistics_sent (sent p')) → sent p' = sent p ++ map m_response rs →
  (∀ nodes, nodes_ok nodes → carries (write nodes) nodes) → Forall logged (map (λ r, o_response tok r (payload_of write r)) rs).
Proof using Type.
  intros Hn Hs Hw. rewrite Hs in Hn. unfold statistics_sent in Hn. rewrite omap_app in Hn. apply Forall_app in Hn as [_ Hn].
  clear Hs. induction rs as [|r rs IH]; [done|]. cbn [map] in Hn |- *.
  destruct r; cbn in Hn; try (constructor; [done|by apply IH]).
  apply Forall_cons in Hn as [Hn0 Hn]. constructor; [|by apply IH]. split; [done|]. eexists. split; [done|by apply Hw].
Qed.

Lemma linked_heard a es x e write y qs rs p : linked a es x → under_way x (y :: qs) → works a (es ++ [e]) p → session p = lasts (es ++ [e]) →
  sent p = sent (process_ x) ++ map m_response rs → answers y.2 rs →
  let new := map (λ r, o_response y.1 r (payload_of write r)) rs in Forall logged new →
  linked a (es ++ [e]) (mk_exchange p
    (mk_server (handlers (server_ x)) (has_queue (server_ x)) (queued (server_ x))
      (outbound (server_ x) ++ map (reply y.1) (map (λ r, (response_id r, save_payload (payload_of write r))) rs)))
    (front_ x) (S (heard x)) (told x) (log_ x ++ new)).
Proof using LAWS.
  intros Hx [Hq1 Hq2 Hq3 Hq4 Hq5] Hworks Hhere Hsent Hrs new Hnew. destruct Hx. apply NoDup_cons in Hq2 as [Hyn Hq2].
  apply Forall_cons in Hq3 as [(Hy1 & Hy2 & Hy3) Hq3]. destruct (heard_needs write y rs qs Hrs Hyn) as [Hn1 Hn2]. cbn zeta in Hn1, Hn2. fold new in Hn1, Hn2.
  assert (drop (S (heard x)) (asks_ (front_ x)) = qs) as Hd.
  { rewrite <- Nat.add_1_r, <- drop_drop, Hq1. done. }
  split; cbn [process_ server_ front_ heard told log_ handlers outbound]; try done.
  - rewrite li_outbound0, map_app. f_equal. unfold new. rewrite !map_map. apply map_ext. intros r. by destruct r.
  - rewrite Hsent, li_sent0, map_app. f_equal. unfold new. by rewrite map_map.
  - by apply Forall_app.
  - rewrite length_app. lia.
  - assert (length (drop (heard x) (asks_ (front_ x))) = S (length qs)) as Hlen by (by rewrite Hq1).
    rewrite length_drop in Hlen. rewrite li_requests0, length_map. lia.
  - apply Forall_app. split; [done|]. apply Forall_map, Forall_forall. intros r _. by split.
  - by apply front_ok_snoc.
  - by rewrite take_app_le.
  - exists qs. split; cbn [heard front_ told log_]; try done; rewrite drop_app_le by done.
    + intros k [(m & [Hm|Hm]%elem_of_app & Hk)|Hk]%elem_of_needed; apply Hq4.
      * apply elem_of_needed. left. by exists m.
      * assert (k ∈ needed [] (y :: qs)) as Hk' by (apply Hn1, elem_of_needed; left; by exists m).
        apply elem_of_needed in Hk' as [(? & ?%elem_of_nil & _)|Hk']; [done|]. apply elem_of_needed. by right.
      * destruct Hk as (y' & Hy' & Hk). apply elem_of_needed. right. exists y'. split; [by right|done].
    + by apply (settled_more _ _ (y :: qs) qs).
Qed.

(** What comes to the collector is what the front-end asked. *)
Lemma next_request a es x bytes : linked a es x → outgoing_ (front_ x) !! heard x = Some bytes →
  ∃ y, asks_ (front_ x) !! heard x = Some y ∧ bytes = ask_bytes y.
Proof using Type. intros Hx. rewrite (li_requests _ _ _ Hx), list_lookup_fmap. intros (y & Hy & ->)%fmap_Some. by exists y. Qed.

(** The process is asked, and its answers are sent. *)
Lemma linked_hear o a es x snapshot write x' : analysis a = new_analyzer o → linked a es x →
  (∀ nodes, nodes_ok nodes → carries (write nodes) nodes) →
  exchange_step fuel x (x_hear snapshot write) = Ret x' → linked a (es ++ [x_hear snapshot write]) x'.
Proof using LAWS.
  intros Ha Hx Hw. pose proof (front_ok_snoc es (x_hear snapshot write) _ (li_front _ _ _ Hx)) as Hf'. cbn [exchange_step].
  assert (∀ tid here, collected tid here [x_hear snapshot write] = []) as Hc by done.
  assert (linked a (es ++ [x_hear snapshot write]) x) as Hidle.
  { destruct Hx. split; try done; [by apply works_idle|by rewrite lasts_snoc, andb_true_r]. }
  destruct (session (process_ x)) eqn:Hhere; [|by intros [= <-]].
  destruct (outgoing_ (front_ x) !! heard x) as [bytes|] eqn:Hb; [|by intros [= <-]]. destruct (li_asked _ _ _ Hx) as [qs0 Hqs].
  destruct (next_request a es x bytes Hx Hb) as (y & Hy & ->). pose proof (drop_S _ _ _ Hy) as Hd. rewrite (uw_sent _ _ Hqs) in Hd.
  rewrite Hd in Hqs. pose proof (uw_fits _ _ Hqs) as (Hy1 & Hy2 & Hy3)%Forall_inv.
  rewrite hear_ok by (done || apply Hx). destruct (run (process_ x) (t_request snapshot y.2)) as [p| |] eqn:E; [|done..].
  cbn [mbind result_bind]. destruct (request_sends _ _ _ _ Hhere E) as (rs & Hsent & Hhere' & Hrs).
  rewrite Hsent, responses_sent. intros [= <-].
  assert (works a (es ++ [x_hear snapshot write]) p) as Hworks.
  { apply (works_more a es _ _ p _ (li_works _ _ _ Hx) E); [done| |cbn; lia]. intros tid here. destruct y.2, here; done. }
  apply (linked_heard a es x _ write y _ rs p Hx Hqs Hworks); [by rewrite lasts_snoc, <- (li_here _ _ _ Hx), Hhere|done..|].
  apply (answers_logged write y.1 (process_ x) p); try done.
  destruct Hworks as (tasks & Hrun & _). by apply (sent_server_ok junk file_id file accessor load_image_info o a tasks p Ha Hrun).
Qed.

(** The ranges of what is sent, and room for the records it makes. *)
Definition log_fits (ms : list told_message) : Prop := Forall told_fits ms ∧ messages_size (graphs_of_log ms) < 2 ^ 32 - 1.

Lemma log_fits_take n ms : log_fits ms → log_fits (take n ms).
Proof using Type.
  intros [H1 H2]. split; [by apply Forall_take|]. rewrite <- (take_drop n ms) in H2. unfold graphs_of_log in *.
  rewrite omap_app, messages_size_app in H2. pose proof (messages_size_pos (omap (λ m, match m with o_response _ _ (p_statistics w) => Some w | _ => None end) (drop n ms))).
  lia.
Qed.

(** Telling never fails. *)
Lemma tell_goes_on a es x m : linked a es x → len es < 2 ^ 64 - 2 → init_fits init_data → log_fits (log_ x) → log_ x !! told x = Some m →
  ∃ f, tell fuel (told_bytes m) (front_ x) = Ret f ∧ progress (len es) (front_ x) (take (told x) (log_ x)) m f.
Proof using LAWS.
  intros [] Hn Hi Hfit Hm. pose proof (log_fits_take (S (told x)) _ Hfit) as [Hf1 Hf2]. rewrite (take_S_r _ _ _ Hm) in Hf1, Hf2.
  pose proof (Forall_take logged (S (told x)) _ li_logged0) as Hlog. rewrite (take_S_r _ _ _ Hm) in Hlog.
  pose proof (Forall_lookup_1 _ _ _ _ li_tokens0 Hm) as Htok.
  destruct m as [|t r p|]; [by apply tell_init| |by apply tell_exiting].
  destruct li_asked0 as [qs []]. apply tell_response; try done.
  - apply Forall_app in Hf1 as [_ Hf1]. by apply Forall_inv in Hf1.
  - apply Htok.
  - intros k Hk. apply uw_needed0. rewrite (drop_S _ _ _ Hm). apply elem_of_needed. left. exists (o_response t r p). split; [by left|done].
Qed.

Lemma linked_tell a es x x' : linked a es x → len es < 2 ^ 64 - 2 → init_fits init_data → log_fits (log_ x) →
  exchange_step fuel x x_tell = Ret x' → linked a (es ++ [x_tell]) x'.
Proof using LAWS.
  intros Hx Hn Hi Hfit. cbn [exchange_step]. rewrite (li_outbound _ _ _ Hx), list_lookup_fmap.
  pose proof (works_idle a es (process_ x) x_tell (li_works _ _ _ Hx) ltac:(done) ltac:(done)) as Hworks.
  assert (lasts (es ++ [x_tell]) = lasts es) as Hlasts by by rewrite lasts_snoc, andb_true_r.
  assert (linked a (es ++ [x_tell]) x) as Hidle by (destruct Hx; split; try done; [by rewrite Hlasts|by apply front_ok_snoc]).
  destruct (session (process_ x)); [|by intros [= <-]].
  destruct (log_ x !! told x) as [m|] eqn:Hm; cbn [fmap option_fmap option_map]; [|by intros [= <-]].
  destruct (tell_goes_on a es x m Hx Hn Hi Hfit Hm) as (f & Hf & [P1 P2 P3 P4 P5]). rewrite Hf. cbn [mbind result_bind]. intros [= <-].
  destruct Hx. pose proof (asks_token _ _ P4) as Hle. destruct li_asked0 as [qs Hqs].
  split; cbn [process_ server_ front_ heard told log_]; try done.
  - by rewrite Hlasts.
  - apply lookup_lt_Some in Hm. lia.
  - destruct P4 as [[-> _]|(q & _ & -> & _)]; [done|]. rewrite length_app. lia.
  - destruct P4 as [(-> & -> & _)|(q & _ & -> & -> & _)]; [done|]. by rewrite map_app, li_requests0.
  - by apply (tokens_more (client (front_ x))).
  - by rewrite len_snoc.
  - by rewrite (take_S_r _ _ _ Hm).
  - apply (under_way_front x qs [m]); try done; [by rewrite li_requests0, length_map in li_heard0|apply li_front0|by rewrite (drop_S _ _ _ Hm)|]. cbn [told log_ front_].
    intros k Hk Hneed. apply P5; [done|by apply needed_key in Hneed|]. intros t nodes p -> <-. pose proof (uw_settled _ _ Hqs) as Hset.
    rewrite (drop_S _ _ _ Hm) in Hset. destruct Hset as [[H1 H6] _]. destruct k as [i t]. cbn in *.
    destruct (needed_key _ _ _ Hneed) as [E|E]; cbn in E; subst i; done.
Qed.

(** What becomes of the next request. *)
Lemma heard_request a es x bytes : linked a es x → session (process_ x) = true → outgoing_ (front_ x) !! heard x = Some bytes →
  ∃ y, asks_ (front_ x) !! heard x = Some y ∧ request_fits y.2 ∧ ∀ snapshot write,
    match run (process_ x) (t_request snapshot y.2) with
    | Ret p => ∃ x' rs, exchange_step fuel x (x_hear snapshot write) = Ret x' ∧ process_ x' = p ∧ front_ x' = front_ x ∧
        sent p = sent (process_ x) ++ map m_response rs ∧
        outbound (server_ x') = outbound (server_ x) ++ map (λ r, reply y.1 (response_id r, save_payload (payload_of write r))) rs
    | Throw e => exchange_step fuel x (x_hear snapshot write) = Throw e
    | UB => exchange_step fuel x (x_hear snapshot write) = UB
    end.
Proof using LAWS.
  intros Hx Hhere Hb. destruct (li_asked _ _ _ Hx) as [qs Hqs]. destruct (next_request a es x bytes Hx Hb) as (y & Hy & ->).
  pose proof (drop_S _ _ _ Hy) as Hd. rewrite (uw_sent _ _ Hqs) in Hd. pose proof (uw_fits _ _ Hqs) as Hfits. rewrite Hd in Hfits.
  apply Forall_inv in Hfits as (Hy1 & _ & Hy3). exists y. split; [done|]. split; [done|]. intros snapshot write.
  cbn [exchange_step]. rewrite Hhere, Hb, hear_ok by (done || apply Hx).
  destruct (run (process_ x) (t_request snapshot y.2)) as [p| |] eqn:E; [|done..]. cbn [mbind result_bind].
  destruct (request_sends _ _ _ _ Hhere E) as (rs & Hsent & _ & _). eexists _, rs. split; [done|].
  cbn [process_ server_ front_ outbound]. by rewrite Hsent, responses_sent, map_map.
Qed.

(** * Both ends *)

Lemma step_log x e x' : exchange_step fuel x e = Ret x' → ∃ ms, log_ x' = log_ x ++ ms.
Proof using Type.
  destruct e as [reads|reads|q|tok| |snapshot write|]; cbn [exchange_step].
  - destruct (run _ _); [|done..]. intros [= <-]. exists []. by rewrite app_nil_r.
  - destruct (run _ _); [|done..]. intros [= <-]. destruct (session _); [by eexists|exists []; by rewrite app_nil_r].
  - intros [= <-]. exists []. by rewrite app_nil_r.
  - destruct (_ !! _); [destruct (let_go _ _); [|done..]|]; intros [= <-]; exists []; by rewrite app_nil_r.
  - destruct (run _ _); [|done..]. intros [= <-]. exists []. by rewrite app_nil_r.
  - destruct (if session _ then _ else _) as [bytes|]; [|intros [= <-]; exists []; by rewrite app_nil_r]. unfold hear.
    destruct (get_id bytes) as [[id rest]| |]; [|done..]. cbn [mbind result_bind]. destruct (get_token rest) as [[tok body]| |]; [|done..].
    cbn [mbind result_bind]. destruct (handlers _ !! id) as [h|]; [|intros [= <-]; exists []; by rewrite app_nil_r].
    destruct (load_request h body) as [q| |]; [|done..]. cbn [mbind result_bind]. destruct (run _ _) as [p| |]; [|done..]. cbn [mbind result_bind].
    destruct (serve _ _ _); [|done..]. intros [= <-]. by eexists.
  - destruct (if session _ then _ else _) as [bytes|]; [|intros [= <-]; exists []; by rewrite app_nil_r]. destruct (tell _ _ _); [|done..]. intros [= <-].
    exists []. by rewrite app_nil_r.
Qed.

Lemma run_linked o a es : analysis a = new_analyzer o → init_fits init_data → ∀ x, len es < 2 ^ 64 - 2 → Forall event_fits es →
  fold_m (exchange_step fuel) (meet a) es = Ret x → log_fits (log_ x) → linked a es x.
Proof using LAWS.
  intros Ha Hi. induction es as [|e es IH] using rev_ind; intros x Hn He Hr Hfit.
  { apply Ret_inj in Hr as <-. apply meet_linked. }
  rewrite fold_m_app in Hr. destruct (fold_m _ _ es) as [x1| |]; [|done..]. cbn [mbind result_bind fold_m] in Hr.
  destruct (exchange_step fuel x1 e) as [x2| |] eqn:E; [|done..]. apply Ret_inj in Hr as ->. apply Forall_app in He as [He1 He2%Forall_inv].
  destruct (step_log _ _ _ E) as [ms Hms]. rewrite len_snoc in Hn.
  assert (log_fits (log_ x1)) as Hfit1 by (rewrite Hms in Hfit; apply (log_fits_take (length (log_ x1))) in Hfit; by rewrite take_app_length in Hfit).
  pose proof (IH x1 ltac:(lia) He1 eq_refl Hfit1) as Hx. assert (len es < 2 ^ 64 - 2) by lia. destruct e as [reads|reads|q|tok| |snapshot write|].
  - by apply (linked_collect a es x1).
  - by apply (linked_exit a es x1).
  - by apply (linked_ask a es x1).
  - by apply (linked_forget a es x1).
  - by apply (linked_lose a es x1).
  - by apply (linked_hear o a es x1).
  - by apply (linked_tell a es x1).
Qed.

(** C3: Whatever happens, in whatever order, on the two sides and between them, the loss of the connection with what is under
    way included: the front-end never fails on what it is told.  What the collector takes next is the next request that
    the front-end made: its process is given that request, the collector fails where the process does, and otherwise sends
    what the process answers, under the token of the request.  And when all that was sent has been told, the tables of the
    front-end have every module that the process is known to have, every thread that statistics were sent of, and along
    every path of every thread the statistics that analyzing at once all that was collected of it gives, less what is not
    sent yet.  Values are in the ranges of their types, those of the requests and those that are sent; there are fewer than
    2^64 - 2 events, and identifiers are left for the modules and for the records of the table of calls; the graphs of
    statistics are written with callers before what they call. *)
Theorem exchange_mirrors o a es x :
  analysis a = new_analyzer o → tracker a = new_tracker → init_fits init_data → len es < 2 ^ 64 - 2 → enumerated_in es < 2 ^ 32 - 2 →
  Forall event_fits es → fold_m (exchange_step fuel) (meet a) es = Ret x → log_fits (log_ x) →
  returns (exchange_step fuel x x_tell) ∧
  (∀ bytes, session (process_ x) = true → outgoing_ (front_ x) !! heard x = Some bytes →
    ∃ y, asks_ (front_ x) !! heard x = Some y ∧ request_fits y.2 ∧ ∀ snapshot write,
      match run (process_ x) (t_request snapshot y.2) with
      | Ret p => ∃ x' rs, exchange_step fuel x (x_hear snapshot write) = Ret x' ∧ process_ x' = p ∧ front_ x' = front_ x ∧
          sent p = sent (process_ x) ++ map m_response rs ∧
          outbound (server_ x') = outbound (server_ x) ++ map (λ r, reply y.1 (response_id r, save_payload (payload_of write r))) rs
      | Throw e => exchange_step fuel x (x_hear snapshot write) = Throw e
      | UB => exchange_step fuel x (x_hear snapshot write) = UB
      end) ∧
  (told x = length (outbound (server_ x)) → let t := fe_ (front_ x) in
    (∀ id i m, mapped (tracker (app_ (process_ x))) id (i, m) → record_of i (fe_mappings t) = Some m) ∧
    (∀ nodes tid, nodes ∈ statistics_sent (sent (process_ x)) → is_Some (nodes !! tid) → thread_known tid (fe_threads t)) ∧
    ∀ tid, ∃ shown ss,
      (∀ p x, stats_at (find_call (fe_calls t)) tid p x = shown !! (p ++ [x])) ∧
      update (shadow_stack_new o junk) (collected_of tid es) ∅ =
        Ret (ss, merge_nodes shown (statistics (thread_of junk tid (analysis (app_ (process_ x))))))).
Proof using LAWS.
  intros Ha Ht Hi Hn Hroom He Hr Hfit. pose proof (run_linked o a es Ha Hi x Hn He Hr Hfit) as Hx. split; [|split].
  - cbn [exchange_step]. destruct (session (process_ x)); [|done]. rewrite (li_outbound _ _ _ Hx), list_lookup_fmap.
    destruct (log_ x !! told x) as [m|] eqn:Hm; [|done].
    cbn [fmap option_fmap option_map]. by destruct (tell_goes_on a es x m Hx Hn Hi Hfit Hm) as (f & -> & _).
  - intros bytes Hhere Hb. by apply (heard_request a es x bytes).
  - intros Htold. cbn zeta. destruct Hx. rewrite li_outbound0, length_map in Htold. rewrite Htold, take_ge in li_tables0 by done.
    destruct li_tables0 as (xs & H1 & H2 & H3 & H4). destruct (log_graphs _ li_logged0) as (nodes & G1 & _ & G3).
    rewrite <- li_sent0 in G3. destruct li_works0 as (tasks & Hrun & _ & Hops & Hen).
    destruct (mirrored junk file_id file accessor load_image_info o a tasks (process_ x) xs (fe_ (front_ x))) as (M1 & M2 & M3); try done.
    + lia.
    + by rewrite H3, G3.
    + rewrite H3. apply Hfit.
    + rewrite H4, li_sent0. unfold loaded_of_log, responses. clear. induction (log_ x) as [|m ms IH]; [done|]. cbn.
      destruct m as [|t [] p|]; cbn; rewrite ?IH; done.
    + split; [done|]. split; [done|]. intros tid. rewrite <- Hops. apply M3.
Qed.
End exchange.

(** * A session of both *)

(** An archive of numbers: a text is the codes of its characters behind their number. *)
Definition number_num (a : list Z) : result (Z * list Z) := match a with z :: a => Ret (z, a) | [] => Throw runtime_error end.
Definition number_codes (s : string) : list Z := map (λ c, Z.of_N (Ascii.N_of_ascii c)) (String.list_ascii_of_string s).
Definition number_text (a : list Z) : result (string * list Z) :=
  match a with
  | n :: a => Ret (String.string_of_list_ascii (map (λ z, Ascii.ascii_of_N (Z.to_N z)) (take (Z.to_nat n) a)), drop (Z.to_nat n) a)
  | [] => Throw runtime_error
  end.

#[export] Instance number_archive : strmd Z := plain_strmd (λ z, [z]) number_num (λ s, len (number_codes s) :: number_codes s) number_text.

#[export] Instance number_laws : strmd_laws Z.
Proof.
  apply plain_laws; [done|]. intros s rest. cbn [Datatypes.app number_text]. rewrite Nat2Z.id, take_app_length, drop_app_length.
  unfold number_codes. rewrite map_map.
  assert (map (λ c, Ascii.ascii_of_N (Z.to_N (Z.of_N (Ascii.N_of_ascii c)))) (String.list_ascii_of_string s) = String.list_ascii_of_string s) as ->.
  { rewrite <- (map_id (String.list_ascii_of_string s)) at 2. apply map_ext. intros c. rewrite N2Z.id. apply Ascii.ascii_N_embedding. }
  by rewrite String.string_of_list_ascii_of_string.
Qed.

Definition demo_init : initialization_data := mk_initialization "prog" 1000 0.

Definition demo_events : list exchange_event :=
  [x_collect [(1, [mk_record 10 7; mk_record 20 8])]; x_tell; x_ask q_update; x_hear demo_snapshot write_statistics; x_tell; x_tell;
   x_collect [(1, [mk_record 30 0])]; x_hear [] write_statistics; x_ask (q_apply 1 [0; 0x100]); x_ask (q_metadata 2); x_tell;
   x_hear [] write_statistics; x_hear [] write_statistics; x_forget 4; x_tell; x_tell; x_ask q_update;
   x_hear [mk_mapped "b.so" 8192] write_statistics; x_exit [(1, [mk_record 50 0])]; x_tell; x_tell; x_tell; x_tell;
   x_hear [] write_statistics; x_hear [] write_statistics; x_tell; x_tell; x_tell;
   x_lose; x_hear [] write_statistics; x_collect [(1, [mk_record 60 7])]; x_exit [(1, [mk_record 70 0])]; x_tell].

Abbreviation demo_exchange_run :=
  (exchange_step (po := demo_function_patches) demo_junk (λ p : string, p) demo_file demo_accessor demo_symbols 2).

Definition demo_meet := meet (F := string) demo_init demo_app.
Definition demo_exchange := match fold_m demo_exchange_run demo_meet demo_events with Ret x => x | _ => demo_meet end.

Lemma demo_exchange_eq : fold_m demo_exchange_run demo_meet demo_events = Ret demo_exchange.
Proof.
  assert (returns (fold_m demo_exchange_run demo_meet demo_events)) as Hr by (vm_compute; exact I).
  unfold demo_exchange. by destruct (fold_m _ _ _).
Qed.

(** All that was sent was told: the modules, the second of which stays; the statistics, twice on the way and when the process
    ended; what was patched; the metadata were let go of before they came.  One request is under way when the connection is
    lost, and is not heard. *)
Example demo_exchange_ends :
  (told demo_exchange, length (outbound (server_ demo_exchange)), heard demo_exchange, length (outgoing_ (front_ demo_exchange))) =
    (12, 12, 7, 8)%nat ∧
  let t := fe_ (front_ demo_exchange) in
  (map (λ r, (r.1, path_ r.2)) (values (fe_mappings t)), (values (fe_modules t)).*1, (values (fe_threads t)).*1, map (λ r, pa_result r.2) (fe_patched t),
    map (λ c, (address c, times_called (call_stats c))) (values (calls (fe_calls t)))) =
  ([(0, "a.so"); (1, "b.so")]%string, [], [1], [pr_ok; pr_error], [(7, 1); (8, 1)]).
Proof. split; vm_compute; reflexivity. Qed.

Lemma demo_events_fit : Forall event_fits demo_events.
Proof.
  unfold demo_events. repeat (apply Forall_cons; split); try apply Forall_nil_2; cbn [event_fits]; try done.
  all: try (intros nodes Hn; by apply write_carries).
  all: cbn; unfold in_u; try (split; [lia|]); repeat constructor; lia.
Qed.

Lemma demo_log_fits : log_fits 2 (log_ demo_exchange).
Proof.
  split; [|by vm_compute].
  match goal with |- Forall _ ?l => let x := eval vm_compute in l in change l with x end.
  repeat (apply Forall_cons; split); try apply Forall_nil_2; cbn [told_fits payload_fits]; try done.
  all: unfold metadata_fits, message_fits; repeat (constructor || split); cbn; unfold in_u, in_s; try lia.
  all: match goal with H : _ !! _ = Some _ |- _ => apply elem_of_map_to_list in H; revert H end.
  all: match goal with |- _ ∈ ?l → _ => let x := eval vm_compute in l in change l with x end.
  all: intros [= -> _]%list_elem_of_singleton; lia.
Qed.

Definition demo_exchange_mirrors : Prop :=
  let t := fe_ (front_ demo_exchange) in
  (∀ id i m, mapped (tracker (app_ (process_ demo_exchange))) id (i, m) → record_of i (fe_mappings t) = Some m) ∧
  (∀ nodes tid, nodes ∈ statistics_sent (sent (process_ demo_exchange)) → is_Some (nodes !! tid) → thread_known tid (fe_threads t)) ∧
  ∀ tid, ∃ shown ss,
    (∀ p x, stats_at (find_call (fe_calls t)) tid p x = shown !! (p ++ [x])) ∧
    update (shadow_stack_new (mk_overhead 1 2) demo_junk) (collected_of tid demo_events) ∅ =
      Ret (ss, merge_nodes shown (statistics (thread_of demo_junk tid (analysis (app_ (process_ demo_exchange)))))).

Lemma exchange_mirrors_witness : demo_exchange_mirrors.
Proof.
  unfold demo_exchange_mirrors.
  refine (proj2 (proj2 (exchange_mirrors (po := demo_function_patches) demo_init demo_junk (λ p : string, p) demo_file demo_accessor demo_symbols
    2 (mk_overhead 1 2) demo_app demo_events demo_exchange _ _ _ _ _ demo_events_fit demo_exchange_eq demo_log_fits)) _);
    [reflexivity|reflexivity|split; unfold in_s, in_u; cbn; lia|vm_compute; reflexivity|vm_compute; reflexivity|vm_compute; reflexivity].
Defined.
