(* ===== verification/Scales.v ===== *)
(** Scales and histograms in archives (math/serialization.h, math/variant.h, math/histogram.h).

    A scale is its bounds and its number of bins, a histogram its scale and its counts.  Reading replaces what is there,
    adds to it, or moves it towards what is read. *)

From S2P Require Import Prelude Views Histogram Archive.
Local Open Scope Z_scope.

Section archives.
Context {tok : Type} `{AR : strmd tok}.
Abbreviation A := (list tok).

(** Values are put as their type is. *)
Context {X L : Type} `{EqDecision X} (zero : X) (leb : X → X → bool) (lzero : L) (lleb : L → L → bool).
Context (put_value : X → A) (get_value : A → result (X * A)).
Context (lg : X → L).

(** * Scales *)

(** [math/serialization.h:55-67] serialize_scale. Written. *)
Definition save_scale (s : bounds X) : A :=
  put_versioned 1 (put_value (near_value s) ++ put_value (far_value s) ++ put_u (Z.of_nat (samples_ s))).

(** It is only made anew when it is another one; [make] is the constructor. *)
(** [math/serialization.h:55-67] serialize_scale. Read. *)
Definition load_scale (make : X → X → nat → result (bounds X)) (old : bounds X) (a : A) : result (bounds X * A) :=
  get_versioned (λ _ a,
    '(near, a) ← get_value a;
    '(far, a) ← get_value a;
    '(n, a) ← get_u a;
    if bool_decide (near = near_value old) && bool_decide (far = far_value old) && (n =? Z.of_nat (samples_ old)) then Ret (old, a)
    else s ← make near far (Z.to_nat n); Ret (s, a)) a.

(** [math/scale.h:84-87] linear_scale::linear_scale *)
Definition empty_scale : bounds X := mk_bounds zero zero 0.

Definition make_linear : X → X → nat → result (bounds X) := new_linear zero leb.
Definition make_log : X → X → nat → result (bounds X) := new_log lzero lleb lg.

(** [math/variant.h:36-37] variant::get_type *)
Definition get_type (s : variant_scale (X := X)) : Z := match s with v_log _ => 1 | v_linear _ => 0 end.

(** What is behind the type is that of the first kind whose number it is, or of the last kind. *)
(** [math/serialization.h:77-79] serialize. Of [variant_scale]. *)
Definition save_variant (s : variant_scale) : A :=
  put_versioned 1 (put_u (get_type s) ++ match s with v_log s | v_linear s => save_scale s end).
(** [math/variant.h:162-171] serialize. Of [variant], read behind the version of the scale. *)
Definition load_variant (old : variant_scale (X := X)) (a : A) : result (variant_scale * A) :=
  get_versioned (λ _ a,
    '(type, a) ← get_u a;
    if type =? 1
    then '(s, a) ← load_scale make_log (match old with v_log s => s | _ => empty_scale end) a; Ret (v_log s, a)
    else '(s, a) ← load_scale make_linear (match old with v_linear s => s | _ => empty_scale end) a; Ret (v_linear s, a)) a.

(** * Histograms *)

Context {S : Type} `{SC : scale X S} (save_s : S → A) (load_s : S → A → result (S * A)).
Abbreviation histogram := (Histogram.histogram (S := S)).

(** [math/serialization.h:81-86] serialize. Of [histogram], written. *)
Definition save_histogram (h : histogram) : A := put_versioned 1 (save_s (scale_ h) ++ put_items (map put_s (bins h))).
(** [math/serialization.h:81-86] serialize. Of [histogram], read: nobody looks whether the counts are as many as the bins. *)
Definition load_histogram (old : histogram) (a : A) : result (histogram * A) :=
  get_versioned (λ _ a,
    '(s, a) ← load_s (scale_ old) a;
    '(l, a) ← get_vector get_s a;
    Ret (mk_histogram l s, a)) a.

(** What two histograms have in their bins, put together by an iterator over each: the second one must not end first. *)
Fixpoint bin_by_bin (f : Z → Z → Z) (ls rs : list Z) : result (list Z) :=
  match ls, rs with
  | [], _ => Ret []
  | _ :: _, [] => UB
  | l :: ls, r :: rs => more ← bin_by_bin f ls rs; Ret (f l r :: more)
  end.

(** [math/histogram.h:137-153] operator += *)
Definition add_histogram (lhs rhs : histogram) : result histogram :=
  if same_scale (scale_ lhs) (scale_ rhs)
  then l ← bin_by_bin Z.add (bins lhs) (bins rhs); Ret (mk_histogram l (scale_ lhs))
  else Ret rhs.

(** [part] is the difference times a floating point number, without its fraction. *)
(** [math/histogram.h:155-167] interpolate *)
Definition interpolate (part : Z → Z) (lhs rhs : histogram) : result histogram :=
  let lhs := if same_scale (scale_ lhs) (scale_ rhs) then lhs else set_scale (scale_ rhs) lhs in
  l ← bin_by_bin (λ l r, l + part (r - l)) (bins lhs) (bins rhs); Ret (mk_histogram l (scale_ lhs)).

(** [math/serialization.h:88-93] serialize. With [scontext::additive]: the buffer is kept in the context. *)
Definition load_additive (h buffer : histogram) (a : A) : result (histogram * histogram * A) :=
  '(buffer, a) ← load_histogram buffer a;
  h ← add_histogram h buffer;
  Ret (h, buffer, a).

(** [math/serialization.h:95-100] serialize. With [scontext::interpolating]. *)
Definition load_interpolating (part : Z → Z) (h buffer : histogram) (a : A) : result (histogram * histogram * A) :=
  '(buffer, a) ← load_histogram buffer a;
  h ← interpolate part h buffer;
  Ret (h, buffer, a).

(** * Reading what was written *)

Context {LAWS : strmd_laws tok} (value_fits : X → Prop).
Context (Hvalue : ∀ x rest, value_fits x → get_value (put_value x ++ rest) = Ret (x, rest)).

(** Bounds that the constructor takes. *)
Definition made (make : X → X → nat → result (bounds X)) (s : bounds X) : Prop :=
  make (near_value s) (far_value s) (samples_ s) = Ret s ∧ value_fits (near_value s) ∧ value_fits (far_value s) ∧ in_u 32 (Z.of_nat (samples_ s)).

Lemma scale_read make old s rest : made make s → load_scale make old (save_scale s ++ rest) = Ret (s, rest).
Proof using LAWS Hvalue.
  intros (Hm & Hn & Hf & Hs). apply versioned_roundtrip. intros rest'. rewrite <- !app_assoc, Hvalue by done. cbn [mbind result_bind].
  rewrite Hvalue by done. cbn [mbind result_bind]. rewrite u_roundtrip by (unfold in_u in *; lia). cbn [mbind result_bind].
  rewrite Nat2Z.id, Hm. destruct (bool_decide _ && bool_decide _ && _) eqn:E; [|done].
  apply andb_true_iff in E as [[En%bool_decide_eq_true Ef%bool_decide_eq_true]%andb_true_iff Es%Z.eqb_eq].
  destruct s, old; cbn in *. by rewrite En, Ef, (Nat2Z.inj _ _ Es).
Qed.

Definition variant_made (s : variant_scale) : Prop := match s with v_log s => made make_log s | v_linear s => made make_linear s end.

(** A scale is read for what it is, whatever it is read over. *)
Theorem scale_roundtrip old s rest : variant_made s → load_variant old (save_variant s ++ rest) = Ret (s, rest).
Proof using LAWS Hvalue.
  intros Hs. apply versioned_roundtrip. intros rest'. rewrite <- app_assoc, u_roundtrip by (destruct s; cbn; unfold in_u; lia).
  cbn [mbind result_bind]. destruct s as [s|s]; cbn [get_type Z.eqb Pos.eqb]; by rewrite scale_read.
Qed.

Context (s_ok : S → Prop) (Hscale : ∀ old s rest, s_ok s → load_s old (save_s s ++ rest) = Ret (s, rest)).

Definition histogram_fits (h : histogram) : Prop := s_ok (scale_ h) ∧ Forall (in_s 64) (bins h).

Theorem histogram_roundtrip old h rest : histogram_fits h → load_histogram old (save_histogram h ++ rest) = Ret (h, rest).
Proof using LAWS Hscale.
  intros [Hs Hb]. rewrite Forall_forall in Hb. apply versioned_roundtrip. intros rest'. rewrite <- app_assoc, Hscale by done.
  cbn [mbind result_bind]. rewrite (vector_roundtrip get_s put_s) by (intros x r Hx; apply s_roundtrip; auto). by destruct h.
Qed.

Lemma bin_by_bin_zip f ls : ∀ rs, (length ls ≤ length rs)%nat → bin_by_bin f ls rs = Ret (zip_with f ls rs).
Proof using Type.
  induction ls as [|l ls IH]; intros [|r rs] Hl; cbn in *; try done; [lia|]. by rewrite IH by lia.
Qed.

Lemma bin_by_bin_short f ls : ∀ rs, (length rs < length ls)%nat → bin_by_bin f ls rs = UB.
Proof using Type. induction ls as [|l ls IH]; intros [|r rs] Hl; cbn in *; try lia; [done|]. by rewrite IH by lia. Qed.

Lemma add_histogram_merge lhs rhs : histogram_ok lhs → histogram_ok rhs → add_histogram lhs rhs = Ret (merge lhs rhs).
Proof using Type.
  intros Hl Hr. unfold add_histogram, merge. destruct (same_scale (scale_ lhs) (scale_ rhs)) eqn:E; [|done].
  apply same_scale_eq in E. unfold histogram_ok in *. by rewrite bin_by_bin_zip by (rewrite Hl, Hr, E; lia).
Qed.

(** Reading adds: what was counted here and what was counted there are counted together. *)
Theorem additive_counts s xs ys h0 a b buffer rest : count xs (set_scale s h0) = Ret a → count ys (set_scale s h0) = Ret b →
  histogram_fits b → ∃ h, load_additive a buffer (save_histogram b ++ rest) = Ret (h, b, rest) ∧ count (xs ++ ys) (set_scale s h0) = Ret h.
Proof using LAWS Hscale.
  intros Ha Hb Hf. destruct (count_ok _ _ _ _ Ha) as [Hoa _], (count_ok _ _ _ _ Hb) as [Hob _].
  unfold load_additive. rewrite histogram_roundtrip by done. cbn [mbind result_bind]. rewrite add_histogram_merge by done.
  eexists. split; [done|]. by apply merge_counts_together.
Qed.

(** What is read of fewer counts than its scale has bins is added beyond its end. *)
Theorem short_counts_undefined h buffer rest l : histogram_ok h → s_ok (scale_ h) → Forall (in_s 64) l → (length l < samples (scale_ h))%nat →
  load_additive h buffer (save_histogram (mk_histogram l (scale_ h)) ++ rest) = UB.
Proof using LAWS Hscale.
  intros Hh Hs Hl Hn. unfold load_additive. rewrite histogram_roundtrip by done. cbn [mbind result_bind]. unfold add_histogram. cbn [scale_ bins].
  rewrite (proj2 (same_scale_eq _ _) eq_refl), bin_by_bin_short; [done|]. by rewrite Hh.
Qed.

(** A share of a difference lies between nothing and all of it. *)
Definition share (part : Z → Z) : Prop := ∀ d, Z.min 0 d ≤ part d ≤ Z.max 0 d.

(** Reading moves the counts towards those that are read and not beyond them, from nothing when the scale is another one. *)
Theorem interpolating_between part h buffer b rest : share part → histogram_ok h → histogram_ok b → histogram_fits b →
  ∃ h', load_interpolating part h buffer (save_histogram b ++ rest) = Ret (h', b, rest) ∧ histogram_ok h' ∧ scale_ h' = scale_ b ∧
    ∀ i l r, (if same_scale (scale_ h) (scale_ b) then bins h !! i = Some l else l = 0) → bins b !! i = Some r →
      ∃ n, bins h' !! i = Some n ∧ Z.min l r ≤ n ≤ Z.max l r.
Proof using LAWS Hscale.
  intros Hp Hh Hb Hf. unfold load_interpolating. rewrite histogram_roundtrip by done. cbn [mbind result_bind].
  set (h1 := if same_scale (scale_ h) (scale_ b) then h else set_scale (scale_ b) h).
  assert (histogram_ok h1 ∧ scale_ h1 = scale_ b) as [Hh1 Hs1].
  { unfold h1. destruct (same_scale _ _) eqn:E; [by apply same_scale_eq in E|]. split; [apply length_replicate|done]. }
  assert (length (bins h1) = length (bins b)) as Hlen by (unfold histogram_ok in *; by rewrite Hh1, Hb, Hs1).
  unfold interpolate. fold h1. rewrite bin_by_bin_zip by lia. cbn [mbind result_bind]. eexists. split; [done|].
  split; [unfold histogram_ok in *; cbn; rewrite length_zip_with; lia|]. split; [done|]. intros i l r Hl Hr. cbn [bins].
  assert (bins h1 !! i = Some l) as Hl1.
  { unfold h1. destruct (same_scale _ _); [done|]. subst l. apply lookup_replicate_2. unfold histogram_ok in Hb. rewrite <- Hb. by eapply lookup_lt_Some. }
  rewrite lookup_zip_with, Hl1, Hr. eexists. split; [done|]. specialize (Hp (r - l)). lia.
Qed.
End archives.

(** * Ten bins *)

#[local] Instance demo_scale : scale Z (bounds Z) := linear_is_scale demo_index demo_center.

Definition demo_save : histogram (S := bounds Z) → list token := save_histogram (save_scale put_s).
Definition demo_load (old : bounds Z) (a : list token) : result (bounds Z * list token) := load_scale get_s (make_linear 0 Z.leb) old a.

Lemma demo_bounds_read old rest : demo_load old (save_scale put_s demo_bounds ++ rest) = Ret (demo_bounds, rest).
Proof.
  apply (scale_read put_s get_s (in_s 64)); [intros x r; apply s_roundtrip|]. split; [reflexivity|]. unfold in_s, in_u. cbn. lia.
Qed.

Lemma additive_counts_witness rest : ∃ h,
  load_additive demo_load (demo_count [(4, 1); (3, 1)]) demo_empty (demo_save (demo_count [(85, 2)]) ++ rest) =
    Ret (h, demo_count [(85, 2)], rest) ∧
  count ([(4, 1); (3, 1)] ++ [(85, 2)]) (set_scale demo_bounds demo_empty) = Ret h.
Proof.
  apply (additive_counts (save_scale put_s) demo_load (λ s, s = demo_bounds));
    [intros old s r ->; apply demo_bounds_read|vm_compute; reflexivity|vm_compute; reflexivity|].
  split; [reflexivity|]. match goal with |- Forall _ ?l => let x := eval vm_compute in l in change l with x end.
  repeat constructor; unfold in_s; lia.
Defined.

(** Half of the way. *)
Example demo_interpolated :
  match load_interpolating demo_load (λ d, Z.quot d 2) demo_histogram demo_empty (demo_save (demo_count [(85, 2); (4, 8)])) with
  | Ret (h, _, []) => bins h
  | _ => []
  end = [5; 0; 0; 0; 0; 3; 0; 0; 0; 3].
Proof. vm_compute. reflexivity. Qed.

Lemma half_share : share (λ d, Z.quot d 2).
Proof. intros d. pose proof (Z.quot_rem' d 2). pose proof (Z.rem_bound_abs d 2). destruct (Z.le_ge_cases 0 d); [pose proof (Z.rem_nonneg d 2)|pose proof (Z.rem_nonpos d 2)]; lia. Qed.

(** A scale that is none is refused. *)
Example demo_no_scale : demo_load demo_bounds (save_scale put_s (mk_bounds 90 0 10)) = Throw invalid_argument.
Proof. vm_compute. reflexivity. Qed.
