(* ===== verification/Rulers.v ===== *)
(** Rulers and display scales (math/scale_ruler.h, math/src/linear_scale_ruler.cpp, math/src/log_scale_ruler.cpp,
    math/display_scale.h).

    What a ruler shows is a sequence of ticks that an iterator steps through.  The numbers are those of a class: the
    floating point numbers of 32 bits, or integers, with which nothing is lost. *)

From S2P Require Import Prelude.
From Stdlib Require Import Floats.SpecFloat QArith Lqa.
Local Open Scope Z_scope.

(** What the rulers compute with.  [whole] is the number without its fraction, if it is finite; [floor_log10] and [pow10]
    are of the standard library. *)
Class number (V : Type) := {
  n_zero : V → bool;
  n_add : V → V → V;
  n_geb : V → V → bool;
  n_eqb : V → V → bool;
  round_up : V → V → V;             (* [ceil(value / tick)*tick] *)
  floor_log10 : V → V;
  pow10 : V → V;
  floor_over : V → V → V;           (* [floor(value / unit)] *)
  whole : V → option Z;
  times : Z → V → V;
  of_int : Z → V
}.

(** [math/scale_ruler.h:29-34] ruler_tick. *)
Inductive tick_type := t_first | t_last | t_major | t_minor | t_complete.

#[export] Instance tick_type_eq_dec : EqDecision tick_type.
Proof. solve_decision. Defined.

Record ruler_tick (V : Type) := mk_tick { tick_value : V; type_ : tick_type }.
Arguments mk_tick {V} _ _.
Arguments tick_value {V} _.
Arguments type_ {V} _.

Section rulers.
Context {V : Type} {NV : number V}.

(** [math/scale_ruler.h:130-131] operator == *)
Definition same_tick (l r : ruler_tick V) : bool := n_eqb (tick_value l) (tick_value r) && bool_decide (type_ l = type_ r).

(** Stepping from the beginning until the end is reached. *)
Fixpoint ticks {S : Type} (tick : S → ruler_tick V) (next : S → S) (finish : ruler_tick V) (fuel : nat) (s : S) : option (list (ruler_tick V)) :=
  match fuel with
  | O => None
  | Datatypes.S fuel => if same_tick (tick s) finish then Some [] else (tick s ::.) <$> ticks tick next finish fuel (next s)
  end.

Lemma ticks_S {S : Type} (tick : S → ruler_tick V) (next : S → S) finish fuel s :
  ticks tick next finish (Datatypes.S fuel) s = if same_tick (tick s) finish then Some [] else (tick s ::.) <$> ticks tick next finish fuel (next s).
Proof. done. Qed.

(** * Of linear scales *)

(** [math/src/linear_scale_ruler.cpp:29-30] linear_scale_ruler::next_tick *)
Definition next_tick (value tick : V) : V := round_up value tick.

(** [math/src/linear_scale_ruler.cpp:32-33] linear_scale_ruler::major_tick *)
Definition major_tick (delta : V) : V := if n_zero delta then delta else pow10 (floor_log10 delta).

(** [math/scale_ruler.h:38-56] linear_scale_ruler *)
Record linear_ruler := mk_linear_ruler { l_near : V; l_far : V; l_major : V }.

(** [math/scale_ruler.h:117-121] linear_scale_ruler::linear_scale_ruler *)
Definition new_linear_ruler (near far delta : V) : linear_ruler := mk_linear_ruler near far (major_tick delta).

(** [math/src/linear_scale_ruler.cpp:45-49] linear_scale_ruler::end *)
Definition linear_end (r : linear_ruler) : ruler_tick V := mk_tick (l_far r) t_complete.

(** [math/src/linear_scale_ruler.cpp:35-43] linear_scale_ruler::begin *)
Definition linear_begin (r : linear_ruler) : ruler_tick V :=
  if n_zero (l_major r) then linear_end r else mk_tick (l_near r) t_first.

(** [math/src/linear_scale_ruler.cpp:59-84] linear_scale_ruler::const_iterator::operator ++ *)
Definition linear_step (r : linear_ruler) (t : ruler_tick V) : ruler_tick V :=
  match type_ t with
  | t_first => mk_tick (next_tick (tick_value t) (l_major r)) t_major
  | t_major => let value := n_add (tick_value t) (l_major r) in
      if n_geb value (l_far r) then mk_tick (l_far r) t_last else mk_tick value t_major
  | t_last => mk_tick (tick_value t) t_complete
  | t_minor | t_complete => t
  end.

Definition linear_ticks (fuel : nat) (r : linear_ruler) : option (list (ruler_tick V)) :=
  ticks id (linear_step r) (linear_end r) fuel (linear_begin r).

(** * Of logarithmic scales *)

(** [math/scale_ruler.h:90-99] log_scale_ruler::tick_index. A [signed char] and an [unsigned char]. *)
Record tick_index := mk_index { order : Z; minor : Z }.

(** [math/src/log_scale_ruler.cpp:90-95] log_scale_ruler::tick_index::operator ++ *)
Definition index_next (i : tick_index) : tick_index :=
  let m := uw 8 (minor i + 1) in
  if m =? 10 then mk_index (sw 8 (order i + 1)) 1 else mk_index (order i) m.

(** Casts of what does not fit have no defined result. *)
(** [math/src/log_scale_ruler.cpp:76-85] log_scale_ruler::tick_index::next *)
Definition index_after (value : V) : result tick_index :=
  let o := floor_log10 value in
  match whole o, whole (floor_over value (pow10 o)) with
  | Some order, Some m =>
    if bool_decide (in_s 8 order) && bool_decide (in_u 8 m) then Ret (index_next (mk_index order m)) else UB
  | _, _ => UB
  end.

(** [math/src/log_scale_ruler.cpp:87-88] log_scale_ruler::tick_index::value *)
Definition index_value (i : tick_index) : V := times (minor i) (pow10 (of_int (order i))).

(** An iterator: the tick, and the index of the next one. *)
Abbreviation log_iterator := (ruler_tick V * tick_index)%type.

(** [math/src/log_scale_ruler.cpp:40-42] log_scale_ruler::const_iterator::const_iterator *)
Definition log_iterator_at (t : ruler_tick V) : result log_iterator := i ← index_after (tick_value t); Ret (t, i).

(** [math/src/log_scale_ruler.cpp:27-31] log_scale_ruler::begin *)
Definition log_begin (near : V) : result log_iterator := log_iterator_at (mk_tick near t_first).

(** [math/src/log_scale_ruler.cpp:33-37] log_scale_ruler::end *)
Definition log_end (far : V) : result log_iterator := log_iterator_at (mk_tick far t_complete).

(** [math/src/log_scale_ruler.cpp:47-73] log_scale_ruler::const_iterator::operator ++ *)
Definition log_step (far : V) (x : log_iterator) : log_iterator :=
  let '(t, i) := x in
  let show i :=
    let value := index_value i in
    (if n_geb value far then mk_tick far t_last else mk_tick value (if minor i =? 1 then t_major else t_minor), i) in
  match type_ t with
  | t_minor | t_major => show (index_next i)
  | t_first => show i
  | t_last => (mk_tick (tick_value t) t_complete, i)
  | t_complete => x
  end.

Definition log_ticks (fuel : nat) (near far : V) : result (option (list (ruler_tick V))) :=
  b ← log_begin near;
  e ← log_end far;
  Ret (ticks fst (log_step far) e.1 fuel b).
End rulers.

(** * Integers *)

(** The greatest power of ten that is not above a number, by its exponent. *)
Fixpoint log10_from (fuel : nat) (z : Z) : Z :=
  match fuel with
  | O => 0
  | S fuel => if z <? 10 then 0 else 1 + log10_from fuel (z / 10)
  end.
Definition log10_floor (z : Z) : Z := log10_from (Z.to_nat z) z.

Lemma log10_from_ok fuel : ∀ z, 1 ≤ z → (Z.to_nat z ≤ fuel)%nat → 0 ≤ log10_from fuel z ∧ 10 ^ log10_from fuel z ≤ z < 10 ^ (log10_from fuel z + 1).
Proof.
  induction fuel as [|fuel IH]; intros z Hz Hf; cbn [log10_from]; [lia|]. destruct (Z.ltb_spec z 10) as [Hl|Hl]; [lia|].
  assert (1 ≤ z / 10 < z) as [Hd1 Hd2] by (split; [apply Z.div_le_lower_bound|apply Z.div_lt_upper_bound]; lia).
  destruct (IH (z / 10) Hd1 ltac:(lia)) as (H0 & H1 & H2). set (k := log10_from fuel (z / 10)) in *.
  rewrite (Z.add_comm 1 k), !Z.pow_add_r by lia. rewrite Z.pow_add_r in H2 by lia. pose proof (Z.div_mod z 10). pose proof (Z.mod_pos_bound z 10). lia.
Qed.

Lemma log10_floor_ok z : 1 ≤ z → 0 ≤ log10_floor z ∧ 10 ^ log10_floor z ≤ z < 10 ^ (log10_floor z + 1).
Proof. intros Hz. by apply log10_from_ok. Qed.

(** Logarithms are of what is positive. *)
#[export] Instance integers : number Z := {|
  n_zero z := z =? 0; n_add := Z.add; n_geb a b := b <=? a; n_eqb := Z.eqb;
  round_up v t := - (- v / t) * t; floor_log10 := log10_floor; pow10 k := 10 ^ k;
  floor_over v u := v / u; whole z := Some z; times := Z.mul; of_int z := z |}.

Abbreviation tick := (mk_tick (V := Z)).

Section linear.
Context (far major : Z) (Hmajor : 0 < major).
Abbreviation ruler near := (mk_linear_ruler near far major).
Abbreviation run near := (ticks id (linear_step (ruler near)) (linear_end (ruler near))).

Lemma far_ends near fuel : (2 ≤ fuel)%nat → run near fuel (tick far t_last) = Some [tick far t_last].
Proof using Type.
  intros Hf. destruct fuel as [|[|fuel]]; [lia..|]. cbn [ticks]. unfold same_tick, linear_end. cbn [id linear_step type_ tick_value l_far n_eqb integers].
  by rewrite Z.eqb_refl.
Qed.

Lemma majors_run near n : ∀ k fuel, (n + 3 ≤ fuel)%nat → (k + Z.of_nat n) * major < far ≤ (k + Z.of_nat n + 1) * major →
  run near fuel (tick (k * major) t_major) = Some (map (λ k, tick (k * major) t_major) (seqZ k (Z.of_nat n + 1)) ++ [tick far t_last]).
Proof using Hmajor.
  induction n as [|n IH]; intros k fuel Hf Hk; (destruct fuel as [|fuel]; [lia|]); cbn [ticks];
    unfold same_tick at 1, linear_end at 1; cbn [id type_ tick_value l_far n_eqb integers];
    (rewrite bool_decide_false by done; rewrite andb_false_r);
    unfold linear_step at 2; cbn [type_ tick_value l_far l_major n_add n_geb integers];
    (rewrite seqZ_cons by lia); cbn [map Datatypes.app].
  - replace (far <=? k * major + major) with true by (symmetry; apply Z.leb_le; lia). rewrite far_ends by lia.
    by rewrite (seqZ_nil (Z.succ k)) by lia.
  - replace (far <=? k * major + major) with false by (symmetry; apply Z.leb_gt; nia).
    replace (k * major + major) with (Z.succ k * major) by lia. rewrite IH by lia. cbn [fmap option_fmap option_map].
    by replace (Z.pred (Z.of_nat (S n) + 1)) with (Z.of_nat n + 1) by lia.
Qed.
End linear.

(** With integers: the ruler shows its bounds and between them every multiple of the greatest power of ten that is not
    above their distance, which are at most ten. *)
Theorem linear_ruler_ticks near far : near < far → let r := new_linear_ruler near far (far - near) in
  ∃ k n, 0 < n ≤ 10 ∧ l_major r = 10 ^ log10_floor (far - near) ∧ (k - 1) * l_major r < near ≤ k * l_major r ∧
    (k + n - 1) * l_major r < far ≤ (k + n) * l_major r ∧
    linear_ticks 13 r = Some (tick near t_first :: map (λ k, tick (k * l_major r) t_major) (seqZ k n) ++ [tick far t_last]).
Proof.
  intros Hn. cbn zeta. destruct (log10_floor_ok (far - near) ltac:(lia)) as (H0 & H1 & H2). set (major := 10 ^ log10_floor (far - near)) in *.
  assert (0 < major) as Hm by (apply Z.pow_pos_nonneg; lia). rewrite Z.pow_add_r in H2 by lia. fold major in H2. change (10 ^ 1) with 10 in H2.
  assert (l_major (new_linear_ruler near far (far - near)) = major) as E.
  { unfold new_linear_ruler, major_tick. cbn [l_major n_zero integers]. by rewrite (proj2 (Z.eqb_neq _ _)) by lia. }
  rewrite E. set (k := - (- near / major)). set (n := (far - 1) / major - k + 1).
  pose proof (Z.div_mod (- near) major ltac:(lia)) as Ek. pose proof (Z.mod_pos_bound (- near) major ltac:(lia)) as Bk.
  pose proof (Z.div_mod (far - 1) major ltac:(lia)) as En. pose proof (Z.mod_pos_bound (far - 1) major ltac:(lia)) as Bn.
  assert ((k - 1) * major < near ≤ k * major) as Hk by (unfold k; lia).
  assert ((k + n - 1) * major < far ≤ (k + n) * major) as Hkn by (unfold n; lia).
  assert (0 < n ≤ 10) as Hn10 by nia. exists k, n. split; [done|]. split; [done|]. split; [done|]. split; [done|].
  unfold linear_ticks, linear_begin. rewrite E. cbn [n_zero integers]. rewrite (proj2 (Z.eqb_neq _ _)) by lia.
  change (l_near (new_linear_ruler near far (far - near))) with near. change 13%nat with (S 12). rewrite ticks_S.
  unfold same_tick at 1, linear_end at 1. cbn [id type_ tick_value].
  rewrite (bool_decide_false (t_first = t_complete)) by done. rewrite andb_false_r.
  assert (linear_step (new_linear_ruler near far (far - near)) (tick near t_first) = tick (k * major) t_major) as ->.
  { unfold linear_step, next_tick. cbn [type_ tick_value round_up integers]. by rewrite E. }
  assert (new_linear_ruler near far (far - near) = mk_linear_ruler near far major) as -> by (unfold new_linear_ruler in *; cbn in E; by rewrite E).
  assert (Z.of_nat (Z.to_nat (n - 1)) = n - 1) as E1 by lia.
  rewrite (majors_run far major Hm near (Z.to_nat (n - 1)) k); rewrite ?E1; [|lia|].
  - cbn [fmap option_fmap option_map]. by replace (n - 1 + 1) with n by lia.
  - replace (k + (n - 1)) with (k + n - 1) by lia. by replace (k + n - 1 + 1) with (k + n) by lia.
Qed.

(** ** Digits *)

Definition index_ok (i : tick_index) : Prop := 0 ≤ order i ∧ 1 ≤ minor i ≤ 9.
Abbreviation value_of := (index_value (V := Z)).

(** What is marked: numbers of one digit and zeroes; the powers of ten stand out. *)
Definition mark (i : tick_index) : ruler_tick Z := tick (value_of i) (if minor i =? 1 then t_major else t_minor).

Lemma value_of_eq i : value_of i = minor i * 10 ^ order i.
Proof. done. Qed.

Lemma next_ok i : index_ok i → order i < 127 → index_ok (index_next i) ∧ value_of (index_next i) = value_of i + 10 ^ order i.
Proof.
  intros [Ho Hm] Hb. unfold index_next. rewrite uw_small by (unfold in_u; lia). destruct (Z.eqb_spec (minor i + 1) 10) as [E|E].
  - rewrite sw_small by (unfold in_s; lia). rewrite !value_of_eq. cbn [minor order]. split; [split; cbn; lia|].
    rewrite Z.pow_add_r by lia. nia.
  - rewrite !value_of_eq. cbn [minor order]. split; [split; cbn; lia|]. lia.
Qed.

Lemma power_of i : index_ok i → 1 ≤ 10 ^ order i ∧ 10 ^ order i ≤ value_of i ∧ value_of i + 10 ^ order i ≤ 10 ^ (order i + 1).
Proof. intros [Ho Hm]. rewrite value_of_eq, Z.pow_add_r by lia. pose proof (Z.pow_pos_nonneg 10 (order i)). nia. Qed.

(** Nothing that is marked lies between two marks, and no two are the same. *)
Lemma marks_apart i j : index_ok i → index_ok j → value_of i ≤ value_of j → j = i ∨ value_of i + 10 ^ order i ≤ value_of j.
Proof.
  intros Hi Hj Hv. pose proof (power_of i Hi) as Pi. pose proof (power_of j Hj) as Pj. pose proof Hi as [Ho Hm]. pose proof Hj as [Ho' Hm'].
  destruct (Z.lt_trichotomy (order i) (order j)) as [Hl|[He|Hg]].
  - right. assert (10 ^ (order i + 1) ≤ 10 ^ order j) by (apply Z.pow_le_mono_r; lia).
    lia.
  - rewrite !value_of_eq, <- He in *. pose proof (Z.pow_pos_nonneg 10 (order i)). destruct (Z.lt_trichotomy (minor i) (minor j)) as [?|[?|?]]; [right; nia| |nia].
    left. destruct i, j; cbn in *; congruence.
  - assert (10 ^ (order j + 1) ≤ 10 ^ order i) by (apply Z.pow_le_mono_r; lia). lia.
Qed.

Lemma order_below i far : index_ok i → value_of i < far → far < 10 ^ 127 → order i < 127.
Proof.
  intros Hi Hv Hf. destruct (Z.lt_ge_cases (order i) 127) as [|Hge]; [done|]. pose proof (power_of i Hi).
  assert (10 ^ 127 ≤ 10 ^ order i) by (apply Z.pow_le_mono_r; lia). lia.
Qed.

(** What is shown for an index, with the steps from there. *)
Definition shown (far : Z) (i : tick_index) : ruler_tick Z * tick_index :=
  (if far <=? value_of i then tick far t_last else mark i, i).

Abbreviation log_run far := (ticks (V := Z) fst (log_step far) (tick far t_complete)).

Lemma log_last far fuel i : (2 ≤ fuel)%nat → log_run far fuel (tick far t_last, i) = Some [tick far t_last].
Proof.
  intros Hf. destruct fuel as [|[|fuel]]; [lia..|]. rewrite !ticks_S. unfold same_tick. cbn [fst log_step type_ tick_value n_eqb integers].
  by rewrite Z.eqb_refl.
Qed.

Lemma log_shown far fuel i : value_of i < far → log_run far (S fuel) (shown far i) = (mark i ::.) <$> log_run far fuel (shown far (index_next i)).
Proof.
  intros Hi. rewrite ticks_S. unfold shown at 1 2 3. rewrite (proj2 (Z.leb_gt _ _)) by done. cbn [fst].
  unfold same_tick. rewrite bool_decide_false by (unfold mark; cbn; by destruct (minor i =? 1)). rewrite andb_false_r.
  unfold log_step, mark. cbn [type_]. by destruct (minor i =? 1).
Qed.

Definition before (a b : ruler_tick Z) : Prop := tick_value a < tick_value b.

Lemma log_marks far n : far < 10 ^ 127 → ∀ i fuel, index_ok i → far - value_of i ≤ Z.of_nat n → (n + 3 ≤ fuel)%nat →
  ∃ ts, log_run far fuel (shown far i) = Some (ts ++ [tick far t_last]) ∧ StronglySorted before ts ∧
    ∀ t, t ∈ ts ↔ ∃ j, index_ok j ∧ t = mark j ∧ value_of i ≤ value_of j < far.
Proof.
  intros Hfar. induction n as [|n IH]; intros i fuel Hi Hn Hf; destruct (Z.le_gt_cases far (value_of i)) as [Hle|Hgt]; [|lia| |].
  1,2: exists []; unfold shown; rewrite (proj2 (Z.leb_le _ _)) by done; rewrite log_last by lia; split; [done|]; split; [constructor|];
    intros t; split; [by intros ?%elem_of_nil|intros (j & _ & _ & ?); lia].
  destruct fuel as [|fuel]; [lia|]. rewrite log_shown by done. pose proof (order_below i far Hi Hgt Hfar) as Ho.
  destruct (next_ok i Hi Ho) as [Hok Hv]. assert (1 ≤ 10 ^ order i) as Hp by (destruct Hi; apply (Z.pow_le_mono_r 10 0); lia).
  destruct (IH (index_next i) fuel Hok ltac:(lia) ltac:(lia)) as (ts & -> & Hs & Hin). exists (mark i :: ts). split; [done|]. split.
  - constructor; [done|]. apply Forall_forall. intros t (j & _ & -> & Hj)%Hin. unfold before, mark. cbn [tick_value]. lia.
  - intros t. rewrite elem_of_cons, Hin. split.
    + intros [->|(j & Hj & -> & Hb)]; [exists i|exists j]; (split; [done|]); (split; [done|lia]).
    + intros (j & Hj & -> & Hb). destruct (marks_apart i j Hi Hj ltac:(lia)) as [->|Hg]; [by left|right]. exists j. split; [done|]. split; [done|lia].
Qed.

Lemma index_after_ok v : 1 ≤ v < 10 ^ 127 → ∃ i, index_after v = Ret (index_next i) ∧ index_ok i ∧ order i < 127 ∧ value_of i ≤ v < value_of i + 10 ^ order i.
Proof.
  intros Hv. destruct (log10_floor_ok v ltac:(lia)) as (H0 & H1 & H2). set (o := log10_floor v) in *.
  pose proof (Z.pow_pos_nonneg 10 o ltac:(lia) H0) as Hp. rewrite Z.pow_add_r in H2 by lia. change (10 ^ 1) with 10 in H2.
  pose proof (Z.div_mod v (10 ^ o) ltac:(lia)) as Ed. pose proof (Z.mod_pos_bound v (10 ^ o) Hp) as Bd.
  assert (1 ≤ v / 10 ^ o ≤ 9) as Hm by nia.
  assert (o < 127) as Ho. { destruct (Z.lt_ge_cases o 127); [done|]. assert (10 ^ 127 ≤ 10 ^ o) by (apply Z.pow_le_mono_r; lia). lia. }
  exists (mk_index o (v / 10 ^ o)). split; [|split; [by split|split; [done|rewrite value_of_eq; cbn; nia]]].
  unfold index_after. cbn [floor_log10 whole floor_over pow10 integers]. fold o. by rewrite !bool_decide_true by (unfold in_s, in_u; lia).
Qed.

(** With integers: the ruler shows its bounds and between them every number of one digit and zeroes, once and in ascending
    order, the powers of ten as major ticks. *)
Theorem log_ruler_ticks near far : 1 ≤ near < far → far < 10 ^ 127 →
  ∃ ts, log_ticks (Z.to_nat (far - near) + 4) near far = Ret (Some (tick near t_first :: ts ++ [tick far t_last])) ∧ StronglySorted before ts ∧
    ∀ t, t ∈ ts ↔ ∃ o m, 0 ≤ o ∧ 1 ≤ m ≤ 9 ∧ near < m * 10 ^ o < far ∧ t = tick (m * 10 ^ o) (if m =? 1 then t_major else t_minor).
Proof.
  intros Hn Hf. destruct (index_after_ok near ltac:(lia)) as (i & Ei & Hi & Ho & Hi'). destruct (index_after_ok far ltac:(lia)) as (e & Ee & _).
  destruct (next_ok i Hi Ho) as [Hok Hv].
  destruct (log_marks far (Z.to_nat (far - near)) Hf (index_next i) (Z.to_nat (far - near) + 3) Hok ltac:(lia) ltac:(lia)) as (ts & Hr & Hs & Hin).
  exists ts. split; [|split; [done|]].
  - unfold log_ticks, log_begin, log_end, log_iterator_at. cbn [tick_value]. rewrite Ei, Ee. cbn [mbind result_bind fst]. f_equal.
    rewrite Nat.add_succ_r, ticks_S. unfold same_tick at 1. cbn [fst type_]. rewrite (bool_decide_false (t_first = t_complete)) by done.
    rewrite andb_false_r. change (log_step far (tick near t_first, index_next i)) with (shown far (index_next i)). by rewrite Hr.
  - intros t. rewrite Hin. split.
    + intros (j & Hj & -> & Hb). exists (order j), (minor j). pose proof (value_of_eq j) as Ej. destruct Hj. split; [done|]. split; [done|]. split; [lia|done].
    + intros (o & m & Ho' & Hm & Hb & ->). exists (mk_index o m). assert (index_ok (mk_index o m)) as Hj by by split.
      split; [done|]. split; [done|]. rewrite (value_of_eq (mk_index o m)). cbn [minor order]. split; [|lia]. rewrite Hv.
      destruct (marks_apart i (mk_index o m) Hi Hj) as [E|E]; rewrite ?value_of_eq in *; cbn [minor order] in *; [lia| |done].
      rewrite <- E in *. cbn in *. lia.
Qed.

(** * Floating point numbers *)

(** Of 32 bits. *)
Definition float_of (z : Z) : spec_float := binary_normalize 24 128 z 0 false.

(** Without the fraction, towards zero; and by the rounding of the library functions. *)
Definition float_whole (x : spec_float) : option Z :=
  match x with
  | S754_zero _ => Some 0
  | S754_finite s m e => let z := if s then Z.neg m else Z.pos m in Some (if 0 <=? e then z * 2 ^ e else Z.quot z (2 ^ (- e)))
  | S754_infinity _ | S754_nan => None
  end.
Definition float_round (div : Z → Z → Z) (x : spec_float) : spec_float :=
  match x with
  | S754_finite s m e => if 0 <=? e then x else float_of (div (if s then Z.neg m else Z.pos m) (2 ^ (- e)))
  | x => x
  end.
Definition float_floor : spec_float → spec_float := float_round Z.div.
Definition float_ceil : spec_float → spec_float := float_round (λ a b, - (- a / b)).

(** The logarithm and the power are parameters. *)
Definition floats (flog10 fpow10 : spec_float → spec_float) : number spec_float := {|
  n_zero := SFeqb (S754_zero false); n_add := SFadd 24 128; n_geb a b := SFleb b a; n_eqb := SFeqb;
  round_up v t := SFmul 24 128 (float_ceil (SFdiv 24 128 v t)) t; floor_log10 x := float_floor (flog10 x); pow10 := fpow10;
  floor_over v u := float_floor (SFdiv 24 128 v u); whole := float_whole; times z x := SFmul 24 128 (float_of z) x; of_int := float_of |}.

(** A ruler of 64 at a distance of a thousand millions: the ticks are ten apart, which is lost in adding, and the iterator
    stays where it is for ever. *)
Theorem ruler_stalls flog10 fpow10 : float_floor (flog10 (float_of 64)) = float_of 1 → fpow10 (float_of 1) = float_of 10 →
  let r := new_linear_ruler (NV := floats flog10 fpow10) (float_of 1000000000) (float_of 1000000064)
    (SFsub 24 128 (float_of 1000000064) (float_of 1000000000)) in
  ∀ fuel, linear_ticks (NV := floats flog10 fpow10) fuel r = None.
Proof.
  intros Hl Hp. cbn zeta. set (r := new_linear_ruler _ _ _).
  assert (r = mk_linear_ruler (float_of 1000000000) (float_of 1000000064) (float_of 10)) as ->.
  { unfold r, new_linear_ruler, major_tick. replace (SFsub 24 128 (float_of 1000000064) (float_of 1000000000)) with (float_of 64) by (by vm_compute).
    replace (n_zero (float_of 64)) with false by (by vm_compute). cbn [floor_log10 pow10 floats]. by rewrite Hl, Hp. }
  set (r' := mk_linear_ruler _ _ _). unfold linear_ticks.
  assert (linear_begin (NV := floats flog10 fpow10) r' = mk_tick (float_of 1000000000) t_first) as -> by (by vm_compute).
  assert (∀ fuel, ticks (NV := floats flog10 fpow10) id (linear_step (NV := floats flog10 fpow10) r') (linear_end r') fuel
    (mk_tick (float_of 1000000000) t_major) = None) as Hstay.
  { induction fuel as [|fuel IH]; [done|]. rewrite ticks_S.
    replace (same_tick (NV := floats flog10 fpow10) (id (mk_tick (float_of 1000000000) t_major)) (linear_end r')) with false by (by vm_compute).
    replace (linear_step (NV := floats flog10 fpow10) r' (mk_tick (float_of 1000000000) t_major)) with (mk_tick (float_of 1000000000) t_major) by (by vm_compute).
    by rewrite IH. }
  intros [|fuel]; [done|]. rewrite ticks_S.
  replace (same_tick (NV := floats flog10 fpow10) (id (mk_tick (float_of 1000000000) t_first)) (linear_end r')) with false by (by vm_compute).
  replace (linear_step (NV := floats flog10 fpow10) r' (mk_tick (float_of 1000000000) t_first)) with (mk_tick (float_of 1000000000) t_major) by (by vm_compute).
  by rewrite Hstay.
Qed.

(** A ruler over a scale of no values: the logarithm of zero is infinite, and no [signed char] can be made of it. *)
Theorem empty_ruler_undefined flog10 fpow10 fuel far : flog10 (S754_zero false) = S754_infinity true →
  log_ticks (NV := floats flog10 fpow10) fuel (S754_zero false) far = UB.
Proof.
  intros Hl. unfold log_ticks, log_begin, log_iterator_at, index_after. cbn [tick_value floor_log10 floats]. by rewrite Hl.
Qed.

(** * Display scales *)

(** With rational numbers; the bins of a scale are bars of a picture.  The logarithmic scale is the same of logarithms. *)
Local Open Scope Q_scope.

(** [math/display_scale.h:68-70] display_scale_base::display_scale_base *)
Definition bin_width (samples pixel_size : Z) : Q := inject_Z pixel_size / inject_Z samples.

(** [math/display_scale.h:72-76] display_scale_base::at *)
Definition bar_at (samples pixel_size : Z) (index : Z) : Q * Q :=
  let v := inject_Z index * bin_width samples pixel_size in (v, v + bin_width samples pixel_size).

(** [math/display_scale.h:79-83] linear_display_scale::linear_display_scale *)
Definition display_k (near far : Q) (samples pixel_size : Z) : Q := (inject_Z pixel_size - bin_width samples pixel_size) / (far - near).

(** [math/display_scale.h:85-86] linear_display_scale::operator [] *)
Definition display (near far : Q) (samples pixel_size : Z) (value : Q) : Q :=
  display_k near far samples pixel_size * (value - near) + (1 # 2) * bin_width samples pixel_size.

(** [math/display_scale.h:89-96] log_display_scale::operator [] *)
Definition log_display (log10 : Q → Q) (near far : Q) (samples pixel_size : Z) (value : Q) : Q :=
  display (log10 near) (log10 far) samples pixel_size (log10 value).

(** [math/scale.h:141-142] linear_scale::operator []. The value of a bin. *)
Definition bin_value (near far : Q) (samples index : Z) : Q := near + inject_Z index * ((far - near) / (inject_Z samples - 1)).

(** The value of a bin is displayed in the middle of its bar. *)
Theorem centers_displayed near far samples pixel_size index : near < far → (1 < samples)%Z →
  display near far samples pixel_size (bin_value near far samples index) ==
    (fst (bar_at samples pixel_size index) + snd (bar_at samples pixel_size index)) / inject_Z 2.
Proof.
  intros Hn Hs. unfold display, display_k, bin_value, bar_at, bin_width. cbn [fst snd]. change (inject_Z 2) with 2.
  assert (1 < inject_Z samples) as Hq by (change 1 with (inject_Z 1); by rewrite <- Zlt_Qlt).
  field. split_and!; intros E; lra.
Qed.

(** Bars stand side by side from the left to the right of the picture. *)
Theorem bars_fill samples pixel_size : (0 < samples)%Z →
  fst (bar_at samples pixel_size 0) == 0 ∧ snd (bar_at samples pixel_size (samples - 1)) == inject_Z pixel_size ∧
  ∀ index, snd (bar_at samples pixel_size index) == fst (bar_at samples pixel_size (index + 1)).
Proof.
  intros Hs. assert (0 < inject_Z samples) as Hq by (change 0 with (inject_Z 0); by rewrite <- Zlt_Qlt).
  unfold bar_at, bin_width. cbn [fst snd]. split; [|split].
  - field. intros E. lra.
  - unfold Z.sub. rewrite inject_Z_plus. change (inject_Z (- (1))) with (- (1)). field. intros E. lra.
  - intros index. rewrite inject_Z_plus. change (inject_Z 1) with 1. field. intros E. lra.
Qed.

(** * Rulers that are shown *)

Local Open Scope Z_scope.

Example demo_linear_ruler : linear_ticks 13 (new_linear_ruler 7 42 35) =
  Some [tick 7 t_first; tick 10 t_major; tick 20 t_major; tick 30 t_major; tick 40 t_major; tick 42 t_last].
Proof. vm_compute. reflexivity. Qed.

Example demo_log_ruler : log_ticks 40 7 220 = Ret (Some [tick 7 t_first; tick 8 t_minor; tick 9 t_minor; tick 10 t_major; tick 20 t_minor;
  tick 30 t_minor; tick 40 t_minor; tick 50 t_minor; tick 60 t_minor; tick 70 t_minor; tick 80 t_minor; tick 90 t_minor; tick 100 t_major;
  tick 200 t_minor; tick 220 t_last]).
Proof. vm_compute. reflexivity. Qed.

(** The library as far as it is asked. *)
Definition demo_log10 (x : spec_float) : spec_float :=
  match x with S754_zero _ => S754_infinity true | _ => SFdiv 24 128 (float_of 1806180) (float_of 1000000) end.
Definition demo_pow10 (x : spec_float) : spec_float := float_of 10.

Lemma ruler_stalls_witness : ∀ fuel, linear_ticks (NV := floats demo_log10 demo_pow10) fuel
  (new_linear_ruler (NV := floats demo_log10 demo_pow10) (float_of 1000000000) (float_of 1000000064)
    (SFsub 24 128 (float_of 1000000064) (float_of 1000000000))) = None.
Proof. apply (ruler_stalls demo_log10 demo_pow10); by vm_compute. Defined.

Lemma linear_ruler_ticks_witness : let r := new_linear_ruler 7 42 (42 - 7) in
  ∃ k n, 0 < n ≤ 10 ∧ l_major r = 10 ^ log10_floor (42 - 7) ∧ (k - 1) * l_major r < 7 ≤ k * l_major r ∧
    (k + n - 1) * l_major r < 42 ≤ (k + n) * l_major r ∧
    linear_ticks 13 r = Some (tick 7 t_first :: map (λ k, tick (k * l_major r) t_major) (seqZ k n) ++ [tick 42 t_last]).
Proof. apply (linear_ruler_ticks 7 42). lia. Defined.

Lemma log_ruler_ticks_witness :
  ∃ ts, log_ticks (Z.to_nat (220 - 7) + 4) 7 220 = Ret (Some (tick 7 t_first :: ts ++ [tick 220 t_last])) ∧ StronglySorted before ts ∧
    ∀ t, t ∈ ts ↔ ∃ o m, 0 ≤ o ∧ 1 ≤ m ≤ 9 ∧ 7 < m * 10 ^ o < 220 ∧ t = tick (m * 10 ^ o) (if m =? 1 then t_major else t_minor).
Proof. apply (log_ruler_ticks 7 220); [lia|by vm_compute]. Defined.
