(* ===== verification/Intervals.v ===== *)
(** Intervals of time as text, and the texts of threads (common/formatting.h, common/src/formatting.cpp,
    frontend/src/threads_model.cpp).

    Seconds are rational numbers, with which nothing is lost; the logarithm and the printing of a number are of the
    standard library. *)

From S2P Require Import Prelude Strings Logger Threads.
From Stdlib Require Import QArith Qabs Qpower Lqa.
Local Open Scope Z_scope.

Section intervals.
(** [log1000] is the whole part of a third of the logarithm, with the bias; [print] is [sprintf] of three digits, or four. *)
Context (log1000 : Q → Z) (print : bool → Q → list Z).

(** [common/src/formatting.cpp:26-26] c_time_units *)
Definition time_units : list (list Z) := [[115]; [109; 115]; [0xCE; 0xBC; 115]; [110; 115]].

(** [common/src/formatting.cpp:27-27] c_time_units_count *)
Definition time_units_count : Z := len time_units.

(** Four digits are for what is nearly a thousand seconds and more. *)
Definition is_enhanced (uinterval : Q) : bool := Qle_bool (1999 # 2) uinterval && negb (Qle_bool (inject_Z 10000) uinterval).

(** The unit that an interval is printed in, and what it is there. *)
(** [common/formatting.h:108-113] format_interval *)
Definition scaled_interval (interval : Q) : Z * Q :=
  let unit := if Qeq_bool interval 0 then 0 else - log1000 (Qabs interval) in
  let unit := Z.max unit 0 in
  let '(unit, interval) := if time_units_count <=? unit then (0, 0%Q) else (unit, interval) in
  (unit, interval * inject_Z (1000 ^ unit))%Q.

(** [common/formatting.h:101-120] format_interval *)
Definition format_interval (destination : list Z) (interval : Q) : result (list Z) :=
  let formatting := is_enhanced (Qabs interval) in
  let '(unit, interval) := scaled_interval interval in
  match time_units !! Z.to_nat unit with
  | Some name => Ret (destination ++ print formatting interval ++ name)
  | None => UB
  end.

(** [frontend/src/threads_model.cpp:24-25] to_seconds *)
Definition to_seconds (milliseconds : Z) : Q := inject_Z milliseconds * (1 # 1000).

(** [frontend/src/threads_model.cpp:72-94] threads_model::get_value *)
Definition thread_text (view : list thread_info) (index : nat) : result (list Z) :=
  match index with
  | 0%nat => Ret (of_string "All Threads")
  | 1%nat => Ret (of_string "All Threads [cumulative]")
  | S (S index) =>
    match view !! index with
    | None => UB
    | Some v =>
      text ← itoa 10 false 64 (of_string "#") (native_id v) 0 0x30;
      let text := if decide (description v = EmptyString) then text else text ++ of_string " - " ++ of_string (description v) in
      text ← format_interval (text ++ of_string " - CPU: ") (to_seconds (cpu_time v));
      text ← format_interval (text ++ of_string ", started: +") (to_seconds (start_time v));
      if complete v then format_interval (text ++ of_string ", ended: +") (to_seconds (end_time v)) else Ret text
    end
  end.

(** ** What is printed *)

(** The bias moves the borders between the units down to [border]: what has three digits there has three digits when it
    is rounded. *)
Context (border : Q) (Hborder : (9994 # 10000 < border <= 9995 # 10000)%Q).
Definition power1000 (k : Z) : Q := Qpower (inject_Z 1000) k.
Context (Hlog : ∀ u, (0 < u)%Q → (border * power1000 (log1000 u) <= u < border * power1000 (log1000 u + 1))%Q).

Lemma power1000_add a b : (power1000 (a + b) == power1000 a * power1000 b)%Q.
Proof using Type. unfold power1000. apply Qpower_plus. intros E. discriminate E. Qed.

Lemma power1000_pos a : (0 < power1000 a)%Q.
Proof using Type. unfold power1000. apply Qpower_0_lt. reflexivity. Qed.

Lemma power1000_int k : 0 ≤ k → (inject_Z (1000 ^ k) == power1000 k)%Q.
Proof using Type. intros Hk. unfold power1000. by rewrite Zpower_Qpower. Qed.

Lemma power1000_mono a b : a ≤ b → (power1000 a <= power1000 b)%Q.
Proof using Type. intros Hab. unfold power1000. by apply Qpower_le_compat_l. Qed.

Lemma border_between : (0 < border <= 9995 # 10000)%Q.
Proof using Hborder. destruct Hborder. split; [lra|done]. Qed.

(** What is printed is the interval in its unit: unless that is seconds, or nothing that a nanosecond is big enough for, it is
    at least nearly one and less than what would be rounded to a thousand. *)
Theorem interval_scaled interval : ¬ (interval == 0)%Q → let '(unit, v) := scaled_interval interval in 0 ≤ unit < time_units_count ∧
  (unit = 0 ∧ (v == 0)%Q ∧ (Qabs interval < border * power1000 (-3))%Q ∨
   (v == interval * power1000 unit)%Q ∧ (border <= Qabs v)%Q ∧ (unit = 0 ∨ (Qabs v < 1999 # 2)%Q)).
Proof using Hborder Hlog.
  intros Hi. unfold scaled_interval. destruct (Qeq_bool interval 0) eqn:E0; [by apply Qeq_bool_iff in E0|].
  assert (0 < Qabs interval)%Q as Hpos.
  { destruct (Qlt_le_dec 0 (Qabs interval)) as [|Hle]; [done|]. exfalso. apply Hi. pose proof (Qle_Qabs interval). pose proof (Qle_Qabs (- interval)).
    rewrite Qabs_opp in *. lra. }
  destruct (Hlog _ Hpos) as [H1 H2]. set (k := log1000 (Qabs interval)) in *. change time_units_count with 4.
  destruct (Z.leb_spec 4 (Z.max (- k) 0)) as [Hk|Hk].
  - split; [lia|]. left. split; [done|]. split; [by rewrite Qmult_0_l|]. assert (power1000 (k + 1) <= power1000 (-3))%Q by (apply power1000_mono; lia).
    destruct border_between. nra.
  - split; [lia|]. right. rewrite power1000_int by lia. split; [done|].
    assert (Qabs (interval * power1000 (Z.max (- k) 0)) == Qabs interval * power1000 (Z.max (- k) 0))%Q as ->.
    { rewrite Qabs_Qmult. rewrite (Qabs_pos (power1000 _)); [done|]. apply Qlt_le_weak, power1000_pos. }
    pose proof border_between as [B1 B2]. destruct (Z.le_gt_cases 0 k) as [Hk0|Hk0].
    + rewrite Z.max_r by lia. change (power1000 0) with 1%Q. split; [|by left].
      assert (power1000 0 <= power1000 k)%Q as Hp by (apply power1000_mono; lia). change (power1000 0) with 1%Q in Hp. nra.
    + rewrite Z.max_l by lia. assert (power1000 k * power1000 (- k) == 1)%Q as Hp by (rewrite <- power1000_add, Z.add_opp_diag_r; done).
      rewrite power1000_add in H2. change (power1000 1) with 1000%Q in H2. pose proof (power1000_pos (- k)) as Hpk.
      split; [|right].
      * assert (border * (power1000 k * power1000 (- k)) <= Qabs interval * power1000 (- k))%Q as Hb by nra. rewrite Hp in Hb. lra.
      * assert (Qabs interval * power1000 (- k) < border * (power1000 k * power1000 (- k)) * 1000)%Q as Hb by nra. rewrite Hp in Hb. lra.
Qed.

Lemma format_interval_returns destination interval : ∃ text, format_interval destination interval = Ret (destination ++ text).
Proof using Type.
  unfold format_interval. destruct (scaled_interval interval) as [unit v] eqn:E. assert (0 ≤ unit < 4) as Hu.
  { revert E. unfold scaled_interval. change time_units_count with 4. set (u := Z.max _ 0). destruct (Z.leb_spec 4 u); intros [= <- _]; lia. }
  destruct (time_units !! Z.to_nat unit) as [name|] eqn:En; [by eexists|]. apply lookup_ge_None in En. change (length time_units) with 4%nat in En. lia.
Qed.

Lemma spaces_split (a b : list Z) : ∀ r s, Forall (λ c, c ≠ 0x20) a → Forall (λ c, c ≠ 0x20) b → a ++ 0x20 :: r = b ++ 0x20 :: s → a = b.
Proof using Type.
  revert b. induction a as [|x a IH]; intros [|y b] r s Ha Hb; [done|..].
  - intros [= <- _]. by apply Forall_inv in Hb.
  - intros [= -> _]. by apply Forall_inv in Ha.
  - apply Forall_cons in Ha as [_ Ha]. apply Forall_cons in Hb as [_ Hb]. intros [= -> E]. f_equal. by apply (IH b r s).
Qed.

(** The text of a thread is that of its number, then a space and the rest. *)
Lemma thread_text_starts view i v : view !! i = Some v → in_u 64 (native_id v) → ∃ ds rest,
  thread_text view (S (S i)) = Ret (of_string "#" ++ ds ++ 0x20 :: rest) ∧ of_digits 10 ds = native_id v ∧ Forall (λ c, c ≠ 0x20) ds.
Proof using Type.
  intros Hv Hn. cbn [thread_text]. rewrite Hv.
  destruct (itoa_prints 10 false 64 (of_string "#") (native_id v) 0 0x30) as (ds & pads & E & Hd & Hne & Hp & Hall); [lia|lia|done|done|lia|].
  cbn [andb] in E, Hp. change (len []) with 0 in Hp. assert (pads = 0%nat) as -> by (pose proof (Nat2Z.is_nonneg (length ds)); lia). rewrite E. cbn [mbind result_bind replicate Datatypes.app].
  set (text := if decide _ then _ else _). assert (∃ r, text ++ of_string " - CPU: " = (of_string "#" ++ ds) ++ 0x20 :: r) as [r Hr].
  { unfold text. case_decide; [by eexists|]. rewrite <- !app_assoc. change (of_string " - ") with (0x20 :: of_string "- "). rewrite <- app_comm_cons. by eexists. }
  rewrite Hr. exists ds. unfold in_u in Hn.
  destruct (format_interval_returns ((of_string "#" ++ ds) ++ 0x20 :: r) (to_seconds (cpu_time v))) as [t1 ->]. cbn [mbind result_bind].
  destruct (format_interval_returns ((((of_string "#" ++ ds) ++ 0x20 :: r) ++ t1) ++ of_string ", started: +") (to_seconds (start_time v))) as [t2 ->].
  cbn [mbind result_bind]. assert (Forall (λ c, c ≠ 0x20) ds) as Hs.
  { eapply Forall_impl; [exact Hall|]. intros c (d & Hd' & ->). unfold digit. destruct (d <? 10) eqn:?; lia. }
  destruct (complete v); [|eexists; split; [by rewrite <- !app_assoc|split; [lia|done]]].
  match goal with |- context [format_interval ?d ?x] => destruct (format_interval_returns d x) as [t3 ->] end.
  eexists. split; [by rewrite <- !app_assoc|split; [lia|done]].
Qed.

(** Threads of different numbers have different texts. *)
Theorem thread_texts_apart view i j v w text : view !! i = Some v → view !! j = Some w → in_u 64 (native_id v) → in_u 64 (native_id w) →
  thread_text view (S (S i)) = Ret text → thread_text view (S (S j)) = Ret text → native_id v = native_id w.
Proof using Type.
  intros Hv Hw Hv' Hw' Ei Ej. destruct (thread_text_starts view i v Hv Hv') as (a & r & Ea & <- & Ha).
  destruct (thread_text_starts view j w Hw Hw') as (b & s & Eb & <- & Hb). rewrite Ei in Ea. rewrite Ej in Eb.
  apply Ret_inj in Ea. apply Ret_inj in Eb. rewrite Ea in Eb. apply app_inv_head in Eb. by rewrite (spaces_split a b r s).
Qed.
End intervals.

(** * A logarithm *)

(** The greatest power whose border an interval is not below, looked for from the least one on. *)
Section search.
Context (border : Q) (Hborder : (9994 # 10000 < border <= 9995 # 10000)%Q).

Fixpoint search_log (fuel : nat) (u : Q) (k : Z) : Z :=
  match fuel with
  | O => k
  | S fuel => if Qle_bool (border * power1000 (k + 1)) u then search_log fuel u (k + 1) else k
  end.

Definition digits_of (z : Z) : Z := Z.log2 z + 2.

Lemma digits_above z : 0 < z → 0 ≤ digits_of z ∧ 2 * z ≤ 1000 ^ digits_of z.
Proof using Type.
  intros Hz. unfold digits_of. pose proof (Z.log2_nonneg z). split; [lia|]. pose proof (Z.log2_spec z Hz) as [_ H1].
  replace (Z.log2 z + 2) with (Z.succ (Z.succ (Z.log2 z))) by lia.
  assert (2 ^ Z.succ (Z.succ (Z.log2 z)) ≤ 1000 ^ Z.succ (Z.succ (Z.log2 z))) by (apply Z.pow_le_mono_l; lia).
  rewrite (Z.pow_succ_r 2) in H0 by lia. lia.
Qed.

Definition log1000_of (u : Q) : Z :=
  search_log (Z.to_nat (digits_of (Z.pos (Qden u)) + digits_of (Qnum u))) u (- digits_of (Z.pos (Qden u))).

Lemma search_log_ok fuel u : ∀ k, (border * power1000 k <= u)%Q → (u < border * power1000 (k + Z.of_nat fuel))%Q →
  (border * power1000 (search_log fuel u k) <= u < border * power1000 (search_log fuel u k + 1))%Q.
Proof using Type.
  induction fuel as [|fuel IH]; intros k Hk Hu; cbn [search_log]; [rewrite Z.add_0_r in Hu; exfalso; apply (Qlt_irrefl u); eapply Qlt_le_trans; done|].
  destruct (Qle_bool (border * power1000 (k + 1)) u) eqn:E.
  - apply Qle_bool_iff in E. apply IH; [done|]. by replace (k + 1 + Z.of_nat fuel) with (k + Z.of_nat (S fuel)) by lia.
  - split; [done|]. apply Qnot_le_lt. intros Hle. apply Qle_bool_iff in Hle. congruence.
Qed.

Lemma log1000_ok u : (0 < u)%Q → (border * power1000 (log1000_of u) <= u < border * power1000 (log1000_of u + 1))%Q.
Proof using Hborder.
  intros Hu. destruct u as [n d]. unfold Qlt in Hu. cbn in Hu. assert (0 < n) as Hn by lia. unfold log1000_of. cbn [Qnum Qden].
  destruct (digits_above (Z.pos d) eq_refl) as [D0 D1]. destruct (digits_above n Hn) as [N0 N1].
  set (a := digits_of (Z.pos d)) in *. set (b := digits_of n) in *. apply search_log_ok.
  - assert (power1000 (- a) * power1000 a == 1)%Q as Hp by (rewrite <- power1000_add, Z.add_opp_diag_l; done).
    assert (inject_Z (Z.pos d) <= power1000 a)%Q as Hd by (rewrite <- power1000_int by lia; rewrite <- Zle_Qle; lia).
    pose proof (power1000_pos (- a)) as H0. assert (inject_Z (Z.pos d) * power1000 (- a) <= 1)%Q as H1 by nra.
    assert (1 <= inject_Z n)%Q as H2 by (change 1%Q with (inject_Z 1); rewrite <- Zle_Qle; lia).
    assert (n # d == inject_Z n / inject_Z (Z.pos d))%Q as -> by (rewrite Qmake_Qdiv; done).
    assert (0 < inject_Z (Z.pos d))%Q as H3 by (change 0%Q with (inject_Z 0); rewrite <- Zlt_Qlt; lia).
    apply Qle_shift_div_l; [done|]. nra.
  - rewrite Z2Nat.id by lia. replace (- a + (a + b)) with b by lia. rewrite <- power1000_int by lia.
    assert (inject_Z 2 * inject_Z n <= inject_Z (1000 ^ b))%Q as Hp by (rewrite <- inject_Z_mult, <- Zle_Qle; lia).
    assert (n # d <= inject_Z n)%Q as Hd by (unfold Qle; cbn; nia).
    assert (1 <= inject_Z n)%Q as H2 by (change 1%Q with (inject_Z 1); rewrite <- Zle_Qle; lia).
    change (inject_Z 2) with 2%Q in Hp. nra.
Qed.
End search.

Definition demo_border : Q := 99949931 # 100000000.
(** Thousandths, in the digits that are there. *)
Definition demo_print (enhanced : bool) (x : Q) : list Z :=
  match itoa 10 true 64 [] (Z.quot (1000 * Qnum x) (Z.pos (Qden x))) 0 0x30 with Ret t => t | _ => [] end.

Lemma interval_scaled_witness : let '(unit, v) := scaled_interval (log1000_of demo_border) (25 # 1000) in 0 ≤ unit < time_units_count ∧
  (unit = 0 ∧ (v == 0)%Q ∧ (Qabs (25 # 1000) < demo_border * power1000 (-3))%Q ∨
   (v == (25 # 1000) * power1000 unit)%Q ∧ (demo_border <= Qabs v)%Q ∧ (unit = 0 ∨ (Qabs v < 1999 # 2)%Q)).
Proof.
  apply (interval_scaled (log1000_of demo_border) demo_border); [by split|apply log1000_ok; by split|]. by intros E.
Defined.

(** A thread of 1.5 seconds, started after 25 milliseconds. *)
Example demo_thread_text :
  thread_text (log1000_of demo_border) demo_print [mk_info 17 "main" 25 0 1500 false] 2 =
    Ret (of_string "#17 - main - CPU: 1500s, started: +25000ms").
Proof. vm_compute. reflexivity. Qed.
