(* ===== verification/LogWriter.v ===== *)
(** The files of the log (logger/src/writer.cpp, logger/src/file_unix.cpp).

    Every process that logs to a path has a file of its own: one that nobody holds the lock of, with a number in its
    name when others were first. *)

From S2P Require Import Prelude Strings Logger Columns.
Local Open Scope Z_scope.

(** What a message goes to. *)
Inductive log_target := to_file (path : list Z) | to_stderr.

#[export] Instance log_target_eq_dec : EqDecision log_target.
Proof. solve_decision. Defined.

Inductive lock_result := lock_held | lock_busy | lock_failed.

Section writer.
(** What the system says: whether a file can be opened, and what becomes of locking it. *)
Context (fopen : list Z → bool) (flock : list Z → lock_result).

(** What could not be opened or locked for another reason than that it is locked goes to the standard error output. *)
(** [logger/src/file_unix.cpp:31-43] fopen_exclusive. [None] is the null pointer. *)
Definition fopen_exclusive (path : list Z) : option log_target :=
  if fopen (c_str path) then
    match flock (c_str path) with
    | lock_held => Some (to_file (c_str path))
    | lock_busy => None
    | lock_failed => Some to_stderr
    end
  else Some to_stderr.

(** A name up to its last dot, and the rest. *)
Fixpoint split_ext (l : list Z) : option (list Z * list Z) :=
  match l with
  | [] => None
  | c :: l =>
    match split_ext l with
    | Some (stem, ext) => Some (c :: stem, ext)
    | None => if c =? 0x2E then Some ([], c :: l) else None
    end
  end.

(** [logger/src/writer.cpp:49-52] create_writer. The next candidate. *)
Definition next_candidate (path filename ext : list Z) (u : Z) : result (list Z) :=
  candidate ← itoa 10 false 32 (path_join path filename ++ [0x2D]) u 0 0x30;
  Ret (candidate ++ ext).

(** [logger/src/writer.cpp:47-53] create_writer. The loop. *)
Fixpoint try_candidates (fuel : nat) (path filename ext candidate : list Z) (u : Z) : result (option log_target) :=
  match fuel with
  | O => Ret None
  | S fuel =>
    match fopen_exclusive candidate with
    | Some t => Ret (Some t)
    | None => candidate ← next_candidate path filename ext u; try_candidates fuel path filename ext candidate (u32 (u + 1))
    end
  end.

(** [logger/src/writer.cpp:36-56] create_writer. The file that is written to; [None] when it is trying still. *)
Definition create_writer (fuel : nat) (base_path : list Z) : result (option log_target) :=
  let path := directory_of base_path in
  let filename := c_str (file_name base_path) in
  let '(filename, ext) := default (filename, []) (split_ext filename) in
  try_candidates fuel path filename ext base_path 2.
End writer.

(** * Names *)

Lemma split_ext_spec l : match split_ext l with Some (stem, ext) => l = stem ++ ext | None => True end.
Proof.
  induction l as [|c l IH]; [done|]. cbn [split_ext]. destruct (split_ext l) as [[s e]|]; [by rewrite IH|]. by destruct (c =? 0x2E).
Qed.

(** The name of the log and its extension. *)
Definition name_and_ext (base : list Z) : list Z * list Z := default (c_str (file_name base), []) (split_ext (c_str (file_name base))).

(** The candidates in their order: the path itself, then those with the numbers from two on. *)
Definition name_of (base : list Z) (k : nat) : list Z :=
  match k with
  | O => base
  | S k =>
    match next_candidate (directory_of base) (name_and_ext base).1 (name_and_ext base).2 (Z.of_nat k + 2) with
    | Ret c => c
    | _ => []
    end
  end.

Lemma name_of_S base k : Z.of_nat k < 2 ^ 32 - 2 →
  ∃ ds, next_candidate (directory_of base) (name_and_ext base).1 (name_and_ext base).2 (Z.of_nat k + 2) = Ret (name_of base (S k)) ∧
    name_of base (S k) = (path_join (directory_of base) (name_and_ext base).1 ++ [0x2D]) ++ ds ++ (name_and_ext base).2 ∧
    of_digits 10 ds = Z.of_nat k + 2 ∧ ds ≠ [] ∧ 0 ∉ ds.
Proof.
  intros Hk. cbn [name_of]. unfold next_candidate.
  destruct (itoa_prints 10 false 32 (path_join (directory_of base) (name_and_ext base).1 ++ [0x2D]) (Z.of_nat k + 2) 0 0x30)
    as (ds & pads & E & Hd & Hne & Hp & Hall); [lia|lia|unfold in_u; lia|done|lia|].
  cbn [andb] in E, Hp. change (len []) with 0 in Hp. assert (pads = 0%nat) as -> by (pose proof (Nat2Z.is_nonneg (length ds)); lia).
  rewrite E. cbn [mbind result_bind replicate Datatypes.app]. exists ds.
  split; [done|]. split; [by rewrite <- !app_assoc|]. split; [lia|]. split; [done|].
  intros H0. rewrite Forall_forall in Hall. apply Hall in H0 as (d & ? & Hd0). unfold digit in Hd0. destruct (d <? 10) eqn:?; lia.
Qed.

Lemma c_str_whole l : 0 ∉ l → c_str l = l.
Proof.
  induction l as [|c l IH]; [done|]. intros [H0 Hl]%not_elem_of_cons. cbn [c_str].
  destruct (Z.eqb_spec c 0); [congruence|]. by rewrite IH.
Qed.

(** A path is its directory, a separator if there is one, and its name. *)
Lemma path_parts base : 0 ∉ base →
  ∃ sep, base = directory_of base ++ sep ++ (name_and_ext base).1 ++ (name_and_ext base).2 ∧ (length sep ≤ 1)%nat.
Proof.
  intros H0. assert (∃ sep, base = directory_of base ++ sep ++ file_name base ∧ (length sep ≤ 1)%nat) as (sep & Hb & Hs).
  { unfold directory_of, file_name. pose proof (split_last_spec base) as H. destruct (split_last base) as [[d n]|].
    - destruct H as (c & _ & -> & _). by exists [c]; simpl.
    - exists []. simpl. auto with lia. }
  exists sep. split; [|done]. rewrite Hb at 1. do 2 f_equal. unfold name_and_ext.
  rewrite c_str_whole by (intros ?; apply H0; rewrite Hb; set_solver).
  pose proof (split_ext_spec (file_name base)) as H. destruct (split_ext (file_name base)) as [[s e]|]; simpl; [done|by rewrite app_nil_r].
Qed.

Lemma path_join_length d n : (length d + length n ≤ length (path_join d n))%nat.
Proof.
  unfold path_join. destruct (last d) as [c|] eqn:E.
  - destruct (is_separator c); rewrite ?length_app; simpl; lia.
  - apply last_None in E as ->. simpl. lia.
Qed.

Lemma path_join_elem d n : 0 ∉ d → 0 ∉ n → 0 ∉ path_join d n.
Proof. unfold path_join. destruct (last d) as [c|]; [destruct (is_separator c)|]; rewrite ?elem_of_app; set_solver by lia. Qed.

Lemma name_of_whole base k : 0 ∉ base → Z.of_nat k < 2 ^ 32 - 1 → 0 ∉ name_of base k.
Proof.
  intros H0 Hk. destruct k as [|k]; [done|]. destruct (name_of_S base k) as (ds & _ & -> & _ & _ & Hds); [lia|].
  destruct (path_parts base H0) as (sep & Hb & _). rewrite Hb in H0. rewrite !elem_of_app in *.
  pose proof (path_join_elem (directory_of base) (name_and_ext base).1). set_solver.
Qed.

(** No two candidates are the same file. *)
Lemma name_of_inj base i j : 0 ∉ base → Z.of_nat i < 2 ^ 32 - 1 → Z.of_nat j < 2 ^ 32 - 1 → name_of base i = name_of base j → i = j.
Proof.
  intros H0. assert (∀ k, Z.of_nat k < 2 ^ 32 - 2 → (length base < length (name_of base (S k)))%nat) as Hlen.
  { intros k Hk. destruct (name_of_S base k Hk) as (ds & _ & -> & _ & Hne & _).
    destruct (path_parts base H0) as (sep & Hb & Hs). rewrite Hb at 1. rewrite !length_app. simpl.
    pose proof (path_join_length (directory_of base) (name_and_ext base).1). destruct ds; simpl in *; [done|lia]. }
  intros Hi Hj E. destruct i as [|i], j as [|j]; [done| | |].
  - specialize (Hlen j ltac:(lia)). rewrite <- E in Hlen. simpl in Hlen. lia.
  - specialize (Hlen i ltac:(lia)). rewrite E in Hlen. simpl in Hlen. lia.
  - destruct (name_of_S base i) as (di & _ & Ei & Hdi & _); [lia|]. destruct (name_of_S base j) as (dj & _ & Ej & Hdj & _); [lia|].
    rewrite Ei, Ej in E. apply app_inv_head, app_inv_tail in E. subst dj. f_equal. lia.
Qed.

(** * Writers *)

(** The first candidate that is not locked decides. *)
Lemma try_candidates_finds fopen flock base k t : ∀ n j, (j + n = k)%nat → Z.of_nat k < 2 ^ 32 - 2 →
  (∀ i, (j ≤ i < k)%nat → fopen_exclusive fopen flock (name_of base i) = None) →
  fopen_exclusive fopen flock (name_of base k) = Some t → ∀ fuel, (n < fuel)%nat →
  try_candidates fopen flock fuel (directory_of base) (name_and_ext base).1 (name_and_ext base).2 (name_of base j) (Z.of_nat j + 2) = Ret (Some t).
Proof.
  induction n as [|n IH]; intros j Hj Hk Hbusy Hopen [|fuel] Hf; [lia| |lia|]; cbn [try_candidates].
  - replace j with k by lia. by rewrite Hopen.
  - rewrite Hbusy by lia. destruct (name_of_S base j) as (_ & E & _); [lia|]. rewrite E. cbn [mbind result_bind].
    rewrite uw_small by (unfold in_u; lia). replace (Z.of_nat j + 2 + 1) with (Z.of_nat (S j) + 2) by lia.
    apply IH; [lia|done| |done|lia]. intros i Hi. apply Hbusy. lia.
Qed.

Lemma create_writer_unfold fopen flock fuel base : create_writer fopen flock fuel base =
  try_candidates fopen flock fuel (directory_of base) (name_and_ext base).1 (name_and_ext base).2 (name_of base 0) (Z.of_nat 0 + 2).
Proof. unfold create_writer, name_and_ext. by destruct (default _ _). Qed.

(** Processes that log to the same path one after another, none of which ends: what is opened is locked. *)
Fixpoint open_writers (n : nat) (base : list Z) (locked : list (list Z)) : result (list (option log_target)) :=
  match n with
  | O => Ret []
  | S n =>
    t ← create_writer (λ _, true) (λ p, if decide (p ∈ locked) then lock_busy else lock_held) (S (length locked)) base;
    ts ← open_writers n base (match t with Some (to_file p) => locked ++ [p] | _ => locked end);
    Ret (t :: ts)
  end.

Lemma open_writers_names base n : ∀ k, 0 ∉ base → Z.of_nat (k + n) < 2 ^ 32 - 1 →
  open_writers n base (name_of base <$> seq 0 k) = Ret ((λ i, Some (to_file (name_of base i))) <$> seq k n).
Proof.
  induction n as [|n IH]; intros k H0 Hk; [done|]. cbn [open_writers seq fmap list_fmap].
  assert (∀ i, (i ≤ k)%nat → c_str (name_of base i) = name_of base i) as Hw
    by (intros i Hi; apply c_str_whole, name_of_whole; [done|lia]).
  rewrite create_writer_unfold.
  rewrite (try_candidates_finds _ _ base k (to_file (name_of base k)) k 0); [|lia|lia| | |rewrite length_fmap, length_seq; lia].
  - cbn [mbind result_bind]. specialize (IH (S k) H0 ltac:(lia)). rewrite seq_S, fmap_app in IH. cbn [fmap list_fmap Nat.add] in IH. rewrite IH. done.
  - intros i Hi. unfold fopen_exclusive. rewrite Hw by lia. rewrite decide_True; [done|].
    apply list_elem_of_fmap. exists i. split; [done|]. apply elem_of_seq. lia.
  - unfold fopen_exclusive. rewrite Hw by lia. rewrite decide_False; [done|].
    intros (i & E & Hi%elem_of_seq)%list_elem_of_fmap. apply name_of_inj in E; [lia|done|lia|lia].
Qed.

(** Whoever logs to a path while others do writes to a file of its own: the path as it is is that of the first,
    those after it have their number in the name. *)
Theorem writers_apart base n : 0 ∉ base → Z.of_nat n < 2 ^ 32 - 1 →
  ∃ paths, open_writers n base [] = Ret (Some ∘ to_file <$> paths) ∧ length paths = n ∧ NoDup paths ∧ (0 < n → head paths = Some base)%nat ∧
    ∀ k p, paths !! S k = Some p →
      ∃ ds, p = path_join (directory_of base) (name_and_ext base).1 ++ [0x2D] ++ ds ++ (name_and_ext base).2 ∧ of_digits 10 ds = Z.of_nat k + 2.
Proof.
  intros H0 Hn. exists (name_of base <$> seq 0 n). pose proof (open_writers_names base n 0 H0 Hn) as E. cbn [seq fmap list_fmap] in E.
  rewrite E. split; [by rewrite <- list_fmap_compose|]. split; [by rewrite length_fmap, length_seq|]. split; [|split].
  - apply NoDup_fmap_2_strong; [|apply NoDup_seq].
    intros i j Hi%elem_of_seq Hj%elem_of_seq. apply name_of_inj; [done|lia|lia].
  - intros ?. by destruct n; [lia|].
  - intros k p (i & -> & Hi)%list_lookup_fmap_Some. apply lookup_seq in Hi as [-> Hi].
    destruct (name_of_S base k) as (ds & _ & E' & Hd & _); [lia|]. exists ds.
    split; [|done]. change (0 + S k)%nat with (S k). by rewrite E', <- app_assoc.
Qed.

Lemma writers_apart_witness :
  let base := of_string "/var/log/app.log" in
  open_writers 3 base [] = Ret (Some ∘ to_file <$> [base; of_string "/var/log/app-2.log"; of_string "/var/log/app-3.log"]) ∧
  ∃ paths, open_writers 3 base [] = Ret (Some ∘ to_file <$> paths) ∧ NoDup paths.
Proof.
  intros base. split; [by vm_compute|].
  destruct (writers_apart base 3) as (paths & E & _ & Hn & _); [by apply (bool_decide_unpack (0 ∉ base)); vm_compute|lia|].
  by exists paths.
Defined.

(** The directory of a path in the root is the empty one, and a writer that is not the first on such a path writes to
    where the process happens to be. *)
Lemma root_directory_lost :
  open_writers 2 (of_string "/app.log") [] = Ret (Some ∘ to_file <$> [of_string "/app.log"; of_string "app-2.log"]).
Proof. by vm_compute. Qed.
